(* ===== verification/_CoqProject ===== *)
-Q . S2P
Prelude.v
GoStrings.v
GoNet.v
Nostr.v
Config.v
Classifier.v
Rows.v
FilterSQL.v
Collapse.v
Query.v
Batcher.v
Tombstone.v
Admission.v
Feed.v
Schema.v
TierWriter.v
Store.v
Reads.v
Stream.v
Deletion.v
Archive.v
Engine.v
Control.v
Dedup.v
Writer.v
Ingest.v
Sources.v
CrashSafety.v
Mirror.v
Policy.v
Access.v
Scheduler.v
Relay.v
Publish.v
Management.v
Crawler.v
Priority.v
PriorityRun.v
ControlOpen.v
Stats.v
StatsRun.v
Api.v
Health.v
Lifecycle.v
Boot.v
