(* ===== verification/Prelude.v ===== *)
(** * archive-relay: a verification development

    archive-relay is a Nostr relay that keeps what it receives. This library models
    its Go sources and proves what they promise: accepted events are stored and not
    lost, queries answer what NIP-01 asks for, deletions and replacements hide what
    they should and nothing else, and the crawlers leave no gaps.

    ** The program

    Events enter through the relay (internal/relay, the hooks of khatru) and through
    two crawlers (internal/crawler) that share a dedup layer. The store
    (internal/store) puts every event into the batcher of its tier; a batcher inserts
    rows into ClickHouse and tells the feed mirror and the dedup layer which chunks
    are stored; a writer records these ids in SQLite (internal/control). Replaced
    and deleted events are hidden by the tombstone writer, whose dictionary every
    query consults. internal/policy decides who may read and write,
    internal/scheduler parks events dated in the future, internal/stats keeps
    snapshot tables and internal/api serves them. cmd/archive-relay/main.go starts
    all of it and stops it in order.

    ** Files

    - Prelude: fixed-width integers, Go errors, results, sorting; hint databases.
      GoStrings, GoNet: the string and address functions the sources use. Nostr:
      events, filters and NIP-01 matching, the external specification.
    - Config (config.go), Classifier (classifier.go, [tiersForFilter]), Rows
      ([rowFromEvent], [scanEvent], the derived columns of schema.go, [replyTarget]).
    - FilterSQL (filter_sql.go): the WHERE clause as a list of conditions, each with
      its SQL text, its arguments and its meaning on rows. Collapse: LIMIT 1 BY and
      the push-down of limits. Query: [collectEvents] over tiers and feed. Reads:
      [QueryEvents], [CountEvents]. Stream: the goroutine that delivers the collected
      events. Deletion: [DeleteEvent], the tombstone writer, the
      dictionary and the reads together. Archive: the specification of the whole store
      on events, and the refinement theorem. Engine: what merges and retention leave of
      the inserted rows (the engine and TTL clauses of [tierDDL]), and the reads over it.
    - Batcher (batcher.go): the worker's variables are [Worker], one turn of its
      select is [step], a run is a list of labels chosen by producers, timers, the
      database and shutdown. TierWriter: the class that states what the store needs
      of a batcher; the batcher is its instance. Store (store.go): [SaveEvent],
      [DeleteEvent], [ReplaceEvent], [FlushAll] against that class; [sstep]
      interleaves the phases of any number of calls with the workers.
    - Tombstone (tombstone.go), Feed (feed.go): step functions of their goroutines.
      Admission ([acquireRead]): one select of a caller per step. Schema (schema.go,
      bootstrap of store.go).
    - Control (control.go): the SQLite tables and their statements; ControlOpen:
      [Open] and the migration of an old file. Dedup (dedup.go): the two-generation
      cache and the durable queue; Writer: its goroutine. Ingest (ingest.go): the
      step both crawlers share, against the class [EventSaver]; Sources: the same step
      cut at its atomic calls, the pieces of all sources interleaved. CrashSafety: all
      tiers, the feed writer, the callbacks, the durable writer, feed expiry and crashes
      with restart as one system ([Node], [nstep]). Mirror: the feed mirror over that
      system, up to the reads it serves.
    - Policy (reject.go, ratelimit.go), Access (auth.go), Scheduler (scheduler.go, class
      [Publisher]), Relay (relay.go: [New] with every hook and field it sets). Publish:
      an event handed to the assembled relay, over the class [Khatru], and the loop of
      main.go in which the scheduler publishes through that relay. Management: NIP-86
      calls (class [NIP86]), [refreshLoop] and other writers of the allow-list,
      interleaved between the statement and the cache update of each.
    - Api (api.go), Health (the object main.go adds to the health route).
    - Crawler (crawler.go): one source goroutine as a state machine over its inputs.
      Priority, PriorityRun (priority.go): one tick with the timeout of each fetch, and
      the whole run with the log of the fetches it completed. Stats,
      StatsRun (stats.go): the refresh statements as what their SQL means, and the loop.
    - Lifecycle, Boot (main.go, [Store.Init], [Store.Close]): start and stop.

    ** How it is modelled

    A function of the source is a function here, with the source's name where that is
    possible; state is passed explicitly and a fallible call returns [option error] or
    [result]. What the code cannot know in advance (does this insert succeed, what
    does the clock say, which case does the select take, is the context cancelled) is
    an argument of the call or a label of the step, so a theorem over all arguments is
    a theorem over all schedules and all failures. [FailedStored] is an insert that
    reports an error after some or all of its rows were stored. Goroutines advance one
    call or one turn of their select at a time, so what other goroutines do in between
    is part of every run. Go's [int], int64 and time values are [Z]; each conversion to
    32 bits is written out ([uint32], [int32]), so an event read back is [asStored], with
    the low 32 bits of its timestamp, and sums of UInt64 columns wrap ([uint64]). Times are nanoseconds where the code uses
    [time.Duration], seconds where it uses Unix time. A physical table is the list of its
    rows, duplicates included. The order in which Go ranges over a map is an argument. A
    sort is any function that returns a sorted permutation ([GoSort]; merge sort is the
    instance used in examples).

    Fuel occurs in [finalFlush], [drainQueued], [feedDrain] and the prune loop. Each is
    given one unit more than the rows or batches it can meet, every round removes at
    least one, and the theorems about them say that they end with nothing left; for
    the final flush this needs a batch size of at least one, and what a batch size
    of zero does is a theorem of its own (Boot).

    ** Parameters

    [json_str] is encoding/json's string encoder; [marshal] and [unmarshal] encode
    events, with "decoding inverts encoding" as the one hypothesis (Scheduler, Publish);
    khatru is the classes [Khatru] and [NIP86], whose laws say that the gates are asked
    in order, the first refusal answers, and a passed call runs the installed functions
    ([AddEvent_rejects], [AddEvent_stores], [dispatch_denied], [dispatch_served]); each
    has a concrete instance in the examples;
    [verify] is the id and signature check; base64, URL parsing and [EqualFold] are
    arguments of the NIP-98 check; [uniqMerge] is ClickHouse's estimate and [addInterval]
    its calendar arithmetic. ClickHouse
    and SQLite are modelled as the tables the statements read and write.

    ** What the theorems show

    - Reads: the store refines the NIP-01 specification over accepted events as stored
      (Archive), also when the feed mirror serves them (Mirror), for filters whose
      numbers fit 32 bits and whose tag conditions are on e, p and t; the tier path and
      the feed path compute the specified answer, every answer is sound without
      assumptions (Query); merges and retention do not show in queries and counts, where
      a count counts every stored version (Engine); the events arrive in order and
      completely unless the request ends (Stream); a deletion finds the event it targets
      unless the flush behind it fails (Reads) and hides it for good (Deletion).
    - Writes: no accepted row is lost, duplicated or reordered, a nil FlushAll means
      stored, retries and the final flush end (Batcher); replacing never hides the
      newest version of a group whose replacements carry 32-bit timestamps, and an
      acknowledged one is durable (Store); what the relay accepts is parked, held or
      stored, and what its gates refuse changes nothing (Publish).
    - Hiding: every tombstone is accounted for, a clean dictionary is complete, and
      shutdown keeps them (Tombstone).
    - Durable dedup: an id is marked seen only when its event is stored, across
      crashes (CrashSafety); batches are atomic, pruning keeps the newest, the
      cache remembers (Control, Dedup, Writer); opening the database never loses
      data (ControlOpen).
    - Crawling: ingest admits exactly valid new events (Ingest), concurrent sources
      store each id once (Sources); both crawlers leave no hole under stated
      conditions, failover works (Crawler, PriorityRun, Priority).
    - Gates: allow-list, NIP-98, hooks, rate limits, read admission (Access, Relay,
      Policy, Admission, Api); the table of allowed keys is the log of committed changes,
      and the list in memory agrees with it for every key that is not being changed and
      was not changed behind a refresh or another call (Management).
    - Scheduling: a parked event reaches the archive or stays parked (Scheduler, Publish).
    - Feed mirror: its books, and when it is complete (Feed, Mirror). Snapshots (Stats,
      StatsRun). The health route counts what was dropped (Health).
    - Start and stop: order of start and of the deferred calls, what Init establishes,
      a graceful shutdown persists everything (Boot, Lifecycle).

    Some theorems describe behaviour that differs from what comments or NIP-01 say:
    an interrupted catch-up loses an outage (Crawler), values of other tags are
    conjoined and [until] is truncated (FilterSQL), the feed's margin (Query), a
    duplicate tombstone id (Tombstone), a republished event dated past 2106 (Store),
    a refresh racing a revocation (Access), overlapping management calls (Management), a
    busy answer with free tokens (Admission), an EOSE taken past the fetch timeout
    (PriorityRun), zap sums that wrap and a refresh across midnight (Stats), starvation
    (Scheduler), malformed kinds (Api), a batch size of zero (Boot), a forged
    copy that suppresses the genuine event (Sources), rows a crash leaves out of the
    feed (Mirror), a broken statistics stream served as complete (Api), an invented
    X-Forwarded-For that evades the rate limit (Policy).

    ** Not modelled

    khatru, go-nostr, the ClickHouse and SQLite engines, JSON and YAML decoding and
    the HTTP server are libraries the sources call. Logging, metrics, pprof, flag
    parsing and signal delivery carry no state. Timeouts are choices of the environment,
    not clocks, except the fetch timeout of the priority crawler. Outside Engine a tier table is the list of all rows ever inserted, so
    theorems about writes say what was stored; that is what Engine starts from. *)

From Stdlib Require Export ZArith Lia.
From stdpp Require Export sorting base tactics gmap strings fin_maps fin_sets option numbers pretty list.

#[global] Open Scope Z_scope.

(** ** Fixed-width integers

    Go's conversions [uint32(x)] and [int32(x)] keep the low 32 bits, those to 64 bits
    the low 64. *)

Definition uint32 (z : Z) : Z := z mod 2 ^ 32.
Definition int32 (z : Z) : Z :=
  let m := z mod 2 ^ 32 in if m <? 2 ^ 31 then m else m - 2 ^ 32.

Definition uint64 (z : Z) : Z := z mod 2 ^ 64.
Definition int64 (z : Z) : Z :=
  let m := z mod 2 ^ 64 in if m <? 2 ^ 63 then m else m - 2 ^ 64.

(** ** Go errors

    A Go [error] value is [None] when nil.  The sentinels are the package-level
    [errors.New] variables the code compares against with [errors.Is];
    [Opaque] is any other error value, [Wrapped] is [fmt.Errorf("...%w")]. *)

Inductive sentinel :=
  | ErrBatchFull
  | ErrBatcherStopped
  | ErrReadBusy
  | errTombstoneWriterStopped
  | errTombstoneWriterFull
  | CtxCanceled
  | ErrNoRows.

Inductive error :=
  | Sentinel (s : sentinel)
  | Opaque (msg : string)
  | Wrapped (msg : string) (e : error).

#[export] Instance sentinel_eq_dec : EqDecision sentinel.
Proof. solve_decision. Defined.
#[export] Instance error_eq_dec : EqDecision error.
Proof. solve_decision. Defined.

(** [errors.Is]: walk the chain of wrapped errors. *)
Fixpoint errors_Is (e : error) (s : sentinel) : bool :=
  match e with
  | Sentinel s' => bool_decide (s' = s)
  | Opaque _ => false
  | Wrapped _ e' => errors_Is e' s
  end.

(** ** Results: a value or an error, with sequencing *)

Inductive result (A : Type) :=
  | Ok (a : A)
  | Err (e : error).
Arguments Ok {A} a.
Arguments Err {A} e.

Declare Scope result_scope.
Delimit Scope result_scope with result.

Notation "'let?' x := c1 'in' c2" :=
  (match c1 with Ok x => c2 | Err e => Err e end)
  (at level 10, x pattern, c1 at level 100, c2 at level 200)
  : result_scope.
#[global] Open Scope result_scope.

(** ** Sorting as Go and SQL specify it

    [sort.Slice] and [ORDER BY] return the same elements in a non-decreasing
    order and leave the order of ties open. [GoSort R] is that promise. *)

Class GoSort {A : Type} (R : relation A) := {
  go_sort : list A -> list A;
  go_sort_perm : forall l, go_sort l ≡ₚ l;
  go_sort_sorted : forall l, StronglySorted R (go_sort l);
}.
Arguments go_sort {A} R {_} l.

(** A reference instance: stdpp's merge sort. *)
#[export] Instance merge_GoSort {A} (R : relation A)
    `{!RelDecision R, !Transitive R, !Total R} : GoSort R | 100 := {
  go_sort := merge_sort R;
  go_sort_perm := merge_sort_Permutation R;
  go_sort_sorted := StronglySorted_merge_sort R;
}.

(** ** Parts of a list *)

(** The elements whose flag is set; a missing flag is unset. *)
Fixpoint masked {A} (m : list bool) (l : list A) : list A :=
  match m, l with
  | b :: m', x :: l' => if b then x :: masked m' l' else masked m' l'
  | _, _ => []
  end.

(** ** Automation *)

Create HintDb relay.
Create Rewrite HintDb relay_rw.

(** Case split on every [match], [if] and [decide] scrutinee of the goal. *)
Ltac cases := repeat (case_match || case_decide).

(** ** Generic lemmas *)

Lemma filter_all {A} (P : A -> Prop) `{!forall x, Decision (P x)} (l : list A) :
  (forall x, x ∈ l -> P x) -> filter P l = l.
Proof.
  intros Hall. induction l as [|x l IH]; [done|]. rewrite filter_cons_True by (apply Hall; apply list_elem_of_here).
  f_equal. apply IH. intros y Hy. apply Hall. by apply list_elem_of_further.
Qed.

Lemma uint32_range z : 0 <= uint32 z < 2 ^ 32.
Proof. unfold uint32. apply Z.mod_pos_bound. lia. Qed.

Lemma uint32_id z : 0 <= z < 2 ^ 32 -> uint32 z = z.
Proof. intros. by apply Z.mod_small. Qed.

Lemma uint32_idemp z : uint32 (uint32 z) = uint32 z.
Proof. apply uint32_id, uint32_range. Qed.

Lemma int32_range z : - 2 ^ 31 <= int32 z < 2 ^ 31.
Proof.
  unfold int32. pose proof (Z.mod_pos_bound z (2 ^ 32) ltac:(lia)).
  destruct (Z.ltb_spec (z mod 2 ^ 32) (2 ^ 31)); lia.
Qed.

Lemma int32_id z : - 2 ^ 31 <= z < 2 ^ 31 -> int32 z = z.
Proof.
  intros Hz. unfold int32. destruct (Z.ltb_spec z 0).
  - rewrite <-(Z_mod_plus_full z 1 (2 ^ 32)), Z.mod_small by lia.
    case_match; lia.
  - rewrite Z.mod_small by lia. case_match; lia.
Qed.

(** Two sorted permutations agree as soon as the order is antisymmetric on the
    elements at hand: the tie-breaking freedom of [GoSort] is not observable. *)
Lemma go_sort_unique {A} (R : relation A) `{!GoSort R} (l k : list A) :
  (forall x y, x ∈ l -> y ∈ l -> R x y -> R y x -> x = y) ->
  StronglySorted R k -> k ≡ₚ l -> go_sort R l = k.
Proof.
  intros Hanti Hk Hperm. apply (StronglySorted_unique_strong R).
  - intros x y Hx Hy. apply Hanti.
    + by rewrite <-(go_sort_perm l).
    + by rewrite <-Hperm.
  - apply go_sort_sorted.
  - done.
  - by rewrite go_sort_perm.
Qed.

Lemma go_sort_elem_of {A} (R : relation A) `{!GoSort R} (l : list A) x :
  x ∈ go_sort R l <-> x ∈ l.
Proof. by rewrite go_sort_perm. Qed.

Lemma go_sort_length {A} (R : relation A) `{!GoSort R} (l : list A) :
  length (go_sort R l) = length l.
Proof. by rewrite go_sort_perm. Qed.

Lemma StronglySorted_take {A} (R : relation A) n (l : list A) :
  StronglySorted R l -> StronglySorted R (take n l).
Proof.
  intros H. rewrite <-(take_drop n l) in H.
  by apply StronglySorted_app_1_l in H.
Qed.

Lemma StronglySorted_sublist {A} (R : relation A) (l k : list A) :
  sublist k l -> StronglySorted R l -> StronglySorted R k.
Proof.
  induction 1 as [|x l k Hs IH|x l k Hs IH]; intros Hl; [done| |].
  - apply StronglySorted_inv in Hl as [Hl Hx]. constructor; [by apply IH|].
    rewrite Forall_forall in *. intros y Hy. apply Hx. by eapply sublist_subseteq.
  - apply StronglySorted_inv in Hl as [Hl _]. by apply IH.
Qed.

Lemma masked_sublist {A} m (l : list A) : sublist (masked m l) l.
Proof.
  revert l. induction m as [|b m IH]; intros [|x l]; simpl; try apply sublist_nil_l.
  destruct b; [apply sublist_skip|apply sublist_cons]; apply IH.
Qed.

Lemma sublist_masked {A} (k l : list A) : sublist k l -> exists m, k = masked m l.
Proof.
  induction 1 as [|x k l _ [m ->]|x k l _ [m ->]].
  - by exists [].
  - by exists (true :: m).
  - by exists (false :: m).
Qed.

Lemma masked_subseteq {A} m (l : list A) : masked m l ⊆ l.
Proof. apply sublist_subseteq, masked_sublist. Qed.

Lemma string_app_assoc (s t u : string) : s +:+ t +:+ u = (s +:+ t) +:+ u.
Proof.
  induction s as [|c s IH]; [done|].
  change (String c (s +:+ t +:+ u) = String c ((s +:+ t) +:+ u)). by rewrite IH.
Qed.

#[export] Hint Resolve uint32_range go_sort_sorted StronglySorted_take masked_subseteq : relay.
#[export] Hint Rewrite @go_sort_length uint32_idemp : relay_rw.
