(* ===== verification/GoStrings.v ===== *)
(** * ASCII string functions of Go's strings package

    [TrimSpace] and [Split] as the DDL runner and the source list use them. *)

From S2P Require Import Prelude.

Definition isSpace (c : Ascii.ascii) : bool :=
  bool_decide (Ascii.nat_of_ascii c ∈ [9; 10; 11; 12; 13; 32]%nat).

Fixpoint trimLeft (s : string) : string :=
  match s with
  | String c s' => if isSpace c then trimLeft s' else s
  | EmptyString => EmptyString
  end.
Definition trimRight (s : string) : string := String.rev (trimLeft (String.rev s)).
(** [strings.TrimSpace] on ASCII *)
Definition TrimSpace (s : string) : string := trimRight (trimLeft s).

(** [strings.Split(s, sep)] for a one-byte separator; [acc] is the piece being read. *)
Fixpoint splitOn (sep : Ascii.ascii) (s : string) (acc : string) : list string :=
  match s with
  | EmptyString => [acc]
  | String c s' => if Ascii.eqb c sep then acc :: splitOn sep s' "" else splitOn sep s' (acc +:+ String c "")
  end.

(** No piece contains the separator. *)
Lemma splitOn_free sep s acc v :
  (forall c, String.get c acc ≠ Some sep) -> v ∈ splitOn sep s acc -> forall c, String.get c v ≠ Some sep.
Proof.
  revert acc. induction s as [|x s IH]; intros acc Ha; simpl.
  - intros ->%list_elem_of_singleton. done.
  - destruct (Ascii.eqb_spec x sep) as [->|Hne].
    + intros [->|Hv]%elem_of_cons; [done|]. eapply IH; [|exact Hv]. by intros [].
    + apply IH. clear -Ha Hne. induction acc as [|y acc IHa]; intros [|c]; simpl.
      * congruence.
      * by destruct c.
      * exact (Ha 0%nat).
      * apply IHa. intros c'. exact (Ha (S c')).
Qed.
