(* ===== verification/GoNet.v ===== *)
(** * Addresses as Go's net package reads them

    [ParseIP] with the classification of addresses and [SplitHostPort], as the rate
    limiter uses them. An address is its 16 bytes; IPv4 addresses have the prefix
    [::ffff:0:0/96]. *)

From Stdlib Require Import Ascii.
From S2P Require Import Prelude GoStrings.

(** A string is walked as the list of its bytes. *)
Definition chars (s : string) : list Ascii.ascii := String.list_ascii_of_string s.
Definition byteOf (c : Ascii.ascii) : Z := Z.of_N (Ascii.N_of_ascii c).

Definition colon : Ascii.ascii := ":"%char.
Definition dot : Ascii.ascii := "."%char.

(** ** net.ParseIP *)

Definition decDigit (c : Ascii.ascii) : option Z :=
  let b := byteOf c in if (48 <=? b) && (b <=? 57) then Some (b - 48) else None.
Definition hexDigit (c : Ascii.ascii) : option Z :=
  let b := byteOf c in
  if (48 <=? b) && (b <=? 57) then Some (b - 48)
  else if (97 <=? b) && (b <=? 102) then Some (b - 87)
  else if (65 <=? b) && (b <=? 70) then Some (b - 55)
  else None.

(** The loop of [parseIPv4Fields]: [val] and [digLen] describe the field being read,
    [fields] are the finished ones. *)
Fixpoint parseIPv4Loop (s : list Ascii.ascii) (val : Z) (digLen : nat) (fields : list Z) : option (list Z) :=
  match s with
  | [] => if bool_decide (length fields = 3%nat) && bool_decide (digLen ≠ 0%nat) then Some (fields ++ [val]) else None
  | c :: s' =>
      match decDigit c with
      | Some d =>
          if bool_decide (digLen = 1%nat) && (val =? 0) then None
          else if 255 <? val * 10 + d then None
          else parseIPv4Loop s' (val * 10 + d) (S digLen) fields
      | None =>
          if Ascii.eqb c dot && bool_decide (digLen ≠ 0%nat) && bool_decide (length fields < 3)%nat
          then parseIPv4Loop s' 0 0 (fields ++ [val]) else None
      end
  end.
Definition parseIPv4Fields (s : list Ascii.ascii) : option (list Z) := parseIPv4Loop s 0 0 [].

(** The hexadecimal group at the front: its digits, at most four, its value and the
    rest. *)
Fixpoint hexGroup (s : list Ascii.ascii) (off : nat) (acc : Z) : option (nat * Z * list Ascii.ascii) :=
  match s with
  | [] => Some (off, acc, [])
  | c :: s' =>
      match hexDigit c with
      | Some d => if bool_decide (3 < off)%nat then None else hexGroup s' (S off) (16 * acc + d)
      | None => Some (off, acc, s)
      end
  end.

(** The bytes in front of the ellipsis, the zeros it stands for, the bytes behind it. *)
Definition expand (ip : list Z) (ellipsis : option nat) : option (list Z) :=
  match ellipsis with
  | None => if bool_decide (length ip = 16%nat) then Some ip else None
  | Some e => if bool_decide (length ip < 16)%nat
              then Some (take e ip ++ replicate (16 - length ip) 0 ++ drop e ip) else None
  end.

(** The loop of [parseIPv6], one round per group; 16 bytes are at most eight rounds. *)
Fixpoint parseIPv6Loop (rounds : nat) (s : list Ascii.ascii) (ip : list Z) (ellipsis : option nat) : option (list Z) :=
  match rounds with
  | O => match s with [] => expand ip ellipsis | _ :: _ => None end
  | S rounds' =>
      match hexGroup s 0 0 with
      | None | Some (O, _, _) => None
      | Some (_, acc, rest) =>
          match rest with
          | [] => expand (ip ++ [acc / 256; acc mod 256]) ellipsis
          | c :: rest' =>
              if Ascii.eqb c dot then
                if match ellipsis with None => bool_decide (length ip ≠ 12%nat) | Some _ => false end then None
                else if bool_decide (16 < length ip + 4)%nat then None
                else match parseIPv4Fields s with
                     | Some v4 => expand (ip ++ v4) ellipsis
                     | None => None
                     end
              else if Ascii.eqb c colon then
                let ip' := ip ++ [acc / 256; acc mod 256] in
                match rest' with
                | [] => None
                | c' :: rest'' =>
                    if Ascii.eqb c' colon then
                      match ellipsis with
                      | Some _ => None
                      | None => match rest'' with
                                | [] => expand ip' (Some (length ip'))
                                | _ :: _ => parseIPv6Loop rounds' rest'' ip' (Some (length ip'))
                                end
                      end
                    else parseIPv6Loop rounds' rest' ip' ellipsis
                end
              else None
          end
      end
  end.

Definition parseIPv6 (s : list Ascii.ascii) : option (list Z) :=
  match s with
  | c1 :: c2 :: s' =>
      if Ascii.eqb c1 colon && Ascii.eqb c2 colon then
        match s' with [] => Some (replicate 16 0) | _ :: _ => parseIPv6Loop 8 s' [] (Some 0%nat) end
      else parseIPv6Loop 8 s [] None
  | _ => parseIPv6Loop 8 s [] None
  end.

Definition v4prefix : list Z := replicate 10 0 ++ [255; 255].

(** The first of the characters [. : %] decides; an address with a zone is refused, and
    with a percent sign nothing else parses either. *)
Definition ParseIP (s : string) : option (list Z) :=
  if bool_decide ("%"%char ∈ chars s) then None
  else match list_find (fun c => c = dot \/ c = colon) (chars s) with
       | None => None
       | Some (_, c) => if Ascii.eqb c dot
                        then match parseIPv4Fields (chars s) with Some v4 => Some (v4prefix ++ v4) | None => None end
                        else parseIPv6 (chars s)
       end.

(** ** Classes of addresses *)

Definition To4 (ip : list Z) : option (list Z) :=
  if bool_decide (take 12 ip = v4prefix) then Some (drop 12 ip) else None.

Definition nthB (ip : list Z) (i : nat) : Z := default 0 (ip !! i).

Definition IsUnspecified (ip : list Z) : bool :=
  bool_decide (ip = v4prefix ++ [0; 0; 0; 0]) || bool_decide (ip = replicate 16 0).
Definition IsLoopback (ip : list Z) : bool :=
  match To4 ip with
  | Some v4 => nthB v4 0 =? 127
  | None => bool_decide (ip = replicate 15 0 ++ [1])
  end.
Definition IsMulticast (ip : list Z) : bool :=
  match To4 ip with
  | Some v4 => Z.land (nthB v4 0) 240 =? 224
  | None => nthB ip 0 =? 255
  end.
Definition IsLinkLocalUnicast (ip : list Z) : bool :=
  match To4 ip with
  | Some v4 => (nthB v4 0 =? 169) && (nthB v4 1 =? 254)
  | None => (nthB ip 0 =? 254) && (Z.land (nthB ip 1) 192 =? 128)
  end.
Definition IsGlobalUnicast (ip : list Z) : bool :=
  negb (bool_decide (ip = v4prefix ++ [255; 255; 255; 255])) && negb (IsUnspecified ip) && negb (IsLoopback ip) &&
  negb (IsMulticast ip) && negb (IsLinkLocalUnicast ip).
Definition IsPrivate (ip : list Z) : bool :=
  match To4 ip with
  | Some v4 => (nthB v4 0 =? 10) || ((nthB v4 0 =? 172) && (Z.land (nthB v4 1) 240 =? 16)) ||
               ((nthB v4 0 =? 192) && (nthB v4 1 =? 168))
  | None => Z.land (nthB ip 0) 254 =? 252
  end.

(** ** net.SplitHostPort

    The host part; every error leaves it empty. *)

Definition SplitHost (hostport : string) : string :=
  match list_find (fun c => c = colon) (reverse (chars hostport)) with
  | None => ""
  | Some (fromEnd, _) =>
      let s := chars hostport in
      let i := (length s - 1 - fromEnd)%nat in
      match s with
      | "["%char :: _ =>
          match list_find (fun c => c = "]"%char) s with
          | None => ""
          | Some (e, _) =>
              if bool_decide (S e = i) && bool_decide ("["%char ∉ drop 1 s) && bool_decide ("]"%char ∉ drop (S e) s)
              then String.string_of_list_ascii (drop 1 (take e s)) else ""
          end
      | _ =>
          if bool_decide (colon ∉ take i s) && bool_decide ("["%char ∉ s) && bool_decide ("]"%char ∉ s)
          then String.string_of_list_ascii (take i s) else ""
      end
  end.

(** ** Lemmas *)

Lemma parseIPv4Loop_length s val digLen fields v4 :
  parseIPv4Loop s val digLen fields = Some v4 -> length v4 = 4%nat.
Proof.
  revert val digLen fields. induction s as [|c s IH]; intros val digLen fields; simpl.
  - intros H. destruct (bool_decide_reflect (length fields = 3%nat)) as [Hl|]; [|done].
    case_match; [|done]. simplify_eq. rewrite length_app. simpl. lia.
  - intros H. repeat case_match; try done; eauto.
Qed.

Lemma expand_length ip e v : expand ip e = Some v -> length v = 16%nat.
Proof.
  unfold expand. intros H. destruct e as [e|]; case_bool_decide; simplify_eq; [|done].
  rewrite !length_app, length_take, length_replicate, length_drop. lia.
Qed.

Lemma parseIPv6Loop_length rounds s ip e v : parseIPv6Loop rounds s ip e = Some v -> length v = 16%nat.
Proof.
  revert s ip e. induction rounds as [|rounds IH]; intros s ip e; cbn [parseIPv6Loop]; intros H.
  - repeat case_match; try done. by eapply expand_length.
  - repeat case_match; try done; simplify_eq; eauto using expand_length.
Qed.

Lemma ParseIP_length s ip : ParseIP s = Some ip -> length ip = 16%nat.
Proof.
  assert (forall v4, parseIPv4Fields (chars s) = Some v4 -> length (v4prefix ++ v4) = 16%nat) as H4.
  { intros v4 H. rewrite length_app, (parseIPv4Loop_length _ _ _ _ _ H). done. }
  unfold ParseIP, parseIPv6. intros H. repeat case_match; simplify_eq; eauto using parseIPv6Loop_length.
Qed.

(** ** Examples *)

Example parse_v4 : ParseIP "192.0.2.1" = Some (v4prefix ++ [192; 0; 2; 1]).
Proof. reflexivity. Qed.
Example parse_v4_leading_zero : ParseIP "192.0.02.1" = None.
Proof. reflexivity. Qed.
Example parse_v4_short : ParseIP "192.0.2." = None /\ ParseIP "192..2.1" = None /\ ParseIP "1.2.3.4.5" = None.
Proof. done. Qed.
Example parse_v6 :
  ParseIP "2001:db8::1" = Some ([32; 1; 13; 184] ++ replicate 11 0 ++ [1]) /\
  ParseIP "::" = Some (replicate 16 0) /\ ParseIP "1::" = Some ([0; 1] ++ replicate 14 0) /\
  ParseIP "1:2:3:4:5:6:7:8" = Some [0; 1; 0; 2; 0; 3; 0; 4; 0; 5; 0; 6; 0; 7; 0; 8] /\
  ParseIP "::ffff:10.0.0.1" = Some (v4prefix ++ [10; 0; 0; 1]).
Proof. done. Qed.
Example parse_v6_refused :
  ParseIP "1:2:3:4:5:6:7" = None /\ ParseIP "1::2::3" = None /\ ParseIP "12345::" = None /\
  ParseIP "1:2:3:4:5:6:7::8" = None /\
  ParseIP "1:" = None /\ ParseIP "fe80::1%eth0" = None /\ ParseIP "1:2:3:4:5:6:7:8:9" = None.
Proof. done. Qed.
Example split_host :
  SplitHost "192.0.2.1:80" = "192.0.2.1" /\ SplitHost "[::1]:80" = "::1" /\ SplitHost "::1:80" = "" /\
  SplitHost "host" = "" /\ SplitHost "[::1]" = "" /\ SplitHost "[::1]x:80" = "" /\ SplitHost ":80" = "".
Proof. done. Qed.
