(* ===== verification/Nostr.v ===== *)
(** * Nostr data

    The fields of go-nostr's [Event] and [Filter] the relay reads.  Go's [int]
    and [nostr.Timestamp] (int64) are kept as [Z]; the places where the code
    narrows them to 32 bits apply [uint32] or [int32] explicitly.  A filter's
    tag map is the list of its entries in the order one [range] loop visits
    them: Go leaves that order open, so results are shown not to depend on it. *)

From S2P Require Import Prelude.

Record Event := mkEvent {
  ID : string;
  PubKey : string;
  CreatedAt : Z;
  Kind : Z;
  Tags : list (list string);
  Content : string;
  Sig : string;
}.

Record Filter := mkFilter {
  fIDs : list string;
  fKinds : list Z;
  fAuthors : list string;
  fTags : list (string * list string);
  fSince : option Z;
  fUntil : option Z;
  fLimit : Z;
}.

#[export] Instance Event_eq_dec : EqDecision Event.
Proof. solve_decision. Defined.
#[export] Instance Filter_eq_dec : EqDecision Filter.
Proof. solve_decision. Defined.

(** The empty filter of a Go composite literal [nostr.Filter{}]. *)
Definition emptyFilter : Filter := mkFilter [] [] [] [] None None 0.

(** [filter.Since = &since] *)
Definition set_fSince (f : Filter) (s : option Z) : Filter :=
  mkFilter (fIDs f) (fKinds f) (fAuthors f) (fTags f) s (fUntil f) (fLimit f).

(** An event whose integers survive the 32-bit columns of the tier tables. *)
Definition fits32 (e : Event) : Prop :=
  0 <= CreatedAt e < 2 ^ 32 /\ 0 <= Kind e < 2 ^ 32.
#[export] Instance fits32_dec e : Decision (fits32 e).
Proof. unfold fits32. apply _. Defined.

(** An event as those columns keep it. *)
Definition asStored (e : Event) : Event :=
  mkEvent (ID e) (PubKey e) (uint32 (CreatedAt e)) (uint32 (Kind e)) (Tags e) (Content e) (Sig e).

Lemma asStored_fits e : fits32 (asStored e).
Proof. split; simpl; auto with relay. Qed.

Lemma asStored_id e : fits32 e -> asStored e = e.
Proof. destruct e. intros [H1 H2]. unfold asStored. simpl in *. by rewrite !uint32_id. Qed.

(** NIP-01 filter matching for one tag entry: the event has a tag with that
    name whose first value is among the requested ones. *)
Definition tag_matches (e : Event) (kv : string * list string) : Prop :=
  kv.2 = [] \/ exists t v, t ∈ Tags e /\ t !! 0%nat = Some kv.1 /\ t !! 1%nat = Some v /\ v ∈ kv.2.

(** NIP-01 filter matching: an absent condition matches everything, the
    conditions are a conjunction, the values of one condition a disjunction. *)
Definition matches (f : Filter) (e : Event) : Prop :=
  (fIDs f = [] \/ ID e ∈ fIDs f) /\
  (fAuthors f = [] \/ PubKey e ∈ fAuthors f) /\
  (fKinds f = [] \/ Kind e ∈ fKinds f) /\
  (forall s, fSince f = Some s -> s <= CreatedAt e) /\
  (forall u, fUntil f = Some u -> CreatedAt e <= u) /\
  (forall kv, kv ∈ fTags f -> tag_matches e kv).

(** Both are decidable, so the reference semantics of a query is executable. *)
Definition tag_holds (kv : string * list string) (t : list string) : Prop :=
  t !! 0%nat = Some kv.1 /\ exists v, t !! 1%nat = Some v /\ v ∈ kv.2.
#[export] Instance tag_holds_dec kv t : Decision (tag_holds kv t).
Proof.
  apply and_dec; [apply _|]. destruct (t !! 1%nat) as [v|] eqn:Et; [|right; intros (v & [=] & _)].
  destruct (decide (v ∈ kv.2)) as [Hv|Hv]; [left; by exists v|right; intros (v' & [= <-] & H); done].
Defined.

Lemma tag_matches_alt e kv : tag_matches e kv <-> kv.2 = [] \/ Exists (tag_holds kv) (Tags e).
Proof. unfold tag_matches, tag_holds. rewrite Exists_exists. naive_solver. Qed.

#[export] Instance tag_matches_dec e kv : Decision (tag_matches e kv).
Proof.
  destruct (decide (kv.2 = [] \/ Exists (tag_holds kv) (Tags e))) as [H|H];
    rewrite <-tag_matches_alt in H; [left|right]; exact H.
Defined.

#[export] Instance matches_dec f e : Decision (matches f e).
Proof.
  unfold matches. apply and_dec; [apply _|]. apply and_dec; [apply _|]. apply and_dec; [apply _|].
  apply and_dec; [|apply and_dec].
  - destruct (fSince f) as [s|]; [|left; intros s [=]].
    destruct (decide (s <= CreatedAt e)); [left; by intros ? [= <-]|right; intros H; by apply n, H].
  - destruct (fUntil f) as [u|]; [|left; intros u [=]].
    destruct (decide (CreatedAt e <= u)); [left; by intros ? [= <-]|right; intros H; by apply n, H].
  - destruct (decide (Forall (tag_matches e) (fTags f))) as [H|H]; rewrite Forall_forall in H; [left|right]; exact H.
Defined.
