(* ===== verification/Config.v ===== *)
(** * Configuration (internal/config/config.go)

    The configuration record, its defaults and [Load].  Reading the file and
    decoding YAML are library code and appear as arguments of [Load].
    Durations are [Z] nanoseconds, as in Go. *)

From S2P Require Import Prelude.

Definition Second : Z := 1000000000.
Definition Minute : Z := 60 * Second.
Definition Hour : Z := 60 * Minute.

Record RelayCfg := mkRelayCfg { Addr : string; ServiceURL : string }.
Record ClickHouseCfg := mkClickHouseCfg {
  ch_Addr : string; ch_Database : string; ch_Username : string; ch_Password : string }.
Record SQLiteCfg := mkSQLiteCfg { Path : string }.
Record BatchCfg := mkBatchCfg { MaxSize : Z; MaxAge : Z }.
Record RetentionCfg := mkRetentionCfg { Permanent : string; Archive : string; Social : string }.
Record PolicyCfg := mkPolicyCfg {
  MaxIDs : Z; MaxAuthors : Z; MaxKinds : Z; MaxTags : Z; DefaultSinceHours : Z }.
Record CrawlerCfg := mkCrawlerCfg {
  PriorityPubkeys : list string; Relays : list string; Interval : Z }.
Record AuthCfg := mkAuthCfg {
  AuthEnabled : bool; AllowPubkeys : list string; AdminPubkeys : list string }.

Record Config := mkConfig {
  cfgRelay : RelayCfg;
  cfgClickHouse : ClickHouseCfg;
  cfgSQLite : SQLiteCfg;
  cfgBatch : BatchCfg;
  cfgRetention : RetentionCfg;
  cfgClassifier : gmap Z string;
  cfgPolicy : PolicyCfg;
  cfgCrawler : CrawlerCfg;
  cfgAuth : AuthCfg;
}.

Definition defaults : Config :=
  mkConfig
    (mkRelayCfg ":3334" "")
    (mkClickHouseCfg "localhost:9000" "archive_relay" "default" "")
    (mkSQLiteCfg "./control.db")
    (mkBatchCfg 5000 (5 * Second))
    (mkRetentionCfg "" "10 YEAR" "1 YEAR")
    ∅
    (mkPolicyCfg 1000 1000 20 256 48)
    (mkCrawlerCfg [] [] (10 * Minute))
    (mkAuthCfg false [] []).

(** [yaml.Unmarshal(b, c)] overwrites the fields of [c] the document names. *)
Definition Load (ReadFile : string -> result string)
    (Unmarshal : string -> Config -> result Config) (path : string) : result Config :=
  let c := defaults in
  if String.eqb path "" then Ok c
  else
    let? b := ReadFile path in
    let? c' := Unmarshal b c in
    Ok c'.
