(* ===== verification/Classifier.v ===== *)
(** * Kind classifier (internal/store/classifier.go)

    The kind-to-tier map that decides what the relay stores, the override map
    of the configuration, and the sets of kinds the other components use. *)

From S2P Require Import Prelude Nostr.

Definition TierPermanent : string := "permanent".
Definition TierArchive : string := "archive".
Definition TierSocial : string := "social".
Definition TierDrop : string := "drop".

Definition activeTiers : list string := [TierPermanent; TierArchive; TierSocial].

Definition classify (kind : Z) : string :=
  if bool_decide (kind ∈ [0; 3; 9735; 10002]) then TierPermanent
  else if bool_decide (kind ∈ [1]) then TierArchive
  else if bool_decide (kind ∈ [6; 7; 16]) then TierSocial
  else TierDrop.

Definition TierForKind (kind : Z) : string := classify kind.

Definition InScopeKinds : list Z := [0; 1; 3; 6; 7; 16; 9735; 10002].

Definition classifyWithOverride (kind : Z) (override : gmap Z string) : string :=
  match override !! kind with
  | Some t => t
  | None => classify kind
  end.

Definition tierForEvent (evt : Event) (override : gmap Z string) : string :=
  classifyWithOverride (Kind evt) override.

Definition isReplaceableKind (kind : Z) : bool :=
  bool_decide (kind ∈ [0; 3; 10002]).

(** [tiersForFilter] (store.go): the tiers that can hold the filter's kinds,
    each once, in order of first appearance. *)
Fixpoint tiersForKinds (kinds : list Z) (override : gmap Z string)
    (seen : gset string) : list string :=
  match kinds with
  | [] => []
  | k :: ks =>
      let t := classifyWithOverride k override in
      if String.eqb t TierDrop then tiersForKinds ks override seen
      else if decide (t ∈ seen) then tiersForKinds ks override seen
      else t :: tiersForKinds ks override ({[t]} ∪ seen)
  end.

Definition tiersForFilter (f : Filter) (override : gmap Z string) : list string :=
  match fKinds f with
  | [] => activeTiers
  | _ :: _ => tiersForKinds (fKinds f) override ∅
  end.

(** ** Lemmas *)

Lemma classify_drop k : classify k = TierDrop <-> k ∉ InScopeKinds.
Proof.
  unfold classify, InScopeKinds.
  repeat case_bool_decide; split; intros HH; try done; set_solver.
Qed.

Lemma classify_replaceable k : isReplaceableKind k = true -> classify k = TierPermanent.
Proof.
  unfold isReplaceableKind, classify. intros H%bool_decide_eq_true.
  rewrite bool_decide_eq_true_2; [done|]. set_solver.
Qed.

Lemma classify_active k : classify k ≠ TierDrop -> classify k ∈ activeTiers.
Proof.
  unfold classify, activeTiers. repeat case_bool_decide; intros; set_solver.
Qed.

Lemma tiersForKinds_elem ks ov seen t :
  t ∈ tiersForKinds ks ov seen <->
  t ∉ seen /\ t ≠ TierDrop /\ exists k, k ∈ ks /\ classifyWithOverride k ov = t.
Proof.
  revert seen. induction ks as [|k ks IH]; intros seen; simpl; [set_solver|].
  destruct (String.eqb_spec (classifyWithOverride k ov) TierDrop).
  { rewrite IH. set_solver. }
  case_decide; [rewrite IH; set_solver|].
  rewrite elem_of_cons, IH. set_unfold.
  destruct (decide (t = classifyWithOverride k ov)); naive_solver.
Qed.

Lemma tiersForKinds_NoDup ks ov seen : NoDup (tiersForKinds ks ov seen).
Proof.
  revert seen. induction ks as [|k ks IH]; intros seen; simpl; [constructor|].
  repeat case_match; eauto. constructor; [|eauto].
  rewrite tiersForKinds_elem. set_solver.
Qed.

Lemma tiersForFilter_NoDup f ov : NoDup (tiersForFilter f ov).
Proof.
  unfold tiersForFilter. case_match; [|apply tiersForKinds_NoDup].
  apply (bool_decide_unpack _). vm_compute. done.
Qed.
