(* ===== verification/Rows.v ===== *)
(** * Tier-table rows (internal/store/batcher.go, schema.go, store.go)

    How an event becomes a row of a tier table ([rowFromEvent]), how a row
    becomes an event again ([scanEvent]), the columns ClickHouse derives from
    [tags] by the DEFAULT expressions of schema.go, and the NIP-10 reply parent.

    [json_str] is [encoding/json]'s string encoder, an argument throughout:
    nothing proved here depends on its escaping rules. *)

From S2P Require Import Prelude Nostr.

(** The columns of [tierColumns], in INSERT order. *)
Record Row := mkRow {
  row_id : string;
  row_pubkey : string;
  row_created_at : Z;
  row_kind : Z;
  row_content : string;
  row_sig : string;
  row_tags_raw : string;
  row_tags : list (list string);
  row_reply_to : string;
}.

#[export] Instance Row_eq_dec : EqDecision Row.
Proof. solve_decision. Defined.

(** [strings.Join] *)
Definition strings_Join (sep : string) (ss : list string) : string := String.concat sep ss.

Section json.
Variable json_str : string -> string.

(** [json.Marshal] of a [[][]string]; an event with nil Tags, for which it writes null
    and no tag is stored either way, is the empty list here. *)
Definition json_array (items : list string) : string :=
  "[" +:+ strings_Join "," items +:+ "]".
Definition json_tags (tags : list (list string)) : string :=
  json_array (map (fun t => json_array (map json_str t)) tags).

(** [nativeTags] / [nostrTags] copy the slices element by element. *)
Definition nativeTags (tags : list (list string)) : list (list string) :=
  map (fun t => [] ++ t) tags.
Definition nostrTags (tags : list (list string)) : list (list string) :=
  map (fun t => [] ++ t) tags.

(** [replyTarget]: the loop carries the last unmarked e-tag. *)
Fixpoint replyTarget_loop (tags : list (list string)) (lastPositional : string) : string :=
  match tags with
  | [] => lastPositional
  | t :: rest =>
      match t with
      | t0 :: t1 :: t' =>
          if String.eqb t0 "e" then
            let marker := match t' with _ :: m :: _ => m | _ => "" end in
            if String.eqb marker "reply" then t1
            else if String.eqb marker "" then replyTarget_loop rest t1
            else replyTarget_loop rest lastPositional
          else replyTarget_loop rest lastPositional
      | _ => replyTarget_loop rest lastPositional
      end
  end.
Definition replyTarget (tags : list (list string)) : string := replyTarget_loop tags "".

Definition rowFromEvent (evt : Event) : Row :=
  mkRow (ID evt) (PubKey evt) (uint32 (CreatedAt evt)) (uint32 (Kind evt))
        (Content evt) (Sig evt) (json_tags (Tags evt)) (nativeTags (Tags evt))
        (replyTarget (Tags evt)).

Definition scanEvent (r : Row) : Event :=
  mkEvent (row_id r) (row_pubkey r) (row_created_at r) (row_kind r)
          (nostrTags (row_tags r)) (row_content r) (row_sig r).
End json.

(** ** Derived columns: the DEFAULT expressions of schema.go *)

(** [arrayFilter(x -> length(x) >= 2 AND x[1] = k, tags)] *)
Definition tags_named (k : string) (tags : list (list string)) : list (list string) :=
  filter (fun t => 2 <= length t /\ t !! 0%nat = Some k)%nat tags.

(** ClickHouse array access [x[2]]: the default [''] out of range. *)
Definition second (t : list string) : string := default "" (t !! 1%nat).

(** [arrayMap(x -> x[2], arrayFilter(...))] *)
Definition tag_col (k : string) (r : Row) : list string :=
  map second (tags_named k (row_tags r)).
Definition tag_e : Row -> list string := tag_col "e".
Definition tag_p : Row -> list string := tag_col "p".
Definition tag_t : Row -> list string := tag_col "t".

(** [arrayFirst(x -> length(x) >= 2 AND x[1] = 'd', tags)[2]] *)
Definition tag_d (r : Row) : string :=
  match tags_named "d" (row_tags r) with [] => "" | t :: _ => second t end.

(** ** Lemmas *)

(** An e-tag usable by [replyTarget], with its id and marker. *)
Definition etag (t : list string) : option (string * string) :=
  match t with
  | t0 :: t1 :: t' =>
      if String.eqb t0 "e"
      then Some (t1, match t' with _ :: m :: _ => m | _ => "" end) else None
  | _ => None
  end.

Lemma replyTarget_loop_etags tags lastPositional :
  replyTarget_loop tags lastPositional =
  match list_find (fun im : string * string => im.2 = "reply") (omap etag tags) with
  | Some (_, (i, _)) => i
  | None => default lastPositional
              (fst <$> last (filter (fun im : string * string => im.2 = "") (omap etag tags)))
  end.
Proof.
  revert lastPositional. induction tags as [|t tags IH]; intros last; [done|]. simpl.
  destruct t as [|t0 [|t1 t']]; simpl; try apply IH.
  destruct (String.eqb_spec t0 "e"); simpl; [|apply IH].
  set (m := match t' with _ :: m :: _ => m | _ => "" end).
  destruct (String.eqb_spec m "reply") as [E|E].
  { rewrite decide_True by done. done. }
  rewrite decide_False by done.
  destruct (String.eqb_spec m "") as [E'|E'].
  - rewrite IH, filter_cons_True by done. simpl.
    destruct (list_find _ _) as [[? [? ?]]|]; [done|]. simpl.
    rewrite last_cons. by destruct (list.last _).
  - rewrite IH, filter_cons_False by done.
    by destruct (list_find _ _) as [[? [? ?]]|].
Qed.

Lemma nostrTags_nativeTags tags : nostrTags (nativeTags tags) = tags.
Proof.
  unfold nostrTags, nativeTags. rewrite map_map. simpl. apply map_id.
Qed.

Lemma nativeTags_id tags : nativeTags tags = tags.
Proof. unfold nativeTags. simpl. apply map_id. Qed.

Lemma tag_col_elem k json e v :
  v ∈ tag_col k (rowFromEvent json e) <->
  exists t, t ∈ Tags e /\ t !! 0%nat = Some k /\ t !! 1%nat = Some v.
Proof.
  unfold tag_col, tags_named, rowFromEvent, second. simpl. rewrite nativeTags_id.
  rewrite list_elem_of_fmap. setoid_rewrite list_elem_of_filter. split.
  - intros (t & -> & (Hlen & Hk) & Ht). exists t. split_and!; [done..|].
    destruct t as [|? [|? ?]]; simpl in *; [lia..|done].
  - intros (t & Ht & Hk & Hv). exists t. rewrite Hv. split_and!; [done| |done..].
    apply lookup_lt_Some in Hv. lia.
Qed.

Lemma row_roundtrip_fits json e : fits32 e -> scanEvent (rowFromEvent json e) = e.
Proof.
  destruct e as [i pk ts k tags c sg]. unfold scanEvent, rowFromEvent, fits32. simpl.
  rewrite nostrTags_nativeTags. intros [Hts Hk]. by rewrite !uint32_id.
Qed.

Lemma row_asStored json e : rowFromEvent json (asStored e) = rowFromEvent json e.
Proof. unfold rowFromEvent, asStored. simpl. by rewrite !(uint32_id (uint32 _)) by auto with relay. Qed.

(** ** Properties *)

(** C40: Row round trip: reading back a stored event yields the event exactly
    when its timestamp and kind fit the UInt32 columns; no other field can be
    altered by storage.  (The narrowing of [uint32(evt.CreatedAt)] is the only
    lossy step between [rowFromEvent] and [scanEvent].) *)
Theorem row_roundtrip json e :
  scanEvent (rowFromEvent json e) = e <-> fits32 e.
Proof.
  destruct e as [i pk ts k tags c sg]. unfold scanEvent, rowFromEvent, fits32. simpl.
  rewrite nostrTags_nativeTags. split.
  - intros [= Hts Hk]. rewrite <-Hts, <-Hk. split; auto with relay.
  - intros [Hts Hk]. by rewrite !uint32_id.
Qed.

(** NIP-10 parent: [replyTarget] returns the id of the first e-tag marked
    ["reply"]; when there is none, the id of the last unmarked e-tag; when
    there is none either, the empty string.  Tags marked ["root"], ["mention"]
    or anything else never decide the parent. *)
Theorem replyTarget_spec tags :
  replyTarget tags =
  match list_find (fun im : string * string => im.2 = "reply") (omap etag tags) with
  | Some (_, (i, _)) => i
  | None => default ""
              (fst <$> last (filter (fun im : string * string => im.2 = "") (omap etag tags)))
  end.
Proof. apply replyTarget_loop_etags. Qed.
