(* ===== verification/FilterSQL.v ===== *)
(** * Filter to SQL (internal/store/filter_sql.go)

    [buildFilterSQL] turns a filter into a WHERE clause with positional
    arguments.  The clause is kept as the list of its conjuncts ([Cond]); each
    conjunct has its SQL text ([cond_sql]), the arguments it binds
    ([cond_args]) and its meaning on a row ([cond_holds]).  The text and the
    arguments are what the Go function returns, the meaning is what ClickHouse
    computes for that text. *)

From Stdlib Require Import Ascii.
From S2P Require Import Prelude Nostr Rows.

Definition defaultQueryLimit : Z := 1000.

(** The bound arguments, by Go type. *)
Inductive Arg :=
  | AStrings (l : list string)
  | AInt32s (l : list Z)
  | AString (s : string)
  | AUint32 (z : Z).

Inductive Cond :=
  | CIds (ids : list string)
  | CAuthors (pks : list string)
  | CKinds (kinds : list Z)
  | CHasAnyE (vals : list string)
  | CHasAnyP (vals : list string)
  | CHasAnyT (vals : list string)
  | CTagD (v : string)
  | CPosition (needle : string)
  | CSince (ts : Z)
  | CUntil (ts : Z)
  | CLive.

Definition cond_sql (c : Cond) : string :=
  match c with
  | CIds _ => "id IN (?)"
  | CAuthors _ => "pubkey IN (?)"
  | CKinds _ => "kind IN (?)"
  | CHasAnyE _ => "hasAny(tag_e, ?)"
  | CHasAnyP _ => "hasAny(tag_p, ?)"
  | CHasAnyT _ => "hasAny(tag_t, ?)"
  | CTagD _ => "tag_d = ?"
  | CPosition _ => "position(tags_raw, ?) > 0"
  | CSince _ => "created_at >= ?"
  | CUntil _ => "created_at <= ?"
  | CLive => "NOT dictHas('tombstone_dict', id)"
  end.

Definition cond_args (c : Cond) : list Arg :=
  match c with
  | CIds l | CAuthors l | CHasAnyE l | CHasAnyP l | CHasAnyT l => [AStrings l]
  | CKinds l => [AInt32s l]
  | CTagD s | CPosition s => [AString s]
  | CSince z | CUntil z => [AUint32 z]
  | CLive => []
  end.

(** [position(haystack, needle) > 0]: substring test. *)
Fixpoint contains (needle haystack : string) : bool :=
  String.prefix needle haystack ||
  match haystack with
  | EmptyString => false
  | String _ rest => contains needle rest
  end.

Definition hasAny (col vals : list string) : bool :=
  bool_decide (Exists (fun v => v ∈ vals) col).

(** [dict] is the content of [tombstone_dict]. *)
Definition cond_holds (dict : gset string) (c : Cond) (r : Row) : bool :=
  match c with
  | CIds l => bool_decide (row_id r ∈ l)
  | CAuthors l => bool_decide (row_pubkey r ∈ l)
  | CKinds l => bool_decide (row_kind r ∈ l)
  | CHasAnyE l => hasAny (tag_e r) l
  | CHasAnyP l => hasAny (tag_p r) l
  | CHasAnyT l => hasAny (tag_t r) l
  | CTagD v => String.eqb (tag_d r) v
  | CPosition n => contains n (row_tags_raw r)
  | CSince ts => ts <=? row_created_at r
  | CUntil ts => row_created_at r <=? ts
  | CLive => negb (bool_decide (row_id r ∈ dict))
  end.

Section build.
Variable json_str : string -> string.

(** The [switch key] of the tag loop. *)
Definition tag_conds (kv : string * list string) : list Cond :=
  match kv.2 with
  | [] => []
  | v :: _ =>
      if String.eqb kv.1 "e" then [CHasAnyE kv.2]
      else if String.eqb kv.1 "p" then [CHasAnyP kv.2]
      else if String.eqb kv.1 "t" then [CHasAnyT kv.2]
      else if String.eqb kv.1 "d" then [CTagD v]
      else map (fun v => CPosition (json_str kv.1 +:+ "," +:+ json_str v)) kv.2
  end.

Definition buildConds (f : Filter) : list Cond :=
  (if decide (fIDs f = []) then [] else [CIds (fIDs f)]) ++
  (if decide (fAuthors f = []) then [] else [CAuthors (fAuthors f)]) ++
  (if decide (fKinds f = []) then [] else [CKinds (map int32 (fKinds f))]) ++
  (fTags f ≫= tag_conds) ++
  match fSince f with Some s => [CSince (uint32 s)] | None => [] end ++
  match fUntil f with Some u => [CUntil (uint32 u)] | None => [] end ++
  [CLive].

(** [limit := f.Limit; if limit < 1 || limit > defaultQueryLimit ...] *)
Definition clampLimit (limit : Z) : Z :=
  if (limit <? 1) || (defaultQueryLimit <? limit) then defaultQueryLimit else limit.

Definition collapseLimitBy : string := "LIMIT 1 BY kind, if(kind IN (0,3,10002), pubkey, id)".

Definition buildFilterSQL (f : Filter) : string * list Arg * string :=
  let conds := buildConds f in
  let where_ := match conds with
                | [] => "1=1"
                | _ => strings_Join " AND " (map cond_sql conds)
                end in
  (where_, conds ≫= cond_args,
   " ORDER BY created_at DESC, id ASC " +:+ collapseLimitBy +:+ " LIMIT "
     +:+ pretty (clampLimit (fLimit f))).

(** The meaning of the WHERE clause. *)
Definition where_holds (dict : gset string) (f : Filter) (r : Row) : Prop :=
  Forall (fun c => cond_holds dict c r = true) (buildConds f).
#[export] Instance where_holds_dec dict f r : Decision (where_holds dict f r).
Proof. unfold where_holds. apply _. Defined.
End build.

(** The number of [?] placeholders in a SQL text. *)
Fixpoint placeholders (s : string) : nat :=
  match s with
  | EmptyString => 0
  | String c s' => (if Ascii.eqb c "?"%char then 1 else 0) + placeholders s'
  end.

(** A filter whose numbers survive the 32-bit bindings. *)
Definition filter_fits32 (f : Filter) : Prop :=
  (forall k, k ∈ fKinds f -> - 2 ^ 31 <= k < 2 ^ 31) /\
  (forall s, fSince f = Some s -> 0 <= s < 2 ^ 32) /\
  (forall u, fUntil f = Some u -> 0 <= u < 2 ^ 32).

(** A filter whose tag conditions are all on the indexed keys e, p, t. *)
Definition hot_tags (f : Filter) : Prop :=
  forall kv, kv ∈ fTags f -> kv.1 ∈ ["e"; "p"; "t"].

(** ** Lemmas *)

Lemma placeholders_app s t : placeholders (s +:+ t) = (placeholders s + placeholders t)%nat.
Proof.
  induction s as [|c s IH]; [done|]. change (placeholders (String c (s +:+ t)) =
    placeholders (String c s) + placeholders t)%nat.
  simpl. rewrite IH. lia.
Qed.

Lemma placeholders_join sep ss :
  placeholders sep = 0%nat ->
  placeholders (strings_Join sep ss) = sum_list_with placeholders ss.
Proof.
  intros Hsep. unfold strings_Join. induction ss as [|s ss IH]; [done|].
  destruct ss as [|s' ss]; [simpl; lia|].
  change (String.concat sep (s :: s' :: ss)) with (s +:+ sep +:+ String.concat sep (s' :: ss)).
  rewrite !placeholders_app, IH, Hsep. done.
Qed.

Lemma cond_placeholders c : placeholders (cond_sql c) = length (cond_args c).
Proof. by destruct c. Qed.

Lemma conds_placeholders cs :
  sum_list_with placeholders (map cond_sql cs) = length (cs ≫= cond_args).
Proof.
  induction cs as [|c cs IH]; [done|]. cbn [map sum_list_with].
  rewrite bind_cons, length_app, IH, cond_placeholders. done.
Qed.

Lemma hasAny_spec col vals : hasAny col vals = true <-> exists v, v ∈ col /\ v ∈ vals.
Proof. unfold hasAny. rewrite bool_decide_eq_true. apply Exists_exists. Qed.

Lemma Forall_holds_opt {A} (P : Cond -> Prop) (l : list A) c :
  Forall P (if decide (l = []) then [] else [c]) <-> (l = [] \/ P c).
Proof.
  case_decide; [by intuition|]. rewrite Forall_singleton. tauto.
Qed.

Lemma hot_tag_cond json dict e kv :
  kv.1 ∈ ["e"; "p"; "t"] ->
  Forall (fun c => cond_holds dict c (rowFromEvent json e) = true) (tag_conds json kv) <->
  tag_matches e kv.
Proof.
  destruct kv as [k vs]. unfold tag_conds, tag_matches. simpl. intros Hk.
  destruct vs as [|v vs]; [by intuition|].
  assert (forall c, Forall (fun c => cond_holds dict c (rowFromEvent json e) = true) [c] <->
    cond_holds dict c (rowFromEvent json e) = true) as Hone
    by (intros c; by rewrite Forall_singleton).
  assert (hasAny (tag_col k (rowFromEvent json e)) (v :: vs) = true <->
    v :: vs = [] \/ exists t v0, t ∈ Tags e /\ t !! 0%nat = Some k /\
      t !! 1%nat = Some v0 /\ v0 ∈ v :: vs) as Hany.
  { rewrite hasAny_spec. setoid_rewrite tag_col_elem. split.
    - intros (x & (t & ? & ? & ?) & ?). right. by exists t, x.
    - intros [[=]|(t & x & ? & ? & ? & ?)]. exists x. eauto. }
  rewrite !elem_of_cons, elem_of_nil in Hk.
  destruct Hk as [->|[->|[->|[]]]]; simpl; rewrite Hone; apply Hany.
Qed.

(** [map_id] with the equation only known on the elements. *)
Lemma map_int32_id ks : (forall k, k ∈ ks -> - 2 ^ 31 <= k < 2 ^ 31) -> map int32 ks = ks.
Proof.
  intros H. induction ks as [|k ks IH]; [done|]. simpl.
  rewrite int32_id by (apply H; set_solver). rewrite IH by set_solver. done.
Qed.

Lemma prefix_app n s t : String.prefix n s = true -> String.prefix n (s +:+ t) = true.
Proof.
  revert s. induction n as [|a n IH]; intros s; [by destruct (s +:+ t)|].
  destruct s as [|c s]; [done|]. simpl. destruct (ascii_dec a c); [|done]. apply IH.
Qed.

Lemma contains_app_l n s t : contains n s = true -> contains n (s +:+ t) = true.
Proof.
  induction s as [|c s IH]; intros Hn.
  - destruct n; [|done]. by destruct t.
  - apply orb_true_iff in Hn as [Hn|Hn]; apply orb_true_intro; [left|right].
    + by apply (prefix_app n (String c s)).
    + by apply IH.
Qed.

Lemma contains_app_r n s t : contains n t = true -> contains n (s +:+ t) = true.
Proof.
  intros H. induction s as [|c s IH]; [done|]. simpl. apply orb_true_intro. by right.
Qed.

Lemma contains_refl n : contains n n = true.
Proof.
  assert (String.prefix n n = true) as H.
  { induction n as [|c n IH]; [done|]. simpl. by destruct (ascii_dec c c). }
  destruct n as [|c n]; [done|].
  change (String.prefix (String c n) (String c n) || contains (String c n) n = true).
  by rewrite H.
Qed.

Lemma contains_join n sep ss s :
  s ∈ ss -> contains n s = true -> contains n (strings_Join sep ss) = true.
Proof.
  unfold strings_Join. induction ss as [|s' ss IH]; intros Hs Hn; [set_solver|].
  destruct ss as [|s'' ss].
  { assert (s = s') as -> by set_solver. done. }
  change (String.concat sep (s' :: s'' :: ss)) with (s' +:+ sep +:+ String.concat sep (s'' :: ss)).
  apply elem_of_cons in Hs as [->|Hs]; [by apply contains_app_l|].
  apply contains_app_r, contains_app_r. by apply IH.
Qed.

Lemma contains_json_tags json tags k v t :
  k :: v :: t ∈ tags -> contains (json k +:+ "," +:+ json v) (json_tags json tags) = true.
Proof.
  intros Ht. unfold json_tags, json_array at 1.
  apply contains_app_r, contains_app_l.
  eapply (contains_join _ "," _ (json_array (map json (k :: v :: t)))).
  { by apply (list_elem_of_fmap_2 (fun t => json_array (map json t))). }
  unfold json_array. apply contains_app_r, contains_app_l. unfold strings_Join. simpl.
  destruct t as [|x t]; [apply contains_refl|].
  set (rest := String.concat "," (json x :: map json t)).
  change (contains (json k +:+ "," +:+ json v) (json k +:+ "," +:+ json v +:+ "," +:+ rest) = true).
  replace (json k +:+ "," +:+ json v +:+ "," +:+ rest)
    with ((json k +:+ "," +:+ json v) +:+ ("," +:+ rest)) by (by rewrite <-!string_app_assoc).
  apply contains_app_l, contains_refl.
Qed.

(** The indexed part of the clause, as a conjunction. *)
Lemma where_holds_unfold json dict f r :
  where_holds json dict f r <->
  (fIDs f = [] \/ row_id r ∈ fIDs f) /\
  (fAuthors f = [] \/ row_pubkey r ∈ fAuthors f) /\
  (fKinds f = [] \/ row_kind r ∈ map int32 (fKinds f)) /\
  (forall kv, kv ∈ fTags f -> Forall (fun c => cond_holds dict c r = true) (tag_conds json kv)) /\
  (forall s, fSince f = Some s -> uint32 s <= row_created_at r) /\
  (forall u, fUntil f = Some u -> row_created_at r <= uint32 u) /\
  row_id r ∉ dict.
Proof.
  unfold where_holds, buildConds. rewrite !Forall_app, !Forall_holds_opt, Forall_singleton.
  simpl. rewrite !bool_decide_eq_true, negb_true_iff, bool_decide_eq_false.
  rewrite Forall_bind, (Forall_forall _ (fTags f)).
  assert (forall (P : Z -> Cond) o (Q : Z -> Prop),
    (forall z, cond_holds dict (P z) r = true <-> Q z) ->
    Forall (fun c => cond_holds dict c r = true) (match o with Some z => [P (uint32 z)] | None => [] end)
    <-> forall z, o = Some z -> Q (uint32 z)) as Hopt.
  { intros P o Q HPQ. destruct o as [z|]; [|split; [done|constructor]].
    rewrite Forall_singleton, HPQ. naive_solver. }
  rewrite (Hopt CSince (fSince f) (fun z => z <= row_created_at r)) by (intros; apply Z.leb_le).
  rewrite (Hopt CUntil (fUntil f) (fun z => row_created_at r <= z)) by (intros; apply Z.leb_le).
  done.
Qed.

(** ** Properties *)

(** Placeholder discipline: for every filter, the WHERE text contains
    exactly as many [?] placeholders as there are bound arguments, so the
    positional binding of clickhouse-go is never short nor in excess (in
    particular the always-present tombstone predicate binds nothing). *)
Theorem placeholders_match_args json f :
  let '(where_, args, _) := buildFilterSQL json f in placeholders where_ = length args.
Proof.
  unfold buildFilterSQL. rewrite <-conds_placeholders.
  destruct (buildConds json f) as [|c cs] eqn:E.
  - by unfold buildConds in E; repeat (apply app_eq_nil in E as [_ E]).
  - by rewrite placeholders_join.
Qed.

(** The generated clause is NIP-01 matching: for an event and a filter whose
    numbers fit the 32-bit bindings, and tag conditions on the indexed keys
    e, p and t, the WHERE clause holds on the stored row exactly when the event
    matches the filter and is not tombstoned. *)
Theorem where_is_nip01_matching json dict f e :
  fits32 e -> filter_fits32 f -> hot_tags f ->
  where_holds json dict f (rowFromEvent json e) <-> matches f e /\ ID e ∉ dict.
Proof.
  intros [Hts Hk] (Hks & Hs & Hu) Hhot. rewrite where_holds_unfold. unfold matches. simpl.
  rewrite (uint32_id _ Hts), (uint32_id _ Hk), map_int32_id by done.
  assert ((forall kv, kv ∈ fTags f -> Forall (fun c => cond_holds dict c (rowFromEvent json e) = true)
      (tag_conds json kv)) <-> forall kv, kv ∈ fTags f -> tag_matches e kv) as ->.
  { split; intros H kv Hkv; [rewrite <-hot_tag_cond by auto|rewrite hot_tag_cond by auto]; auto. }
  assert ((forall s, fSince f = Some s -> uint32 s <= CreatedAt e) <->
          (forall s, fSince f = Some s -> s <= CreatedAt e)) as ->.
  { split; intros H s Hfs; specialize (H s Hfs); rewrite uint32_id in *; auto. }
  assert ((forall u, fUntil f = Some u -> CreatedAt e <= uint32 u) <->
          (forall u, fUntil f = Some u -> CreatedAt e <= u)) as ->.
  { split; intros H s Hfs; specialize (H s Hfs); rewrite uint32_id in *; auto. }
  tauto.
Qed.

Definition demo_event : Event :=
  mkEvent "aa" "bob" 100 1 [["e"; "x"]; ["r"; "u1"]] "hi" "s".
Definition demo_json (s : string) : string := "'" +:+ s +:+ "'".

Lemma where_is_nip01_matching_witness :
  where_holds demo_json ∅ (mkFilter [] [1] [] [("e", ["x"; "y"])] (Some 50) None 0)
    (rowFromEvent demo_json demo_event).
Proof.
  apply (where_is_nip01_matching demo_json ∅
    (mkFilter [] [1] [] [("e", ["x"; "y"])] (Some 50) None 0) demo_event).
  - by vm_compute.
  - split_and!; simpl; [intros ? ->%list_elem_of_singleton|intros ? [= <-]|done]; lia.
  - intros kv ->%list_elem_of_singleton. simpl. set_solver.
  - split; [|set_solver]. unfold matches. simpl. split_and!;
      [by left|by left|right; set_solver|intros ? [= <-]; lia|done|].
    intros kv ->%list_elem_of_singleton. right. exists ["e"; "x"], "x". set_solver.
Defined.

(** Other tag keys: with one requested value, the substring scan over
    [tags_raw] finds every event that carries the tag (it can over-match, never
    under-match). *)
Theorem other_tag_complete json dict e k v :
  k ∉ ["e"; "p"; "t"; "d"] -> tag_matches e (k, [v]) ->
  Forall (fun c => cond_holds dict c (rowFromEvent json e) = true) (tag_conds json (k, [v])).
Proof.
  intros Hk Hm. unfold tag_conds. simpl.
  destruct (String.eqb_spec k "e"); [set_solver|]. destruct (String.eqb_spec k "p"); [set_solver|].
  destruct (String.eqb_spec k "t"); [set_solver|]. destruct (String.eqb_spec k "d"); [set_solver|].
  apply Forall_singleton. simpl.
  destruct Hm as [[=]|(t & v' & Ht & H0 & H1 & ->%list_elem_of_singleton)].
  destruct t as [|t0 [|t1 t]]; simplify_eq/=. by eapply contains_json_tags.
Qed.

Lemma other_tag_complete_witness :
  Forall (fun c => cond_holds ∅ c (rowFromEvent demo_json demo_event) = true)
    (tag_conds demo_json ("r", ["u1"])).
Proof.
  apply (other_tag_complete demo_json ∅ demo_event "r" "u1").
  - set_solver.
  - right. exists ["r"; "u1"], "u1". set_solver.
Defined.

(** Other tag keys with several values: the generated conjuncts require
    every value to occur, where NIP-01 asks for any of them; an event carrying
    only one of the requested values matches the filter and is not returned. *)
Theorem other_tag_values_are_conjoined :
  exists json f e, matches f e /\ fits32 e /\ filter_fits32 f /\
    ~ where_holds json ∅ f (rowFromEvent json e).
Proof.
  exists demo_json, (mkFilter [] [] [] [("r", ["u1"; "u2"])] None None 0), demo_event. split_and!.
  - unfold matches. simpl. split_and!; try by left.
    + done.
    + done.
    + intros kv ->%list_elem_of_singleton. right. exists ["r"; "u1"], "u1". set_solver.
  - by vm_compute.
  - split_and!; simpl; [set_solver|done|done].
  - intros H. apply (bool_decide_pack _) in H. by vm_compute in H.
Qed.

(** Timestamp narrowing: a filter's [until] is compared modulo 2^32, so an
    [until] of 2^32 or more (for instance one given in milliseconds) bounds the
    result by its low 32 bits instead of admitting every stored event. *)
Theorem until_is_truncated json dict f r u :
  fUntil f = Some u -> where_holds json dict f r -> row_created_at r <= u mod 2 ^ 32.
Proof. rewrite where_holds_unfold. naive_solver. Qed.

Lemma until_is_truncated_witness :
  row_created_at (rowFromEvent demo_json demo_event) <= (2 ^ 32 + 200) mod 2 ^ 32.
Proof.
  apply (until_is_truncated demo_json ∅
    (mkFilter [] [] [] [] None (Some (2 ^ 32 + 200)) 0) _ (2 ^ 32 + 200)); [done|].
  apply (bool_decide_unpack _). by vm_compute.
Defined.
