(* ===== verification/Collapse.v ===== *)
(** * LIMIT 1 BY and top-k pushdown

    Generic facts about the shape of the relay's SELECT statements: sort, keep
    the first row of every group ([LIMIT 1 BY]), keep the first [k] rows.
    [winners] is the order-free reading of sort-then-[LIMIT 1 BY]; the last
    lemma says that cutting every part to its first [k] rows before a global
    sort does not change the global first [k] rows. *)

From S2P Require Import Prelude.

(** [LIMIT 1 BY key]: keep a row unless a previous one had its key. *)
Fixpoint limit_1_by {A K} `{EqDecision K} (key : A -> K) (seen : list K) (l : list A) : list A :=
  match l with
  | [] => []
  | x :: l' =>
      if decide (key x ∈ seen) then limit_1_by key seen l'
      else x :: limit_1_by key (key x :: seen) l'
  end.

Lemma concat_elem {A} (ls : list (list A)) x : x ∈ concat ls <-> exists l, l ∈ ls /\ x ∈ l.
Proof.
  rewrite list_elem_of_In, in_concat. setoid_rewrite list_elem_of_In. done.
Qed.

Lemma elem_of_list_take_le {A} n m (l : list A) x : x ∈ take n l -> (n <= m)%nat -> x ∈ take m l.
Proof.
  intros Hx Hnm. replace n with (n `min` m)%nat in Hx by lia. rewrite <-take_take in Hx.
  by eapply subseteq_take.
Qed.

Section limit_by.
Context {A K : Type} `{EqDecision K} (key : A -> K).

Lemma limit_1_by_sublist seen l : sublist (limit_1_by key seen l) l.
Proof.
  revert seen. induction l as [|x l IH]; intros seen; simpl; [constructor|].
  case_decide; constructor; apply IH.
Qed.

Lemma limit_1_by_keys seen l :
  NoDup (key <$> limit_1_by key seen l) /\
  forall x, x ∈ limit_1_by key seen l -> key x ∉ seen.
Proof.
  revert seen. induction l as [|x l IH]; intros seen; simpl; [split; [constructor|set_solver]|].
  case_decide; [apply IH|]. destruct (IH (key x :: seen)) as [Hnd Hns]. simpl. split.
  - constructor; [|done]. intros (y & Hy & Hin)%list_elem_of_fmap.
    apply Hns in Hin. rewrite <-Hy in Hin. set_solver.
  - intros y [->|Hy]%elem_of_cons; [done|]. apply Hns in Hy. set_solver.
Qed.

Lemma limit_1_by_first seen l x :
  x ∈ l -> key x ∉ seen ->
  exists y l1 l2, l = l1 ++ y :: l2 /\ y ∈ limit_1_by key seen l /\ key y = key x /\
    x ∈ y :: l2.
Proof.
  revert seen. induction l as [|z l IH]; intros seen Hx Hk; [set_solver|]. simpl.
  destruct (decide (key z = key x)) as [Hz|Hz].
  { exists z, [], l. rewrite decide_False by congruence. set_solver. }
  assert (x ∈ l) as Hxl by (set_unfold; naive_solver).
  case_decide.
  - destruct (IH seen Hxl Hk) as (y & l1 & l2 & -> & ? & ? & ?).
    exists y, (z :: l1), l2. set_solver.
  - destruct (IH (key z :: seen) Hxl) as (y & l1 & l2 & -> & ? & ? & ?); [set_solver|].
    exists y, (z :: l1), l2. set_solver.
Qed.

Lemma limit_1_by_NoDup seen l : NoDup (limit_1_by key seen l).
Proof. eapply NoDup_fmap_1, (proj1 (limit_1_by_keys seen l)). Qed.

End limit_by.

Section winners.
Context {A K : Type} `{EqDecision A, EqDecision K}.
Context (R : relation A) `{!RelDecision R, !Reflexive R}.
Context (key : A -> K).

(** [x] is not preceded by any element of its own group. *)
Definition wins (l : list A) (x : A) : Prop :=
  Forall (fun y => key y = key x -> R x y) l.
#[export] Instance wins_dec l x : Decision (wins l x).
Proof. unfold wins. apply _. Defined.

Definition winners (l : list A) : list A := filter (wins l) (remove_dups l).

Definition antisym_on (l : list A) : Prop :=
  forall x y, x ∈ l -> y ∈ l -> R x y -> R y x -> x = y.

Lemma limit_1_by_wins seen l x :
  StronglySorted R l -> x ∈ limit_1_by key seen l ->
  Forall (fun y => key y = key x -> R x y) l.
Proof.
  revert seen. induction l as [|z l IH]; intros seen Hs Hx; simpl in *; [set_solver|].
  apply StronglySorted_inv in Hs as [Hs Hz]. case_decide as Hd.
  - constructor; [|by eapply IH]. intros Hk.
    apply (limit_1_by_keys key seen l) in Hx. congruence.
  - apply elem_of_cons in Hx as [->|Hx].
    + constructor; [done|]. eapply Forall_impl; [exact Hz|]. done.
    + constructor; [|by eapply IH]. intros Hk.
      apply (limit_1_by_keys key (key z :: seen) l) in Hx. rewrite Hk in Hx. set_solver.
Qed.

(** Membership of sort-then-LIMIT-1-BY is being a winner. *)
Lemma limit_1_by_elem l x :
  StronglySorted R l -> antisym_on l ->
  x ∈ limit_1_by key [] l <-> x ∈ l /\ wins l x.
Proof.
  intros Hs Hanti. split.
  - intros Hx. split; [by eapply sublist_subseteq, Hx; apply limit_1_by_sublist|].
    by eapply limit_1_by_wins.
  - intros [Hx Hw]. destruct (limit_1_by_first key [] l x Hx) as (y & l1 & l2 & -> & Hy & Hk & Hin).
    { set_solver. }
    assert (y = x) as ->; [|done].
    apply elem_of_cons in Hin as [->|Hin]; [done|].
    apply Hanti; [set_solver..| |].
    + eapply StronglySorted_app_1_r in Hs. apply StronglySorted_inv in Hs as [_ Hs].
      rewrite Forall_forall in Hs. by apply Hs.
    + unfold wins in Hw. rewrite Forall_forall in Hw. apply Hw; [set_solver|done].
Qed.

Lemma winners_elem l x : x ∈ winners l <-> x ∈ l /\ wins l x.
Proof. unfold winners. rewrite list_elem_of_filter, elem_of_remove_dups. tauto. Qed.

Lemma winners_NoDup l : NoDup (winners l).
Proof. apply NoDup_filter, NoDup_remove_dups. Qed.

(** Sort then LIMIT 1 BY computes the winners, whatever the tie order. *)
Lemma limit_1_by_winners `{!GoSort R} l :
  antisym_on l -> limit_1_by key [] (go_sort R l) ≡ₚ winners l.
Proof.
  intros Hanti. apply NoDup_Permutation; [apply limit_1_by_NoDup|apply winners_NoDup|].
  intros x. rewrite winners_elem, limit_1_by_elem; [|by auto with relay|].
  - unfold wins. by rewrite !go_sort_perm.
  - intros a b Ha Hb. apply Hanti; by rewrite <-go_sort_perm.
Qed.

(** Groups that do not straddle two parts are collapsed part by part. *)
Lemma winners_app l1 l2 :
  (forall x y, x ∈ l1 -> y ∈ l2 -> key x ≠ key y) ->
  winners (l1 ++ l2) ≡ₚ winners l1 ++ winners l2.
Proof.
  intros Hdisj. apply NoDup_Permutation; [apply winners_NoDup| |].
  - apply NoDup_app. split_and!; [apply winners_NoDup| |apply winners_NoDup].
    intros x [Hx _]%winners_elem [Hy _]%winners_elem. by apply (Hdisj x x).
  - intros x. rewrite elem_of_app, !winners_elem, elem_of_app. unfold wins.
    rewrite Forall_app. setoid_rewrite Forall_forall. split.
    + naive_solver.
    + intros [[Hx Hw]|[Hx Hw]]; (split_and!; [by auto|..]); auto.
      * intros y Hy Hk. by destruct (Hdisj x y Hx Hy).
      * intros y Hy Hk. by destruct (Hdisj y x Hy Hx).
Qed.

Lemma winners_concat ls :
  (forall i j l1 l2 x y, ls !! i = Some l1 -> ls !! j = Some l2 -> i ≠ j ->
     x ∈ l1 -> y ∈ l2 -> key x ≠ key y) ->
  winners (concat ls) ≡ₚ concat (winners <$> ls).
Proof.
  induction ls as [|l ls IH]; intros H; simpl; [done|].
  rewrite winners_app.
  - rewrite IH; [done|]. intros i j l1 l2 x y Hi Hj Hij. apply (H (S i) (S j)); auto.
  - intros x y Hx (l2 & [j Hj]%list_elem_of_lookup & Hy)%concat_elem.
    by apply (H 0%nat (S j) l l2).
Qed.
End winners.

(** ** Top-k pushdown *)

Section topk.
Context {A : Type} `{EqDecision A}.
Context (R : relation A) `{!GoSort R}.

(** An element preceded by [k] others is not among the first [k]. *)
Lemma not_in_topk k (W V : list A) x :
  antisym_on R W -> NoDup V -> V ⊆ W -> (k <= length V)%nat -> x ∈ W ->
  (forall v, v ∈ V -> R v x /\ v ≠ x) -> x ∉ take k (go_sort R W).
Proof.
  intros Hanti HV HVW Hk HxW Hbefore Hx.
  pose proof (go_sort_sorted (R:=R) W) as HS. rewrite <-(take_drop k (go_sort R W)) in HS.
  assert (x :: V ⊆ take k (go_sort R W)) as Hsub.
  { intros v [->|Hv]%elem_of_cons; [done|].
    assert (v ∈ go_sort R W) as HvW by (rewrite go_sort_perm; by apply HVW).
    rewrite <-(take_drop k (go_sort R W)) in HvW. apply elem_of_app in HvW as [|HvW]; [done|].
    pose proof (StronglySorted_app_1_elem_of R _ _ x v HS Hx HvW).
    destruct (Hbefore v Hv) as [? Hne]. destruct Hne. apply Hanti; auto. }
  apply NoDup_submseteq, submseteq_length in Hsub.
  - rewrite length_take in Hsub. simpl in Hsub. lia.
  - constructor; [|done]. intros Hv. by destruct (Hbefore x Hv).
Qed.

(** Dropping elements that are not among the first [k] changes nothing. *)
Lemma topk_superset k (W U : list A) :
  NoDup W -> NoDup U -> antisym_on R W -> U ⊆ W ->
  take k (go_sort R W) ⊆ U ->
  take k (go_sort R U) = take k (go_sort R W).
Proof.
  intros HndW HndU Hanti HUW HP. set (S := go_sort R W).
  assert (NoDup S) as HndS by (unfold S; by rewrite go_sort_perm).
  assert (forall x, x ∈ S <-> x ∈ W) as HSW by (intros x; unfold S; by rewrite go_sort_perm).
  set (Q := filter (fun x => x ∈ U) (drop k S)).
  assert (sublist (take k S ++ Q) S) as Hsub.
  { rewrite <-(take_drop k S) at 2. apply sublist_app; [done|]. apply sublist_filter. }
  assert (go_sort R U = take k S ++ Q) as ->.
  { apply go_sort_unique.
    - intros x y Hx Hy. apply Hanti; auto.
    - eapply StronglySorted_sublist; [exact Hsub|apply go_sort_sorted].
    - apply NoDup_Permutation; [by eapply sublist_NoDup|done|].
      intros x. rewrite elem_of_app. unfold Q. rewrite list_elem_of_filter. split.
      + intros [Hx|[Hx _]]; auto.
      + intros Hx. pose proof (HUW x Hx) as HxS%HSW. rewrite <-(take_drop k S) in HxS.
        apply elem_of_app in HxS as [HxS|HxS]; auto. }
  destruct (decide (k <= length S))%nat as [Hk|Hk].
  - rewrite take_app_le by (rewrite length_take; lia). rewrite take_take. f_equal. lia.
  - assert (Q = []) as ->. { unfold Q. rewrite drop_ge by lia. done. }
    rewrite app_nil_r, take_take. f_equal. lia.
Qed.

(** In a sorted part, an element of the global prefix is in the part's prefix. *)
Lemma topk_part k (W L : list A) x :
  antisym_on R W -> StronglySorted R L -> NoDup L -> L ⊆ W ->
  x ∈ L -> x ∈ take k (go_sort R W) -> x ∈ take k L.
Proof.
  intros Hanti HL Hnd Hsub (L1 & L2 & ->)%list_elem_of_split Hx.
  destruct (decide (length L1 < k))%nat as [Hk|Hk].
  - rewrite take_app_ge by lia. apply elem_of_app. right.
    destruct (k - length L1)%nat eqn:E; [lia|]. simpl. set_solver.
  - exfalso. revert Hx. apply NoDup_app in Hnd as (H1 & H2 & _).
    apply (not_in_topk k W L1); [done|done|set_solver|lia|apply Hsub; set_solver|].
    intros v Hv. split.
    + eapply StronglySorted_app_1_elem_of; [exact HL|done|set_solver].
    + intros ->. apply (H2 x Hv). set_solver.
Qed.

(** Cutting every sorted part to [k] before the global sort is sound. *)
Lemma topk_pushdown k (Ls : list (list A)) :
  NoDup (concat Ls) -> antisym_on R (concat Ls) ->
  Forall (StronglySorted R) Ls ->
  take k (go_sort R (concat (take k <$> Ls))) = take k (go_sort R (concat Ls)).
Proof.
  intros Hnd Hanti HLs. apply topk_superset; [done| |done| |].
  - eapply sublist_NoDup; [exact Hnd|]. clear. induction Ls as [|l Ls IH]; simpl; [constructor|].
    apply sublist_app; [apply sublist_take|done].
  - intros x. rewrite !concat_elem. intros (l & (l' & -> & Hl')%list_elem_of_fmap & Hx).
    exists l'. split; [done|]. by eapply subseteq_take.
  - intros x Hx. assert (x ∈ concat Ls) as HxS.
    { rewrite <-(go_sort_perm (R:=R)). by eapply subseteq_take. }
    apply concat_elem in HxS as (l & Hl & Hxl).
    apply concat_elem. exists (take k l). split; [by apply list_elem_of_fmap_2|].
    apply (topk_part k (concat Ls) l x); auto.
    + rewrite Forall_forall in HLs. by apply HLs.
    + apply list_elem_of_split in Hl as (L1 & L2 & ->). rewrite concat_app in Hnd. simpl in Hnd.
      apply NoDup_app in Hnd as (_ & _ & Hnd). by apply NoDup_app in Hnd as (? & _ & _).
    + intros y Hy. apply concat_elem. eauto.
Qed.
End topk.
