(* ===== verification/Query.v ===== *)
(** * Reading events (internal/store/store.go, feed.go)

    [collectEvents]: the per-tier SELECT statements and their deterministic
    merge, the recent-feed path with its two steps and its fallback to the
    tiers, and the eligibility test that chooses between them.

    A table is the list of its physical rows (duplicates included, in no
    particular order).  A query over a table can fail; [TierFault] is the way
    one scan of the call fails, chosen by the environment. *)

From S2P Require Import Prelude Nostr Config Classifier Rows FilterSQL Collapse.

(** ** Orders *)

(** The [less] function of [sortDesc] on (created_at, id). *)
Definition sortDesc_less (a b : Z * string) : bool :=
  if negb (a.1 =? b.1) then b.1 <? a.1 else String.ltb a.2 b.2.

(** [ORDER BY created_at DESC, id DESC], the reverse read of the feed table. *)
Definition feedRev_less (a b : Z * string) : bool :=
  if negb (a.1 =? b.1) then b.1 <? a.1 else String.ltb b.2 a.2.

(** Sorted by [less]: no later element is less than an earlier one. *)
Definition by_less {A} (less : Z * string -> Z * string -> bool)
    (key : A -> Z * string) : relation A :=
  fun x y => less (key y) (key x) = false.
#[export] Instance by_less_dec {A} less (key : A -> Z * string) : RelDecision (by_less less key).
Proof. unfold by_less. intros x y. apply _. Defined.

Definition ev_key (e : Event) : Z * string := (CreatedAt e, ID e).
Definition row_key (r : Row) : Z * string := (row_created_at r, row_id r).

Notation ev_desc := (by_less sortDesc_less ev_key).
Notation row_desc := (by_less sortDesc_less row_key).
Notation row_rev := (by_less feedRev_less row_key).

(** [LIMIT 1 BY kind, if(kind IN (0,3,10002), pubkey, id)] *)
Definition collapse_key (r : Row) : Z * string :=
  (row_kind r, if bool_decide (row_kind r ∈ [0; 3; 10002]) then row_pubkey r else row_id r).

(** [replaceableKinds] (store.go) *)
Definition replaceableKinds (k : Z) : bool := bool_decide (k ∈ [0; 3; 10002]).

(** [splitFeedKinds]: non-replaceable and replaceable kinds, dropped kinds
    excluded, the empty list standing for every in-scope kind. *)
Definition splitFeedKinds (filterKinds : list Z) (override : gmap Z string)
    : list Z * list Z :=
  let ks := match filterKinds with [] => InScopeKinds | _ => filterKinds end in
  let kept := filter (fun k => classifyWithOverride k override ≠ TierDrop) ks in
  (filter (fun k => replaceableKinds k = false) kept,
   filter (fun k => replaceableKinds k = true) kept).

Definition int32s (ks : list Z) : list Z := map int32 ks.

Definition feedRetention : Z := 7 * 24 * Hour.

(** [feedEligible]; [now] is [time.Now()] in nanoseconds since the epoch. *)
Definition feedEligible (now : Z) (f : Filter) (override : gmap Z string) : bool :=
  if negb (bool_decide (fIDs f = []) && bool_decide (fAuthors f = [])
           && bool_decide (fTags f = []) && bool_decide (fUntil f = None)) then false
  else match fSince f with
  | None => false
  | Some since =>
      let oldest := now + (- feedRetention + 2 * Hour) in
      if since * Second <? oldest then false
      else forallb (fun k => negb (String.eqb (classifyWithOverride k override) TierDrop)) (fKinds f)
  end.

(** The ways scanning one table can end early. *)
Inductive TierFault :=
  | FCtx (e : error)    (* ctx.Err() before the query *)
  | FQuery (e : error)  (* s.ch.Query *)
  | FScan (e : error)   (* scanEvent on some row *)
  | FRows (e : error).  (* rows.Err() *)

Definition fault_error (table : string) (ft : TierFault) : error :=
  match ft with
  | FCtx e => e
  | FQuery e => Wrapped ("query events_" +:+ table) e
  | FScan e => Wrapped ("scan events_" +:+ table) e
  | FRows e => Wrapped ("rows events_" +:+ table) e
  end.

Section store_read.
Variable json_str : string -> string.
Context `{!GoSort ev_desc, !GoSort row_desc, !GoSort row_rev}.

Definition sortDesc (evs : list Event) : list Event := go_sort ev_desc evs.

(** [SELECT readColumns FROM events_t WHERE where ORDER BY ... LIMIT 1 BY ... LIMIT n] *)
Definition tierSelect (dict : gset string) (f : Filter) (limit : nat) (table : list Row) : list Row :=
  take limit
    (limit_1_by collapse_key []
       (go_sort row_desc (filter (where_holds json_str dict f) table))).

(** The loop over the tiers: the first failing scan aborts the query. *)
Fixpoint scanTiers (fault : string -> option TierFault) (dict : gset string)
    (tables : gmap string (list Row)) (f : Filter) (limit : nat) (tiers : list string)
    : result (list Event) :=
  match tiers with
  | [] => Ok []
  | t :: ts =>
      match fault t with
      | Some ft => Err (fault_error t ft)
      | None =>
          let? rest := scanTiers fault dict tables f limit ts in
          Ok (map scanEvent (tierSelect dict f limit (default [] (tables !! t))) ++ rest)
      end
  end.

(** The tier path of [collectEvents]. *)
Definition collectTiers (fault : string -> option TierFault) (dict : gset string)
    (tables : gmap string (list Row)) (override : gmap Z string) (f : Filter) (limit : nat)
    : result (list Event) :=
  let? collected := scanTiers fault dict tables f limit (tiersForFilter f override) in
  Ok (take limit (sortDesc collected)).

(** [WHERE kind IN (?) AND where], the predicate of one feed step. *)
Definition feed_pred (dict : gset string) (f : Filter) (kinds : list Z) (r : Row) : Prop :=
  row_kind r ∈ int32s kinds /\ where_holds json_str dict f r.
#[export] Instance feed_pred_dec dict f kinds r : Decision (feed_pred dict f kinds r).
Proof. unfold feed_pred. apply _. Defined.

(** One step of [collectFeed]: [SELECT ... FROM events_feed WHERE kind IN (?)
    AND where <order> LIMIT fetch]; a step with no kinds is skipped. *)
Definition feedStepA (dict : gset string) (f : Filter) (kinds : list Z) (fetch : nat)
    (feed : list Row) : list Row :=
  take fetch (go_sort row_rev
    (filter (feed_pred dict f kinds) feed)).
Definition feedStepB (dict : gset string) (f : Filter) (kinds : list Z) (fetch : nat)
    (feed : list Row) : list Row :=
  take fetch (limit_1_by collapse_key [] (go_sort row_desc
    (filter (feed_pred dict f kinds) feed))).

(** [faultA] and [faultB] are the outcomes of the two queries. *)
Definition collectFeed (faultA faultB : option TierFault) (dict : gset string)
    (feed : list Row) (override : gmap Z string) (f : Filter) (limit : nat)
    : result (list Event) :=
  let fetch := (limit + 50)%nat in
  let '(kindsA, kindsB) := splitFeedKinds (fKinds f) override in
  let? a := match kindsA, faultA with
            | [], _ => Ok []
            | _, Some ft => Err (fault_error "feed" ft)
            | _, None => Ok (map scanEvent (feedStepA dict f kindsA fetch feed))
            end in
  let? b := match kindsB, faultB with
            | [], _ => Ok []
            | _, Some ft => Err (fault_error "feed" ft)
            | _, None => Ok (map scanEvent (feedStepB dict f kindsB fetch feed))
            end in
  let uniq := limit_1_by ID [] (a ++ b) in
  Ok (take limit (sortDesc uniq)).

(** [collectEvents]; [hasFeed] is [s.fw != nil]. *)
Definition collectEvents (now : Z) (hasFeed : bool)
    (faultA faultB : option TierFault) (fault : string -> option TierFault)
    (dict : gset string) (feed : list Row) (tables : gmap string (list Row))
    (override : gmap Z string) (f : Filter) : result (list Event) :=
  let limit := Z.to_nat (clampLimit (fLimit f)) in
  if hasFeed && feedEligible now f override then
    match collectFeed faultA faultB dict feed override f limit with
    | Ok collected => Ok collected
    | Err _ => collectTiers fault dict tables override f limit
    end
  else collectTiers fault dict tables override f limit.

(** ** Specification

    The answer a filter deserves over a set of rows: of the live matching rows,
    the winner of every replaceable group (newest, lowest id on a tie) and every
    distinct non-replaceable event, newest first, cut to the limit. *)
Definition answer (P : Row -> Prop) `{!forall r, Decision (P r)} (rows : list Row)
    (limit : nat) : list Event :=
  take limit (sortDesc (map scanEvent (winners row_desc collapse_key (filter P rows)))).
End store_read.

(** Storage keeps ids unique: two rows with one id are the same row (an event
    id is the hash of the event; re-ingested duplicates are identical). *)
Definition ids_identify (rows : list Row) : Prop :=
  forall r1 r2, r1 ∈ rows -> r2 ∈ rows -> row_id r1 = row_id r2 -> r1 = r2.

(** Rows are where write routing puts them. *)
Definition routed (override : gmap Z string) (tables : gmap string (list Row)) : Prop :=
  forall t rows r, tables !! t = Some rows -> r ∈ rows ->
    classifyWithOverride (row_kind r) override = t.

(** ** Lemmas *)

Lemma ltb_leb s t : String.ltb t s = false <-> String.le s t.
Proof.
  unfold String.ltb, String.le, String.leb. rewrite (String.compare_antisym s t).
  destruct (String.compare t s); simpl; split; done.
Qed.

Lemma desc_spec {A} (key : A -> Z * string) x y :
  by_less sortDesc_less key x y <->
  (key y).1 < (key x).1 \/ ((key x).1 = (key y).1 /\ String.le (key x).2 (key y).2).
Proof.
  unfold by_less, sortDesc_less. destruct (Z.eqb_spec (key y).1 (key x).1) as [E|E]; simpl.
  - rewrite ltb_leb. intuition lia.
  - rewrite Z.ltb_ge. intuition lia.
Qed.

Lemma rev_spec {A} (key : A -> Z * string) x y :
  by_less feedRev_less key x y <->
  (key y).1 < (key x).1 \/ ((key x).1 = (key y).1 /\ String.le (key y).2 (key x).2).
Proof.
  unfold by_less, feedRev_less. destruct (Z.eqb_spec (key y).1 (key x).1) as [E|E]; simpl.
  - rewrite ltb_leb. intuition lia.
  - rewrite Z.ltb_ge. intuition lia.
Qed.

#[export] Instance desc_refl {A} (key : A -> Z * string) : Reflexive (by_less sortDesc_less key).
Proof. intros x. apply desc_spec. right. by split. Qed.
#[export] Instance desc_trans {A} (key : A -> Z * string) : Transitive (by_less sortDesc_less key).
Proof.
  intros x y z. rewrite !desc_spec. intros [H|[E H]] [H'|[E' H']]; try (left; lia).
  right. split; [lia|]. by trans (key y).2.
Qed.
#[export] Instance desc_total {A} (key : A -> Z * string) : Total (by_less sortDesc_less key).
Proof.
  intros x y. rewrite !desc_spec.
  destruct (Z.lt_trichotomy (key x).1 (key y).1) as [|[E|]]; [right|rewrite E|left]; try tauto.
  destruct (total String.le (key x).2 (key y).2); tauto.
Qed.
#[export] Instance rev_trans {A} (key : A -> Z * string) : Transitive (by_less feedRev_less key).
Proof.
  intros x y z. rewrite !rev_spec. intros [H|[E H]] [H'|[E' H']]; try (left; lia).
  right. split; [lia|]. by trans (key y).2.
Qed.
#[export] Instance rev_total {A} (key : A -> Z * string) : Total (by_less feedRev_less key).
Proof.
  intros x y. rewrite !rev_spec.
  destruct (Z.lt_trichotomy (key x).1 (key y).1) as [|[E|]]; [right|rewrite E|left]; try tauto.
  destruct (total String.le (key x).2 (key y).2); tauto.
Qed.

Lemma desc_antisym {A} (key : A -> Z * string) x y :
  by_less sortDesc_less key x y -> by_less sortDesc_less key y x -> key x = key y.
Proof.
  rewrite !desc_spec. destruct (key x) as [t1 i1], (key y) as [t2 i2]; simpl.
  intros [H|[E H]] [H'|[E' H']]; try lia. f_equal; [done|]. by apply (anti_symm String.le).
Qed.

Lemma scan_row_key r : ev_key (scanEvent r) = row_key r.
Proof. done. Qed.

Lemma scan_desc r1 r2 : ev_desc (scanEvent r1) (scanEvent r2) <-> row_desc r1 r2.
Proof. unfold by_less. by rewrite !scan_row_key. Qed.

Lemma ids_antisym rows : ids_identify rows -> antisym_on row_desc rows.
Proof.
  intros Hids x y Hx Hy Hxy Hyx. apply Hids; [done..|].
  pose proof (desc_antisym _ _ _ Hxy Hyx) as E. by injection E.
Qed.

(** A sufficient test, decidable on concrete tables. *)
Lemma ids_identify_NoDup_ids rows :
  bool_decide (NoDup (row_id <$> remove_dups rows)) = true -> ids_identify rows.
Proof.
  intros Hnd%bool_decide_eq_true r1 r2 H1 H2 E.
  rewrite <-(elem_of_remove_dups rows) in H1, H2.
  apply list_elem_of_lookup in H1 as [i H1]. apply list_elem_of_lookup in H2 as [j H2].
  assert (i = j) as ->; [|congruence].
  eapply NoDup_lookup; [exact Hnd|rewrite list_lookup_fmap, H1; done|].
  rewrite list_lookup_fmap, H2. simpl. by rewrite E.
Qed.

Lemma antisym_on_subseteq {A} (R : relation A) (l k : list A) :
  k ⊆ l -> antisym_on R l -> antisym_on R k.
Proof. intros Hsub H x y Hx Hy. apply H; by apply Hsub. Qed.

Lemma filter_concat {A} (P : A -> Prop) `{!forall x, Decision (P x)} (ls : list (list A)) :
  filter P (concat ls) = concat (filter P <$> ls).
Proof. induction ls as [|l ls IH]; [done|]. simpl. rewrite filter_app, IH. done. Qed.

Lemma filter_subseteq {A} (P : A -> Prop) `{!forall x, Decision (P x)} (l : list A) :
  filter P l ⊆ l.
Proof. intros x. rewrite list_elem_of_filter. tauto. Qed.

Lemma concat_Permutation_pointwise {A} (ls ks : list (list A)) :
  Forall2 Permutation ls ks -> concat ls ≡ₚ concat ks.
Proof. induction 1 as [|l k ls ks Hlk _ IH]; simpl; [done|]. by rewrite Hlk, IH. Qed.

(** A part and its rank in the tier list determine each other. *)
Lemma parts_disjoint ov tables tiers i j (l1 l2 : list Row) x y :
  routed ov tables -> NoDup tiers ->
  ((fun t => default [] (tables !! t)) <$> tiers) !! i = Some l1 ->
  ((fun t => default [] (tables !! t)) <$> tiers) !! j = Some l2 ->
  i ≠ j -> x ∈ l1 -> y ∈ l2 -> collapse_key x ≠ collapse_key y.
Proof.
  intros Hr Hnd Hi Hj Hij Hx Hy. rewrite list_lookup_fmap in Hi, Hj.
  destruct (tiers !! i) as [t1|] eqn:E1, (tiers !! j) as [t2|] eqn:E2; simplify_eq/=.
  destruct (tables !! t1) as [r1|] eqn:T1; simpl in Hx; [|set_solver].
  destruct (tables !! t2) as [r2|] eqn:T2; simpl in Hy; [|set_solver].
  apply (Hr _ _ _ T1) in Hx. apply (Hr _ _ _ T2) in Hy.
  assert (t1 ≠ t2) by (intros ->; by eapply Hij, NoDup_lookup).
  unfold collapse_key. intros E. injection E as E _. congruence.
Qed.

Section store_read_facts.
Variable json_str : string -> string.
Context `{!GoSort ev_desc, !GoSort row_desc, !GoSort row_rev}.

Lemma sortDesc_map rows :
  antisym_on row_desc rows ->
  sortDesc (map scanEvent rows) = map scanEvent (go_sort row_desc rows).
Proof.
  intros Hanti. unfold sortDesc. apply go_sort_unique.
  - intros e1 e2 (r1 & -> & H1)%list_elem_of_fmap (r2 & -> & H2)%list_elem_of_fmap.
    rewrite !scan_desc. intros. f_equal. by apply Hanti.
  - apply (StronglySorted_fmap scanEvent row_desc ev_desc).
    + intros x y. by rewrite scan_desc.
    + auto with relay.
  - by rewrite go_sort_perm.
Qed.

Lemma scanTiers_ok fault dict tables f limit tiers :
  (forall t, t ∈ tiers -> fault t = None) ->
  scanTiers json_str fault dict tables f limit tiers =
  Ok (map scanEvent (concat ((fun t => tierSelect json_str dict f limit
        (default [] (tables !! t))) <$> tiers))).
Proof.
  induction tiers as [|t ts IH]; intros Hf; [done|]. simpl.
  rewrite Hf by set_solver. rewrite IH by set_solver. by rewrite map_app.
Qed.

Lemma tierSelect_sorted dict f table :
  StronglySorted row_desc
    (limit_1_by collapse_key [] (go_sort row_desc (filter (where_holds json_str dict f) table))).
Proof.
  eapply StronglySorted_sublist; [apply limit_1_by_sublist|by auto with relay].
Qed.

(** The tier loop answers the query over the union of the tiers. *)
Lemma collectTiers_answer fault dict tables ov f limit :
  let tiers := tiersForFilter f ov in
  let rows := concat ((fun t => default [] (tables !! t)) <$> tiers) in
  (forall t, t ∈ tiers -> fault t = None) -> routed ov tables -> ids_identify rows ->
  collectTiers json_str fault dict tables ov f limit =
  Ok (answer (where_holds json_str dict f) rows limit).
Proof.
  intros tiers rows Hf Hr Hids. unfold collectTiers. fold tiers.
  rewrite scanTiers_ok by done. f_equal. unfold answer.
  set (P := where_holds json_str dict f).
  set (parts := (fun t => default [] (tables !! t)) <$> tiers) in *.
  set (L := fun table => limit_1_by collapse_key [] (go_sort row_desc (filter P table))).
  pose proof (ids_antisym _ Hids) as Hanti.
  assert (forall l, l ∈ parts -> antisym_on row_desc (filter P l)) as Hantil.
  { intros l Hl. eapply antisym_on_subseteq; [|exact Hanti]. intros x [_ Hx]%list_elem_of_filter.
    apply concat_elem. eauto. }
  assert (concat (L <$> parts) ≡ₚ winners row_desc collapse_key (filter P rows)) as Hperm.
  { unfold rows. rewrite filter_concat, winners_concat.
    - apply concat_Permutation_pointwise. rewrite <-list_fmap_compose.
      apply Forall2_fmap, Forall_Forall2_diag, Forall_forall. intros l Hl.
      apply limit_1_by_winners; [apply _|by apply Hantil].
    - intros i j l1 l2 x y Hi Hj Hij Hx Hy. rewrite list_lookup_fmap in Hi, Hj.
      destruct (parts !! i) as [p1|] eqn:E1, (parts !! j) as [p2|] eqn:E2; simplify_eq/=.
      eapply (parts_disjoint ov tables tiers i j p1 p2); eauto using tiersForFilter_NoDup;
        by eapply filter_subseteq. }
  assert (antisym_on row_desc (concat (L <$> parts))) as HantiL.
  { eapply antisym_on_subseteq; [|exact Hanti]. intros x. rewrite Hperm, winners_elem.
    intros [[_ Hx]%list_elem_of_filter _]. done. }
  replace (concat _) with (concat (take limit <$> (L <$> parts)))
    by (unfold parts, L, tierSelect; by rewrite <-!list_fmap_compose).
  assert (antisym_on row_desc (concat (take limit <$> (L <$> parts)))) as HantiT.
  { eapply antisym_on_subseteq; [|exact HantiL]. intros x. rewrite !concat_elem.
    intros (l & (l' & -> & Hl')%list_elem_of_fmap & Hx). exists l'. split; [done|].
    by eapply subseteq_take. }
  rewrite !sortDesc_map; [|eapply antisym_on_subseteq; [|exact HantiL]; intros x; by rewrite Hperm|done].
  rewrite !firstn_map. f_equal.
  rewrite topk_pushdown; [| |done|].
  - f_equal. apply go_sort_unique.
    + done.
    + auto with relay.
    + by rewrite go_sort_perm, Hperm.
  - rewrite Hperm. apply winners_NoDup.
  - apply Forall_fmap, Forall_forall. intros l _. apply tierSelect_sorted.
Qed.

(** *** The feed path *)

Lemma limit_1_by_map {A B K} `{EqDecision K} (g : A -> B) (key : B -> K) seen l :
  limit_1_by key seen (map g l) = map g (limit_1_by (fun x => key (g x)) seen l).
Proof.
  revert seen. induction l as [|x l IH]; intros seen; [done|]. simpl.
  case_decide; [apply IH|]. simpl. by rewrite IH.
Qed.

Lemma dedup_elem rows x : ids_identify rows -> x ∈ limit_1_by row_id [] rows <-> x ∈ rows.
Proof.
  intros Hids. split; [apply sublist_subseteq, limit_1_by_sublist|]. intros Hx.
  destruct (limit_1_by_first row_id [] rows x Hx) as (y & l1 & l2 & E & Hy & Hk & _); [set_solver|].
  assert (y = x) as ->; [|done]. apply Hids; [|done|done]. rewrite E. set_solver.
Qed.

Lemma ids_identify_subseteq rows rows' :
  rows' ⊆ rows -> ids_identify rows -> ids_identify rows'.
Proof. intros Hsub H r1 r2 H1 H2. apply H; by apply Hsub. Qed.

(** Every distinct row of a non-replaceable kind is a winner. *)
Lemma wins_nonreplaceable rows r :
  ids_identify rows -> r ∈ rows -> row_kind r ∉ [0; 3; 10002] ->
  wins row_desc collapse_key rows r.
Proof.
  intros Hids Hr Hk. apply Forall_forall. intros y Hy E. unfold collapse_key in E.
  injection E as Ek Ei. rewrite Ek, (bool_decide_eq_false_2 (row_kind r ∈ _)) in Ei by done.
  by rewrite (Hids y r Hy Hr Ei).
Qed.

(** The margin of [fetch := limit + 50] suffices: above every row the first
    step leaves behind, [limit] distinct fetched rows are strictly newer. *)
Definition feed_margin (dict : gset string) (f : Filter) (kindsA : list Z) (limit : nat)
    (feed : list Row) : Prop :=
  forall x, x ∈ drop (limit + 50) (go_sort row_rev (filter (feed_pred json_str dict f kindsA) feed)) ->
    (limit <= length (remove_dups (filter (fun r => row_created_at x < row_created_at r)%Z
                        (feedStepA json_str dict f kindsA (limit + 50) feed))))%nat.

Lemma feedStepA_subseteq dict f kinds fetch feed x :
  x ∈ feedStepA json_str dict f kinds fetch feed -> x ∈ feed /\ feed_pred json_str dict f kinds x.
Proof.
  intros Hx%subseteq_take. rewrite go_sort_perm, list_elem_of_filter in Hx.
  by destruct Hx.
Qed.

Lemma feedStepB_subseteq dict f kinds fetch feed x :
  x ∈ feedStepB json_str dict f kinds fetch feed -> x ∈ feed /\ feed_pred json_str dict f kinds x.
Proof.
  intros Hx%subseteq_take%(sublist_subseteq _ _ (limit_1_by_sublist _ _ _)).
  rewrite go_sort_perm, list_elem_of_filter in Hx. by destruct Hx.
Qed.

(** The rows the two steps gather, deduplicated by id. *)
Definition feed_rows (dict : gset string) (f : Filter) (kA kB : list Z) (limit : nat)
    (feed : list Row) : list Row :=
  limit_1_by row_id []
    (feedStepA json_str dict f kA (limit + 50) feed ++ feedStepB json_str dict f kB (limit + 50) feed).

Lemma feed_rows_elem dict f kA kB limit feed x :
  ids_identify feed ->
  x ∈ feed_rows dict f kA kB limit feed <->
  x ∈ feedStepA json_str dict f kA (limit + 50) feed \/
  x ∈ feedStepB json_str dict f kB (limit + 50) feed.
Proof.
  intros Hids. unfold feed_rows. rewrite dedup_elem, elem_of_app; [done|].
  eapply ids_identify_subseteq; [|exact Hids].
  intros y [Hy%feedStepA_subseteq|Hy%feedStepB_subseteq]%elem_of_app; tauto.
Qed.

Section feed_topk.
Variables (dict : gset string) (f : Filter) (kA kB : list Z) (limit : nat) (feed : list Row).
Hypothesis Hids : ids_identify feed.
Hypothesis HA : forall k, k ∈ int32s kA -> k ∉ [0; 3; 10002].
Hypothesis HB : forall k, k ∈ int32s kB -> k ∈ [0; 3; 10002].
Hypothesis Hmargin : feed_margin dict f kA limit feed.

Let rowsB := filter (feed_pred json_str dict f kB) feed.
Let W := winners row_desc collapse_key (filter (feed_pred json_str dict f (kA ++ kB)) feed).

Lemma feed_pred_app r :
  feed_pred json_str dict f (kA ++ kB) r <-> feed_pred json_str dict f kA r \/ feed_pred json_str dict f kB r.
Proof. unfold feed_pred, int32s. rewrite map_app, elem_of_app. tauto. Qed.

Lemma feed_winner_A x : x ∈ feed -> feed_pred json_str dict f kA x -> x ∈ W.
Proof.
  intros Hx HP. apply winners_elem. split.
  - apply list_elem_of_filter. rewrite feed_pred_app. auto.
  - apply wins_nonreplaceable; [| |apply HA, HP].
    + eapply ids_identify_subseteq; [apply filter_subseteq|done].
    + apply list_elem_of_filter. rewrite feed_pred_app. auto.
Qed.

(** Groups of replaceable rows lie in the second step only. *)
Lemma feed_winner_B x :
  x ∈ W /\ feed_pred json_str dict f kB x <-> x ∈ winners row_desc collapse_key rowsB.
Proof.
  unfold W, rowsB. rewrite !winners_elem, !list_elem_of_filter, feed_pred_app.
  unfold wins. rewrite !Forall_forall. setoid_rewrite list_elem_of_filter. split.
  - intros [[[_ Hx] Hw] HP]. split; [done|]. intros y [HPy Hy]. apply Hw.
    rewrite feed_pred_app. auto.
  - intros [[HP Hx] Hw]. split; [|done]. split; [auto|]. intros y [HPy Hy] Hk. apply Hw; [|done].
    split; [|done]. apply feed_pred_app in HPy as [[HkA _]|]; [|done].
    apply HA in HkA. destruct HP as [HkB _]. apply HB in HkB. injection Hk as Hk _. congruence.
Qed.

Lemma feed_antisym_W : antisym_on row_desc W.
Proof.
  eapply antisym_on_subseteq; [|by apply ids_antisym, Hids].
  intros x [[_ ?]%list_elem_of_filter _]%winners_elem. done.
Qed.

Lemma feed_B_sorted :
  limit_1_by collapse_key [] (go_sort row_desc rowsB) ≡ₚ winners row_desc collapse_key rowsB.
Proof.
  apply limit_1_by_winners; [apply _|]. eapply antisym_on_subseteq; [|by apply ids_antisym, Hids].
  apply filter_subseteq.
Qed.

Lemma feed_topk_in x :
  x ∈ take limit (go_sort row_desc W) -> x ∈ feed_rows dict f kA kB limit feed.
Proof.
  intros Hx. rewrite feed_rows_elem by done.
  assert (x ∈ W) as HxW by (rewrite <-(go_sort_perm (R:=row_desc)); by eapply subseteq_take).
  pose proof HxW as [[HPx Hxf]%list_elem_of_filter _]%winners_elem.
  apply feed_pred_app in HPx as [HPx|HPx].
  - left. destruct (decide (x ∈ feedStepA json_str dict f kA (limit + 50) feed)) as [|Hnot]; [done|].
    assert (x ∈ drop (limit + 50) (go_sort row_rev (filter (feed_pred json_str dict f kA) feed))) as Hleft.
    { assert (x ∈ go_sort row_rev (filter (feed_pred json_str dict f kA) feed)) as Hin
        by (rewrite go_sort_perm, list_elem_of_filter; done).
      rewrite <-(take_drop (limit + 50) (go_sort row_rev _)) in Hin.
      by apply elem_of_app in Hin as [|]. }
    exfalso. revert Hx. eapply not_in_topk;
      [apply feed_antisym_W|apply NoDup_remove_dups| |exact (Hmargin x Hleft)|done|].
    + intros v Hv. rewrite elem_of_remove_dups, list_elem_of_filter in Hv.
      destruct Hv as [_ [? ?]%feedStepA_subseteq]. by apply feed_winner_A.
    + intros v Hv. rewrite elem_of_remove_dups, list_elem_of_filter in Hv.
      destruct Hv as [Hlt _]. split; [apply desc_spec; by left|]. intros ->. lia.
  - right. assert (x ∈ winners row_desc collapse_key rowsB) as HxB by (by apply feed_winner_B).
    rewrite <-feed_B_sorted in HxB. eapply (elem_of_list_take_le limit); [|lia].
    apply (topk_part row_desc limit W); [apply feed_antisym_W| |apply limit_1_by_NoDup| |done|done].
    + eapply StronglySorted_sublist; [apply limit_1_by_sublist|by auto with relay].
    + fold rowsB. intros y. rewrite feed_B_sorted. by intros [? _]%feed_winner_B.
Qed.

Lemma feed_rows_winners x : x ∈ feed_rows dict f kA kB limit feed -> x ∈ W.
Proof.
  rewrite feed_rows_elem by done. intros [Hx|Hx].
  - apply feedStepA_subseteq in Hx as [? ?]. by apply feed_winner_A.
  - apply subseteq_take in Hx.
    fold rowsB in Hx.
    rewrite feed_B_sorted in Hx. by apply feed_winner_B.
Qed.

Lemma feed_topk :
  take limit (go_sort row_desc (feed_rows dict f kA kB limit feed)) =
  take limit (go_sort row_desc W).
Proof.
  apply topk_superset; [apply winners_NoDup|apply limit_1_by_NoDup|apply feed_antisym_W| |].
  - intros x. apply feed_rows_winners.
  - intros x. apply feed_topk_in.
Qed.
End feed_topk.

Lemma splitFeedKinds_spec ks ov kA kB :
  splitFeedKinds ks ov = (kA, kB) -> (forall k, k ∈ ks -> - 2 ^ 31 <= k < 2 ^ 31) ->
  (forall k, k ∈ int32s kA -> k ∉ [0; 3; 10002]) /\ (forall k, k ∈ int32s kB -> k ∈ [0; 3; 10002]).
Proof.
  unfold splitFeedKinds, int32s, replaceableKinds. intros [= <- <-] Hr.
  set (ks' := match ks with [] => InScopeKinds | _ => ks end).
  assert (forall k, k ∈ ks' -> int32 k = k) as Hid.
  { intros k Hk. apply int32_id. destruct ks as [|k0 ks]; [|by apply Hr].
    unfold ks', InScopeKinds in Hk. set_unfold in Hk. lia. }
  split; intros k (k' & -> & (Hk & Hk')%list_elem_of_filter)%list_elem_of_fmap.
  - apply list_elem_of_filter in Hk' as [_ Hk']. rewrite Hid by done.
    by apply bool_decide_eq_false in Hk.
  - apply list_elem_of_filter in Hk' as [_ Hk']. rewrite Hid by done.
    by apply bool_decide_eq_true in Hk.
Qed.

Lemma splitFeedKinds_elem ks ov kA kB k :
  splitFeedKinds ks ov = (kA, kB) ->
  k ∈ kA ++ kB <-> classifyWithOverride k ov ≠ TierDrop /\ k ∈ match ks with [] => InScopeKinds | _ => ks end.
Proof.
  unfold splitFeedKinds. intros [= <- <-]. rewrite elem_of_app, !list_elem_of_filter.
  destruct (replaceableKinds k); naive_solver.
Qed.

Lemma feed_step_nil dict f fetch feed :
  feedStepA json_str dict f [] fetch feed = [] /\ feedStepB json_str dict f [] fetch feed = [].
Proof.
  assert (filter (feed_pred json_str dict f []) feed = []) as E.
  { apply elem_of_nil_inv. intros r [[Hk _] _]%list_elem_of_filter. set_solver. }
  assert (forall R `{!GoSort R}, @go_sort Row R _ [] = []) as Hn.
  { intros R ?. apply Permutation_nil_r, go_sort_perm. }
  unfold feedStepA, feedStepB. rewrite E, !Hn. simpl. by rewrite take_nil.
Qed.

Lemma collectFeed_rows dict feed ov f limit kA kB :
  splitFeedKinds (fKinds f) ov = (kA, kB) ->
  collectFeed json_str None None dict feed ov f limit =
  Ok (take limit (sortDesc (map scanEvent (feed_rows dict f kA kB limit feed)))).
Proof.
  intros Hs. unfold collectFeed. rewrite Hs.
  pose proof (feed_step_nil dict f (limit + 50) feed) as [EA EB].
  replace (match kA with [] => Ok [] | _ => _ end)
    with (Ok (map scanEvent (feedStepA json_str dict f kA (limit + 50) feed)))
    by (destruct kA; [by rewrite EA|done]).
  replace (match kB with [] => Ok [] | _ => _ end)
    with (Ok (map scanEvent (feedStepB json_str dict f kB (limit + 50) feed)))
    by (destruct kB; [by rewrite EB|done]).
  do 3 f_equal. unfold feed_rows. by rewrite <-map_app, limit_1_by_map.
Qed.

Lemma collectFeed_answer dict feed ov f limit kA kB :
  splitFeedKinds (fKinds f) ov = (kA, kB) ->
  (forall k, k ∈ fKinds f -> - 2 ^ 31 <= k < 2 ^ 31) ->
  ids_identify feed -> feed_margin dict f kA limit feed ->
  collectFeed json_str None None dict feed ov f limit =
  Ok (answer (feed_pred json_str dict f (kA ++ kB)) feed limit).
Proof.
  intros Hs Hr Hids Hm. destruct (splitFeedKinds_spec _ _ _ _ Hs Hr) as [HA HB].
  rewrite (collectFeed_rows _ _ _ _ _ kA kB Hs). unfold answer. f_equal.
  assert (antisym_on row_desc (winners row_desc collapse_key
    (filter (feed_pred json_str dict f (kA ++ kB)) feed))) as HW by (by apply feed_antisym_W).
  rewrite !sortDesc_map; [|done|].
  - rewrite !firstn_map. f_equal. by apply feed_topk.
  - eapply antisym_on_subseteq; [|exact HW]. intros x. by apply feed_rows_winners.
Qed.

(** ** What any successful read returns *)

Definition stored (feed : list Row) (tables : gmap string (list Row)) (r : Row) : Prop :=
  r ∈ feed \/ exists t rows, tables !! t = Some rows /\ r ∈ rows.

Definition good_answer (limit : nat) (P : Row -> Prop) (evs : list Event) : Prop :=
  StronglySorted ev_desc evs /\ (length evs <= limit)%nat /\
  forall e, e ∈ evs -> exists r, e = scanEvent r /\ P r.

Lemma good_answer_take limit P evs :
  (forall e, e ∈ evs -> exists r, e = scanEvent r /\ P r) ->
  good_answer limit P (take limit (sortDesc evs)).
Proof.
  intros H. split_and!.
  - auto with relay.
  - rewrite length_take. lia.
  - intros e He%subseteq_take. apply H. by rewrite <-(go_sort_perm (R:=ev_desc)).
Qed.

Lemma good_answer_impl limit (P Q : Row -> Prop) evs :
  (forall r, P r -> Q r) -> good_answer limit P evs -> good_answer limit Q evs.
Proof. unfold good_answer. naive_solver. Qed.

Lemma tierSelect_elem dict f limit rows x :
  x ∈ tierSelect json_str dict f limit rows -> x ∈ rows /\ where_holds json_str dict f x.
Proof.
  intros Hx%subseteq_take%(sublist_subseteq _ _ (limit_1_by_sublist _ _ _)).
  rewrite go_sort_perm, list_elem_of_filter in Hx. tauto.
Qed.

Lemma scanTiers_good fault dict tables f limit tiers evs :
  scanTiers json_str fault dict tables f limit tiers = Ok evs ->
  forall e, e ∈ evs -> exists r, e = scanEvent r /\
    (exists t rows, tables !! t = Some rows /\ r ∈ rows) /\ where_holds json_str dict f r.
Proof.
  revert evs. induction tiers as [|t ts IH]; simpl; intros evs H e He; simplify_eq; [set_solver|].
  destruct (fault t); [done|]. destruct (scanTiers _ _ _ _ _ _ ts) as [rest|]; simplify_eq.
  apply elem_of_app in He as [(r & -> & Hr)%list_elem_of_fmap|He]; [|by eapply IH].
  apply tierSelect_elem in Hr as [Hr Hw]. exists r. split; [done|]. split; [|done].
  destruct (tables !! t) as [rows|] eqn:Ht; simpl in Hr; [eauto|set_solver].
Qed.

Lemma collectTiers_good fault dict tables ov f limit evs :
  collectTiers json_str fault dict tables ov f limit = Ok evs ->
  good_answer limit (fun r => (exists t rows, tables !! t = Some rows /\ r ∈ rows) /\
    where_holds json_str dict f r) evs.
Proof.
  unfold collectTiers. destruct (scanTiers _ _ _ _ _ _ _) as [c|] eqn:E; [|done].
  intros [= <-]. apply good_answer_take. by eapply scanTiers_good.
Qed.

Lemma collectFeed_good faultA faultB dict feed ov f limit evs :
  collectFeed json_str faultA faultB dict feed ov f limit = Ok evs ->
  good_answer limit (fun r => r ∈ feed /\ where_holds json_str dict f r) evs.
Proof.
  unfold collectFeed. destruct (splitFeedKinds _ _) as [kA kB].
  destruct (match kA with [] => _ | _ => _ end) as [a|] eqn:Ea; [|done].
  destruct (match kB with [] => _ | _ => _ end) as [b|] eqn:Eb; [|done].
  intros [= <-]. apply good_answer_take.
  intros e He%(sublist_subseteq _ _ (limit_1_by_sublist _ _ _)).
  apply elem_of_app in He as [He|He].
  - destruct kA; [simplify_eq; set_solver|]. destruct faultA; simplify_eq.
    apply list_elem_of_fmap in He as (r & -> & [? [_ ?]]%feedStepA_subseteq). eauto.
  - destruct kB; [simplify_eq; set_solver|]. destruct faultB; simplify_eq.
    apply list_elem_of_fmap in He as (r & -> & [? [_ ?]]%feedStepB_subseteq). eauto.
Qed.

Lemma collectEvents_good now hasFeed faultA faultB fault dict feed tables ov f evs :
  collectEvents json_str now hasFeed faultA faultB fault dict feed tables ov f = Ok evs ->
  good_answer (Z.to_nat (clampLimit (fLimit f)))
    (fun r => stored feed tables r /\ where_holds json_str dict f r) evs.
Proof.
  unfold collectEvents. set (limit := Z.to_nat (clampLimit (fLimit f))). intros H. destruct (hasFeed && _).
  - destruct (collectFeed _ _ _ _ _ _ _ _) eqn:E; simplify_eq.
    + eapply good_answer_impl, collectFeed_good, E. unfold stored. naive_solver.
    + eapply good_answer_impl, collectTiers_good, H. unfold stored. naive_solver.
  - eapply good_answer_impl, collectTiers_good, H. unfold stored. naive_solver.
Qed.
End store_read_facts.

(** ** Properties *)

(** Reading from the tiers is exact: when the feed does not serve the
    request (no feed writer, an ineligible filter, or a failed feed query) and
    no tier scan fails, [collectEvents] returns exactly the answer the filter
    deserves over the union of the tiers it routes to: the newest version of
    every replaceable group (lowest id on equal timestamps), every distinct
    other event, newest first, cut to the clamped limit.  Cutting each tier to
    the limit before the merge loses nothing. *)
Theorem tier_path_answers_query json `{!GoSort ev_desc, !GoSort row_desc, !GoSort row_rev}
    now hasFeed faultA faultB fault dict feed tables ov f :
  let limit := Z.to_nat (clampLimit (fLimit f)) in
  let tiers := tiersForFilter f ov in
  let rows := concat ((fun t => default [] (tables !! t)) <$> tiers) in
  (hasFeed && feedEligible now f ov = false \/
   exists e, collectFeed json faultA faultB dict feed ov f limit = Err e) ->
  (forall t, t ∈ tiers -> fault t = None) -> routed ov tables -> ids_identify rows ->
  collectEvents json now hasFeed faultA faultB fault dict feed tables ov f =
  Ok (answer (where_holds json dict f) rows limit).
Proof.
  intros limit tiers rows Hserve Hf Hr Hids. unfold collectEvents. fold limit.
  pose proof (collectTiers_answer json fault dict tables ov f limit Hf Hr Hids) as E.
  destruct Hserve as [->|[e ->]]; [done|]. by destruct (hasFeed && _).
Qed.

Definition demo_note (i : string) (ts : Z) : Event := mkEvent i "bob" ts 1 [] "n" "s".
Definition demo_profile (i : string) (ts : Z) : Event := mkEvent i "bob" ts 0 [] "p" "s".
Definition demo_tables : gmap string (list Row) :=
  <[TierPermanent := map (rowFromEvent demo_json) [demo_profile "p1" 10; demo_profile "p2" 20]]>
  (<[TierArchive := map (rowFromEvent demo_json) [demo_note "n1" 15; demo_note "n1" 15; demo_note "n2" 5]]> ∅).

Lemma demo_routed : routed ∅ demo_tables.
Proof.
  intros t rows r Ht Hr. unfold demo_tables in Ht.
  apply lookup_insert_Some in Ht as [[<- <-]|[_ Ht]].
  - apply list_elem_of_fmap in Hr as (e & -> & He). set_unfold in He. by destruct_or?; subst.
  - apply lookup_insert_Some in Ht as [[<- <-]|[_ Ht]]; [|set_solver].
    apply list_elem_of_fmap in Hr as (e & -> & He). set_unfold in He. by destruct_or?; subst.
Qed.

Lemma tier_path_answers_query_witness :
  collectEvents demo_json 0 false None None (fun _ => None) ∅ [] demo_tables ∅
    (mkFilter [] [] [] [] None None 2) = Ok [demo_profile "p2" 20; demo_note "n1" 15].
Proof.
  rewrite tier_path_answers_query.
  - by vm_compute.
  - by left.
  - done.
  - apply demo_routed.
  - apply ids_identify_NoDup_ids. by vm_compute.
Defined.

(** C9: Reading from the feed is exact within its margin: if both feed queries
    succeed and, above every row the first step leaves behind, at least
    [limit] distinct fetched rows are strictly newer, the feed path returns
    exactly the answer the filter deserves over the feed table. *)
Theorem feed_path_answers_query json `{!GoSort ev_desc, !GoSort row_desc, !GoSort row_rev}
    now fault dict feed tables ov f kA kB :
  let limit := Z.to_nat (clampLimit (fLimit f)) in
  feedEligible now f ov = true -> splitFeedKinds (fKinds f) ov = (kA, kB) ->
  (forall k, k ∈ fKinds f -> - 2 ^ 31 <= k < 2 ^ 31) ->
  ids_identify feed -> feed_margin json dict f kA limit feed ->
  collectEvents json now true None None fault dict feed tables ov f =
  Ok (answer (feed_pred json dict f (kA ++ kB)) feed limit).
Proof.
  intros limit He Hs Hr Hids Hm. unfold collectEvents. rewrite He. simpl. fold limit.
  by rewrite (collectFeed_answer json dict feed ov f limit kA kB).
Qed.

Definition demo_feed : list Row :=
  map (rowFromEvent demo_json)
    [demo_profile "p1" 10; demo_note "n1" 15; demo_profile "p2" 20; demo_note "n1" 15; demo_note "n2" 5].

Lemma feed_path_answers_query_witness :
  collectEvents demo_json 0 true None None (fun _ => None) ∅ demo_feed ∅ ∅
    (mkFilter [] [0; 1] [] [] (Some 1) None 2) = Ok [demo_profile "p2" 20; demo_note "n1" 15].
Proof.
  rewrite (feed_path_answers_query demo_json 0 _ ∅ demo_feed ∅ ∅ _ [1] [0]).
  - by vm_compute.
  - by vm_compute.
  - by vm_compute.
  - simpl. set_unfold. lia.
  - apply ids_identify_NoDup_ids. by vm_compute.
  - intros x Hx. exfalso. rewrite drop_ge in Hx; [set_solver|]. by vm_compute; lia.
Defined.

(** C39: Every successful read is sound: the events come back newest first (ids
    ascending on a tie), no more than the clamped limit (never over 1000), and
    each one is a stored row that satisfies the filter's WHERE clause, in
    particular is not tombstoned.  No assumption on the tables is needed. *)
Theorem read_results_sound json `{!GoSort ev_desc, !GoSort row_desc, !GoSort row_rev}
    now hasFeed faultA faultB fault dict feed tables ov f evs :
  collectEvents json now hasFeed faultA faultB fault dict feed tables ov f = Ok evs ->
  StronglySorted ev_desc evs /\
  (length evs <= Z.to_nat (clampLimit (fLimit f)) <= 1000)%nat /\
  forall e, e ∈ evs -> exists r, e = scanEvent r /\ stored feed tables r /\
    where_holds json dict f r /\ ID e ∉ dict.
Proof.
  intros H. destruct (collectEvents_good json _ _ _ _ _ _ _ _ _ _ _ H) as (Hs & Hl & He).
  split_and!; [done|done| |].
  - unfold clampLimit, defaultQueryLimit. case_match; lia.
  - intros e (r & -> & Hst & Hw)%He. exists r. split_and!; [done..|].
    rewrite where_holds_unfold in Hw. naive_solver.
Qed.

Lemma read_results_sound_witness :
  StronglySorted ev_desc [demo_profile "p2" 20; demo_note "n1" 15].
Proof.
  apply (read_results_sound demo_json 0 false None None (fun _ => None) ∅ [] demo_tables ∅
    (mkFilter [] [] [] [] None None 2)).
  by vm_compute.
Defined.

(** A failing tier aborts the read: when the feed does not serve the request,
    the first tier (in routing order) whose scan fails makes the whole read
    return that tier's error; no partial result escapes. *)
Theorem failed_tier_aborts_read json `{!GoSort ev_desc, !GoSort row_desc, !GoSort row_rev}
    now faultA faultB fault dict feed tables ov f ts1 t ts2 ft :
  tiersForFilter f ov = ts1 ++ t :: ts2 ->
  (forall t', t' ∈ ts1 -> fault t' = None) -> fault t = Some ft ->
  collectEvents json now false faultA faultB fault dict feed tables ov f = Err (fault_error t ft).
Proof.
  intros Ht Hf Hft. unfold collectEvents, collectTiers. simpl. rewrite Ht. clear Ht.
  assert (forall n, scanTiers json fault dict tables f n (ts1 ++ t :: ts2) = Err (fault_error t ft)) as E.
  { intros n. induction ts1 as [|t' ts IH]; simpl; [by rewrite Hft|].
    rewrite Hf by set_solver. rewrite IH by set_solver. done. }
  by rewrite E.
Qed.

Lemma failed_tier_aborts_read_witness :
  collectEvents demo_json 0 false None None
    (fun t => if String.eqb t TierArchive then Some (FQuery (Opaque "down")) else None)
    ∅ [] demo_tables ∅ (mkFilter [] [0; 1] [] [] None None 2) =
  Err (Wrapped "query events_archive" (Opaque "down")).
Proof.
  apply (failed_tier_aborts_read demo_json 0 None None _ ∅ [] demo_tables ∅
    (mkFilter [] [0; 1] [] [] None None 2) [TierPermanent] TierArchive []
    (FQuery (Opaque "down"))); [by vm_compute| |done].
  intros t' ->%list_elem_of_singleton. done.
Defined.

Definition tied_notes (n : nat) : list Event :=
  map (fun i => demo_note (pretty (Z.of_nat i)) 100) (seq 100 n).

(** The margin is needed: with more than fifty events tied at the boundary
    second, the first feed step (id descending) leaves the lowest ids behind
    and the feed path answers a limit-1 request with an event that is not the
    first one in the relay's order. *)
Theorem feed_margin_is_needed :
  exists feed f ov now evs,
    feedEligible now f ov = true /\ ids_identify feed /\
    collectEvents demo_json now true None None (fun _ => None) ∅ feed ∅ ov f = Ok evs /\
    evs ≠ answer (feed_pred demo_json ∅ f [1]) feed 1.
Proof.
  exists (map (rowFromEvent demo_json) (tied_notes 52)), (mkFilter [] [1] [] [] (Some 1) None 1), ∅, 0,
    [demo_note "101" 100].
  split_and!; [by vm_compute| |by vm_compute|by vm_compute].
  apply ids_identify_NoDup_ids. by vm_compute.
Qed.
