(* ===== verification/Batcher.v ===== *)
(** * Tier batcher (internal/store/batcher.go)

    The single worker goroutine that owns a tier's buffer, as a state machine.
    [Worker] holds the local variables of [run]; [Batcher] adds the channels and
    what the environment sees: the rows of the tier table, the rows whose insert
    was acknowledged, the calls of [onFlushed] and the answers to [FlushAll].
    One [Label] is one turn of a goroutine; [step] is the turn's effect, [None]
    when the turn is not enabled.  The outcome of an INSERT is chosen by the
    environment ([Outcome]): a failed insert may still have stored some of its rows. *)

From S2P Require Import Prelude Nostr Config.

Inductive workerState := normal | retry | stopped.
#[export] Instance workerState_eq_dec : EqDecision workerState.
Proof. solve_decision. Defined.

Record Worker := mkWorker {
  state : workerState;
  buf : list Event;
  pending : list Event;
  replies : list nat;        (* reply channels waiting for an answer *)
  queued : nat;
  fails : nat;
  retryC : option Z;         (* delay the retry timer was armed with *)
}.

Record Batcher := mkBatcher {
  w : Worker;
  inq : list Event;          (* b.in *)
  flushReq : list nat;       (* b.flushReq *)
  stop : bool;               (* b.stop closed *)
  table : list Event;        (* rows physically in events_<tier> *)
  acked : list Event;        (* rows of acknowledged inserts, in order *)
  flushedCalls : list (list Event);          (* arguments of onFlushed *)
  answers : list (nat * option error);       (* values sent on reply channels *)
}.

(** The outcome of one INSERT. An error can arrive after rows were stored: of the
    chunk's rows, those whose flag is set (a chunk can span several partitions). *)
Inductive Outcome :=
  | Sent
  | Failed (e : error)
  | FailedStored (e : error) (stored : list bool).

(** [flushContext]: PrepareBatch, Append for every row, Send. The database decides
    the three answers. *)
Record InsertEnv := mkInsertEnv {
  ins_prepare : option error;
  ins_append : nat -> option error;
  ins_send : Outcome;
}.

Fixpoint appendRows (env : InsertEnv) (k : nat) (events : list Event) : option error :=
  match events with
  | [] => None
  | _ :: rest => match ins_append env k with Some e => Some e | None => appendRows env (S k) rest end
  end.

Definition flushContext (env : InsertEnv) (events : list Event) : Outcome :=
  match ins_prepare env with
  | Some e => Failed e
  | None => match appendRows env 0 events with Some e => Failed e | None => ins_send env end
  end.

(** The rows an INSERT of [chunk] leaves in the table. *)
Definition insertedRows (o : Outcome) (chunk : list Event) : list Event :=
  match o with Sent => chunk | Failed _ => [] | FailedStored _ m => masked m chunk end.

Section batcher.
Variable maxSize : nat.

(** [newBatcher]: capacity of the input channel, and the initial state. *)
Definition inCap : nat := if decide (maxSize * 2 < 1024)%nat then 1024%nat else (maxSize * 2)%nat.
Definition flushReqCap : nat := 16.
Definition newBatcher : Batcher :=
  mkBatcher (mkWorker normal [] [] [] 0 0 None) [] [] false [] [] [] [].

(** [enqueue]: load-shed when stopped or full. *)
Definition enqueue (evt : Event) (b : Batcher) : option error * Batcher :=
  if stop b then (Some (Sentinel ErrBatchFull), b)
  else if decide (length (inq b) < inCap)%nat then
    (None, mkBatcher (w b) (inq b ++ [evt]) (flushReq b) (stop b) (table b) (acked b)
             (flushedCalls b) (answers b))
  else (Some (Sentinel ErrBatchFull), b).

(** *** The closures of [run] *)

Definition set_w (b : Batcher) (x : Worker) : Batcher :=
  mkBatcher x (inq b) (flushReq b) (stop b) (table b) (acked b) (flushedCalls b) (answers b).

Definition arm (delay : Z) (b : Batcher) : Batcher :=
  let x := w b in
  set_w b (mkWorker (state x) (buf x) (pending x) (replies x) (queued x) (fails x) (Some delay)).

Definition replyAll (err : option error) (b : Batcher) : Batcher :=
  let x := w b in
  mkBatcher (mkWorker (state x) (buf x) (pending x) [] (queued x) (fails x) (retryC x))
    (inq b) (flushReq b) (stop b) (table b) (acked b) (flushedCalls b)
    (answers b ++ map (fun r => (r, err)) (replies x)).

(** [stage n] overwrites [pending] with [buf] and the next [n] inputs. *)
Definition stage (n : nat) (b : Batcher) : Batcher :=
  let x := w b in
  let p := buf x ++ take n (inq b) in
  mkBatcher
    (mkWorker (match p with [] => state x | _ => retry end) [] p (replies x) (queued x)
       (fails x) (retryC x))
    (drop n (inq b)) (flushReq b) (stop b) (table b) (acked b) (flushedCalls b) (answers b).

Definition set_queued (n : nat) (b : Batcher) : Batcher :=
  let x := w b in
  set_w b (mkWorker (state x) (buf x) (pending x) (replies x) n (fails x) (retryC x)).
Definition set_fails (n : nat) (b : Batcher) : Batcher :=
  let x := w b in
  set_w b (mkWorker (state x) (buf x) (pending x) (replies x) (queued x) n (retryC x)).

(** [sendOne]: insert the first chunk; on success report it to [onFlushed] and
    drop it from [pending].  (The feed mirror is fed from [flushedCalls].) *)
Definition sendOne (o : Outcome) (b : Batcher) : option error * Batcher :=
  let x := w b in
  let n := Nat.min (length (pending x)) maxSize in
  let chunk := take n (pending x) in
  match o with
  | Failed e => (Some e, b)
  | FailedStored e _ =>
      (Some e, mkBatcher x (inq b) (flushReq b) (stop b) (table b ++ insertedRows o chunk) (acked b)
                 (flushedCalls b) (answers b))
  | Sent =>
      (None,
       mkBatcher (mkWorker (state x) (buf x) (drop n (pending x)) (replies x) (queued x)
                    (fails x) (retryC x))
         (inq b) (flushReq b) (stop b) (table b ++ chunk) (acked b ++ chunk)
         (flushedCalls b ++ [chunk]) (answers b))
  end.

(** [min(30s, 1s << min(fails, 5))] *)
Definition backoff (fails : nat) : Z :=
  Z.min (30 * Second) (Z.shiftl Second (Z.of_nat (Nat.min fails 5))).

(** [state = normal; retryC = nil; timer.Stop(); replyAll(nil)] *)
Definition goNormal (b : Batcher) : Batcher :=
  let x := w b in
  replyAll None (set_w b (mkWorker normal (buf x) (pending x) (replies x) (queued x) (fails x) None)).

(** The part of [attempt] after the optional send. *)
Definition attemptTail (b : Batcher) : Batcher :=
  let b1 := match pending (w b) with
            | [] => if decide (0 < queued (w b))%nat
                    then set_queued 0 (stage (queued (w b)) b) else b
            | _ => b
            end in
  match pending (w b1) with
  | _ :: _ => arm 0 b1
  | [] => goNormal b1
  end.

Definition attempt (o : Outcome) (b : Batcher) : Batcher :=
  match pending (w b) with
  | [] => attemptTail b
  | _ :: _ =>
      match sendOne o b with
      | (Some err, b1) =>
          let b2 := set_queued 0 (replyAll (Some err) b1) in
          let b3 := arm (backoff (fails (w b2))) b2 in
          set_fails (S (fails (w b3))) b3
      | (None, b1) => attemptTail (set_fails 0 b1)
      end
  end.

(** The loop of the final flush; [sends k] is the outcome of its [k]-th send. *)
Fixpoint finalFlush (fuel : nat) (sends : nat -> Outcome) (k : nat) (b : Batcher)
    : option error * Batcher :=
  match fuel with
  | O => (None, b)
  | S fuel' =>
      let b1 := match pending (w b) with [] => stage (length (inq b)) b | _ => b end in
      match pending (w b1) with
      | [] => (None, b1)
      | _ :: _ =>
          match sendOne (sends k) b1 with
          | (Some err, b2) => (Some err, b2)
          | (None, b2) => finalFlush fuel' sends (S k) b2
          end
      end
  end.

(** Everything accepted and not yet acknowledged, oldest first. *)
Definition waiting (b : Batcher) : list Event := pending (w b) ++ buf (w b) ++ inq b.

Definition onStop (sends : nat -> Outcome) (b : Batcher) : Batcher :=
  let '(err, b1) := finalFlush (S (length (waiting b))) sends 0 b in
  let x := w b1 in
  replyAll err (set_w b1 (mkWorker stopped (buf x) (pending x) (replies x) (queued x)
                            (fails x) (retryC x))).

(** ** One turn *)

Inductive Label :=
  | LEnqueue (evt : Event)                 (* a producer calls enqueue *)
  | LRequest (r : nat)                     (* FlushAll sends its reply channel *)
  | LClose                                 (* shutdown closes stop *)
  | LInput (o : Outcome)                   (* case evt := <-input *)
  | LTick (o : Outcome)                    (* case <-ticks *)
  | LFlush (o : Outcome)                   (* case reply := <-b.flushReq *)
  | LRetry (o : Outcome)                   (* case <-retryC *)
  | LStop (sends : nat -> Outcome).        (* case <-b.stop *)

Definition step (l : Label) (b : Batcher) : option Batcher :=
  let x := w b in
  match l with
  | LEnqueue evt => Some (enqueue evt b).2
  | LRequest r =>
      if decide (length (flushReq b) < flushReqCap)%nat then
        Some (mkBatcher x (inq b) (flushReq b ++ [r]) (stop b) (table b) (acked b)
                (flushedCalls b) (answers b))
      else None
  | LClose => Some (mkBatcher x (inq b) (flushReq b) true (table b) (acked b)
                      (flushedCalls b) (answers b))
  | LInput o =>
      match state x, inq b with
      | normal, evt :: rest =>
          let b1 := mkBatcher
            (mkWorker (state x) (buf x ++ [evt]) (pending x) (replies x) (queued x) (fails x) (retryC x))
            rest (flushReq b) (stop b) (table b) (acked b) (flushedCalls b) (answers b) in
          if decide (maxSize <= length (buf (w b1)))%nat
          then Some (attempt o (stage (length (inq b1)) b1)) else Some b1
      | _, _ => None
      end
  | LTick o =>
      match state x with
      | normal => Some (attempt o (stage (length (inq b)) b))
      | _ => None
      end
  | LFlush o =>
      match state x, flushReq b with
      | stopped, _ | _, [] => None
      | _, r :: rest =>
          let b1 := mkBatcher
            (mkWorker (state x) (buf x) (pending x) (replies x ++ [r]) (length (inq b)) (fails x) (retryC x))
            (inq b) rest (stop b) (table b) (acked b) (flushedCalls b) (answers b) in
          let b2 := match pending (w b1) with
                    | [] => set_queued 0 (stage (queued (w b1)) b1)
                    | _ => b1
                    end in
          Some (attempt o b2)
      end
  | LRetry o =>
      match state x, retryC x with
      | stopped, _ | _, None => None
      | _, Some _ => Some (attempt o b)
      end
  | LStop sends =>
      match state x with
      | stopped => None
      | _ => if stop b then Some (onStop sends b) else None
      end
  end.

(** A run of the batcher under any interleaving of its goroutines. *)
Fixpoint run (ls : list Label) (b : Batcher) : option Batcher :=
  match ls with
  | [] => Some b
  | l :: ls' => match step l b with Some b' => run ls' b' | None => None end
  end.

Definition reachable (b : Batcher) : Prop := exists ls, run ls newBatcher = Some b.
End batcher.

(** [FlushAll]: what the two selects of the caller resolve to. *)
Inductive SendSelect := SendStopped | SendOk | SendTimeout.
Inductive WaitSelect := WaitReply (err : option error) | WaitStopped | WaitTimeout.

Definition FlushAll (stoppedAtEntry : bool) (s1 : SendSelect) (s2 : WaitSelect) : option error :=
  if stoppedAtEntry then Some (Sentinel ErrBatcherStopped)
  else match s1 with
       | SendStopped => Some (Sentinel ErrBatcherStopped)
       | SendTimeout => Some (Opaque "FlushAll request timed out")
       | SendOk =>
           match s2 with
           | WaitReply err => err
           | WaitStopped => Some (Sentinel ErrBatcherStopped)
           | WaitTimeout => Some (Opaque "FlushAll timed out")
           end
       end.

Lemma insertedRows_subseteq o (chunk : list Event) : insertedRows o chunk ⊆ chunk.
Proof. destruct o; simpl; [done|set_solver|apply masked_subseteq]. Qed.

(** Nothing is stored by an insert that fails before Send, and a nil error stores
    the whole chunk. *)
Lemma flushContext_spec env events :
  (flushContext env events = Sent -> ins_prepare env = None /\ ins_send env = Sent /\
     forall k, (k < length events)%nat -> ins_append env k = None) /\
  (insertedRows (flushContext env events) events ≠ [] ->
     ins_prepare env = None /\ (forall k, (k < length events)%nat -> ins_append env k = None) /\
     flushContext env events = ins_send env).
Proof.
  assert (forall k, match appendRows env k events with
    | None => forall i, (i < length events)%nat -> ins_append env (k + i) = None | Some _ => True end) as H.
  { induction events as [|e events IH]; intros k; simpl; [lia|]. destruct (ins_append env k) eqn:Ek; [done|].
    specialize (IH (S k)). destruct (appendRows env (S k) events); [done|].
    intros [|i] Hi; [by rewrite Nat.add_0_r|]. rewrite <-Nat.add_succ_comm. apply IH. lia. }
  specialize (H 0%nat). unfold flushContext. destruct (ins_prepare env); [done|].
  destruct (appendRows env 0 events); [done|]. simpl in H. naive_solver.
Qed.

(** ** Invariant *)

Section invariant.
Variable maxSize : nat.
Hypothesis Hmax : (1 <= maxSize)%nat.

(** Acknowledged rows followed by everything still waiting. *)
Definition ledger (b : Batcher) : list Event := acked b ++ waiting b.

(** Reply channels by stage of their life: answered, taken, queued. *)
Definition requests (b : Batcher) : list nat :=
  map fst (answers b) ++ replies (w b) ++ flushReq b.

Record sound (b : Batcher) : Prop := {
  inv_in : (length (inq b) <= inCap maxSize)%nat;
  inv_pending : (length (pending (w b)) <= maxSize + inCap maxSize)%nat;
  inv_calls : concat (flushedCalls b) = acked b;
  inv_acked : acked b ⊆ table b;
  inv_table : table b ⊆ ledger b;
}.

(** The shape of the worker's variables between two turns. *)
Definition settled (b : Batcher) : Prop :=
  match state (w b) with
  | normal => pending (w b) = [] /\ replies (w b) = [] /\ queued (w b) = 0%nat /\
              retryC (w b) = None /\ (length (buf (w b)) < maxSize)%nat
  | retry => pending (w b) ≠ [] /\ buf (w b) = [] /\ is_Some (retryC (w b)) /\
             (queued (w b) <= length (inq b))%nat
  | stopped => stop b = true /\ replies (w b) = []
  end.

Definition Inv (b : Batcher) : Prop := sound b /\ settled b.

(** The shape when [attempt] is called. *)
Definition staged (b : Batcher) : Prop :=
  buf (w b) = [] /\
  match pending (w b) with
  | [] => state (w b) = normal /\ queued (w b) = 0%nat
  | _ => state (w b) = retry /\ (queued (w b) <= length (inq b))%nat
  end.

(** *** Effect of the closures *)

Lemma stage_ledger n b : pending (w b) = [] -> ledger (stage n b) = ledger b.
Proof.
  intros Hp. unfold ledger, waiting. simpl. rewrite Hp. simpl.
  by rewrite <-app_assoc, take_drop.
Qed.

Lemma sendOne_ledger o b : ledger (sendOne maxSize o b).2 = ledger b.
Proof.
  unfold ledger, waiting. destruct o; simpl; try done.
  by rewrite <-app_assoc, (app_assoc (take _ _)), take_drop.
Qed.

Lemma sendOne_waiting b :
  (length (waiting (sendOne maxSize Sent b).2) +
   Nat.min (length (pending (w b))) maxSize = length (waiting b))%nat.
Proof. unfold waiting. simpl. rewrite !length_app, length_drop. lia. Qed.

Lemma attemptTail_ledger b : buf (w b) = [] -> ledger (attemptTail b) = ledger b.
Proof.
  intros Hb. unfold attemptTail. destruct (pending (w b)) as [|e p] eqn:Hp.
  - case_decide.
    + rewrite <-(stage_ledger (queued (w b)) b Hp).
      destruct (pending (w (set_queued 0 (stage (queued (w b)) b)))) eqn:E; done.
    + rewrite Hp. done.
  - rewrite Hp. done.
Qed.

Lemma attempt_ledger o b : buf (w b) = [] -> ledger (attempt maxSize o b) = ledger b.
Proof.
  intros Hb. unfold attempt. destruct (pending (w b)); [by apply attemptTail_ledger|].
  pose proof (sendOne_ledger o b) as E. destruct o; simpl in E |- *; try done.
  by rewrite attemptTail_ledger.
Qed.

Lemma replyAll_requests e b : requests (replyAll e b) = requests b.
Proof.
  unfold requests, replyAll. simpl. rewrite map_app, map_map. simpl. rewrite map_id.
  by rewrite <-app_assoc.
Qed.

Lemma attemptTail_requests b : requests (attemptTail b) = requests b.
Proof.
  unfold attemptTail.
  set (b1 := match pending (w b) with [] => _ | _ => b end).
  assert (requests b1 = requests b) as <- by (unfold b1; repeat case_match; done).
  destruct (pending (w b1)) as [|e p] eqn:Hp; [|done].
  unfold goNormal. by rewrite replyAll_requests.
Qed.

Lemma attempt_requests o b : requests (attempt maxSize o b) = requests b.
Proof.
  unfold attempt. destruct (pending (w b)); [apply attemptTail_requests|].
  destruct (sendOne maxSize o b) as [[err|] b1] eqn:E.
  - etrans; [exact (replyAll_requests (Some err) b1)|]. destruct o; by simplify_eq/=.
  - rewrite attemptTail_requests. destruct o; by simplify_eq/=.
Qed.

Lemma stage_sound n b :
  pending (w b) = [] -> (length (buf (w b)) <= maxSize)%nat -> sound b -> sound (stage n b).
Proof.
  intros Hp Hb [Hi _ Hc Ha Ht]. split; simpl; try done.
  - rewrite length_drop. lia.
  - rewrite length_app, length_take. lia.
  - by rewrite stage_ledger.
Qed.

Lemma set_w_sound b x :
  sound b -> buf x = buf (w b) -> pending x = pending (w b) -> sound (set_w b x).
Proof.
  intros [Hi Hp Hc Ha Ht] Eb Ep. split; simpl; try done.
  - by rewrite Ep.
  - unfold ledger, waiting in *. simpl. by rewrite Eb, Ep.
Qed.

Lemma replyAll_sound e b : sound b -> sound (replyAll e b).
Proof. intros [Hi Hp Hc Ha Ht]. by split. Qed.

Lemma sendOne_sound o b : sound b -> sound (sendOne maxSize o b).2.
Proof.
  intros [Hi Hp Hc Ha Ht]. pose proof (sendOne_ledger o b) as EL.
  assert (take (Nat.min (length (pending (w b))) maxSize) (pending (w b)) ⊆ ledger b) as Hsub.
  { intros x Hx%subseteq_take. unfold ledger, waiting. set_solver. }
  destruct o; simpl in *; [split|split|split]; simpl; try done.
  - rewrite length_drop. lia.
  - rewrite concat_app, Hc. simpl. by rewrite app_nil_r.
  - set_solver.
  - rewrite EL. set_solver.
  - set_solver.
  - rewrite EL. pose proof (masked_subseteq stored (take (Nat.min (length (pending (w b))) maxSize) (pending (w b)))).
    set_solver.
Qed.

(** The tail of [attempt] leaves the worker settled. *)
Lemma attemptTail_Inv b :
  sound b -> buf (w b) = [] -> (pending (w b) ≠ [] -> state (w b) = retry) ->
  state (w b) ≠ stopped -> (queued (w b) <= length (inq b))%nat -> Inv (attemptTail b).
Proof.
  intros Hs Hb Hpr Hst Hqi. unfold attemptTail.
  destruct (pending (w b)) as [|e p] eqn:Hp.
  - case_decide as Hq.
    + set (b2 := set_queued 0 (stage (queued (w b)) b)).
      assert (sound b2) as Hs2.
      { apply set_w_sound; [|done..]. apply stage_sound; [done|rewrite Hb; simpl; lia|done]. }
      destruct (pending (w b2)) as [|e p] eqn:Hp2.
      * split; [by apply replyAll_sound, set_w_sound|].
        unfold settled. simpl. split_and!; done.
      * split; [by apply set_w_sound|]. unfold settled. simpl. simpl in Hp2. rewrite Hp2. simpl.
        split_and!; [done..| |lia]. by eexists.
    + rewrite Hp. split; [by apply replyAll_sound, set_w_sound|].
      unfold settled. simpl. rewrite Hp, Hb. simpl. split_and!; done || lia.
  - rewrite Hp. split; [by apply set_w_sound|].
    unfold settled. simpl. rewrite Hpr by done. rewrite Hp. split_and!; [done..| |done]. by eexists.
Qed.

Lemma attempt_Inv o b : sound b -> staged b -> Inv (attempt maxSize o b).
Proof.
  intros Hs [Hb Hst]. unfold attempt.
  destruct (pending (w b)) as [|e p] eqn:Hp.
  { destruct Hst as [Hst Hq]. apply attemptTail_Inv; [done|done|by rewrite Hp|congruence|lia]. }
  destruct Hst as [Hst Hq].
  pose proof (sendOne_sound o b Hs) as Hs1. destruct o as [|err|err m]; simpl in Hs1 |- *.
  - apply attemptTail_Inv; [|done|done|simpl; congruence|done]. by apply set_w_sound.
  - split; [by repeat apply set_w_sound; try apply replyAll_sound|].
    unfold settled. simpl. rewrite Hst, Hp. split_and!; [done..| |lia]. by eexists.
  - split; [by repeat apply set_w_sound; try apply replyAll_sound|].
    unfold settled. simpl. rewrite Hst, Hp. split_and!; [done..| |lia]. by eexists.
Qed.

(** Staging from a settled normal state is what [attempt] expects. *)
Lemma stage_staged n b :
  pending (w b) = [] -> state (w b) = normal -> queued (w b) = 0%nat -> staged (stage n b).
Proof.
  intros Hp Hst Hq. unfold staged. simpl. split; [done|].
  destruct (buf (w b) ++ take n (inq b)); (split; [done|rewrite Hq; simpl; lia]).
Qed.

(** *** The final flush *)

Lemma finalFlush_spec fuel sends k b :
  (length (waiting b) < fuel)%nat -> (pending (w b) = [] \/ buf (w b) = []) ->
  (length (buf (w b)) <= maxSize)%nat ->
  let '(err, b') := finalFlush maxSize fuel sends k b in
  ledger b' = ledger b /\
  (answers b' = answers b /\ replies (w b') = replies (w b) /\ flushReq b' = flushReq b) /\
  stop b' = stop b /\
  (err = None -> waiting b' = []) /\ (sound b -> sound b') /\
  acked b `prefix_of` acked b'.
Proof.
  revert k b. induction fuel as [|fuel IH]; intros k b Hfuel Hshape Hbuf; [lia|]. simpl.
  set (b1 := match pending (w b) with [] => stage (length (inq b)) b | _ => b end).
  assert (ledger b1 = ledger b /\
    (answers b1 = answers b /\ replies (w b1) = replies (w b) /\ flushReq b1 = flushReq b) /\
    stop b1 = stop b /\
    buf (w b1) = [] /\ length (waiting b1) = length (waiting b) /\
    (pending (w b1) = [] -> waiting b1 = []) /\ (sound b -> sound b1) /\
    acked b1 = acked b) as
    (EL & (EA & ER & EF) & ES & Hb1 & HW & Hnil & Hsnd & EK).
  { unfold b1. destruct (pending (w b)) as [|e p] eqn:Hp.
    - pose proof (stage_ledger (length (inq b)) b Hp) as EL. split_and!; try done.
      + apply (f_equal length) in EL. unfold ledger in EL. rewrite !length_app in EL. simpl in EL. lia.
      + simpl. unfold waiting. simpl. intros E. rewrite E. by rewrite drop_all.
      + by apply stage_sound.
    - destruct Hshape as [?|Hb]; [congruence|]. split_and!; try done. congruence. }
  destruct (pending (w b1)) as [|e p] eqn:Hp1; [split_and!; auto; by rewrite EK|].
  pose proof (sendOne_ledger (sends k) b1) as ELs.
  pose proof (sendOne_sound (sends k) b1) as Hs1.
  destruct (sends k) as [|err|err m]; simpl in ELs, Hs1 |- *.
  - match goal with |- context [finalFlush _ _ _ _ ?x] => set (b2 := x) in * end.
    assert (length (waiting b2) < fuel)%nat as Hf2.
    { pose proof (sendOne_waiting b1) as HW2. rewrite Hp1 in HW2. cbn [length] in HW2.
      change (sendOne maxSize Sent b1).2 with b2 in HW2. lia. }
    assert (length (buf (w b2)) <= maxSize)%nat as Hbuf2 by (simpl; rewrite Hb1; simpl; lia).
    specialize (IH (S k) b2 Hf2 (or_intror Hb1) Hbuf2).
    destruct (finalFlush maxSize fuel sends (S k) b2) as [err b'].
    destruct IH as (E1 & (E2 & E3 & E4) & E5 & E6 & E7 & E8).
    split_and!; [by rewrite E1, ELs|by rewrite E2|by rewrite E3|by rewrite E4|by rewrite E5|done|auto|].
    etrans; [|exact E8]. simpl. rewrite EK. by eexists.
  - split_and!; try done; auto. by rewrite EK.
  - split_and!; try done; auto. simpl. by rewrite EK.
Qed.

(** What a turn adds to the ledger and to the requests. *)
Definition accepted (l : Label) (b : Batcher) : list Event :=
  match l with
  | LEnqueue evt => match (enqueue maxSize evt b).1 with None => [evt] | Some _ => [] end
  | _ => []
  end.
Definition requested (l : Label) : list nat :=
  match l with LRequest r => [r] | _ => [] end.

(** The invariant, conservation and request order for one turn. *)
Definition turn_ok (l : Label) (b b' : Batcher) : Prop :=
  Inv b' /\ ledger b' = ledger b ++ accepted l b /\ requests b' = requests b ++ requested l.

Lemma enqueue_ok evt b : Inv b -> turn_ok (LEnqueue evt) b (enqueue maxSize evt b).2.
Proof.
  intros [[Hi Hp Hc Ha Ht] Hset]. unfold turn_ok, accepted, requested. unfold enqueue.
  destruct (stop b) eqn:Hstop; [by rewrite !app_nil_r|].
  case_decide as Hlen; [|by rewrite !app_nil_r]. simpl. rewrite app_nil_r.
  assert (forall c, ledger (mkBatcher (w b) (inq b ++ [evt]) (flushReq b) c (table b) (acked b)
    (flushedCalls b) (answers b)) = ledger b ++ [evt]) as EL.
  { intros c. unfold ledger, waiting. simpl. by rewrite <-!app_assoc. }
  split_and!; [split|apply EL|done].
  - split; simpl; try done.
    + rewrite length_app. simpl. lia.
    + rewrite EL. set_solver.
  - unfold settled in *. simpl. destruct (state (w b)); [done| |congruence].
    destruct Hset as (? & ? & ? & ?). split_and!; try done. rewrite length_app. lia.
Qed.

Lemma attempt_turn_ok o b b0 :
  sound b0 -> staged b0 -> ledger b0 = ledger b -> requests b0 = requests b ->
  forall l, accepted l b = [] -> requested l = [] -> turn_ok l b (attempt maxSize o b0).
Proof.
  intros Hs Hst EL ER l Hacc Hreq. unfold turn_ok. rewrite Hacc, Hreq, !app_nil_r.
  split_and!; [by apply attempt_Inv| |by rewrite attempt_requests].
  rewrite attempt_ledger; [done|apply Hst].
Qed.

Lemma input_ok o b b' : Inv b -> step maxSize (LInput o) b = Some b' -> turn_ok (LInput o) b b'.
Proof.
  intros [Hs Hset] Hstep. simpl in Hstep. unfold settled in Hset.
  destruct (state (w b)) eqn:Est; [|done..]. destruct (inq b) as [|evt rest] eqn:Ein; [done|].
  destruct Hset as (Hp & Hr & Hq & Hrc & Hlen).
  match type of Hstep with context [stage (length rest) ?x] => set (b1 := x) in * end.
  assert (ledger b1 = ledger b) as EL.
  { unfold ledger, waiting. simpl. rewrite Ein. by rewrite <-!app_assoc. }
  assert (sound b1) as Hs1.
  { destruct Hs as [Hi Hpn Hc Ha Ht]. split; simpl; try done.
    - rewrite Ein in Hi. simpl in Hi. lia.
    - by rewrite EL. }
  assert (length (buf (w b1)) <= maxSize)%nat as Hb1 by (simpl; rewrite length_app; simpl; lia).
  case_decide as Hfull; simplify_eq.
  - apply attempt_turn_ok; [by apply stage_sound|by apply stage_staged|by rewrite stage_ledger|done..].
  - unfold turn_ok, accepted, requested. rewrite !app_nil_r. split_and!; [|done|done].
    split; [done|]. unfold settled. simpl. simpl in Hfull.
    split_and!; [done..|lia].
Qed.

Lemma tick_ok o b b' : Inv b -> step maxSize (LTick o) b = Some b' -> turn_ok (LTick o) b b'.
Proof.
  intros [Hs Hset] Hstep. simpl in Hstep. unfold settled in Hset.
  destruct (state (w b)) eqn:Est; simplify_eq. destruct Hset as (Hp & Hr & Hq & Hrc & Hlen).
  apply attempt_turn_ok; [apply stage_sound; [done|lia|done]|by apply stage_staged|by rewrite stage_ledger|done..].
Qed.

Lemma flush_ok o b b' : Inv b -> step maxSize (LFlush o) b = Some b' -> turn_ok (LFlush o) b b'.
Proof.
  intros [Hs Hset] Hstep. simpl in Hstep.
  destruct (flushReq b) as [|r rest] eqn:Efr; [by destruct (state (w b))|].
  match type of Hstep with context [set_queued 0 (stage _ ?x)] => set (b1 := x) in * end.
  assert (sound b1) as Hs1 by (destruct Hs; by split).
  assert (ledger b1 = ledger b) as EL by done.
  assert (requests b1 = requests b) as ER.
  { unfold requests. simpl. rewrite Efr. by rewrite <-!app_assoc. }
  unfold settled in Hset. destruct (state (w b)) eqn:Est; [| |done].
  - destruct Hset as (Hp & Hr & Hq & Hrc & Hlen). rewrite Hp in Hstep. simplify_eq.
    apply attempt_turn_ok; [| |by rewrite <-EL, <-(stage_ledger (length (inq b)) b1 Hp)|done..].
    + apply set_w_sound; [|done..]. apply stage_sound; [done|simpl; lia|done].
    + unfold staged. simpl. split; [done|]. destruct (buf (w b) ++ take _ (inq b)); [done|].
      split; [done|lia].
  - destruct Hset as (Hp & Hb & Hrc & Hq). destruct (pending (w b)) as [|e p] eqn:Ep; [done|].
    simplify_eq. apply attempt_turn_ok; [done| |done..].
    unfold staged. simpl. by rewrite ?Ep.
Qed.

Lemma retry_ok o b b' : Inv b -> step maxSize (LRetry o) b = Some b' -> turn_ok (LRetry o) b b'.
Proof.
  intros [Hs Hset] Hstep. simpl in Hstep. unfold settled in Hset.
  destruct (state (w b)) eqn:Est; [| |done].
  - destruct Hset as (_ & _ & _ & Hrc & _). by rewrite Hrc in Hstep.
  - destruct Hset as (Hp & Hb & [d Hrc] & Hq). rewrite Hrc in Hstep. simplify_eq.
    apply attempt_turn_ok; [done| |done..]. unfold staged. destruct (pending (w b)); [done|].
    by rewrite Est.
Qed.

(** Shutdown: the final flush answers every waiting [FlushAll], keeps the
    ledger, and reports success only with nothing left. *)
Lemma onStop_ok sends b :
  Inv b -> state (w b) ≠ stopped -> stop b = true ->
  turn_ok (LStop sends) b (onStop maxSize sends b) /\
  exists err,
    answers (onStop maxSize sends b) = answers b ++ map (fun r => (r, err)) (replies (w b)) /\
    (err = None -> waiting (onStop maxSize sends b) = []) /\
    acked b `prefix_of` acked (onStop maxSize sends b).
Proof.
  intros [Hs Hset] Hst Hstop. unfold onStop.
  pose proof (finalFlush_spec (S (length (waiting b))) sends 0 b) as H.
  assert (pending (w b) = [] \/ buf (w b) = []) as Hshape.
  { unfold settled in Hset. destruct (state (w b)); [left; tauto|right; tauto|done]. }
  assert (length (buf (w b)) <= maxSize)%nat as Hbuf.
  { unfold settled in Hset. destruct (state (w b)); [lia| |done].
    destruct Hset as (_ & -> & _). simpl. lia. }
  specialize (H ltac:(lia) Hshape Hbuf).
  destruct (finalFlush maxSize _ sends 0 b) as [err b1].
  destruct H as (EL & (EA & ER & EF) & ES & Hnil & Hsnd & Hpre).
  set (b2 := set_w b1 _).
  assert (sound b2) as Hs2 by (apply set_w_sound; auto).
  split; [|exists err; split; [|by split]].
  - unfold turn_ok, accepted, requested. rewrite !app_nil_r. split_and!.
    + split; [by apply replyAll_sound|]. unfold settled. simpl. by rewrite ES.
    + done.
    + rewrite replyAll_requests. unfold requests. simpl. by rewrite EA, ER, EF.
  - simpl. by rewrite EA, ER.
Qed.

Lemma step_ok l b b' : Inv b -> step maxSize l b = Some b' -> turn_ok l b b'.
Proof.
  intros HI Hstep. destruct l.
  - simpl in Hstep. simplify_eq. by apply enqueue_ok.
  - simpl in Hstep. destruct HI as [[Hi Hp Hc Ha Ht] Hset]. repeat case_match; simplify_eq.
    unfold turn_ok. simpl. rewrite app_nil_r. split_and!; [split; [by split|]|done|].
    { unfold settled in *. simpl. destruct (state (w b)); [done|done|]. naive_solver congruence. }
    unfold requests. simpl. by rewrite <-!app_assoc.
  - simpl in Hstep. destruct HI as [[Hi Hp Hc Ha Ht] Hset]. simplify_eq.
    unfold turn_ok. simpl. rewrite !app_nil_r. split_and!; [|done..]. split; [by split|].
    unfold settled in *. simpl. destruct (state (w b)); try done. tauto.
  - by apply (input_ok o).
  - by apply (tick_ok o).
  - by apply (flush_ok o).
  - by apply (retry_ok o).
  - simpl in Hstep. destruct (state (w b)) eqn:Est; [| |done]; destruct (stop b) eqn:Es; simplify_eq;
      by apply onStop_ok; rewrite ?Est.
Qed.

Lemma newBatcher_Inv : Inv newBatcher.
Proof. split; [split; simpl; try done; lia|]. unfold settled. simpl. split_and!; done || lia. Qed.

(** *** Runs *)

Fixpoint accepted_by (ls : list Label) (b : Batcher) : list Event :=
  match ls with
  | [] => []
  | l :: ls' => accepted l b ++
      match step maxSize l b with Some b' => accepted_by ls' b' | None => [] end
  end.

Lemma run_ok ls b b' :
  Inv b -> run maxSize ls b = Some b' ->
  Inv b' /\ ledger b' = ledger b ++ accepted_by ls b /\
  requests b' = requests b ++ (ls ≫= requested).
Proof.
  revert b. induction ls as [|l ls IH]; intros b HI Hrun; simpl in *.
  { simplify_eq. by rewrite !app_nil_r. }
  destruct (step maxSize l b) as [b1|] eqn:E; [|done].
  destruct (step_ok l b b1 HI E) as (HI1 & EL & ER).
  destruct (IH b1 HI1 Hrun) as (HI' & EL' & ER').
  split_and!; [done|by rewrite EL', EL, app_assoc|by rewrite ER', ER, app_assoc].
Qed.

Lemma reachable_Inv b : reachable maxSize b -> Inv b.
Proof. intros [ls Hrun]. by apply (run_ok ls newBatcher b newBatcher_Inv). Qed.
End invariant.

#[export] Hint Resolve newBatcher_Inv reachable_Inv : relay.

(** ** The promise of FlushAll *)

Section flush_contract.
Variable maxSize : nat.
Hypothesis Hmax : (1 <= maxSize)%nat.

(** Rows that will be acknowledged before the taken requests are answered. *)
Definition covered_rows (b : Batcher) : nat :=
  length (acked b) + length (pending (w b)) + length (buf (w b)) + queued (w b).

(** Request [r] waits for the first [m] rows of the ledger. *)
Definition covered (r m : nat) (b : Batcher) : Prop :=
  (m <= length (ledger b))%nat /\
  (r ∈ replies (w b) -> (m <= covered_rows b)%nat) /\
  ((r, None) ∈ answers b -> (m <= length (acked b))%nat).

Lemma answers_replied r err (l : list nat) (A : list (nat * option error)) :
  (r, None) ∈ A ++ map (fun r => (r, err)) l ->
  (r, None) ∈ A \/ (err = None /\ r ∈ l).
Proof.
  intros [|(r' & [= -> <-] & ?)%list_elem_of_fmap]%elem_of_app; auto.
Qed.

Lemma attemptTail_covered r m b :
  buf (w b) = [] -> (queued (w b) <= length (inq b))%nat ->
  covered r m b -> covered r m (attemptTail b).
Proof.
  intros Hb Hq (Hm & Hrep & Hans). unfold covered. rewrite attemptTail_ledger by done.
  split; [done|]. unfold attemptTail.
  set (b1 := match pending (w b) with [] => _ | _ => b end).
  assert (covered_rows b1 = covered_rows b /\ replies (w b1) = replies (w b) /\
    answers b1 = answers b /\ acked b1 = acked b /\
    (pending (w b1) = [] -> covered_rows b1 = length (acked b1))) as (E1 & E2 & E3 & E4 & E5).
  { unfold b1, covered_rows. destruct (pending (w b)) as [|e p] eqn:Hp.
    - case_decide; simpl; rewrite ?Hb, ?Hp; simpl; rewrite ?length_take; split_and!; try done; try lia;
        intros E; apply (f_equal length) in E; rewrite ?length_take in E; simpl in E; lia.
    - split_and!; try done; rewrite Hp; done. }
  destruct (pending (w b1)) as [|e p] eqn:Hp1.
  - split; [intros Hr; simpl in Hr; set_solver|]. simpl. rewrite E3.
    intros [Hin|[_ Hin]]%answers_replied; rewrite E4; [auto|].
    rewrite E2 in Hin. specialize (Hrep Hin). rewrite <-E1, (E5 eq_refl), E4 in Hrep. done.
  - unfold arm, covered_rows. simpl. rewrite E2, E3, E4. split; [|done]. intros Hr.
    specialize (Hrep Hr). rewrite <-E1 in Hrep. unfold covered_rows in Hrep. by rewrite E4 in Hrep.
Qed.

Lemma attempt_covered o r m b : staged b -> covered r m b -> covered r m (attempt maxSize o b).
Proof.
  intros [Hb Hst] Hc. unfold attempt. destruct (pending (w b)) as [|e p] eqn:Hp.
  { apply attemptTail_covered; [done|lia|done]. }
  pose proof (sendOne_ledger maxSize o b) as EL.
  destruct Hc as (Hm & Hrep & Hans). destruct o as [|err|err st]; simpl in *.
  - apply attemptTail_covered; [done|apply Hst|]. split_and!.
    + unfold ledger, waiting in *. simpl in *. by rewrite EL.
    + unfold covered_rows in *. simpl in *. intros Hr. specialize (Hrep Hr).
      rewrite length_app, length_take, length_drop. lia.
    + simpl. rewrite length_app. intros Hr. specialize (Hans Hr). lia.
  - split_and!; [done|simpl; set_solver|]. simpl.
    intros [Hin|[? _]]%answers_replied; [auto|done].
  - split_and!; [done|simpl; set_solver|]. simpl.
    intros [Hin|[? _]]%answers_replied; [auto|done].
Qed.

Lemma covered_no_replies r m b b0 :
  covered r m b -> ledger b0 = ledger b -> answers b0 = answers b -> acked b0 = acked b ->
  replies (w b0) = [] -> covered r m b0.
Proof.
  intros (Hm & _ & Hans) EL EA EK ER. unfold covered. rewrite EL, EA, EK, ER.
  split_and!; [done|set_solver|done].
Qed.

Lemma taken_staged b b1 :
  Inv maxSize b -> (state (w b) = normal \/ state (w b) = retry) ->
  w b1 = mkWorker (state (w b)) (buf (w b)) (pending (w b)) (replies (w b1)) (length (inq b))
           (fails (w b)) (retryC (w b)) -> inq b1 = inq b ->
  staged (match pending (w b1) with [] => set_queued 0 (stage (queued (w b1)) b1) | _ => b1 end).
Proof.
  intros [_ Hset] Hst Ew Ei. rewrite Ew. simpl. unfold settled in Hset.
  destruct Hst as [Est|Est]; rewrite Est in Hset.
  - destruct Hset as (Hp & _). rewrite Hp. unfold staged. simpl. split; [done|].
    destruct (buf (w b1) ++ _); simpl; [|split; [done|lia]].
    rewrite Ew. simpl. by rewrite Est.
  - destruct Hset as (Hp & Hb & _ & Hq). destruct (pending (w b)) as [|e p] eqn:Ep; [done|].
    unfold staged. rewrite Ew. simpl. rewrite Hb, Est. split; [done|]. split; [done|]. by rewrite Ei.
Qed.

(** Taking a request covers the whole ledger. *)
Lemma flush_covered o r m b b' :
  Inv maxSize b -> step maxSize (LFlush o) b = Some b' -> covered r m b -> covered r m b'.
Proof.
  intros HI Hstep (Hm & Hrep & Hans). simpl in Hstep.
  destruct (flushReq b) as [|r' rest]; [by destruct (state (w b))|].
  match type of Hstep with context [set_queued 0 (stage _ ?x)] => set (b1 := x) in * end.
  assert (state (w b) = normal \/ state (w b) = retry) as Hst.
  { destruct (state (w b)); auto. done. }
  pose proof (taken_staged b b1 HI Hst eq_refl eq_refl) as Hstg.
  set (b2 := match pending (w b1) with [] => _ | _ => b1 end) in *.
  assert (b' = attempt maxSize o b2) as -> by (destruct Hst as [E|E]; rewrite E in Hstep; by simplify_eq).
  apply attempt_covered; [done|].
  assert (ledger b2 = ledger b /\ answers b2 = answers b /\ acked b2 = acked b /\
    covered_rows b2 = length (ledger b)) as (E1 & E2 & E3 & E4).
  { unfold b2, covered_rows. destruct (pending (w b1)) as [|e p] eqn:Hp1.
    - pose proof (stage_ledger (queued (w b1)) b1 Hp1) as EL. simpl in Hp1.
      split_and!; [exact EL|done|done|]. simpl. unfold ledger, waiting. rewrite Hp1. simpl.
      rewrite !length_app, length_take. lia.
    - simpl in Hp1. split_and!; try done. simpl. unfold ledger, waiting. rewrite !length_app. lia. }
  unfold covered. rewrite E1, E2, E3, E4. split_and!; auto.
Qed.

Lemma step_covered l r m b b' :
  Inv maxSize b -> step maxSize l b = Some b' -> covered r m b -> covered r m b'.
Proof.
  intros HI Hstep Hc. pose proof HI as [Hs Hset].
  destruct l; [| | | | |by eapply flush_covered| |]; simpl in Hstep.
  - simplify_eq. pose proof (enqueue_ok maxSize Hmax evt b HI) as (_ & EL & _).
    destruct Hc as (Hm & Hrep & Hans). split_and!.
    + rewrite EL, length_app. lia.
    + unfold enqueue. repeat case_match; done.
    + unfold enqueue. repeat case_match; done.
  - repeat case_match; simplify_eq. by destruct Hc.
  - simplify_eq. by destruct Hc.
  - unfold settled in Hset. destruct (state (w b)) eqn:Est; [|done..].
    destruct (inq b) as [|evt rest] eqn:Ein; [done|].
    destruct Hset as (Hp & Hr & Hq & _ & Hlen).
    match type of Hstep with context [stage (length rest) ?x] => set (b1 := x) in * end.
    assert (covered r m b1) as Hc1.
    { eapply covered_no_replies; [exact Hc| |done|done|done].
      unfold ledger, waiting. simpl. rewrite Ein. by rewrite <-!app_assoc. }
    case_decide; simplify_eq; [|done]. apply attempt_covered; [by apply (stage_staged maxSize Hmax)|].
    eapply covered_no_replies; [exact Hc1|by rewrite stage_ledger|done|done|done].
  - unfold settled in Hset. destruct (state (w b)) eqn:Est; [|done..]. simplify_eq.
    destruct Hset as (Hp & Hr & Hq & _ & Hlen). apply attempt_covered; [by apply (stage_staged maxSize Hmax)|].
    eapply covered_no_replies; [exact Hc|by rewrite stage_ledger|done|done|done].
  - unfold settled in Hset. destruct (state (w b)) eqn:Est; [| |done].
    + destruct Hset as (_ & _ & _ & Hrc & _). by rewrite Hrc in Hstep.
    + destruct Hset as (Hp & Hb & [d Hrc] & Hq). rewrite Hrc in Hstep. simplify_eq.
      apply attempt_covered; [|done]. unfold staged. destruct (pending (w b)); [done|].
      by rewrite Est.
  - assert (state (w b) ≠ stopped /\ stop b = true /\ b' = onStop maxSize sends b) as (Hne & Es & ->).
    { destruct (state (w b)), (stop b); simplify_eq; done. }
    destruct (onStop_ok maxSize Hmax sends b HI Hne Es) as ((_ & EL & _) & err & EA & Hnil & Hpre).
    destruct Hc as (Hm & Hrep & Hans). unfold covered. rewrite EL, EA. simpl. rewrite app_nil_r.
    assert (length (acked b) <= length (acked (onStop maxSize sends b)))%nat as Hmono.
    { by apply prefix_length. }
    split_and!; [done| |].
    + unfold onStop. destruct (finalFlush _ _ _ _ _). simpl. set_solver.
    + intros [Hin|[-> Hin]]%answers_replied; [specialize (Hans Hin); lia|].
      unfold ledger in EL. rewrite (Hnil eq_refl), app_nil_r in EL. rewrite EL.
      simpl. rewrite app_nil_r. done.
Qed.
Lemma run_covered ls r m b b' :
  Inv maxSize b -> run maxSize ls b = Some b' -> covered r m b -> covered r m b'.
Proof.
  revert b. induction ls as [|l ls IH]; intros b HI Hrun Hc; simpl in *; [by simplify_eq|].
  destruct (step maxSize l b) as [b1|] eqn:E; [|done].
  apply (IH b1); [by apply (step_ok maxSize Hmax l b)|done|by eapply step_covered].
Qed.

Lemma prefix_of_ledger b0 b2 X :
  ledger b2 = ledger b0 ++ X -> (length (ledger b0) <= length (acked b2))%nat ->
  ledger b0 `prefix_of` acked b2.
Proof.
  intros EL Hlen. unfold ledger in EL at 1.
  exists (drop (length (ledger b0)) (acked b2)).
  rewrite <-(take_drop (length (ledger b0)) (acked b2)) at 1. f_equal.
  apply (f_equal (take (length (ledger b0)))) in EL.
  by rewrite take_app_le, take_app_length in EL.
Qed.
End flush_contract.

(** ** Draining and shutdown *)

Lemma backoff_range n : Second <= backoff n <= 30 * Second.
Proof.
  unfold backoff. rewrite Z.shiftl_mul_pow2 by lia.
  assert (1 <= 2 ^ Z.of_nat (Nat.min n 5)) by (apply Z.lt_pred_le, Z.pow_pos_nonneg; lia).
  unfold Second. lia.
Qed.

Section drain.
Variable maxSize : nat.
Hypothesis Hmax : (1 <= maxSize)%nat.

Lemma finalFlush_all_sent fuel sends k b :
  (forall j, sends j = Sent) -> (finalFlush maxSize fuel sends k b).1 = None.
Proof.
  intros Hs. revert k b. induction fuel as [|fuel IH]; intros k b; simpl; [done|].
  destruct (pending (w (match pending (w b) with [] => stage (length (inq b)) b | _ => b end))); [done|].
  rewrite Hs. apply IH.
Qed.

(** With every insert succeeding nothing is left behind. *)
Lemma onStop_all_sent sends b :
  Inv maxSize b -> state (w b) ≠ stopped -> (forall k, sends k = Sent) -> waiting (onStop maxSize sends b) = [].
Proof.
  intros [_ Hset] Hst Hsent. pose proof (finalFlush_all_sent (S (length (waiting b))) sends 0 b Hsent) as Hn.
  pose proof (finalFlush_spec maxSize Hmax (S (length (waiting b))) sends 0 b) as H.
  unfold onStop. unfold settled in Hset.
  destruct (finalFlush maxSize (S (length (waiting b))) sends 0 b) as [err1 b1]. simpl in Hn.
  destruct H as (_ & _ & _ & Hw & _); [lia| | |exact (Hw Hn)].
  - destruct (state (w b)); naive_solver.
  - destruct (state (w b)); [lia| |done]. destruct Hset as (_ & -> & _). simpl. lia.
Qed.

Lemma finalFlush_calls fuel sends k b :
  flushedCalls b `prefix_of` flushedCalls (finalFlush maxSize fuel sends k b).2.
Proof.
  revert k b. induction fuel as [|fuel IH]; intros k b; simpl; [done|].
  set (b1 := match pending (w b) with [] => stage (length (inq b)) b | _ => b end).
  assert (flushedCalls b1 = flushedCalls b) as E by (unfold b1; by destruct (pending (w b))).
  rewrite <-E. destruct (pending (w b1)); [done|]. destruct (sends k); simpl; [|done..].
  etrans; [|apply IH]. simpl. by apply prefix_app_r.
Qed.

(** Rows the worker still has to send before it answers the taken requests. *)
Definition owed (b : Batcher) : nat := (length (pending (w b)) + queued (w b))%nat.

(** One successful retry turn sends a chunk and gets closer to [normal]. *)
Lemma retry_sent b :
  Inv maxSize b -> state (w b) = retry ->
  exists b', step maxSize (LRetry Sent) b = Some b' /\ (owed b' < owed b)%nat /\
    ((state (w b') = retry /\ answers b' = answers b /\ replies (w b') = replies (w b)) \/
     (state (w b') = normal /\
      answers b' = answers b ++ map (fun r => (r, None)) (replies (w b)))).
Proof.
  intros [_ Hset] Hst. unfold settled in Hset. rewrite Hst in Hset.
  destruct Hset as (Hp & Hb & [d Hrc] & Hq). simpl. rewrite Hst, Hrc.
  eexists; split; [done|]. unfold attempt, attemptTail.
  destruct (pending (w b)) as [|e p] eqn:Ep; [done|]. unfold owed. cbn [sendOne].
  rewrite Ep. simpl. destruct maxSize as [|n]; [lia|]. simpl.
  destruct (drop (Nat.min (length p) n) p) as [|e' p'] eqn:Ed; simpl.
  - case_decide as Hq0; simpl.
    + rewrite Hb. simpl. destruct (take (queued (w b)) (inq b)) as [|e1 l1] eqn:Et; simpl.
      * apply (f_equal length) in Et. rewrite length_take in Et. simpl in Et. lia.
      * rewrite Et. apply (f_equal length) in Et. rewrite length_take in Et. simpl in Et |- *.
        split; [lia|]. by left.
    + rewrite ?Ed. simpl. split; [lia|]. by right.
  - rewrite ?Ed. simpl. apply (f_equal length) in Ed. rewrite length_drop in Ed. simpl in Ed.
    split; [lia|]. by left.
Qed.

Lemma retry_drains n b :
  Inv maxSize b -> state (w b) = retry -> (owed b <= n)%nat ->
  exists k b', (k <= n)%nat /\ run maxSize (replicate k (LRetry Sent)) b = Some b' /\
    state (w b') = normal /\ Inv maxSize b' /\
    answers b' = answers b ++ map (fun r => (r, None)) (replies (w b)).
Proof.
  revert b. induction n as [|n IH]; intros b HI Hst Ho.
  { destruct (retry_sent b HI Hst) as (b' & _ & ? & _). lia. }
  destruct (retry_sent b HI Hst) as (b1 & E1 & Hlt & Hcase).
  pose proof (step_ok maxSize Hmax _ _ _ HI E1) as (HI1 & _).
  destruct Hcase as [(Hst1 & EA & ER)|(Hst1 & EA)].
  - destruct (IH b1 HI1 Hst1 ltac:(lia)) as (k & b' & Hk & Hrun & Hn & HI' & EA').
    exists (S k), b'. rewrite EA', EA, ER. cbn [replicate run]. rewrite E1.
    split_and!; [lia|done..].
  - exists 1%nat, b1. cbn [replicate run]. rewrite E1. split_and!; [lia|done..].
Qed.

Lemma requests_of_run ls b :
  run maxSize ls newBatcher = Some b ->
  Inv maxSize b /\ ledger b = accepted_by maxSize ls newBatcher /\ requests b = ls ≫= requested.
Proof.
  intros Hrun. apply (run_ok maxSize Hmax ls newBatcher b (newBatcher_Inv maxSize Hmax) Hrun).
Qed.
End drain.


(** ** Properties *)

Definition demo_row (n : Z) : Event := mkEvent "id" "author" n 1 [] "hi" "sig".

(** C4: under every interleaving of producers, FlushAll callers, timers, insert
    failures and shutdown, the rows accepted by [enqueue] are exactly the
    acknowledged rows followed by the waiting ones, in arrival order: nothing is
    lost, duplicated or reordered. [onFlushed] has seen exactly the acknowledged
    rows, each of which is in the table; and flush requests are answered at most
    once, in the order they were made. *)
Theorem batcher_conserves_rows maxSize ls b :
  (1 <= maxSize)%nat -> run maxSize ls newBatcher = Some b ->
  accepted_by maxSize ls newBatcher = acked b ++ pending (w b) ++ buf (w b) ++ inq b /\
  concat (flushedCalls b) = acked b /\
  (forall evt, evt ∈ acked b -> evt ∈ table b) /\
  (forall evt, evt ∈ table b -> evt ∈ accepted_by maxSize ls newBatcher) /\
  map fst (answers b) `prefix_of` (ls ≫= requested).
Proof.
  intros Hmax Hrun. destruct (requests_of_run maxSize Hmax ls b Hrun) as ([[] _] & EL & <-).
  rewrite <-EL. split_and!; [done|done|done|done|]. unfold requests. by eexists.
Qed.

Lemma batcher_conserves_rows_witness :
  let ls := [LEnqueue (demo_row 1); LEnqueue (demo_row 2); LInput Sent;
             LInput (FailedStored (Opaque "net") [false; true]); LEnqueue (demo_row 3); LRetry Sent] in
  exists b, run 2 ls newBatcher = Some b /\ acked b = [demo_row 1; demo_row 2] /\
    accepted_by 2 ls newBatcher = acked b ++ pending (w b) ++ buf (w b) ++ inq b.
Proof.
  intros ls. eexists.
  match goal with |- ?r = Some ?b /\ _ =>
    assert (r = Some b) as Hrun by (vm_compute; reflexivity) end.
  split; [exact Hrun|]. split; [reflexivity|].
  apply (batcher_conserves_rows 2 ls _ ltac:(lia) Hrun).
Defined.

(** C10: [FlushAll] keeps its promise. If a flush request is made in a reachable
    state and is later answered with nil, then every row accepted before the
    request was made has been acknowledged by the database when the answer is
    given, whatever happens in between. *)
Theorem flushAll_nil_means_durable maxSize r b0 b1 ls b2 :
  (1 <= maxSize)%nat -> reachable maxSize b0 -> r ∉ requests b0 ->
  step maxSize (LRequest r) b0 = Some b1 -> run maxSize ls b1 = Some b2 ->
  (r, None) ∈ answers b2 -> ledger b0 `prefix_of` acked b2.
Proof.
  intros Hmax HR Hfresh H1 Hrun Hans. pose proof (reachable_Inv maxSize Hmax b0 HR) as HI0.
  pose proof (step_ok maxSize Hmax _ _ _ HI0 H1) as (HI1 & EL1 & _).
  destruct (run_ok maxSize Hmax ls b1 b2 HI1 Hrun) as (_ & EL2 & _).
  assert (covered r (length (ledger b0)) b0) as Hc.
  { unfold requests in Hfresh. rewrite !not_elem_of_app in Hfresh. split_and!; [done|naive_solver|].
    intros Hin%(list_elem_of_fmap_2 fst). naive_solver. }
  pose proof (run_covered maxSize Hmax ls r _ b1 b2 HI1 Hrun
                (step_covered maxSize Hmax _ _ _ _ _ HI0 H1 Hc)) as (_ & _ & Hlen).
  eapply prefix_of_ledger; [|by apply Hlen]. rewrite EL2, EL1. by rewrite <-app_assoc.
Qed.

Lemma flushAll_nil_means_durable_witness :
  let pre := [LEnqueue (demo_row 1); LEnqueue (demo_row 2); LEnqueue (demo_row 3); LInput Sent] in
  exists b0 b2, run 2 pre newBatcher = Some b0 /\
    run 2 [LRequest 7; LFlush Sent; LEnqueue (demo_row 4); LRetry Sent] b0 = Some b2 /\
    length (ledger b0) = 3%nat /\ ledger b0 `prefix_of` acked b2.
Proof.
  eexists _, _. split; [vm_compute; reflexivity|]. split; [vm_compute; reflexivity|].
  split; [reflexivity|].
  eapply (flushAll_nil_means_durable 2 7 _ _ [LFlush Sent; LEnqueue (demo_row 4); LRetry Sent]).
  - lia.
  - exists [LEnqueue (demo_row 1); LEnqueue (demo_row 2); LEnqueue (demo_row 3); LInput Sent].
    vm_compute. reflexivity.
  - vm_compute. intros H; inversion H.
  - vm_compute. reflexivity.
  - vm_compute. reflexivity.
  - vm_compute. apply list_elem_of_here.
Defined.

(** Memory is bounded and the worker never strands a batch: in every reachable
    state the channel, the pending batch and the buffer respect their limits, a
    batch waits for a retry exactly when a retry timer is armed, and no FlushAll
    caller waits on an idle worker. *)
Theorem batcher_state_bounded maxSize b :
  (1 <= maxSize)%nat -> reachable maxSize b ->
  (length (inq b) <= inCap maxSize)%nat /\
  (length (pending (w b)) <= maxSize + inCap maxSize)%nat /\
  match state (w b) with
  | normal => pending (w b) = [] /\ replies (w b) = [] /\ (length (buf (w b)) < maxSize)%nat
  | retry => pending (w b) ≠ [] /\ buf (w b) = [] /\ is_Some (retryC (w b)) /\
             (queued (w b) <= length (inq b))%nat
  | stopped => stop b = true /\ replies (w b) = []
  end.
Proof.
  intros Hmax HR. destruct (reachable_Inv maxSize Hmax b HR) as [[Hi Hp _ _ _] Hset].
  unfold settled in Hset. split_and!; [done..|]. destruct (state (w b)); tauto.
Qed.

Lemma batcher_state_bounded_witness :
  exists b, run 1 [LEnqueue (demo_row 1); LInput (Failed (Opaque "down"))] newBatcher = Some b /\
    pending (w b) ≠ [] /\ is_Some (retryC (w b)).
Proof.
  eexists. split; [vm_compute; reflexivity|].
  match goal with |- pending (w ?b) ≠ _ /\ _ =>
    assert (reachable 1 b) as HR
      by (exists [LEnqueue (demo_row 1); LInput (Failed (Opaque "down"))]; vm_compute; reflexivity);
    destruct (batcher_state_bounded 1 b ltac:(lia) HR) as (_ & _ & H)
  end.
  simpl in H. split; apply H.
Defined.

(** C36: once the database accepts inserts again, a worker in its retry state
    returns to normal after finitely many retry timers (at most one per row it
    owes), and answers every waiting FlushAll caller with nil. *)
Theorem retry_makes_progress maxSize b :
  (1 <= maxSize)%nat -> reachable maxSize b -> state (w b) = retry ->
  exists k b', (k <= length (pending (w b)) + queued (w b))%nat /\
    run maxSize (replicate k (LRetry Sent)) b = Some b' /\
    state (w b') = normal /\ pending (w b') = [] /\
    answers b' = answers b ++ map (fun r => (r, None)) (replies (w b)).
Proof.
  intros Hmax HR Hst. pose proof (reachable_Inv maxSize Hmax b HR) as HI.
  destruct (retry_drains maxSize Hmax (owed b) b HI Hst ltac:(done)) as (k & b' & ? & ? & Hn & [_ Hset] & ?).
  unfold settled in Hset. rewrite Hn in Hset. exists k, b'. split_and!; try done. apply Hset.
Qed.

Lemma retry_makes_progress_witness :
  exists b k b',
    run 1 [LEnqueue (demo_row 1); LEnqueue (demo_row 2); LInput (Failed (Opaque "down"))] newBatcher
      = Some b /\
    run 1 (replicate k (LRetry Sent)) b = Some b' /\ state (w b') = normal.
Proof.
  eexists.
  match goal with |- exists k b', ?r = Some ?b /\ _ =>
    destruct (retry_makes_progress 1 (default newBatcher r)) as (k & b' & _ & Hrun & Hn & _) end.
  - lia.
  - exists [LEnqueue (demo_row 1); LEnqueue (demo_row 2); LInput (Failed (Opaque "down"))].
    vm_compute. reflexivity.
  - vm_compute. reflexivity.
  - exists k, b'. split; [vm_compute; reflexivity|]. split; [exact Hrun|exact Hn].
Defined.

(** A failed insert costs nothing but time: the batch and its order are kept,
    later input stays in the channel, every waiting FlushAll caller gets the
    error, and the next attempt is armed between one and thirty seconds later,
    doubling with consecutive failures. *)
Theorem failed_send_keeps_batch maxSize b e :
  (1 <= maxSize)%nat -> reachable maxSize b -> state (w b) = retry ->
  exists b', step maxSize (LRetry (Failed e)) b = Some b' /\
    state (w b') = retry /\ pending (w b') = pending (w b) /\ inq b' = inq b /\
    acked b' = acked b /\ fails (w b') = S (fails (w b)) /\
    answers b' = answers b ++ map (fun r => (r, Some e)) (replies (w b)) /\
    replies (w b') = [] /\
    retryC (w b') = Some (Z.min (30 * Second) (Second * 2 ^ Z.of_nat (Nat.min (fails (w b)) 5))) /\
    Second <= backoff (fails (w b)) <= 30 * Second.
Proof.
  intros Hmax HR Hst. destruct (reachable_Inv maxSize Hmax b HR) as [_ Hset].
  unfold settled in Hset. rewrite Hst in Hset. destruct Hset as (Hp & Hb & [d Hrc] & Hq).
  simpl. rewrite Hst, Hrc. eexists. split; [done|]. unfold attempt.
  destruct (pending (w b)) as [|e0 p] eqn:Ep; [done|]. simpl.
  pose proof (backoff_range (fails (w b))) as [? ?]. split_and!; try done.
  rewrite <-Z.shiftl_mul_pow2 by lia. done.
Qed.

Lemma failed_send_keeps_batch_witness :
  let ls := [LEnqueue (demo_row 1); LInput (Failed (Opaque "down")); LRequest 4] in
  exists b b', run 1 ls newBatcher = Some b /\
    step 1 (LRetry (Failed (Opaque "still"))) b = Some b' /\ pending (w b') = [demo_row 1].
Proof.
  eexists.
  match goal with |- exists b', ?r = Some ?b /\ _ =>
    destruct (failed_send_keeps_batch 1 (default newBatcher r) (Opaque "still"))
      as (b' & Hs & _ & Hp & _) end.
  - lia.
  - exists [LEnqueue (demo_row 1); LInput (Failed (Opaque "down")); LRequest 4].
    vm_compute. reflexivity.
  - vm_compute. reflexivity.
  - exists b'. split; [vm_compute; reflexivity|]. split; [exact Hs|]. rewrite Hp. vm_compute. reflexivity.
Defined.

(** C37: shutdown. Once stop is closed the worker's final turn always ends, in the
    stopped state and with every taken flush request answered; no accepted row is
    forgotten (what could not be sent stays counted as waiting); a nil answer
    means nothing was left, which is the case when every insert succeeds; and
    later enqueues are rejected. *)
Theorem shutdown_final_flush maxSize b sends :
  (1 <= maxSize)%nat -> reachable maxSize b -> state (w b) ≠ stopped -> stop b = true ->
  exists b' err, step maxSize (LStop sends) b = Some b' /\ state (w b') = stopped /\
    ledger b' = ledger b /\ acked b `prefix_of` acked b' /\
    answers b' = answers b ++ map (fun r => (r, err)) (replies (w b)) /\
    (err = None -> acked b' = ledger b) /\
    ((forall k, sends k = Sent) -> acked b' = ledger b) /\
    (forall evt, (enqueue maxSize evt b').1 = Some (Sentinel ErrBatchFull)).
Proof.
  intros Hmax HR Hne Hstop. pose proof (reachable_Inv maxSize Hmax b HR) as HI.
  destruct (onStop_ok maxSize Hmax sends b HI Hne Hstop)
    as ((HI' & EL & _) & err & EA & Hnil & Hpre).
  simpl in EL. rewrite app_nil_r in EL.
  assert (waiting (onStop maxSize sends b) = [] -> acked (onStop maxSize sends b) = ledger b) as Hall.
  { intros Hw. rewrite <-EL. unfold ledger. by rewrite Hw, app_nil_r. }
  exists (onStop maxSize sends b), err. split_and!; [|..]; auto.
  - simpl. rewrite Hstop. by destruct (state (w b)).
  - unfold onStop. by destruct (finalFlush _ _ _ _ _).
  - intros Hsent. apply Hall. by apply onStop_all_sent.
  - intros evt. destruct HI' as [_ Hset']. unfold settled in Hset'.
    assert (state (w (onStop maxSize sends b)) = stopped) as E
      by (unfold onStop; by destruct (finalFlush _ _ _ _ _)).
    rewrite E in Hset'. unfold enqueue. by destruct Hset' as [-> _].
Qed.

Lemma shutdown_final_flush_witness :
  let ls := [LEnqueue (demo_row 1); LEnqueue (demo_row 2); LInput Sent; LClose] in
  exists b b', run 2 ls newBatcher = Some b /\ step 2 (LStop (fun _ => Sent)) b = Some b' /\
    acked b' = ledger b.
Proof.
  eexists.
  match goal with |- exists b', ?r = Some ?b /\ _ =>
    destruct (shutdown_final_flush 2 (default newBatcher r) (fun _ => Sent))
      as (b' & err & Hs & _ & _ & _ & _ & _ & Hall & _) end.
  - lia.
  - exists [LEnqueue (demo_row 1); LEnqueue (demo_row 2); LInput Sent; LClose].
    vm_compute. reflexivity.
  - vm_compute. discriminate.
  - vm_compute. reflexivity.
  - exists b'. split; [vm_compute; reflexivity|]. split; [exact Hs|]. apply Hall. reflexivity.
Defined.
