(* ===== verification/Tombstone.v ===== *)
(** * Tombstone writer (internal/store/tombstone.go)

    The goroutine that owns every tombstone insert and every reload of the
    dictionary reads consult. [TW] holds the channel, the local variables of
    [run] and what the database holds: the [tombstones] table and the ids
    currently in [tombstone_dict]. [TLabel] is one turn of a goroutine; the
    environment chooses the outcome of inserts and reloads. Ghost fields record
    what was accepted by an insert, dropped, and when reloads ran. *)

From S2P Require Import Prelude Config.

Record tombstoneReq := mkReq {
  id : string;
  reason : string;
  deletedBy : string;
}.

Definition tombstoneBatchMax : nat := Z.to_nat 1000.
Definition tombstoneRetainedMax : nat := (3 * tombstoneBatchMax)%nat.
Definition tombstoneReloadEvery : Z := 2 * Second.
Definition tombstoneInCap : nat := Z.to_nat 4096.
Arguments tombstoneBatchMax : simpl never.
Arguments tombstoneRetainedMax : simpl never.
Arguments tombstoneInCap : simpl never.

Lemma tombstoneBatchMax_eq : tombstoneBatchMax = Z.to_nat 1000.
Proof. reflexivity. Qed.

(** Where the goroutine is: in its select loop, in the shutdown drain (with
    [emptyRounds]), or returned. *)
Inductive Phase := Running | Draining (emptyRounds : nat) | Done.

Record TW := mkTW {
  tin : list tombstoneReq;          (* w.in *)
  stopCh : bool;
  phase : Phase;
  tbuf : list tombstoneReq;
  dirty : bool;
  probeID : string;
  retrying : bool;
  dropped : nat;                    (* not yet reported *)
  lastReload : option Z;            (* None: the zero time *)
  tombstones : list tombstoneReq;   (* rows of the table *)
  dict : gset string;               (* ids in tombstone_dict *)
  inserted : list tombstoneReq;     (* ghost: rows of acknowledged inserts *)
  droppedReqs : list tombstoneReq;  (* ghost *)
  reported : nat;                   (* ghost: drops written to the log *)
  lost : nat;                       (* ghost: loss logged at shutdown *)
  reloads : list (Z * Z);           (* ghost: start and completion, newest first *)
}.

Definition newTombstoneWriter : TW :=
  mkTW [] false Running [] false "" false 0 None [] ∅ [] [] 0 0 [].

(** ** Producers *)

(** How the inner select of [retire] resolves for one id; a send into a full channel
    waits for the timer. *)
Inductive RetireSel := SelPush | SelStopped | SelTimeout.

Definition push (req : tombstoneReq) (w : TW) : TW :=
  mkTW (tin w ++ [req]) (stopCh w) (phase w) (tbuf w) (dirty w) (probeID w) (retrying w)
    (dropped w) (lastReload w) (tombstones w) (dict w) (inserted w) (droppedReqs w)
    (reported w) (lost w) (reloads w).

(** The sends of one call. A call whose sends interleave with the worker or with other
    producers is, to the worker, one [retire] per id; the schedules below contain it. *)
Fixpoint retire_loop (sels : list RetireSel) (ids : list string) (rsn by_ : string) (w : TW)
    {struct ids} : option error * TW :=
  match ids with
  | [] => (None, w)
  | i :: ids' =>
      if stopCh w then (Some (Sentinel errTombstoneWriterStopped), w)
      else match sels with
           | SelPush :: sels' =>
               if decide (length (tin w) < tombstoneInCap)%nat
               then retire_loop sels' ids' rsn by_ (push (mkReq i rsn by_) w)
               else (Some (Sentinel errTombstoneWriterFull), w)
           | SelStopped :: _ => (Some (Sentinel errTombstoneWriterStopped), w)
           | SelTimeout :: _ | [] => (Some (Sentinel errTombstoneWriterFull), w)
           end
  end.

Definition retire (sels : list RetireSel) (ids : list string) (rsn by_ : string) (w : TW)
    : option error * TW :=
  if stopCh w then (Some (Sentinel errTombstoneWriterStopped), w)
  else retire_loop sels ids rsn by_ w.

(** ** The closures of [run] *)

(** Outcome of the INSERT of one chunk; the table has one partition, so a chunk is
    stored as a whole or not at all. *)
Inductive Insert := InsOk | InsFailed | InsFailedStored.

Definition reportDrops (w : TW) : TW :=
  if decide (0 < dropped w)%nat then
    mkTW (tin w) (stopCh w) (phase w) (tbuf w) (dirty w) (probeID w) (retrying w)
      0 (lastReload w) (tombstones w) (dict w) (inserted w) (droppedReqs w)
      (reported w + dropped w) (lost w) (reloads w)
  else w.

(** Receive one request from the channel and append it, or count it as dropped. *)
Definition appendReq (req : tombstoneReq) (rest : list tombstoneReq) (w : TW) : TW :=
  if decide (length (tbuf w) = tombstoneRetainedMax) then
    mkTW rest (stopCh w) (phase w) (tbuf w) (dirty w) (probeID w) (retrying w)
      (S (dropped w)) (lastReload w) (tombstones w) (dict w) (inserted w)
      (droppedReqs w ++ [req]) (reported w) (lost w) (reloads w)
  else
    mkTW rest (stopCh w) (phase w) (tbuf w ++ [req]) (dirty w) (probeID w) (retrying w)
      (dropped w) (lastReload w) (tombstones w) (dict w) (inserted w)
      (droppedReqs w) (reported w) (lost w) (reloads w).

Definition set_retrying (r : bool) (w : TW) : TW :=
  mkTW (tin w) (stopCh w) (phase w) (tbuf w) (dirty w) (probeID w) r
    (dropped w) (lastReload w) (tombstones w) (dict w) (inserted w) (droppedReqs w)
    (reported w) (lost w) (reloads w).

(** One chunk stored and acknowledged. *)
Definition chunkDone (n : nat) (w : TW) : TW :=
  let chunk := take n (tbuf w) in
  mkTW (tin w) (stopCh w) (phase w) (drop n (tbuf w)) true
    (match last chunk with Some r => id r | None => "" end) (retrying w)
    (dropped w) (lastReload w) (tombstones w ++ chunk) (dict w) (inserted w ++ chunk)
    (droppedReqs w) (reported w) (lost w) (reloads w).

(** The rows may be in the table although the insert reported an error. *)
Definition chunkFailedStored (n : nat) (w : TW) : TW :=
  mkTW (tin w) (stopCh w) (phase w) (tbuf w) (dirty w) (probeID w) (retrying w)
    (dropped w) (lastReload w) (tombstones w ++ take n (tbuf w)) (dict w) (inserted w)
    (droppedReqs w) (reported w) (lost w) (reloads w).

Fixpoint flush_loop (fuel : nat) (ins : nat -> Insert) (k : nat) (w : TW) : TW :=
  match fuel with
  | O => set_retrying false w
  | S fuel' =>
      match tbuf w with
      | [] => set_retrying false w
      | _ :: _ =>
          let n := Nat.min (length (tbuf w)) tombstoneBatchMax in
          match ins k with
          | InsOk => flush_loop fuel' ins (S k) (chunkDone n w)
          | InsFailedStored => set_retrying true (chunkFailedStored n w)
          | InsFailed => set_retrying true w
          end
      end
  end.

(** [flush]; each round removes a non-empty chunk, so [length tbuf] rounds suffice.
    [ins k] is the outcome of the [k]-th insert. *)
Definition flush (ins : nat -> Insert) (w : TW) : TW :=
  let w1 := reportDrops w in flush_loop (length (tbuf w1)) ins 0 w1.

(** ** Dictionary reload *)

Inductive Reload :=
  | ReloadFailed               (* Exec failed, contents unchanged *)
  | ReloadUnprobed             (* the dictionary was reloaded, the probe query failed *)
  | ReloadApplied              (* the dictionary now reflects the table *)
  | ReloadNotApplied.          (* reported success, contents unchanged *)

Definition reload (start fin : Z) (r : Reload) (w : TW) : bool * TW :=
  let dict' := match r with
               | ReloadApplied | ReloadUnprobed => list_to_set (map id (tombstones w))
               | _ => dict w
               end in
  let ok := match r with
            | ReloadFailed | ReloadUnprobed => false
            | _ => bool_decide (probeID w ∈ dict')
            end in
  (ok, mkTW (tin w) (stopCh w) (phase w) (tbuf w) (dirty w) (probeID w) (retrying w)
         (dropped w) (Some fin) (tombstones w) dict' (inserted w) (droppedReqs w)
         (reported w) (lost w) ((start, fin) :: reloads w)).

Definition set_dirty (d : bool) (w : TW) : TW :=
  mkTW (tin w) (stopCh w) (phase w) (tbuf w) d (probeID w) (retrying w)
    (dropped w) (lastReload w) (tombstones w) (dict w) (inserted w) (droppedReqs w)
    (reported w) (lost w) (reloads w).

(** LIFETIME(MIN 0 MAX 60): the server reloads the dictionary on its own. *)
Definition lifetime (w : TW) : TW :=
  mkTW (tin w) (stopCh w) (phase w) (tbuf w) (dirty w) (probeID w) (retrying w)
    (dropped w) (lastReload w) (tombstones w) (list_to_set (map id (tombstones w))) (inserted w)
    (droppedReqs w) (reported w) (lost w) (reloads w).

(** The check at the end of each turn of the loop. *)
Definition reload_due (now : Z) (w : TW) : bool :=
  dirty w && match lastReload w with
             | None => true
             | Some t => bool_decide (tombstoneReloadEvery <= now - t)
             end.

Definition endTurn (now fin : Z) (r : Reload) (w : TW) : TW :=
  if reload_due now w then
    let '(ok, w1) := reload now fin r w in set_dirty (negb ok) w1
  else w.

(** ** Turns *)

Inductive TLabel :=
  | TPush (req : tombstoneReq)
  | TClose
  | TReq (ins : nat -> Insert) (now fin : Z) (r : Reload)
  | TTick (ins : nat -> Insert) (now fin : Z) (r : Reload)
  | TLifetime
  | TSeeStop
  | TDrainReq (ins : nat -> Insert)
  | TDrainEmpty (ins : nat -> Insert) (now fin : Z) (r : Reload).

Definition set_phase (p : Phase) (w : TW) : TW :=
  mkTW (tin w) (stopCh w) p (tbuf w) (dirty w) (probeID w) (retrying w)
    (dropped w) (lastReload w) (tombstones w) (dict w) (inserted w) (droppedReqs w)
    (reported w) (lost w) (reloads w).

Definition close_stop (w : TW) : TW :=
  mkTW (tin w) true (phase w) (tbuf w) (dirty w) (probeID w) (retrying w)
    (dropped w) (lastReload w) (tombstones w) (dict w) (inserted w) (droppedReqs w)
    (reported w) (lost w) (reloads w).

Definition report_lost (w : TW) : TW :=
  mkTW (tin w) (stopCh w) (phase w) (tbuf w) (dirty w) (probeID w) (retrying w)
    (dropped w) (lastReload w) (tombstones w) (dict w) (inserted w) (droppedReqs w)
    (reported w) (length (tbuf w)) (reloads w).

(** [case req := <-w.in] of either loop. *)
Definition receive (ins : nat -> Insert) (w : TW) : option TW :=
  match tin w with
  | [] => None
  | req :: rest =>
      let w1 := appendReq req rest w in
      Some (if decide (tombstoneBatchMax <= length (tbuf w1))%nat then
              if retrying w1 then w1 else flush ins w1
            else w1)
  end.

Definition tstep (l : TLabel) (w : TW) : option TW :=
  match l with
  | TPush req =>
      if decide (length (tin w) < tombstoneInCap)%nat then Some (push req w) else None
  | TClose => Some (close_stop w)
  | TReq ins now fin r =>
      match phase w with
      | Running => endTurn now fin r <$> receive ins w
      | _ => None
      end
  | TTick ins now fin r =>
      match phase w with
      | Running => Some (endTurn now fin r (flush ins w))
      | _ => None
      end
  | TLifetime => Some (lifetime w)
  | TSeeStop =>
      match phase w, stopCh w with
      | Running, true => Some (set_phase (Draining 0) w)
      | _, _ => None
      end
  | TDrainReq ins =>
      match phase w with
      | Draining _ => set_phase (Draining 0) <$> receive ins w
      | _ => None
      end
  | TDrainEmpty ins now fin r =>
      match phase w, tin w with
      | Draining k, [] =>
          if decide (S k < 2)%nat then Some (set_phase (Draining (S k)) w)
          else
            let w1 := report_lost (flush ins w) in
            let w2 := if dirty w1 then (reload now fin r w1).2 else w1 in
            Some (set_phase Done w2)
      | _, _ => None
      end
  end.

Fixpoint trun (ls : list TLabel) (w : TW) : option TW :=
  match ls with
  | [] => Some w
  | l :: ls' => match tstep l w with Some w' => trun ls' w' | None => None end
  end.

Lemma trun_app ls ls' w :
  trun (ls ++ ls') w = match trun ls w with Some w' => trun ls' w' | None => None end.
Proof. revert w. induction ls as [|l ls IH]; intros w; simpl; [done|]. by destruct (tstep l w). Qed.

Definition pushed (l : TLabel) : list tombstoneReq :=
  match l with TPush req => [req] | _ => [] end.

(** ** Accounting *)

(** Every pushed request is in exactly one place, and every drop is counted. *)
Record accounted (P : list tombstoneReq) (w : TW) : Prop := {
  acc_perm : P ≡ₚ tin w ++ tbuf w ++ inserted w ++ droppedReqs w;
  acc_count : length (droppedReqs w) = (dropped w + reported w)%nat;
  acc_max : (length (tbuf w) <= tombstoneRetainedMax)%nat;
}.

(** Outside an insert outage less than one batch is retained. *)
Definition unclogged (w : TW) : Prop :=
  retrying w = false -> (length (tbuf w) < tombstoneBatchMax)%nat.

(** [reloads] of the loop are spaced from the completion of the previous one. *)
Definition spaced (w : TW) : Prop :=
  forall i s f s' f', reloads w !! S i = Some (s, f) -> reloads w !! i = Some (s', f') ->
    tombstoneReloadEvery <= s' - f.
Definition last_known (w : TW) : Prop := lastReload w = snd <$> head (reloads w).

Lemma reportDrops_same w :
  tin (reportDrops w) = tin w /\ tbuf (reportDrops w) = tbuf w /\
  inserted (reportDrops w) = inserted w /\ droppedReqs (reportDrops w) = droppedReqs w /\
  retrying (reportDrops w) = retrying w /\ phase (reportDrops w) = phase w /\
  lastReload (reportDrops w) = lastReload w /\ reloads (reportDrops w) = reloads w /\
  (dropped (reportDrops w) + reported (reportDrops w))%nat = (dropped w + reported w)%nat.
Proof. unfold reportDrops. case_decide; simpl; split_and!; try done; lia. Qed.

(** The flush loop moves a prefix of the buffer to the table, and stops early
    only on a failed insert. *)
Lemma flush_loop_spec fuel ins k w :
  (length (tbuf w) <= fuel)%nat ->
  let w' := flush_loop fuel ins k w in
  (exists n, tbuf w' = drop n (tbuf w) /\ inserted w' = inserted w ++ take n (tbuf w)) /\
  (retrying w' = false -> tbuf w' = []) /\
  ((forall i, ins i = InsOk) -> retrying w' = false) /\
  tin w' = tin w /\ droppedReqs w' = droppedReqs w /\ dropped w' = dropped w /\
  reported w' = reported w /\ phase w' = phase w /\
  lastReload w' = lastReload w /\ reloads w' = reloads w.
Proof.
  revert k w. induction fuel as [|fuel IH]; intros k w Hlen; cbn [flush_loop].
  { assert (tbuf w = []) as E by (apply nil_length_inv; lia).
    split; [exists 0%nat; simpl; by rewrite app_nil_r|]. by split_and!. }
  destruct (tbuf w) as [|r l] eqn:Eb.
  { split; [exists 0%nat; simpl; by rewrite Eb, app_nil_r|]. by split_and!. }
  destruct (ins k) eqn:Ek.
  - set (n := Nat.min (length (r :: l)) tombstoneBatchMax).
    assert (1 <= n)%nat as Hn by (unfold n; cbn [length]; rewrite tombstoneBatchMax_eq; lia).
    destruct (IH (S k) (chunkDone n w)) as ((m & Em & Ei) & H1 & H2 & Hrest).
    { simpl. rewrite length_drop, Eb. simpl in *. lia. }
    split; [|split_and!; try apply Hrest; try done].
    exists (n + m)%nat. rewrite Em, Ei. simpl. rewrite drop_drop, Eb. split; [done|].
    by rewrite <-app_assoc, take_take_drop.
  - split; [exists 0%nat; simpl; by rewrite Eb, app_nil_r|]. split_and!; try done.
    intros H. by rewrite H in Ek.
  - split; [exists 0%nat; simpl; by rewrite Eb, app_nil_r|]. split_and!; try done.
    intros H. by rewrite H in Ek.
Qed.

Lemma flush_spec ins w :
  let w' := flush ins w in
  (exists n, tbuf w' = drop n (tbuf w) /\ inserted w' = inserted w ++ take n (tbuf w)) /\
  (retrying w' = false -> tbuf w' = []) /\
  ((forall i, ins i = InsOk) -> retrying w' = false) /\
  tin w' = tin w /\ droppedReqs w' = droppedReqs w /\
  (dropped w' + reported w')%nat = (dropped w + reported w)%nat /\ phase w' = phase w /\
  lastReload w' = lastReload w /\ reloads w' = reloads w.
Proof.
  unfold flush. pose proof (reportDrops_same w) as (E1 & E2 & E3 & E4 & E5 & E6 & E7 & E8 & E9).
  pose proof (flush_loop_spec (length (tbuf (reportDrops w))) ins 0 (reportDrops w) ltac:(done))
    as (Hn & H1 & H2 & F1 & F2 & F3 & F4 & F5 & F6 & F7).
  cbv zeta in *. rewrite E2 in *. rewrite E3 in *.
  split_and!; try done; congruence.
Qed.

Lemma flush_accounted P ins w : accounted P w -> accounted P (flush ins w).
Proof.
  intros [Hp Hc Hm].
  destruct (flush_spec ins w) as ((n & Eb & Ei) & _ & _ & Et & Ed & Ec & _). split.
  - rewrite Hp, Et, Eb, Ei, Ed. rewrite <-(take_drop n (tbuf w)) at 1. solve_Permutation.
  - by rewrite Ed, Hc, Ec.
  - rewrite Eb, length_drop. lia.
Qed.

Lemma flush_unclogged ins w : unclogged (flush ins w).
Proof.
  unfold unclogged. intros H. destruct (flush_spec ins w) as (_ & Hb & _).
  rewrite (Hb H). simpl. rewrite tombstoneBatchMax_eq. lia.
Qed.

Lemma appendReq_accounted P req rest w :
  tin w = req :: rest -> accounted P w -> accounted P (appendReq req rest w).
Proof.
  intros Et [Hp Hc Hm]. unfold appendReq. rewrite Et in Hp.
  case_decide; split; simpl; rewrite ?length_app; simpl; try lia.
  - rewrite Hp. solve_Permutation.
  - rewrite Hp. solve_Permutation.
Qed.

Lemma receive_ok P ins w w' :
  accounted P w -> unclogged w -> receive ins w = Some w' -> accounted P w' /\ unclogged w'.
Proof.
  intros Ha Hu. unfold receive. destruct (tin w) as [|req rest] eqn:Et; [done|].
  intros [= <-]. pose proof (appendReq_accounted P req rest w Et Ha) as Ha1.
  case_decide as Hb; [destruct (retrying (appendReq req rest w)) eqn:Hr|].
  - split; [done|]. intros ?. congruence.
  - split; [by apply flush_accounted|apply flush_unclogged].
  - split; [done|]. intros _. lia.
Qed.

Lemma reload_ok P now fin r w :
  accounted P w -> unclogged w ->
  accounted P (reload now fin r w).2 /\ unclogged (reload now fin r w).2.
Proof. intros [] Hu. split; [by split|done]. Qed.

Lemma endTurn_ok P now fin r w :
  accounted P w -> unclogged w -> accounted P (endTurn now fin r w) /\ unclogged (endTurn now fin r w).
Proof.
  intros Ha Hu. unfold endTurn. destruct (reload_due now w); [|done].
  destruct (reload_ok P now fin r w Ha Hu) as [[] Hu']. by repeat split.
Qed.

Lemma tstep_ok P l w w' :
  accounted P w -> unclogged w -> tstep l w = Some w' ->
  accounted (P ++ pushed l) w' /\ unclogged w'.
Proof.
  intros Ha Hu Hs. destruct l; simpl in *; rewrite ?app_nil_r.
  - case_decide; simplify_eq. destruct Ha as [Hp Hc Hm]. split; [|done].
    split; simpl; [|done..]. rewrite Hp. solve_Permutation.
  - simplify_eq. destruct Ha. split; [by split|done].
  - destruct (phase w); [|done..]. destruct (receive ins w) as [w1|] eqn:E; [|done]. simplify_eq/=.
    destruct (receive_ok P ins w w1 Ha Hu E). by apply endTurn_ok.
  - destruct (phase w); [|done..]. simplify_eq/=.
    apply endTurn_ok; [by apply flush_accounted|apply flush_unclogged].
  - simplify_eq. destruct Ha. split; [by split|done].
  - destruct (phase w), (stopCh w); simplify_eq. destruct Ha. split; [by split|done].
  - destruct (phase w); [done| |done]. destruct (receive ins w) as [w1|] eqn:E; [|done]. simplify_eq/=.
    destruct (receive_ok P ins w w1 Ha Hu E) as [[] ?]. split; [by split|done].
  - destruct (phase w); [done| |done]. destruct (tin w); [|done]. case_decide; simplify_eq/=.
    { destruct Ha. split; [by split|done]. }
    pose proof (flush_accounted P ins w Ha) as [Hp Hc Hm]. pose proof (flush_unclogged ins w).
    destruct (dirty (flush ins w)); (split; [by split|done]).
Qed.

Lemma trun_ok ls P w w' :
  accounted P w -> unclogged w -> trun ls w = Some w' ->
  accounted (P ++ (ls ≫= pushed)) w' /\ unclogged w'.
Proof.
  revert P w. induction ls as [|l ls IH]; intros P w Ha Hu Hrun; simpl in *.
  { simplify_eq. by rewrite app_nil_r. }
  destruct (tstep l w) as [w1|] eqn:E; [|done]. destruct (tstep_ok P l w w1 Ha Hu E).
  rewrite app_assoc. by apply (IH _ w1).
Qed.

Lemma new_ok : accounted [] newTombstoneWriter /\ unclogged newTombstoneWriter.
Proof.
  split; [split; simpl; [done|done|lia]|]. intros _. rewrite tombstoneBatchMax_eq. simpl. lia.
Qed.

(** ** Reload rate *)

Definition paced (w : TW) : Prop := phase w ≠ Done -> spaced w /\ last_known w.

Lemma paced_same w w' :
  reloads w' = reloads w -> lastReload w' = lastReload w -> phase w ≠ Done -> paced w -> paced w'.
Proof. unfold paced, spaced, last_known. intros -> -> Hp H _. by apply H. Qed.

Lemma endTurn_paced now fin r w : phase w ≠ Done -> paced w -> paced (endTurn now fin r w).
Proof.
  intros Hp H. unfold endTurn. destruct (reload_due now w) eqn:Hd; [|done].
  destruct (H Hp) as [Hs Hl]. intros _. simpl. split; [|done].
  intros i s f s' f'. simpl. destruct i as [|i]; [|apply Hs].
  simpl. intros Hf [= <- <-]. unfold reload_due in Hd. unfold last_known in Hl.
  rewrite Hl in Hd. destruct (reloads w) as [|[s1 f1] rl]; simplify_eq/=.
  by apply andb_true_iff in Hd as [_ Hd%bool_decide_eq_true].
Qed.

Lemma receive_reloads ins w w' :
  receive ins w = Some w' ->
  reloads w' = reloads w /\ lastReload w' = lastReload w /\ phase w' = phase w.
Proof.
  unfold receive. destruct (tin w) as [|req rest]; [done|]. intros [= <-].
  assert (forall w0, reloads (flush ins w0) = reloads w0 /\
    lastReload (flush ins w0) = lastReload w0 /\ phase (flush ins w0) = phase w0) as Hf
    by (intros w0; destruct (flush_spec ins w0) as (_ & _ & _ & _ & _ & _ & ? & ? & ?); done).
  assert (reloads (appendReq req rest w) = reloads w /\
    lastReload (appendReq req rest w) = lastReload w /\ phase (appendReq req rest w) = phase w)
    as (E1 & E2 & E3) by (unfold appendReq; by case_decide).
  destruct (Hf (appendReq req rest w)) as (F1 & F2 & F3).
  case_decide; [destruct (retrying _)|]; split_and!; congruence.
Qed.

Lemma tstep_paced l w w' : paced w -> tstep l w = Some w' -> paced w'.
Proof.
  intros H Hs. destruct l; simpl in Hs.
  - case_decide; by simplify_eq.
  - by simplify_eq.
  - destruct (phase w) eqn:Ep; [|done..]. destruct (receive ins w) as [w1|] eqn:E; [|done]. simplify_eq/=.
    destruct (receive_reloads ins w w1 E) as (E1 & E2 & E3).
    apply endTurn_paced; [congruence|]. apply (paced_same w); [done|done|congruence|done].
  - destruct (phase w) eqn:Ep; [|done..]. simplify_eq/=.
    pose proof (flush_spec ins w) as (_ & _ & _ & _ & _ & _ & E3 & E2 & E1).
    apply endTurn_paced; [congruence|]. apply (paced_same w); [done|done|congruence|done].
  - by simplify_eq.
  - destruct (phase w) eqn:Ep, (stopCh w); simplify_eq. apply (paced_same w); [done|done|congruence|done].
  - destruct (phase w) eqn:Ep; [done| |done]. destruct (receive ins w) as [w1|] eqn:E; [|done]. simplify_eq/=.
    destruct (receive_reloads ins w w1 E) as (E1 & E2 & E3).
    apply (paced_same w); [done|done|congruence|done].
  - destruct (phase w) eqn:Ep; [done| |done]. destruct (tin w); [|done]. case_decide; simplify_eq/=.
    { apply (paced_same w); [done|done|congruence|done]. }
    by intros [].
Qed.

(** ** What a clean dictionary promises *)

(** Among queued ids, the ones with property [P] form a prefix. *)
Definition prefix_closed (P : string -> Prop) (q : list string) : Prop :=
  forall q1 x q2, q = q1 ++ x :: q2 -> P x -> forall y, y ∈ q1 -> P y.

Lemma prefix_closed_sublist P q q' : sublist q' q -> prefix_closed P q -> prefix_closed P q'.
Proof.
  intros Hsub H q1 x q2 -> Hx y Hy.
  apply sublist_app_l in Hsub as (k1 & k2 & -> & Hs1 & Hs2).
  apply sublist_cons_l in Hs2 as (k3 & k4 & -> & Hs2).
  apply (H (k1 ++ k3) x k4); [by rewrite <-app_assoc|done|].
  apply elem_of_app. left. by eapply sublist_subseteq.
Qed.

Lemma prefix_closed_iff P P' q :
  (forall x, x ∈ q -> P x <-> P' x) -> prefix_closed P q -> prefix_closed P' q.
Proof.
  intros Heq H q1 x q2 -> Hx y Hy. apply Heq; [set_solver|].
  apply (H q1 x q2 eq_refl); [apply Heq; set_solver|done].
Qed.

Lemma prefix_closed_extend P q n :
  NoDup q -> prefix_closed P q -> prefix_closed (fun x => P x \/ x ∈ take n q) q.
Proof.
  intros Hnd H q1 x q2 E [Hx|Hx] y Hy; [left; by apply (H q1 x q2)|]. right.
  destruct (decide (n <= length q1)%nat) as [Hn|Hn].
  - exfalso. subst q. rewrite take_app_le in Hx by done.
    apply NoDup_app in Hnd as (_ & Hd & _). apply (Hd x); [|set_solver].
    by apply subseteq_take in Hx.
  - subst q. rewrite take_app_ge by lia. set_solver.
Qed.

Definition ids (l : list tombstoneReq) : list string := map id l.
Definition queue (w : TW) : list string := ids (tbuf w ++ tin w).

Record dict_ok (w : TW) : Prop := {
  d_inserted : ids (inserted w) ⊆ ids (tombstones w);
  d_table : ids (tombstones w) ⊆ ids (inserted w ++ tbuf w);
  d_dict : forall x, x ∈ dict w -> x ∈ ids (tombstones w);
  d_queue_table : prefix_closed (fun x => x ∈ ids (tombstones w)) (queue w);
  d_queue_dict : prefix_closed (fun x => x ∈ dict w) (queue w);
  d_queue_all : forall x, x ∈ queue w -> x ∈ dict w -> forall y, y ∈ ids (inserted w) -> y ∈ dict w;
  d_probe : probeID w ∈ dict w -> forall y, y ∈ ids (inserted w) -> y ∈ dict w;
  d_clean : dirty w = false -> forall y, y ∈ ids (inserted w) -> y ∈ dict w;
}.

Definition fresh (w : TW) : Prop := NoDup (ids (inserted w) ++ queue w).

Lemma ids_app l k : ids (l ++ k) = ids l ++ ids k.
Proof. apply map_app. Qed.
Lemma ids_take n l : ids (take n l) = take n (ids l).
Proof. symmetry. apply take_map || apply firstn_map. Qed.

(** Fields [dict_ok] does not read. *)
Lemma dict_ok_same w w' :
  tin w' = tin w -> tbuf w' = tbuf w -> inserted w' = inserted w -> tombstones w' = tombstones w ->
  dict w' = dict w -> probeID w' = probeID w -> dirty w' = dirty w -> dict_ok w -> dict_ok w'.
Proof.
  intros E1 E2 E3 E4 E5 E6 E7 []. split; unfold queue; rewrite ?E1, ?E2, ?E3, ?E4, ?E5, ?E6, ?E7; done.
Qed.

Lemma chunkDone_queue n w : queue w = take n (ids (tbuf w)) ++ queue (chunkDone n w).
Proof.
  unfold queue. simpl. rewrite <-ids_take, <-ids_app. by rewrite app_assoc, take_drop.
Qed.

Lemma chunkDone_dict_ok n w :
  (1 <= n)%nat -> tbuf w ≠ [] -> fresh w -> dict_ok w -> dict_ok (chunkDone n w).
Proof.
  intros Hn Hne Hfr H. pose proof (chunkDone_queue n w) as Eq.
  assert (sublist (queue (chunkDone n w)) (queue w)) as Hsub
    by (rewrite Eq; apply sublist_inserts_l; done).
  assert (forall x, x ∈ queue (chunkDone n w) -> x ∉ take n (ids (tbuf w))) as Hdisj.
  { intros x Hx Hx'. unfold fresh in Hfr. rewrite Eq, !NoDup_app in Hfr. naive_solver. }
  assert (forall x, x ∈ queue (chunkDone n w) -> x ∈ dict w ->
    forall y, y ∈ ids (inserted w) ++ take n (ids (tbuf w)) -> y ∈ dict w) as Hall.
  { intros x Hx Hd y [Hy|Hy]%elem_of_app.
    - apply (d_queue_all w H x); [by eapply sublist_subseteq|done|done].
    - apply list_elem_of_split in Hx as (l1 & l2 & E).
      apply (d_queue_dict w H (take n (ids (tbuf w)) ++ l1) x l2); [|done|set_solver].
      by rewrite Eq, E, app_assoc. }
  split; simpl; rewrite ?ids_app, ?ids_take.
  - pose proof (d_inserted w H). set_solver.
  - pose proof (d_table w H) as Ht. rewrite ids_app in Ht.
    rewrite <-(take_drop n (tbuf w)) in Ht at 1. rewrite ids_app, ids_take in Ht. set_solver.
  - intros x Hx%(d_dict w H). set_solver.
  - eapply prefix_closed_iff; [|eapply prefix_closed_sublist; [exact Hsub|exact (d_queue_table w H)]].
    intros x Hx%Hdisj. set_solver.
  - eapply prefix_closed_sublist; [exact Hsub|exact (d_queue_dict w H)].
  - exact Hall.
  - destruct (last (take n (tbuf w))) as [r|] eqn:El.
    + apply last_Some in El as [l0 El]. intros Hp y [Hy|Hy]%elem_of_app.
      * apply (d_queue_all w H (id r)); [|done|done]. rewrite Eq, <-ids_take, El, ids_app. set_solver.
      * rewrite <-ids_take, El, ids_app in Hy, Eq. simpl in Hy, Eq.
        apply elem_of_app in Hy as [Hy|Hy]; [|set_solver].
        apply (d_queue_dict w H (ids l0) (id r) (queue (chunkDone n w))); [|done|done].
        by rewrite Eq, <-app_assoc.
    + apply last_None in El. destruct (tbuf w); [done|]. destruct n; [lia|done].
  - done.
Qed.

Lemma chunkFailedStored_dict_ok n w :
  (n <= length (tbuf w))%nat -> fresh w -> dict_ok w -> dict_ok (chunkFailedStored n w).
Proof.
  intros Hn Hfr H. assert (NoDup (queue w)) as Hnd by (unfold fresh in Hfr; rewrite NoDup_app in Hfr; naive_solver).
  destruct H. split; simpl; rewrite ?ids_app, ?ids_take in *; try done.
  - set_solver.
  - pose proof (subseteq_take n (ids (tbuf w))). set_solver.
  - set_solver.
  - change (queue (chunkFailedStored n w)) with (queue w).
    eapply prefix_closed_iff; [|apply (prefix_closed_extend _ _ n Hnd d_queue_table0)].
    intros x _. rewrite elem_of_app. unfold queue. rewrite ids_app, take_app_le; [done|].
    unfold ids. by rewrite length_map.
Qed.

Lemma flush_loop_dict_ok fuel ins k w : fresh w -> dict_ok w -> dict_ok (flush_loop fuel ins k w).
Proof.
  revert k w. induction fuel as [|fuel IH]; intros k w Hfr H; cbn [flush_loop];
    [by apply (dict_ok_same w)|].
  destruct (tbuf w) as [|r l] eqn:Eb; [by apply (dict_ok_same w)|].
  set (n := Nat.min (length (r :: l)) tombstoneBatchMax).
  assert (1 <= n)%nat as Hn by (unfold n; cbn [length]; rewrite tombstoneBatchMax_eq; lia).
  destruct (ins k); [|by apply (dict_ok_same w)|].
  - apply IH.
    + unfold fresh in *. simpl. rewrite ids_app, ids_take, <-app_assoc, <-chunkDone_queue. done.
    + apply chunkDone_dict_ok; [done|by rewrite Eb|done|done].
  - apply (dict_ok_same (chunkFailedStored n w)); try done. apply chunkFailedStored_dict_ok; try done.
    rewrite Eb. unfold n. lia.
Qed.

Lemma flush_dict_ok ins w : fresh w -> dict_ok w -> dict_ok (flush ins w).
Proof.
  intros Hfr H. unfold flush. apply flush_loop_dict_ok; unfold reportDrops; case_decide; try done.
  by apply (dict_ok_same w).
Qed.

Lemma appendReq_queue req rest w : tin w = req :: rest -> sublist (queue (appendReq req rest w)) (queue w).
Proof.
  intros Et. unfold appendReq, queue. rewrite Et. case_decide; simpl; unfold ids; rewrite !map_app; simpl.
  - apply sublist_app; [done|]. by apply sublist_cons.
  - by rewrite <-app_assoc.
Qed.

Lemma appendReq_dict_ok req rest w :
  tin w = req :: rest -> dict_ok w -> dict_ok (appendReq req rest w).
Proof.
  intros Et H. pose proof (appendReq_queue req rest w Et) as Hsub.
  pose proof (fun x => sublist_subseteq _ _ Hsub x) as Hin.
  pose proof (prefix_closed_sublist (fun x => x ∈ ids (tombstones w)) _ _ Hsub (d_queue_table w H)) as H1.
  pose proof (prefix_closed_sublist (fun x => x ∈ dict w) _ _ Hsub (d_queue_dict w H)) as H2.
  pose proof (d_table w H) as Ht. rewrite ids_app in Ht.
  destruct H as [G1 G2 G3 G4 G5 G6 G7 G8].
  unfold appendReq in *. case_decide; split; simpl in *; rewrite ?ids_app; try assumption.
  - intros x Hx. apply (G6 x (Hin x Hx)).
  - clear -Ht. set_solver.
  - intros x Hx. apply (G6 x (Hin x Hx)).
Qed.

Lemma lifetime_dict_ok w : dict_ok w -> dict_ok (lifetime w).
Proof.
  intros H.
  assert (forall y, y ∈ ids (inserted w) -> y ∈ (list_to_set (map id (tombstones w)) : gset string)) as Hall
    by (intros y Hy%(d_inserted w H); by apply elem_of_list_to_set).
  pose proof H as [G1 G2 G3 G4 G5 G6 G7 G8]. split; simpl; try assumption; auto.
  - intros x Hx%elem_of_list_to_set. done.
  - eapply prefix_closed_iff; [|exact (d_queue_table w H)]. intros x _. by rewrite elem_of_list_to_set.
Qed.

Lemma reload_dict_ok now fin r w : dict_ok w -> dict_ok (reload now fin r w).2.
Proof.
  intros H. destruct r; [by apply (dict_ok_same w)| | |by apply (dict_ok_same w)];
    (apply (dict_ok_same (lifetime w)); [done..|]; by apply lifetime_dict_ok).
Qed.

Lemma endTurn_dict_ok now fin r w : dict_ok w -> dict_ok (endTurn now fin r w).
Proof.
  intros H. unfold endTurn. destruct (reload_due now w); [|done].
  pose proof (reload_dict_ok now fin r w H) as H1.
  destruct (reload now fin r w) as [ok w1] eqn:E. simpl in H1. destruct H1. split; simpl; try done.
  intros Hok%negb_false_iff y Hy. apply d_probe0; [|done].
  unfold reload in E. injection E as E1 E2. subst w1 ok. simpl.
  destruct r; [done|done|by apply bool_decide_eq_true in Hok..].
Qed.

Lemma accounted_fresh P w : accounted P w -> NoDup (ids P) -> fresh w.
Proof.
  intros [Hp _ _] Hnd. unfold fresh, queue, ids in *. rewrite Hp, !map_app in Hnd. rewrite map_app.
  rewrite !app_assoc in Hnd. apply NoDup_app in Hnd as [Hnd _].
  assert (map id (inserted w) ++ map id (tbuf w) ++ map id (tin w) ≡ₚ
    (map id (tin w) ++ map id (tbuf w)) ++ map id (inserted w)) as -> by solve_Permutation.
  done.
Qed.

Lemma push_dict_ok P req w :
  accounted P w -> NoDup (ids (P ++ [req])) -> dict_ok w -> dict_ok (push req w).
Proof.
  intros [Hp _ _] Hnd H.
  assert (id req ∉ ids (tombstones w)) as Hfr.
  { intros Hin%(d_table w H). unfold ids in *. rewrite map_app in Hnd.
    apply NoDup_app in Hnd as (_ & Hd & _). apply (Hd (id req)); [|set_solver].
    rewrite Hp, !map_app. rewrite map_app in Hin. set_solver. }
  assert (queue (push req w) = queue w ++ [id req]) as Eq
    by (unfold queue; simpl; by rewrite app_assoc, ids_app).
  assert (forall P, ~ P (id req) -> prefix_closed P (queue w) -> prefix_closed P (queue (push req w))) as Hext.
  { intros Q HQ Hc q1 x q2 E Hx y Hy. rewrite Eq in E.
    destruct q2 as [|z q2 _] using rev_ind.
    - apply app_inj_tail in E as [_ E]. rewrite E in HQ. done.
    - rewrite app_comm_cons, app_assoc in E. apply app_inj_tail in E as [E _]. by apply (Hc q1 x q2). }
  destruct H as [G1 G2 G3 G4 G5 G6 G7 G8]. split; try assumption.
  - by apply Hext.
  - apply Hext; [|done]. intros Hd. by apply Hfr, G3.
  - intros x Hx Hd. rewrite Eq in Hx. apply elem_of_app in Hx as [Hx|Hx]; [by apply (G6 x)|].
    apply list_elem_of_singleton in Hx as ->. simpl in Hd. by apply G3 in Hd.
Qed.

Lemma receive_dict_ok P ins w w' :
  accounted P w -> NoDup (ids P) -> dict_ok w -> receive ins w = Some w' -> dict_ok w'.
Proof.
  intros Ha Hnd H. unfold receive. destruct (tin w) as [|req rest] eqn:Et; [done|].
  intros [= <-]. pose proof (appendReq_dict_ok req rest w Et H) as H1.
  pose proof (accounted_fresh P _ (appendReq_accounted P req rest w Et Ha) Hnd).
  case_decide; [destruct (retrying _)|]; try done. by apply flush_dict_ok.
Qed.

Lemma tstep_dict_ok P l w w' :
  accounted P w -> NoDup (ids (P ++ pushed l)) -> dict_ok w -> tstep l w = Some w' -> dict_ok w'.
Proof.
  intros Ha Hnd H Hs. assert (NoDup (ids P)) as HndP
    by (rewrite ids_app, NoDup_app in Hnd; apply Hnd).
  pose proof (accounted_fresh P w Ha HndP) as Hfr.
  destruct l; simpl in *.
  - case_decide; simplify_eq. by eapply push_dict_ok.
  - simplify_eq. by apply (dict_ok_same w).
  - destruct (phase w); [|done..]. destruct (receive ins w) as [w1|] eqn:E; [|done]. simplify_eq/=.
    apply endTurn_dict_ok. by eapply receive_dict_ok.
  - destruct (phase w); [|done..]. simplify_eq/=. by apply endTurn_dict_ok, flush_dict_ok.
  - simplify_eq. by apply lifetime_dict_ok.
  - destruct (phase w), (stopCh w); simplify_eq. by apply (dict_ok_same w).
  - destruct (phase w); [done| |done]. destruct (receive ins w) as [w1|] eqn:E; [|done]. simplify_eq/=.
    apply (dict_ok_same w1); try done. by eapply receive_dict_ok.
  - destruct (phase w); [done| |done]. destruct (tin w); [|done]. case_decide; simplify_eq/=.
    { by apply (dict_ok_same w). }
    assert (dict_ok (report_lost (flush ins w))) as H1
      by (apply (dict_ok_same (flush ins w)); try done; by apply flush_dict_ok).
    destruct (dirty (flush ins w)) eqn:Ed.
    + apply (dict_ok_same (reload now fin r (report_lost (flush ins w))).2); try done.
      by apply reload_dict_ok.
    + by apply (dict_ok_same (report_lost (flush ins w))).
Qed.

Lemma new_dict_ok : dict_ok newTombstoneWriter.
Proof.
  split; try done; unfold queue, prefix_closed; simpl; intros; try set_solver;
    by destruct q1.
Qed.

Lemma trun_dict_ok ls P w w' :
  accounted P w -> unclogged w -> dict_ok w -> NoDup (ids (P ++ (ls ≫= pushed))) ->
  trun ls w = Some w' -> dict_ok w'.
Proof.
  revert P w. induction ls as [|l ls IH]; intros P w Ha Hu H Hnd Hrun; simpl in *; [by simplify_eq|].
  destruct (tstep l w) as [w1|] eqn:E; [|done]. destruct (tstep_ok P l w w1 Ha Hu E) as [Ha1 Hu1].
  rewrite app_assoc in Hnd. apply (IH (P ++ pushed l) w1); try done.
  apply (tstep_dict_ok P l w); try done. rewrite ids_app, NoDup_app in Hnd. apply Hnd.
Qed.

Lemma trun_paced ls w w' : paced w -> trun ls w = Some w' -> paced w'.
Proof.
  revert w. induction ls as [|l ls IH]; intros w H Hrun; simpl in *; [by simplify_eq|].
  destruct (tstep l w) as [w1|] eqn:E; [|done]. eapply IH; [|done]. by eapply tstep_paced.
Qed.

Lemma new_paced : paced newTombstoneWriter.
Proof. intros _. split; [|done]. intros i s f s' f'. done. Qed.

(** *** Where tombstones come from *)

(** Table and dictionary only ever hold requests that were pushed. *)
Record rooted (w : TW) : Prop := {
  r_table : tombstones w ⊆ inserted w ++ tbuf w;
  r_dict : forall x, x ∈ dict w -> x ∈ ids (tombstones w);
}.

Lemma rooted_grow w w' :
  tombstones w' = tombstones w -> dict w' = dict w -> inserted w ++ tbuf w ⊆ inserted w' ++ tbuf w' ->
  rooted w -> rooted w'.
Proof. intros E1 E2 Hs [Ht Hd]. split; rewrite ?E1, ?E2; [set_solver|done]. Qed.

Lemma flush_loop_rooted fuel ins k w : rooted w -> rooted (flush_loop fuel ins k w).
Proof.
  revert k w. induction fuel as [|fuel IH]; intros k w H; cbn [flush_loop];
    [by apply (rooted_grow w)|].
  destruct (tbuf w) as [|r l] eqn:Eb; [by apply (rooted_grow w)|].
  set (n := Nat.min (length (r :: l)) tombstoneBatchMax).
  destruct H as [Ht Hd]. destruct (ins k).
  - apply IH. split; simpl.
    + rewrite <-app_assoc, take_drop. rewrite <-(take_drop n (tbuf w)) in Ht at 1.
      pose proof (subseteq_take n (tbuf w)). rewrite take_drop in Ht. set_solver.
    + intros x Hx%Hd. rewrite ids_app. set_solver.
  - by split.
  - split; simpl.
    + pose proof (subseteq_take n (tbuf w)). set_solver.
    + intros x Hx%Hd. rewrite ids_app. set_solver.
Qed.

Lemma flush_rooted ins w : rooted w -> rooted (flush ins w).
Proof.
  intros H. unfold flush. apply flush_loop_rooted. unfold reportDrops. case_decide; [|done].
  by apply (rooted_grow w).
Qed.

Lemma receive_rooted ins w w' : rooted w -> receive ins w = Some w' -> rooted w'.
Proof.
  intros H. unfold receive. destruct (tin w) as [|req rest]; [done|]. intros [= <-].
  assert (rooted (appendReq req rest w)).
  { unfold appendReq. case_decide; apply (rooted_grow w); try done. simpl. set_solver. }
  case_decide; [destruct (retrying _)|]; try done. by apply flush_rooted.
Qed.

Lemma reload_rooted now fin r w : rooted w -> rooted (reload now fin r w).2.
Proof.
  intros [Ht Hd]. split; simpl; [done|]. destruct r; try done; intros x Hx%elem_of_list_to_set; done.
Qed.

Lemma lifetime_rooted w : rooted w -> rooted (lifetime w).
Proof. intros [Ht Hd]. split; simpl; [done|]. intros x Hx%elem_of_list_to_set. done. Qed.

Lemma endTurn_rooted now fin r w : rooted w -> rooted (endTurn now fin r w).
Proof.
  intros H. unfold endTurn. destruct (reload_due now w); [|done].
  pose proof (reload_rooted now fin r w H) as [Ht Hd].
  destruct (reload now fin r w) as [ok w1]. by split.
Qed.

Lemma tstep_rooted l w w' : rooted w -> tstep l w = Some w' -> rooted w'.
Proof.
  intros H Hs. destruct l; simpl in Hs.
  - case_decide; simplify_eq. by apply (rooted_grow w).
  - simplify_eq. by apply (rooted_grow w).
  - destruct (phase w); [|done..]. destruct (receive ins w) as [w1|] eqn:E; [|done]. simplify_eq/=.
    apply endTurn_rooted. by eapply receive_rooted.
  - destruct (phase w); [|done..]. simplify_eq/=. by apply endTurn_rooted, flush_rooted.
  - simplify_eq. by apply lifetime_rooted.
  - destruct (phase w), (stopCh w); simplify_eq. by apply (rooted_grow w).
  - destruct (phase w); [done| |done]. destruct (receive ins w) as [w1|] eqn:E; [|done]. simplify_eq/=.
    apply (rooted_grow w1); try done. by eapply receive_rooted.
  - destruct (phase w); [done| |done]. destruct (tin w); [|done]. case_decide; simplify_eq/=;
      [by apply (rooted_grow w)|].
    pose proof (flush_rooted ins w H) as H1. destruct (dirty (flush ins w)).
    + destruct (reload_rooted now fin r _ H1) as [Ht Hd]. by split.
    + destruct H1 as [Ht Hd]. by split.
Qed.

Lemma rooted_dict P w x : accounted P w -> rooted w -> x ∈ dict w -> x ∈ ids P.
Proof.
  intros [Hp _ _] [Ht Hd] Hx%Hd. unfold ids in *. rewrite Hp, !map_app.
  apply list_elem_of_fmap in Hx as (r & -> & Hr%Ht). apply elem_of_app in Hr as [Hr|Hr];
    rewrite !elem_of_app; eauto using list_elem_of_fmap_2.
Qed.

(** [retire] appends a prefix of its requests to the channel. *)
Lemma retire_loop_spec sels rids rsn by_ w :
  exists k, (retire_loop sels rids rsn by_ w).2 =
    foldl (fun w r => push r w) w (take k (map (fun i => mkReq i rsn by_) rids)).
Proof.
  revert sels w. induction rids as [|i rids IH]; intros sels w; simpl; [by exists 0%nat|].
  destruct (stopCh w); [by exists 0%nat|]. destruct sels as [|[| |] sels]; try by exists 0%nat.
  case_decide; [|by exists 0%nat].
  destruct (IH sels (push (mkReq i rsn by_) w)) as [k Hk]. by exists (S k).
Qed.

Lemma push_all_ok P rs w :
  accounted P w -> unclogged w -> rooted w ->
  let w' := foldl (fun w r => push r w) w rs in
  accounted (P ++ rs) w' /\ unclogged w' /\ rooted w' /\ tin w' = tin w ++ rs /\ dict w' = dict w.
Proof.
  revert P w. induction rs as [|r rs IH]; intros P w Ha Hu Hr; simpl; [by rewrite !app_nil_r|].
  destruct (IH (P ++ [r]) (push r w)) as (H1 & H2 & H3 & H4 & H5).
  - destruct Ha as [Hp Hc Hm]. split; simpl; [|done..]. rewrite Hp. solve_Permutation.
  - done.
  - by apply (rooted_grow w).
  - rewrite <-app_assoc in H1. simpl in H4. rewrite <-app_assoc in H4. done.
Qed.

Lemma new_rooted : rooted newTombstoneWriter.
Proof. by split; simpl. Qed.

(** *** Without insert failures *)

Definition inserts_ok (l : TLabel) : Prop :=
  match l with
  | TReq ins _ _ _ | TTick ins _ _ _ | TDrainReq ins | TDrainEmpty ins _ _ _ =>
      forall k, ins k = InsOk
  | _ => True
  end.

Definition calm (w : TW) : Prop := retrying w = false /\ droppedReqs w = [].

Lemma flush_calm ins w : (forall k, ins k = InsOk) -> calm w -> calm (flush ins w) /\ tbuf (flush ins w) = [].
Proof.
  intros Hi [_ Hd]. destruct (flush_spec ins w) as (_ & Hb & Hr & _ & Ed & _).
  specialize (Hr Hi). split; [split; [done|congruence]|auto].
Qed.

Lemma receive_calm ins w w' :
  (forall k, ins k = InsOk) -> unclogged w -> calm w -> receive ins w = Some w' -> calm w'.
Proof.
  intros Hi Hu [Hr Hd]. specialize (Hu Hr). unfold receive.
  destruct (tin w) as [|req rest]; [done|]. intros [= <-].
  assert (calm (appendReq req rest w)) as Hc.
  { unfold appendReq. case_decide as Hl; [|done]. unfold tombstoneRetainedMax in Hl.
    rewrite tombstoneBatchMax_eq in *. lia. }
  case_decide; [|done]. pose proof Hc as [-> _]. by apply flush_calm.
Qed.

Lemma tstep_calm l w w' : inserts_ok l -> unclogged w -> calm w -> tstep l w = Some w' -> calm w'.
Proof.
  intros Hi Hu Hc Hs. destruct l; simpl in *.
  - case_decide; by simplify_eq.
  - by simplify_eq.
  - destruct (phase w); [|done..]. destruct (receive ins w) as [w1|] eqn:E; [|done]. simplify_eq/=.
    pose proof (receive_calm ins w w1 Hi Hu Hc E). unfold endTurn. by destruct (reload_due now w1).
  - destruct (phase w); [|done..]. simplify_eq/=. destruct (flush_calm ins w Hi Hc) as [? _].
    unfold endTurn. by destruct (reload_due now _).
  - by simplify_eq.
  - destruct (phase w), (stopCh w); by simplify_eq.
  - destruct (phase w); [done| |done]. destruct (receive ins w) as [w1|] eqn:E; [|done]. simplify_eq/=.
    by apply (receive_calm ins w w1 Hi Hu Hc E).
  - destruct (phase w); [done| |done]. destruct (tin w); [|done]. case_decide; simplify_eq/=; [done|].
    destruct (flush_calm ins w Hi Hc) as [? _]. by destruct (dirty (flush ins w)).
Qed.

Lemma trun_calm ls P w w' :
  Forall inserts_ok ls -> accounted P w -> unclogged w -> calm w -> trun ls w = Some w' -> calm w'.
Proof.
  revert P w. induction ls as [|l ls IH]; intros P w Hi Ha Hu Hc Hrun; simpl in *; [by simplify_eq|].
  destruct (tstep l w) as [w1|] eqn:E; [|done]. apply Forall_cons in Hi as [Hl Hi].
  destruct (tstep_ok P l w w1 Ha Hu E). apply (IH (P ++ pushed l) w1); try done. by apply (tstep_calm l w).
Qed.

(** ** Properties *)

(** C11: the tombstone writer accounts for every request. Under any interleaving of
    producers, insert failures, ticks and shutdown, each pushed request is queued,
    buffered, inserted or dropped, exactly once; every drop is either already in
    the error log or still counted for the next flush; the buffer never exceeds
    3000 requests and stays under one batch while inserts succeed. *)
Theorem tombstone_requests_accounted ls w :
  trun ls newTombstoneWriter = Some w ->
  (ls ≫= pushed) ≡ₚ tin w ++ tbuf w ++ inserted w ++ droppedReqs w /\
  length (droppedReqs w) = (dropped w + reported w)%nat /\
  (length (tbuf w) <= Z.to_nat 3000)%nat /\
  (retrying w = false -> (length (tbuf w) < Z.to_nat 1000)%nat).
Proof.
  intros Hrun. destruct new_ok as [H1 H2].
  destruct (trun_ok ls [] newTombstoneWriter w H1 H2 Hrun) as [[Hp Hc Hm] Hu].
  unfold tombstoneRetainedMax in Hm. rewrite tombstoneBatchMax_eq in Hm. split_and!; [done|done|lia|done].
Qed.

Definition demo_req (i : string) : tombstoneReq := mkReq i "nip09" "bob".

Lemma tombstone_requests_accounted_witness :
  exists w,
    trun [TPush (demo_req "a"); TPush (demo_req "b"); TReq (fun _ => InsOk) 5 6 ReloadApplied;
          TTick (fun _ => InsFailedStored) 7 8 ReloadApplied] newTombstoneWriter = Some w /\
    [demo_req "a"; demo_req "b"] ≡ₚ tin w ++ tbuf w ++ inserted w ++ droppedReqs w.
Proof.
  eexists. match goal with |- ?r = Some ?w /\ _ =>
    assert (r = Some w) as Hrun by (vm_compute; reflexivity) end.
  split; [exact Hrun|]. destruct (tombstone_requests_accounted _ _ Hrun) as [H _]. exact H.
Defined.

(** C38: hides are never dropped while the database accepts inserts, and shutdown
    then loses nothing: when every insert succeeds no request is ever dropped, and
    once the writer has returned every request it was ever sent has been inserted,
    except those pushed after it had seen the channel empty twice. *)
Theorem tombstones_survive_shutdown ls w :
  Forall inserts_ok ls -> trun ls newTombstoneWriter = Some w -> phase w ≠ Done ->
  droppedReqs w = [] /\
  (forall k now fin r ins, phase w = Draining (S k) -> tin w = [] -> (forall j, ins j = InsOk) ->
     exists w', tstep (TDrainEmpty ins now fin r) w = Some w' /\ phase w' = Done /\
       lost w' = 0%nat /\ (ls ≫= pushed) ≡ₚ inserted w').
Proof.
  intros Hi Hrun Hp. destruct new_ok as [H1 H2].
  destruct (trun_ok ls [] newTombstoneWriter w H1 H2 Hrun) as [Ha Hu].
  assert (calm w) as Hc by (apply (trun_calm ls [] newTombstoneWriter w); done).
  split; [apply Hc|]. intros k now fin r ins Hph Ht Hins. simpl. rewrite Hph, Ht.
  rewrite decide_False by lia. eexists. split; [done|].
  destruct (flush_calm ins w Hins Hc) as [[_ Hd] Hb].
  pose proof (flush_accounted _ ins w Ha) as [Hperm _ _].
  destruct (flush_spec ins w) as (_ & _ & _ & Et & _).
  rewrite Et, Ht, Hb, Hd, app_nil_r in Hperm. simpl in Hperm. split; [done|].
  simpl. destruct (dirty (flush ins w)); simpl; rewrite Hb; done.
Qed.

Lemma tombstones_survive_shutdown_witness :
  let ok := fun _ : nat => InsOk in
  let ls := [TPush (demo_req "a"); TReq ok 5 6 ReloadApplied; TClose; TSeeStop; TDrainEmpty ok 0 0 ReloadFailed] in
  exists w w', trun ls newTombstoneWriter = Some w /\
    tstep (TDrainEmpty ok 9 10 ReloadApplied) w = Some w' /\ [demo_req "a"] ≡ₚ inserted w'.
Proof.
  intros ok ls. eexists.
  match goal with |- exists w', ?r = Some ?w /\ _ =>
    destruct (tombstones_survive_shutdown ls (default newTombstoneWriter r)) as [_ H] end.
  - repeat constructor; done.
  - vm_compute. reflexivity.
  - vm_compute. discriminate.
  - destruct (H 0%nat 9 10 ReloadApplied ok) as (w' & Hs & _ & _ & Hperm);
      [vm_compute; reflexivity|vm_compute; reflexivity|done|].
    exists w'. split; [vm_compute; reflexivity|]. split; [exact Hs|exact Hperm].
Defined.

(** C12: a clean dictionary is a complete dictionary. When ids are not retired
    twice, the probe of the last inserted id is a reliable test: whenever the
    writer considers the dictionary clean, every acknowledged tombstone is in it,
    so reads hide every deleted event, even if reloads failed, reported success
    without applying, or inserts stored rows while reporting an error. *)
Theorem clean_dictionary_is_complete ls w r :
  NoDup (map id (ls ≫= pushed)) -> trun ls newTombstoneWriter = Some w ->
  dirty w = false -> r ∈ inserted w -> id r ∈ dict w.
Proof.
  intros Hnd Hrun Hd Hr. destruct new_ok as [H1 H2].
  apply (d_clean w); [|done|by apply list_elem_of_fmap_2].
  apply (trun_dict_ok ls [] newTombstoneWriter w); done || apply new_dict_ok.
Qed.

Lemma clean_dictionary_is_complete_witness :
  let ok := fun _ : nat => InsOk in
  let ls := [TPush (demo_req "a"); TReq ok 0 1 ReloadFailed; TTick ok 2 3 ReloadNotApplied;
             TTick ok (3 * Second) (3 * Second) ReloadApplied] in
  exists w, trun ls newTombstoneWriter = Some w /\ id (demo_req "a") ∈ dict w.
Proof.
  intros ok ls. eexists.
  match goal with |- ?r = Some ?w /\ _ =>
    assert (r = Some w) as Hrun by (vm_compute; reflexivity) end.
  split; [exact Hrun|]. apply (clean_dictionary_is_complete ls _ (demo_req "a")).
  - vm_compute. constructor; [set_solver|constructor].
  - exact Hrun.
  - vm_compute. reflexivity.
  - vm_compute. apply list_elem_of_here.
Defined.

(** With a repeated id the probe can be fooled: the id is already in the
    dictionary, so a reload that did not apply is taken for a good one, and the
    writer stops retrying while another acknowledged tombstone is missing. *)
Theorem duplicate_id_fools_the_probe :
  let ok := fun _ : nat => InsOk in
  exists ls w, trun ls newTombstoneWriter = Some w /\ dirty w = false /\
    demo_req "b" ∈ inserted w /\ id (demo_req "b") ∉ dict w.
Proof.
  exists [TPush (demo_req "a"); TReq (fun _ => InsOk) 0 1 ReloadFailed;
          TTick (fun _ => InsOk) 2 3 ReloadApplied;
          TPush (demo_req "b"); TPush (demo_req "a");
          TReq (fun _ => InsOk) 4 4 ReloadFailed; TReq (fun _ => InsOk) 4 4 ReloadFailed;
          TTick (fun _ => InsOk) (9 * Second) (9 * Second) ReloadNotApplied].
  eexists. split; [vm_compute; reflexivity|]. split; [reflexivity|]. split.
  - apply list_elem_of_further, list_elem_of_here.
  - simpl. apply (bool_decide_unpack _). vm_compute. exact I.
Qed.

(** Dictionary reloads are rate limited even when they fail: while the writer
    runs, each reload starts at least two seconds after the previous one ended. *)
Theorem reloads_are_spaced ls w i s f s' f' :
  trun ls newTombstoneWriter = Some w -> phase w ≠ Done ->
  reloads w !! S i = Some (s, f) -> reloads w !! i = Some (s', f') -> 2 * Second <= s' - f.
Proof.
  intros Hrun Hp. destruct (trun_paced ls _ w new_paced Hrun Hp) as [H _]. apply H.
Qed.

Lemma reloads_are_spaced_witness :
  let bad := fun _ : nat => InsOk in
  let ls := [TPush (demo_req "a"); TTick bad 0 1 ReloadFailed; TReq bad 2 3 ReloadFailed;
             TTick bad 4 5 ReloadFailed; TTick bad 6 7 ReloadFailed;
             TTick bad (3 * Second) (3 * Second) ReloadFailed] in
  exists w s f s' f', trun ls newTombstoneWriter = Some w /\ length (reloads w) = 2%nat /\
    2 * Second <= s' - f /\ reloads w = [(s', f'); (s, f)].
Proof.
  intros bad ls. eexists _, _, _, _, _.
  match goal with |- ?r = Some ?w /\ _ =>
    assert (r = Some w) as Hrun by (vm_compute; reflexivity) end.
  split; [exact Hrun|]. split; [vm_compute; reflexivity|]. split; [|vm_compute; reflexivity].
  eapply (reloads_are_spaced ls _ 0); [exact Hrun|vm_compute; discriminate| |]; vm_compute; reflexivity.
Defined.
