(* ===== verification/Admission.v ===== *)
(** * Read admission (internal/store/store.go: acquireRead)

    The two channels that bound concurrent reads: [readSem] holds one token per
    admitted caller, [readWait] one per caller waiting for a token. A call of
    [acquireRead] runs one select after the other; [Pc] says which one is next, and
    between any two selects of a call the other calls can run. *)

From S2P Require Import Prelude.

Definition readAdmissionCap : nat := 16.

(** Where a call of [acquireRead] is. [Leaving] and [Quitting] are through the last
    select and still run the deferred receive on [readWait]. *)
Inductive Pc :=
  | Entered (internal : bool)  (* before the first select *)
  | TrySem                     (* the context was not done: before the select on readSem *)
  | TryWait                    (* readSem was full: before the select on readWait *)
  | Waiting                    (* in the last select *)
  | Leaving                    (* it sent its token *)
  | Quitting                   (* it saw ctx.Done() *)
  | Holding                    (* returned a release func *)
  | Bypassed                   (* internal call: returned nop *)
  | Refused (e : error).       (* returned an error *)

Record Adm := mkAdm {
  readSem : nat;               (* tokens in the channel *)
  readWait : nat;
  calls : gmap nat Pc;
}.

Definition newAdm : Adm := mkAdm 0 0 ∅.

(** The next select of call [c]. [cancelled]: ctx.Done() is closed; [pickCancel]: the
    choice of a select when its other case is ready too. [None]: the call has returned, or
    blocks. *)
Definition acquireRead (cancelled pickCancel : bool) (c : nat) (a : Adm) : option Adm :=
  let go := fun sem wait pc => Some (mkAdm sem wait (<[c := pc]> (calls a))) in
  match calls a !! c with
  | Some (Entered internal) =>
      if internal then go (readSem a) (readWait a) Bypassed
      else if cancelled then go (readSem a) (readWait a) (Refused (Sentinel CtxCanceled))
      else go (readSem a) (readWait a) TrySem
  | Some TrySem =>
      if decide (readSem a < readAdmissionCap)%nat then go (S (readSem a)) (readWait a) Holding
      else go (readSem a) (readWait a) TryWait
  | Some TryWait =>
      if decide (readWait a < readAdmissionCap)%nat then
        if cancelled && pickCancel then go (readSem a) (readWait a) (Refused (Sentinel CtxCanceled))
        else go (readSem a) (S (readWait a)) Waiting
      else if cancelled then go (readSem a) (readWait a) (Refused (Sentinel CtxCanceled))
      else go (readSem a) (readWait a) (Refused (Sentinel ErrReadBusy))
  | Some Waiting =>
      if decide (readSem a < readAdmissionCap)%nat then
        if cancelled && pickCancel then go (readSem a) (readWait a) Quitting
        else go (S (readSem a)) (readWait a) Leaving
      else if cancelled then go (readSem a) (readWait a) Quitting
      else None
  | Some Leaving => go (readSem a) (pred (readWait a)) Holding
  | Some Quitting => go (readSem a) (pred (readWait a)) (Refused (Sentinel CtxCanceled))
  | _ => None
  end.

Inductive ALabel :=
  | AEnter (c : nat) (internal : bool)
  | ANext (c : nat) (cancelled pickCancel : bool)
  | ARelease (c : nat).        (* the release func is called *)

Definition astep (l : ALabel) (a : Adm) : option Adm :=
  match l with
  | AEnter c internal =>
      match calls a !! c with
      | None => Some (mkAdm (readSem a) (readWait a) (<[c := Entered internal]> (calls a)))
      | Some _ => None
      end
  | ANext c x p => acquireRead x p c a
  | ARelease c =>
      match calls a !! c with
      | Some Holding => Some (mkAdm (pred (readSem a)) (readWait a) (delete c (calls a)))
      | _ => None
      end
  end.

Fixpoint arun (ls : list ALabel) (a : Adm) : option Adm :=
  match ls with
  | [] => Some a
  | l :: ls' => match astep l a with Some a' => arun ls' a' | None => None end
  end.

(** ** Invariant: the channels count exactly the calls they should *)

Definition has_token (p : Pc) : bool := match p with Holding | Leaving => true | _ => false end.
Definition has_slot (p : Pc) : bool := match p with Waiting | Leaving | Quitting => true | _ => false end.

Definition count (f : Pc -> bool) (m : gmap nat Pc) : nat :=
  map_fold (fun _ p n => (if f p then 1 else 0) + n)%nat 0%nat m.

Lemma count_insert (f : Pc -> bool) (m : gmap nat Pc) (c : nat) (p : Pc) :
  m !! c = None -> count f (<[c := p]> m) = ((if f p then 1 else 0) + count f m)%nat.
Proof. intros Hn. unfold count. rewrite map_fold_insert_L; [done|intros j1 j2 z1 z2 y ??; lia|done]. Qed.

Lemma count_delete (f : Pc -> bool) (m : gmap nat Pc) (c : nat) (p : Pc) :
  m !! c = Some p -> count f m = ((if f p then 1 else 0) + count f (delete c m))%nat.
Proof.
  intros Hp. rewrite <-(count_insert f (delete c m) c p); [|by rewrite lookup_delete_eq].
  by rewrite insert_delete_id.
Qed.

Lemma count_update (f : Pc -> bool) (m : gmap nat Pc) (c : nat) (p q : Pc) :
  m !! c = Some p ->
  ((if f p then 1 else 0) + count f (<[c := q]> m) = (if f q then 1 else 0) + count f m)%nat.
Proof.
  intros Hp. rewrite (count_delete f m c p Hp), <-insert_delete_eq.
  rewrite count_insert by (by rewrite lookup_delete_eq). lia.
Qed.

Record adm_ok (a : Adm) : Prop := {
  a_sem : readSem a = count has_token (calls a);
  a_wait : readWait a = count has_slot (calls a);
  a_sem_max : (readSem a <= readAdmissionCap)%nat;
  a_wait_max : (readWait a <= readAdmissionCap)%nat;
}.

(** A call moves from [p] to [q] and takes its token or slot along. *)
Lemma adm_ok_move a c p q sem wait :
  adm_ok a -> calls a !! c = Some p ->
  (sem + (if has_token p then 1 else 0) = readSem a + if has_token q then 1 else 0)%nat ->
  (wait + (if has_slot p then 1 else 0) = readWait a + if has_slot q then 1 else 0)%nat ->
  (sem <= readAdmissionCap)%nat -> (wait <= readAdmissionCap)%nat ->
  adm_ok (mkAdm sem wait (<[c := q]> (calls a))).
Proof.
  intros [H1 H2 H3 H4] E Hs Hw Hsm Hwm.
  pose proof (count_update has_token _ _ _ q E). pose proof (count_update has_slot _ _ _ q E).
  split; simpl; [destruct (has_token p), (has_token q); lia|destruct (has_slot p), (has_slot q); lia|done..].
Qed.

Lemma owns_counted f a c p : calls a !! c = Some p -> f p = true -> (1 <= count f (calls a))%nat.
Proof. intros E Hf. rewrite (count_delete f _ c p E), Hf. lia. Qed.

Lemma acquireRead_ok x p c a a' : adm_ok a -> acquireRead x p c a = Some a' -> adm_ok a'.
Proof.
  intros Ha Hs. pose proof Ha as [H1 H2 H3 H4]. unfold acquireRead in Hs.
  destruct (calls a !! c) as [pc|] eqn:E; [|done].
  pose proof (owns_counted has_slot a c pc E) as Hslot. rewrite <-H2 in Hslot.
  destruct pc; try done; repeat first [case_decide | case_match]; simplify_eq;
    eapply adm_ok_move; try done; simpl in *; try lia; specialize (Hslot eq_refl); lia.
Qed.

Lemma astep_ok l a a' : adm_ok a -> astep l a = Some a' -> adm_ok a'.
Proof.
  intros Ha Hs. pose proof Ha as [H1 H2 H3 H4]. destruct l as [c i|c x p|c]; simpl in Hs.
  - destruct (calls a !! c) eqn:E; [done|]. simplify_eq.
    split; simpl; rewrite ?count_insert by done; simpl; lia.
  - by eapply acquireRead_ok.
  - destruct (calls a !! c) as [[]|] eqn:E; simplify_eq.
    pose proof (count_delete has_token _ _ _ E). pose proof (count_delete has_slot _ _ _ E).
    simpl in *. split; simpl; lia.
Qed.

Lemma arun_ok ls a a' : adm_ok a -> arun ls a = Some a' -> adm_ok a'.
Proof.
  revert a. induction ls as [|l ls IH]; intros a H Hrun; simpl in *; [by simplify_eq|].
  destruct (astep l a) as [a1|] eqn:E; [|done]. eapply IH; [|done]. by eapply astep_ok.
Qed.

Lemma newAdm_ok : adm_ok newAdm.
Proof. by split; simpl; try lia. Qed.

Lemma arun_app l1 l2 a : arun (l1 ++ l2) a = match arun l1 a with Some a' => arun l2 a' | None => None end.
Proof. revert a. induction l1 as [|l l1 IH]; intros a; simpl; [done|]. destruct (astep l a); [apply IH|done]. Qed.

(** *** Why a call is refused *)

(** A step that brings call [c] to a new point is the call's own. *)
Lemma astep_own l a a' c pc :
  astep l a = Some a' -> calls a' !! c = Some pc -> calls a !! c = Some pc \/
  (exists i, l = AEnter c i /\ pc = Entered i) \/
  exists x p, l = ANext c x p /\ acquireRead x p c a = Some a'.
Proof.
  intros Hs Hc. destruct l as [c' i|c' x p|c']; simpl in Hs.
  - destruct (calls a !! c'); [done|]. simplify_eq. simpl in Hc.
    apply lookup_insert_Some in Hc as [[-> <-]|[_ Hc]]; [right; left; eauto|by left].
  - destruct (decide (c' = c)) as [->|Hne]; [right; right; eauto|left].
    unfold acquireRead in Hs. repeat first [case_decide | case_match]; simplify_eq; simpl in Hc;
      by rewrite lookup_insert_ne in Hc.
  - destruct (calls a !! c') as [[]|]; simplify_eq. simpl in Hc.
    apply lookup_delete_Some in Hc as [_ Hc]. by left.
Qed.

(** The point of the run at which call [c] found readSem full. *)
Definition saw_full (ls : list ALabel) (c : nat) : Prop :=
  exists l1 l2 a1, ls = l1 ++ l2 /\ arun l1 newAdm = Some a1 /\ calls a1 !! c = Some TrySem /\
    readSem a1 = readAdmissionCap.

(** The point at which it then found readWait full. *)
Definition saw_both_full (ls : list ALabel) (c : nat) : Prop :=
  exists l1 l2 a1, ls = l1 ++ l2 /\ arun l1 newAdm = Some a1 /\ calls a1 !! c = Some TryWait /\
    readWait a1 = readAdmissionCap /\ saw_full l1 c.

Lemma saw_full_snoc ls l c : saw_full ls c -> saw_full (ls ++ [l]) c.
Proof. intros (l1 & l2 & a1 & -> & H). exists l1, (l2 ++ [l]), a1. by rewrite app_assoc. Qed.

Lemma saw_both_full_snoc ls l c : saw_both_full ls c -> saw_both_full (ls ++ [l]) c.
Proof. intros (l1 & l2 & a1 & -> & H). exists l1, (l2 ++ [l]), a1. by rewrite app_assoc. Qed.

Lemma refusal_history ls a c :
  arun ls newAdm = Some a ->
  (calls a !! c = Some TryWait -> saw_full ls c) /\
  (calls a !! c = Some (Refused (Sentinel ErrReadBusy)) -> saw_both_full ls c).
Proof.
  revert a. induction ls as [|l ls IH] using rev_ind; intros a Hrun.
  { simpl in Hrun. simplify_eq. simpl. by rewrite lookup_empty. }
  rewrite arun_app in Hrun. destruct (arun ls newAdm) as [a0|] eqn:E0; [|done].
  specialize (IH a0 eq_refl) as [IH1 IH2]. simpl in Hrun. destruct (astep l a0) as [a1|] eqn:Es; [|done]. simplify_eq.
  pose proof (arun_ok ls newAdm a0 newAdm_ok E0) as [_ _ H3 H4].
  split; intros Hc; destruct (astep_own l a0 a c _ Es Hc) as [Hold|[(i & _ & ?)|(x & p & _ & Hacq)]]; try done.
  - by apply saw_full_snoc, IH1.
  - exists ls, [l], a0. unfold acquireRead in Hacq. repeat first [case_decide | case_match]; simplify_eq; simpl in Hc;
      rewrite lookup_insert_eq in Hc; simplify_eq; (split_and!; [done..|lia]).
  - by apply saw_both_full_snoc, IH2.
  - exists ls, [l], a0. unfold acquireRead in Hacq. repeat first [case_decide | case_match]; simplify_eq; simpl in Hc;
      rewrite lookup_insert_eq in Hc; simplify_eq; (split_and!; [done..|lia|by apply IH1]).
Qed.

(** ** Properties *)

(** C35: read admission is a correct bounded semaphore. In every interleaving of the
    selects of concurrent reads at most 16 hold a token and at most 16 wait, the channels
    count exactly the calls that own a token or a slot (none is leaked by
    cancellation, hand-over or release), a waiter can proceed as soon as a token
    is free or its context is done, and internal calls are let through. A caller is told
    the relay is busy only if its select on readSem found all tokens taken and, later,
    its select on readWait found all waiter slots taken; the two need not hold at the
    same time, see [busy_with_free_tokens]. *)
Theorem read_admission_bounded ls a :
  arun ls newAdm = Some a ->
  readSem a = count has_token (calls a) /\ (readSem a <= 16)%nat /\
  readWait a = count has_slot (calls a) /\ (readWait a <= 16)%nat /\
  (forall c x p, calls a !! c = Some Waiting -> (readSem a < 16)%nat \/ x = true -> is_Some (acquireRead x p c a)) /\
  (forall c x p, calls a !! c = Some (Entered true) ->
     acquireRead x p c a = Some (mkAdm (readSem a) (readWait a) (<[c := Bypassed]> (calls a)))) /\
  (forall c, calls a !! c = Some (Refused (Sentinel ErrReadBusy)) -> saw_both_full ls c).
Proof.
  intros Hrun. destruct (arun_ok ls newAdm a newAdm_ok Hrun) as [H1 H2 H3 H4].
  split_and!; try done.
  - intros c x p Hc Hor. unfold acquireRead. rewrite Hc. unfold readAdmissionCap in *.
    repeat first [case_decide | case_match]; try (by eexists). naive_solver.
  - intros c x p Hc. unfold acquireRead. by rewrite Hc.
  - intros c. by apply (refusal_history ls a c Hrun).
Qed.

(** Sixteen readers, sixteen waiters, and one more caller. *)
Definition demo_enter (c : nat) : list ALabel := [AEnter c false; ANext c false false; ANext c false false].

Definition demo_busy : list ALabel :=
  (seq 0 16 ≫= demo_enter) ++ (seq 16 16 ≫= fun c => demo_enter c ++ [ANext c false false]) ++
  demo_enter 32 ++ [ANext 32 false false].

Lemma read_admission_bounded_witness :
  exists a, arun demo_busy newAdm = Some a /\ calls a !! 32%nat = Some (Refused (Sentinel ErrReadBusy)) /\
    saw_both_full demo_busy 32.
Proof.
  destruct (arun demo_busy newAdm) as [a|] eqn:Hrun; [|exfalso; vm_compute in Hrun; discriminate Hrun].
  assert (calls a !! 32%nat = Some (Refused (Sentinel ErrReadBusy))) as Hc.
  { vm_compute in Hrun. injection Hrun as <-. vm_compute. reflexivity. }
  exists a. split; [reflexivity|]. split; [exact Hc|]. by apply (read_admission_bounded demo_busy a Hrun).
Defined.

(** Busy with all tokens free. Seventeen callers find readSem full, then every reader
    releases its token and sixteen of the callers take the waiter slots: the last one
    is told the relay is busy although nothing is being read. *)
Theorem busy_with_free_tokens :
  exists ls a, arun ls newAdm = Some a /\ readSem a = 0%nat /\
    calls a !! 32%nat = Some (Refused (Sentinel ErrReadBusy)).
Proof.
  exists ((seq 0 16 ≫= demo_enter) ++ (seq 16 17 ≫= demo_enter) ++ (ARelease <$> seq 0 16) ++
          ((fun c => ANext c false false) <$> seq 16 17)).
  eexists. split; [vm_compute; reflexivity|]. split; [reflexivity|vm_compute; reflexivity].
Qed.
