(* ===== verification/Feed.v ===== *)
(** * Feed writer (internal/store/feed.go)

    The best-effort mirror of recently flushed events in [events_feed]: a bounded
    queue fed by the tier batchers after a durable insert, coalesced by one
    goroutine. Failed inserts are logged and forgotten. *)

From S2P Require Import Prelude Nostr Config Batcher.

Definition feedBatchMax : nat := Z.to_nat 10000.
Definition feedQueueCap : nat := Z.to_nat 20000.
Arguments feedBatchMax : simpl never.
Arguments feedQueueCap : simpl never.

Record FW := mkFW {
  fin : list Event;              (* w.in *)
  fstop : bool;                  (* stopCh closed *)
  fdone : bool;
  fbuf : list Event;
  drops : nat;
  feedTable : list Event;        (* rows of events_feed *)
  flushedRows : list Event;      (* ghost: rows handed to insert, in order *)
  reportedDrops : nat;           (* ghost: drops written to the log *)
}.

Definition newFeedWriter : FW := mkFW [] false false [] 0 [] [] 0.

Definition offer (evt : Event) (w : FW) : FW :=
  if decide (length (fin w) < feedQueueCap)%nat then
    mkFW (fin w ++ [evt]) (fstop w) (fdone w) (fbuf w) (drops w) (feedTable w)
      (flushedRows w) (reportedDrops w)
  else
    mkFW (fin w) (fstop w) (fdone w) (fbuf w) (S (drops w)) (feedTable w)
      (flushedRows w) (reportedDrops w).

Definition Drops (w : FW) : nat := drops w.

(** [insert]: the rows an INSERT leaves in the table, by its outcome. *)
Definition feedInsert (o : Outcome) (evs : list Event) : list Event := insertedRows o evs.

Definition feedFlush (o : Outcome) (w : FW) : FW :=
  match fbuf w with
  | [] => w
  | _ :: _ =>
      mkFW (fin w) (fstop w) (fdone w) [] 0 (feedTable w ++ feedInsert o (fbuf w))
        (flushedRows w ++ fbuf w) (reportedDrops w + drops w)
  end.

(** [buf = append(buf, evt)], flushing a full batch. *)
Definition feedRecv (o : Outcome) (evt : Event) (rest : list Event) (w : FW) : FW :=
  let w1 := mkFW rest (fstop w) (fdone w) (fbuf w ++ [evt]) (drops w) (feedTable w)
              (flushedRows w) (reportedDrops w) in
  if decide (feedBatchMax <= length (fbuf w1))%nat then feedFlush o w1 else w1.

(** The drain on stop: one receive per queued event, then a last flush. *)
Fixpoint feedDrain (fuel : nat) (os : nat -> Outcome) (k : nat) (w : FW) : FW :=
  match fuel with
  | O => w
  | S fuel' =>
      match fin w with
      | evt :: rest => feedDrain fuel' os (S k) (feedRecv (os k) evt rest w)
      | [] =>
          let w1 := feedFlush (os k) w in
          mkFW (fin w1) (fstop w1) true (fbuf w1) (drops w1) (feedTable w1)
            (flushedRows w1) (reportedDrops w1)
      end
  end.

Inductive FLabel :=
  | FOffer (evt : Event)
  | FClose
  | FRecv (o : Outcome)
  | FTick (o : Outcome)
  | FStop (os : nat -> Outcome).

Definition fstep (l : FLabel) (w : FW) : option FW :=
  match l with
  | FOffer evt => Some (offer evt w)
  | FClose => Some (mkFW (fin w) true (fdone w) (fbuf w) (drops w) (feedTable w)
                      (flushedRows w) (reportedDrops w))
  | FRecv o =>
      match fdone w, fin w with
      | false, evt :: rest => Some (feedRecv o evt rest w)
      | _, _ => None
      end
  | FTick o => if fdone w then None else Some (feedFlush o w)
  | FStop os =>
      match fdone w, fstop w with
      | false, true => Some (feedDrain (S (length (fin w))) os 0 w)
      | _, _ => None
      end
  end.

Fixpoint frun (ls : list FLabel) (w : FW) : option FW :=
  match ls with
  | [] => Some w
  | l :: ls' => match fstep l w with Some w' => frun ls' w' | None => None end
  end.

(** ** Invariant *)

Definition mirrored (w : FW) : list Event := flushedRows w ++ fbuf w ++ fin w.

(** [A]: accepted offers in order; [d]: refused offers. *)
Record feed_ok (A : list Event) (d : nat) (w : FW) : Prop := {
  f_order : mirrored w = A;
  f_table : feedTable w ⊆ flushedRows w;
  f_drops : d = (drops w + reportedDrops w)%nat;
  f_queue : (length (fin w) <= feedQueueCap)%nat;
  f_buf : (length (fbuf w) < feedBatchMax)%nat;
}.

Definition taken (l : FLabel) (w : FW) : list Event :=
  match l with
  | FOffer evt => if decide (length (fin w) < feedQueueCap)%nat then [evt] else []
  | _ => []
  end.
Definition refused (l : FLabel) (w : FW) : nat :=
  match l with
  | FOffer evt => if decide (length (fin w) < feedQueueCap)%nat then 0%nat else 1%nat
  | _ => 0%nat
  end.

Lemma feedBatchMax_pos : (0 < feedBatchMax)%nat.
Proof. unfold feedBatchMax. lia. Qed.

Lemma feedFlush_ok A d o w :
  mirrored w = A -> feedTable w ⊆ flushedRows w -> d = (drops w + reportedDrops w)%nat ->
  (length (fin w) <= feedQueueCap)%nat -> feed_ok A d (feedFlush o w).
Proof.
  intros HA Ht Hd Hq. pose proof feedBatchMax_pos. unfold feedFlush.
  destruct (fbuf w) as [|e l] eqn:Eb; split; simpl; try done.
  - by rewrite Eb.
  - rewrite <-HA. unfold mirrored. simpl. by rewrite Eb, <-app_assoc.
  - pose proof (insertedRows_subseteq o (e :: l)). unfold feedInsert. set_solver.
  - lia.
Qed.

Lemma feedRecv_ok A d o evt rest w :
  fin w = evt :: rest -> feed_ok A d w -> feed_ok A d (feedRecv o evt rest w).
Proof.
  intros Ef [HA Ht Hd Hq Hb]. rewrite Ef in Hq. simpl in Hq. unfold feedRecv.
  set (w1 := mkFW rest _ _ _ _ _ _ _).
  assert (mirrored w1 = A) as HA1.
  { rewrite <-HA. unfold mirrored. simpl. by rewrite Ef, <-!app_assoc. }
  case_decide as Hc; [apply feedFlush_ok; try done; simpl; lia|].
  split; try done; simpl in *; lia.
Qed.

Lemma feedDrain_ok A d fuel os k w :
  (length (fin w) < fuel)%nat -> feed_ok A d w ->
  feed_ok A d (feedDrain fuel os k w) /\ fin (feedDrain fuel os k w) = [] /\
  fbuf (feedDrain fuel os k w) = [] /\ fdone (feedDrain fuel os k w) = true.
Proof.
  revert k w. induction fuel as [|fuel IH]; intros k w Hf H; [lia|]. cbn [feedDrain].
  destruct (fin w) as [|evt rest] eqn:Ef.
  - pose proof H as [HA Ht Hd Hq Hb]. pose proof (feedFlush_ok A d (os k) w HA Ht Hd Hq) as [].
    split; [by split|]. unfold feedFlush. destruct (fbuf w) eqn:Eb; simpl; rewrite ?Ef; done.
  - apply IH; [|by apply feedRecv_ok]. unfold feedRecv. simpl in Hf.
    case_decide; [unfold feedFlush; simpl; destruct (fbuf w ++ [evt])|]; simpl; lia.
Qed.

(** With every insert sent, the drain stores what was buffered and queued. *)
Lemma feedDrain_sent fuel os k w :
  (forall k, os k = Sent) -> (length (fin w) < fuel)%nat ->
  feedTable (feedDrain fuel os k w) = feedTable w ++ fbuf w ++ fin w.
Proof.
  intros Hos. revert k w. induction fuel as [|fuel IH]; intros k w Hf; [lia|]. cbn [feedDrain]. rewrite Hos.
  assert (forall w, feedTable (feedFlush Sent w) ++ fbuf (feedFlush Sent w) = feedTable w ++ fbuf w /\
    fbuf (feedFlush Sent w) = [] /\ fin (feedFlush Sent w) = fin w) as Hfl.
  { intros w0. unfold feedFlush. destruct (fbuf w0) eqn:E; simpl; by rewrite ?E, ?app_nil_r. }
  destruct (fin w) as [|evt rest] eqn:Ef.
  - simpl. destruct (Hfl w) as (H1 & H2 & _). rewrite H2, app_nil_r in H1. by rewrite app_nil_r.
  - rewrite IH; unfold feedRecv; case_decide as Hc.
    + destruct (Hfl (mkFW rest (fstop w) (fdone w) (fbuf w ++ [evt]) (drops w) (feedTable w)
        (flushedRows w) (reportedDrops w))) as (H1 & H2 & ->).
      rewrite app_assoc, H1. simpl. by rewrite <-!app_assoc.
    + simpl. by rewrite <-app_assoc.
    + destruct (Hfl (mkFW rest (fstop w) (fdone w) (fbuf w ++ [evt]) (drops w) (feedTable w)
        (flushedRows w) (reportedDrops w))) as (_ & _ & ->). simpl in *. lia.
    + simpl in *. lia.
Qed.

Lemma fstep_ok A d l w w' :
  feed_ok A d w -> fstep l w = Some w' -> feed_ok (A ++ taken l w) (d + refused l w) w'.
Proof.
  intros H Hs. pose proof H as [HA Ht Hd Hq Hb].
  destruct l; simpl in *; rewrite ?app_nil_r, ?Nat.add_0_r.
  - simplify_eq. unfold offer. case_decide; split; simpl; rewrite ?app_nil_r, ?length_app; simpl; try done; try lia.
    unfold mirrored. simpl. by rewrite !app_assoc.
  - simplify_eq. by split.
  - destruct (fdone w), (fin w) as [|evt rest] eqn:E; simplify_eq. by apply feedRecv_ok.
  - destruct (fdone w); simplify_eq. by apply feedFlush_ok.
  - destruct (fdone w), (fstop w); simplify_eq. eapply (feedDrain_ok _ _ (S (length (fin w))) os 0 w); [lia|done].
Qed.

(** Offers accepted and refused along a run. *)
Fixpoint offers (ls : list FLabel) (w : FW) : list Event * nat :=
  match ls with
  | [] => ([], 0%nat)
  | l :: ls' =>
      match fstep l w with
      | Some w' => let '(a, d) := offers ls' w' in (taken l w ++ a, (refused l w + d)%nat)
      | None => ([], 0%nat)
      end
  end.

Lemma frun_ok ls A d w w' :
  feed_ok A d w -> frun ls w = Some w' ->
  feed_ok (A ++ (offers ls w).1) (d + (offers ls w).2) w'.
Proof.
  revert A d w. induction ls as [|l ls IH]; intros A d w H Hrun; simpl in *.
  { simplify_eq. by rewrite app_nil_r, Nat.add_0_r. }
  destruct (fstep l w) as [w1|] eqn:E; [|done].
  specialize (IH _ _ w1 (fstep_ok A d l w w1 H E) Hrun).
  destruct (offers ls w1) as [a d']. simpl in *. by rewrite app_assoc, Nat.add_assoc.
Qed.

Lemma newFeedWriter_ok : feed_ok [] 0 newFeedWriter.
Proof. pose proof feedBatchMax_pos. split; simpl; try done; lia. Qed.

(** ** Property *)

(** The feed mirror never invents rows and keeps its books: the events it
    accepted are, in order, the rows handed to inserts followed by the buffered
    and the queued ones; the table holds only accepted events; every refused offer
    is counted or has been reported; queue and buffer stay bounded; and stopping
    drains everything that was queued. *)
Theorem feed_mirror_accounts ls w :
  frun ls newFeedWriter = Some w ->
  (offers ls newFeedWriter).1 = flushedRows w ++ fbuf w ++ fin w /\
  (forall evt, evt ∈ feedTable w -> evt ∈ (offers ls newFeedWriter).1) /\
  (offers ls newFeedWriter).2 = (Drops w + reportedDrops w)%nat /\
  (length (fin w) <= feedQueueCap)%nat /\ (length (fbuf w) < feedBatchMax)%nat /\
  (forall os w', fstep (FStop os) w = Some w' ->
     flushedRows w' = (offers ls newFeedWriter).1 /\ fbuf w' = [] /\ fin w' = []).
Proof.
  intros Hrun. pose proof (frun_ok ls [] 0 newFeedWriter w newFeedWriter_ok Hrun) as H.
  simpl in H. pose proof H as [HA Ht Hd Hq Hb]. split_and!; try done.
  - rewrite <-HA. unfold mirrored. set_solver.
  - intros os w' Hs. simpl in Hs. destruct (fdone w), (fstop w); simplify_eq.
    destruct (feedDrain_ok _ _ (S (length (fin w))) os 0 w ltac:(lia) H) as ([HA' _ _ _ _] & E1 & E2 & _).
    unfold mirrored in HA'. rewrite E1, E2, !app_nil_r in HA'. done.
Qed.

Lemma feed_mirror_accounts_witness :
  exists w, frun [FOffer (demo_row 1); FOffer (demo_row 2); FRecv Sent; FTick (Failed (Opaque "x"));
                  FRecv Sent; FTick Sent] newFeedWriter = Some w /\
    feedTable w = [demo_row 2] /\
    [demo_row 1; demo_row 2] = flushedRows w ++ fbuf w ++ fin w.
Proof.
  eexists. match goal with |- ?r = Some ?w /\ _ =>
    assert (r = Some w) as Hrun by (vm_compute; reflexivity) end.
  split; [exact Hrun|]. split; [reflexivity|].
  destruct (feed_mirror_accounts _ _ Hrun) as [H _]. rewrite <-H. vm_compute. reflexivity.
Defined.
