(* ===== verification/Schema.v ===== *)
(** * Schema (internal/store/schema.go, feed.go, store.go)

    The DDL as the strings the code builds, the runner that splits a blob into
    statements, [initSchema] with its migrations, the bootstrap of the database, and
    the backfill of the feed table. [Exec] is the server: [exec k stmt] is the outcome
    of the [k]-th statement sent; the model returns the statements sent. *)

From S2P Require Import Prelude GoStrings Nostr Config Classifier Rows FilterSQL Query.

Definition tierColumns : string := "id, pubkey, created_at, kind, content, sig, tags_raw, tags, reply_to".
Definition readColumns : string := "id, pubkey, created_at, kind, content, sig, tags".

Definition tagsDefaultExpr : string := "JSONExtract(tags_raw, 'Array(Array(String))')".
Definition tagEDefaultExpr : string := "arrayMap(x -> x[2], arrayFilter(x -> length(x) >= 2 AND x[1] = 'e', tags))".
Definition tagPDefaultExpr : string := "arrayMap(x -> x[2], arrayFilter(x -> length(x) >= 2 AND x[1] = 'p', tags))".
Definition tagTDefaultExpr : string := "arrayMap(x -> x[2], arrayFilter(x -> length(x) >= 2 AND x[1] = 't', tags))".
Definition tagDDefaultExpr : string := "arrayFirst(x -> length(x) >= 2 AND x[1] = 'd', tags)[2]".

Definition tierColumnsType : string :=
  "
  id           String,
  pubkey       String,
  created_at   UInt32,
  kind         UInt32,
  content      String,
  sig          String,
  tags_raw     String,
  tags         Array(Array(String)) DEFAULT " +:+
  tagsDefaultExpr +:+
  ",
  tag_e        Array(String) DEFAULT " +:+
  tagEDefaultExpr +:+
  ",
  tag_p        Array(String) DEFAULT " +:+
  tagPDefaultExpr +:+
  ",
  tag_t        Array(String) DEFAULT " +:+
  tagTDefaultExpr +:+
  ",
  tag_d        String DEFAULT " +:+
  tagDDefaultExpr +:+
  ",
  reply_to     String,
  received_at  DateTime64(3) DEFAULT now64(3),
  version      UInt32 MATERIALIZED created_at,
  INDEX idx_id      id      TYPE bloom_filter(0.01) GRANULARITY 4,
  INDEX idx_tag_e   tag_e   TYPE bloom_filter(0.01) GRANULARITY 4,
  INDEX idx_tag_p   tag_p   TYPE bloom_filter(0.01) GRANULARITY 4,
  INDEX idx_tag_t   tag_t   TYPE bloom_filter(0.01) GRANULARITY 4,
  INDEX idx_pubkey pubkey TYPE bloom_filter(0.01) GRANULARITY 4
".

Definition tierColumnsTypeNoIndexes : string :=
  "
  id           String,
  pubkey       String,
  created_at   UInt32,
  kind         UInt32,
  content      String,
  sig          String,
  tags_raw     String,
  tags         Array(Array(String)),
  tag_e        Array(String) DEFAULT " +:+
  tagEDefaultExpr +:+
  ",
  tag_p        Array(String) DEFAULT " +:+
  tagPDefaultExpr +:+
  ",
  tag_t        Array(String) DEFAULT " +:+
  tagTDefaultExpr +:+
  ",
  tag_d        String DEFAULT " +:+
  tagDDefaultExpr +:+
  ",
  reply_to     String,
  received_at  DateTime64(3) DEFAULT now64(3)".

Definition tierDDL (name ttlDelete : string) : string :=
  let ttl := if String.eqb ttlDelete "" then ""
             else "
  TTL toDateTime(created_at) + INTERVAL " +:+ ttlDelete +:+ " DELETE" in
  "
CREATE TABLE IF NOT EXISTS events_" +:+ name +:+ " (" +:+ tierColumnsType +:+ "
) ENGINE = ReplacingMergeTree(version)
  PARTITION BY toYYYYMM(toDateTime(created_at))
  ORDER BY (kind, pubkey, created_at, id)" +:+ ttl +:+ "
  SETTINGS index_granularity = 8192;
".

Definition eventsViewDDL : string := "
CREATE OR REPLACE VIEW events_all AS
  SELECT * FROM events_permanent
  UNION ALL SELECT * FROM events_archive
  UNION ALL SELECT * FROM events_social;
".

Definition tombstonesDDL : string := "
CREATE TABLE IF NOT EXISTS tombstones (
  id         String,
  reason     LowCardinality(String),
  deleted_by String,
  deleted_at DateTime64(3) DEFAULT now64(3)
) ENGINE = MergeTree ORDER BY (id, deleted_at);

CREATE DICTIONARY IF NOT EXISTS tombstone_dict (
  id String DEFAULT ''
)
PRIMARY KEY id
SOURCE(CLICKHOUSE(TABLE 'tombstones'))
LAYOUT(HASHED())
LIFETIME(MIN 0 MAX 60);
".

Definition snapshotsDDL : string := "
CREATE TABLE IF NOT EXISTS stats_note_monthly (
  note_id String,
  month   Date,
  metric  LowCardinality(String),
  count   UInt64,
  sats    UInt64
) ENGINE = SummingMergeTree
  PARTITION BY toYYYYMM(month)
  ORDER BY (note_id, month, metric);

CREATE TABLE IF NOT EXISTS stats_daily (
  day    Date,
  metric LowCardinality(String),
  value  UInt64
) ENGINE = SummingMergeTree
  PARTITION BY toYYYYMM(day)
  ORDER BY (day, metric);

CREATE TABLE IF NOT EXISTS stats_daily_active (
  day     Date,
  authors AggregateFunction(uniq, String)
) ENGINE = AggregatingMergeTree ORDER BY day;

CREATE TABLE IF NOT EXISTS author_follower_counts (
  pubkey    String,
  followers UInt64
) ENGINE = MergeTree ORDER BY pubkey;

-- Staging twin for the followers swap: refresh builds into staging, then
-- EXCHANGE TABLES swaps atomically (P3 F13). Truncated before each build.
CREATE TABLE IF NOT EXISTS author_follower_counts_staging (
  pubkey    String,
  followers UInt64
) ENGINE = MergeTree ORDER BY pubkey;
".

(** The number of days in the TTL is [int(feedRetention.Hours()/24)]. *)
Definition feedDDL : string :=
  "
CREATE TABLE IF NOT EXISTS events_feed (" +:+ tierColumnsTypeNoIndexes +:+ "
) ENGINE = MergeTree
  PARTITION BY toYYYYMMDD(toDateTime(created_at))
  ORDER BY (created_at, id)
  TTL toDateTime(created_at) + INTERVAL " +:+ pretty (feedRetention / (24 * Hour)) +:+ " DAY DELETE
  SETTINGS index_granularity = 8192;
".

(** [truncate]: at most [n] bytes, with a mark when something was cut. *)
Definition truncate (s : string) (n : nat) : string :=
  if decide (String.length s <= n)%nat then s else String.substring 0 n s +:+ "…".

(** ** The runner *)

(** The statements of a blob. *)
Definition parts (q : string) : list string :=
  filter (fun p => p ≠ "") (map TrimSpace (splitOn (Ascii.ascii_of_nat 59) q "")).

(** A step of the initialization: from the statements sent so far to an error, if
    any, and the statements sent after it; [f ;; g] returns early on an error. *)
Definition Step : Type := list string -> option error * list string.
Definition andThen (f g : Step) : Step :=
  fun sent => match f sent with (Some e, sent') => (Some e, sent') | (None, sent') => g sent' end.
Declare Scope step_scope.
Delimit Scope step_scope with step.
Notation "f ;; g" := (andThen f g) (at level 100, right associativity) : step_scope.

(** [for ... { if err := f(x); err != nil { return err } }] *)
Fixpoint forEach {A} (f : A -> Step) (l : list A) : Step :=
  match l with
  | [] => fun sent => (None, sent)
  | x :: l' => andThen (f x) (forEach f l')
  end.

Section runner.
Variable exec : nat -> string -> option error.

(** Send statements until one fails; [sent] is what was sent so far. *)
Fixpoint execEach (wrap : string -> string) (stmts : list string) : Step := fun sent =>
  match stmts with
  | [] => (None, sent)
  | s :: stmts' =>
      match exec (length sent) s with
      | Some e => (Some (Wrapped (wrap s) e), sent ++ [s])
      | None => execEach wrap stmts' (sent ++ [s])
      end
  end.

Definition execParts (q : string) : Step :=
  execEach (fun p => "schema init failed on " +:+ truncate p 80) (parts q).

(** A statement whose failure is only logged. *)
Definition execLogged (s : string) : Step := fun sent => (None, sent ++ [s]).

(** What introspection answers for one table. *)
Variable haveIdx : string -> result Z.
Variable matTotal : string -> result Z.
Variable dictProbe : option error.

Definition migrations (table : string) : list string :=
  ["ALTER TABLE " +:+ table +:+ " ADD COLUMN IF NOT EXISTS tags Array(Array(String)) DEFAULT " +:+ tagsDefaultExpr +:+ " AFTER tags_raw";
   "ALTER TABLE " +:+ table +:+ " MODIFY COLUMN tags Array(Array(String)) DEFAULT " +:+ tagsDefaultExpr;
   "ALTER TABLE " +:+ table +:+ " MODIFY COLUMN tag_e Array(String) DEFAULT " +:+ tagEDefaultExpr;
   "ALTER TABLE " +:+ table +:+ " MODIFY COLUMN tag_p Array(String) DEFAULT " +:+ tagPDefaultExpr;
   "ALTER TABLE " +:+ table +:+ " MODIFY COLUMN tag_t Array(String) DEFAULT " +:+ tagTDefaultExpr;
   "ALTER TABLE " +:+ table +:+ " MODIFY COLUMN tag_d String DEFAULT " +:+ tagDDefaultExpr;
   "ALTER TABLE " +:+ table +:+ " ADD INDEX IF NOT EXISTS idx_pubkey pubkey TYPE bloom_filter(0.01) GRANULARITY 4";
   "ALTER TABLE " +:+ table +:+ " DROP INDEX IF EXISTS idx_content"].
Definition materialize (table : string) : string := "ALTER TABLE " +:+ table +:+ " MATERIALIZE INDEX idx_pubkey".
Definition tagsBackfill (table : string) : string :=
  "ALTER TABLE " +:+ table +:+ " UPDATE tags = JSONExtract(tags_raw, 'Array(Array(String))') WHERE empty(tags)".

(** The index is materialized when it was missing or no mutation was ever queued;
    an unreadable system.mutations counts as already queued. *)
Definition needsMaterialize (table : string) (have : Z) : bool :=
  (have =? 0) || (match matTotal table with Ok n => n | Err _ => 1 end =? 0).

Definition migrateTier (tier : string) : Step := fun sent =>
  let table := "events_" +:+ tier in
  match haveIdx table with
  | Err e => (Some (Wrapped ("index introspection failed for " +:+ table) e), sent)
  | Ok have =>
      (execEach (fun d => "schema column/index migration failed on " +:+ truncate d 80) (migrations table) ;;
       forEach execLogged (if needsMaterialize table have then [materialize table] else []) ;;
       execLogged (tagsBackfill table))%step sent
  end.

Definition ttlOf (r : RetentionCfg) (tier : string) : string :=
  if String.eqb tier TierPermanent then Permanent r
  else if String.eqb tier TierArchive then Archive r
  else if String.eqb tier TierSocial then Social r else "".

(** The last check only reads. *)
Definition sanityProbe : Step := fun sent =>
  (match dictProbe with
   | Some e => Some (Wrapped "tombstone dictionary startup sanity probe failed" e)
   | None => None
   end, sent).

Definition initSteps (r : RetentionCfg) : Step :=
  (forEach (fun t => execParts (tierDDL t (ttlOf r t))) activeTiers ;;
   execParts tombstonesDDL ;;
   execParts snapshotsDDL ;;
   execParts feedDDL ;;
   forEach migrateTier activeTiers ;;
   execParts eventsViewDDL ;;
   sanityProbe)%step.
Definition initSchema (r : RetentionCfg) : option error * list string := initSteps r [].

(** The whole script: what is sent when nothing fails. *)
Definition migrationScript (tier : string) : list string :=
  let table := "events_" +:+ tier in
  migrations table ++
  (if needsMaterialize table (match haveIdx table with Ok n => n | Err _ => 0 end) then [materialize table] else []) ++
  [tagsBackfill table].
Definition script (r : RetentionCfg) : list string :=
  concat (map (fun t => parts (tierDDL t (ttlOf r t))) activeTiers) ++
  parts tombstonesDDL ++ parts snapshotsDDL ++ parts feedDDL ++
  concat (map migrationScript activeTiers) ++ parts eventsViewDDL.

(** ** Lemmas *)

(** The step sends a prefix of [l], all of it when it succeeds. *)
Definition runs (f : Step) (l : list string) : Prop :=
  forall sent, exists k, (f sent).2 = sent ++ take k l /\ ((f sent).1 = None -> (f sent).2 = sent ++ l).

Lemma runs_nil f : (forall sent, (f sent).2 = sent) -> runs f [].
Proof. intros H sent. exists 0%nat. simpl. rewrite H, app_nil_r. auto. Qed.

Lemma runs_execEach wrap stmts : runs (execEach wrap stmts) stmts.
Proof.
  induction stmts as [|s stmts IH]; intros sent; simpl; [exists 0%nat; simpl; rewrite app_nil_r; auto|].
  destruct (exec (length sent) s) as [e|]; simpl; [by exists 1%nat|].
  destruct (IH (sent ++ [s])) as (k & Hk & Hall). exists (S k). simpl.
  split; [by rewrite Hk, <-app_assoc|]. intros He. by rewrite (Hall He), <-app_assoc.
Qed.

Lemma runs_andThen f g l1 l2 : runs f l1 -> runs g l2 -> runs (andThen f g) (l1 ++ l2).
Proof.
  intros Hf Hg sent. unfold andThen. destruct (Hf sent) as (k & Hk & Hall).
  destruct (f sent) as [[e|] sent1]; simpl in *.
  - exists (Nat.min k (length l1)). split; [|done]. rewrite take_app_le by lia. rewrite Hk. f_equal.
    destruct (decide (k <= length l1)%nat); [by rewrite Nat.min_l by lia|].
    rewrite Nat.min_r by lia. rewrite !take_ge by lia. done.
  - rewrite (Hall eq_refl). destruct (Hg (sent ++ l1)) as (j & Hj & Hall2). exists (length l1 + j)%nat.
    split; [by rewrite take_app_add, app_assoc|]. intros He. by rewrite (Hall2 He), app_assoc.
Qed.

Lemma runs_forEach {A} (f : A -> Step) (ls : A -> list string) l :
  (forall x, runs (f x) (ls x)) -> runs (forEach f l) (concat (map ls l)).
Proof.
  intros Hf. induction l as [|x l IH]; simpl; [by apply runs_nil|]. by apply runs_andThen.
Qed.

Lemma runs_logged s : runs (execLogged s) [s].
Proof. intros sent. by exists 1%nat. Qed.

Lemma runs_migrateTier tier : runs (migrateTier tier) (migrationScript tier).
Proof.
  intros sent. unfold migrateTier, migrationScript. destruct (haveIdx ("events_" +:+ tier)) as [have|e].
  - revert sent. apply runs_andThen; [apply runs_execEach|]. apply runs_andThen; [|apply runs_logged].
    destruct (needsMaterialize _ have); [|by apply runs_nil].
    exact (runs_forEach execLogged (fun s => [s]) [materialize ("events_" +:+ tier)] runs_logged).
  - exists 0%nat. simpl. split; [by rewrite app_nil_r|done].
Qed.

Lemma runs_initSchema r : exists k, (initSchema r).2 = take k (script r) /\
  ((initSchema r).1 = None -> (initSchema r).2 = script r).
Proof.
  assert (runs (initSteps r) (script r)) as H.
  { unfold script. rewrite <-(app_nil_r (parts eventsViewDDL)).
    repeat (apply runs_andThen; [first [apply runs_execEach|apply runs_forEach; intros; first [apply runs_migrateTier|apply runs_execEach]]|]).
    by apply runs_nil. }
  destruct (H []) as (k & Hk & Hall). exists k. rewrite app_nil_l in Hk, Hall.
  unfold initSchema. split; [exact Hk|exact Hall].
Qed.
End runner.

(** ** Bootstrap of the database *)

Definition identStart (c : Ascii.ascii) : bool :=
  let n := Ascii.nat_of_ascii c in
  bool_decide ((65 <= n <= 90) \/ (97 <= n <= 122) \/ n = 95)%nat.
Definition identChar (c : Ascii.ascii) : bool :=
  identStart c || bool_decide (48 <= Ascii.nat_of_ascii c <= 57)%nat.
Fixpoint allChars (p : Ascii.ascii -> bool) (s : string) : bool :=
  match s with EmptyString => true | String c s' => p c && allChars p s' end.

(** [^[A-Za-z_][A-Za-z0-9_]*$] *)
Definition identifierRe (s : string) : bool :=
  match s with EmptyString => false | String c s' => identStart c && allChars identChar s' end.

(** [open_] and [exec] are the outcomes of the bootstrap connection and its DDL;
    the second component is the statement sent, if any. *)
Definition ensureDatabase (open_ exec : option error) (database : string) : option error * option string :=
  if String.eqb database "" || String.eqb database "default" then (None, None)
  else if negb (identifierRe database) then (Some (Opaque "clickhouse.database is not a valid identifier"), None)
  else match open_ with
       | Some e => (Some (Wrapped "clickhouse open (bootstrap)" e), None)
       | None =>
           let stmt := "CREATE DATABASE IF NOT EXISTS `" +:+ database +:+ "` ENGINE = Atomic" in
           (match exec with Some e => Some (Wrapped "create database" e) | None => None end, Some stmt)
       end.

(** ** Backfill of the feed *)

(** [now] is the server's clock in seconds, [created_at] the column of a row. *)
Definition backfillFeed {A} (created_at : A -> Z) (fcount fins : option error) (now : Z)
    (events_all feed : list A) : option error * list A :=
  match fcount with
  | Some e => (Some e, feed)
  | None =>
      match feed with
      | _ :: _ => (None, feed)
      | [] =>
          match fins with
          | Some e => (Some e, feed)
          | None => (None, filter (fun r => now - feedRetention / Second <= created_at r) events_all)
          end
      end
  end.

Lemma allChars_get p s k c : allChars p s = true -> String.get k s = Some c -> p c = true.
Proof.
  revert k. induction s as [|x s IH]; intros k; simpl; [by destruct k|].
  intros [Hx Hs]%andb_true_iff. destruct k as [|k]; [by intros [= ->]|by apply IH].
Qed.

Lemma identStart_char c : identStart c = true -> identChar c = true.
Proof. unfold identChar. by intros ->. Qed.

(** ** Properties *)

(** Schema initialization runs one fixed script in order. Whatever fails, the
    statements sent are a prefix of the script (the tier tables, the tombstone and
    snapshot and feed tables, each tier's migrations, the view), and a nil result
    means every one of them was sent; with the default retention the script has 42
    statements on a fresh database and 39 on one whose index is already materialized,
    and each of them can be run again. *)
Theorem initSchema_sends_script exec haveIdx matTotal dictProbe r :
  let '(err, sent) := initSchema exec haveIdx matTotal dictProbe r in
  sent `prefix_of` script haveIdx matTotal r /\
  (err = None -> sent = script haveIdx matTotal r) /\
  length (script (fun _ => Ok 0) (fun _ => Ok 0) (cfgRetention defaults)) = 42%nat /\
  length (script (fun _ => Ok 1) (fun _ => Ok 1) (cfgRetention defaults)) = 39%nat /\
  Forall (fun s => existsb (fun k => contains k s)
            ["IF NOT EXISTS"; "IF EXISTS"; "OR REPLACE"; "MODIFY COLUMN"; "MATERIALIZE INDEX"; "UPDATE tags"] = true)
    (script (fun _ => Ok 0) (fun _ => Ok 0) (cfgRetention defaults)).
Proof.
  destruct (runs_initSchema exec haveIdx matTotal dictProbe r) as (k & Hk & Hall).
  destruct (initSchema exec haveIdx matTotal dictProbe r) as [err sent]. cbn [fst snd] in *.
  split; [rewrite Hk; apply prefix_take|]. split; [exact Hall|].
  split; [vm_compute; reflexivity|]. split; [vm_compute; reflexivity|].
  apply (bool_decide_unpack _). vm_compute. exact I.
Qed.

(** No name reaches the bootstrap DDL unless it is an identifier. When
    [ensureDatabase] sends a statement, every character of the configured name is a
    letter, a digit or an underscore, so the name cannot end the quoted identifier;
    any other name is refused with an error and nothing is sent. *)
Theorem ensureDatabase_sends_identifiers_only open_ exec db err stmt :
  ensureDatabase open_ exec db = (err, stmt) ->
  (stmt ≠ None -> stmt = Some ("CREATE DATABASE IF NOT EXISTS `" +:+ db +:+ "` ENGINE = Atomic") /\
     db ≠ "" /\ forall k c, String.get k db = Some c -> identChar c = true) /\
  ((exists k c, String.get k db = Some c /\ identChar c = false) -> stmt = None /\ err ≠ None).
Proof.
  unfold ensureDatabase. destruct (String.eqb_spec db "") as [->|Hne]; simpl.
  { intros [= <- <-]. split; [done|]. intros (k & c & Hk & _). by destruct k. }
  destruct (String.eqb_spec db "default") as [->|Hnd].
  { intros [= <- <-]. split; [done|]. intros (k & c & Hk & Hc).
    pose proof (allChars_get identChar "default" k c eq_refl Hk). congruence. }
  destruct (identifierRe db) eqn:Hre; simpl.
  - assert (allChars identChar db = true) as Hall.
    { destruct db as [|c s]; [done|]. simpl in *. apply andb_true_iff in Hre as [H1 H2].
      by rewrite (identStart_char c H1), H2. }
    assert (~ exists k c, String.get k db = Some c /\ identChar c = false) as Hno.
    { intros (k & c & Hk & Hc). pose proof (allChars_get _ _ k c Hall Hk). congruence. }
    destruct open_; intros [= <- <-]; (split; [|done]); [done|].
    intros _. split_and!; [done|done|]. intros k c. by apply allChars_get.
  - intros [= <- <-]. done.
Qed.

Lemma ensureDatabase_sends_identifiers_only_witness :
  ensureDatabase None None "archive_relay" =
    (None, Some "CREATE DATABASE IF NOT EXISTS `archive_relay` ENGINE = Atomic") /\
  (ensureDatabase None None "x`; DROP DATABASE y").2 = None.
Proof.
  split; [reflexivity|].
  destruct (ensureDatabase None None "x`; DROP DATABASE y") as [err stmt] eqn:E.
  apply (ensureDatabase_sends_identifiers_only None None "x`; DROP DATABASE y" err stmt E).
  exists 1%nat, (Ascii.ascii_of_nat 96). split; reflexivity.
Defined.

(** The feed window is complete after the backfill. On an empty feed table a
    successful backfill copies exactly the tier rows of the retention window, whatever
    filter a feed read applies to that window; a table that already has rows is left
    alone. *)
Theorem backfill_completes_window now events_all feed feed' :
  backfillFeed row_created_at None None now events_all feed = (None, feed') ->
  (feed = [] -> forall r, now - 7 * 24 * 3600 <= row_created_at r -> r ∈ feed' <-> r ∈ events_all) /\
  (feed = [] -> forall r, r ∈ feed' -> now - 7 * 24 * 3600 <= row_created_at r) /\
  (feed ≠ [] -> feed' = feed).
Proof.
  unfold backfillFeed. change (feedRetention / Second) with (7 * 24 * 3600).
  destruct feed as [|r0 feed]; intros [= <-]; (split_and!; [intros ?|intros ?|intros ?]); try done.
  - intros r Hr. rewrite list_elem_of_filter. tauto.
  - intros r [? _]%list_elem_of_filter. done.
Qed.

Lemma backfill_completes_window_witness :
  let r := mkRow "a" "bob" 1000000 1 "" "" "" [] "" in
  r ∈ (backfillFeed row_created_at None None 1000100 [r] []).2.
Proof.
  intros r. apply (backfill_completes_window 1000100 [r] [] (backfillFeed row_created_at None None 1000100 [r] []).2 eq_refl).
  - reflexivity.
  - simpl. lia.
  - by apply list_elem_of_singleton.
Defined.

(** The column lists agree. Every column of the INSERT list and of the SELECT list
    is declared by the tier tables and by the feed table, and a read selects, in INSERT
    order, everything but the rollback copy of the tags and the reply parent. *)
Theorem columns_agree :
  let cols := map TrimSpace (splitOn (Ascii.ascii_of_nat 44) tierColumns "") in
  let reads := map TrimSpace (splitOn (Ascii.ascii_of_nat 44) readColumns "") in
  length cols = 9%nat /\ reads = filter (fun c => c ∉ ["tags_raw"; "reply_to"]) cols /\
  Forall (fun c => contains ("
  " +:+ c +:+ " ") tierColumnsType = true /\ contains ("
  " +:+ c +:+ " ") tierColumnsTypeNoIndexes = true) cols.
Proof.
  cbv zeta. split; [vm_compute; reflexivity|]. split; [vm_compute; reflexivity|].
  apply (bool_decide_unpack _). vm_compute. exact I.
Qed.
