(* ===== verification/TierWriter.v ===== *)
(** * What a tier promises the store

    [TierWriter] is the interface between the store (store.go) and one tier's
    batcher (batcher.go): accept an event or refuse it, flush on request, and
    what the callers rely on. The batcher's state machine is an instance, so the
    store's theorems hold for it whatever its schedule. *)

From S2P Require Import Prelude Nostr Config Batcher.

(** [W]: state of the tier; [E]: what the environment decides during a flush. *)
Class TierWriter (W E : Type) := {
  tier_enqueue : Event -> W -> option error * W;
  tier_flush : E -> W -> option error * W;
  tier_table : W -> list Event;            (* rows in events_<tier> *)
  tier_held : W -> list Event;             (* rows accepted, stored or not *)
  tier_ok : W -> Prop;
  tier_evolves : W -> W -> Prop;           (* what the tier may do on its own *)

  tier_enqueue_ok : forall evt w, tier_ok w ->
    tier_ok (tier_enqueue evt w).2 /\
    tier_table (tier_enqueue evt w).2 = tier_table w /\
    tier_held w ⊆ tier_held (tier_enqueue evt w).2 /\
    tier_held (tier_enqueue evt w).2 ⊆ evt :: tier_held w /\
    ((tier_enqueue evt w).1 = None -> evt ∈ tier_held (tier_enqueue evt w).2);
  tier_flush_ok : forall env w, tier_ok w ->
    tier_ok (tier_flush env w).2 /\
    tier_table w ⊆ tier_table (tier_flush env w).2 /\
    tier_held w ⊆ tier_held (tier_flush env w).2 /\
    ((tier_flush env w).1 = None -> tier_held w ⊆ tier_table (tier_flush env w).2);
  tier_evolves_ok : forall w w', tier_ok w -> tier_evolves w w' ->
    tier_ok w' /\ tier_table w ⊆ tier_table w' /\ tier_held w ⊆ tier_held w';
  tier_table_held : forall w, tier_ok w -> tier_table w ⊆ tier_held w;
}.

(** ** The batcher is a tier writer *)

Section batcher_writer.
Variable maxSize : nat.
Hypothesis Hmax : (1 <= maxSize)%nat.

(** [FlushAll] run against the worker: a new reply channel is sent, [ls] is what
    every goroutine of the tier does until the caller returns. *)
Definition batcherFlush (ls : list Label) (b : Batcher) : option error * Batcher :=
  let r := fresh (list_to_set (requests b) : gset nat) in
  if stop b then (FlushAll true SendStopped WaitStopped, b)
  else match step maxSize (LRequest r) b with
       | None => (FlushAll false SendTimeout WaitTimeout, b)
       | Some b1 =>
           match run maxSize ls b1 with
           | None => (FlushAll false SendOk WaitTimeout, b1)
           | Some b2 =>
               match snd <$> find (fun a => Nat.eqb a.1 r) (answers b2) with
               | Some err => (FlushAll false SendOk (WaitReply err), b2)
               | None => (FlushAll false SendOk (if stop b2 then WaitStopped else WaitTimeout), b2)
               end
           end
       end.

(** A turn only appends to the table and to the calls of [onFlushed]. *)
Definition extends (b b' : Batcher) : Prop :=
  table b `prefix_of` table b' /\ flushedCalls b `prefix_of` flushedCalls b'.

#[local] Instance extends_pre : PreOrder extends.
Proof. split; [by split|]. intros b1 b2 b3 [H1 H2] [H3 H4]. split; by etrans. Qed.

Lemma sendOne_extends o b : extends b (sendOne maxSize o b).2.
Proof. destruct o; simpl; (split; [|done || by eexists]); try done; by eexists. Qed.

Lemma step_extends l b b' : step maxSize l b = Some b' -> extends b b'.
Proof.
  assert (forall b0, extends b0 (attemptTail b0)) as Htail by (intros b0; unfold attemptTail; by cases).
  assert (forall o b0, extends b0 (attempt maxSize o b0)) as Hatt.
  { intros o b0. unfold attempt. destruct (pending (w b0)); [apply Htail|].
    pose proof (sendOne_extends o b0) as H. destruct (sendOne maxSize o b0) as [[err|] b1]; [exact H|].
    etrans; [exact H|]. apply (Htail (set_fails 0 b1)). }
  assert (forall fuel sends k b0, extends b0 (finalFlush maxSize fuel sends k b0).2) as Hfin.
  { intros fuel. induction fuel as [|fuel IH]; intros sends k b0; simpl; [done|].
    set (b1 := match pending (w b0) with [] => _ | _ => _ end).
    assert (extends b0 b1) as H1 by (unfold b1; by case_match).
    destruct (pending (w b1)); [done|]. pose proof (sendOne_extends (sends k) b1) as H2.
    destruct (sendOne maxSize (sends k) b1) as [[err|] b2]; [by etrans|]. etrans; [exact H1|].
    etrans; [exact H2|]. apply IH. }
  assert (forall o b0, extends b b0 -> extends b (attempt maxSize o b0)) as Hatt'
    by (intros o b0 H; etrans; [exact H|apply Hatt]).
  intros Hs. destruct l; simpl in Hs.
  - simplify_eq. unfold enqueue. by cases.
  - cases; by simplify_eq.
  - by simplify_eq.
  - destruct (state (w b)), (inq b); try done. case_decide; simplify_eq; [|done]. by apply Hatt'.
  - destruct (state (w b)); simplify_eq. by apply Hatt'.
  - destruct (state (w b)), (flushReq b); simplify_eq; destruct (pending (w b)); by apply Hatt'.
  - destruct (state (w b)), (retryC (w b)); simplify_eq; apply Hatt.
  - destruct (state (w b)), (stop b); simplify_eq; unfold onStop;
      pose proof (Hfin (S (length (waiting b))) sends 0%nat b);
      destruct (finalFlush maxSize _ sends 0 b); done.
Qed.

Lemma table_mono l b b' : step maxSize l b = Some b' -> table b ⊆ table b'.
Proof. intros [[k ->] _]%step_extends x Hx. apply elem_of_app. by left. Qed.

Lemma run_mono ls b b' :
  Inv maxSize b -> run maxSize ls b = Some b' ->
  Inv maxSize b' /\ table b ⊆ table b' /\ ledger b ⊆ ledger b'.
Proof.
  intros HI Hrun. destruct (run_ok maxSize Hmax ls b b' HI Hrun) as (HI' & EL & _).
  split_and!; [done| |rewrite EL; set_solver].
  clear EL HI'. revert b HI Hrun. induction ls as [|l ls IH]; intros b HI Hrun; simpl in Hrun; [by simplify_eq|].
  destruct (step maxSize l b) as [b1|] eqn:E; [|done]. etrans; [by eapply table_mono|].
  apply IH; [|done]. by apply (step_ok maxSize Hmax l b b1 HI E).
Qed.

Lemma find_answer (r : nat) (l : list (nat * option error)) e :
  snd <$> find (fun a => Nat.eqb a.1 r) l = Some e -> (r, e) ∈ l.
Proof.
  destruct (find _ l) as [[r' e']|] eqn:E; [|done]. intros [= <-].
  apply find_some in E as [Hin Heq%Nat.eqb_eq]. simpl in Heq. subst r'. by apply list_elem_of_In.
Qed.

#[global] Instance Batcher_TierWriter : TierWriter Batcher (list Label).
Proof.
  refine {|
    tier_enqueue := enqueue maxSize;
    tier_flush := batcherFlush;
    tier_table := table;
    tier_held := ledger;
    tier_ok := Inv maxSize;
    tier_evolves := fun b b' => exists ls, run maxSize ls b = Some b';
  |}.
  - intros evt b HI. pose proof (enqueue_ok maxSize Hmax evt b HI) as (HI' & EL & _).
    split; [done|]. split; [unfold enqueue; by cases|].
    rewrite EL. unfold accepted. destruct (enqueue maxSize evt b).1; set_solver.
  - intros ls b HI. unfold batcherFlush. set (r := fresh _).
    destruct (stop b); [done|].
    destruct (step maxSize (LRequest r) b) as [b1|] eqn:E1; [|done].
    pose proof (step_ok maxSize Hmax _ _ _ HI E1) as (HI1 & EL1 & _).
    pose proof (table_mono _ _ _ E1) as Ht1. simpl in EL1. rewrite app_nil_r in EL1.
    destruct (run maxSize ls b1) as [b2|] eqn:E2; [|simpl; rewrite EL1; done].
    destruct (run_mono ls b1 b2 HI1 E2) as (HI2 & Ht2 & Hl2). rewrite EL1 in Hl2.
    assert (table b ⊆ table b2) by (etrans; done).
    destruct (snd <$> find _ (answers b2)) as [err|] eqn:Ea; [|by destruct (stop b2)].
    simpl. split_and!; try done. intros ->. apply find_answer in Ea.
    assert (covered r (length (ledger b)) b) as Hc.
    { pose proof (is_fresh (list_to_set (requests b) : gset nat)) as Hfr. fold r in Hfr.
      rewrite elem_of_list_to_set in Hfr. unfold requests in Hfr. rewrite !not_elem_of_app in Hfr.
      split_and!; [done|naive_solver|]. intros Hin%(list_elem_of_fmap_2 fst). naive_solver. }
    pose proof (run_covered maxSize Hmax ls r _ b1 b2 HI1 E2
                  (step_covered maxSize Hmax _ _ _ _ _ HI E1 Hc)) as (_ & _ & Hlen).
    destruct (run_ok maxSize Hmax ls b1 b2 HI1 E2) as (_ & EL2 & _). rewrite EL1 in EL2.
    pose proof (prefix_of_ledger b b2 _ EL2 (Hlen Ea)) as [k Hk].
    intros x Hx. apply (inv_acked maxSize b2 (proj1 HI2)). rewrite Hk. apply elem_of_app. by left.
  - intros b b' HI [ls Hrun]. by apply (run_mono ls).
  - intros b HI x Hx. by apply (inv_table maxSize b (proj1 HI)).
Defined.
End batcher_writer.
