(* ===== verification/Store.v ===== *)
(** * The store (internal/store/store.go)

    [SaveEvent], [DeleteEvent], [FlushAll] and [ReplaceEvent] over the tier
    writers and the tombstone writer, and the system in which any number of these
    calls run concurrently with the workers: each call of [ReplaceEvent] advances
    phase by phase ([RPc]), and [sstep] interleaves the phases of all calls with
    everything else that can happen to the tiers and to the tombstone writer. *)

From S2P Require Import Prelude Nostr Config Classifier Rows FilterSQL Collapse Query.
From S2P Require Import Batcher Tombstone TierWriter.

Section store.
Context {W E : Type} `{!TierWriter W E}.
Variable json_str : string -> string.
Variable cls : gmap Z string.               (* cfg.Classifier *)
Context `{!GoSort row_desc}.

Record Store := mkStore {
  tiers : gmap string W;
  tw : TW;
  retired : list tombstoneReq;    (* ghost: every request pushed to the tombstone writer *)
}.

Definition set_tier (s : Store) (t : string) (b : W) : Store :=
  mkStore (<[t := b]> (tiers s)) (tw s) (retired s).

Definition SaveEvent (evt : Event) (s : Store) : option error * Store :=
  let tier := tierForEvent evt cls in
  if String.eqb tier TierDrop then (Some (Opaque "event kind out of scope"), s)
  else match tiers s !! tier with
       | None => (Some (Opaque "no batcher for tier"), s)
       | Some b => let '(err, b') := tier_enqueue evt b in (err, set_tier s tier b')
       end.

(** [FlushAll]: every tier once, in the order [range] visits the map; the first
    error is returned, the other tiers are flushed all the same. *)
Fixpoint FlushAllTiers (order : list (string * E)) (s : Store) (firstErr : option error)
    : option error * Store :=
  match order with
  | [] => (firstErr, s)
  | (t, env) :: rest =>
      match tiers s !! t with
      | None => FlushAllTiers rest s firstErr
      | Some b =>
          let '(err, b') := tier_flush env b in
          FlushAllTiers rest (set_tier s t b')
            (match firstErr with None => err | Some _ => firstErr end)
      end
  end.

Definition retireIDs (sels : list RetireSel) (rids : list string) (rsn by_ : string) (s : Store)
    : option error * Store :=
  match rids with
  | [] => (None, s)
  | _ :: _ =>
      let '(err, w') := retire sels rids rsn by_ (tw s) in
      (err, mkStore (tiers s) w' (retired s ++ drop (length (tin (tw s))) (tin w')))
  end.

Definition DeleteEvent (sels : list RetireSel) (evt : Event) (s : Store) : option error * Store :=
  retireIDs sels [ID evt] "nip09" (PubKey evt) s.

(** *** ReplaceEvent *)

(** [replaceableRow] *)
Definition replaceableRow : Type := Z * string.     (* created_at, id *)

(** One probe query: [SELECT id, created_at FROM events_t WHERE pubkey=? AND
    kind=? AND NOT dictHas(...) ORDER BY created_at DESC, id ASC LIMIT 50]. [disk] flags
    the inserted rows that merges and retention have left in the table (Engine.v). *)
Definition probeTier (disk : list bool) (evt : Event) (s : Store) (t : string) : list replaceableRow :=
  let rows := match tiers s !! t with
              | Some b => masked disk (map (rowFromEvent json_str) (tier_table b))
              | None => []
              end in
  map row_key
    (take 50 (go_sort row_desc
       (filter (fun r => row_pubkey r = PubKey evt /\ row_kind r = uint32 (Kind evt) /\
                         row_id r ∉ dict (tw s)) rows))).

(** The errors of the probe's queries. *)
Definition probe_error (table : string) (ft : TierFault) : error :=
  match ft with
  | FQuery e => Wrapped ("events_" +:+ table) e
  | _ => fault_error table ft
  end.

Fixpoint probeTiers (fault : string -> option TierFault) (disk : string -> list bool) (evt : Event) (s : Store)
    (ts : list string) : result (list replaceableRow) :=
  match ts with
  | [] => Ok []
  | t :: ts' =>
      match fault t with
      | Some ft => Err (probe_error t ft)
      | None =>
          let? rest := probeTiers fault disk evt s ts' in
          Ok (probeTier (disk t) evt s t ++ rest)
      end
  end.

Definition probeReplaceable (fault : string -> option TierFault) (disk : string -> list bool) (evt : Event)
    (s : Store) : result (list replaceableRow) :=
  probeTiers fault disk evt s
    (tiersForFilter (mkFilter [] [Kind evt] [PubKey evt] [] None None 0) cls).

(** [prevTS < evt.CreatedAt || (prevTS == evt.CreatedAt && p.id > evt.ID)] *)
Definition prevOlder (evt : Event) (p : replaceableRow) : bool :=
  (p.1 <? CreatedAt evt) || ((p.1 =? CreatedAt evt) && String.ltb (ID evt) p.2).

(** The loop over the probed rows: ids to retire, and whether to store. *)
Fixpoint supersede (evt : Event) (prev : list replaceableRow) (retire_ : list string)
    (shouldStore : bool) : list string * bool :=
  match prev with
  | [] => (retire_, shouldStore)
  | p :: ps =>
      if prevOlder evt p then supersede evt ps (retire_ ++ [p.2]) shouldStore
      else supersede evt ps retire_ false
  end.

(** What the environment decides during one call. *)
Record REnv := mkREnv {
  e_flushAll : list (string * E);
  e_admit : option error;                   (* acquireRead *)
  e_fault : string -> option TierFault;     (* the probe queries *)
  e_disk : string -> list bool;             (* the rows they find on disk *)
  e_flush : E;                              (* flush of the new version's tier *)
  e_sels : list RetireSel;
}.

(** [if len(retire) > 0 { s.retireIDs(...) }]; a failure is only logged. *)
Definition retireOld (env : REnv) (evt : Event) (retire_ : list string) (s : Store) : Store :=
  match retire_ with
  | [] => s
  | _ :: _ => (retireIDs (e_sels env) retire_ "replaced" (PubKey evt) s).2
  end.

Definition ReplaceEvent (env : REnv) (evt : Event) (s : Store) : option error * Store :=
  if negb (isReplaceableKind (Kind evt)) then SaveEvent evt s
  else
    let '(_, s1) := FlushAllTiers (e_flushAll env) s None in
    match e_admit env with
    | Some err => (Some (Wrapped "replace probe" err), s1)
    | None =>
        match probeReplaceable (e_fault env) (e_disk env) evt s1 with
        | Err err => (Some (Wrapped "replace query" err), s1)
        | Ok prev =>
            let '(retire_, shouldStore) := supersede evt prev [] true in
            if shouldStore then
              match SaveEvent evt s1 with
              | (Some err, s2) => (Some err, s2)
              | (None, s2) =>
                  let t := tierForEvent evt cls in
                  match tiers s2 !! t with
                  | None => (Some (Opaque "no batcher for tier"), s2)
                  | Some b =>
                      let '(err, b') := tier_flush (e_flush env) b in
                      match err with
                      | Some err => (Some (Wrapped "flush new version before retire" err), set_tier s2 t b')
                      | None => (None, retireOld env evt retire_ (set_tier s2 t b'))
                      end
                  end
              end
            else (None, retireOld env evt retire_ s1)
        end
    end.

(** *** The same call, one observable step at a time *)

Inductive RPc :=
  | PStart
  | PProbe
  | PSave (retire_ : list string) (shouldStore : bool)
  | PFlush (retire_ : list string)
  | PRetire (retire_ : list string)
  | PDone (err : option error).

Definition replacePhase (env : REnv) (evt : Event) (pc : RPc) (s : Store) : RPc * Store :=
  match pc with
  | PStart =>
      if negb (isReplaceableKind (Kind evt)) then
        let '(err, s') := SaveEvent evt s in (PDone err, s')
      else (PProbe, (FlushAllTiers (e_flushAll env) s None).2)
  | PProbe =>
      match e_admit env with
      | Some err => (PDone (Some (Wrapped "replace probe" err)), s)
      | None =>
          match probeReplaceable (e_fault env) (e_disk env) evt s with
          | Err err => (PDone (Some (Wrapped "replace query" err)), s)
          | Ok prev => let '(r, ss) := supersede evt prev [] true in (PSave r ss, s)
          end
      end
  | PSave r ss =>
      if ss then
        match SaveEvent evt s with
        | (Some err, s2) => (PDone (Some err), s2)
        | (None, s2) => (PFlush r, s2)
        end
      else (PRetire r, s)
  | PFlush r =>
      let t := tierForEvent evt cls in
      match tiers s !! t with
      | None => (PDone (Some (Opaque "no batcher for tier")), s)
      | Some b =>
          let '(err, b') := tier_flush (e_flush env) b in
          match err with
          | Some err => (PDone (Some (Wrapped "flush new version before retire" err)), set_tier s t b')
          | None => (PRetire r, set_tier s t b')
          end
      end
  | PRetire r => (PDone None, retireOld env evt r s)
  | PDone err => (PDone err, s)
  end.

Fixpoint phases (n : nat) (env : REnv) (evt : Event) (pc : RPc) (s : Store) : RPc * Store :=
  match n with
  | O => (pc, s)
  | S n' => let '(pc', s') := replacePhase env evt pc s in phases n' env evt pc' s'
  end.

(** Five phases are one call. *)
Lemma ReplaceEvent_phases env evt s :
  phases 5 env evt PStart s =
  (PDone (ReplaceEvent env evt s).1, (ReplaceEvent env evt s).2).
Proof.
  unfold ReplaceEvent. cbn [phases replacePhase].
  destruct (negb (isReplaceableKind (Kind evt))); [by destruct (SaveEvent evt s)|].
  destruct (FlushAllTiers _ s None) as [e1 s1]. cbn [phases replacePhase snd].
  destruct (e_admit env); [done|].
  destruct (probeReplaceable (e_fault env) (e_disk env) evt s1); [|done].
  destruct (supersede evt a [] true) as [r ss]. cbn [phases replacePhase].
  destruct ss; [|done].
  destruct (SaveEvent evt s1) as [[err|] s2]; [done|]. cbn [phases replacePhase].
  destruct (tiers s2 !! tierForEvent evt cls); [|done].
  destruct (tier_flush (e_flush env) _) as [[err|] b']; done.
Qed.

(** ** The concurrent system *)

Record Sys := mkSys { store : Store; rcalls : gmap nat (Event * RPc) }.

Inductive sstep : Sys -> Sys -> Prop :=
  | s_call c evt st cs :
      cs !! c = None ->
      sstep (mkSys st cs) (mkSys st (<[c := (evt, PStart)]> cs))
  | s_phase c env evt pc pc' st st' cs :
      cs !! c = Some (evt, pc) -> replacePhase env evt pc st = (pc', st') ->
      sstep (mkSys st cs) (mkSys st' (<[c := (evt, pc')]> cs))
  | s_save evt st cs :
      sstep (mkSys st cs) (mkSys (SaveEvent evt st).2 cs)
  | s_flush order st cs :
      sstep (mkSys st cs) (mkSys (FlushAllTiers order st None).2 cs)
  | s_delete sels evt st cs :
      sstep (mkSys st cs) (mkSys (DeleteEvent sels evt st).2 cs)
  | s_tier t b b' st cs :
      tiers st !! t = Some b -> tier_evolves b b' ->
      sstep (mkSys st cs) (mkSys (set_tier st t b') cs)
  | s_tomb l w' st cs :
      pushed l = [] -> tstep l (tw st) = Some w' ->
      sstep (mkSys st cs) (mkSys (mkStore (tiers st) w' (retired st)) cs).

Definition initial (y : Sys) : Prop :=
  (forall t b, tiers (store y) !! t = Some b -> tier_ok b) /\
  tw (store y) = newTombstoneWriter /\ retired (store y) = [] /\ rcalls y = ∅.

Definition sreach (y : Sys) : Prop := exists y0, initial y0 /\ rtc sstep y0 y.

(** A row of some tier table. *)
Definition in_tiers (s : Store) (r : Row) : Prop :=
  exists t b evt, tiers s !! t = Some b /\ evt ∈ tier_table b /\ r = rowFromEvent json_str evt.

(** The row of id [i] has been superseded by a stored row of its group. *)
Definition superseded (s : Store) (i : string) : Prop :=
  exists r r', in_tiers s r /\ in_tiers s r' /\ row_id r = i /\
    row_kind r' = row_kind r /\ row_pubkey r' = row_pubkey r /\
    sortDesc_less (row_key r') (row_key r) = true.
End store.
Arguments Store W : clear implicits.
Arguments Sys W : clear implicits.

(** ** Growth: rows and accepted events are never forgotten by the tiers *)

Section store_facts.
Context {W E : Type} `{!TierWriter W E}.
Variable json_str : string -> string.
Variable cls : gmap Z string.
Context `{!GoSort row_desc}.
Implicit Types s st : Store W.

Notation in_tiers := (in_tiers json_str).
Notation superseded := (superseded json_str).

Definition tiers_ok (s : Store W) : Prop := forall t b, tiers s !! t = Some b -> tier_ok b.

Definition grows (s s' : Store W) : Prop :=
  forall t b, tiers s !! t = Some b ->
    exists b', tiers s' !! t = Some b' /\ tier_table b ⊆ tier_table b' /\ tier_held b ⊆ tier_held b'.

#[local] Instance grows_pre : PreOrder grows.
Proof.
  split; [intros s t b Hb; by exists b|].
  intros s1 s2 s3 H1 H2 t b (b2 & Hb2 & ? & ?)%H1. apply H2 in Hb2 as (b3 & ? & ? & ?).
  exists b3. split_and!; [done|by etrans..].
Qed.

Lemma grows_same s s' : tiers s' = tiers s -> grows s s'.
Proof. intros Et t b Hb. exists b. by rewrite Et. Qed.

Lemma set_tier_ok s t b b' :
  tiers_ok s -> tiers s !! t = Some b -> tier_ok b' ->
  tier_table b ⊆ tier_table b' -> tier_held b ⊆ tier_held b' ->
  tiers_ok (set_tier s t b') /\ grows s (set_tier s t b').
Proof.
  intros Hok Hb Hb' Ht Hh. split.
  - intros t' b0. simpl. intros [[-> ->]|[_ H]]%lookup_insert_Some; [done|by eapply Hok].
  - intros t' b0 H. simpl. destruct (decide (t' = t)) as [->|Hne].
    + exists b'. simplify_eq. by rewrite lookup_insert_eq.
    + exists b0. by rewrite lookup_insert_ne.
Qed.

Lemma SaveEvent_ok evt s :
  tiers_ok s -> tiers_ok (SaveEvent cls evt s).2 /\ grows s (SaveEvent cls evt s).2 /\
  tw (SaveEvent cls evt s).2 = tw s /\ retired (SaveEvent cls evt s).2 = retired s /\
  ((SaveEvent cls evt s).1 = None -> exists b, tiers (SaveEvent cls evt s).2 !! tierForEvent evt cls = Some b
     /\ evt ∈ tier_held b).
Proof.
  intros Hok. unfold SaveEvent. case_match; [split_and!; done|].
  destruct (tiers s !! _) as [b|] eqn:Eb; [|split_and!; done].
  pose proof (tier_enqueue_ok evt b (Hok _ _ Eb)) as (H1 & H2 & H3 & _ & H4).
  destruct (tier_enqueue evt b) as [err b']. simpl in *.
  assert (tier_table b ⊆ tier_table b') as H2' by (by rewrite H2).
  destruct (set_tier_ok s _ b b' Hok Eb H1 H2' H3). split_and!; try done.
  intros Hn. exists b'. rewrite lookup_insert_eq. auto.
Qed.

Lemma FlushAllTiers_tw order s e0 : tw (FlushAllTiers order s e0).2 = tw s.
Proof.
  revert s e0. induction order as [|[t env] order IH]; intros s e0; simpl; [done|].
  destruct (tiers s !! t) as [b|]; [|apply IH]. destruct (tier_flush env b). by rewrite IH.
Qed.

Lemma FlushAllTiers_ok order s e0 :
  tiers_ok s -> tiers_ok (FlushAllTiers order s e0).2 /\ grows s (FlushAllTiers order s e0).2 /\
  tw (FlushAllTiers order s e0).2 = tw s /\ retired (FlushAllTiers order s e0).2 = retired s.
Proof.
  revert s e0. induction order as [|[t env] order IH]; intros s e0 Hok; simpl; [done|].
  destruct (tiers s !! t) as [b|] eqn:Eb; [|by apply IH].
  pose proof (tier_flush_ok env b (Hok _ _ Eb)) as (H1 & H2 & H3 & _).
  destruct (tier_flush env b) as [err b']. simpl in *.
  destruct (set_tier_ok s t b b' Hok Eb H1 H2 H3) as [Hok' Hg].
  destruct (IH (set_tier s t b') (match e0 with None => err | Some _ => e0 end) Hok') as (? & ? & ? & ?).
  split_and!; try done. by etrans.
Qed.

(** *** The tombstone side *)

Definition tomb_ok (s : Store W) : Prop :=
  accounted (retired s) (tw s) /\ unclogged (tw s) /\ rooted (tw s).

Lemma retireIDs_ok sels rids rsn by_ s :
  tomb_ok s ->
  let s' := (retireIDs sels rids rsn by_ s).2 in
  tomb_ok s' /\ tiers s' = tiers s /\
  exists k, retired s' = retired s ++ take k (map (fun i => mkReq i rsn by_) rids).
Proof.
  intros (Ha & Hu & Hr). unfold retireIDs. destruct rids as [|i0 rids0] eqn:Er.
  { split_and!; try done. exists 0%nat. simpl. by rewrite app_nil_r. }
  rewrite <-Er. unfold retire. destruct (stopCh (tw s)) eqn:Es.
  { simpl. rewrite drop_all, app_nil_r. split_and!; [done..|]. exists 0%nat. by rewrite app_nil_r. }
  destruct (retire_loop_spec sels rids rsn by_ (tw s)) as [k Hk].
  destruct (retire_loop sels rids rsn by_ (tw s)) as [err w']. simpl in Hk |- *. subst w'.
  destruct (push_all_ok (retired s) (take k (map (fun i => mkReq i rsn by_) rids)) (tw s) Ha Hu Hr)
    as (H1 & H2 & H3 & H4 & H5).
  rewrite H4, drop_app_length. split_and!; try done. by exists k.
Qed.

Lemma DeleteEvent_ok sels evt s :
  tomb_ok s ->
  let s' := (DeleteEvent sels evt s).2 in
  tomb_ok s' /\ tiers s' = tiers s /\
  forall req, req ∈ retired s' -> req ∈ retired s \/ reason req = "nip09".
Proof.
  intros H. destruct (retireIDs_ok sels [ID evt] "nip09" (PubKey evt) s H) as (H1 & H2 & k & H3).
  split_and!; [done..|]. intros req Hreq. unfold DeleteEvent in Hreq. rewrite H3 in Hreq.
  apply elem_of_app in Hreq as [?|Hreq]; [by left|right].
  apply subseteq_take in Hreq. apply list_elem_of_fmap in Hreq as (i & -> & _). done.
Qed.

Lemma in_tiers_grows s s' r : grows s s' -> in_tiers s r -> in_tiers s' r.
Proof.
  intros Hg (t & b & evt & Hb & He & ->). apply Hg in Hb as (b' & Hb' & Ht & _).
  exists t, b', evt. split_and!; [done|by apply Ht|done].
Qed.

Lemma superseded_grows s s' i : grows s s' -> superseded s i -> superseded s' i.
Proof.
  intros Hg (r & r' & H1 & H2 & ?). exists r, r'. split_and!; try tauto; by eapply in_tiers_grows.
Qed.

(** *** The decision of ReplaceEvent *)

Lemma prevOlder_less evt p : prevOlder evt p = sortDesc_less (ev_key evt) p.
Proof.
  unfold prevOlder, sortDesc_less, ev_key. destruct p as [ts i]. simpl.
  destruct (Z.eqb_spec (CreatedAt evt) ts), (Z.eqb_spec ts (CreatedAt evt)); subst; simpl; try done.
  - by rewrite Z.ltb_irrefl.
  - by rewrite orb_false_r.
Qed.

Lemma supersede_spec evt prev ret ss :
  supersede evt prev ret ss =
  (ret ++ map snd (filter (fun p => prevOlder evt p = true) prev),
   ss && forallb (prevOlder evt) prev).
Proof.
  revert ret ss. induction prev as [|p prev IH]; intros ret ss; simpl.
  { by rewrite app_nil_r, andb_true_r. }
  destruct (prevOlder evt p) eqn:Ep; simpl.
  - rewrite IH, filter_cons_True by done. simpl. by rewrite <-app_assoc.
  - rewrite IH, filter_cons_False by (by rewrite Ep). by rewrite andb_false_r.
Qed.

(** The event as its row, for the kinds ReplaceEvent handles. *)
Definition is32 (evt : Event) : Prop := 0 <= CreatedAt evt < 2 ^ 32.

#[local] Instance is32_dec evt : Decision (is32 evt).
Proof. unfold is32. apply _. Defined.

Definition same_group (evt : Event) (r : Row) : Prop :=
  row_kind r = uint32 (Kind evt) /\ row_pubkey r = PubKey evt.

Lemma probeTier_elem disk evt s t p :
  p ∈ probeTier json_str disk evt s t -> exists r, in_tiers s r /\ same_group evt r /\ row_key r = p.
Proof.
  unfold probeTier. intros (r & -> & Hr)%list_elem_of_fmap. apply subseteq_take in Hr.
  rewrite go_sort_elem_of in Hr. apply list_elem_of_filter in Hr as [(H1 & H2 & _) Hr].
  destruct (tiers s !! t) as [b|] eqn:Eb; [|set_solver].
  apply masked_subseteq, list_elem_of_fmap in Hr as (e & -> & He).
  exists (rowFromEvent json_str e). split_and!; [by exists t, b, e|done|done].
Qed.

Lemma probe_elem fault disk evt s prev p :
  probeReplaceable json_str cls fault disk evt s = Ok prev -> p ∈ prev ->
  exists r, in_tiers s r /\ same_group evt r /\ row_key r = p.
Proof.
  unfold probeReplaceable. generalize (tiersForFilter (mkFilter [] [Kind evt] [PubKey evt] [] None None 0) cls).
  intros ts. revert prev. induction ts as [|t ts IH]; intros prev H Hp; simpl in H; [by simplify_eq; set_solver|].
  destruct (fault t); [done|]. destruct (probeTiers _ _ _ _ _ ts) as [rest|] eqn:Er; [|done].
  simplify_eq. apply elem_of_app in Hp as [Hp|Hp]; [by eapply probeTier_elem|by eapply IH].
Qed.

(** [less] is a strict order that a non-less element can be inserted below. *)
Lemma less_trans_r (a b c : Z * string) :
  sortDesc_less a b = false -> sortDesc_less a c = true -> sortDesc_less b c = true.
Proof.
  intros H1 H2. destruct (sortDesc_less b c) eqn:H3; [done|]. exfalso.
  assert (by_less sortDesc_less (fun x : Z * string => x) b a) as R1 by exact H1.
  assert (by_less sortDesc_less (fun x : Z * string => x) c b) as R2 by exact H3.
  pose proof (transitivity R2 R1) as R3. unfold by_less in R3. congruence.
Qed.

(** *** Invariant of the concurrent system *)

Definition loses_to (s : Store W) (evt : Event) (i : string) : Prop :=
  exists r, in_tiers s r /\ same_group evt r /\ row_id r = i /\
    sortDesc_less (ev_key evt) (row_key r) = true.

(** The row of id [i] lost to a stored row, or to an event whose stored timestamp is
    not its own. *)
Definition beaten (s : Store W) (evt : Event) (i : string) : Prop :=
  superseded s i \/ ~ is32 evt /\ loses_to s evt i.

Definition pc_ok (s : Store W) (evt : Event) (pc : RPc) : Prop :=
  match pc with
  | PSave ret ss =>
      (forall i, i ∈ ret -> loses_to s evt i) /\
      (ss = false -> exists r, in_tiers s r /\ same_group evt r /\
                       sortDesc_less (ev_key evt) (row_key r) = false)
  | PFlush ret =>
      (forall i, i ∈ ret -> loses_to s evt i) /\
      exists b, tiers s !! tierForEvent evt cls = Some b /\ evt ∈ tier_held b
  | PRetire ret => forall i, i ∈ ret -> beaten s evt i
  | _ => True
  end.

Lemma loses_to_grows s s' evt i : grows s s' -> loses_to s evt i -> loses_to s' evt i.
Proof. intros Hg (r & H1 & ?). exists r. split; [by eapply in_tiers_grows|done]. Qed.

Lemma beaten_grows s s' evt i : grows s s' -> beaten s evt i -> beaten s' evt i.
Proof. intros Hg [H|[H1 H2]]; [left; by eapply superseded_grows|right; eauto using loses_to_grows]. Qed.

Lemma pc_ok_grows s s' evt pc : grows s s' -> pc_ok s evt pc -> pc_ok s' evt pc.
Proof.
  intros Hg. pose proof (loses_to_grows s s' evt) as HL. destruct pc; simpl; try done.
  - intros [H1 H2]. split; [eauto|]. intros (r & H3 & ?)%H2. exists r. split; [by eapply in_tiers_grows|done].
  - intros [H1 (b & Hb & He)]. split; [eauto|]. apply Hg in Hb as (b' & Hb' & _ & Hh). eauto.
  - intros H i Hi. eapply beaten_grows; eauto.
Qed.

Lemma row_key_32 evt : is32 evt -> row_key (rowFromEvent json_str evt) = ev_key evt.
Proof. intros H. unfold row_key, ev_key, rowFromEvent. simpl. by rewrite uint32_id. Qed.

(** A row that beats [evt]'s losers supersedes them. *)
Lemma loses_superseded s evt r i :
  in_tiers s r -> same_group evt r -> sortDesc_less (ev_key evt) (row_key r) = false ->
  loses_to s evt i -> superseded s i.
Proof.
  intros Hr [Hk Hp] Hless (r0 & Hr0 & [Hk0 Hp0] & Hi & Hl). exists r0, r.
  split_and!; try done; [congruence..|]. by eapply less_trans_r.
Qed.

Lemma less_irrefl k : sortDesc_less k k = false.
Proof.
  unfold sortDesc_less. rewrite Z.eqb_refl. simpl. apply ltb_leb. reflexivity.
Qed.

Lemma probe_pc_ok fault disk s evt prev :
  probeReplaceable json_str cls fault disk evt s = Ok prev ->
  pc_ok s evt (let '(ret, ss) := supersede evt prev [] true in PSave ret ss).
Proof.
  intros Hp. rewrite supersede_spec. simpl. split.
  - intros i (p & -> & [Ho Hin]%list_elem_of_filter)%list_elem_of_fmap.
    destruct (probe_elem fault disk evt s prev p Hp Hin) as (r & Hr & Hg & <-).
    exists r. rewrite prevOlder_less in Ho. done.
  - intros Hf. apply not_true_iff_false in Hf. rewrite forallb_forall in Hf.
    assert (exists p, p ∈ prev /\ prevOlder evt p = false) as (p & Hin & Ho).
    { destruct (decide (Exists (fun p => prevOlder evt p = false) prev)) as [HE|HE].
      - apply Exists_exists in HE as (p & ? & ?). eauto.
      - exfalso. apply Hf. intros p Hin%list_elem_of_In. destruct (prevOlder evt p) eqn:Eo; [done|].
        exfalso. apply HE, Exists_exists. eauto. }
    destruct (probe_elem fault disk evt s prev p Hp Hin) as (r & Hr & Hg & <-).
    exists r. rewrite prevOlder_less in Ho. done.
Qed.

(** *** One whole call *)

Definition sound (s : Store W) : Prop := tiers_ok s /\ tomb_ok s.

Lemma sound_same s s' : sound s -> tiers_ok s' -> tw s' = tw s -> retired s' = retired s -> sound s'.
Proof. intros [_ Ht] Hok Etw Er. split; [done|]. unfold tomb_ok. by rewrite Etw, Er. Qed.

Lemma SaveEvent_sound evt s : sound s -> sound (SaveEvent cls evt s).2 /\ grows s (SaveEvent cls evt s).2.
Proof. intros Hs. destruct (SaveEvent_ok evt s (proj1 Hs)) as (? & ? & ? & ? & _). split; [by eapply sound_same|done]. Qed.

Lemma phase_sound env evt pc s :
  sound s -> let s' := (replacePhase json_str cls env evt pc s).2 in sound s' /\ grows s s'.
Proof.
  intros Hs. pose proof Hs as [Hok Ht]. pose proof (SaveEvent_sound evt s Hs) as Hsave. destruct pc; simpl; try done.
  - destruct (negb _); [by destruct (SaveEvent cls evt s)|].
    destruct (FlushAllTiers_ok (e_flushAll env) s None Hok) as (? & ? & ? & ?). split; [by eapply sound_same|done].
  - destruct (e_admit env); [done|]. destruct (probeReplaceable _ _ _ _ _ _) as [prev|]; [|done].
    by destruct (supersede evt prev [] true).
  - destruct shouldStore; [|done]. by destruct (SaveEvent cls evt s) as [[err|] s2].
  - destruct (tiers s !! tierForEvent evt cls) as [b|] eqn:Eb; [|done].
    pose proof (tier_flush_ok (e_flush env) b (Hok _ _ Eb)) as (G1 & G2 & G3 & _).
    destruct (tier_flush (e_flush env) b) as [err b']. simpl in *.
    destruct (set_tier_ok s _ b b' Hok Eb G1 G2 G3) as [Hok' Hg].
    by destruct err; (split; [eapply sound_same|]).
  - unfold retireOld. destruct retire_ as [|i ret]; [done|].
    destruct (retireIDs_ok (e_sels env) (i :: ret) "replaced" (PubKey evt) s Ht) as (Ht' & Et & _).
    split; [|by apply grows_same]. split; [|done]. intros t b Hb. rewrite Et in Hb. eauto.
Qed.

(** What one phase leaves to know: the next one, and the tombstones it requests. *)
Definition phase_post (evt : Event) (s s' : Store W) (pc' : RPc) : Prop :=
  pc_ok s' evt pc' /\
  forall req, req ∈ retired s' -> reason req = "replaced" -> req ∈ retired s \/ beaten s' evt (id req).

Lemma phase_post_same evt s s' pc' : retired s' = retired s -> pc_ok s' evt pc' -> phase_post evt s s' pc'.
Proof. intros Er Hpc. split; [done|]. intros req. rewrite Er. by left. Qed.

Lemma retire_phase_ok sels ret by_ evt s :
  sound s -> (forall i, i ∈ ret -> beaten s evt i) ->
  phase_post evt s (retireIDs sels ret "replaced" by_ s).2 (PDone None).
Proof.
  intros [_ H2] Hret. destruct (retireIDs_ok sels ret "replaced" by_ s H2) as (_ & Et & k & Er).
  split; [done|]. intros req Hreq _. rewrite Er in Hreq.
  apply elem_of_app in Hreq as [Hreq|Hreq]; [by left|right].
  apply subseteq_take, list_elem_of_fmap in Hreq as (i & -> & Hi).
  eapply beaten_grows; [by apply grows_same|]. by apply Hret.
Qed.

Lemma flush_phase_ok env evt ret s b :
  sound s -> pc_ok s evt (PFlush ret) -> tiers s !! tierForEvent evt cls = Some b ->
  (tier_flush env b).1 = None -> pc_ok (set_tier s (tierForEvent evt cls) (tier_flush env b).2) evt (PRetire ret).
Proof.
  intros Hs [Hl (b0 & Hb0 & He)] Hb. assert (b0 = b) as -> by congruence. clear Hb0.
  pose proof (tier_flush_ok env b (proj1 Hs _ _ Hb)) as (G1 & G2 & G3 & G4).
  destruct (tier_flush env b) as [err b']. simpl in G1, G2, G3, G4.
  destruct (set_tier_ok s _ b b' (proj1 Hs) Hb G1 G2 G3) as [Hok Hg].
  intros Hn i Hi. apply Hl, (loses_to_grows _ _ _ _ Hg) in Hi.
  destruct (decide (is32 evt)) as [H32|H32]; [left|by right].
  apply (loses_superseded _ evt (rowFromEvent json_str evt)); [|done| |done].
  - exists (tierForEvent evt cls), b', evt. simpl. rewrite lookup_insert_eq. split_and!; [done| |done].
    by apply (G4 Hn).
  - rewrite row_key_32 by done. apply less_irrefl.
Qed.

Lemma phase_ok env evt pc s :
  sound s -> pc_ok s evt pc ->
  let '(pc', s') := replacePhase json_str cls env evt pc s in phase_post evt s s' pc'.
Proof.
  intros Hs Hpc. pose proof Hs as [Hok _]. destruct pc; simpl.
  - pose proof (SaveEvent_ok evt s Hok) as (_ & _ & _ & G4 & _).
    pose proof (FlushAllTiers_ok (e_flushAll env) s None Hok) as (_ & _ & _ & G4').
    destruct (negb _); [destruct (SaveEvent cls evt s)|]; by apply phase_post_same.
  - destruct (e_admit env); [by apply phase_post_same|].
    destruct (probeReplaceable _ _ _ _ _ _) as [prev|] eqn:Ep; [|by apply phase_post_same].
    pose proof (probe_pc_ok _ _ _ _ _ Ep) as Hpc'. destruct (supersede evt prev [] true).
    by apply phase_post_same.
  - destruct Hpc as [Hl Hn]. destruct shouldStore.
    + pose proof (SaveEvent_ok evt s Hok) as (_ & G2 & _ & G4 & G5).
      destruct (SaveEvent cls evt s) as [[err|] s2]; apply phase_post_same; try done.
      split; [|by apply G5]. intros i Hi. eapply loses_to_grows; eauto.
    + apply phase_post_same; [done|]. intros i Hi. left. destruct (Hn eq_refl) as (r & ? & ? & ?).
      eapply loses_superseded; eauto.
  - pose proof Hpc as [_ (b & Hb & _)]. rewrite Hb.
    pose proof (flush_phase_ok (e_flush env) evt retire_ s b Hs Hpc Hb) as H.
    destruct (tier_flush (e_flush env) b) as [[err|] b']; by apply phase_post_same; auto.
  - unfold retireOld. destruct retire_ as [|i0 ret]; [by apply phase_post_same|]. by apply retire_phase_ok.
  - by apply phase_post_same.
Qed.

Lemma retireOld_tiers (env : REnv (E := E)) evt ret s : tomb_ok s -> tiers (retireOld env evt ret s) = tiers s.
Proof.
  intros Ht. unfold retireOld. destruct ret as [|i ret]; [done|].
  by destruct (retireIDs_ok (e_sels env) (i :: ret) "replaced" (PubKey evt) s Ht) as (_ & ? & _).
Qed.

Lemma phases_sound n env evt pc s :
  sound s -> let s' := (phases json_str cls n env evt pc s).2 in sound s' /\ grows s s'.
Proof.
  revert pc s. induction n as [|n IH]; intros pc s Hs; simpl; [done|].
  pose proof (phase_sound env evt pc s Hs) as H. destruct (replacePhase json_str cls env evt pc s) as [pc1 s1].
  destruct H as [Hs1 Hg]. destruct (IH pc1 s1 Hs1) as [Hs' Hg']. split; [done|by etrans].
Qed.

Lemma ReplaceEvent_sound env evt s :
  sound s -> sound (ReplaceEvent json_str cls env evt s).2 /\ grows s (ReplaceEvent json_str cls env evt s).2.
Proof.
  intros Hs. pose proof (phases_sound 5 env evt PStart s Hs) as H. by rewrite ReplaceEvent_phases in H.
Qed.

(** The event is stored, or a stored row of its group is not older. *)
Lemma ReplaceEvent_durable env evt s s' :
  tiers_ok s -> tomb_ok s -> isReplaceableKind (Kind evt) = true ->
  ReplaceEvent json_str cls env evt s = (None, s') ->
  (exists b, tiers s' !! tierForEvent evt cls = Some b /\ evt ∈ tier_table b) \/
  exists r, in_tiers s' r /\ same_group evt r /\ sortDesc_less (ev_key evt) (row_key r) = false.
Proof.
  intros Hok Ht Hk. unfold ReplaceEvent. rewrite Hk. cbn [negb].
  destruct (FlushAllTiers_ok (e_flushAll env) s None Hok) as (Hok1 & _ & Etw & Er).
  destruct (FlushAllTiers (e_flushAll env) s None) as [e1 s1]. cbn [snd] in *.
  destruct (e_admit env); [done|].
  destruct (probeReplaceable json_str cls (e_fault env) (e_disk env) evt s1) as [prev|] eqn:Ep; [|done].
  pose proof (probe_pc_ok _ _ _ _ _ Ep) as Hpc.
  destruct (supersede evt prev [] true) as [ret ss]. destruct Hpc as [_ Hss].
  assert (tomb_ok s1) as Ht1 by (unfold tomb_ok; by rewrite Etw, Er).
  destruct ss.
  2: { intros [= <-]. right. destruct (Hss eq_refl) as (r & Hr & H). exists r. split; [|done].
       eapply in_tiers_grows; [apply grows_same, retireOld_tiers; exact Ht1|done]. }
  pose proof (SaveEvent_ok evt s1 Hok1) as (Hok2 & _ & Etw2 & Er2 & Hheld).
  destruct (SaveEvent cls evt s1) as [[err|] s2]; [done|]. cbn [fst snd] in *.
  destruct (Hheld eq_refl) as (b & Hb & He). rewrite Hb.
  pose proof (tier_flush_ok (e_flush env) b (Hok2 _ _ Hb)) as (_ & _ & _ & G4).
  destruct (tier_flush (e_flush env) b) as [[err|] b']; [done|]. cbn [fst snd] in *.
  intros [= <-]. left. exists b'. rewrite retireOld_tiers.
  - simpl. rewrite lookup_insert_eq. split; [done|]. by apply (G4 eq_refl).
  - unfold tomb_ok. simpl. by rewrite Etw2, Er2.
Qed.

(** A "replaced" tombstone was requested for a row that had lost to a stored row, or by a
    call whose event has a timestamp that does not survive storage. *)
Definition sys_ok (y : Sys W) : Prop :=
  sound (store y) /\
  (forall req, req ∈ retired (store y) -> reason req = "replaced" ->
     superseded (store y) (id req) \/ exists c evt pc, rcalls y !! c = Some (evt, pc) /\ beaten (store y) evt (id req)) /\
  forall c evt pc, rcalls y !! c = Some (evt, pc) -> pc_ok (store y) evt pc.

Lemma sys_ok_grow st st' cs :
  sys_ok (mkSys st cs) -> sound st' -> grows st st' ->
  (forall req, req ∈ retired st' -> reason req = "replaced" -> req ∈ retired st) -> sys_ok (mkSys st' cs).
Proof.
  intros (_ & Hr & Hc) Hs Hg Hret. split_and!; [done| |]; simpl in *.
  - intros req Hreq Hrs. destruct (Hr req (Hret req Hreq Hrs) Hrs) as [H|(c & evt & pc & H1 & H2)].
    + left. by eapply superseded_grows.
    + right. exists c, evt, pc. split; [done|by eapply beaten_grows].
  - intros c evt pc H%Hc. by eapply pc_ok_grows.
Qed.

Lemma sys_ok_phase c env evt pc st cs :
  sys_ok (mkSys st cs) -> cs !! c = Some (evt, pc) ->
  sys_ok (mkSys (replacePhase json_str cls env evt pc st).2
            (<[c := (evt, (replacePhase json_str cls env evt pc st).1)]> cs)).
Proof.
  intros (Hs & Hr & Hc) Hl. simpl in *. pose proof (phase_sound env evt pc st Hs) as [Hs' Hg].
  pose proof (phase_ok env evt pc st Hs (Hc _ _ _ Hl)) as Hp.
  destruct (replacePhase json_str cls env evt pc st) as [pc' st']. destruct Hp as [Hpc' Hret]. simpl in *.
  split_and!; [done| |]; simpl.
  - intros req Hreq Hrs. destruct (Hret req Hreq Hrs) as [Hin|Hb].
    + destruct (Hr req Hin Hrs) as [H|(c0 & evt0 & pc0 & H1 & H2)]; [left; by eapply superseded_grows|right].
      apply (beaten_grows _ _ _ _ Hg) in H2. destruct (decide (c0 = c)) as [->|Hne].
      * exists c, evt, pc'. rewrite lookup_insert_eq. by simplify_eq.
      * exists c0, evt0, pc0. by rewrite lookup_insert_ne.
    + right. exists c, evt, pc'. by rewrite lookup_insert_eq.
  - intros c' evt' pc0 [[-> ?]|[_ H']]%lookup_insert_Some; [by simplify_eq|].
    eapply pc_ok_grows; [exact Hg|eauto].
Qed.

Lemma sstep_ok y y' : sys_ok y -> sstep json_str cls y y' -> sys_ok y'.
Proof.
  intros Hy Hstep. pose proof Hy as (Hs & Hr & Hc). pose proof Hs as (Hok & Ht). destruct Hstep; simpl in *.
  - split_and!; [done| |]; simpl.
    + intros req Hreq Hrs. destruct (Hr req Hreq Hrs) as [?|(c0 & evt0 & pc0 & H1 & H2)]; [by left|right].
      exists c0, evt0, pc0. rewrite lookup_insert_ne; [done|congruence].
    + intros c' evt' pc' [[-> ?]|[_ H']]%lookup_insert_Some; [by simplify_eq|eauto].
  - pose proof (sys_ok_phase c env evt pc st cs Hy H) as H'. by rewrite H0 in H'.
  - destruct (SaveEvent_sound evt st Hs) as [H1 H2]. destruct (SaveEvent_ok evt st Hok) as (_ & _ & _ & Er & _).
    eapply sys_ok_grow; [done..|]. intros req. by rewrite Er.
  - pose proof (FlushAllTiers_ok order st None Hok) as (? & ? & ? & Er).
    eapply sys_ok_grow; [done|by eapply sound_same|done|]. intros req. by rewrite Er.
  - destruct (DeleteEvent_ok sels evt st Ht) as (H1 & H2 & H3).
    eapply sys_ok_grow; [done| |by apply grows_same|].
    + split; [|done]. intros t b Hb. rewrite H2 in Hb. eauto.
    + intros req [?|Hn]%H3 Hrs; [done|congruence].
  - pose proof (tier_evolves_ok b b' (Hok _ _ H) H0) as (G1 & G2 & G3).
    destruct (set_tier_ok st t b b' Hok H G1 G2 G3).
    eapply sys_ok_grow; [done|by eapply sound_same|done|done].
  - destruct Ht as (Ha & Hu & Hro). destruct (tstep_ok _ _ _ _ Ha Hu H0) as [Ha' Hu'].
    rewrite H, app_nil_r in Ha'. eapply sys_ok_grow; [done| |by apply grows_same|done].
    split; [done|]. split_and!; [done..|]. by eapply tstep_rooted.
Qed.

Lemma sreach_ok y : sreach json_str cls y -> sys_ok y.
Proof.
  intros (y0 & (H1 & H2 & H3 & H4) & Hsteps). assert (sys_ok y0) as H0.
  { destruct new_ok. split_and!; [split; [done|]| |].
    - unfold tomb_ok. rewrite H2, H3. split_and!; [done..|apply new_rooted].
    - intros req. rewrite H3. set_solver.
    - intros c evt pc. by rewrite H4. }
  clear H1 H2 H3 H4. induction Hsteps as [y|y0 y1 y2 Hstep _ IH]; [done|].
  apply IH. by eapply sstep_ok.
Qed.
End store_facts.

(** ** Properties *)

(** C5: replacing never hides the current version. Whatever number of
    [ReplaceEvent], [SaveEvent], [DeleteEvent] and [FlushAll] calls run
    concurrently, interleaved phase by phase with each other, with the batchers and
    with the tombstone writer, and whatever inserts, probes, flushes and reloads
    fail: if a stored row is the newest of its (pubkey, kind) group (lowest id on a
    tie), an id names one stored row, and no [ReplaceEvent] call of this group was made
    with a timestamp outside 32 bits (other groups may), then no tombstone with reason
    "replaced" is ever requested for it, and it can be in the dictionary reads consult
    only because of an explicit deletion. The timestamp condition is needed, see
    [republished_future_profile_hides_itself]. *)
Theorem replacement_never_hides_winner {W E} `{!TierWriter W E} json cls `{!GoSort row_desc}
    (y : Sys W) (r : Row) :
  sreach json cls y ->
  (forall r1 r2, in_tiers json (store y) r1 -> in_tiers json (store y) r2 ->
     row_id r1 = row_id r2 -> r1 = r2) ->
  in_tiers json (store y) r ->
  (forall r', in_tiers json (store y) r' -> row_kind r' = row_kind r -> row_pubkey r' = row_pubkey r ->
     sortDesc_less (row_key r') (row_key r) = false) ->
  (forall c evt pc, rcalls y !! c = Some (evt, pc) -> PubKey evt = row_pubkey r -> uint32 (Kind evt) = row_kind r ->
     0 <= CreatedAt evt < 2 ^ 32) ->
  (forall req, req ∈ retired (store y) -> id req = row_id r -> reason req ≠ "replaced") /\
  (row_id r ∈ dict (tw (store y)) ->
     exists req, req ∈ retired (store y) /\ id req = row_id r /\ reason req ≠ "replaced").
Proof.
  intros Hy Hids Hr Hbest H32. destruct (sreach_ok json cls y Hy) as ((_ & Ha & _ & Hro) & Hret & _).
  assert (~ superseded json (store y) (row_id r)) as Hsup.
  { intros (r0 & r' & H0 & H' & E0 & Ek & Ep & Hl).
    assert (r0 = r) as -> by (by apply Hids). rewrite Hbest in Hl; done. }
  assert (forall req, req ∈ retired (store y) -> id req = row_id r -> reason req ≠ "replaced") as H.
  { intros req Hreq Hid Hrs. destruct (Hret req Hreq Hrs) as [?|(c & evt & pc & Hc & [?|[Hw (r0 & H0 & [Hk Hp] & E0 & _)]])];
      rewrite Hid in *; [done..|].
    assert (r0 = r) as -> by (by apply Hids). apply Hw, (H32 c evt pc Hc); congruence. }
  split; [done|]. intros Hd. apply (rooted_dict _ _ _ Ha Hro) in Hd.
  apply list_elem_of_fmap in Hd as (req & Hid & Hreq). exists req. split_and!; [done..|]. by apply H.
Qed.

#[export] Instance demo_writer : TierWriter Batcher (list Label) := Batcher_TierWriter 1 (le_n 1).

Definition demo_store : Store Batcher :=
  mkStore {[ TierPermanent := newBatcher ]} newTombstoneWriter [].
Definition demo_env : REnv (E := list Label) :=
  mkREnv [(TierPermanent, [LFlush Sent])] None (fun _ => None) (fun _ => replicate 10 true) [LFlush Sent] [SelPush; SelPush].
Definition demo_sys0 : Sys Batcher := mkSys demo_store ∅.
Definition demo_call (evt : Event) (s : Store Batcher) : Store Batcher :=
  (ReplaceEvent demo_json ∅ demo_env evt s).2.
Definition demo_replaced : Store Batcher :=
  demo_call (demo_profile "p2" 20) (demo_call (demo_profile "p1" 10) demo_store).

Lemma demo_run c evt s cs :
  cs !! c = None ->
  exists pc, rtc (sstep demo_json ∅) (mkSys s cs) (mkSys (demo_call evt s) (<[c := (evt, pc)]> cs)).
Proof.
  intros Hc. exists (PDone (ReplaceEvent demo_json ∅ demo_env evt s).1).
  eapply rtc_l; [by apply (s_call demo_json ∅ c evt s cs)|].
  pose proof (ReplaceEvent_phases demo_json ∅ demo_env evt s) as Hph. unfold demo_call.
  destruct (ReplaceEvent demo_json ∅ demo_env evt s) as [err s']. cbn [fst snd] in Hph |- *.
  revert Hph. generalize PStart, s, 5%nat. intros pc s0 n.
  revert pc s0 cs Hc. induction n as [|n IH]; intros pc s0 cs Hc Hph; simpl in Hph.
  { simplify_eq. apply rtc_refl. }
  destruct (replacePhase demo_json ∅ demo_env evt pc s0) as [pc1 s1] eqn:E1.
  eapply rtc_l; [eapply (s_phase demo_json ∅ c demo_env evt pc pc1); [apply lookup_insert_eq|exact E1]|].
  rewrite insert_insert_eq. by apply IH.
Qed.

Lemma replacement_never_hides_winner_witness :
  map id (retired demo_replaced) = ["p1"] /\
  exists y : Sys Batcher, store y = demo_replaced /\
    forall req, req ∈ retired (store y) -> id req = "p2" -> reason req ≠ "replaced".
Proof.
  split; [by vm_compute|].
  destruct (demo_run 1 (demo_profile "p1" 10) demo_store ∅ (lookup_empty _)) as [c1 H1].
  destruct (demo_run 2 (demo_profile "p2" 20) (demo_call (demo_profile "p1" 10) demo_store)
              (<[1%nat := (demo_profile "p1" 10, c1)]> ∅) ltac:(by rewrite lookup_insert_ne)) as [c2 H2].
  eexists (mkSys demo_replaced _). split; [reflexivity|].
  assert (forall r, in_tiers demo_json demo_replaced r ->
    r ∈ map (rowFromEvent demo_json) [demo_profile "p1" 10; demo_profile "p2" 20]) as Hrows.
  { intros r (t & b & evt & Hb & He & ->). apply list_elem_of_fmap_2.
    assert (tiers demo_replaced = {[ TierPermanent := default newBatcher (tiers demo_replaced !! TierPermanent) ]})
      as Et by by vm_compute.
    rewrite Et in Hb. apply lookup_singleton_Some in Hb as [_ <-]. revert He. vm_compute. done. }
  eapply (replacement_never_hides_winner demo_json ∅ (mkSys demo_replaced _)
            (rowFromEvent demo_json (demo_profile "p2" 20))).
  - exists demo_sys0. split; [|etrans; [exact H1|exact H2]].
    split_and!; [|done|done|done]. intros t b Hb. simpl in Hb.
    apply lookup_singleton_Some in Hb as [_ <-]. apply newBatcher_Inv. lia.
  - intros r1 r2 Hr1%Hrows Hr2%Hrows. set_unfold in Hr1. set_unfold in Hr2.
    destruct Hr1 as (x1 & -> & [->|[->|[]]]), Hr2 as (x2 & -> & [->|[->|[]]]);
      intros Hid; first [reflexivity|discriminate Hid].
  - exists TierPermanent, (default newBatcher (tiers demo_replaced !! TierPermanent)), (demo_profile "p2" 20).
    split_and!; [by vm_compute|vm_compute; apply list_elem_of_further, list_elem_of_here|done].
  - intros r' Hr'%Hrows _ _. set_unfold in Hr'.
    destruct Hr' as (x & -> & [->|[->|[]]]); vm_compute; reflexivity.
  - simpl. intros c evt pc [[_ [= <- _]]|[_ [[_ [= <- _]]|[_ He]]%lookup_insert_Some]]%lookup_insert_Some _ _; simpl; [lia..|].
    by rewrite lookup_empty in He.
Defined.

(** An acknowledged replaceable event is durable. When [ReplaceEvent] returns
    nil for a replaceable kind, the event is in the table of its tier, inserted and not
    just buffered, or an equal or newer version of its (pubkey, kind) group was already
    there. *)
Theorem replace_ack_is_durable {W E} `{!TierWriter W E} json cls `{!GoSort row_desc} env evt
    (s s' : Store W) :
  tiers_ok s -> tomb_ok s -> isReplaceableKind (Kind evt) = true ->
  ReplaceEvent json cls env evt s = (None, s') ->
  (exists b, tiers s' !! tierForEvent evt cls = Some b /\ evt ∈ tier_table b) \/
  exists r, in_tiers json s' r /\ same_group evt r /\ sortDesc_less (ev_key evt) (row_key r) = false.
Proof. apply ReplaceEvent_durable. Qed.

(** Timestamps past 2^32 defeat the comparison. The stored timestamp is cut to
    32 bits, so publishing the same replaceable event a second time finds "an older
    version" with the event's own id and requests a tombstone for it: the only
    version of the profile is then hidden from reads. *)
Theorem republished_future_profile_hides_itself :
  let evt := demo_profile "p1" (2 ^ 32 + 5) in
  let s1 := demo_call evt demo_store in
  let s2 := demo_call evt s1 in
  (ReplaceEvent demo_json ∅ demo_env evt demo_store).1 = None /\
  (ReplaceEvent demo_json ∅ demo_env evt s1).1 = None /\
  map (fun q => (id q, reason q)) (retired s2) = [("p1", "replaced")].
Proof. by vm_compute. Qed.
