(* ===== verification/Reads.v ===== *)
(** * Query and count handlers (internal/store/store.go)

    [QueryEvents] and [CountEvents] over the whole store: the flush that internal
    (NIP-09) lookups force, read admission, the collection of Query.v, and COUNT,
    which reads each tier with FINAL and does not collapse versions. *)

From S2P Require Import Prelude Nostr Config Classifier Rows FilterSQL Collapse Query.
From S2P Require Import Batcher Tombstone TierWriter Store.

Section reads.
Context {W E : Type} `{!TierWriter W E}.
Variable json_str : string -> string.
Variable cls : gmap Z string.
Context `{!GoSort ev_desc, !GoSort row_desc, !GoSort row_rev}.

(** The physical rows of every tier table. *)
Definition store_tables (s : Store W) : gmap string (list Row) :=
  (fun b => map (rowFromEvent json_str) (tier_table b)) <$> tiers s.

(** What the environment decides during a read. *)
Record QEnv := mkQEnv {
  q_internal : bool;                           (* khatru.IsInternalCall *)
  q_flush : list (string * E);
  q_admit : option error;                      (* acquireRead *)
  q_now : Z;
  q_hasFeed : bool;
  q_feed : list Row;                           (* events_feed *)
  q_faultA : option TierFault;
  q_faultB : option TierFault;
  q_fault : string -> option TierFault;
}.

(** The channel's content; a failed flush before an internal lookup is only logged. *)
Definition QueryEvents (env : QEnv) (f : Filter) (s : Store W) : result (list Event) * Store W :=
  let s1 := if q_internal env then (FlushAllTiers (q_flush env) s None).2 else s in
  match (if q_internal env then None else q_admit env) with
  | Some err => (Err err, s1)
  | None =>
      (collectEvents json_str (q_now env) (q_hasFeed env) (q_faultA env) (q_faultB env)
         (q_fault env) (dict (tw s1)) (q_feed env) (store_tables s1) cls f, s1)
  end.

(** [FINAL] keeps one row per sorting key (kind, pubkey, created_at, id). *)
Definition final_key (r : Row) : Z * string * Z * string :=
  (row_kind r, row_pubkey r, row_created_at r, row_id r).

(** [SELECT count() FROM events_t FINAL WHERE where] *)
Definition countTier (dict_ : gset string) (f : Filter) (rows : list Row) : nat :=
  length (filter (where_holds json_str dict_ f) (limit_1_by final_key [] rows)).

Fixpoint countTiers (fault : string -> option error) (dict_ : gset string)
    (tables : gmap string (list Row)) (f : Filter) (ts : list string) (total : Z) : result Z :=
  match ts with
  | [] => Ok total
  | t :: ts' =>
      match fault t with
      | Some err => Err err
      | None => countTiers fault dict_ tables f ts'
                  (total + Z.of_nat (countTier dict_ f (default [] (tables !! t))))
      end
  end.

Definition CountEvents (acquire : option error) (fault : string -> option error) (f : Filter)
    (s : Store W) : result Z :=
  match acquire with
  | Some err => Err err
  | None => countTiers fault (dict (tw s)) (store_tables s) f (tiersForFilter f cls) 0
  end.
End reads.
Arguments QEnv E : clear implicits.

(** ** Lemmas *)

Section reads_facts.
Context {W E : Type} `{!TierWriter W E}.

(** A [FlushAll] that returns nil made every tier it visited durable. *)
Lemma FlushAllTiers_none order (s : Store W) t b :
  tiers_ok s -> (FlushAllTiers order s None).1 = None -> t ∈ map fst order ->
  tiers s !! t = Some b ->
  exists b', tiers (FlushAllTiers order s None).2 !! t = Some b' /\ tier_held b ⊆ tier_table b'.
Proof.
  revert s b. induction order as [|[t0 env] order IH]; intros s b Hok Hn Hin Hb; simpl in *; [set_solver|].
  assert (forall order (s0 : Store W) e, (FlushAllTiers order s0 (Some e)).1 = Some e) as Hsome.
  { clear. intros order. induction order as [|[t env] order IH]; intros s0 e; simpl; [done|].
    destruct (tiers s0 !! t); [|done]. by destruct (tier_flush env _). }
  destruct (tiers s !! t0) as [b0|] eqn:E0.
  - pose proof (tier_flush_ok env b0 (Hok _ _ E0)) as (G1 & G2 & G3 & G4).
    destruct (tier_flush env b0) as [err b1]. cbn [fst snd] in *.
    destruct err as [err|]; [by rewrite Hsome in Hn|].
    destruct (set_tier_ok s t0 b0 b1 Hok E0 G1 G2 G3) as [Hok1 Hg].
    destruct (decide (t = t0)) as [->|Hne].
    + simplify_eq. destruct (FlushAllTiers_ok order (set_tier s t0 b1) None Hok1) as (_ & Hg' & _).
      destruct (Hg' t0 b1) as (b' & Hb' & Ht' & _); [simpl; by rewrite lookup_insert_eq|].
      exists b'. split; [done|]. etrans; [by apply G4|done].
    + apply (IH (set_tier s t0 b1)); [done|done|set_solver|]. simpl. by rewrite lookup_insert_ne.
  - apply (IH s); [done|done| |done]. apply elem_of_cons in Hin as [->|Hin]; [congruence|done].
Qed.

Variable json_str : string -> string.

Lemma store_tables_lookup (s : Store W) t :
  store_tables json_str s !! t = (fun b => map (rowFromEvent json_str) (tier_table b)) <$> tiers s !! t.
Proof. apply lookup_fmap. Qed.

(** FINAL keeps every distinct row. *)
Lemma final_elem rows r : ids_identify rows -> r ∈ limit_1_by final_key [] rows <-> r ∈ rows.
Proof.
  intros Hids. split; [apply sublist_subseteq, limit_1_by_sublist|]. intros Hr.
  destruct (limit_1_by_first final_key [] rows r Hr) as (y & l1 & l2 & El & Hy & Hk & _); [set_solver|].
  assert (y = r) as ->; [|done]. apply Hids; [rewrite El; set_solver|done|].
  by apply (f_equal snd) in Hk.
Qed.

Context `{!GoSort ev_desc, !GoSort row_desc, !GoSort row_rev}.

(** A tier returns no more rows than it counts. *)
Lemma select_le_count dict_ f n rows :
  ids_identify rows ->
  (length (tierSelect json_str dict_ f n rows) <= countTier json_str dict_ f rows)%nat.
Proof.
  intros Hids. apply submseteq_length, NoDup_submseteq.
  - unfold tierSelect. eapply sublist_NoDup; [|apply sublist_take]. apply limit_1_by_NoDup.
  - intros r Hr. apply tierSelect_elem in Hr as [Hr Hw].
    apply list_elem_of_filter. split; [done|]. by apply final_elem.
Qed.

Lemma countTiers_ok dict_ tables f ts total :
  countTiers json_str (fun _ => None) dict_ tables f ts total =
  Ok (total + Z.of_nat (sum_list_with (fun t => countTier json_str dict_ f (default [] (tables !! t))) ts)).
Proof.
  revert total. induction ts as [|t ts IH]; intros total; simpl; [by rewrite Z.add_0_r|].
  rewrite IH. f_equal. lia.
Qed.

Lemma scanTiers_le_count fault dict_ tables f n ts evs :
  (forall t rows, tables !! t = Some rows -> ids_identify rows) ->
  scanTiers json_str fault dict_ tables f n ts = Ok evs ->
  (length evs <= sum_list_with (fun t => countTier json_str dict_ f (default [] (tables !! t))) ts)%nat.
Proof.
  intros Hids. revert evs. induction ts as [|t ts IH]; intros evs H; simpl in *; [by simplify_eq|].
  destruct (fault t); [done|]. destruct (scanTiers _ _ _ _ _ _ ts) as [rest|]; simplify_eq.
  rewrite length_app, length_map. specialize (IH rest eq_refl).
  assert (ids_identify (default [] (tables !! t))) as Hi
    by (destruct (tables !! t) eqn:Et; simpl; [by eapply Hids|intros r1 r2; set_solver]).
  pose proof (select_le_count dict_ f n _ Hi). lia.
Qed.

(** The answer to a lookup by one id. *)
Lemma answer_by_id dict_ f rows evt n :
  fIDs f = [ID evt] -> (0 < n)%nat -> where_holds json_str dict_ f (rowFromEvent json_str evt) ->
  ids_identify rows -> rowFromEvent json_str evt ∈ rows ->
  answer (where_holds json_str dict_ f) rows n = [asStored evt].
Proof.
  intros Hf Hn Hw Hids Hin. unfold answer. set (r := rowFromEvent json_str evt) in *.
  assert (winners row_desc collapse_key (filter (where_holds json_str dict_ f) rows) = [r]) as ->.
  { assert (forall x, x ∈ filter (where_holds json_str dict_ f) rows <-> x = r) as Hx.
    { intros x. rewrite list_elem_of_filter. split; [|intros ->; done].
      intros [Hwx Hxin]. apply Hids; [done|done|]. apply where_holds_unfold in Hwx as [[Hn'|Hi] _].
      - by rewrite Hf in Hn'.
      - rewrite Hf in Hi. apply list_elem_of_singleton in Hi. done. }
    apply Permutation_singleton_r, NoDup_Permutation.
    - apply winners_NoDup.
    - apply NoDup_singleton.
    - intros x. rewrite winners_elem, list_elem_of_singleton, Hx. split; [tauto|].
      intros ->. split; [done|]. apply Forall_forall. intros y Hy _. apply Hx in Hy as ->.
      unfold by_less. apply less_irrefl. }
  assert (scanEvent r = asStored evt) as Er
    by (unfold r; rewrite <-row_asStored; apply row_roundtrip_fits, asStored_fits).
  simpl. rewrite Er. destruct n; [lia|]. unfold sortDesc.
  rewrite (go_sort_unique ev_desc [asStored evt] [asStored evt]); [simpl; by rewrite take_nil| |repeat constructor|done].
  intros x y Hx Hy _ _. apply list_elem_of_singleton in Hx, Hy. congruence.
Qed.
(** And to one for an id no row has. *)
Lemma answer_no_id dict_ f rows i n :
  fIDs f = [i] -> (forall r, r ∈ rows -> row_id r ≠ i) -> answer (where_holds json_str dict_ f) rows n = [].
Proof.
  intros Hf Hno. unfold answer. assert (filter (where_holds json_str dict_ f) rows = []) as ->.
  { apply elem_of_nil_inv. intros r [Hw Hr]%list_elem_of_filter. apply where_holds_unfold in Hw as [[Hn|Hi] _].
    - by rewrite Hf in Hn.
    - rewrite Hf in Hi. apply list_elem_of_singleton in Hi. by apply (Hno r). }
  simpl. unfold sortDesc. rewrite (go_sort_unique ev_desc [] []); [by rewrite take_nil|set_solver|constructor|done].
Qed.
End reads_facts.

(** ** Properties *)

(** C22: a deletion finds the event it targets, even one published a moment ago. If
    [SaveEvent] accepted an event that is not tombstoned, then after anything else the
    store did in between, the internal lookup by id that khatru makes for a NIP-09
    deletion, when its tier scans succeed, returns that event (with its timestamp as
    stored) and nothing else, or nothing; nothing only if the [FlushAll] it forces
    failed, which is logged and not reported. Read admission cannot refuse it. *)
Theorem delete_lookup_sees_saved_event {W E} `{!TierWriter W E} json cls
    `{!GoSort ev_desc, !GoSort row_desc, !GoSort row_rev}
    (env : QEnv E) evt (s s1 s2 : Store W) f :
  tiers_ok s -> (forall t b, tiers s !! t = Some b -> t ∈ activeTiers) ->
  SaveEvent cls evt s = (None, s1) -> tiers_ok s2 -> grows s1 s2 ->
  f = mkFilter [ID evt] [] [] [] None None 0 -> q_internal env = true ->
  tierForEvent evt cls ∈ map fst (q_flush env) -> (forall t, q_fault env t = None) ->
  let s3 := (FlushAllTiers (q_flush env) s2 None).2 in
  let rows := concat ((fun t => default [] (store_tables json s3 !! t)) <$> activeTiers) in
  routed cls (store_tables json s3) -> ids_identify (rowFromEvent json evt :: rows) -> ID evt ∉ dict (tw s3) ->
  exists found : bool,
    (QueryEvents json cls env f s2).1 = Ok (if found then [asStored evt] else []) /\
    ((FlushAllTiers (q_flush env) s2 None).1 = None -> found = true).
Proof.
  intros Hok Hact Hsave Hok2 Hg -> Hint Hin Hfault s3 rows Hrt Hids Hlive.
  pose proof (SaveEvent_ok cls evt s Hok) as (_ & _ & _ & _ & Hheld). rewrite Hsave in Hheld.
  destruct (Hheld eq_refl) as (b & Hb & He). cbn [snd] in Hb.
  apply Hg in Hb as (b2 & Hb2 & _ & Hh2). apply Hh2 in He.
  assert (ids_identify rows) as Hids'.
  { intros r1 r2 H1 H2. apply Hids; by apply list_elem_of_further. }
  set (f := mkFilter [ID evt] [] [] [] None None 0).
  assert (feedEligible (q_now env) f cls = false) as Hel by done.
  assert ((QueryEvents json cls env f s2).1 =
    Ok (answer (where_holds json (dict (tw s3)) f) rows (Z.to_nat (clampLimit (fLimit f))))) as ->.
  { unfold QueryEvents. rewrite Hint. cbn [fst snd]. unfold collectEvents.
    rewrite Hel, andb_false_r. fold s3. by rewrite (collectTiers_answer json _ _ _ cls f); [|by auto|done|exact Hids']. }
  destruct (decide (rowFromEvent json evt ∈ rows)) as [Hr|Hr].
  - exists true. split; [|done]. f_equal.
    apply answer_by_id; [done|unfold clampLimit, defaultQueryLimit; simpl; lia| |done|done].
    apply where_holds_unfold. simpl. split_and!; try (by left); try done; try set_solver.
  - exists false. split.
    + f_equal. apply (answer_no_id json _ _ _ (ID evt)); [done|]. intros r Hrr Hid. destruct Hr.
      rewrite (Hids (rowFromEvent json evt) r); [done|apply list_elem_of_here|by apply list_elem_of_further|done].
    + intros Hfl. destruct Hr.
      assert (tierForEvent evt cls ∈ activeTiers) as Htier.
      { unfold SaveEvent in Hsave. case_match; [done|].
        destruct (tiers s !! tierForEvent evt cls) as [b0|] eqn:E0; [by eapply Hact|done]. }
      destruct (FlushAllTiers_none (q_flush env) s2 (tierForEvent evt cls) b2 Hok2 Hfl Hin Hb2) as (b3 & Hb3 & Ht3).
      apply concat_elem. exists (map (rowFromEvent json) (tier_table b3)). split.
      * apply list_elem_of_fmap. exists (tierForEvent evt cls). split; [|done].
        unfold s3. by rewrite store_tables_lookup, Hb3.
      * apply list_elem_of_fmap_2. by apply Ht3.
Qed.

Definition demo_qenv : QEnv (list Label) :=
  mkQEnv true [(TierPermanent, [LFlush Sent])] (Some (Sentinel ErrReadBusy)) 0 true [] None None
    (fun _ => None).
Definition demo_saved : Store Batcher := (SaveEvent ∅ (demo_profile "p1" 10) demo_store).2.

Lemma delete_lookup_sees_saved_event_witness :
  (QueryEvents demo_json ∅ demo_qenv (mkFilter ["p1"] [] [] [] None None 0) demo_saved).1 =
  Ok [demo_profile "p1" 10].
Proof.
  assert (tiers_ok demo_store) as Hok.
  { intros t b Hb. simpl in Hb. apply lookup_singleton_Some in Hb as [_ <-].
    apply newBatcher_Inv. lia. }
  assert (forall r, r ∈ concat ((fun t => default []
    (store_tables demo_json (FlushAllTiers (q_flush demo_qenv) demo_saved None).2 !! t)) <$> activeTiers) ->
    r = rowFromEvent demo_json (demo_profile "p1" 10)) as Hrows.
  { intros r Hr. vm_compute in Hr. apply list_elem_of_singleton in Hr. exact Hr. }
  destruct (delete_lookup_sees_saved_event demo_json ∅ demo_qenv (demo_profile "p1" 10) demo_store demo_saved
    demo_saved (mkFilter ["p1"] [] [] [] None None 0)) as (found & H1 & H2);
    [..|rewrite H1, (H2 ltac:(vm_compute; reflexivity)); reflexivity].
  - exact Hok.
  - intros t b Hb. simpl in Hb. apply lookup_singleton_Some in Hb as [<- _]. apply list_elem_of_here.
  - vm_compute. reflexivity.
  - apply (SaveEvent_ok ∅ (demo_profile "p1" 10) demo_store Hok).
  - intros t b Hb. by exists b.
  - reflexivity.
  - reflexivity.
  - apply list_elem_of_here.
  - reflexivity.
  - intros t rows r Ht Hr. rewrite store_tables_lookup in Ht.
    assert (tiers (FlushAllTiers (q_flush demo_qenv) demo_saved None).2 =
      {[ TierPermanent := default newBatcher (tiers (FlushAllTiers (q_flush demo_qenv) demo_saved None).2 !! TierPermanent) ]})
      as Et by by vm_compute.
    rewrite Et in Ht. apply fmap_Some in Ht as (b & Hb & ->).
    apply lookup_singleton_Some in Hb as [<- <-]. vm_compute in Hr.
    apply list_elem_of_singleton in Hr as ->. reflexivity.
  - intros r1 r2 [->|Hr1%Hrows]%elem_of_cons [->|Hr2%Hrows]%elem_of_cons _; congruence.
  - vm_compute. intros H. inversion H.
Defined.

(** COUNT never undercounts a query. For the same filter over the same store,
    when both succeed on the tiers, the count is at least the number of events the
    query returns: COUNT counts every stored version, the query one per replaceable
    group and at most its limit. *)
Theorem count_bounds_query {W E} `{!TierWriter W E} json cls
    `{!GoSort ev_desc, !GoSort row_desc, !GoSort row_rev} (s : Store W) fault f limit evs :
  (forall t rows, store_tables json s !! t = Some rows -> ids_identify rows) ->
  collectTiers json fault (dict (tw s)) (store_tables json s) cls f limit = Ok evs ->
  exists n, CountEvents json cls None (fun _ => None) f s = Ok n /\ Z.of_nat (length evs) <= n.
Proof.
  intros Hids. unfold collectTiers, CountEvents.
  destruct (scanTiers _ _ _ _ _ _ _) as [c|] eqn:E0; [|done]. intros [= <-].
  rewrite countTiers_ok. eexists. split; [done|].
  pose proof (scanTiers_le_count json _ _ _ _ _ _ _ Hids E0). rewrite length_take.
  unfold sortDesc. autorewrite with relay_rw. lia.
Qed.

Lemma count_bounds_query_witness :
  exists n, CountEvents demo_json ∅ None (fun _ => None) (mkFilter [] [0] [] [] None None 0) demo_replaced = Ok n
    /\ 1 <= n.
Proof.
  destruct (count_bounds_query demo_json ∅ demo_replaced (fun _ => None)
    (mkFilter [] [0] [] [] None None 0) 10 [demo_profile "p2" 20]) as (n & Hn & Hle).
  - intros t rows Ht. rewrite store_tables_lookup in Ht. apply fmap_Some in Ht as (b & Hb & ->).
    assert (tiers demo_replaced = {[ TierPermanent := default newBatcher (tiers demo_replaced !! TierPermanent) ]})
      as Et by by vm_compute.
    rewrite Et in Hb. apply lookup_singleton_Some in Hb as [_ <-].
    apply ids_identify_NoDup_ids. by vm_compute.
  - vm_compute. reflexivity.
  - exists n. split; [exact Hn|]. simpl in Hle. lia.
Defined.
