(* ===== verification/Stream.v ===== *)
(** * Delivering a query's events (internal/store/store.go: the goroutine of QueryEvents)

    [QueryEvents] has collected its events when it creates a buffered channel and a
    goroutine that sends them; the receiver (khatru, or the REST handler's range loop)
    takes them at its own pace and the request's context can end at any time. One label
    is one step of the goroutine or of the receiver. *)

From S2P Require Import Prelude Nostr.

Definition streamCap : nat := 64.

Record Stream := mkStream {
  st_todo : list Event;         (* what the range loop has not reached *)
  st_chan : list Event;
  st_closed : bool;             (* defer close(out) *)
  st_done : bool;               (* ctx.Done() is closed *)
  st_got : list Event;          (* ghost: received so far *)
}.

Definition newStream (collected : list Event) : Stream := mkStream collected [] false false [].

Inductive StLabel :=
  | StSend                      (* case out <- e *)
  | StQuit                      (* case <-ctx.Done(): return *)
  | StClose                     (* the range loop is over *)
  | StRecv
  | StCancel.

(** The receiver's range loop ends when the channel is closed and empty. *)
Definition drained (x : Stream) : bool := st_closed x && bool_decide (st_chan x = []).

Definition stream_step (l : StLabel) (x : Stream) : option Stream :=
  match l with
  | StSend =>
      match st_todo x with
      | e :: todo =>
          if negb (st_closed x) && bool_decide (length (st_chan x) < streamCap)%nat
          then Some (mkStream todo (st_chan x ++ [e]) false (st_done x) (st_got x)) else None
      | [] => None
      end
  | StQuit =>
      match st_todo x with
      | _ :: _ => if negb (st_closed x) && st_done x
                  then Some (mkStream (st_todo x) (st_chan x) true true (st_got x)) else None
      | [] => None
      end
  | StClose =>
      match st_todo x with
      | [] => if negb (st_closed x) then Some (mkStream [] (st_chan x) true (st_done x) (st_got x)) else None
      | _ :: _ => None
      end
  | StRecv =>
      match st_chan x with
      | e :: c => Some (mkStream (st_todo x) c (st_closed x) (st_done x) (st_got x ++ [e]))
      | [] => None
      end
  | StCancel => Some (mkStream (st_todo x) (st_chan x) (st_closed x) true (st_got x))
  end.

Fixpoint stream_run (ls : list StLabel) (x : Stream) : option Stream :=
  match ls with
  | [] => Some x
  | l :: ls' => match stream_step l x with Some x' => stream_run ls' x' | None => None end
  end.

(** ** Lemmas *)

Record stream_ok (collected : list Event) (x : Stream) : Prop := {
  sk_order : st_got x ++ st_chan x ++ st_todo x = collected;
  sk_cap : (length (st_chan x) <= streamCap)%nat;
  sk_closed : st_closed x = true -> st_todo x = [] \/ st_done x = true;
}.

Lemma stream_step_ok collected l x x' :
  stream_ok collected x -> stream_step l x = Some x' -> stream_ok collected x'.
Proof.
  intros [H1 H2 H3] Hs. destruct x as [todo c cl dn got]. simpl in *.
  destruct l; simpl in Hs; try (destruct todo as [|e todo]; [|try done]); try (destruct c as [|e' c]; [done|]);
    try done; try (destruct cl, dn; simpl in Hs; try done); try case_bool_decide; simplify_eq; simpl in *;
    split; simpl; rewrite ?length_app, <-?app_assoc; simpl; auto; try lia; try congruence.
Qed.

Lemma stream_run_ok collected ls x x' :
  stream_ok collected x -> stream_run ls x = Some x' -> stream_ok collected x'.
Proof.
  revert x. induction ls as [|l ls IH]; intros x Hx Hr; simpl in Hr; [by simplify_eq|].
  destruct (stream_step l x) as [x1|] eqn:Es; [|done]. eapply IH; [|done]. by eapply stream_step_ok.
Qed.

(** Steps the goroutine and the receiver still owe. *)
Definition owed (x : Stream) : nat :=
  (2 * length (st_todo x) + length (st_chan x) + if st_closed x then 0 else 1)%nat.

(** ** Properties *)

(** A query's events arrive in order, and all of them unless the request ends. However
    the goroutine, the receiver and the end of the context interleave, what was received
    is a prefix of what was collected, the buffer holds at most 64 events, and a receiver
    that sees the channel closed has received everything if the context had not ended.
    While the receiver keeps receiving nothing gets stuck: until the channel is drained
    some step other than the end of the context is possible, and each one brings the end
    closer; once the context has ended the goroutine can finish by itself. *)
Theorem stream_delivers collected ls x :
  stream_run ls (newStream collected) = Some x ->
  st_got x `prefix_of` collected /\ (length (st_chan x) <= streamCap)%nat /\
  (drained x = true -> st_done x = false -> st_got x = collected) /\
  (drained x = false -> exists l x', l ≠ StCancel /\ stream_step l x = Some x' /\ (owed x' < owed x)%nat) /\
  (st_done x = true -> st_closed x = false -> exists l x', l ∈ [StQuit; StClose] /\
     stream_step l x = Some x' /\ st_closed x' = true).
Proof.
  intros Hr. assert (stream_ok collected x) as [H1 H2 H3].
  { eapply stream_run_ok; [|exact Hr]. split; simpl; [done|lia|done]. }
  split_and!; [by eexists|done| | |].
  - intros [Hc Hn%bool_decide_eq_true]%andb_true_iff Hd. destruct (H3 Hc) as [Ht|Ht]; [|congruence].
    by rewrite Hn, Ht, app_nil_r in H1.
  - intros Hd. destruct x as [todo c cl dn got]. unfold drained in Hd. simpl in *.
    destruct c as [|e c].
    + destruct cl; [done|]. destruct todo as [|e todo]; [exists StClose|exists StSend]; eexists; split_and!; try done;
        unfold owed; simpl; lia.
    + exists StRecv. eexists. split_and!; try done. unfold owed. simpl. lia.
  - intros Hd Hc. destruct x as [[|e todo] c cl dn got]; simpl in *; subst.
    + exists StClose. eexists. split_and!; [set_solver|done|done].
    + exists StQuit. eexists. split_and!; [set_solver|done|done].
Qed.

(** Two events, the request ends after the first one was received. *)
Lemma stream_delivers_witness :
  let a := mkEvent "a" "bob" 2 1 [] "" "" in let b := mkEvent "b" "bob" 1 1 [] "" "" in
  exists x, stream_run [StSend; StRecv; StCancel; StQuit] (newStream [a; b]) = Some x /\
    drained x = true /\ st_got x `prefix_of` [a; b].
Proof.
  intros a b. eexists. split; [reflexivity|]. split; [reflexivity|].
  apply (stream_delivers [a; b] [StSend; StRecv; StCancel; StQuit]). reflexivity.
Defined.
