(* ===== verification/Deletion.v ===== *)
(** * A deleted event stays hidden (store.go, tombstone.go)

    NIP-09 from end to end: [DeleteEvent] hands the id to the tombstone writer, the
    writer stores it, the dictionary is reloaded, and every read consults the
    dictionary. Once hidden, an id stays hidden. *)

From S2P Require Import Prelude Nostr Config Classifier Rows FilterSQL Collapse Query.
From S2P Require Import Batcher Tombstone TierWriter Store Reads.

(** ** The writer only ever hides more *)

Record hides (w w' : TW) : Prop := {
  h_table : tombstones w ⊆ tombstones w';
  h_dict : dict w ⊆ dict w';
}.

#[local] Instance hides_pre : PreOrder hides.
Proof. split; [by split|]. intros w1 w2 w3 [H1 H2] [H3 H4]. split; by etrans. Qed.

Lemma hides_same w w' : tombstones w' = tombstones w -> dict w' = dict w -> hides w w'.
Proof. intros E1 E2. split; by rewrite ?E1, ?E2. Qed.

(** Acknowledged inserts are in the table. *)
Definition stored (w : TW) : Prop := inserted w ⊆ tombstones w.

Lemma flush_loop_hides fuel ins k w :
  hides w (flush_loop fuel ins k w) /\ (stored w -> stored (flush_loop fuel ins k w)).
Proof.
  revert k w. induction fuel as [|fuel IH]; intros k w; cbn [flush_loop]; [split; [by apply hides_same|done]|].
  destruct (tbuf w) as [|r l]; [split; [by apply hides_same|done]|].
  set (n := Nat.min _ tombstoneBatchMax). destruct (ins k).
  - destruct (IH (S k) (chunkDone n w)) as [H1 H2]. split.
    + etrans; [|exact H1]. split; simpl; set_solver.
    + intros Hs. apply H2. unfold stored in *. simpl. set_solver.
  - split; [by apply hides_same|done].
  - split; [split; simpl; set_solver|]. unfold stored. simpl. set_solver.
Qed.

Lemma flush_hides ins w : hides w (flush ins w) /\ (stored w -> stored (flush ins w)).
Proof.
  unfold flush. destruct (flush_loop_hides (length (tbuf (reportDrops w))) ins 0 (reportDrops w)) as [H1 H2].
  assert (hides w (reportDrops w) /\ (stored w -> stored (reportDrops w))) as [H3 H4].
  { unfold reportDrops. case_decide; [|done]. split; [by apply hides_same|done]. }
  split; [by etrans|auto].
Qed.

Lemma receive_hides ins w w' : receive ins w = Some w' -> hides w w' /\ (stored w -> stored w').
Proof.
  unfold receive. destruct (tin w) as [|req rest]; [done|]. intros [= <-].
  assert (hides w (appendReq req rest w) /\ (stored w -> stored (appendReq req rest w))) as [H3 H4].
  { unfold appendReq. case_decide; (split; [by apply hides_same|done]). }
  destruct (flush_hides ins (appendReq req rest w)) as [H1 H2].
  case_decide; [destruct (retrying _)|]; auto. split; [by etrans|auto].
Qed.

Lemma lifetime_hides w : rooted w -> hides w (lifetime w).
Proof. intros [_ Hd]. split; [done|]. intros x Hx%Hd. simpl. by apply elem_of_list_to_set. Qed.

Lemma reload_hides start fin r w : rooted w -> hides w (reload start fin r w).2.
Proof.
  intros Hr. destruct r; [by apply hides_same| | |by apply hides_same];
    (etrans; [by apply lifetime_hides|by apply hides_same]).
Qed.

Lemma endTurn_hides now fin r w : rooted w -> hides w (endTurn now fin r w).
Proof.
  intros Hr. unfold endTurn. destruct (reload_due now w); [|done].
  pose proof (reload_hides now fin r w Hr) as H. destruct (reload now fin r w) as [ok w1].
  etrans; [exact H|by apply hides_same].
Qed.

Lemma endTurn_inserted now fin r w :
  inserted (endTurn now fin r w) = inserted w /\ tombstones (endTurn now fin r w) = tombstones w.
Proof. unfold endTurn. by destruct (reload_due now w). Qed.

Lemma tstep_hides l w w' :
  rooted w -> tstep l w = Some w' -> hides w w' /\ (stored w -> stored w').
Proof.
  intros Hr Hs. destruct l; simpl in Hs.
  - case_decide; simplify_eq. split; [by apply hides_same|done].
  - simplify_eq. split; [by apply hides_same|done].
  - destruct (phase w); [|done..]. destruct (receive ins w) as [w1|] eqn:E; [|done]. simplify_eq/=.
    destruct (receive_hides ins w w1 E) as [H1 H2]. destruct (endTurn_inserted now fin r w1) as [E1 E2].
    split; [|unfold stored; rewrite E1, E2; exact H2].
    etrans; [exact H1|]. apply endTurn_hides. by eapply receive_rooted.
  - destruct (phase w); [|done..]. simplify_eq/=. destruct (flush_hides ins w) as [H1 H2].
    destruct (endTurn_inserted now fin r (flush ins w)) as [E1 E2].
    split; [|unfold stored; rewrite E1, E2; exact H2].
    etrans; [exact H1|]. by apply endTurn_hides, flush_rooted.
  - simplify_eq. split; [by apply lifetime_hides|done].
  - destruct (phase w), (stopCh w); simplify_eq. split; [by apply hides_same|done].
  - destruct (phase w); [done| |done]. destruct (receive ins w) as [w1|] eqn:E; [|done]. simplify_eq/=.
    destruct (receive_hides ins w w1 E) as [H1 H2].
    split; [etrans; [exact H1|by apply hides_same]|exact H2].
  - destruct (phase w); [done| |done]. destruct (tin w); [|done]. case_decide; simplify_eq/=.
    { split; [by apply hides_same|done]. }
    destruct (flush_hides ins w) as [H1 H2]. pose proof (flush_rooted ins w Hr) as Hr1.
    destruct (dirty (flush ins w)); (split; [|exact H2]); (etrans; [exact H1|]); [|by apply hides_same].
    etrans; [by apply (reload_hides now fin r (flush ins w))|by apply hides_same].
Qed.

Lemma trun_hides ls w w' :
  rooted w -> trun ls w = Some w' -> hides w w' /\ rooted w' /\ (stored w -> stored w').
Proof.
  revert w. induction ls as [|l ls IH]; intros w Hr Hrun; simpl in Hrun; [by simplify_eq|].
  destruct (tstep l w) as [w1|] eqn:E; [|done]. destruct (tstep_hides l w w1 Hr E) as [H1 H2].
  destruct (IH w1 (tstep_rooted l w w1 Hr E) Hrun) as (H3 & H4 & H5).
  split_and!; [by etrans|done|auto].
Qed.

(** ** From the request to the dictionary *)

(** A nil [DeleteEvent] has pushed exactly its request. *)
Lemma DeleteEvent_pushed {W} sels evt (s s1 : Store W) :
  DeleteEvent sels evt s = (None, s1) ->
  tstep (TPush (mkReq (ID evt) "nip09" (PubKey evt))) (tw s) = Some (tw s1) /\ tiers s1 = tiers s.
Proof.
  unfold DeleteEvent, retireIDs, retire. simpl. destruct (stopCh (tw s)); [done|].
  destruct sels as [|[| |] sels]; try done. case_decide; [|done]. by intros [= <-].
Qed.

(** How a stored tombstone gets into the dictionary: the writer saw its reload apply
    (for ids retired once), a reload did apply, or the server refreshed it. *)
Inductive refreshed (P : list tombstoneReq) (w : TW) : TW -> Prop :=
  | ref_clean : NoDup (ids P) -> dirty w = false -> refreshed P w w
  | ref_reload start fin : refreshed P w (reload start fin ReloadApplied w).2
  | ref_lifetime : refreshed P w (lifetime w).

Lemma refreshed_rooted P w w' : refreshed P w w' -> rooted w -> rooted w'.
Proof. intros [] Hr; [done|by apply reload_rooted|by apply lifetime_rooted]. Qed.

Lemma request_hidden ls w w' r :
  trun ls newTombstoneWriter = Some w -> r ∈ ls ≫= pushed ->
  id r ∉ ids (droppedReqs w) -> id r ∉ ids (tin w ++ tbuf w) ->
  refreshed (ls ≫= pushed) w w' -> id r ∈ dict w'.
Proof.
  intros Hrun Hr Hd Hq Href. destruct new_ok as [N1 N2].
  destruct (trun_ok ls [] _ w N1 N2 Hrun) as [[Hp _ _] _]. simpl in Hp. rewrite Hp in Hr.
  assert (r ∈ inserted w) as Hin.
  { rewrite !elem_of_app in Hr. destruct Hr as [Hr|[Hr|[Hr|Hr]]]; [..|done|]; exfalso.
    - apply Hq. unfold ids. rewrite map_app, elem_of_app. left. by apply list_elem_of_fmap_2.
    - apply Hq. unfold ids. rewrite map_app, elem_of_app. right. by apply list_elem_of_fmap_2.
    - apply Hd. by apply list_elem_of_fmap_2. }
  destruct (trun_hides ls _ w new_rooted Hrun) as (_ & _ & Hst). specialize (Hst ltac:(unfold stored; done)).
  destruct Href as [Hnd Hdirty|start fin|]; simpl.
  - apply (d_clean w); [|done|by apply list_elem_of_fmap_2].
    apply (trun_dict_ok ls [] newTombstoneWriter w); done || apply new_dict_ok.
  - apply elem_of_list_to_set, list_elem_of_fmap_2, Hst, Hin.
  - apply elem_of_list_to_set, list_elem_of_fmap_2, Hst, Hin.
Qed.

(** No read returns a hidden id. *)
Lemma query_hides {W E} `{!TierWriter W E} json cls `{!GoSort ev_desc, !GoSort row_desc, !GoSort row_rev}
    (env : QEnv E) f (s : Store W) evs e :
  (QueryEvents json cls env f s).1 = Ok evs -> e ∈ evs -> ID e ∉ dict (tw s).
Proof.
  unfold QueryEvents. set (s1 := if q_internal env then _ else s).
  assert (tw s1 = tw s) as Etw by (unfold s1; destruct (q_internal env); [by apply FlushAllTiers_tw|done]).
  destruct (if q_internal env then None else q_admit env); [done|]. cbn [fst]. rewrite Etw. intros H He.
  destruct (collectEvents_good json _ _ _ _ _ _ _ _ _ _ _ H) as (_ & _ & Hall).
  destruct (Hall e He) as (r & -> & _ & Hw). apply where_holds_unfold in Hw. simpl. naive_solver.
Qed.

(** ** Properties *)

(** C13: a deletion takes effect for good. When [DeleteEvent] returns nil, then as soon as
    the writer has inserted the request (it is no longer queued or buffered and was not
    dropped) and the dictionary has been refreshed since, be it that the writer's probe
    found a reload applied or that the server refreshed it, no query, whatever its
    filter, path, schedule and the state of the tiers, returns the event, then or at any
    later time: neither more deletions, nor failed inserts and reloads, nor shutdown
    bring it back. *)
Theorem deleted_event_stays_hidden {W E} `{!TierWriter W E} json cls
    `{!GoSort ev_desc, !GoSort row_desc, !GoSort row_rev} ls ls1 ls2 sels evt (s s1 s2 : Store W) w1 w1'
    (env : QEnv E) f evs :
  trun ls newTombstoneWriter = Some (tw s) -> DeleteEvent sels evt s = (None, s1) ->
  trun ls1 (tw s1) = Some w1 ->
  ID evt ∉ ids (droppedReqs w1) -> ID evt ∉ ids (tin w1 ++ tbuf w1) ->
  refreshed ((ls ≫= pushed) ++ mkReq (ID evt) "nip09" (PubKey evt) :: (ls1 ≫= pushed)) w1 w1' ->
  trun ls2 w1' = Some (tw s2) -> (QueryEvents json cls env f s2).1 = Ok evs ->
  forall e, e ∈ evs -> ID e ≠ ID evt.
Proof.
  intros Hls Hdel Hls1 Hd Hq Href Hls2 Hquery e He Heq.
  destruct (DeleteEvent_pushed sels evt s s1 Hdel) as [Hpush _].
  set (req := mkReq (ID evt) "nip09" (PubKey evt)) in *.
  assert (trun (ls ++ TPush req :: ls1) newTombstoneWriter = Some w1) as Hrun
    by (rewrite trun_app, Hls; cbn [trun]; by rewrite Hpush).
  assert ((ls ++ TPush req :: ls1) ≫= pushed = (ls ≫= pushed) ++ req :: (ls1 ≫= pushed)) as Ep
    by (by rewrite bind_app).
  assert (id req ∈ dict w1') as Hin.
  { apply (request_hidden (ls ++ TPush req :: ls1) w1); rewrite ?Ep; try done. set_solver. }
  destruct (trun_hides _ _ _ new_rooted Hrun) as (_ & Hr1 & _).
  destruct (trun_hides ls2 w1' (tw s2) (refreshed_rooted _ _ _ Href Hr1) Hls2) as ([_ Hh] & _ & _).
  apply (query_hides json cls env f s2 evs e Hquery He). rewrite Heq. by apply Hh.
Qed.

Definition demo_notes : gmap string Batcher :=
  {[ TierArchive := default newBatcher
       (run 1 [LEnqueue (demo_note "n1" 10); LInput Sent; LEnqueue (demo_note "n2" 20); LInput Sent] newBatcher) ]}.
Definition demo_before : Store Batcher := mkStore demo_notes newTombstoneWriter [].
Definition demo_written : list TLabel :=
  [TReq (fun _ => InsOk) 0 1 ReloadFailed; TTick (fun _ => InsOk) 2 3 ReloadUnprobed].
Definition demo_after : Store Batcher :=
  let s := (DeleteEvent [SelPush] (demo_note "n1" 10) demo_before).2 in
  mkStore demo_notes (lifetime (default (tw s) (trun demo_written (tw s)))) [].
Definition demo_reader : QEnv (list Label) := mkQEnv false [] None 0 false [] None None (fun _ => None).

Lemma deleted_event_stays_hidden_witness :
  (QueryEvents demo_json ∅ demo_reader (mkFilter [] [] [] [] None None 5) demo_before).1 =
    Ok [demo_note "n2" 20; demo_note "n1" 10] /\
  exists evs, (QueryEvents demo_json ∅ demo_reader (mkFilter [] [] [] [] None None 5) demo_after).1 = Ok evs /\
    evs = [demo_note "n2" 20] /\ forall e, e ∈ evs -> ID e ≠ "n1".
Proof.
  split; [by vm_compute|]. eexists. split; [vm_compute; reflexivity|]. split; [reflexivity|].
  apply (deleted_event_stays_hidden demo_json ∅ [] demo_written [] [SelPush] (demo_note "n1" 10) demo_before
    (DeleteEvent [SelPush] (demo_note "n1" 10) demo_before).2 demo_after
    (default newTombstoneWriter (trun demo_written (tw (DeleteEvent [SelPush] (demo_note "n1" 10) demo_before).2)))
    (tw demo_after) demo_reader (mkFilter [] [] [] [] None None 5)).
  - reflexivity.
  - vm_compute. reflexivity.
  - vm_compute. reflexivity.
  - apply (bool_decide_unpack _). vm_compute. exact I.
  - apply (bool_decide_unpack _). vm_compute. exact I.
  - match goal with |- refreshed _ ?w ?w' => assert (lifetime w = w') as <- by (vm_compute; reflexivity) end.
    apply ref_lifetime.
  - reflexivity.
  - vm_compute. reflexivity.
Defined.
