(* ===== verification/Archive.v ===== *)
(** * The archive seen from outside

    The abstract specification of the store as clients know it: a set of accepted
    events, a set of hidden ids, and NIP-01 queries over them, stated on events and
    not on rows, tiers, SQL or batches. The refinement theorem says that what
    [QueryEvents] returns is the answer of this specification. *)

From S2P Require Import Prelude Nostr Config Classifier Rows FilterSQL Collapse Query.
From S2P Require Import Batcher Tombstone TierWriter Store Reads.

(** ** The specification *)

(** Versions of a replaceable event share a slot, every other event has its own. *)
Definition slot (e : Event) : Z * string :=
  (Kind e, if isReplaceableKind (Kind e) then PubKey e else ID e).

Definition wanted (hidden : gset string) (f : Filter) (e : Event) : Prop :=
  matches f e /\ ID e ∉ hidden.
#[export] Instance wanted_dec hidden f e : Decision (wanted hidden f e).
Proof. unfold wanted. apply _. Defined.

(** The events a filter asks for: of the matching events that are not hidden, the
    current version of every slot, newest first, at most [limit] of them. *)
Definition nip01_answer `{!GoSort ev_desc} (hidden : gset string) (f : Filter) (evs : list Event)
    (limit : nat) : list Event :=
  take limit (go_sort ev_desc (winners ev_desc slot (filter (wanted hidden f) evs))).

(** ** What the store holds *)

Section archive.
Context {W E : Type} `{!TierWriter W E}.

Definition holds (s : Store W) (e : Event) : Prop :=
  exists t b, tiers s !! t = Some b /\ e ∈ tier_held b.

(** The rows of the tier tables, as events: the accepted ones with timestamp and kind as
    the columns keep them ([asStored], the event itself when they fit 32 bits). *)
Definition stored_events (s : Store W) : list Event :=
  asStored <$> concat ((fun t => default [] (tier_table <$> tiers s !! t)) <$> activeTiers).

(** What the scope gates of both write paths and the routing of [SaveEvent] have checked
    of every accepted event, and that ids are hashes. *)
Record admissible (cls : gmap Z string) (s : Store W) : Prop := {
  adm_scope : forall e, holds s e -> Kind e ∈ InScopeKinds;
  adm_routed : forall t b e, tiers s !! t = Some b -> e ∈ tier_held b -> tierForEvent e cls = t;
  adm_ids : forall e1 e2, holds s e1 -> holds s e2 -> ID e1 = ID e2 -> e1 = e2;
  adm_tiers : forall t b, tiers s !! t = Some b -> t ∈ activeTiers;
}.

Lemma stored_elem s e :
  e ∈ stored_events s <->
  exists t b e0, t ∈ activeTiers /\ tiers s !! t = Some b /\ e0 ∈ tier_table b /\ e = asStored e0.
Proof.
  unfold stored_events. rewrite list_elem_of_fmap. setoid_rewrite concat_elem. split.
  - intros (e0 & -> & l & (t & -> & Ht)%list_elem_of_fmap & He).
    destruct (tiers s !! t) as [b|] eqn:Eb; simpl in He; [|set_solver]. by exists t, b, e0.
  - intros (t & b & e0 & Ht & Eb & He & ->). exists e0. split; [done|]. exists (tier_table b). split; [|done].
    apply list_elem_of_fmap. exists t. by rewrite Eb.
Qed.

Lemma stored_holds s e : tiers_ok s -> e ∈ stored_events s -> exists e0, holds s e0 /\ e = asStored e0.
Proof.
  intros Hok (t & b & e0 & _ & Eb & He & ->)%stored_elem. exists e0. split; [|done]. exists t, b. split; [done|].
  by apply (tier_table_held b (Hok _ _ Eb)).
Qed.

Lemma stored_fits s e : e ∈ stored_events s -> fits32 e.
Proof. intros (t & b & e0 & _ & _ & _ & ->)%stored_elem. apply asStored_fits. Qed.

Lemma stored_ids cls s e1 e2 :
  tiers_ok s -> admissible cls s -> e1 ∈ stored_events s -> e2 ∈ stored_events s -> ID e1 = ID e2 -> e1 = e2.
Proof.
  intros Hok Hadm (x1 & H1 & ->)%stored_holds (x2 & H2 & ->)%stored_holds Hid; [|done..].
  f_equal. by apply (adm_ids cls s Hadm).
Qed.

Lemma scope_kind cls s e : admissible cls s -> holds s e -> uint32 (Kind e) = Kind e.
Proof.
  intros Hadm He. apply uint32_id. apply (adm_scope cls s Hadm) in He. unfold InScopeKinds in He.
  set_unfold in He. lia.
Qed.

(** A successful [FlushAll] over every tier stores what was held. *)
Lemma flushed_stored cls order (s s1 : Store W) e :
  tiers_ok s -> FlushAllTiers order s None = (None, s1) -> activeTiers ⊆ map fst order ->
  admissible cls s1 -> holds s e -> asStored e ∈ stored_events s1.
Proof.
  intros Hok Hfl Hall Hadm (t & b & Eb & He).
  pose proof (FlushAllTiers_ok order s None Hok) as (_ & Hg & _). rewrite Hfl in Hg.
  destruct (Hg t b Eb) as (b1 & Eb1 & _). cbn [snd] in Eb1.
  assert (t ∈ activeTiers) as Ht by (by eapply adm_tiers).
  pose proof (FlushAllTiers_none order s t b Hok) as Hn. rewrite Hfl in Hn.
  destruct (Hn eq_refl (Hall _ Ht) Eb) as (b' & Eb' & Hsub). cbn [snd] in Eb'.
  apply stored_elem. exists t, b', e. split_and!; [done|done|by apply Hsub|done].
Qed.
End archive.

(** ** Rows stand for their events *)

Section rows_events.
Variable json : string -> string.
Context `{!GoSort ev_desc, !GoSort row_desc, !GoSort row_rev}.

Lemma row_slot e : fits32 e -> collapse_key (rowFromEvent json e) = slot e.
Proof.
  intros [_ Hk]. unfold collapse_key, slot, rowFromEvent, isReplaceableKind. simpl.
  by rewrite uint32_id.
Qed.

Lemma row_key_event e : fits32 e -> row_key (rowFromEvent json e) = ev_key e.
Proof. intros [Ht _]. unfold row_key, ev_key. simpl. by rewrite uint32_id. Qed.

(** The winners among rows are the rows of the winners among events. *)
Lemma winners_rows (P : Row -> Prop) `{!forall r, Decision (P r)} hidden f (evs : list Event) (rows : list Row) :
  (forall e, e ∈ evs -> fits32 e) ->
  (forall r, r ∈ filter P rows <->
     exists e, e ∈ filter (wanted hidden f) evs /\ r = rowFromEvent json e) ->
  map scanEvent (winners row_desc collapse_key (filter P rows)) ≡ₚ
  winners ev_desc slot (filter (wanted hidden f) evs).
Proof.
  intros H32 Hrows.
  assert (forall e, e ∈ filter (wanted hidden f) evs -> fits32 e) as Hfit
    by (intros e [_ He]%list_elem_of_filter; auto).
  assert (forall e, fits32 e -> scanEvent (rowFromEvent json e) = e) as Hscan
    by (intros e He; by apply row_roundtrip_fits).
  apply NoDup_Permutation.
  - apply NoDup_fmap_2_strong; [|apply winners_NoDup].
    intros r1 r2 (H1 & _)%winners_elem (H2 & _)%winners_elem Heq.
    apply Hrows in H1 as (e1 & He1 & ->). apply Hrows in H2 as (e2 & He2 & ->).
    rewrite !Hscan in Heq by auto. by subst.
  - apply winners_NoDup.
  - intros e. rewrite list_elem_of_fmap, winners_elem. split.
    + intros (r & -> & (Hr & Hw)%winners_elem). apply Hrows in Hr as (e & He & ->).
      rewrite Hscan by auto. split; [done|]. apply Forall_forall. intros e' He' Hs.
      pose proof (proj1 (Forall_forall _ _) Hw (rowFromEvent json e')) as HR.
      unfold by_less in *. rewrite !row_key_event, !row_slot in HR by auto.
      apply HR; [|done]. apply Hrows. by exists e'.
    + intros [He Hw]. exists (rowFromEvent json e). split; [by rewrite Hscan by auto|].
      apply winners_elem. split; [apply Hrows; by exists e|].
      apply Forall_forall. intros r Hr Hs. apply Hrows in Hr as (e' & He' & ->).
      unfold by_less in *. rewrite !row_key_event, !row_slot in * by auto.
      by apply (proj1 (Forall_forall _ _) Hw e').
Qed.

(** So the answer over the rows a query selects is the answer of the specification. *)
Lemma answer_events (P : Row -> Prop) `{!forall r, Decision (P r)} hidden f evs rows limit :
  (forall e, e ∈ evs -> fits32 e) ->
  (forall e1 e2, e1 ∈ evs -> e2 ∈ evs -> ID e1 = ID e2 -> e1 = e2) ->
  (forall r, r ∈ filter P rows <->
     exists e, e ∈ filter (wanted hidden f) evs /\ r = rowFromEvent json e) ->
  answer P rows limit = nip01_answer hidden f evs limit.
Proof.
  intros H32 Hids Hrows. unfold answer, nip01_answer, sortDesc. f_equal.
  pose proof (winners_rows P hidden f evs rows H32 Hrows) as Hperm.
  apply go_sort_unique.
  - intros x y Hx Hy Hxy Hyx. rewrite Hperm in Hx, Hy.
    apply winners_elem in Hx as [[_ Hx]%list_elem_of_filter _].
    apply winners_elem in Hy as [[_ Hy]%list_elem_of_filter _].
    apply Hids; [done..|]. pose proof (desc_antisym _ _ _ Hxy Hyx) as E. by injection E.
  - auto with relay.
  - rewrite go_sort_perm. by symmetry.
Qed.
End rows_events.

(** The rows of the tiers a filter is routed to are, as far as the filter can see,
    the rows of everything stored. *)
Lemma routed_rows {W E} `{!TierWriter W E} json cls hidden f (s : Store W) r :
  tiers_ok s -> admissible cls s -> filter_fits32 f -> hot_tags f ->
  r ∈ filter (where_holds json hidden f)
        (concat ((fun t => default [] (store_tables json s !! t)) <$> tiersForFilter f cls)) <->
  exists e, e ∈ filter (wanted hidden f) (stored_events s) /\ r = rowFromEvent json e.
Proof.
  intros Hok Hadm Hf Ht.
  assert (forall t b e, tiers s !! t = Some b -> e ∈ tier_table b -> holds s e) as Hholds
    by (intros t b e Eb He; exists t, b; split; [done|]; by apply (tier_table_held b (Hok _ _ Eb))).
  assert (forall e, where_holds json hidden f (rowFromEvent json e) <-> wanted hidden f (asStored e)) as Hw
    by (intros e; rewrite <-row_asStored; apply where_is_nip01_matching; [apply asStored_fits|done..]).
  rewrite list_elem_of_filter, concat_elem. setoid_rewrite list_elem_of_filter.
  setoid_rewrite stored_elem. split.
  - intros (Hr & l & (t & -> & Hin)%list_elem_of_fmap & Hl). rewrite store_tables_lookup in Hl.
    destruct (tiers s !! t) as [b|] eqn:Eb; simpl in Hl; [|set_solver].
    apply list_elem_of_fmap in Hl as (e & -> & He). exists (asStored e). rewrite row_asStored.
    split; [|done]. split; [by apply Hw|]. exists t, b, e. split_and!; [by eapply adm_tiers|done..].
  - intros (? & (Hwt & t & b & e & Hact & Eb & He & ->) & ->). rewrite row_asStored. split; [by apply Hw|].
    exists (map (rowFromEvent json) (tier_table b)). split; [|by apply list_elem_of_fmap_2].
    apply list_elem_of_fmap. exists t. rewrite store_tables_lookup, Eb. split; [done|].
    unfold tiersForFilter. destruct (fKinds f) as [|k ks] eqn:Ek; [done|]. rewrite <-Ek.
    apply tiersForKinds_elem. split_and!; [set_solver| |].
    + intros ->. revert Hact. by apply (bool_decide_unpack _).
    + exists (Kind e). split.
      * destruct Hwt as [(_ & _ & [Hk|Hk] & _) _]; [by rewrite Ek in Hk|].
        simpl in Hk. by rewrite (scope_kind cls s) in Hk by eauto.
      * eapply adm_routed; [done|done|]. by apply (tier_table_held b (Hok _ _ Eb)).
Qed.

Lemma admissible_ids {W E} `{!TierWriter W E} json cls (s : Store W) ts :
  tiers_ok s -> admissible cls s ->
  ids_identify (concat ((fun t => default [] (store_tables json s !! t)) <$> ts)).
Proof.
  intros Hok Hadm.
  assert (forall r, r ∈ concat ((fun t => default [] (store_tables json s !! t)) <$> ts) ->
    exists e, holds s e /\ r = rowFromEvent json e) as H.
  { intros r (l & (t & -> & _)%list_elem_of_fmap & Hl)%concat_elem. rewrite store_tables_lookup in Hl.
    destruct (tiers s !! t) as [b|] eqn:Eb; simpl in Hl; [|set_solver].
    apply list_elem_of_fmap in Hl as (e & -> & He). exists e. split; [|done].
    exists t, b. split; [done|]. by apply (tier_table_held b (Hok _ _ Eb)). }
  intros r1 r2 (e1 & H1 & ->)%H (e2 & H2 & ->)%H Heq. simpl in Heq. f_equal. by eapply adm_ids.
Qed.

Lemma admissible_routed {W E} `{!TierWriter W E} json cls (s : Store W) :
  tiers_ok s -> admissible cls s -> routed cls (store_tables json s).
Proof.
  intros Hok Hadm t rows r Ht Hr. rewrite store_tables_lookup in Ht.
  apply fmap_Some in Ht as (b & Eb & ->). apply list_elem_of_fmap in Hr as (e & -> & He).
  apply (tier_table_held b (Hok _ _ Eb)) in He. simpl.
  rewrite (scope_kind cls s) by (done || by exists t, b). by eapply (adm_routed cls s).
Qed.

(** Reading the tiers answers the query over everything stored. *)
Lemma tiers_refine {W E} `{!TierWriter W E} json cls `{!GoSort ev_desc, !GoSort row_desc, !GoSort row_rev}
    fault hidden f (s : Store W) limit :
  tiers_ok s -> admissible cls s -> filter_fits32 f -> hot_tags f -> (forall t, fault t = None) ->
  collectTiers json fault hidden (store_tables json s) cls f limit =
    Ok (nip01_answer hidden f (stored_events s) limit).
Proof.
  intros Hok Hadm Hf Ht Hfault.
  rewrite collectTiers_answer; [|by auto|by apply admissible_routed|by apply (admissible_ids json cls)].
  f_equal. apply (answer_events json).
  - apply stored_fits.
  - intros e1 e2. by apply (stored_ids cls).
  - intros r. by apply routed_rows.
Qed.

(** ** Properties *)

(** C1: the store refines the archive specification. After a [FlushAll] that
    returned nil, with any number of concurrent saves before, during and since, a
    client's query that is admitted, is not served by the feed and whose tier scans
    succeed returns exactly what NIP-01 asks for over a set of events that contains
    everything accepted before the flush and nothing that was not accepted: the
    matching events that are not hidden, only the current version of replaceable
    ones, newest first, cut to the clamped limit. Tiers, batching, physical
    duplicates, SQL and the per-tier limits are invisible; the one thing storage does to
    an event is to keep the low 32 bits of its timestamp ([asStored]), which is the event
    itself for timestamps that fit. Conditions on the filter: kinds fit int32, since and
    until fit uint32, tag conditions only on e, p and t. Conditions on the store: the
    accepted kinds are in scope, as both write paths check, and ids identify events. *)
Theorem query_refines_nip01 {W E} `{!TierWriter W E} json cls
    `{!GoSort ev_desc, !GoSort row_desc, !GoSort row_rev}
    (env : QEnv E) order f (s s1 : Store W) :
  tiers_ok s -> FlushAllTiers order s None = (None, s1) -> activeTiers ⊆ map fst order ->
  admissible cls s1 -> filter_fits32 f -> hot_tags f ->
  q_internal env = false -> q_admit env = None ->
  q_hasFeed env && feedEligible (q_now env) f cls = false -> (forall t, q_fault env t = None) ->
  exists evs,
    (forall e, holds s e -> asStored e ∈ evs /\ (fits32 e -> e ∈ evs)) /\
    (forall e, e ∈ evs -> exists e0, holds s1 e0 /\ e = asStored e0) /\
    (QueryEvents json cls env f s1).1 =
      Ok (nip01_answer (dict (tw s1)) f evs (Z.to_nat (clampLimit (fLimit f)))).
Proof.
  intros Hok Hfl Hall Hadm Hf Ht Hint Hadmit Hfeed Hfault.
  assert (tiers_ok s1) as Hok1.
  { pose proof (FlushAllTiers_ok order s None Hok) as [H _]. by rewrite Hfl in H. }
  exists (stored_events s1). split_and!; [|by intros e; apply stored_holds|].
  - intros e He. pose proof (flushed_stored cls order s s1 e Hok Hfl Hall Hadm He) as H.
    split; [done|]. intros H32. by rewrite asStored_id in H.
  - unfold QueryEvents. rewrite Hint, Hadmit. cbn [fst]. unfold collectEvents. rewrite Hfeed.
    by apply tiers_refine.
Qed.

Definition demo_order : list (string * list Label) :=
  [(TierPermanent, [LFlush Sent; LRetry Sent]); (TierArchive, []); (TierSocial, [])].
Definition demo_two : Store Batcher :=
  (SaveEvent ∅ (demo_profile "p2" 20) (SaveEvent ∅ (demo_profile "p1" 10) demo_store).2).2.
Definition demo_client : QEnv (list Label) :=
  mkQEnv false [] None 0 true [] None None (fun _ => None).
Definition demo_profiles : Filter := mkFilter [] [0] ["bob"] [] None None 5.

Lemma demo_two_tiers s :
  s = demo_two \/ s = (FlushAllTiers demo_order demo_two None).2 ->
  forall t b, tiers s !! t = Some b -> t = TierPermanent /\ b = default newBatcher (tiers s !! TierPermanent).
Proof.
  intros Hs t b Eb.
  assert (tiers s = {[ TierPermanent := default newBatcher (tiers s !! TierPermanent) ]}) as Et
    by (by destruct Hs as [->| ->]; vm_compute).
  rewrite Et in Eb. by apply lookup_singleton_Some in Eb as [<- <-].
Qed.

Lemma demo_two_holds s e :
  s = demo_two \/ s = (FlushAllTiers demo_order demo_two None).2 ->
  forall t b, tiers s !! t = Some b -> e ∈ tier_held b ->
  t = TierPermanent /\ e ∈ [demo_profile "p1" 10; demo_profile "p2" 20].
Proof.
  intros Hs t b Eb He. destruct (demo_two_tiers s Hs t b Eb) as [-> ->]. split; [done|].
  destruct Hs as [->| ->]; vm_compute in He; exact He.
Qed.

Lemma demo_two_admissible : admissible ∅ (FlushAllTiers demo_order demo_two None).2.
Proof.
  split.
  - intros e (t & b & Eb & He). pose proof (demo_two_holds _ e (or_intror eq_refl) t b Eb He) as [_ Hin].
    set_unfold in Hin. destruct Hin as [->|[->|[]]]; vm_compute; apply list_elem_of_here.
  - intros t b e Eb He. pose proof (demo_two_holds _ e (or_intror eq_refl) t b Eb He) as [-> Hin].
    set_unfold in Hin. destruct Hin as [->|[->|[]]]; reflexivity.
  - intros e1 e2 (t1 & b1 & E1 & He1) (t2 & b2 & E2 & He2).
    pose proof (demo_two_holds _ e1 (or_intror eq_refl) t1 b1 E1 He1) as [_ Hin1].
    pose proof (demo_two_holds _ e2 (or_intror eq_refl) t2 b2 E2 He2) as [_ Hin2].
    set_unfold in Hin1. set_unfold in Hin2.
    destruct Hin1 as [->|[->|[]]], Hin2 as [->|[->|[]]]; simpl; done.
  - intros t b Eb. destruct (demo_two_tiers _ (or_intror eq_refl) t b Eb) as [-> _]. apply list_elem_of_here.
Qed.

Lemma demo_two_ok : tiers_ok demo_two.
Proof.
  apply SaveEvent_ok, SaveEvent_ok. intros t b Hb. simpl in Hb.
  apply lookup_singleton_Some in Hb as [_ <-]. apply newBatcher_Inv. lia.
Qed.

Lemma query_refines_nip01_witness :
  exists evs, demo_profile "p2" 20 ∈ evs /\
    (QueryEvents demo_json ∅ demo_client demo_profiles (FlushAllTiers demo_order demo_two None).2).1 =
      Ok (nip01_answer ∅ demo_profiles evs 5).
Proof.
  destruct (query_refines_nip01 demo_json ∅ demo_client demo_order demo_profiles demo_two
    (FlushAllTiers demo_order demo_two None).2) as (evs & H1 & _ & H2).
  - exact demo_two_ok.
  - vm_compute. reflexivity.
  - vm_compute. intros x Hx. exact Hx.
  - exact demo_two_admissible.
  - unfold filter_fits32. simpl. split_and!; [|discriminate..]. intros k ->%list_elem_of_singleton. lia.
  - intros kv Hkv. inversion Hkv.
  - reflexivity.
  - reflexivity.
  - reflexivity.
  - reflexivity.
  - exists evs. split; [|exact H2]. apply H1; [|unfold fits32; simpl; lia]. exists TierPermanent.
    eexists. split; [vm_compute; reflexivity|]. vm_compute. apply list_elem_of_further, list_elem_of_here.
Defined.
