(* ===== verification/Engine.v ===== *)
(** * The tier tables on disk (internal/store/schema.go, tierDDL)

    Everywhere else a tier table is the list of the rows ever inserted into it. What
    ClickHouse keeps of them is decided by the table's definition: it is a
    ReplacingMergeTree with sorting key (kind, pubkey, created_at, id), so background
    merges may drop rows that share a key with another one, and it may have a TTL, so
    they may drop rows whose time is over. This file says what such a table can look
    like at the time of a read, and that QueryEvents and CountEvents answer over it what the
    specification asks for over the events that have not expired. *)

From S2P Require Import Prelude Nostr Config Classifier Rows FilterSQL Collapse Query Schema.
From S2P Require Import Batcher Tombstone TierWriter Store Reads Archive.

Section engine.
(** ClickHouse: the second at which [toDateTime(created_at) + INTERVAL ttl] falls. *)
Variable addInterval : string -> Z -> Z.

(** [TTL toDateTime(created_at) + INTERVAL ttl DELETE], absent for the empty string. *)
Definition ttlOver (ttl : string) (now : Z) (r : Row) : Prop :=
  ttl ≠ "" /\ addInterval ttl (row_created_at r) <= now.

(** One background operation on the parts of a table, at any time up to [now]. *)
Inductive background (ttl : string) (now : Z) : relation (list Row) :=
  | bg_reorder rows rows' : rows ≡ₚ rows' -> background ttl now rows rows'
  | bg_merge r1 r2 rows : final_key r1 = final_key r2 -> background ttl now (r1 :: r2 :: rows) (r1 :: rows)
  | bg_expire r rows : ttlOver ttl now r -> background ttl now (r :: rows) rows.

(** The tables on disk, given what was inserted. *)
Definition onDisk (ret : RetentionCfg) (now : Z) (inserted disk : gmap string (list Row)) : Prop :=
  forall t, rtc (background (ttlOf ret t) now) (default [] (inserted !! t)) (default [] (disk !! t)).

(** An event the retention of its tier has not given up. *)
Definition retained (ret : RetentionCfg) (cls : gmap Z string) (now : Z) (e : Event) : Prop :=
  ttlOf ret (tierForEvent e cls) = "" \/ now < addInterval (ttlOf ret (tierForEvent e cls)) (CreatedAt e).

(** ** Lemmas *)

Lemma background_subseteq ttl now rows rows' : rtc (background ttl now) rows rows' -> rows' ⊆ rows.
Proof.
  induction 1 as [rows|rows1 rows2 rows3 Hs _ IH]; [done|]. etrans; [exact IH|].
  destruct Hs as [? ? Hp|r1 r2 rows _|r rows _]; [by rewrite Hp|set_solver..].
Qed.

(** Up to the order of rows, what is left is a selection of what was inserted: the form
    in which the probe of ReplaceEvent sees the table (Store.v). *)
Lemma background_masked ttl now rows rows' :
  rtc (background ttl now) rows rows' -> exists disk, rows' ≡ₚ masked disk rows.
Proof.
  intros Hs. assert (rows' ⊆+ rows) as Hsub.
  { induction Hs as [rows|rows1 rows2 rows3 Hs _ IH]; [done|]. etrans; [exact IH|].
    destruct Hs as [? ? Hp|r1 r2 rows _|r rows _]; [by rewrite Hp| |].
    - apply submseteq_skip. by apply submseteq_cons.
    - by apply submseteq_cons. }
  apply submseteq_sublist_r in Hsub as (l & Hp & Hl). destruct (sublist_masked _ _ Hl) as [m ->]. by exists m.
Qed.

(** A row whose time is not over keeps a row with its key. *)
Lemma background_keeps ttl now rows rows' r :
  rtc (background ttl now) rows rows' -> r ∈ rows -> ~ ttlOver ttl now r ->
  exists r', r' ∈ rows' /\ final_key r' = final_key r.
Proof.
  intros Hs. revert r. induction Hs as [rows|rows1 rows2 rows3 Hs _ IH]; intros r Hr Hn; [by exists r|].
  assert (exists r', r' ∈ rows2 /\ final_key r' = final_key r) as (r' & Hr' & Hk).
  { destruct Hs as [? ? Hp|r1 r2 rows Hk|r0 rows Hx].
    - exists r. by rewrite <-Hp.
    - apply elem_of_cons in Hr as [->|[->|Hr]%elem_of_cons]; 
        [exists r1; split; [apply list_elem_of_here|done]..|].
      exists r. split; [by apply list_elem_of_further|done].
    - apply elem_of_cons in Hr as [->|Hr]; [done|by exists r]. }
  destruct (IH r' Hr') as (r'' & Hr'' & Hk'); [|exists r''; split; [done|congruence]].
  intros [H1 H2]. apply Hn. split; [done|]. by injection Hk as _ _ <- _.
Qed.

Section disk.
Context {W E : Type} `{!TierWriter W E}.
Variables (json : string -> string) (cls : gmap Z string) (ret : RetentionCfg) (now : Z).
Variables (s : Store W) (disk : gmap string (list Row)).
Hypothesis Hok : tiers_ok s.
Hypothesis Hadm : admissible cls s.
Hypothesis Hdisk : onDisk ret now (store_tables json s) disk.

Definition diskRows (t : string) : list Row := default [] (disk !! t).

(** The stored events that are still on disk. *)
Definition survivors : list Event :=
  filter (fun e => rowFromEvent json e ∈ diskRows (tierForEvent e cls)) (stored_events s).

Lemma stored_tier e t b e0 :
  tiers s !! t = Some b -> e0 ∈ tier_table b -> e = asStored e0 -> tierForEvent e cls = t.
Proof.
  intros Eb He ->. apply (tier_table_held b (Hok _ _ Eb)) in He. unfold tierForEvent. simpl.
  rewrite (scope_kind cls s e0 Hadm) by (by exists t, b). by eapply adm_routed.
Qed.

Lemma disk_event t r :
  r ∈ diskRows t -> exists e, e ∈ stored_events s /\ r = rowFromEvent json e /\ tierForEvent e cls = t.
Proof.
  intros Hr. apply (background_subseteq _ _ _ _ (Hdisk t)) in Hr. rewrite store_tables_lookup in Hr.
  destruct (tiers s !! t) as [b|] eqn:Eb; simpl in Hr; [|set_solver].
  apply list_elem_of_fmap in Hr as (e & -> & He). exists (asStored e). rewrite row_asStored.
  split_and!; [|done|by eapply stored_tier].
  apply stored_elem. exists t, b, e. split_and!; [by eapply adm_tiers|done..].
Qed.

Lemma stored_in_table e :
  e ∈ stored_events s -> rowFromEvent json e ∈ default [] (store_tables json s !! tierForEvent e cls).
Proof.
  intros (t & b & e0 & _ & Eb & He & E0)%stored_elem. rewrite (stored_tier e t b e0) by done.
  rewrite store_tables_lookup, Eb. subst e. rewrite row_asStored. by apply list_elem_of_fmap_2.
Qed.

Lemma stored_ids' e1 e2 : e1 ∈ stored_events s -> e2 ∈ stored_events s -> ID e1 = ID e2 -> e1 = e2.
Proof. by apply (stored_ids cls). Qed.

Lemma survivors_elem e :
  e ∈ survivors <-> e ∈ stored_events s /\ rowFromEvent json e ∈ diskRows (tierForEvent e cls).
Proof. unfold survivors. rewrite list_elem_of_filter. tauto. Qed.

Lemma retained_survives e : e ∈ stored_events s -> retained ret cls now e -> e ∈ survivors.
Proof.
  intros He Hret. apply survivors_elem. split; [done|].
  destruct (background_keeps _ _ _ _ (rowFromEvent json e) (Hdisk (tierForEvent e cls)) (stored_in_table e He))
    as (r & Hr & Hk).
  { intros [H1 H2]. simpl in H2. rewrite uint32_id in H2 by (by eapply stored_fits). destruct Hret; [done|lia]. }
  destruct (disk_event _ r Hr) as (e' & He' & -> & _). injection Hk as _ _ _ Hid.
  assert (e' = e) as -> by (by apply stored_ids'). exact Hr.
Qed.

Lemma disk_ids ts : ids_identify (concat (diskRows <$> ts)).
Proof.
  intros r1 r2 (l1 & (t1 & -> & _)%list_elem_of_fmap & H1)%concat_elem (l2 & (t2 & -> & _)%list_elem_of_fmap & H2)%concat_elem.
  apply disk_event in H1 as (e1 & He1 & -> & _). apply disk_event in H2 as (e2 & He2 & -> & _).
  simpl. intros Hid. f_equal. by apply stored_ids'.
Qed.

Lemma disk_routed : routed cls disk.
Proof.
  intros t rows r Ht Hr. destruct (disk_event t r) as (e & He & -> & <-); [unfold diskRows; by rewrite Ht|].
  simpl. by rewrite uint32_id by (by eapply stored_fits).
Qed.

(** As far as a filter can see, the rows on disk are the rows of the survivors. *)
Lemma disk_rows hidden f r :
  filter_fits32 f -> hot_tags f ->
  r ∈ filter (where_holds json hidden f) (concat (diskRows <$> tiersForFilter f cls)) <->
  exists e, e ∈ filter (wanted hidden f) survivors /\ r = rowFromEvent json e.
Proof.
  intros Hf Ht. pose proof (fun r => routed_rows json cls hidden f s r Hok Hadm Hf Ht) as Hall.
  rewrite list_elem_of_filter, concat_elem. setoid_rewrite list_elem_of_filter. setoid_rewrite survivors_elem. split.
  - intros (Hw & l & (t & -> & Hin)%list_elem_of_fmap & Hl).
    destruct (disk_event t r Hl) as (e & He & -> & Htier). exists e. split; [|done].
    rewrite Htier. split; [|done]. apply where_is_nip01_matching in Hw; [done|by eapply stored_fits|done..].
  - intros (e & (Hw & He & Hd) & ->). 
    assert (rowFromEvent json e ∈ filter (where_holds json hidden f)
      (concat ((fun t => default [] (store_tables json s !! t)) <$> tiersForFilter f cls)))
      as [Hwh Hin]%list_elem_of_filter by (apply Hall; exists e; split; [by apply list_elem_of_filter|done]).
    split; [done|]. exists (diskRows (tierForEvent e cls)). split; [|done].
    apply list_elem_of_fmap. exists (tierForEvent e cls). split; [done|].
    apply concat_elem in Hin as (l & (t & -> & Hin)%list_elem_of_fmap & Hl).
    destruct (store_tables json s !! t) as [rows|] eqn:Et; simpl in Hl; [|set_solver].
    pose proof (admissible_routed json cls s Hok Hadm t rows _ Et Hl) as <-. simpl in Hin.
    by rewrite uint32_id in Hin by (by eapply stored_fits).
Qed.

Context `{!GoSort ev_desc, !GoSort row_desc, !GoSort row_rev}.

Lemma disk_query fault hidden f limit :
  filter_fits32 f -> hot_tags f -> (forall t, fault t = None) ->
  collectTiers json fault hidden disk cls f limit = Ok (nip01_answer hidden f survivors limit).
Proof.
  intros Hf Ht Hfault.
  rewrite collectTiers_answer; [|by auto|by apply disk_routed|by apply disk_ids].
  f_equal. apply (answer_events json).
  - intros e [He _]%survivors_elem. by eapply stored_fits.
  - intros e1 e2 [H1 _]%survivors_elem [H2 _]%survivors_elem. by apply stored_ids'.
  - intros r. by apply disk_rows.
Qed.

(** The rows COUNT counts. *)
Definition counted (hidden : gset string) (f : Filter) : list Row :=
  concat ((fun t => filter (where_holds json hidden f) (limit_1_by final_key [] (diskRows t))) <$> tiersForFilter f cls).

Lemma counted_length hidden f :
  length (counted hidden f) =
  sum_list_with (fun t => countTier json hidden f (default [] (disk !! t))) (tiersForFilter f cls).
Proof.
  unfold counted. induction (tiersForFilter f cls) as [|t ts IH]; simpl; [done|]. rewrite length_app. by f_equal.
Qed.

Lemma counted_elem hidden f r :
  r ∈ counted hidden f <-> r ∈ filter (where_holds json hidden f) (concat (diskRows <$> tiersForFilter f cls)).
Proof.
  unfold counted. rewrite list_elem_of_filter, !concat_elem.
  assert (forall t, ids_identify (diskRows t)) as Hids.
  { intros t. pose proof (disk_ids [t]) as H. simpl in H. by rewrite app_nil_r in H. }
  split.
  - intros (l & (t & -> & Ht)%list_elem_of_fmap & [Hw Hr]%list_elem_of_filter).
    rewrite final_elem in Hr by apply Hids. split; [done|]. exists (diskRows t).
    split; [by apply list_elem_of_fmap_2|done].
  - intros (Hw & l & (t & -> & Ht)%list_elem_of_fmap & Hr). eexists. split; [by apply list_elem_of_fmap_2|].
    apply list_elem_of_filter. split; [done|]. by rewrite final_elem by apply Hids.
Qed.

Lemma counted_NoDup hidden f : NoDup (counted hidden f).
Proof.
  unfold counted. pose proof (tiersForFilter_NoDup f cls) as Hnd.
  induction (tiersForFilter f cls) as [|t ts IH]; simpl; [constructor|]. apply NoDup_cons in Hnd as [Hni Hnd].
  apply NoDup_app. split_and!; [apply NoDup_filter, limit_1_by_NoDup| |by apply IH].
  intros r [_ Hr]%list_elem_of_filter (l & (t' & -> & Ht')%list_elem_of_fmap & [_ Hr']%list_elem_of_filter)%concat_elem.
  apply (sublist_subseteq _ _ (limit_1_by_sublist _ _ _)) in Hr, Hr'.
  destruct (disk_event t r Hr) as (e & He & -> & <-). destruct (disk_event t' _ Hr') as (e' & He' & Heq & <-).
  assert (e' = e) as -> by (apply stored_ids'; [done..|by injection Heq]). done.
Qed.

Lemma disk_count hidden f :
  filter_fits32 f -> hot_tags f ->
  countTiers json (fun _ => None) hidden disk f (tiersForFilter f cls) 0 =
  Ok (Z.of_nat (length (filter (wanted hidden f) (remove_dups survivors)))).
Proof.
  intros Hf Ht. rewrite countTiers_ok, <-counted_length, Z.add_0_l. do 2 f_equal.
  rewrite <-(length_map (rowFromEvent json)). apply Permutation_length, NoDup_Permutation.
  - apply counted_NoDup.
  - apply NoDup_fmap_2_strong; [|apply NoDup_filter, NoDup_remove_dups].
    intros e1 e2 [_ H1]%list_elem_of_filter [_ H2]%list_elem_of_filter Heq.
    apply elem_of_remove_dups, survivors_elem in H1 as [H1 _], H2 as [H2 _].
    apply stored_ids'; [done..|by injection Heq].
  - intros r. rewrite counted_elem, disk_rows, list_elem_of_fmap by done.
    setoid_rewrite list_elem_of_filter. setoid_rewrite elem_of_remove_dups. naive_solver.
Qed.
End disk.
End engine.

(** ** Properties *)

(** C3: merges and retention do not show. Whatever ClickHouse has merged and whatever it
    has expired, at any time up to the read: over the tables on disk a query whose tier
    scans succeed returns exactly the NIP-01 answer over a set of stored events that
    contains every event its tier's retention has not given up, and a COUNT whose scans
    succeed is the number of events of that set that match and are not hidden. COUNT does
    not collapse versions: it counts every stored version of a replaceable event, where a
    query returns one. Where no retention applies the set is everything stored, so both
    answer as if every inserted row were still there. Events are taken as stored (32-bit
    timestamps), their kinds are in scope and ids identify them; the filter's numbers fit
    the 32-bit bindings and its tag conditions are on e, p and t. *)
Theorem disk_reads_refine_nip01 addInterval {W E} `{!TierWriter W E} json cls
    `{!GoSort ev_desc, !GoSort row_desc, !GoSort row_rev} ret now (s : Store W) disk fault f limit :
  tiers_ok s -> admissible cls s -> onDisk addInterval ret now (store_tables json s) disk ->
  filter_fits32 f -> hot_tags f -> (forall t, fault t = None) ->
  let hidden := dict (tw s) in
  exists evs,
    (forall e, e ∈ evs -> e ∈ stored_events s) /\
    (forall e, e ∈ stored_events s -> retained addInterval ret cls now e -> e ∈ evs) /\
    ((forall t, t ∈ activeTiers -> ttlOf ret t = "") -> evs = stored_events s) /\
    collectTiers json fault hidden disk cls f limit = Ok (nip01_answer hidden f evs limit) /\
    countTiers json (fun _ => None) hidden disk f (tiersForFilter f cls) 0 =
      Ok (Z.of_nat (length (filter (wanted hidden f) (remove_dups evs)))).
Proof.
  intros Hok Hadm Hdisk Hf Ht Hfault hidden. exists (survivors json cls s disk).
  assert (forall e, e ∈ stored_events s -> retained addInterval ret cls now e -> e ∈ survivors json cls s disk) as Hret.
  { intros e. by apply (retained_survives addInterval json cls ret now s disk). }
  split_and!; [|exact Hret| |by eapply disk_query|by eapply disk_count].
  - by intros e [He _]%survivors_elem.
  - intros Hno. unfold survivors. apply filter_all. intros e He.
    apply (survivors_elem json cls s disk e), Hret; [done|]. left. apply Hno. pose proof He as (t & b & e0 & Hact & Eb & Hb & E0)%stored_elem.
    by rewrite (stored_tier cls s Hok Hadm e t b e0).
Qed.

(** Two versions of a profile, the older one past a retention of five seconds. *)
Definition demo_retention : RetentionCfg := mkRetentionCfg "5 SECOND" "" "".
Definition demo_interval (ttl : string) (created : Z) : Z := created + 5.
Definition demo_kept : gmap string (list Row) :=
  {[ TierPermanent := [rowFromEvent demo_json (demo_profile "p2" 20)] ]}.
Definition demo_flushed : Store Batcher := (FlushAllTiers demo_order demo_two None).2.

Lemma demo_onDisk : onDisk demo_interval demo_retention 17 (store_tables demo_json demo_flushed) demo_kept.
Proof.
  intros t. rewrite store_tables_lookup. destruct (decide (t = TierPermanent)) as [->|Hne].
  - vm_compute default. eapply rtc_l; [|apply rtc_refl]. apply bg_expire. split; [done|]. unfold demo_interval. simpl. lia.
  - destruct (tiers demo_flushed !! t) as [b|] eqn:Eb.
    { destruct Hne. exact (proj1 (demo_two_tiers demo_flushed (or_intror eq_refl) t b Eb)). }
    unfold demo_kept. rewrite lookup_singleton_ne by done. apply rtc_refl.
Qed.

Lemma disk_reads_refine_nip01_witness :
  exists evs, demo_profile "p2" 20 ∈ evs /\
    collectTiers demo_json (fun _ => None) ∅ demo_kept ∅ demo_profiles 5 = Ok (nip01_answer ∅ demo_profiles evs 5).
Proof.
  destruct (disk_reads_refine_nip01 demo_interval demo_json ∅ demo_retention 17 demo_flushed demo_kept (fun _ => None)
    demo_profiles 5) as (evs & _ & H1 & _ & H2 & _).
  - pose proof (FlushAllTiers_ok demo_order demo_two None demo_two_ok) as [H _]. exact H.
  - exact demo_two_admissible.
  - exact demo_onDisk.
  - unfold filter_fits32. simpl. split_and!; [|discriminate..]. intros k ->%list_elem_of_singleton. lia.
  - intros kv Hkv. inversion Hkv.
  - reflexivity.
  - exists evs. split; [|exact H2]. apply H1; [|right; vm_compute; reflexivity].
    apply (bool_decide_unpack _). vm_compute. exact I.
Defined.
