(* ===== verification/Control.v ===== *)
(** * Control plane (internal/control/control.go)

    The SQLite tables as data and every statement the package runs on them.
    [seen_events] has no INTEGER PRIMARY KEY, so SQLite gives each row a rowid one
    past the largest in use: the table is the list of its rows in rowid order.
    A statement can fail; the outcome is an argument of the operation. *)

From S2P Require Import Prelude Config.

Record SeenRow := mkSeenRow { rowid : Z; seen_id : string; seen_created_at : Z }.
Record AllowedPubkey := mkAllowedPubkey { ap_Pubkey : string; ap_Note : string; ap_CreatedAt : Z }.
Record CrawlState := mkCrawlState { last_fetched : Z; last_full_sweep : Z; updated_at : Z }.
Record ScheduledRow := mkScheduledRow { event_json : string; publish_at : Z }.

#[export] Instance SeenRow_eq_dec : EqDecision SeenRow.
Proof. solve_decision. Defined.

Record DB := mkDB {
  seen_events : list SeenRow;
  allowed_pubkeys : gmap string (string * Z);       (* note, created_at *)
  crawl_state : gmap string CrawlState;
  scheduled_events : gmap string ScheduledRow;
}.

Definition emptyDB : DB := mkDB [] ∅ ∅ ∅.

(** ** seen_events *)

Definition set_seen (s : list SeenRow) (db : DB) : DB :=
  mkDB s (allowed_pubkeys db) (crawl_state db) (scheduled_events db).

(** [INSERT OR IGNORE INTO seen_events(id, created_at) VALUES(?, ?)] *)
Definition next_rowid (s : list SeenRow) : Z :=
  match last s with Some r => rowid r + 1 | None => 1 end.
Definition insert_seen (i : string) (createdAt : Z) (s : list SeenRow) : list SeenRow * Z :=
  if decide (i ∈ map seen_id s) then (s, 0)
  else (s ++ [mkSeenRow (next_rowid s) i createdAt], 1).

Definition MarkSeen (fault : option error) (i : string) (createdAt : Z) (db : DB) : result bool * DB :=
  match fault with
  | Some e => (Err e, db)
  | None => let '(s, n) := insert_seen i createdAt (seen_events db) in (Ok (0 <? n), set_seen s db)
  end.

Record SeenRef := mkSeenRef { ref_ID : string; ref_CreatedAt : Z }.

(** Where the transaction of [MarkSeenBatch] fails, if it does. *)
Inductive TxFault :=
  | TxOk
  | TxBegin (e : error)
  | TxPrepare (e : error)
  | TxExec (k : nat) (e : error)      (* the [k]-th statement *)
  | TxCommit (e : error).

(** The transaction: the database it began on, and its own view of seen_events. *)
Record Tx := mkTx { tx_base : DB; tx_view : list SeenRow }.
Definition BeginTx (db : DB) : Tx := mkTx db (seen_events db).
Definition Rollback (tx : Tx) : DB := tx_base tx.
Definition Commit (tx : Tx) : DB := set_seen (tx_view tx) (tx_base tx).

(** The loop of [stmt.ExecContext], from the [k]-th item on. *)
Fixpoint execItems (fault : TxFault) (k : nat) (items : list SeenRef) (tx : Tx) : option error * Tx :=
  match items with
  | [] => (None, tx)
  | it :: items' =>
      match fault with
      | TxExec k' e =>
          if decide (k' = k) then (Some e, tx)
          else execItems fault (S k) items'
                 (mkTx (tx_base tx) (insert_seen (ref_ID it) (ref_CreatedAt it) (tx_view tx)).1)
      | _ => execItems fault (S k) items'
               (mkTx (tx_base tx) (insert_seen (ref_ID it) (ref_CreatedAt it) (tx_view tx)).1)
      end
  end.

(** What a loop that meets no fault leaves. *)
Fixpoint insert_all (items : list SeenRef) (s : list SeenRow) : list SeenRow :=
  match items with
  | [] => s
  | it :: items' => insert_all items' (insert_seen (ref_ID it) (ref_CreatedAt it) s).1
  end.

(** Every exit after BeginTx and before a successful Commit goes through the deferred
    [tx.Rollback()]. *)
Definition MarkSeenBatch (fault : TxFault) (items : list SeenRef) (db : DB) : option error * DB :=
  match items with
  | [] => (None, db)
  | _ :: _ =>
      match fault with
      | TxBegin e => (Some e, db)
      | TxPrepare e => (Some e, Rollback (BeginTx db))
      | _ =>
          let '(err, tx) := execItems fault 0 items (BeginTx db) in
          match err with
          | Some e => (Some e, Rollback tx)
          | None =>
              match fault with
              | TxCommit e => (Some e, Rollback tx)
              | _ => (None, Commit tx)
              end
          end
      end
  end.

(** [SELECT id FROM seen_events ORDER BY rowid DESC LIMIT ?] *)
Definition LoadRecentSeen (fault : option error) (limit : nat) (db : DB) : result (list string) :=
  match fault with
  | Some e => Err e
  | None => Ok (take limit (reverse (map seen_id (seen_events db))))
  end.

(** [DELETE FROM seen_events WHERE created_at < ?]; [now] and [maxAge] in ns. *)
Definition PruneSeen (fault : option error) (now maxAge : Z) (db : DB) : result Z * DB :=
  match fault with
  | Some e => (Err e, db)
  | None =>
      let cutoff := (now - maxAge) / Second in
      let kept := filter (fun r => ~ seen_created_at r < cutoff) (seen_events db) in
      (Ok (Z.of_nat (length (seen_events db)) - Z.of_nat (length kept)), set_seen kept db)
  end.

(** One chunk of the cap prune deletes the [n] oldest rows. [faults k] is the outcome
    of the [k]-th transaction; a failed one is rolled back. *)
Fixpoint prune_loop (fuel : nat) (chunk : nat) (cap_ : nat) (faults : nat -> option error) (k : nat)
    (count : nat) (deleted : nat) (s : list SeenRow) : option error * nat * list SeenRow :=
  match fuel with
  | O => (None, deleted, s)
  | S fuel' =>
      if decide (cap_ < count)%nat then
        let n := if decide (count - cap_ < chunk)%nat then (count - cap_)%nat else chunk in
        match faults k with
        | Some e => (Some e, deleted, s)
        | None =>
            let got := Nat.min n (length s) in
            if decide (got = 0)%nat then (None, deleted, drop n s)
            else prune_loop fuel' chunk cap_ faults (S k) (count - got) (deleted + got) (drop n s)
        end
      else (None, deleted, s)
  end.

Definition PruneSeenByRowid (chunk : nat) (countFault : option error) (faults : nat -> option error)
    (cap_ : Z) (db : DB) : (option error * nat) * DB :=
  if cap_ <=? 0 then ((None, 0%nat), db)
  else match countFault with
       | Some e => ((Some e, 0%nat), db)
       | None =>
           let count := length (seen_events db) in
           let '(err, deleted, s) :=
             prune_loop (S count) chunk (Z.to_nat cap_) faults 0 count 0 (seen_events db) in
           ((err, deleted), set_seen s db)
       end.

(** ** allowed_pubkeys *)

Definition set_allowed (m : gmap string (string * Z)) (db : DB) : DB :=
  mkDB (seen_events db) m (crawl_state db) (scheduled_events db).

(** [INSERT OR REPLACE] *)
Definition AllowPubkey (fault : option error) (now : Z) (pubkey note : string) (db : DB) : option error * DB :=
  match fault with
  | Some e => (Some e, db)
  | None => (None, set_allowed (<[pubkey := (note, now)]> (allowed_pubkeys db)) db)
  end.

Definition RevokePubkey (fault : option error) (pubkey : string) (db : DB) : option error * DB :=
  match fault with
  | Some e => (Some e, db)
  | None => (None, set_allowed (delete pubkey (allowed_pubkeys db)) db)
  end.

Definition ap_oldest : relation AllowedPubkey := fun a b => ap_CreatedAt a <= ap_CreatedAt b.
#[export] Instance ap_oldest_dec : RelDecision ap_oldest.
Proof. unfold ap_oldest. intros a b. apply _. Defined.
#[export] Instance ap_oldest_trans : Transitive ap_oldest.
Proof. unfold ap_oldest. intros a b c. lia. Qed.
#[export] Instance ap_oldest_total : Total ap_oldest.
Proof. unfold ap_oldest. intros a b. lia. Qed.

(** [SELECT pubkey, note, created_at FROM allowed_pubkeys ORDER BY created_at] *)
Definition ListAllowed `{!GoSort ap_oldest} (fault : option error) (db : DB)
    : result (list AllowedPubkey) :=
  match fault with
  | Some e => Err e
  | None => Ok (go_sort ap_oldest
      (map (fun kv => mkAllowedPubkey kv.1 kv.2.1 kv.2.2) (map_to_list (allowed_pubkeys db))))
  end.

Definition LoadAllowedSet (fault : option error) (db : DB) : result (gset string) :=
  match fault with
  | Some e => Err e
  | None => Ok (dom (allowed_pubkeys db))
  end.

(** ** crawl_state *)

Definition set_crawl (m : gmap string CrawlState) (db : DB) : DB :=
  mkDB (seen_events db) (allowed_pubkeys db) m (scheduled_events db).

(** [SELECT last_fetched ...]; ErrNoRows is 0. *)
Definition LastFetched (fault : option error) (pubkey : string) (db : DB) : result Z :=
  match fault with
  | Some e => Err e
  | None => Ok (match crawl_state db !! pubkey with Some c => last_fetched c | None => 0 end)
  end.

Definition LastSwept (fault : option error) (pubkey : string) (db : DB) : result Z :=
  match fault with
  | Some e => Err e
  | None => Ok (match crawl_state db !! pubkey with Some c => last_full_sweep c | None => 0 end)
  end.

(** [INSERT ... ON CONFLICT(pubkey) DO UPDATE SET last_fetched, updated_at] *)
Definition MarkFetched (fault : option error) (now : Z) (pubkey : string) (db : DB) : option error * DB :=
  match fault with
  | Some e => (Some e, db)
  | None =>
      let c := match crawl_state db !! pubkey with
               | Some c => mkCrawlState now (last_full_sweep c) now
               | None => mkCrawlState now 0 now
               end in
      (None, set_crawl (<[pubkey := c]> (crawl_state db)) db)
  end.

Definition MarkSwept (fault : option error) (now : Z) (pubkey : string) (db : DB) : option error * DB :=
  match fault with
  | Some e => (Some e, db)
  | None =>
      let c := match crawl_state db !! pubkey with
               | Some c => mkCrawlState (last_fetched c) now now
               | None => mkCrawlState 0 now now
               end in
      (None, set_crawl (<[pubkey := c]> (crawl_state db)) db)
  end.

(** ** scheduled_events *)

Definition set_scheduled (m : gmap string ScheduledRow) (db : DB) : DB :=
  mkDB (seen_events db) (allowed_pubkeys db) (crawl_state db) m.

Definition SaveScheduled (fault : option error) (i eventJSON : string) (publishAt : Z) (db : DB)
    : option error * DB :=
  match fault with
  | Some e => (Some e, db)
  | None => (None, set_scheduled (<[i := mkScheduledRow eventJSON publishAt]> (scheduled_events db)) db)
  end.

Record ScheduledEvent := mkScheduledEvent { se_ID : string; se_EventJSON : string }.

Definition due_first : relation (string * ScheduledRow) :=
  fun a b => publish_at a.2 <= publish_at b.2.
#[export] Instance due_first_dec : RelDecision due_first.
Proof. unfold due_first. intros a b. apply _. Defined.
#[export] Instance due_first_trans : Transitive due_first.
Proof. unfold due_first. intros a b c. lia. Qed.
#[export] Instance due_first_total : Total due_first.
Proof. unfold due_first. intros a b. lia. Qed.

(** [SELECT id, event_json ... WHERE publish_at <= ? ORDER BY publish_at LIMIT ?] *)
Definition LoadDueScheduled `{!GoSort due_first} (fault : option error) (now : Z) (limit : nat) (db : DB)
    : result (list ScheduledEvent) :=
  match fault with
  | Some e => Err e
  | None =>
      Ok (map (fun kv => mkScheduledEvent kv.1 (event_json kv.2))
        (take limit (go_sort due_first
           (filter (fun kv => publish_at kv.2 <= now) (map_to_list (scheduled_events db))))))
  end.

Definition DeleteScheduled (fault : option error) (i : string) (db : DB) : option error * DB :=
  match fault with
  | Some e => (Some e, db)
  | None => (None, set_scheduled (delete i (scheduled_events db)) db)
  end.

(** ** Invariant of seen_events: ids unique, rowids increasing *)

Record seen_ok (s : list SeenRow) : Prop := {
  seen_unique : NoDup (map seen_id s);
  seen_sorted : StronglySorted Z.lt (map rowid s);
}.

Lemma insert_seen_ids i ca s :
  forall x, x ∈ map seen_id (insert_seen i ca s).1 <-> x = i \/ x ∈ map seen_id s.
Proof.
  intros x. unfold insert_seen. case_decide; simpl; [set_solver|].
  rewrite map_app. simpl. set_solver.
Qed.

Lemma insert_seen_prefix i ca s : s `prefix_of` (insert_seen i ca s).1.
Proof. unfold insert_seen. case_decide; simpl; [done|]. by eexists. Qed.

Lemma insert_seen_ok i ca s : seen_ok s -> seen_ok (insert_seen i ca s).1.
Proof.
  intros [Hu Hs]. unfold insert_seen. case_decide as Hi; simpl; [by split|].
  split; rewrite map_app; simpl.
  - apply NoDup_app. split_and!; [done| |apply NoDup_singleton]. set_solver.
  - apply StronglySorted_app. split_and!; [|done|by repeat constructor].
    intros x y Hx Hy. apply list_elem_of_singleton in Hy as ->.
    unfold next_rowid. destruct (last s) as [r|] eqn:El.
    + apply last_Some in El as [s0 ->]. rewrite map_app in Hs, Hx. simpl in *.
      apply StronglySorted_app in Hs as (Hlt & _ & _).
      apply elem_of_app in Hx as [Hx|Hx]; [|set_unfold in Hx; lia].
      specialize (Hlt x (rowid r) Hx ltac:(set_solver)). lia.
    + apply last_None in El as ->. set_solver.
Qed.

Lemma insert_all_spec items s :
  (forall x, x ∈ map seen_id (insert_all items s) <-> x ∈ map ref_ID items \/ x ∈ map seen_id s) /\
  s `prefix_of` insert_all items s /\ (seen_ok s -> seen_ok (insert_all items s)).
Proof.
  revert s. induction items as [|it items IH]; intros s; simpl; [set_solver|].
  destruct (IH (insert_seen (ref_ID it) (ref_CreatedAt it) s).1) as (H1 & H2 & H3).
  split_and!.
  - intros x. rewrite H1, insert_seen_ids, elem_of_cons. tauto.
  - etrans; [apply insert_seen_prefix|done].
  - intros Hs. by apply H3, insert_seen_ok.
Qed.

Lemma seen_ok_sublist s s' : sublist s' s -> seen_ok s -> seen_ok s'.
Proof.
  intros Hsub [Hu Hs]. split.
  - eapply sublist_NoDup; [exact Hu|]. by apply (fmap_sublist seen_id).
  - eapply StronglySorted_sublist; [|exact Hs]. by apply (fmap_sublist rowid).
Qed.

(** The cap prune removes the oldest rows, as many as it reports, and without a
    fault exactly the surplus. *)
Lemma prune_loop_spec fuel chunk cap_ faults k count deleted s :
  (1 <= chunk)%nat -> count = length s -> (count < fuel)%nat ->
  let '(err, d, s') := prune_loop fuel chunk cap_ faults k count deleted s in
  exists m, s' = drop m s /\ d = (deleted + m)%nat /\ (m <= count - cap_)%nat /\
    ((forall j, faults j = None) -> err = None) /\ (err = None -> m = (count - cap_)%nat).
Proof.
  intros Hc. revert k count deleted s. induction fuel as [|fuel IH]; intros k count deleted s Hlen Hfuel; [lia|].
  cbn [prune_loop]. case_decide as Hgt; [|exists 0%nat; rewrite drop_0; split_and!; try done; lia].
  set (n := if decide (count - cap_ < chunk)%nat then (count - cap_)%nat else chunk).
  assert (1 <= n <= count - cap_)%nat as Hn by (unfold n; case_decide; lia).
  destruct (faults k) as [e|] eqn:Ef.
  { exists 0%nat. rewrite drop_0. split_and!; try done; try lia. intros Hall. by rewrite Hall in Ef. }
  rewrite decide_False by lia.
  assert (Nat.min n (length s) = n) as -> by lia.
  specialize (IH (S k) (count - n)%nat (deleted + n)%nat (drop n s)).
  destruct (prune_loop fuel chunk cap_ faults (S k) (count - n) (deleted + n) (drop n s)) as [[err d] s'].
  destruct IH as (m & E1 & E2 & Hm & Hn1 & Hn2); [rewrite length_drop; lia|lia|].
  exists (n + m)%nat. rewrite E1, E2, drop_drop. split_and!; try done; try lia.
  intros He. specialize (Hn2 He). lia.
Qed.

Lemma execItems_spec fault k items tx :
  let '(err, tx') := execItems fault k items tx in
  tx_base tx' = tx_base tx /\ (err = None -> tx_view tx' = insert_all items (tx_view tx)) /\
  (fault = TxOk -> err = None).
Proof.
  revert k tx. induction items as [|it items IH]; intros k tx; simpl; [done|].
  set (tx1 := mkTx _ _). specialize (IH (S k) tx1).
  destruct fault as [| | |k' e|]; try (destruct (execItems _ (S k) items tx1) as [err tx']; done).
  case_decide; [done|]. by destruct (execItems _ (S k) items tx1) as [err tx'].
Qed.

(** A batch is recorded as a whole, or reports an error and leaves the table. *)
Lemma MarkSeenBatch_cases fault items db :
  MarkSeenBatch fault items db = (None, set_seen (insert_all items (seen_events db)) db) \/
  fault ≠ TxOk /\ exists e, MarkSeenBatch fault items db = (Some e, db).
Proof.
  unfold MarkSeenBatch. destruct items as [|it items]; [left; simpl; by destruct db|].
  pose proof (execItems_spec fault 0 (it :: items) (BeginTx db)) as Hx.
  destruct (execItems fault 0 (it :: items) (BeginTx db)) as [err tx]. destruct Hx as (Hb & Hv & Hok).
  unfold Rollback, Commit, BeginTx in *. simpl in Hb, Hv.
  destruct fault; [|right; split; [done|by eexists]|right; split; [done|by eexists]|..]; destruct err as [e'|];
    [by specialize (Hok eq_refl)|..]; rewrite ?Hb;
    try (right; split; [done|by eexists]); left; by rewrite Hv.
Qed.

(** ** Properties *)

(** C30: recording seen ids is atomic and idempotent. A [MarkSeenBatch] that reports
    an error changed nothing; one that succeeds leaves exactly the old ids and the
    batch's, each once, never rewrites or reorders an existing row, and running the
    same batch again changes nothing more. *)
Theorem markSeenBatch_atomic fault items db err db' :
  seen_ok (seen_events db) -> MarkSeenBatch fault items db = (err, db') ->
  (err ≠ None -> db' = db) /\
  (err = None ->
     seen_ok (seen_events db') /\ seen_events db `prefix_of` seen_events db' /\
     (forall i, i ∈ map seen_id (seen_events db') <->
        i ∈ map ref_ID items \/ i ∈ map seen_id (seen_events db)) /\
     (MarkSeenBatch TxOk items db').2 = db').
Proof.
  intros Hok Hm.
  assert (err = None /\ db' = set_seen (insert_all items (seen_events db)) db \/ err ≠ None /\ db' = db)
    as [[-> ->]|[He ->]].
  { destruct (MarkSeenBatch_cases fault items db) as [E|(_ & e & E)]; rewrite E in Hm; simplify_eq; auto. }
  - split; [done|]. intros _. destruct (insert_all_spec items (seen_events db)) as (H1 & H2 & H3).
    split_and!; [by apply H3|done|done|].
    destruct (MarkSeenBatch_cases TxOk items (set_seen (insert_all items (seen_events db)) db)) as [->|[[] _]];
      [|done]. unfold set_seen. simpl. f_equal.
    assert (forall l s, (forall it, it ∈ l -> ref_ID it ∈ map seen_id s) -> insert_all l s = s) as Hid.
    { intros l. induction l as [|x l IHl]; intros s Hin; [done|]. simpl. unfold insert_seen.
      rewrite decide_True by (apply Hin; set_solver). apply IHl. set_solver. }
    apply Hid. intros x Hx. apply (H1 (ref_ID x)). left. by apply list_elem_of_fmap_2.
  - split; [done|]. done.
Qed.

Lemma markSeenBatch_atomic_witness :
  let batch := [mkSeenRef "a" 1; mkSeenRef "b" 2; mkSeenRef "a" 9] in
  (MarkSeenBatch (TxCommit (Opaque "disk full")) batch emptyDB).2 = emptyDB /\
  seen_events (MarkSeenBatch TxOk batch emptyDB).2 = [mkSeenRow 1 "a" 1; mkSeenRow 2 "b" 2] /\
  (MarkSeenBatch TxOk batch (MarkSeenBatch TxOk batch emptyDB).2).2 = (MarkSeenBatch TxOk batch emptyDB).2.
Proof.
  intros batch. assert (seen_ok (seen_events emptyDB)) as Hok by (split; constructor).
  split; [|split; [reflexivity|]].
  - by apply (markSeenBatch_atomic (TxCommit (Opaque "disk full")) batch emptyDB _ _ Hok eq_refl).
  - by apply (markSeenBatch_atomic TxOk batch emptyDB _ _ Hok eq_refl).
Defined.

(** C33: the cap prune terminates and keeps the newest rows. [PruneSeenByRowid]
    deletes a prefix of the table (the oldest rowids), never more than the surplus,
    and reports exactly how many rows are gone even when a later transaction fails;
    when no transaction fails exactly the newest [cap] rows remain. *)
Theorem capPrune_keeps_newest chunk countFault faults cap_ db :
  (1 <= chunk)%nat -> 0 < cap_ ->
  exists err deleted,
    PruneSeenByRowid chunk countFault faults cap_ db =
      ((err, deleted), set_seen (drop deleted (seen_events db)) db) /\
    (deleted <= length (seen_events db) - Z.to_nat cap_)%nat /\
    (countFault = None -> (forall k, faults k = None) ->
       err = None /\ deleted = (length (seen_events db) - Z.to_nat cap_)%nat).
Proof.
  intros Hc Hcap. unfold PruneSeenByRowid. rewrite (proj2 (Z.leb_gt cap_ 0)) by lia.
  destruct countFault as [e|].
  { exists (Some e), 0%nat. rewrite drop_0. split_and!; [by destruct db|lia|done]. }
  pose proof (prune_loop_spec (S (length (seen_events db))) chunk (Z.to_nat cap_) faults 0
    (length (seen_events db)) 0 (seen_events db) Hc eq_refl ltac:(lia)) as H.
  destruct (prune_loop _ _ _ _ _ _ _ _) as [[err d] s']. destruct H as (m & -> & -> & Hm & H1 & H2).
  exists err, m. split_and!; [done|done|]. intros _ Hall. auto.
Qed.

Lemma capPrune_keeps_newest_witness :
  exists err deleted db',
    PruneSeenByRowid 2 None (fun _ => None) 1
      (mkDB [mkSeenRow 1 "a" 0; mkSeenRow 2 "b" 0; mkSeenRow 5 "c" 0; mkSeenRow 6 "d" 0] ∅ ∅ ∅)
      = ((err, deleted), db') /\ err = None /\ deleted = 3%nat /\ map seen_id (seen_events db') = ["d"].
Proof.
  destruct (capPrune_keeps_newest 2 None (fun _ => None) 1
      (mkDB [mkSeenRow 1 "a" 0; mkSeenRow 2 "b" 0; mkSeenRow 5 "c" 0; mkSeenRow 6 "d" 0] ∅ ∅ ∅)
      ltac:(lia) ltac:(lia)) as (err & d & E & _ & H).
  destruct (H eq_refl ltac:(done)) as [He Hd].
  exists err, d, (set_seen (drop d (seen_events
    (mkDB [mkSeenRow 1 "a" 0; mkSeenRow 2 "b" 0; mkSeenRow 5 "c" 0; mkSeenRow 6 "d" 0] ∅ ∅ ∅)))
    (mkDB [mkSeenRow 1 "a" 0; mkSeenRow 2 "b" 0; mkSeenRow 5 "c" 0; mkSeenRow 6 "d" 0] ∅ ∅ ∅)).
  split; [exact E|]. split; [exact He|]. split; [exact Hd|]. rewrite Hd. reflexivity.
Defined.

(** Crawl bookkeeping. [MarkFetched] and [MarkSwept] are read back by
    [LastFetched] and [LastSwept], never clobber each other's column, and do not
    touch other pubkeys. *)
Theorem crawl_marks_independent now pk pk' db :
  let f := (MarkFetched None now pk db).2 in
  let w := (MarkSwept None now pk db).2 in
  LastFetched None pk f = Ok now /\ LastSwept None pk f = LastSwept None pk db /\
  LastSwept None pk w = Ok now /\ LastFetched None pk w = LastFetched None pk db /\
  (pk' ≠ pk -> LastFetched None pk' f = LastFetched None pk' db /\
               LastSwept None pk' w = LastSwept None pk' db /\
               LastSwept None pk' f = LastSwept None pk' db /\
               LastFetched None pk' w = LastFetched None pk' db).
Proof.
  cbv zeta. unfold LastFetched, LastSwept, MarkFetched, MarkSwept. simpl.
  split_and!; try by rewrite lookup_insert_eq; destruct (crawl_state db !! pk).
  intros Hne. by rewrite !lookup_insert_ne.
Qed.
