(* ===== verification/Dedup.v ===== *)
(** * Ingest deduplication (internal/crawler/dedup.go)

    The two-generation in-memory cache of event ids, the bounded queue of durable
    writes and its writer, over the control plane's [seen_events]. [memCap] is a
    variable of the package and a parameter here. *)

From S2P Require Import Prelude Nostr Config Control.

(** ** Event ids *)

(** [encoding/hex]: the value of one hexadecimal digit, either case. *)
Definition hexVal (c : Ascii.ascii) : option Z :=
  let n := Z.of_N (Ascii.N_of_ascii c) in
  if (48 <=? n) && (n <=? 57) then Some (n - 48)
  else if (97 <=? n) && (n <=? 102) then Some (n - 87)
  else if (65 <=? n) && (n <=? 70) then Some (n - 55)
  else None.

(** [hex.Decode] of a string of even length. *)
Fixpoint hexDecode (s : string) : option (list Z) :=
  match s with
  | EmptyString => Some []
  | String _ EmptyString => None
  | String c1 (String c2 rest) =>
      match hexVal c1, hexVal c2, hexDecode rest with
      | Some a, Some b, Some bs => Some (16 * a + b :: bs)
      | _, _, _ => None
      end
  end.

Definition parseEventID (i : string) : option (list Z) :=
  if decide (String.length i = 64%nat) then hexDecode i else None.

Notation Key := (list Z).

(** ** State *)

Record Dedup := mkDedup {
  cur : gset Key;
  prev : gset Key;
  writeQ : list (list SeenRef);
  droppedWrites : nat;
  droppedBadID : nat;
  lastEvent : Z;                 (* unix nano, 0 = never *)
}.

Definition writeQueueCap : nat := 64.
Definition NewDedup : Dedup := mkDedup ∅ ∅ [] 0 0 0.

Section dedup.
Variable memCap : nat.

Definition set_gen (c p : gset Key) (d : Dedup) : Dedup :=
  mkDedup c p (writeQ d) (droppedWrites d) (droppedBadID d) (lastEvent d).

Definition insertLocked (now : Z) (key : Key) (d : Dedup) : Dedup :=
  let c := {[key]} ∪ cur d in
  let '(c', p') := if decide (memCap <= size c)%nat then (∅, c) else (c, prev d) in
  mkDedup c' p' (writeQ d) (droppedWrites d) (droppedBadID d) now.

(** [Warm]: cache the ids [LoadRecentSeen] returns. *)
Definition warm_ids (ids : list string) (d : Dedup) : Dedup :=
  set_gen (list_to_set (omap parseEventID ids) ∪ cur d) (prev d) d.
Definition Warm (fault : option error) (db : DB) (d : Dedup) : option error * Dedup :=
  match LoadRecentSeen fault memCap db with
  | Err e => (Some e, d)
  | Ok ids => (None, warm_ids ids d)
  end.

Definition seenKey (key : Key) (d : Dedup) : bool :=
  bool_decide (key ∈ cur d) || bool_decide (key ∈ prev d).

Definition Seen (i : string) (d : Dedup) : bool :=
  match parseEventID i with Some key => seenKey key d | None => false end.

Definition Mark (now : Z) (i : string) (d : Dedup) : Dedup :=
  match parseEventID i with Some key => insertLocked now key d | None => d end.

Definition CheckAndMark (now : Z) (i : string) (d : Dedup) : bool * Dedup :=
  match parseEventID i with
  | None => (true, d)
  | Some key => if seenKey key d then (false, d) else (true, insertLocked now key d)
  end.

Fixpoint MarkMany (now : Z) (ids : list string) (d : Dedup) : Dedup :=
  match ids with [] => d | i :: ids' => MarkMany now ids' (Mark now i d) end.

Definition Unmark (i : string) (d : Dedup) : Dedup :=
  match parseEventID i with
  | Some key => set_gen (cur d ∖ {[key]}) (prev d ∖ {[key]}) d
  | None => d
  end.

Definition addBadID (d : Dedup) : Dedup :=
  mkDedup (cur d) (prev d) (writeQ d) (droppedWrites d) (S (droppedBadID d)) (lastEvent d).

(** ** Durable writes *)

Definition set_queue (q : list (list SeenRef)) (drops_ : nat) (d : Dedup) : Dedup :=
  mkDedup (cur d) (prev d) q drops_ (droppedBadID d) (lastEvent d).

Definition OnFlushed (now : Z) (events : list Event) (d : Dedup) : Dedup :=
  match events with
  | [] => d
  | _ :: _ =>
      let refs := map (fun ev => mkSeenRef (ID ev) (CreatedAt ev)) events in
      let d1 := MarkMany now (map ID events) d in
      if decide (length (writeQ d1) < writeQueueCap)%nat
      then set_queue (writeQ d1 ++ [refs]) (droppedWrites d1) d1
      else set_queue (writeQ d1) (S (droppedWrites d1)) d1
  end.

(** [case batch := <-d.writeQ] of [writeLoop]; a failed write is only logged. *)
Definition writeOne (fault : TxFault) (d : Dedup) (db : DB) : option (Dedup * DB) :=
  match writeQ d with
  | [] => None
  | batch :: rest => Some (set_queue rest (droppedWrites d) d, (MarkSeenBatch fault batch db).2)
  end.

(** One batch of the drain; [expired] is [ctx.Err() != nil] when it is taken. The
    error is the reason the batch was dropped for. *)
Definition drainOne (expired : bool) (fault : TxFault) (d : Dedup) (db : DB)
    : option (option error * Dedup * DB) :=
  match writeQ d with
  | [] => None
  | batch :: rest =>
      if expired then Some (Some (Sentinel CtxCanceled), set_queue rest (S (droppedWrites d)) d, db)
      else match MarkSeenBatch fault batch db with
           | (None, db') => Some (None, set_queue rest (droppedWrites d) d, db')
           | (Some e, db') => Some (Some e, set_queue rest (S (droppedWrites d)) d, db')
           end
  end.

(** [drainQueued]: [expired k] is [ctx.Err() != nil] before the [k]-th batch,
    [expired2 k] after its write failed. *)
Fixpoint drainQueued (fuel : nat) (expired expired2 : nat -> bool) (faults : nat -> TxFault) (k : nat)
    (d : Dedup) (db : DB) : Dedup * DB :=
  match fuel with
  | O => (d, db)
  | S fuel' =>
      match writeQ d with
      | [] => (d, db)
      | batch :: rest =>
          if expired k then
            (set_queue [] (droppedWrites d + length (batch :: rest)) d, db)
          else
            match MarkSeenBatch (faults k) batch db with
            | (None, db') =>
                drainQueued fuel' expired expired2 faults (S k) (set_queue rest (droppedWrites d) d) db'
            | (Some _, db') =>
                if expired2 k then
                  (set_queue [] (S (droppedWrites d) + length rest) d, db')
                else
                  drainQueued fuel' expired expired2 faults (S k)
                    (set_queue rest (S (droppedWrites d)) d) db'
            end
      end
  end.
End dedup.

(** One turn of [pruneLoop]: age prune, then cap prune. *)
Definition pruneTurn (chunk : nat) (ageFault countFault : option error) (faults : nat -> option error)
    (now maxAge cap_ : Z) (db : DB) : DB :=
  (PruneSeenByRowid chunk countFault faults cap_ (PruneSeen ageFault now maxAge db).2).2.

(** [StartPrune]: defaults for non-positive arguments. *)
Definition DefaultSeenCap : Z := 20000000.
Definition DefaultPruneEvery : Z := Hour.
Definition DefaultPruneMaxAge : Z := 7 * 24 * Hour.
Definition StartPrune (every cap_ : Z) : Z * Z * Z :=
  (if every <=? 0 then DefaultPruneEvery else every,
   if cap_ <=? 0 then DefaultSeenCap else cap_, DefaultPruneMaxAge).

Definition DroppedWrites (d : Dedup) : nat := droppedWrites d.
Definition DroppedBadID (d : Dedup) : nat := droppedBadID d.

(** [LastEventAgo] *)
Definition LastEventAgo (now : Z) (d : Dedup) : Z :=
  if lastEvent d =? 0 then 0 else now - lastEvent d.

(** ** Facts about ids *)

Lemma hexDecode_length s bs : hexDecode s = Some bs -> String.length s = (2 * length bs)%nat.
Proof.
  revert bs. induction s as [s IH] using (induction_ltof1 _ String.length).
  intros bs. destruct s as [|c1 [|c2 s]]; simpl; [by intros [= <-]|done|].
  destruct (hexVal c1), (hexVal c2), (hexDecode s) as [bs'|] eqn:Eb; try done.
  intros [= <-]. specialize (IH s ltac:(unfold ltof; simpl; lia) bs' Eb). simpl. lia.
Qed.

Lemma hexVal_range c v : hexVal c = Some v -> 0 <= v < 16.
Proof.
  unfold hexVal. intros H. repeat case_match; simplify_eq;
    repeat match goal with H : _ && _ = true |- _ => apply andb_true_iff in H as [?%Z.leb_le ?%Z.leb_le] end; lia.
Qed.

Lemma hexDecode_bytes s bs : hexDecode s = Some bs -> Forall (fun b => 0 <= b < 256) bs.
Proof.
  revert bs. induction s as [s IH] using (induction_ltof1 _ String.length).
  intros bs. destruct s as [|c1 [|c2 s]]; simpl; [by intros [= <-]|done|].
  destruct (hexVal c1) as [a|] eqn:Ea, (hexVal c2) as [b|] eqn:Eb, (hexDecode s) as [bs'|] eqn:Es; try done.
  intros [= <-]. apply hexVal_range in Ea, Eb. constructor; [lia|].
  by apply (IH s); [unfold ltof; simpl; lia|].
Qed.

Lemma parseEventID_32 i key : parseEventID i = Some key -> length key = 32%nat /\ Forall (fun b => 0 <= b < 256) key.
Proof.
  unfold parseEventID. case_decide as Hl; [|done]. intros H.
  split; [apply hexDecode_length in H; lia|by eapply hexDecode_bytes].
Qed.

(** ** Sequences of cache operations *)

Inductive DOp :=
  | OMark (now : Z) (i : string)
  | OCheckAndMark (now : Z) (i : string)
  | OUnmark (i : string)
  | OFlushed (now : Z) (events : list Event)
  | OBadID.

Section cache.
Variable memCap : nat.

Definition dop (o : DOp) (d : Dedup) : Dedup :=
  match o with
  | OMark now i => Mark memCap now i d
  | OCheckAndMark now i => (CheckAndMark memCap now i d).2
  | OUnmark i => Unmark i d
  | OFlushed now evs => OnFlushed memCap now evs d
  | OBadID => addBadID d
  end.
Definition dops (os : list DOp) (d : Dedup) : Dedup := foldl (fun d o => dop o d) d os.

(** How many ids an operation can insert, and whether it forgets [key]. *)
Definition inserts (o : DOp) : nat :=
  match o with
  | OMark _ _ | OCheckAndMark _ _ => 1
  | OFlushed _ evs => length evs
  | OUnmark _ | OBadID => 0
  end.
Definition forgets (key : Key) (o : DOp) : bool :=
  match o with OUnmark i => bool_decide (parseEventID i = Some key) | _ => false end.

Definition bounded (d : Dedup) : Prop :=
  (size (cur d) <= memCap)%nat /\ (size (prev d) <= S memCap)%nat.

Lemma size_add (key : Key) (s : gset Key) : (size ({[key]} ∪ s) <= S (size s))%nat.
Proof.
  destruct (decide (key ∈ s)).
  - rewrite subseteq_union_1_L by set_solver. lia.
  - rewrite size_union, size_singleton by set_solver. lia.
Qed.

Lemma size_of_list (l : list Key) : (size (list_to_set l : gset Key) <= length l)%nat.
Proof.
  induction l as [|k l IH]; [done|].
  cbn [list_to_set length]. pose proof (size_add k (list_to_set l)). lia.
Qed.

Lemma omap_le {A B} (f : A -> option B) (l : list A) : (length (omap f l) <= length l)%nat.
Proof. induction l as [|x l IH]; csimpl; [done|]. destruct (f x); csimpl; lia. Qed.

Lemma insertLocked_bounded now key d : bounded d -> bounded (insertLocked memCap now key d).
Proof.
  intros [Hc Hp]. unfold insertLocked, bounded. pose proof (size_add key (cur d)).
  case_decide; cbn [cur prev]; rewrite ?size_empty; lia.
Qed.

Lemma Mark_bounded now i d : bounded d -> bounded (Mark memCap now i d).
Proof. intros H. unfold Mark. case_match; [by apply insertLocked_bounded|done]. Qed.

Lemma MarkMany_bounded now ids d : bounded d -> bounded (MarkMany memCap now ids d).
Proof. revert d. induction ids; intros d H; simpl; auto using Mark_bounded. Qed.

Lemma Unmark_bounded i d : bounded d -> bounded (Unmark i d).
Proof.
  intros [Hc Hp]. unfold Unmark. destruct (parseEventID i) as [key|]; [|done]. unfold bounded. simpl.
  pose proof (subseteq_size (cur d ∖ {[key]}) (cur d) ltac:(set_solver)).
  pose proof (subseteq_size (prev d ∖ {[key]}) (prev d) ltac:(set_solver)). lia.
Qed.

Lemma OnFlushed_caches now evs d :
  cur (OnFlushed memCap now evs d) = cur (MarkMany memCap now (map ID evs) d) /\
  prev (OnFlushed memCap now evs d) = prev (MarkMany memCap now (map ID evs) d).
Proof. unfold OnFlushed. destruct evs; [done|]. by case_decide. Qed.

Lemma dop_bounded o d : bounded d -> bounded (dop o d).
Proof.
  intros H. destruct o; simpl.
  - by apply Mark_bounded.
  - unfold CheckAndMark. repeat case_match; simpl; auto using insertLocked_bounded.
  - by apply Unmark_bounded.
  - destruct (OnFlushed_caches now events d) as [E1 E2]. unfold bounded. rewrite E1, E2.
    by apply MarkMany_bounded.
  - done.
Qed.

Lemma dops_bounded os d : bounded d -> bounded (dops os d).
Proof. unfold dops. revert d. induction os; intros d H; simpl; auto using dop_bounded. Qed.

Lemma Warm_bounded fault db : bounded (Warm memCap fault db NewDedup).2.
Proof.
  unfold Warm, LoadRecentSeen. destruct fault; [split; cbn [cur prev snd NewDedup]; rewrite size_empty; lia|].
  unfold bounded, warm_ids, set_gen. cbn [cur prev snd NewDedup]. rewrite union_empty_r_L, size_empty. split; [|lia].
  etrans; [apply size_of_list|]. etrans; [apply omap_le|].
  rewrite length_take. lia.
Qed.

(** [key] survives [n] more insertions. *)
Definition remembered (key : Key) (n : nat) (d : Dedup) : Prop :=
  (n < memCap)%nat /\ (key ∈ cur d \/ (key ∈ prev d /\ (size (cur d) + n < memCap)%nat)).

Lemma remembered_weaken key n m d : (m <= n)%nat -> remembered key n d -> remembered key m d.
Proof. intros Hm [H1 [H2|[H2 H3]]]; (split; [lia|]); [by left|right; split; [done|lia]]. Qed.

Lemma remembered_seen key n d : remembered key n d -> seenKey key d = true.
Proof.
  intros [_ [H|[H _]]]; unfold seenKey; apply orb_true_iff; [left|right]; by apply bool_decide_eq_true.
Qed.

Lemma insertLocked_remembered now key k n d :
  remembered key (S n) d -> remembered key n (insertLocked memCap now k d).
Proof.
  intros [Hn Hd]. unfold remembered, insertLocked. pose proof (size_add k (cur d)).
  split; [lia|]. case_decide as Hr; cbn [cur prev].
  - destruct Hd as [Hc|[Hp Hs]]; [|lia]. right. rewrite size_empty. split; [set_solver|lia].
  - destruct Hd as [Hc|[Hp Hs]]; [left; set_solver|right; split; [done|lia]].
Qed.

Lemma Mark_remembered now key i n d : remembered key (S n) d -> remembered key n (Mark memCap now i d).
Proof.
  intros H. unfold Mark. case_match; [by apply insertLocked_remembered|].
  eapply remembered_weaken; [|done]. lia.
Qed.

Lemma MarkMany_remembered now key ids n d :
  remembered key (length ids + n) d -> remembered key n (MarkMany memCap now ids d).
Proof. revert d. induction ids; intros d H; simpl in *; auto using Mark_remembered. Qed.

Lemma dop_remembered o key n d :
  forgets key o = false -> remembered key (inserts o + n) d -> remembered key n (dop o d).
Proof.
  intros Hf H. destruct o; simpl in *.
  - by apply Mark_remembered.
  - unfold CheckAndMark. repeat case_match; simpl; try by apply insertLocked_remembered.
    all: eapply remembered_weaken; [|done]; lia.
  - apply bool_decide_eq_false in Hf. unfold Unmark. destruct (parseEventID i) as [k|]; [|done].
    destruct H as [Hn Hd]. split; [done|]. simpl.
    pose proof (subseteq_size (cur d ∖ {[k]}) (cur d) ltac:(set_solver)).
    destruct Hd as [Hc|[Hp Hs]]; [left; set_solver|right; split; [set_solver|lia]].
  - destruct (OnFlushed_caches now events d) as [E1 E2]. unfold remembered. rewrite E1, E2.
    apply MarkMany_remembered. by rewrite length_map.
  - done.
Qed.

Lemma dops_remembered os key d :
  Forall (fun o => forgets key o = false) os -> remembered key (sum_list_with inserts os) d ->
  remembered key 0 (dops os d).
Proof.
  unfold dops. revert d. induction os as [|o os IH]; intros d Hf H; simpl in *; [done|].
  apply Forall_cons in Hf as [Hf1 Hf2]. apply IH; [done|]. by apply dop_remembered.
Qed.

Lemma insertLocked_fresh now key n d :
  (n < memCap)%nat -> remembered key n (insertLocked memCap now key d).
Proof.
  intros Hn. unfold remembered, insertLocked. split; [done|]. case_decide; cbn [cur prev].
  - right. rewrite size_empty. split; [set_solver|lia].
  - left. set_solver.
Qed.
End cache.

(** *** The shutdown drain *)

Lemma drainQueued_spec fuel expired expired2 faults k d db :
  (length (writeQ d) < fuel)%nat ->
  let '(d', db') := drainQueued fuel expired expired2 faults k d db in
  writeQ d' = [] /\
  ((forall j, expired j = false) -> (forall j, faults j = TxOk) ->
     droppedWrites d' = droppedWrites d /\
     forall i, i ∈ map ref_ID (concat (writeQ d)) \/ i ∈ map seen_id (seen_events db) ->
       i ∈ map seen_id (seen_events db')).
Proof.
  revert k d db. induction fuel as [|fuel IH]; intros k d db Hf; [lia|]. cbn [drainQueued].
  destruct (writeQ d) as [|batch rest] eqn:Eq.
  { split; [done|]. intros _ _. split; [done|]. set_solver. }
  destruct (expired k) eqn:Ex.
  { split; [done|]. intros Hx. by rewrite Hx in Ex. }
  simpl in Hf. destruct (MarkSeenBatch (faults k) batch db) as [[e|] db1] eqn:Em.
  - destruct (expired2 k).
    + split; [done|]. intros _ Hfl. destruct (MarkSeenBatch_cases (faults k) batch db) as [E|[E _]]; congruence.
    + specialize (IH (S k) (set_queue rest (S (droppedWrites d)) d) db1 ltac:(simpl; lia)).
      destruct (drainQueued _ _ _ _ _ _ _) as [d' db']. destruct IH as [Hq Hall].
      split; [done|]. intros _ Hfl. destruct (MarkSeenBatch_cases (faults k) batch db) as [E|[E _]]; congruence.
  - specialize (IH (S k) (set_queue rest (droppedWrites d) d) db1 ltac:(simpl; lia)).
    destruct (drainQueued _ _ _ _ _ _ _) as [d' db']. destruct IH as [Hq Hall].
    split; [done|]. intros Hx Hfl. destruct (Hall Hx Hfl) as [Hd Hids]. split; [done|].
    intros i Hi. apply Hids. simpl. rewrite Hfl in Em.
    assert (forall x, x ∈ map seen_id (seen_events db1) <->
      x ∈ map ref_ID batch \/ x ∈ map seen_id (seen_events db)) as H1.
    { destruct (MarkSeenBatch_cases TxOk batch db) as [E|[E _]]; [|done]. rewrite E in Em. simplify_eq.
      intros x. apply (insert_all_spec batch (seen_events db)). }
    rewrite H1. simpl in Hi. rewrite map_app, elem_of_app in Hi. tauto.
Qed.

(** ** Properties *)

(** The dedup cache is bounded: after warming from the database and any sequence
    of marks, check-and-marks, unmarks and flush callbacks, the two generations hold
    at most [2 * memCap + 1] ids together. *)
Theorem dedup_cache_bounded memCap fault db os :
  (size (cur (dops memCap os (Warm memCap fault db NewDedup).2)) <= memCap)%nat /\
  (size (prev (dops memCap os (Warm memCap fault db NewDedup).2)) <= S memCap)%nat.
Proof. apply dops_bounded, Warm_bounded. Qed.

(** Exactly one caller wins an id, and it stays won. The first [CheckAndMark] of a
    well-formed id the cache has not seen returns true; every later one returns false,
    as long as fewer than [memCap] ids were inserted in between and the id was not
    unmarked: rotating generations never forgets a recent id. *)
Theorem checkAndMark_remembers memCap now i key d os now' :
  parseEventID i = Some key -> Seen i d = false ->
  Forall (fun o => forgets key o = false) os -> (sum_list_with inserts os < memCap)%nat ->
  let '(won, d1) := CheckAndMark memCap now i d in
  won = true /\ Seen i (dops memCap os d1) = true /\
  CheckAndMark memCap now' i (dops memCap os d1) = (false, dops memCap os d1).
Proof.
  intros Hp Hs Hf Hn. unfold CheckAndMark, Seen in *. rewrite Hp in *. rewrite Hs.
  assert (seenKey key (dops memCap os (insertLocked memCap now key d)) = true) as ->; [|done].
  eapply remembered_seen, dops_remembered; [done|]. by apply insertLocked_fresh.
Qed.

Definition demo_id : string := "00000000000000000000000000000000000000000000000000000000000000aF".
Definition demo_id2 : string := "0000000000000000000000000000000000000000000000000000000000000001".

Lemma checkAndMark_remembers_witness :
  exists key, parseEventID demo_id = Some key /\
    let '(won, d1) := CheckAndMark 2 5 demo_id NewDedup in
    won = true /\ Seen demo_id (dops 2 [OMark 6 demo_id2; OUnmark demo_id2; OBadID] d1) = true.
Proof.
  eexists. split; [vm_compute; reflexivity|].
  pose proof (checkAndMark_remembers 2 5 demo_id
    (default [] (parseEventID demo_id)) NewDedup [OMark 6 demo_id2; OUnmark demo_id2; OBadID] 7) as H.
  destruct (CheckAndMark 2 5 demo_id NewDedup) as [won d1].
  destruct H as (H1 & H2 & _).
  - vm_compute. reflexivity.
  - vm_compute. reflexivity.
  - repeat constructor; vm_compute; reflexivity.
  - simpl. lia.
  - split; [exact H1|exact H2].
Defined.

(** The shutdown drain of the durable queue terminates with an empty queue, and
    when the database accepts the writes within the deadline every queued id is in
    [seen_events] and nothing is counted as dropped. *)
Theorem drain_persists_queue expired2 d db :
  let '(d', db') := drainQueued (S (length (writeQ d))) (fun _ => false) expired2 (fun _ => TxOk) 0 d db in
  writeQ d' = [] /\ droppedWrites d' = droppedWrites d /\
  forall i, i ∈ map ref_ID (concat (writeQ d)) -> i ∈ map seen_id (seen_events db').
Proof.
  pose proof (drainQueued_spec (S (length (writeQ d))) (fun _ => false) expired2 (fun _ => TxOk) 0 d db
    ltac:(lia)) as H.
  destruct (drainQueued _ _ _ _ _ _ _) as [d' db']. destruct H as [Hq Hall].
  destruct (Hall ltac:(done) ltac:(done)) as [Hd Hi]. auto.
Qed.
