(* ===== verification/Writer.v ===== *)
(** * The durable writer's goroutine (internal/crawler/dedup.go)

    [StartWriter], [writeLoop] and [StopWriter] as one system: flush callbacks push
    chunks of seen ids, the loop writes them one transaction at a time, and it ends by
    draining the queue when its context is cancelled or it is told to stop. Callbacks
    go on arriving while it drains. The ghost fields say what became of every chunk. *)

From S2P Require Import Prelude Nostr Config Control Dedup.

(** Where the goroutine is: not started, in its select, in [drainQueued], in
    [dropRemaining], or returned. *)
Inductive WPc := WIdle | WLoop | WDrain | WDropRest | WGone.
#[export] Instance WPc_eq_dec : EqDecision WPc.
Proof. solve_decision. Defined.

Record Writer := mkWriter {
  running : bool;                       (* d.writerRunning *)
  stopping : bool;                      (* a StopWriter has closed stopWriter and holds writerMu *)
  cancelled : bool;                     (* the writer's context *)
  wpc : WPc;
  wd : Dedup;
  wdb : DB;
  offered : list (list SeenRef);        (* ghost: chunks handed to OnFlushed *)
  persisted : list (list SeenRef);      (* ghost: committed *)
  failed : list (list SeenRef);         (* ghost: failed in the loop, logged *)
  shed : list (list SeenRef);           (* ghost: dropped and counted *)
}.

Definition newWriter (d : Dedup) (db : DB) : Writer := mkWriter false false false WIdle d db [] [] [] [].

Inductive WLabel :=
  | WFlushed (now : Z) (events : list Event)     (* a batcher calls OnFlushed *)
  | WStart                                       (* StartWriter *)
  | WCancel                                      (* the context is cancelled *)
  | WBatch (fault : TxFault)                     (* case batch := <-d.writeQ *)
  | WQuit                                        (* case <-ctx.Done(), case <-d.stopWriter *)
  | WDrainBatch (expired : bool) (fault : TxFault) (expired2 : bool)
  | WDropBatch                                   (* one batch of dropRemaining *)
  | WExit                                        (* the queue is seen empty *)
  | WStop                                        (* StopWriter closes stopWriter *)
  | WJoin.                                       (* StopWriter sees writerDone *)

Section writer.
Variable memCap : nat.

Definition set_pc (pc : WPc) (x : Writer) : Writer :=
  mkWriter (running x) (stopping x) (cancelled x) pc (wd x) (wdb x) (offered x) (persisted x) (failed x) (shed x).

Definition chunk_of (events : list Event) : list SeenRef := map (fun ev => mkSeenRef (ID ev) (CreatedAt ev)) events.

(** The writer after one batch: [pc] and what became of the batch. *)
Definition settle (pc : WPc) (d : Dedup) (db : DB) (p f s : list (list SeenRef)) (x : Writer) : Writer :=
  mkWriter (running x) (stopping x) (cancelled x) pc d db (offered x) (persisted x ++ p) (failed x ++ f) (shed x ++ s).

Definition wstep (l : WLabel) (x : Writer) : option Writer :=
  match l with
  | WFlushed now events =>
      let d' := OnFlushed memCap now events (wd x) in
      let room := bool_decide (length (writeQ (wd x)) < writeQueueCap)%nat in
      Some (mkWriter (running x) (stopping x) (cancelled x) (wpc x) d' (wdb x)
              (offered x ++ match events with [] => [] | _ => [chunk_of events] end) (persisted x) (failed x)
              (shed x ++ match events with [] => [] | _ => if room then [] else [chunk_of events] end))
  | WStart =>
      if stopping x then None
      else Some (if running x then x
                 else mkWriter true false (cancelled x) WLoop (wd x) (wdb x) (offered x) (persisted x) (failed x) (shed x))
  | WCancel =>
      Some (mkWriter (running x) (stopping x) true (wpc x) (wd x) (wdb x) (offered x) (persisted x) (failed x) (shed x))
  | WBatch fault =>
      match wpc x, writeQ (wd x), writeOne fault (wd x) (wdb x) with
      | WLoop, batch :: _, Some (d', db') =>
          Some match (MarkSeenBatch fault batch (wdb x)).1 with
               | None => settle WLoop d' db' [batch] [] [] x
               | Some _ => settle WLoop d' db' [] [batch] [] x
               end
      | _, _, _ => None
      end
  | WQuit =>
      match wpc x with
      | WLoop => if cancelled x || stopping x then Some (set_pc WDrain x) else None
      | _ => None
      end
  | WDrainBatch expired fault expired2 =>
      match wpc x, writeQ (wd x), drainOne expired fault (wd x) (wdb x) with
      | WDrain, batch :: _, Some (err, d', db') =>
          Some match err with
               | None => settle WDrain d' db' [batch] [] [] x
               | Some _ => settle (if expired || expired2 then WDropRest else WDrain) d' db' [] [] [batch] x
               end
      | _, _, _ => None
      end
  | WDropBatch =>
      match wpc x, writeQ (wd x) with
      | WDropRest, batch :: rest =>
          Some (settle WDropRest (set_queue rest (S (droppedWrites (wd x))) (wd x)) (wdb x) [] [] [batch] x)
      | _, _ => None
      end
  | WExit =>
      match wpc x, writeQ (wd x) with
      | WDrain, [] | WDropRest, [] => Some (set_pc WGone x)
      | _, _ => None
      end
  | WStop =>
      if stopping x then None
      else Some (if running x then
                   mkWriter true true (cancelled x) (wpc x) (wd x) (wdb x) (offered x) (persisted x) (failed x) (shed x)
                 else x)
  | WJoin =>
      match stopping x, wpc x with
      | true, WGone =>
          Some (mkWriter false false (cancelled x) WIdle (wd x) (wdb x) (offered x) (persisted x) (failed x) (shed x))
      | _, _ => None
      end
  end.

Fixpoint wrun (ls : list WLabel) (x : Writer) : option Writer :=
  match ls with
  | [] => Some x
  | l :: ls' => match wstep l x with Some x' => wrun ls' x' | None => None end
  end.

(** ** Invariant *)

Record books (drops0 : nat) (x : Writer) : Prop := {
  b_chunks : offered x ≡ₚ writeQ (wd x) ++ persisted x ++ failed x ++ shed x;
  b_drops : droppedWrites (wd x) = (drops0 + length (shed x))%nat;
  b_cap : (length (writeQ (wd x)) <= writeQueueCap)%nat;
  b_seen : forall i, i ∈ map ref_ID (concat (persisted x)) -> i ∈ map seen_id (seen_events (wdb x));
  b_running : running x = true <-> wpc x ≠ WIdle;
  b_stopping : stopping x = true -> running x = true;
}.

(** ** Lemmas *)

Lemma mark_seen fault batch db err db' :
  MarkSeenBatch fault batch db = (err, db') ->
  (forall i, i ∈ map seen_id (seen_events db) -> i ∈ map seen_id (seen_events db')) /\
  (err = None -> forall i, i ∈ map ref_ID batch -> i ∈ map seen_id (seen_events db')).
Proof.
  assert (forall i, i ∈ map seen_id (insert_all batch (seen_events db)) <->
    i ∈ map ref_ID batch \/ i ∈ map seen_id (seen_events db)) as H by apply insert_all_spec.
  destruct (MarkSeenBatch_cases fault batch db) as [->|(_ & e & ->)]; intros [= <- <-]; (split; [|try done]); try done;
    intros; apply H; tauto.
Qed.

Lemma MarkMany_rest now ids d :
  writeQ (MarkMany memCap now ids d) = writeQ d /\ droppedWrites (MarkMany memCap now ids d) = droppedWrites d.
Proof.
  revert d. induction ids as [|i ids IH]; intros d; simpl; [done|].
  destruct (IH (Mark memCap now i d)) as [E1 E2]. rewrite E1, E2.
  unfold Mark, insertLocked. destruct (parseEventID i); [|done]. by case_decide.
Qed.

Lemma OnFlushed_chunk now ev evs d :
  let room := decide (length (writeQ d) < writeQueueCap)%nat in
  writeQ (OnFlushed memCap now (ev :: evs) d) = writeQ d ++ (if room then [chunk_of (ev :: evs)] else []) /\
  droppedWrites (OnFlushed memCap now (ev :: evs) d) = (droppedWrites d + if room then 0 else 1)%nat.
Proof.
  destruct (MarkMany_rest now (map ID (ev :: evs)) d) as [Eq Ed].
  unfold OnFlushed. cbv zeta. rewrite Eq, Ed. case_decide; cbn [writeQ droppedWrites set_queue].
  - split; [done|lia].
  - split; [by rewrite app_nil_r|lia].
Qed.

(** Settling a batch keeps the books, whatever became of it. *)
Lemma settle_books n x batch rest pc d db p f s :
  books n x -> writeQ (wd x) = batch :: rest -> writeQ d = rest ->
  p ++ f ++ s = [batch] -> droppedWrites d = (droppedWrites (wd x) + length s)%nat -> pc ≠ WIdle -> wpc x ≠ WIdle ->
  (forall i, i ∈ map seen_id (seen_events (wdb x)) -> i ∈ map seen_id (seen_events db)) ->
  (forall i, i ∈ map ref_ID (concat p) -> i ∈ map seen_id (seen_events db)) ->
  books n (settle pc d db p f s x).
Proof.
  intros [H1 H2 H3 H4 H5 H6] Eq Ed Ep Edr Hpc Hpc0 Hkeep Hnew. rewrite Eq in *. split; cbn [settle wd wdb wpc running stopping
    offered persisted failed shed].
  - rewrite H1, Ed. change (batch :: rest) with ([batch] ++ rest). rewrite <-Ep. solve_Permutation.
  - rewrite Edr, H2, length_app. lia.
  - rewrite Ed. simpl in H3. lia.
  - intros i. rewrite concat_app, map_app, elem_of_app. intros [Hi|Hi]; auto.
  - rewrite H5. done.
  - done.
Qed.

(** The effect of one batch of the drain. *)
Lemma drainOne_spec expired fault d db err d' db' batch rest :
  writeQ d = batch :: rest -> drainOne expired fault d db = Some (err, d', db') ->
  writeQ d' = rest /\ droppedWrites d' = (droppedWrites d + match err with None => 0 | Some _ => 1 end)%nat /\
  (forall i, i ∈ map seen_id (seen_events db) -> i ∈ map seen_id (seen_events db')) /\
  (err = None -> forall i, i ∈ map ref_ID batch -> i ∈ map seen_id (seen_events db')).
Proof.
  intros Eq. unfold drainOne. rewrite Eq. destruct expired.
  { intros [= <- <- <-]. simpl. split_and!; [done|lia|done|done]. }
  destruct (MarkSeenBatch fault batch db) as [e db1] eqn:Em. destruct (mark_seen _ _ _ _ _ Em) as [Hkeep Hnew].
  destruct e as [e|]; intros [= <- <- <-]; simpl; split_and!; try done; lia.
Qed.

Lemma wstep_books n l x x' : books n x -> wstep l x = Some x' -> books n x'.
Proof.
  intros Hb Hs. pose proof Hb as [H1 H2 H3 H4 H5 H6]. destruct l as [now evs| | |fault| |ex fault ex2| | | |]; cbn [wstep] in Hs.
  - apply (inj Some) in Hs. subst x'. destruct evs as [|ev evs]; [by split; simpl; rewrite ?app_nil_r|].
    destruct (OnFlushed_chunk now ev evs (wd x)) as [Eq Ed].
    split; cbn [wd offered persisted failed shed wdb wpc running stopping]; [| | |done..]; rewrite ?Eq, ?Ed, ?length_app;
      case_decide; try case_bool_decide; try done; cbn [length]; try lia; rewrite H1, ?app_nil_r; solve_Permutation.
  - destruct (stopping x); [done|]. destruct (running x); [by simplify_eq|]. injection Hs as <-. split; try done.
  - injection Hs as <-. by split.
  - destruct (wpc x) eqn:Ep; try done. destruct (writeQ (wd x)) as [|batch rest] eqn:Eq; [done|].
    unfold writeOne in Hs. rewrite Eq in Hs. destruct (MarkSeenBatch fault batch (wdb x)) as [err db'] eqn:Em.
    destruct (mark_seen _ _ _ _ _ Em) as [Hkeep Hnew]. cbn [fst snd] in Hs.
    destruct err; injection Hs as <-; (eapply settle_books; [exact Hb|exact Eq|done|done| |done|by rewrite Ep|exact Hkeep|]);
      try (simpl; lia); simpl; [set_solver|]. rewrite app_nil_r. by apply Hnew.
  - destruct (wpc x) eqn:Ep; try done. destruct (cancelled x || stopping x); [|done]. injection Hs as <-.
    split; try done. simpl. by rewrite H5.
  - destruct (wpc x) eqn:Ep; try done. destruct (writeQ (wd x)) as [|batch rest] eqn:Eq; [done|].
    destruct (drainOne ex fault (wd x) (wdb x)) as [[[err d'] db']|] eqn:Ed; [|done].
    destruct (drainOne_spec _ _ _ _ _ _ _ _ _ Eq Ed) as (G1 & G2 & G3 & G4).
    destruct err; injection Hs as <-; (eapply settle_books; [exact Hb|exact Eq|done|done|exact G2| |by rewrite Ep|exact G3|]);
      simpl; try done; [by destruct (ex || ex2)|set_solver|]. rewrite app_nil_r. by apply G4.
  - destruct (wpc x) eqn:Ep; try done. destruct (writeQ (wd x)) as [|batch rest] eqn:Eq; [done|]. injection Hs as <-.
    eapply settle_books; [exact Hb|exact Eq|done|done|simpl; lia|done|by rewrite Ep|done|simpl; set_solver].
  - destruct (wpc x) eqn:Ep, (writeQ (wd x)) eqn:Eq; try done; injection Hs as <-; split; simpl; rewrite ?Eq; try done;
      by rewrite H5.
  - destruct (stopping x); [done|]. destruct (running x) eqn:Er; injection Hs as <-; [|done].
    by split.
  - destruct (stopping x) eqn:Est, (wpc x) eqn:Ep; try done. injection Hs as <-. split; try done.
Qed.

Lemma wrun_books n ls x x' : books n x -> wrun ls x = Some x' -> books n x'.
Proof.
  revert x. induction ls as [|l ls IH]; intros x Hb Hr; simpl in Hr; [by simplify_eq|].
  destruct (wstep l x) as [x1'|] eqn:Es; [|done]. eapply IH; [|done]. by eapply wstep_books.
Qed.

Lemma new_books ls d db x : writeQ d = [] -> wrun ls (newWriter d db) = Some x -> books (droppedWrites d) x.
Proof.
  intros Hq Hr. eapply wrun_books; [|exact Hr].
  split; simpl; [by rewrite Hq|lia|rewrite Hq; simpl; lia|set_solver|done|done].
Qed.

(** *** The drain ends *)

Definition draining (x : Writer) : Prop := wpc x = WDrain \/ wpc x = WDropRest.

Lemma dropRest_refines x :
  wpc x = WDropRest ->
  exists ls x', wrun ls x = Some x' /\ wpc x' = WGone /\ wdb x' = wdb x /\
    wd x' = set_queue [] (droppedWrites (wd x) + length (writeQ (wd x))) (wd x).
Proof.
  remember (writeQ (wd x)) as q eqn:Eq. revert x Eq. induction q as [|batch q IH]; intros x Eq Ep.
  - exists [WExit]. eexists. simpl. rewrite Ep, <-Eq. split_and!; [done..|]. simpl. rewrite Nat.add_0_r.
    destruct x as [? ? ? ? []]; simpl in *. by subst.
  - destruct (IH (settle WDropRest (set_queue q (S (droppedWrites (wd x))) (wd x)) (wdb x) [] [] [batch] x))
      as (ls & x' & Hr & Hp & Hdb & Hd); [done|done|].
    exists (WDropBatch :: ls), x'. simpl. rewrite Ep, <-Eq. split_and!; [done..|]. rewrite Hd. simpl.
    unfold set_queue. simpl. f_equal. lia.
Qed.

(** Left alone, the calls of the drain are [drainQueued], and they end. *)
Lemma drain_refines expired expired2 faults fuel k x :
  (length (writeQ (wd x)) < fuel)%nat -> wpc x = WDrain ->
  exists ls x', wrun ls x = Some x' /\ wpc x' = WGone /\
    (wd x', wdb x') = drainQueued fuel expired expired2 faults k (wd x) (wdb x).
Proof.
  revert k x. induction fuel as [|fuel IH]; intros k x Hf Ep; [lia|]. cbn [drainQueued].
  destruct (writeQ (wd x)) as [|batch rest] eqn:Eq; [exists [WExit]; eexists; simpl; by rewrite Ep, Eq|].
  simpl in Hf. pose (l := WDrainBatch (expired k) (faults k) (expired2 k)).
  destruct (expired k) eqn:E1.
  - set (x1 := settle WDropRest (set_queue rest (S (droppedWrites (wd x))) (wd x)) (wdb x) [] [] [batch] x).
    destruct (dropRest_refines x1 eq_refl) as (ls & x' & Hr & Hp & Hdb & Hd).
    exists (l :: ls), x'. simpl. unfold drainOne. rewrite Ep, Eq. cbn [orb]. fold x1. split_and!; [done..|].
    rewrite Hd, Hdb. f_equal. unfold set_queue. simpl. f_equal. lia.
  - destruct (MarkSeenBatch (faults k) batch (wdb x)) as [[e|] db'] eqn:Em.
    + destruct (expired2 k) eqn:E2.
      * set (x1 := settle WDropRest (set_queue rest (S (droppedWrites (wd x))) (wd x)) db' [] [] [batch] x).
        destruct (dropRest_refines x1 eq_refl) as (ls & x' & Hr & Hp & Hdb & Hd).
        exists (l :: ls), x'. simpl. unfold drainOne. rewrite Ep, Eq, Em. cbn [orb]. fold x1. split_and!; [done..|].
        rewrite Hd, Hdb. done.
      * destruct (IH (S k) (settle WDrain (set_queue rest (S (droppedWrites (wd x))) (wd x)) db' [] [] [batch] x))
          as (ls & x' & Hr & Hp & Hd); [simpl; lia|done|].
        exists (l :: ls), x'. simpl. unfold drainOne. rewrite Ep, Eq, Em. done.
    + destruct (IH (S k) (settle WDrain (set_queue rest (droppedWrites (wd x)) (wd x)) db' [batch] [] [] x))
        as (ls & x' & Hr & Hp & Hd); [simpl; lia|done|].
      exists (l :: ls), x'. simpl. unfold drainOne. rewrite Ep, Eq, Em. done.
Qed.

(** Whatever the deadline and the database do, a turn of the drain is enabled, and each
    batch it takes shortens the queue: it ends unless callbacks keep refilling it. *)
Lemma drain_progress ex fault ex2 x :
  draining x -> exists l x', l ∈ [WDrainBatch ex fault ex2; WDropBatch; WExit] /\ wstep l x = Some x' /\
    (wpc x' = WGone /\ writeQ (wd x) = [] \/ draining x' /\ (length (writeQ (wd x')) < length (writeQ (wd x)))%nat).
Proof.
  intros [Ep|Ep]; destruct (writeQ (wd x)) as [|batch rest] eqn:Eq.
  - exists WExit. eexists. split; [set_solver|]. cbn [wstep]. rewrite Ep, Eq. split; [done|]. by left.
  - exists (WDrainBatch ex fault ex2).
    destruct (drainOne ex fault (wd x) (wdb x)) as [[[err d'] db']|] eqn:Ed.
    + destruct (drainOne_spec _ _ _ _ _ _ _ _ _ Eq Ed) as (G1 & _). cbn [wstep]. rewrite Ep, Eq, Ed.
      eexists. split; [set_solver|]. split; [done|]. right.
      destruct err; simpl; rewrite G1; (split; [|lia]); [|by left].
      unfold draining. simpl. destruct (ex || ex2); auto.
    + exfalso. unfold drainOne in Ed. rewrite Eq in Ed. destruct ex; [done|].
      by destruct (MarkSeenBatch fault batch (wdb x)) as [[] ?].
  - exists WExit. eexists. split; [set_solver|]. cbn [wstep]. rewrite Ep, Eq. split; [done|]. by left.
  - exists WDropBatch. eexists. split; [set_solver|]. cbn [wstep]. rewrite Ep, Eq. split; [done|]. right.
    simpl. split; [by right|lia].
Qed.
End writer.

(** ** Properties *)

(** C31: the durable writer keeps its books and stops. Whatever the order of flush
    callbacks, starts, stops and cancellations, also while it drains, and whatever
    transactions fail: every chunk of flushed ids is queued, committed, failed in the
    loop, or dropped and counted, exactly once; the queue never exceeds its 64 slots;
    every committed id is in seen_events. A stopped or cancelled writer always has a
    next step, each of which takes a batch off the queue until it leaves with the queue
    empty, everything offered by then being settled; left alone, what it does then is
    [drainQueued], whatever the deadline and the database do. *)
Theorem durable_writer_accounts memCap d db ls x :
  writeQ d = [] -> wrun memCap ls (newWriter d db) = Some x ->
  offered x ≡ₚ writeQ (wd x) ++ persisted x ++ failed x ++ shed x /\
  droppedWrites (wd x) = (droppedWrites d + length (shed x))%nat /\
  (length (writeQ (wd x)) <= 64)%nat /\
  (forall i, i ∈ map ref_ID (concat (persisted x)) -> i ∈ map seen_id (seen_events (wdb x))) /\
  (forall x', wstep memCap WExit x = Some x' -> wpc x' = WGone /\ offered x' ≡ₚ persisted x' ++ failed x' ++ shed x') /\
  (stopping x || cancelled x = true -> wpc x = WLoop -> is_Some (wstep memCap WQuit x)) /\
  (draining x -> forall ex fault ex2,
     exists l x', l ∈ [WDrainBatch ex fault ex2; WDropBatch; WExit] /\ wstep memCap l x = Some x' /\
       (wpc x' = WGone /\ writeQ (wd x) = [] \/ draining x' /\ (length (writeQ (wd x')) < length (writeQ (wd x)))%nat)) /\
  (wpc x = WDrain -> forall expired expired2 faults,
     exists ls' x', wrun memCap ls' x = Some x' /\ wpc x' = WGone /\
       (wd x', wdb x') = drainQueued (S (length (writeQ (wd x)))) expired expired2 faults 0 (wd x) (wdb x)).
Proof.
  intros Hq Hr. pose proof (new_books memCap ls d db x Hq Hr) as Hb. pose proof Hb as [H1 H2 H3 H4 H5 H6]. split_and!; [done|done|done|done| | | |].
  - intros x' Hs. cbn [wstep] in Hs. destruct (wpc x), (writeQ (wd x)) eqn:Eq; try done; by injection Hs as <-.
  - intros Hst Ep. cbn [wstep]. rewrite Ep, orb_comm, Hst. by eexists.
  - intros Hd ex fault ex2. by apply drain_progress.
  - intros Ep expired expired2 faults. apply drain_refines; [lia|done].
Qed.

Definition demo_chunk : list Event := [mkEvent "e1" "bob" 10 1 [] "n" "s"].
Definition demo_writer_run : list WLabel :=
  [WFlushed 1 demo_chunk; WStart; WBatch (TxCommit (Opaque "busy")); WStop; WQuit; WFlushed 2 demo_chunk;
   WDrainBatch false TxOk false].

Lemma durable_writer_accounts_witness :
  exists x, wrun 10 demo_writer_run (newWriter NewDedup emptyDB) = Some x /\
    failed x = [chunk_of demo_chunk] /\ persisted x = [chunk_of demo_chunk] /\
    exists x', wstep 10 WExit x = Some x' /\ offered x' ≡ₚ persisted x' ++ failed x' ++ shed x'.
Proof.
  eexists. match goal with |- ?r = Some ?n /\ _ => assert (r = Some n) as Hrun by (vm_compute; reflexivity) end.
  split; [exact Hrun|]. split; [reflexivity|]. split; [reflexivity|]. eexists. split; [reflexivity|].
  destruct (durable_writer_accounts 10 NewDedup emptyDB demo_writer_run _ eq_refl Hrun) as (_ & _ & _ & _ & H & _).
  by destruct (H _ eq_refl) as [_ ?].
Defined.
