(* ===== verification/Ingest.v ===== *)
(** * Ingest step (internal/crawler/ingest.go)

    The per-event step shared by the crawlers: win the id, check scope, id and
    signature, then hand the event to the store. [EventSaver] is the interface
    [eventSaver]; the store is an instance. Verification is go-nostr's [CheckID]
    and [CheckSignature], parameters of [verifyEvent]. *)

From S2P Require Import Prelude Nostr Config Classifier Control Dedup.
From S2P Require Import TierWriter Store.

Class EventSaver (S : Type) := {
  save_event : Event -> S -> option error * S;
}.

#[export] Instance Store_EventSaver {W E} `{!TierWriter W E} (cls : gmap Z string) : EventSaver (Store W) := {
  save_event := SaveEvent cls;
}.

(** [verifyEvent]: the signature is looked at only when the id matches the body. *)
Definition verifyEvent (CheckID : Event -> bool) (CheckSignature : Event -> bool * option error)
    (ev : Event) : bool * bool :=
  if negb (CheckID ev) then (false, false) else (true, (CheckSignature ev).1).

Section ingest.
Context {S : Type} `{!EventSaver S}.
Variable memCap : nat.
Variable verify : Event -> bool * bool.

Definition ingestStep (now : Z) (ev : Event) (s : S) (d : Dedup) : bool * S * Dedup :=
  let '(won, d1) := CheckAndMark memCap now (ID ev) d in
  if negb won then (false, s, d1)
  else if String.eqb (TierForKind (Kind ev)) TierDrop then (false, s, Unmark (ID ev) d1)
  else
    let '(idOK, sigOK) := verify ev in
    if negb idOK then (false, s, addBadID (Unmark (ID ev) d1))
    else if negb sigOK then (false, s, Unmark (ID ev) d1)
    else
      let '(err, s') := save_event ev s in
      match err with
      | Some e => if errors_Is e ErrBatchFull then (false, s', Unmark (ID ev) d1) else (false, s', d1)
      | None => (true, s', d1)
      end.

(** A source's stream of events. *)
Fixpoint ingestAll (now : Z) (evs : list Event) (s : S) (d : Dedup) : list bool * S * Dedup :=
  match evs with
  | [] => ([], s, d)
  | ev :: evs' =>
      let '(ok, s1, d1) := ingestStep now ev s d in
      let '(oks, s2, d2) := ingestAll now evs' s1 d1 in
      (ok :: oks, s2, d2)
  end.

Lemma Unmark_unseen i d : Seen i (Unmark i d) = false.
Proof.
  unfold Seen, Unmark. destruct (parseEventID i) as [key|] eqn:Hp; [|done].
  unfold seenKey. simpl. apply orb_false_iff. split; apply bool_decide_eq_false; set_solver.
Qed.

Lemma Unmark_addBadID i d : Seen i (addBadID d) = Seen i d.
Proof. done. Qed.

Lemma CheckAndMark_seen now i d :
  (1 < memCap)%nat -> is_Some (parseEventID i) -> Seen i (CheckAndMark memCap now i d).2 = true.
Proof.
  intros Hm [key Hp]. unfold Seen, CheckAndMark. rewrite Hp.
  destruct (seenKey key d) eqn:Es; simpl; [done|].
  eapply remembered_seen, (insertLocked_fresh memCap now key 0). lia.
Qed.
End ingest.

(** ** Properties *)

(** C14: only genuine, in-scope events are stored, and a refusal can be retried. The
    step reports success exactly when it won the id, the kind is in scope, id and
    signature check out, and the store accepted the event; the store is called only
    after those checks; a duplicate changes nothing; and every refusal except an
    unexpected store error leaves the id unmarked, so a later copy is tried again. *)
Theorem ingest_admits_exactly {S} `{!EventSaver S} memCap verify now ev (s s' : S) d d' ok :
  ingestStep memCap verify now ev s d = (ok, s', d') ->
  let won := (CheckAndMark memCap now (ID ev) d).1 in
  let inScope := negb (String.eqb (TierForKind (Kind ev)) TierDrop) in
  let valid := (verify ev).1 && (verify ev).2 in
  (ok = true <-> won = true /\ inScope = true /\ valid = true /\ save_event ev s = (None, s')) /\
  (won && inScope && valid = false -> s' = s) /\
  (won = false -> ok = false /\ d' = d) /\
  (won = true -> ok = false ->
     Seen (ID ev) d' = false \/
     exists e, save_event ev s = (Some e, s') /\ errors_Is e ErrBatchFull = false).
Proof.
  unfold ingestStep. intros H.
  destruct (CheckAndMark memCap now (ID ev) d) as [won d1] eqn:Ec. cbn [fst] in *.
  assert (won = false -> d1 = d) as Hlost.
  { unfold CheckAndMark in Ec. repeat case_match; by simplify_eq. }
  destruct won; cbn [negb] in H; [|simplify_eq; cbv zeta; cbn [andb]; intuition (congruence || auto)].
  destruct (String.eqb (TierForKind (Kind ev)) TierDrop); cbn [negb andb] in *.
  { simplify_eq. cbv zeta. split_and!; [intuition congruence|done|done|].
    intros _ _. left. apply Unmark_unseen. }
  destruct (verify ev) as [idOK sigOK]. cbn [fst snd] in *.
  destruct idOK; cbn [negb andb] in *.
  2:{ simplify_eq. cbv zeta. split_and!; [intuition congruence|done|done|].
      intros _ _. left. rewrite Unmark_addBadID. apply Unmark_unseen. }
  destruct sigOK; cbn [negb andb] in *.
  2:{ simplify_eq. cbv zeta. split_and!; [intuition congruence|done|done|].
      intros _ _. left. apply Unmark_unseen. }
  destruct (save_event ev s) as [[e|] s1].
  - destruct (errors_Is e ErrBatchFull) eqn:Ee; simplify_eq; cbv zeta;
      (split_and!; [intuition congruence|done|done|]); intros _ _.
    + left. apply Unmark_unseen.
    + right. by exists e.
  - simplify_eq. cbv zeta. split_and!; [intuition congruence|done|done|done].
Qed.

#[local] Instance demo_saver : EventSaver (list Event) := {
  save_event := fun ev s => if decide (length s < 1)%nat then (None, s ++ [ev])
                            else (Some (Sentinel ErrBatchFull), s);
}.
Definition demo_ev (i : string) : Event := mkEvent i "bob" 5 1 [] "hi" "sig".

Lemma ingest_admits_exactly_witness :
  let '(ok1, s1, d1) := ingestStep 10 (fun _ => (true, true)) 1 (demo_ev demo_id) ([] : list Event) NewDedup in
  let '(ok2, s2, d2) := ingestStep 10 (fun _ => (true, true)) 1 (demo_ev demo_id2) s1 d1 in
  ok1 = true /\ ok2 = false /\ Seen demo_id2 d2 = false.
Proof.
  destruct (ingestStep 10 (fun _ => (true, true)) 1 (demo_ev demo_id) ([] : list Event) NewDedup)
    as [[ok1 s1] d1] eqn:E1.
  destruct (ingestStep 10 (fun _ => (true, true)) 1 (demo_ev demo_id2) s1 d1) as [[ok2 s2] d2] eqn:E2.
  assert (s1 = [demo_ev demo_id] /\ ok1 = true /\ ok2 = false) as (-> & -> & ->).
  { vm_compute in E1. injection E1 as <- <- <-. vm_compute in E2. injection E2 as <- <- <-. done. }
  split; [done|]. split; [done|].
  destruct (ingest_admits_exactly 10 _ 1 (demo_ev demo_id2) _ _ _ _ _ E2) as (_ & _ & _ & H).
  destruct H as [H|(e & He & Hf)]; [|done|exact H|].
  - vm_compute in E1. injection E1 as <-. vm_compute. reflexivity.
  - vm_compute in He. injection He as <-. discriminate Hf.
Defined.
