(* ===== verification/Sources.v ===== *)
(** * Many sources, one dedup layer (internal/crawler/ingest.go, crawler.go)

    [Crawler.Run] gives every source relay a goroutine, and the priority crawler is one
    more; they call [ingestStep] concurrently on the shared dedup layer and store. Only
    [CheckAndMark], [Unmark] and [SaveEvent] are atomic, so here the step is cut at
    those points and the pieces of all goroutines interleave, with each other and with
    the flush callbacks of the batchers. *)

From S2P Require Import Prelude Nostr Config Classifier Control Dedup TierWriter Store Ingest.

(** Where a goroutine is inside [ingestStep]. *)
Inductive IPc := IIdle | IWon (ev : Event) | IVerified (ev : Event).

Definition working (p : IPc) : option Event :=
  match p with IIdle => None | IWon ev | IVerified ev => Some ev end.

Definition keyOf (ev : Event) : option (list Z) := parseEventID (ID ev).

Section sources.
Context {S : Type} `{!EventSaver S}.
Variable memCap : nat.
Variable verify : Event -> bool * bool.

Record Sys := mkSys {
  st : S;
  dd : Dedup;
  gs : gmap nat IPc;
  saved : list Event;                 (* ghost: accepted by the store *)
  skipped : list Event;               (* ghost: lost CheckAndMark *)
  marks : nat;                        (* ghost: insertions into the cache *)
}.

Definition set_g (g : nat) (p : IPc) (d : Dedup) (y : Sys) : Sys :=
  mkSys (st y) d (<[g := p]> (gs y)) (saved y) (skipped y) (marks y).

Inductive SLabel :=
  | LCheck (g : nat) (now : Z) (ev : Event)    (* an event arrives: CheckAndMark *)
  | LVerify (g : nat)                          (* scope and signature, Unmark on failure *)
  | LSave (g : nat)                            (* SaveEvent, Unmark when the batch is full *)
  | LFlushed (now : Z) (evs : list Event)      (* a batcher calls OnFlushed *)
  | LStore (s : S).                            (* the store moves on *)

Definition sstep (l : SLabel) (y : Sys) : option Sys :=
  match l with
  | LCheck g now ev =>
      match gs y !! g with
      | None | Some IIdle =>
          let '(won, d1) := CheckAndMark memCap now (ID ev) (dd y) in
          Some (if won
                then mkSys (st y) d1 (<[g := IWon ev]> (gs y)) (saved y) (skipped y) (marks y + 1)
                else mkSys (st y) d1 (gs y) (saved y) (skipped y ++ [ev]) (marks y))
      | _ => None
      end
  | LVerify g =>
      match gs y !! g with
      | Some (IWon ev) =>
          if String.eqb (TierForKind (Kind ev)) TierDrop then Some (set_g g IIdle (Unmark (ID ev) (dd y)) y)
          else
            let '(idOK, sigOK) := verify ev in
            if negb idOK then Some (set_g g IIdle (addBadID (Unmark (ID ev) (dd y))) y)
            else if negb sigOK then Some (set_g g IIdle (Unmark (ID ev) (dd y)) y)
            else Some (set_g g (IVerified ev) (dd y) y)
      | _ => None
      end
  | LSave g =>
      match gs y !! g with
      | Some (IVerified ev) =>
          let '(err, s') := save_event ev (st y) in
          Some (match err with
                | None => mkSys s' (dd y) (<[g := IIdle]> (gs y)) (saved y ++ [ev]) (skipped y) (marks y)
                | Some e =>
                    let d' := if errors_Is e ErrBatchFull then Unmark (ID ev) (dd y) else dd y in
                    mkSys s' d' (<[g := IIdle]> (gs y)) (saved y) (skipped y) (marks y)
                end)
      | _ => None
      end
  | LFlushed now evs =>
      Some (mkSys (st y) (OnFlushed memCap now evs (dd y)) (gs y) (saved y) (skipped y) (marks y + length evs))
  | LStore s' => Some (mkSys s' (dd y) (gs y) (saved y) (skipped y) (marks y))
  end.

Fixpoint srun (ls : list SLabel) (y : Sys) : option Sys :=
  match ls with
  | [] => Some y
  | l :: ls' => match sstep l y with Some y' => srun ls' y' | None => None end
  end.

Definition start (s : S) (d : Dedup) : Sys := mkSys s d ∅ [] [] 0.

(** ** Invariant *)

(** Goroutine [g] is working on key [k]. *)
Definition busy (m : gmap nat IPc) (g : nat) (k : list Z) : Prop :=
  exists p ev, m !! g = Some p /\ working p = Some ev /\ keyOf ev = Some k.

Definition stored_key (l : list Event) (k : list Z) : Prop := exists ev, ev ∈ l /\ keyOf ev = Some k.

Definition genuine (ev : Event) : Prop := verify ev = (true, true) /\ TierForKind (Kind ev) ≠ TierDrop.

(** [left_ y]: how many insertions every key in use still survives. *)
Definition left_ (y : Sys) : nat := memCap - 1 - marks y.

Record excl (y : Sys) : Prop := {
  x_mem : forall g k, busy (gs y) g k -> remembered memCap k (left_ y) (dd y);
  x_saved : forall k, stored_key (saved y) k -> remembered memCap k (left_ y) (dd y);
  x_one : forall g1 g2 k, busy (gs y) g1 k -> busy (gs y) g2 k -> g1 = g2;
  x_new : forall g k, busy (gs y) g k -> ~ stored_key (saved y) k;
  x_nodup : NoDup (omap keyOf (saved y));
  x_valid : forall ev, ev ∈ saved y -> genuine ev;
  x_verified : forall g ev, gs y !! g = Some (IVerified ev) -> genuine ev;
}.

(** ** Lemmas *)

Lemma busy_insert m g p g' k :
  busy (<[g := p]> m) g' k <->
  (g' = g /\ exists ev, working p = Some ev /\ keyOf ev = Some k) \/ (g' ≠ g /\ busy m g' k).
Proof.
  unfold busy. destruct (decide (g' = g)) as [->|Hne].
  - rewrite lookup_insert_eq. naive_solver.
  - rewrite lookup_insert_ne by done. naive_solver.
Qed.

(** The cache may change as long as the keys in use are kept. *)
Lemma excl_cache y d n :
  excl y ->
  (forall k, (exists g, busy (gs y) g k) \/ stored_key (saved y) k ->
     remembered memCap k (left_ y) (dd y) -> remembered memCap k (memCap - 1 - n) d) ->
  forall s, excl (mkSys s d (gs y) (saved y) (skipped y) n).
Proof.
  intros [H1 H2 H3 H4 H5 H6 H7] Hd s. split; simpl; try done.
  - intros g k Hb. apply Hd; [left; by exists g|by eapply H1].
  - intros k Hk. apply Hd; [by right|by apply H2].
Qed.

(** A goroutine gives up its event, which may be unmarked. *)
Lemma excl_release y g ev p d s :
  excl y -> gs y !! g = Some p -> working p = Some ev ->
  d = dd y \/ d = Unmark (ID ev) (dd y) \/ d = addBadID (Unmark (ID ev) (dd y)) ->
  excl (mkSys s d (<[g := IIdle]> (gs y)) (saved y) (skipped y) (marks y)).
Proof.
  intros [H1 H2 H3 H4 H5 H6 H7] Hg Hw Hd.
  assert (forall k, keyOf ev ≠ Some k -> remembered memCap k (left_ y) (dd y) -> remembered memCap k (left_ y) d) as Hkeep.
  { intros k Hk Hr. pose proof (dop_remembered memCap (OUnmark (ID ev)) k (left_ y) (dd y)) as Hu. simpl in Hu.
    assert (remembered memCap k (left_ y) (Unmark (ID ev) (dd y))) as Hr'
      by (apply Hu; [by apply bool_decide_eq_false|done]).
    destruct Hd as [->|[->| ->]]; [done|done|exact Hr']. }
  assert (forall g' k, busy (<[g := IIdle]> (gs y)) g' k -> g' ≠ g /\ busy (gs y) g' k) as Hb.
  { intros g' k [[_ (? & [=] & _)]|?]%busy_insert. done. }
  assert (forall k, keyOf ev = Some k -> busy (gs y) g k) as Hown by (intros k Hk; by exists p, ev).
  split; simpl; try done.
  - intros g' k [Hne Hbk]%Hb. apply Hkeep; [|by eapply H1]. intros Hk. by apply Hne, (H3 _ _ k), Hown.
  - intros k Hk. apply Hkeep; [|by apply H2]. intros Hk'. by eapply H4; [apply Hown|].
  - intros g1 g2 k [_ ?]%Hb [_ ?]%Hb. by eapply H3.
  - intros g' k [_ ?]%Hb. by eapply H4.
  - intros g' ev'. destruct (decide (g' = g)) as [->|Hne]; [by rewrite lookup_insert_eq|].
    rewrite lookup_insert_ne by done. apply H7.
Qed.

(** A goroutine wins an event nobody else has. *)
Lemma excl_win y g now ev d1 :
  excl y -> CheckAndMark memCap now (ID ev) (dd y) = (true, d1) -> (marks y + 1 < memCap)%nat ->
  excl (mkSys (st y) d1 (<[g := IWon ev]> (gs y)) (saved y) (skipped y) (marks y + 1)).
Proof.
  intros Hx Hc Hm.
  assert (forall k, remembered memCap k (left_ y) (dd y) -> remembered memCap k (memCap - 1 - (marks y + 1)) d1) as Hold.
  { intros k Hr. pose proof (dop_remembered memCap (OCheckAndMark now (ID ev)) k (memCap - 1 - (marks y + 1)) (dd y) eq_refl) as Hd.
    simpl in Hd. rewrite Hc in Hd. apply Hd. unfold left_ in Hr. eapply remembered_weaken; [|exact Hr]. lia. }
  assert (forall k, keyOf ev = Some k ->
    remembered memCap k (memCap - 1 - (marks y + 1)) d1 /\ seenKey k (dd y) = false) as Hnew.
  { intros k Hk. unfold CheckAndMark in Hc. unfold keyOf in Hk. rewrite Hk in Hc.
    destruct (seenKey k (dd y)); [done|]. injection Hc as <-. split; [|done]. apply insertLocked_fresh. lia. }
  destruct (excl_cache y d1 (marks y + 1) Hx (fun k _ => Hold k) (st y)) as [H1 H2 H3 H4 H5 H6 H7].
  simpl in *. destruct Hx as [X1 X2 _ _ _ _ _].
  assert (forall k, keyOf ev = Some k -> (forall g', ~ busy (gs y) g' k) /\ ~ stored_key (saved y) k) as Hfree.
  { intros k Hk. destruct (Hnew k Hk) as [_ Hns]. split.
    - intros g' Hb. apply X1, remembered_seen in Hb. congruence.
    - intros Hst. apply X2, remembered_seen in Hst. congruence. }
  split; simpl; try done.
  - intros g' k [[_ (ev' & [= <-] & Hk)]|[_ Hb]]%busy_insert; [by apply Hnew|by eapply H1].
  - intros g1 g2 k [[-> (e1 & [= <-] & K1)]|[_ B1]]%busy_insert [[-> (e2 & [= <-] & K2)]|[_ B2]]%busy_insert; try done.
    + exfalso. by eapply (proj1 (Hfree k K1)).
    + exfalso. by eapply (proj1 (Hfree k K2)).
    + by eapply H3.
  - intros g' k [[_ (ev' & [= <-] & Hk)]|[_ Hb]]%busy_insert; [by apply Hfree|by eapply H4].
  - intros g' ev'. destruct (decide (g' = g)) as [->|Hne]; [by rewrite lookup_insert_eq|].
    rewrite lookup_insert_ne by done. apply H7.
Qed.

(** The checks passed: same event, same key. *)
Lemma excl_verified y g ev :
  excl y -> gs y !! g = Some (IWon ev) -> genuine ev -> excl (set_g g (IVerified ev) (dd y) y).
Proof.
  intros [H1 H2 H3 H4 H5 H6 H7] Hg Hgen.
  assert (forall g' k, busy (<[g := IVerified ev]> (gs y)) g' k -> busy (gs y) g' k) as Hb.
  { intros g' k [[-> (ev' & [= <-] & Hk)]|[_ ?]]%busy_insert; [by exists (IWon ev), ev|done]. }
  split; simpl; try done.
  - intros g' k Hbk. by eapply H1, Hb.
  - intros g1 g2 k B1 B2. by eapply H3; apply Hb.
  - intros g' k Hbk. by eapply H4, Hb.
  - intros g' ev'. destruct (decide (g' = g)) as [->|Hne]; [rewrite lookup_insert_eq; by intros [= <-]|].
    rewrite lookup_insert_ne by done. apply H7.
Qed.

(** The store took the event: its key moves from busy to stored. *)
Lemma excl_save y g ev s' :
  excl y -> gs y !! g = Some (IVerified ev) ->
  excl (mkSys s' (dd y) (<[g := IIdle]> (gs y)) (saved y ++ [ev]) (skipped y) (marks y)).
Proof.
  intros Hx Hg. pose proof (excl_release y g ev _ (dd y) s' Hx Hg eq_refl (or_introl eq_refl)) as [R1 R2 R3 R4 R5 R6 R7].
  destruct Hx as [H1 H2 H3 H4 H5 H6 H7]. simpl in *.
  assert (forall k, keyOf ev = Some k -> busy (gs y) g k) as Hown by (intros k Hk; by exists (IVerified ev), ev).
  assert (forall k, stored_key (saved y ++ [ev]) k -> stored_key (saved y) k \/ keyOf ev = Some k) as Hst.
  { intros k (e & [He|He%list_elem_of_singleton]%elem_of_app & Hk); [left; by exists e|right; by subst e]. }
  split; simpl; try done.
  - intros k [Hk|Hk]%Hst; [by apply R2|by eapply H1, Hown].
  - intros g' k Hb [Hk|Hk]%Hst; [by eapply R4|].
    apply busy_insert in Hb as [[_ (? & [=] & _)]|[Hne Hb]]. by apply Hne, (H3 _ _ k), Hown.
  - rewrite omap_app. simpl. destruct (keyOf ev) as [k|] eqn:Ek; [|by rewrite app_nil_r].
    apply NoDup_app. split_and!; [done| |apply NoDup_singleton].
    intros k' (e & He & Hk')%list_elem_of_omap ->%list_elem_of_singleton.
    apply (H4 g k); [by apply Hown|]. by exists e.
  - intros e [He|He%list_elem_of_singleton]%elem_of_app; [by apply H6|subst e; by eapply H7].
Qed.

Lemma step_excl l y y' :
  excl y -> sstep l y = Some y' -> (marks y' < memCap)%nat -> excl y'.
Proof.
  intros Hx Hs Hm. destruct l as [g now ev|g|g|now evs|s']; cbn [sstep] in Hs.
  - destruct (CheckAndMark memCap now (ID ev) (dd y)) as [won d1] eqn:Ec.
    assert (y' = if won then mkSys (st y) d1 (<[g := IWon ev]> (gs y)) (saved y) (skipped y) (marks y + 1)
                 else mkSys (st y) d1 (gs y) (saved y) (skipped y ++ [ev]) (marks y)) as ->
      by (destruct (gs y !! g) as [[]|]; by simplify_eq).
    destruct won; [by eapply excl_win|].
    assert (d1 = dd y) as -> by (unfold CheckAndMark in Ec; repeat case_match; by simplify_eq).
    destruct Hx. by split.
  - destruct (gs y !! g) as [[|ev|]|] eqn:Eg; try done.
    destruct (String.eqb_spec (TierForKind (Kind ev)) TierDrop) as [|Hscope];
      [simplify_eq; eapply excl_release; eauto|].
    destruct (verify ev) as [[] []] eqn:Ev; simpl in Hs; simplify_eq;
      first [by apply excl_verified|eapply excl_release; eauto].
  - destruct (gs y !! g) as [[| |ev]|] eqn:Eg; try done.
    destruct (save_event ev (st y)) as [[e|] s']; simplify_eq; [|by apply excl_save].
    eapply excl_release; [done|done|done|]. destruct (errors_Is e ErrBatchFull); eauto.
  - simplify_eq. apply excl_cache; [done|]. intros k _ Hr. simpl in Hm.
    apply (dop_remembered memCap (OFlushed now evs) k _ (dd y) eq_refl).
    eapply remembered_weaken; [|exact Hr]. unfold left_. simpl. lia.
  - simplify_eq. by apply excl_cache.
Qed.

Lemma sstep_marks l y y' : sstep l y = Some y' -> (marks y <= marks y')%nat.
Proof.
  destruct l; cbn [sstep]; intros Hs; repeat case_match; simplify_eq; simpl; lia.
Qed.

Lemma srun_marks ls y y' : srun ls y = Some y' -> (marks y <= marks y')%nat.
Proof.
  revert y. induction ls as [|l ls IH]; intros y Hr; simpl in Hr; [by simplify_eq|].
  destruct (sstep l y) as [y1|] eqn:Es; [|done]. apply sstep_marks in Es. apply IH in Hr. lia.
Qed.

Lemma srun_excl ls y y' : excl y -> srun ls y = Some y' -> (marks y' < memCap)%nat -> excl y'.
Proof.
  revert y. induction ls as [|l ls IH]; intros y Hx Hr Hm; simpl in Hr; [by simplify_eq|].
  destruct (sstep l y) as [y1|] eqn:Es; [|done]. eapply IH; [|done|done].
  eapply step_excl; [done|done|]. apply srun_marks in Hr. lia.
Qed.
End sources.

(** ** Properties *)

(** C34: concurrent sources store an event once. However the goroutines of all
    sources interleave with each other and with flush callbacks, as long as fewer than
    [memCap] ids were inserted: no two goroutines ever work on the same id, so
    verification and storing happen in one place; every id reaches the store at most
    once; whatever was stored passed the scope, id and signature checks, and is still
    remembered as seen. *)
Theorem concurrent_ingest_once {S} `{!EventSaver S} memCap verify (s : S) d ls y :
  srun memCap verify ls (start s d) = Some y -> (marks y < memCap)%nat ->
  (forall g1 g2 k, busy (gs y) g1 k -> busy (gs y) g2 k -> g1 = g2) /\
  (forall g k, busy (gs y) g k -> ~ stored_key (saved y) k) /\
  NoDup (omap keyOf (saved y)) /\
  (forall ev, ev ∈ saved y -> verify ev = (true, true) /\ TierForKind (Kind ev) ≠ TierDrop) /\
  (forall ev k, ev ∈ saved y -> keyOf ev = Some k -> Seen (ID ev) (dd y) = true).
Proof.
  intros Hr Hm. assert (excl memCap verify (start s d)) as H0.
  { assert (forall g k, ~ busy (gs (start s d)) g k) as Hb
      by (intros g k (p & ev & Hg & _); simpl in Hg; by rewrite lookup_empty in Hg).
    split; simpl.
    - intros g k H. by apply Hb in H.
    - intros k (ev & Hev & _). set_solver.
    - intros g1 g2 k H. by apply Hb in H.
    - intros g k H. by apply Hb in H.
    - constructor.
    - set_solver.
    - intros g ev Hg. by rewrite lookup_empty in Hg. }
  destruct (srun_excl memCap verify ls _ _ H0 Hr Hm) as [_ X2 X3 X4 X5 X6 _].
  split_and!; [done|done|done|done|]. intros ev k Hev Hk. unfold Seen, keyOf in *. rewrite Hk.
  eapply remembered_seen, X2. by exists ev.
Qed.

(** A goroutine that is not interrupted runs exactly [ingestStep]. *)
Theorem phases_run_ingestStep {S} `{!EventSaver S} memCap verify now ev g (y : Sys (S := S)) :
  gs y !! g = None \/ gs y !! g = Some IIdle ->
  let '(ok, s', d') := ingestStep memCap verify now ev (st y) (dd y) in
  exists ls y', srun memCap verify ls y = Some y' /\ st y' = s' /\ dd y' = d' /\
    saved y' = (if ok then saved y ++ [ev] else saved y) /\
    (gs y' !! g = None \/ gs y' !! g = Some IIdle).
Proof.
  intros Hg. unfold ingestStep. destruct (CheckAndMark memCap now (ID ev) (dd y)) as [won d1] eqn:Ec.
  assert (sstep memCap verify (LCheck g now ev) y =
    Some (if won then mkSys (st y) d1 (<[g := IWon ev]> (gs y)) (saved y) (skipped y) (marks y + 1)
          else mkSys (st y) d1 (gs y) (saved y) (skipped y ++ [ev]) (marks y))) as Hc.
  { simpl. rewrite Ec. by destruct Hg as [-> | ->]. }
  destruct won; cbn [negb].
  2:{ exists [LCheck g now ev]. cbn [srun]. rewrite Hc. eexists. by split_and!. }
  destruct (String.eqb (TierForKind (Kind ev)) TierDrop) eqn:Et.
  { exists [LCheck g now ev; LVerify g]. cbn [srun]. rewrite Hc. cbn [sstep gs]. rewrite lookup_insert_eq, Et.
    eexists. split; [done|]. simpl. rewrite lookup_insert_eq. split_and!; auto. }
  destruct (verify ev) as [[] []] eqn:Ev; cbn [negb].
  2-4: exists [LCheck g now ev; LVerify g]; cbn [srun]; rewrite Hc; cbn [sstep gs]; rewrite lookup_insert_eq, Et, Ev;
    eexists; (split; [done|]); simpl; rewrite lookup_insert_eq; split_and!; auto.
  destruct (save_event ev (st y)) as [err s'] eqn:Es.
  assert (forall y', Some y' = Some (match err with
      | None => mkSys s' d1 (<[g := IIdle]> (<[g := IVerified ev]> (<[g := IWon ev]> (gs y)))) (saved y ++ [ev]) (skipped y) (marks y + 1)
      | Some e => mkSys s' (if errors_Is e ErrBatchFull then Unmark (ID ev) d1 else d1)
                    (<[g := IIdle]> (<[g := IVerified ev]> (<[g := IWon ev]> (gs y)))) (saved y) (skipped y) (marks y + 1)
      end) -> srun memCap verify [LCheck g now ev; LVerify g; LSave g] y = Some y') as Hrun.
  { intros y' ->. cbn [srun]. rewrite Hc. cbn [sstep gs]. rewrite lookup_insert_eq, Et, Ev.
    cbn [negb set_g sstep gs st dd saved skipped marks]. rewrite lookup_insert_eq, Es. by destruct err. }
  destruct err as [e|]; [destruct (errors_Is e ErrBatchFull)|];
    exists [LCheck g now ev; LVerify g; LSave g]; eexists; (split; [by apply Hrun|]); simpl;
    rewrite lookup_insert_eq; split_and!; auto.
Qed.

#[local] Instance list_saver : EventSaver (list Event) := { save_event := fun ev s => (None, s ++ [ev]) }.
Definition demo_genuine : Event := demo_ev demo_id.
Definition demo_forged : Event := mkEvent demo_id "mallory" 5 1 [] "forged" "sig".
Definition demo_verify (ev : Event) : bool * bool := (String.eqb (PubKey ev) "bob", true).

Lemma concurrent_ingest_once_witness :
  exists y, srun 10 demo_verify [LCheck 1 5 demo_genuine; LCheck 2 5 demo_genuine; LVerify 1; LSave 1]
      (start ([] : list Event) NewDedup) = Some y /\
    saved y = [demo_genuine] /\ NoDup (omap keyOf (saved y)) /\ Seen demo_id (dd y) = true.
Proof.
  eexists. split; [vm_compute; reflexivity|]. split; [reflexivity|].
  edestruct (concurrent_ingest_once 10 demo_verify ([] : list Event) NewDedup
    [LCheck 1 5 demo_genuine; LCheck 2 5 demo_genuine; LVerify 1; LSave 1]) as (_ & _ & H3 & _ & H5).
  - vm_compute. reflexivity.
  - vm_compute. lia.
  - split; [exact H3|]. eapply (H5 demo_genuine); [apply list_elem_of_here|vm_compute; reflexivity].
Defined.

(** A forged copy can suppress the genuine event. A source that sends a copy with the
    right id and another body wins the id first; while it is being checked the genuine
    copy of another source is skipped as a duplicate; the forged one then fails its
    check. Nothing was stored, nobody is working on the id, and it is not marked: the
    event is lost until some relay sends it again. *)
Theorem forged_copy_suppresses_genuine :
  exists ls y, srun 10 demo_verify ls (start ([] : list Event) NewDedup) = Some y /\
    LCheck 2 5 demo_genuine ∈ ls /\ demo_verify demo_genuine = (true, true) /\
    saved y = [] /\ st y = [] /\ skipped y = [demo_genuine] /\ Seen demo_id (dd y) = false /\
    (forall g k, ~ busy (gs y) g k).
Proof.
  exists [LCheck 1 5 demo_forged; LCheck 2 5 demo_genuine; LVerify 1]. eexists.
  split; [vm_compute; reflexivity|]. split; [by apply list_elem_of_further, list_elem_of_here|].
  split_and!; try by vm_compute. intros g k (p & ev & Hg & Hw & _).
  apply elem_of_map_to_list in Hg. vm_compute in Hg. apply list_elem_of_singleton in Hg. by simplify_eq.
Qed.
