(* ===== verification/CrashSafety.v ===== *)
(** * Seen means stored (dedup.go with batcher.go, feed.go and control.go)

    The running process as one system: the batchers of all tiers, the feed writer
    they offer their stored rows to, the dedup layer wired to them by [SetOnFlushed],
    and the control database, run concurrently and across crashes. The claim of
    dedup.go is that a crash never leaves an event "seen but not stored". *)

From S2P Require Import Prelude Nostr Config Classifier Rows Collapse Query Schema.
From S2P Require Import Control Dedup Batcher Feed TierWriter.

Record Node := mkNode {
  nts : gmap string Batcher;     (* s.tiers, with their tables *)
  nfw : FW;                      (* s.fw, with events_feed *)
  nd : Dedup;
  ndb : DB;
}.

(** What the worker of a batcher has inserted during a turn. *)
Definition newCalls (b b' : Batcher) : list (list Event) :=
  drop (length (flushedCalls b)) (flushedCalls b').

(** The rows of [events_all]. *)
Definition all_rows (ts : gmap string Batcher) : list Event :=
  concat (map (fun tb => table tb.2) (map_to_list ts)).

Lemma activeTiers_map (t : string) (b : Batcher) :
  (list_to_map (map (fun t => (t, newBatcher)) activeTiers) : gmap string Batcher) !! t = Some b <->
  t ∈ activeTiers /\ b = newBatcher.
Proof.
  rewrite <-elem_of_list_to_map by (apply (bool_decide_unpack _); by vm_compute).
  rewrite list_elem_of_fmap. naive_solver.
Qed.

Section node.
Variables (maxSize memCap : nat).

(** The worker calls [onFlushed] for every chunk it has inserted, and offers each of
    its rows to the feed. *)
Definition callbacks (now : Z) (calls_ : list (list Event)) (d : Dedup) : Dedup :=
  foldl (fun d chunk => OnFlushed memCap now chunk d) d calls_.
Definition offerAll (evs : list Event) (fw : FW) : FW := foldl (fun fw e => offer e fw) fw evs.
Definition mirrorChunks (calls_ : list (list Event)) (fw : FW) : FW :=
  foldl (fun fw chunk => offerAll chunk fw) fw calls_.

(** Starting again after the memory of the process is gone: batchers over the tables
    on disk, the feed writer over the mirror, which [Init] fills when it is empty,
    and a cache warmed from [seen_events]. *)
Definition restartTier (b : Batcher) : Batcher :=
  mkBatcher (w newBatcher) [] [] false (table b) (table b) [table b] [].
Definition restartFeed (fcount fins : option error) (now : Z) (rows : list Event) (fw : FW) : FW :=
  let feed := (backfillFeed (fun e => uint32 (CreatedAt e)) fcount fins now rows (feedTable fw)).2 in
  mkFW [] false false [] 0 feed feed 0.
Definition restart (fault fcount fins : option error) (now : Z) (n : Node) : Node :=
  mkNode (restartTier <$> nts n) (restartFeed fcount fins now (all_rows (nts n)) (nfw n))
    (Warm memCap fault (ndb n) NewDedup).2 (ndb n).

(** The table's TTL: rows older than the retention may go at any merge. *)
Definition expireFeed (now : Z) (keep : Event -> bool) (fw : FW) : FW :=
  mkFW (fin fw) (fstop fw) (fdone fw) (fbuf fw) (drops fw)
    (filter (fun e => now < uint32 (CreatedAt e) + feedRetention / Second \/ keep e = true) (feedTable fw))
    (flushedRows fw) (reportedDrops fw).

Inductive NLabel :=
  | NTier (t : string) (now : Z) (l : Label)     (* a turn of a batcher, or a call to it *)
  | NFeed (l : FLabel)                           (* a turn of the feed writer *)
  | NExpire (now : Z) (keep : Event -> bool)     (* a merge of events_feed *)
  | NCache (o : DOp)                             (* the crawlers use the cache *)
  | NWrite (fault : TxFault)                     (* the durable writer's loop *)
  | NDrain (expired : bool) (fault : TxFault)    (* its drain, one batch *)
  | NPrune (chunk : nat) (f1 f2 : option error) (faults : nat -> option error) (now maxAge cap_ : Z)
  | NCrash (fault fcount fins : option error) (now : Z).

Definition nstep (l : NLabel) (n : Node) : option Node :=
  match l with
  | NTier t now l =>
      match nts n !! t with
      | Some b =>
          match step maxSize l b with
          | Some b' =>
              Some (mkNode (<[t := b']> (nts n)) (mirrorChunks (newCalls b b') (nfw n))
                      (callbacks now (newCalls b b') (nd n)) (ndb n))
          | None => None
          end
      | None => None
      end
  | NFeed (FOffer _) => None
  | NFeed l =>
      match fstep l (nfw n) with
      | Some fw => Some (mkNode (nts n) fw (nd n) (ndb n))
      | None => None
      end
  | NExpire now keep => Some (mkNode (nts n) (expireFeed now keep (nfw n)) (nd n) (ndb n))
  | NCache (OFlushed _ _) => None
  | NCache o => Some (mkNode (nts n) (nfw n) (dop memCap o (nd n)) (ndb n))
  | NWrite fault =>
      match writeOne fault (nd n) (ndb n) with
      | Some (d', db') => Some (mkNode (nts n) (nfw n) d' db')
      | None => None
      end
  | NDrain expired fault =>
      match drainOne expired fault (nd n) (ndb n) with
      | Some (_, d', db') => Some (mkNode (nts n) (nfw n) d' db')
      | None => None
      end
  | NPrune chunk f1 f2 faults now maxAge cap_ =>
      Some (mkNode (nts n) (nfw n) (nd n) (pruneTurn chunk f1 f2 faults now maxAge cap_ (ndb n)))
  | NCrash fault fcount fins now => Some (restart fault fcount fins now n)
  end.

Fixpoint nrun (ls : list NLabel) (n : Node) : option Node :=
  match ls with
  | [] => Some n
  | l :: ls' => match nstep l n with Some n' => nrun ls' n' | None => None end
  end.

(** What [Init] leaves on a first boot. *)
Definition boot : Node :=
  mkNode (list_to_map (map (fun t => (t, newBatcher)) activeTiers)) newFeedWriter NewDedup emptyDB.

(** ** Invariant *)

Definition in_table (n : Node) (e : Event) : Prop := exists t b, nts n !! t = Some b /\ e ∈ table b.
Definition stored_id (n : Node) (i : string) : Prop := exists e, in_table n e /\ ID e = i.

Record node_ok (n : Node) : Prop := {
  n_inv : forall t b, nts n !! t = Some b -> Inv maxSize b;
  n_queue : forall i, i ∈ map ref_ID (concat (writeQ (nd n))) -> stored_id n i;
  n_seen : forall i, i ∈ map seen_id (seen_events (ndb n)) -> stored_id n i;
  n_feed : forall e, e ∈ feedTable (nfw n) ++ mirrored (nfw n) -> in_table n e;
}.

Hypothesis Hmax : (1 <= maxSize)%nat.

(** *** The dedup layer *)

Lemma MarkMany_queue now ids d : writeQ (MarkMany memCap now ids d) = writeQ d.
Proof.
  revert d. induction ids as [|i ids IH]; intros d; simpl; [done|]. rewrite IH.
  unfold Mark, insertLocked. destruct (parseEventID i); [|done]. by case_decide.
Qed.

Lemma OnFlushed_queue now chunk d x :
  x ∈ map ref_ID (concat (writeQ (OnFlushed memCap now chunk d))) ->
  x ∈ map ref_ID (concat (writeQ d)) \/ x ∈ map ID chunk.
Proof.
  unfold OnFlushed. destruct chunk as [|e chunk]; [by left|]. rewrite !MarkMany_queue.
  case_decide; simpl; [|by left]. rewrite concat_app, map_app, elem_of_app. simpl.
  rewrite app_nil_r, map_map. simpl. tauto.
Qed.

Lemma callbacks_queue now cs d x :
  x ∈ map ref_ID (concat (writeQ (callbacks now cs d))) ->
  x ∈ map ref_ID (concat (writeQ d)) \/ x ∈ map ID (concat cs).
Proof.
  revert d. induction cs as [|c cs IH]; intros d; simpl; [by left|].
  intros [[H|H]%OnFlushed_queue|H]%IH; rewrite map_app, elem_of_app; tauto.
Qed.

Lemma dop_queue o d : (forall now evs, o ≠ OFlushed now evs) -> writeQ (dop memCap o d) = writeQ d.
Proof.
  intros Hne. destruct o as [now i|now i|i|now evs|]; simpl; try done.
  - unfold Mark, insertLocked. destruct (parseEventID i); [|done]. by case_decide.
  - unfold CheckAndMark, insertLocked. destruct (parseEventID i) as [k|]; [|done].
    destruct (seenKey k d); [done|]. simpl. by case_decide.
  - unfold Unmark. by destruct (parseEventID i).
  - by destruct (Hne now evs).
Qed.

Lemma MarkSeenBatch_ids fault batch db x :
  x ∈ map seen_id (seen_events (MarkSeenBatch fault batch db).2) ->
  x ∈ map ref_ID batch \/ x ∈ map seen_id (seen_events db).
Proof.
  destruct (insert_all_spec batch (seen_events db)) as (H & _). intros Hx.
  destruct (MarkSeenBatch_cases fault batch db) as [E|(_ & e & E)]; rewrite E in Hx; simpl in Hx; auto; by apply H.
Qed.

(** A batch leaves the queue, and at most its ids enter the table. *)
Lemma writeOne_ids fault d db d' db' :
  writeOne fault d db = Some (d', db') ->
  exists batch, writeQ d = batch :: writeQ d' /\
    forall x, x ∈ map seen_id (seen_events db') -> x ∈ map ref_ID batch \/ x ∈ map seen_id (seen_events db).
Proof.
  unfold writeOne. destruct (writeQ d) as [|batch rest]; [done|]. intros [= <- <-].
  exists batch. split; [done|]. intros x. apply MarkSeenBatch_ids.
Qed.

Lemma drainOne_ids expired fault d db err d' db' :
  drainOne expired fault d db = Some (err, d', db') ->
  exists batch, writeQ d = batch :: writeQ d' /\
    forall x, x ∈ map seen_id (seen_events db') -> x ∈ map ref_ID batch \/ x ∈ map seen_id (seen_events db).
Proof.
  unfold drainOne. destruct (writeQ d) as [|batch rest]; [done|].
  pose proof (MarkSeenBatch_ids fault batch db) as Hm.
  destruct expired; [intros [= <- <- <-]; exists batch; auto|].
  destruct (MarkSeenBatch fault batch db) as [[e|] db1]; intros [= <- <- <-]; by exists batch.
Qed.

Lemma prune_ids chunk f1 f2 faults now maxAge cap_ db x :
  x ∈ map seen_id (seen_events (pruneTurn chunk f1 f2 faults now maxAge cap_ db)) ->
  x ∈ map seen_id (seen_events db).
Proof.
  assert (forall fuel c k count del (s : list SeenRow),
    sublist (prune_loop fuel chunk c faults k count del s).2 s) as Hloop.
  { intros fuel. induction fuel as [|fuel IH]; intros c k count del s; simpl; [done|].
    case_decide; [|done]. destruct (faults k); [done|].
    case_decide; [apply sublist_drop|]. etrans; [apply IH|apply sublist_drop]. }
  assert (sublist (seen_events (PruneSeen f1 now maxAge db).2) (seen_events db)) as H1.
  { unfold PruneSeen. destruct f1; [done|]. apply sublist_filter. }
  unfold pruneTurn, PruneSeenByRowid. set (db1 := (PruneSeen f1 now maxAge db).2) in *.
  intros Hx. apply (sublist_subseteq _ _ (fmap_sublist seen_id _ _ H1)).
  destruct (cap_ <=? 0); [done|]. destruct f2; [done|].
  specialize (Hloop (S (length (seen_events db1))) (Z.to_nat cap_) 0%nat (length (seen_events db1)) 0%nat
    (seen_events db1)).
  destruct (prune_loop _ _ _ _ _ _ _ _) as [[err dl] s]. simpl in *.
  by apply (sublist_subseteq _ _ (fmap_sublist seen_id _ _ Hloop)).
Qed.

(** *** The feed writer *)

Lemma offer_mirrored e fw x : x ∈ mirrored (offer e fw) -> x ∈ mirrored fw \/ x = e.
Proof. unfold offer, mirrored. case_decide; simpl; set_solver. Qed.
Lemma offer_table e fw : feedTable (offer e fw) = feedTable fw.
Proof. unfold offer. by case_decide. Qed.

Lemma mirrorChunks_concat cs fw : mirrorChunks cs fw = offerAll (concat cs) fw.
Proof.
  revert fw. induction cs as [|c cs IH]; intros fw; [done|]. cbn [concat].
  unfold offerAll. rewrite foldl_app. apply IH.
Qed.

Lemma offerAll_elem evs fw x :
  x ∈ feedTable (offerAll evs fw) ++ mirrored (offerAll evs fw) ->
  x ∈ feedTable fw ++ mirrored fw \/ x ∈ evs.
Proof.
  revert fw. induction evs as [|e evs IH]; intros fw; [by left|]. change (offerAll (e :: evs) fw) with (offerAll evs (offer e fw)).
  intros [[H|H%offer_mirrored]%elem_of_app|H]%IH; rewrite ?offer_table in *; set_solver.
Qed.

(** A turn of the worker neither adds to the mirror nor to its table. *)
Lemma fstep_elem l fw fw' x :
  (forall e, l ≠ FOffer e) -> fstep l fw = Some fw' ->
  x ∈ feedTable fw' ++ mirrored fw' -> x ∈ feedTable fw ++ mirrored fw.
Proof.
  assert (forall o w, x ∈ feedTable (feedFlush o w) ++ mirrored (feedFlush o w) ->
    x ∈ feedTable w ++ mirrored w) as Hflush.
  { intros o w. unfold feedFlush, mirrored. destruct (fbuf w) as [|e evs] eqn:E; simpl; [by rewrite E|].
    pose proof (insertedRows_subseteq o (e :: evs)). unfold feedInsert. set_solver. }
  assert (forall o e rest w, fin w = e :: rest ->
    x ∈ feedTable (feedRecv o e rest w) ++ mirrored (feedRecv o e rest w) ->
    x ∈ feedTable w ++ mirrored w) as Hrecv.
  { intros o e rest w E. unfold feedRecv. case_decide; [intros Hx%Hflush; revert Hx|];
      unfold mirrored; simpl; rewrite E; set_solver. }
  assert (forall fuel os k w, x ∈ feedTable (feedDrain fuel os k w) ++ mirrored (feedDrain fuel os k w) ->
    x ∈ feedTable w ++ mirrored w) as Hdrain.
  { intros fuel os. induction fuel as [|fuel IH]; intros k w; cbn [feedDrain]; [done|].
    destruct (fin w) as [|e rest] eqn:E; [|by intros Hx%IH%Hrecv].
    intros Hx. apply (Hflush (os k)). exact Hx. }
  intros Hno Hs. destruct l as [e| |o|o|os]; cbn [fstep] in Hs.
  - by destruct (Hno e).
  - by simplify_eq.
  - destruct (fdone fw), (fin fw) as [|e rest] eqn:E; simplify_eq. by apply Hrecv.
  - destruct (fdone fw); simplify_eq. by apply Hflush.
  - destruct (fdone fw), (fstop fw); simplify_eq. by apply Hdrain.
Qed.

Lemma backfill_elem {A} (created_at : A -> Z) fcount fins now (rows feed : list A) x :
  x ∈ (backfillFeed created_at fcount fins now rows feed).2 -> x ∈ feed \/ x ∈ rows.
Proof.
  unfold backfillFeed. destruct fcount, feed, fins; simpl; try tauto.
  rewrite list_elem_of_filter. tauto.
Qed.

Lemma all_rows_elem n e : e ∈ all_rows (nts n) <-> in_table n e.
Proof.
  unfold all_rows, in_table. rewrite concat_elem. split.
  - intros (l & ([t b] & -> & Hb)%list_elem_of_fmap & He). apply elem_of_map_to_list in Hb. eauto.
  - intros (t & b & Hb%elem_of_map_to_list & He). exists (table b). split; [|done].
    apply list_elem_of_fmap. by exists (t, b).
Qed.

(** *** Preservation *)

(** A turn of a batcher keeps the rows of every table, and what it reports is stored. *)
Lemma tier_turn n t b l b' fw d db :
  (forall t b, nts n !! t = Some b -> Inv maxSize b) -> nts n !! t = Some b -> step maxSize l b = Some b' ->
  let n' := mkNode (<[t := b']> (nts n)) fw d db in
  (forall t b, nts n' !! t = Some b -> Inv maxSize b) /\
  (forall e, in_table n e -> in_table n' e) /\
  (forall e, e ∈ concat (newCalls b b') -> in_table n' e).
Proof.
  intros HI Hb Hs n'. pose proof (step_ok maxSize Hmax _ _ _ (HI _ _ Hb) Hs) as (HI' & _).
  split_and!.
  - intros t' b1. simpl. intros [[<- <-]|[_ Hb1]]%lookup_insert_Some; eauto.
  - intros e (t' & b1 & Hb1 & He). destruct (decide (t' = t)) as [->|Hne].
    + exists t, b'. split; [by apply lookup_insert_eq|]. simplify_eq. by eapply (table_mono maxSize l b b' Hs).
    + exists t', b1. split; [|done]. simpl. by rewrite lookup_insert_ne.
  - intros e He. exists t, b'. split; [by apply lookup_insert_eq|].
    destruct HI' as [[_ _ Hc Ha _] _]. apply Ha. rewrite <-Hc.
    apply concat_elem in He as (c & Hc1 & Hc2). apply concat_elem. exists c. split; [|done].
    eapply sublist_subseteq; [apply sublist_drop|exact Hc1].
Qed.

Lemma stored_id_mono n n' i :
  (forall e, in_table n e -> in_table n' e) -> stored_id n i -> stored_id n' i.
Proof. intros H (e & He & <-). exists e. auto. Qed.

Lemma restart_ok fault fcount fins now n : node_ok n -> node_ok (restart fault fcount fins now n).
Proof.
  intros [HI Hq Hs Hf].
  assert (forall e, in_table n e -> in_table (restart fault fcount fins now n) e) as Hmono.
  { intros e (t & b & Hb & He). exists t, (restartTier b). simpl. by rewrite lookup_fmap, Hb. }
  split.
  - intros t b. simpl. rewrite lookup_fmap. intros (b0 & _ & ->)%fmap_Some.
    pose proof (newBatcher_Inv maxSize Hmax) as [[I1 I2 I3 I4 I5] I6]. split; [|done].
    split; simpl; try done; try lia; [by rewrite app_nil_r|]. unfold ledger. simpl. set_solver.
  - intros i. simpl. unfold Warm. destruct (LoadRecentSeen fault memCap (ndb n)); simpl; set_solver.
  - intros i Hi. eapply stored_id_mono; [exact Hmono|by apply Hs].
  - intros e He. apply Hmono. unfold restart, restartFeed, mirrored in He. simpl in He.
    rewrite !app_nil_r in He. apply elem_of_app in He as [He|He]; apply backfill_elem in He as [He|He];
      try (by apply all_rows_elem); apply Hf; set_solver.
Qed.

Lemma nstep_ok l n n' : node_ok n -> nstep l n = Some n' -> node_ok n'.
Proof.
  intros Hn Hs. pose proof Hn as [HI Hq Hse Hf]. destruct l; cbn [nstep] in Hs.
  - destruct (nts n !! t) as [b|] eqn:Eb; [|done]. destruct (step maxSize l b) as [b'|] eqn:Es; [|done].
    injection Hs as <-.
    destruct (tier_turn n t b l b' (mirrorChunks (newCalls b b') (nfw n)) (callbacks now (newCalls b b') (nd n)) (ndb n)
      HI Eb Es) as (H1 & H2 & H3). split; [exact H1| | |].
    + intros i [Hi|(e & -> & He)%list_elem_of_fmap]%callbacks_queue; [eauto using stored_id_mono|].
      exists e. auto.
    + intros i Hi. eauto using stored_id_mono.
    + intros e He. cbn [nfw] in He. rewrite mirrorChunks_concat in He. apply offerAll_elem in He as [He|He]; auto.
  - assert ((forall e, l ≠ FOffer e) /\ exists fw, fstep l (nfw n) = Some fw /\ n' = mkNode (nts n) fw (nd n) (ndb n))
      as (Hno & fw & Ef & ->) by (destruct l; [done|..]; (split; [done|]); case_match; naive_solver).
    split; try done. intros e He. eapply Hf, fstep_elem; done.
  - injection Hs as <-. split; try done. intros e He. apply Hf. unfold expireFeed, mirrored in *. simpl in *.
    rewrite !elem_of_app, list_elem_of_filter in *. tauto.
  - assert ((forall now evs, o ≠ OFlushed now evs) /\ n' = mkNode (nts n) (nfw n) (dop memCap o (nd n)) (ndb n))
      as (Hno & ->) by (destruct o; naive_solver).
    split; try done. intros i. cbn [nd]. rewrite dop_queue by done. apply Hq.
  - destruct (writeOne fault (nd n) (ndb n)) as [[d' db']|] eqn:E; [|done]. injection Hs as <-.
    destruct (writeOne_ids _ _ _ _ _ E) as (batch & Eq & Hids). rewrite Eq in Hq. simpl in Hq.
    setoid_rewrite map_app in Hq. split; try done; simpl; [set_solver|]. intros i [Hi|Hi]%Hids; [|by apply Hse].
    apply Hq, elem_of_app. by left.
  - destruct (drainOne expired fault (nd n) (ndb n)) as [[[err d'] db']|] eqn:E; [|done]. injection Hs as <-.
    destruct (drainOne_ids _ _ _ _ _ _ _ E) as (batch & Eq & Hids). rewrite Eq in Hq. simpl in Hq.
    setoid_rewrite map_app in Hq. split; try done; simpl; [set_solver|]. intros i [Hi|Hi]%Hids; [|by apply Hse].
    apply Hq, elem_of_app. by left.
  - injection Hs as <-. split; try done. intros i Hi%prune_ids. by apply Hse.
  - injection Hs as <-. by apply restart_ok.
Qed.

Lemma boot_tiers t b : nts boot !! t = Some b <-> t ∈ activeTiers /\ b = newBatcher.
Proof. apply activeTiers_map. Qed.

Lemma boot_ok : node_ok boot.
Proof.
  split; [|by intros x Hx; inversion Hx..].
  intros t b [_ ->]%boot_tiers. by apply newBatcher_Inv.
Qed.

Lemma nrun_ok ls n n' : node_ok n -> nrun ls n = Some n' -> node_ok n'.
Proof.
  revert n. induction ls as [|l ls IH]; intros n Hn Hr; simpl in Hr; [by simplify_eq|].
  destruct (nstep l n) as [n1|] eqn:Es; [|done]. eapply IH; [|done]. by eapply nstep_ok.
Qed.

Lemma reach_ok ls n : nrun ls boot = Some n -> node_ok n.
Proof. apply nrun_ok, boot_ok. Qed.
End node.

(** ** Property *)

(** C6: an event is never marked seen before it is stored. However the batchers of all
    tiers, the feed writer, the flush callbacks, the durable writer and its drain,
    pruning and crashes interleave, and whatever inserts and transactions fail: every
    id in [seen_events] is the id of a row in a tier table, so is every id waiting in
    the durable queue, and the feed mirror holds and will hold only rows of tier
    tables. After a crash the cache warmed from the database therefore holds only ids
    of stored events, so no event is skipped as a duplicate without being in the
    archive. *)
Theorem seen_implies_stored maxSize memCap ls n fault fcount fins now :
  (1 <= maxSize)%nat -> nrun maxSize memCap ls boot = Some n ->
  (forall i, i ∈ map seen_id (seen_events (ndb n)) -> exists evt, in_table n evt /\ ID evt = i) /\
  (forall i, i ∈ map ref_ID (concat (writeQ (nd n))) -> exists evt, in_table n evt /\ ID evt = i) /\
  (forall evt, evt ∈ feedTable (nfw n) ++ fbuf (nfw n) ++ fin (nfw n) -> in_table n evt) /\
  (forall key, seenKey key (nd (restart memCap fault fcount fins now n)) = true ->
     exists evt, in_table n evt /\ parseEventID (ID evt) = Some key).
Proof.
  intros Hmax Hn. destruct (reach_ok maxSize memCap Hmax ls n Hn) as [_ Hq Hs Hf].
  split_and!; [exact Hs|exact Hq| |].
  { intros evt He. apply Hf. unfold mirrored. set_solver. }
  intros key Hkey. simpl in Hkey. unfold Warm in Hkey.
  destruct (LoadRecentSeen fault memCap (ndb n)) as [ids|] eqn:El; [|done].
  unfold LoadRecentSeen in El. destruct fault; [done|]. injection El as <-.
  unfold seenKey, warm_ids in Hkey. cbn [snd cur prev set_gen NewDedup] in Hkey.
  apply orb_true_iff in Hkey as [Hkey|Hkey]; apply bool_decide_eq_true in Hkey; [|set_solver].
  apply elem_of_union in Hkey as [Hkey|Hkey]; [|set_solver].
  apply elem_of_list_to_set, list_elem_of_omap in Hkey as (i & Hi & Hp).
  apply subseteq_take in Hi. rewrite elem_of_reverse in Hi.
  destruct (Hs i Hi) as (evt & He & <-). eauto.
Qed.

Definition demo_stored : Event := mkEvent demo_id "bob" 5 1 [] "hi" "sig".

Lemma seen_implies_stored_witness :
  exists n, nrun 1 10 [NTier TierArchive 0 (LEnqueue demo_stored); NTier TierArchive 0 (LInput Sent);
      NDrain false TxOk] boot = Some n /\
    map seen_id (seen_events (ndb n)) = [demo_id] /\ exists evt, in_table n evt /\ ID evt = demo_id.
Proof.
  eexists. match goal with |- ?r = Some ?n /\ _ => assert (r = Some n) as Hrun by (vm_compute; reflexivity) end.
  split; [exact Hrun|]. split; [reflexivity|].
  destruct (seen_implies_stored 1 10 _ _ None None None 0 ltac:(lia) Hrun) as [H _]. apply H.
  vm_compute. apply list_elem_of_here.
Defined.
