(* ===== verification/Mirror.v ===== *)
(** * The feed mirrors the archive (batcher.go, feed.go, store.go)

    The chain from a tier's insert to a read of [events_feed]: the batchers offer the
    rows they have stored, the feed writer inserts them, [collectFeed] reads them. The
    books of the mirror over a run of the whole process, what the mirror contains when
    it has caught up, and the refinement theorem for the reads it serves. *)

From S2P Require Import Prelude Nostr Config Classifier Rows FilterSQL Collapse Query Schema.
From S2P Require Import Batcher Tombstone Feed TierWriter Store Reads Archive Control Dedup CrashSafety.

(** The rows every tier has acknowledged. *)
Definition all_acked (ts : gmap string Batcher) : list Event :=
  concat (map (fun tb => acked tb.2) (map_to_list ts)).

(** A row the table's TTL keeps up to time [T]. *)
Definition kept (T : Z) (e : Event) : Prop := T < uint32 (CreatedAt e) + feedRetention / Second.

(** The mirror holds every kept row it was given to insert. *)
Definition covers (T : Z) (fw : FW) : Prop := forall e, e ∈ flushedRows fw -> kept T e -> e ∈ feedTable fw.

(** A run during which the process stays up, inserts into the feed succeed, and the
    database's clock is at most [T]. *)
Definition mirrors (T : Z) (l : NLabel) : Prop :=
  match l with
  | NFeed (FRecv o) | NFeed (FTick o) => o = Sent
  | NFeed (FStop os) => forall k, os k = Sent
  | NExpire now _ => now <= T
  | NCrash _ _ _ _ => False
  | _ => True
  end.

(** Offers refused or reported so far. *)
Definition dropped (fw : FW) : nat := drops fw + reportedDrops fw.

(** ** Lemmas *)

Lemma all_acked_elem ts e : e ∈ all_acked ts <-> exists t b, ts !! t = Some b /\ e ∈ acked b.
Proof.
  unfold all_acked. rewrite concat_elem. split.
  - intros (l & ([t b] & -> & Hb)%list_elem_of_fmap & He). apply elem_of_map_to_list in Hb. eauto.
  - intros (t & b & Hb%elem_of_map_to_list & He). exists (acked b). split; [|done].
    apply list_elem_of_fmap. by exists (t, b).
Qed.

Lemma all_acked_insert ts t b b' new :
  ts !! t = Some b -> acked b' = acked b ++ new -> all_acked (<[t := b']> ts) ≡ₚ all_acked ts ++ new.
Proof.
  intros Hb Ha.
  pose proof (map_to_list_delete ts t b Hb) as H1.
  pose proof (map_to_list_delete (<[t := b']> ts) t b' (lookup_insert_eq _ _ _)) as H2.
  rewrite delete_insert_eq in H2. unfold all_acked. rewrite <-H1, <-H2. simpl. rewrite Ha.
  solve_Permutation.
Qed.

Lemma offerAll_books evs fw :
  exists refused, mirrored (offerAll evs fw) ++ refused ≡ₚ mirrored fw ++ evs /\
    dropped (offerAll evs fw) = (dropped fw + length refused)%nat /\
    feedTable (offerAll evs fw) = feedTable fw /\ flushedRows (offerAll evs fw) = flushedRows fw.
Proof.
  revert fw. induction evs as [|e evs IH]; intros fw; [exists []; simpl; rewrite Nat.add_0_r; by split_and!|].
  change (offerAll (e :: evs) fw) with (offerAll evs (offer e fw)).
  destruct (IH (offer e fw)) as (refused & H1 & H2 & H3 & H4). rewrite H2, H3, H4.
  unfold offer, dropped in *. case_decide.
  - exists refused. split_and!; [|done..]. rewrite H1. unfold mirrored. simpl. solve_Permutation.
  - exists (e :: refused). split_and!; [|simpl; lia|done..].
    rewrite <-Permutation_middle, H1. unfold mirrored. simpl. solve_Permutation.
Qed.

Lemma offerAll_ok evs fw :
  feed_ok (mirrored fw) (dropped fw) fw ->
  feed_ok (mirrored (offerAll evs fw)) (dropped (offerAll evs fw)) (offerAll evs fw).
Proof.
  revert fw. induction evs as [|e evs IH]; intros fw H; [done|].
  change (offerAll (e :: evs) fw) with (offerAll evs (offer e fw)). apply IH.
  pose proof (fstep_ok _ _ (FOffer e) fw (offer e fw) H eq_refl) as [A1 A2 A3 A4 A5]. by split.
Qed.

(** *** One turn of the feed writer *)

Lemma feedFlush_covers T fw : covers T fw -> covers T (feedFlush Sent fw).
Proof.
  unfold covers, feedFlush. intros H. destruct (fbuf fw) as [|e l]; [done|].
  intros x. cbn [flushedRows feedTable feedInsert insertedRows]. rewrite !elem_of_app. naive_solver.
Qed.

Lemma feedRecv_covers T e rest fw : covers T fw -> covers T (feedRecv Sent e rest fw).
Proof. intros H. unfold feedRecv. case_decide; [by apply feedFlush_covers|exact H]. Qed.

Lemma feedDrain_covers T fuel os k fw : (forall k, os k = Sent) -> covers T fw -> covers T (feedDrain fuel os k fw).
Proof.
  intros Hos. revert k fw. induction fuel as [|fuel IH]; intros k fw H; cbn [feedDrain]; [done|]. rewrite Hos.
  destruct (fin fw); [apply (feedFlush_covers T fw H)|]. by apply IH, feedRecv_covers.
Qed.

Lemma fstep_covers T l fw fw' : mirrors T (NFeed l) -> fstep l fw = Some fw' -> covers T fw -> covers T fw'.
Proof.
  intros Hm Hs H. destruct l as [e| |o|o|os]; cbn [fstep mirrors] in *.
  - simplify_eq. unfold offer. by case_decide.
  - by simplify_eq.
  - subst o. destruct (fdone fw), (fin fw); simplify_eq. by apply feedRecv_covers.
  - subst o. destruct (fdone fw); simplify_eq. by apply feedFlush_covers.
  - destruct (fdone fw), (fstop fw); simplify_eq. by apply feedDrain_covers.
Qed.

Lemma expireFeed_ok now keep fw :
  feed_ok (mirrored fw) (dropped fw) fw -> feed_ok (mirrored fw) (dropped fw) (expireFeed now keep fw).
Proof.
  intros [A1 A2 A3 A4 A5]. split; try done. simpl. intros x [_ Hx]%list_elem_of_filter. by apply A2.
Qed.

Section mirror.
Variables (maxSize memCap : nat) (T : Z).
Hypothesis Hmax : (1 <= maxSize)%nat.

(** The books since the state [n0]. *)
Record books (n0 n : Node) : Prop := {
  m_node : node_ok maxSize n;
  m_feed : feed_ok (mirrored (nfw n)) (dropped (nfw n)) (nfw n);
  m_rows : exists new refused,
    all_acked (nts n) ≡ₚ all_acked (nts n0) ++ new /\
    mirrored (nfw n) ++ refused ≡ₚ mirrored (nfw n0) ++ new /\
    dropped (nfw n) = (dropped (nfw n0) + length refused)%nat;
  m_covers : covers T (nfw n);
}.

(** What a batcher reports during a turn is what it acknowledges. *)
Lemma newCalls_acked l b b' :
  Inv maxSize b -> step maxSize l b = Some b' -> acked b' = acked b ++ concat (newCalls b b').
Proof.
  intros HI Hs. pose proof (step_ok maxSize Hmax _ _ _ HI Hs) as (HI' & _).
  destruct (step_extends maxSize l b b' Hs) as [_ [k Hk]].
  rewrite <-(inv_calls _ _ (proj1 HI)), <-(inv_calls _ _ (proj1 HI')). unfold newCalls.
  by rewrite Hk, drop_app_length, concat_app.
Qed.

Lemma books_tier n0 n t now l b b' :
  books n0 n -> nts n !! t = Some b -> step maxSize l b = Some b' ->
  books n0 (mkNode (<[t := b']> (nts n)) (mirrorChunks (newCalls b b') (nfw n))
              (callbacks memCap now (newCalls b b') (nd n)) (ndb n)).
Proof.
  intros [Hn Hf (new & refused & H1 & H2 & H3) Hc] Hb Hs.
  pose proof (newCalls_acked l b b' (n_inv _ _ Hn t b Hb) Hs) as Ha.
  destruct (offerAll_books (concat (newCalls b b')) (nfw n)) as (more & B1 & B2 & B3 & B4).
  split.
  - eapply (nstep_ok maxSize memCap Hmax (NTier t now l)); [exact Hn|]. cbn [nstep]. by rewrite Hb, Hs.
  - cbn [nfw]. rewrite mirrorChunks_concat. by apply offerAll_ok.
  - exists (new ++ concat (newCalls b b')), (refused ++ more). cbn [nts nfw]. rewrite mirrorChunks_concat.
    split_and!.
    + rewrite (all_acked_insert _ _ _ _ _ Hb Ha), H1. solve_Permutation.
    + rewrite (Permutation_app_comm refused), app_assoc, B1, <-app_assoc, (Permutation_app_comm _ refused),
        app_assoc, H2. solve_Permutation.
    + rewrite B2, H3, length_app. lia.
  - cbn [nfw]. rewrite mirrorChunks_concat. unfold covers. rewrite B3, B4. exact Hc.
Qed.

Lemma books_feed n0 n l fw :
  books n0 n -> mirrors T (NFeed l) -> (forall e, l ≠ FOffer e) -> fstep l (nfw n) = Some fw ->
  books n0 (mkNode (nts n) fw (nd n) (ndb n)).
Proof.
  intros [Hn Hf (new & refused & H1 & H2 & H3) Hc] Hm Hno Hs.
  pose proof (fstep_ok _ _ l (nfw n) fw Hf Hs) as Hok.
  assert (taken l (nfw n) = [] /\ Feed.refused l (nfw n) = 0%nat) as [Et Er] by (destruct l; naive_solver).
  rewrite Et, Er, app_nil_r, Nat.add_0_r in Hok. pose proof Hok as [E1 _ E2 _ _].
  split; cbn [nfw nts].
  - eapply (nstep_ok maxSize memCap Hmax (NFeed l)); [exact Hn|].
    destruct l; [by destruct (Hno evt)|..]; cbn [nstep]; by rewrite Hs.
  - unfold dropped in *. by rewrite E1, <-E2.
  - exists new, refused. unfold dropped in *. rewrite E1, <-E2. done.
  - by eapply fstep_covers.
Qed.

Lemma nstep_books n0 l n n' : books n0 n -> mirrors T l -> nstep maxSize memCap l n = Some n' -> books n0 n'.
Proof.
  intros Hb Hm Hs.
  assert (nts n' = nts n -> nfw n' = nfw n -> books n0 n') as Hsame.
  { destruct Hb as [Hn Hf Hr Hc]. intros Et Ef. split; rewrite ?Et, ?Ef; try done.
    by eapply nstep_ok. }
  destruct l; cbn [nstep] in Hs.
  - destruct (nts n !! t) as [b|] eqn:Eb; [|done]. destruct (step maxSize l b) as [b'|] eqn:Es; [|done].
    injection Hs as <-. by eapply books_tier.
  - assert ((forall e, l ≠ FOffer e) /\ exists fw, fstep l (nfw n) = Some fw /\ n' = mkNode (nts n) fw (nd n) (ndb n))
      as (Hno & fw & Ef & ->) by (destruct l; [done|..]; (split; [done|]); case_match; naive_solver).
    by eapply books_feed.
  - assert (Hs' := Hs). injection Hs as <-. destruct Hb as [Hn Hf Hr Hc].
    split; [by eapply (nstep_ok maxSize memCap Hmax (NExpire now keep))|exact (expireFeed_ok now keep (nfw n) Hf)|exact Hr|].
    intros e He Hk. cbn [nfw expireFeed feedTable flushedRows] in *. apply list_elem_of_filter.
    split; [left|by apply Hc]. simpl in Hm. unfold kept in Hk. lia.
  - destruct o; simplify_eq; by apply Hsame.
  - destruct (writeOne fault (nd n) (ndb n)) as [[d' db']|]; simplify_eq. by apply Hsame.
  - destruct (drainOne expired fault (nd n) (ndb n)) as [[[err d'] db']|]; simplify_eq. by apply Hsame.
  - simplify_eq. by apply Hsame.
  - done.
Qed.

Lemma nrun_books n0 ls n n' :
  books n0 n -> Forall (mirrors T) ls -> nrun maxSize memCap ls n = Some n' -> books n0 n'.
Proof.
  revert n. induction ls as [|l ls IH]; intros n Hb Hm Hr; simpl in Hr; [by simplify_eq|].
  apply Forall_cons in Hm as [Hl Hm]. destruct (nstep maxSize memCap l n) as [n1|] eqn:Es; [|done].
  eapply IH; [|done..]. by eapply nstep_books.
Qed.

(** *** Where the books start *)

(** The mirror is complete up to [T], counting what is on its way. *)
Definition complete (n : Node) : Prop := forall e, in_table n e -> kept T e -> e ∈ mirrored (nfw n).

Lemma books_boot : books boot boot /\ complete boot.
Proof.
  split.
  - split; [by apply boot_ok|apply newFeedWriter_ok|exists [], []; split_and!; [by rewrite app_nil_r..|done]|].
    intros e He. by inversion He.
  - intros e (t & b & [_ ->]%boot_tiers & He). by inversion He.
Qed.

(** A start that finds the feed empty copies the window from the tiers. *)
Lemma books_restart n fault now :
  node_ok maxSize n -> feedTable (nfw n) = [] -> now <= T ->
  let n0 := restart memCap fault None None now n in books n0 n0 /\ complete n0.
Proof.
  intros Hn He HT n0. pose proof feedBatchMax_pos.
  assert (nfw n0 = mkFW [] false false [] 0
    (filter (fun e => now - feedRetention / Second <= uint32 (CreatedAt e)) (all_rows (nts n)))
    (filter (fun e => now - feedRetention / Second <= uint32 (CreatedAt e)) (all_rows (nts n))) 0) as Ef.
  { unfold n0, restart, restartFeed, backfillFeed. cbn [nfw]. by rewrite He. }
  split.
  - split; [by apply restart_ok|rewrite Ef; split; simpl; try done; lia|
      exists [], []; rewrite !app_nil_r; split_and!; [done|done|symmetry; apply Nat.add_0_r]|rewrite Ef; by intros e].
  - intros e (t & b & Hb & Hin) Hk. rewrite Ef. unfold mirrored. simpl. rewrite app_nil_r.
    apply list_elem_of_filter. split; [unfold kept in Hk; lia|]. apply all_rows_elem.
    unfold n0, restart in Hb. cbn [nts] in Hb. rewrite lookup_fmap in Hb.
    apply fmap_Some in Hb as (b0 & Hb0 & ->). by exists t, b0.
Qed.

(** A mirror that has caught up holds the window. *)
Lemma caught_up n0 n e :
  complete n0 -> books n0 n -> node_ok maxSize n0 ->
  dropped (nfw n) = dropped (nfw n0) -> fbuf (nfw n) = [] -> fin (nfw n) = [] ->
  (forall t b, nts n !! t = Some b -> waiting b = []) ->
  in_table n e -> kept T e -> e ∈ feedTable (nfw n).
Proof.
  intros H0 [Hn Hf (new & refused & H1 & H2 & H3) Hc] Hn0 Hd Hfb Hfi Hw (t & b & Hb & He) Hk.
  apply Hc; [|done]. assert (refused = []) as -> by (destruct refused; [done|simpl in H3; lia]).
  rewrite app_nil_r in H2. unfold mirrored at 1 in H2. rewrite Hfb, Hfi, !app_nil_r in H2. rewrite H2.
  assert (e ∈ all_acked (nts n)) as Ha.
  { apply all_acked_elem. exists t, b. split; [done|]. pose proof (n_inv _ _ Hn t b Hb) as [HS _].
    apply (inv_table _ _ HS) in He. unfold ledger in He. by rewrite (Hw t b Hb), app_nil_r in He. }
  rewrite H1 in Ha. rewrite elem_of_app in *. destruct Ha as [Ha|Ha]; [left|by right]. apply H0; [|done].
  apply all_acked_elem in Ha as (t0 & b0 & Hb0 & He0). exists t0, b0. split; [done|].
  pose proof (n_inv _ _ Hn0 t0 b0 Hb0) as [HS _]. by apply (inv_acked _ _ HS).
Qed.
End mirror.

(** ** Reads from the mirror *)

(** A start that leaves nothing behind: the first boot, or one that finds the feed
    empty and fills it from the tiers before time [T]. *)
Definition fresh_start (maxSize memCap : nat) (T : Z) (n0 : Node) : Prop :=
  n0 = boot \/
  exists ls n fault now, nrun maxSize memCap ls boot = Some n /\ feedTable (nfw n) = [] /\ now <= T /\
    n0 = restart memCap fault None None now n.

(** Nothing dropped since the start, nothing on its way. *)
Record caughtUp (n0 n : Node) : Prop := {
  c_drops : dropped (nfw n) = dropped (nfw n0);
  c_buf : fbuf (nfw n) = [];
  c_in : fin (nfw n) = [];
  c_flushed : forall t b, nts n !! t = Some b -> waiting b = [];
}.

(** A client's query that the feed serves without a fault. *)
Record feedRead {E} (json : string -> string) (cls : gmap Z string) (env : QEnv E) (f : Filter) (fw : FW) : Prop := {
  r_client : q_internal env = false;
  r_admit : q_admit env = None;
  r_feed : q_hasFeed env = true;
  r_eligible : feedEligible (q_now env) f cls = true;
  r_faults : q_faultA env = None /\ q_faultB env = None;
  r_rows : q_feed env = map (rowFromEvent json) (feedTable fw);
}.

(** A row the TTL may take before the read is older than what an eligible filter asks for. *)
Lemma eligible_kept now f cls T e :
  feedEligible now f cls = true -> T * Second <= now -> matches f (asStored e) -> kept T e.
Proof.
  unfold feedEligible, kept. intros Hel HT Hm.
  destruct (negb _); [done|]. destruct (fSince f) as [since|] eqn:Es; [|done].
  destruct (Z.ltb_spec (since * Second) (now + (- feedRetention + 2 * Hour))) as [|Hge]; [done|].
  assert (since <= uint32 (CreatedAt e)) as Hs by (destruct Hm as (_ & _ & _ & H & _); by apply H).
  change (feedRetention / Second) with 604800.
  unfold feedRetention, Hour, Minute, Second in *. lia.
Qed.

Lemma eligible_hot now f cls : feedEligible now f cls = true -> hot_tags f.
Proof.
  unfold feedEligible, hot_tags. intros Hel kv Hkv. exfalso.
  destruct (fTags f) as [|t ts]; [by inversion Hkv|].
  rewrite (bool_decide_eq_false_2 (t :: ts = [])), andb_false_r in Hel by done. done.
Qed.

Section feed_rows.
Context {W E : Type} `{!TierWriter W E}.
Context (json : string -> string) (cls : gmap Z string) `{!GoSort ev_desc, !GoSort row_desc, !GoSort row_rev}.

(** The rows the two feed queries select stand for the events the filter wants, when the
    mirror holds stored events only and all those in the filter's window. *)
Lemma feed_rows_events hidden f kA kB (mirror : list Event) (s : Store W) r :
  tiers_ok s -> admissible cls s -> filter_fits32 f -> hot_tags f ->
  splitFeedKinds (fKinds f) cls = (kA, kB) ->
  (forall e, e ∈ mirror -> asStored e ∈ stored_events s) ->
  (forall e, e ∈ stored_events s -> matches f e -> exists e0, e0 ∈ mirror /\ e = asStored e0) ->
  r ∈ filter (feed_pred json hidden f (kA ++ kB)) (map (rowFromEvent json) mirror) <->
  exists e, e ∈ filter (wanted hidden f) (stored_events s) /\ r = rowFromEvent json e.
Proof.
  intros Hok Hadm Hf Ht Hs Hin Hall. setoid_rewrite list_elem_of_filter.
  assert (forall e, e ∈ stored_events s -> where_holds json hidden f (rowFromEvent json e) <-> wanted hidden f e) as Hw
    by (intros e He; apply where_is_nip01_matching; [by eapply stored_fits|done..]).
  split.
  - intros ((_ & Hwh) & (e & -> & He)%list_elem_of_fmap). exists (asStored e). rewrite row_asStored. split; [|done].
    split; [|auto]. apply Hw; [auto|]. by rewrite row_asStored.
  - intros (e & (Hwt & He) & ->). split; [split; [|by apply Hw]|].
    + simpl. destruct (stored_holds s e Hok He) as (e0 & Hh & ->). simpl.
      rewrite (uint32_id (uint32 _)), (scope_kind cls s e0) by auto with relay.
      assert (Kind e0 ∈ kA ++ kB) as Hk.
      { apply (splitFeedKinds_elem _ _ _ _ _ Hs). split.
        - pose proof Hh as (t & b & Hb & Het).
          pose proof (adm_routed cls s Hadm t b e0 Hb Het) as Hr. pose proof (adm_tiers cls s Hadm t b Hb) as Hact.
          unfold tierForEvent in Hr. rewrite Hr. intros ->. revert Hact. by apply (bool_decide_unpack _).
        - destruct (fKinds f) as [|k ks] eqn:Ek; [by eapply adm_scope|].
          destruct Hwt as [(_ & _ & [Hk|Hk] & _) _]; [by rewrite Ek in Hk|].
          simpl in Hk. by rewrite (scope_kind cls s e0), Ek in Hk by done. }
      apply list_elem_of_fmap. exists (Kind e0). split; [|done]. symmetry. apply int32_id.
      apply (adm_scope cls s Hadm) in Hh. unfold InScopeKinds in Hh. set_unfold in Hh. lia.
    + destruct (Hall e He (proj1 Hwt)) as (e0 & H0 & ->). rewrite row_asStored. by apply list_elem_of_fmap_2.
Qed.
End feed_rows.

Lemma fresh_start_books maxSize memCap T n0 :
  (1 <= maxSize)%nat -> fresh_start maxSize memCap T n0 -> books maxSize T n0 n0 /\ complete T n0.
Proof.
  intros Hmax [->|(ls & n & fault & now & Hr & He & HT & ->)]; [by apply books_boot|].
  apply books_restart; [done| |done|done]. by eapply reach_ok.
Qed.

(** ** Properties *)

(** C8: the mirror keeps its books across the whole process. From a fresh start, while
    the process stays up and inserts into the feed succeed: every row a tier
    acknowledges is offered once, and is inserted, buffered, queued or counted as
    dropped; the mirror never holds a row that is not in a tier table; and once it has
    caught up without drops it holds every row of the tier tables that the retention
    keeps, so the read path can rely on it. *)
Theorem mirror_complete maxSize memCap T n0 ls n :
  (1 <= maxSize)%nat -> fresh_start maxSize memCap T n0 -> Forall (mirrors T) ls ->
  nrun maxSize memCap ls n0 = Some n ->
  (exists new refused, all_acked (nts n) ≡ₚ all_acked (nts n0) ++ new /\
     flushedRows (nfw n) ++ fbuf (nfw n) ++ fin (nfw n) ++ refused ≡ₚ feedTable (nfw n0) ++ new /\
     (drops (nfw n) + reportedDrops (nfw n))%nat = length refused) /\
  (forall e, e ∈ feedTable (nfw n) -> in_table n e) /\
  (length (fin (nfw n)) <= feedQueueCap)%nat /\ (length (fbuf (nfw n)) < feedBatchMax)%nat /\
  (caughtUp n0 n -> forall e, kept T e -> e ∈ feedTable (nfw n) <-> in_table n e).
Proof.
  intros Hmax Hfresh Hls Hrun. destruct (fresh_start_books _ _ _ _ Hmax Hfresh) as [Hb0 Hc0].
  pose proof (nrun_books maxSize memCap T Hmax n0 ls n0 n Hb0 Hls Hrun) as Hb.
  pose proof Hb as [Hn [F1 F2 F3 F4 F5] (new & refused & H1 & H2 & H3) Hcov].
  assert (mirrored (nfw n0) = feedTable (nfw n0) /\ dropped (nfw n0) = 0%nat) as [Em Ed].
  { destruct Hfresh as [->|(? & ? & ? & ? & _ & _ & _ & ->)]; [done|]. unfold mirrored. simpl. by rewrite !app_nil_r. }
  assert (forall e, e ∈ feedTable (nfw n) -> in_table n e) as Hin
    by (intros e He; apply (n_feed _ _ Hn), elem_of_app; by left).
  split_and!; [|done..|].
  - exists new, refused. split_and!; [done| |unfold dropped in *; lia].
    rewrite <-Em, <-H2. unfold mirrored. by rewrite <-!app_assoc.
  - intros [C1 C2 C3 C4] e Hk. split; [by apply Hin|]. intros He.
    apply (caught_up maxSize T Hmax n0 n e); try done. by destruct Hb0.
Qed.

(** C2: reading from the feed refines the archive specification. From a fresh start (the
    first boot, or one that found the feed empty and filled it), while the process stays
    up and inserts into the feed succeed, once the mirror has caught up without drops and
    every tier is flushed, a client's query that the feed serves returns exactly the
    NIP-01 answer over everything stored, and so exactly what scanning the tiers would
    have returned, provided the margin of 50 suffices and the filter's numbers fit the
    32-bit bindings: the mirror, its retention, its duplicates and the two-step read are
    invisible. Events are taken as stored (32-bit timestamps), their kinds are in scope and
    ids identify them. After a crash it can fail, see [crash_leaves_feed_hole]. *)
Theorem feed_path_refines_nip01 maxSize memCap T n0 ls n (Hmax : (1 <= maxSize)%nat) json cls
    `{!GoSort ev_desc, !GoSort row_desc, !GoSort row_rev} (s : Store Batcher) (env : QEnv (list Label)) f kA kB :
  let _ := Batcher_TierWriter maxSize Hmax in
  let limit := Z.to_nat (clampLimit (fLimit f)) in
  fresh_start maxSize memCap T n0 -> Forall (mirrors T) ls -> nrun maxSize memCap ls n0 = Some n ->
  caughtUp n0 n -> tiers s = nts n -> admissible cls s ->
  filter_fits32 f -> feedRead json cls env f (nfw n) -> T * Second <= q_now env ->
  splitFeedKinds (fKinds f) cls = (kA, kB) -> feed_margin json (dict (tw s)) f kA limit (q_feed env) ->
  (QueryEvents json cls env f s).1 = Ok (nip01_answer (dict (tw s)) f (stored_events s) limit) /\
  forall fault, (forall t, fault t = None) ->
    collectTiers json fault (dict (tw s)) (store_tables json s) cls f limit = (QueryEvents json cls env f s).1.
Proof.
  intros TWI limit Hfresh Hls Hrun Hup Es Hadm Hf [R1 R2 R3 R4 [R5 R6] R7] HT Hk Hm.
  destruct (fresh_start_books _ _ _ _ Hmax Hfresh) as [Hb0 Hc0].
  pose proof (nrun_books maxSize memCap T Hmax n0 ls n0 n Hb0 Hls Hrun) as Hb.
  assert (tiers_ok s) as Hok by (intros t b Hbt; rewrite Es in Hbt; by apply (n_inv _ _ (m_node _ _ _ _ Hb) t)).
  pose proof (eligible_hot _ _ _ R4) as Hhot.
  assert (forall e, e ∈ stored_events s <-> exists e0, in_table n e0 /\ e = asStored e0) as Hst.
  { intros e. rewrite stored_elem. unfold in_table. rewrite Es. split; [naive_solver|].
    intros (e0 & (t & b & Hbt & He) & ->). exists t, b, e0. split_and!; [|done..]. eapply adm_tiers; [done|by rewrite Es]. }
  assert (forall e, e ∈ feedTable (nfw n) -> asStored e ∈ stored_events s) as Hin.
  { intros e He. apply Hst. exists e. split; [|done]. apply (n_feed _ _ (m_node _ _ _ _ Hb)), elem_of_app. by left. }
  assert ((QueryEvents json cls env f s).1 = Ok (nip01_answer (dict (tw s)) f (stored_events s) limit)) as Eq.
  { unfold QueryEvents. rewrite R1, R2. cbn [fst]. unfold collectEvents. rewrite R3, R4, R5, R6. cbn [andb]. fold limit.
    rewrite (collectFeed_answer json _ _ _ _ limit kA kB Hk); [| | |exact Hm].
    - f_equal. rewrite R7. apply (answer_events json).
      + apply stored_fits.
      + intros e1 e2. by apply (stored_ids cls).
      + intros r. eapply feed_rows_events; try done. intros e (e0 & He & ->)%Hst Hme. exists e0. split; [|done].
        destruct Hup as [C1 C2 C3 C4]. apply (caught_up maxSize T Hmax n0 n e0); try done; [by destruct Hb0|].
        by eapply eligible_kept.
    - intros k Hkf. destruct Hf as (Hks & _). specialize (Hks k Hkf). lia.
    - rewrite R7. intros r1 r2 (e1 & -> & H1)%list_elem_of_fmap (e2 & -> & H2)%list_elem_of_fmap Hid.
      simpl in Hid. rewrite <-(row_asStored _ e1), <-(row_asStored _ e2). f_equal. by apply (stored_ids cls s); auto. }
  split; [exact Eq|]. intros fault Hfault. rewrite Eq. by apply tiers_refine.
Qed.

(** A note that is stored and mirrored, and the store as a client then finds it. *)
Definition demo_mirrored : list NLabel :=
  [NTier TierArchive 0 (LEnqueue (demo_note "n1" 15)); NTier TierArchive 0 (LInput Sent);
   NFeed (FRecv Sent); NFeed (FTick Sent); NExpire 90 (fun _ => false)].
Definition demo_node : Node := default boot (nrun 1 10 demo_mirrored boot).
Definition demo_view : Store Batcher := mkStore (nts demo_node) newTombstoneWriter [].
Definition demo_recent : Filter := mkFilter [] [1] [] [] (Some 1) None 5.
Definition demo_feedRead : QEnv (list Label) :=
  mkQEnv false [] None (100 * Second) true (map (rowFromEvent demo_json) (feedTable (nfw demo_node))) None None
    (fun _ => None).

Lemma demo_node_tiers t b :
  nts demo_node !! t = Some b ->
  t ∈ activeTiers /\ waiting b = [] /\ Forall (fun e => e = demo_note "n1" 15 /\ tierForEvent e ∅ = t) (ledger b).
Proof.
  revert t b. change (map_Forall (fun t b => t ∈ activeTiers /\ waiting b = [] /\
    Forall (fun e => e = demo_note "n1" 15 /\ tierForEvent e ∅ = t) (ledger b)) (nts demo_node)).
  apply (bool_decide_unpack _). by vm_compute.
Qed.

Lemma demo_caughtUp : caughtUp boot demo_node.
Proof. split; [reflexivity..|]. intros t b Hb. by apply demo_node_tiers in Hb as (_ & H & _). Qed.

Lemma mirror_complete_witness : demo_note "n1" 15 ∈ feedTable (nfw demo_node).
Proof.
  destruct (mirror_complete 1 10 100 boot demo_mirrored demo_node) as (_ & _ & _ & _ & H).
  - lia.
  - by left.
  - repeat constructor; simpl; lia.
  - vm_compute. reflexivity.
  - apply (H demo_caughtUp); [by vm_compute|]. exists TierArchive. eexists.
    split; [vm_compute; reflexivity|]. apply list_elem_of_here.
Defined.

Lemma feed_path_refines_nip01_witness :
  (QueryEvents demo_json ∅ demo_feedRead demo_recent demo_view).1 =
    Ok (nip01_answer ∅ demo_recent (stored_events demo_view) 5).
Proof.
  assert (forall e, holds demo_view e -> e = demo_note "n1" 15) as Hh.
  { intros e (t & b & Hb & He). apply demo_node_tiers in Hb as (_ & _ & HF).
    by apply (proj1 (Forall_forall _ _) HF) in He as [-> _]. }
  refine (proj1 (feed_path_refines_nip01 1 10 100 boot demo_mirrored demo_node (le_n 1) demo_json ∅ demo_view
    demo_feedRead demo_recent [1] [] _ _ _ _ _ _ _ _ _ _ _)).
  - by left.
  - repeat constructor; simpl; lia.
  - vm_compute. reflexivity.
  - apply demo_caughtUp.
  - reflexivity.
  - split.
    + intros e ->%Hh. by vm_compute; apply list_elem_of_further, list_elem_of_here.
    + intros t b e Hb He. apply demo_node_tiers in Hb as (_ & _ & HF).
      by apply (proj1 (Forall_forall _ _) HF) in He as [_ ?].
    + intros e1 e2 ->%Hh ->%Hh _. reflexivity.
    + intros t b Hb. by apply demo_node_tiers in Hb as (? & _).
  - unfold filter_fits32. simpl. split_and!; [|intros ? [= <-]; lia|discriminate].
    intros k ->%list_elem_of_singleton. lia.
  - by split.
  - vm_compute. discriminate.
  - reflexivity.
  - intros x Hx. exfalso. rewrite drop_ge in Hx; [by inversion Hx|]. vm_compute. lia.
Defined.

(** A crash leaves a hole in the feed: rows that were stored in a tier but still waited
    for the feed's next insert are offered by nobody after the restart, and the backfill
    does not run because the feed is not empty. Although no insert failed and nothing was
    dropped, a recent-events query is then answered without a stored event that matches
    it, until the event leaves the window. *)
Theorem crash_leaves_feed_hole :
  exists ls n e, nrun 1 10 ls boot = Some n /\
    dropped (nfw n) = 0%nat /\ fbuf (nfw n) = [] /\ fin (nfw n) = [] /\
    (forall t b, nts n !! t = Some b -> waiting b = []) /\ in_table n e /\ kept 100 e /\ matches demo_recent e /\
    let env := mkQEnv false [] None (100 * Second) true (map (rowFromEvent demo_json) (feedTable (nfw n)))
                 None None (fun _ => None) in
    (QueryEvents demo_json ∅ env demo_recent (mkStore (nts n) newTombstoneWriter [])).1 = Ok [demo_note "n1" 15] /\
    e ≠ demo_note "n1" 15.
Proof.
  exists (demo_mirrored ++ [NTier TierArchive 0 (LEnqueue (demo_note "n2" 20)); NTier TierArchive 0 (LInput Sent);
    NCrash None None None 100]). eexists. exists (demo_note "n2" 20).
  split; [vm_compute; reflexivity|]. split_and!; [reflexivity..| | |by vm_compute| |split; [by vm_compute|done]].
  - match goal with |- forall t b, ?m !! t = Some b -> _ => change (map_Forall (fun _ b => waiting b = []) m) end.
    apply (bool_decide_unpack _). by vm_compute.
  - exists TierArchive. eexists. split; [vm_compute; reflexivity|]. simpl. set_solver.
  - unfold matches. simpl. split_and!; try done; try (by left); [right; set_solver|intros ? [= <-]; lia|set_solver].
Qed.
