(* ===== verification/Policy.v ===== *)
(** * Ingress and read policy (internal/policy/reject.go, ratelimit.go)

    The scope gate, the filter-breadth gate and the per-IP fixed-window rate
    limiter with its lazy garbage collection. Times are nanoseconds. *)

From Stdlib Require Import Ascii.
From S2P Require Import Prelude GoStrings GoNet Nostr Config Classifier.

(** A khatru reject hook's answer: [Some msg] rejects. *)
Definition Verdict : Type := option string.

Definition RejectOutOfScope (evt : Event) : Verdict :=
  if String.eqb (TierForKind (Kind evt)) TierDrop then Some "kind out of scope" else None.

Record RejectFilterBreadth := mkBreadth {
  b_MaxIDs : Z; b_MaxAuthors : Z; b_MaxKinds : Z; b_MaxTags : Z }.

Definition over {A} (max : Z) (l : list A) : bool := (0 <? max) && (max <? Z.of_nat (length l)).

Definition breadthReject (r : RejectFilterBreadth) (f : Filter) : Verdict :=
  if over (b_MaxIDs r) (fIDs f) then Some "too many ids"
  else if over (b_MaxAuthors r) (fAuthors f) then Some "too many authors"
  else if over (b_MaxKinds r) (fKinds f) then Some "too many kinds"
  else if (0 <? b_MaxTags r) &&
          (b_MaxTags r <? foldr (fun kv n => n + Z.of_nat (length (snd kv))) 0 (fTags f))
  then Some "too many tag values"
  else None.

(** ** Rate limiter *)

Record rlWindow := mkWindow { start : Z; count : Z }.
Record Limiter := mkLimiter { PerMinute : Z; counts : gmap string rlWindow; lastGC : option Z }.

Definition NewLimiter (perMinute : Z) : Limiter := mkLimiter perMinute ∅ None.

Definition expired (now : Z) (w : rlWindow) : bool := Minute <=? now - start w.

(** [Allow]; [lastGC] is [None] for the zero time. *)
Definition Allow (now : Z) (ip : string) (l : Limiter) : bool * Limiter :=
  if (PerMinute l <=? 0) || String.eqb ip "" then (true, l)
  else
    let w := match counts l !! ip with
             | Some w => if expired now w then mkWindow now 0 else w
             | None => mkWindow now 0
             end in
    let w1 := mkWindow (start w) (count w + 1) in
    let counts1 := <[ip := w1]> (counts l) in
    let allowed := count w1 <=? PerMinute l in
    let due := match lastGC l with None => true | Some t => Minute <=? now - t end in
    if due then
      (allowed, mkLimiter (PerMinute l) (filter (fun kv => expired now kv.2 = false) counts1) (Some now))
    else (allowed, mkLimiter (PerMinute l) counts1 (lastGC l)).

Definition limiterRejectEvent (now : Z) (ip : string) (l : Limiter) : Verdict * Limiter :=
  let '(ok, l') := Allow now ip l in
  (if ok then None else Some "rate-limited: too many events from this IP", l').
Definition limiterRejectFilter (now : Z) (ip : string) (l : Limiter) : Verdict * Limiter :=
  let '(ok, l') := Allow now ip l in
  (if ok then None else Some "rate-limited: too many reads from this IP", l').

(** What a request says about its sender: the header and the peer of the connection. *)
Record HTTPFrom := mkFrom { xForwardedFor : string; remoteAddr : string }.

Definition publicIP (ip : string) : bool :=
  match ParseIP ip with Some p => IsGlobalUnicast p && negb (IsPrivate p) | None => false end.

Fixpoint firstPublic (vs : list string) : option string :=
  match vs with
  | [] => None
  | v :: vs' => let ip := TrimSpace v in if publicIP ip then Some ip else firstPublic vs'
  end.

(** [ClientIP]: the first public address of X-Forwarded-For, else the peer. *)
Definition ClientIP (r : HTTPFrom) : string :=
  if String.eqb (xForwardedFor r) "" then SplitHost (remoteAddr r)
  else match firstPublic (splitOn ","%char (xForwardedFor r) "") with
       | Some ip => ip
       | None => SplitHost (remoteAddr r)
       end.

(** [HTTPWhen]: 429, or the wrapped handler runs. *)
Definition HTTPWhen (cond : bool) (now : Z) (r : HTTPFrom) (l : Limiter) : option Z * Limiter :=
  if cond then let '(ok, l') := Allow now (ClientIP r) l in (if ok then None else Some 429, l')
  else (None, l).

(** ** Requests over time *)

(** The decisions on a sequence of (time, ip) requests. *)
Fixpoint decisions (reqs : list (Z * string)) (l : Limiter) : list (string * bool) :=
  match reqs with
  | [] => []
  | (now, ip) :: reqs' => let '(ok, l') := Allow now ip l in (ip, ok) :: decisions reqs' l'
  end.

Definition granted (ip : string) (ds : list (string * bool)) : Z :=
  Z.of_nat (length (filter (fun d => d = (ip, true)) ds)).

Lemma granted_cons ip ip' ok ds :
  granted ip ((ip', ok) :: ds) = (if bool_decide ((ip', ok) = (ip, true)) then 1 else 0) + granted ip ds.
Proof.
  unfold granted. case_bool_decide; [rewrite filter_cons_True by done|rewrite filter_cons_False by done];
    cbn [length]; lia.
Qed.

Lemma Allow_PerMinute now ip l : PerMinute (Allow now ip l).2 = PerMinute l.
Proof. unfold Allow. repeat case_match; done. Qed.

(** The effect of a call on the caller's own window and on the others'. *)
Lemma Allow_own now ip l :
  0 < PerMinute l -> ip ≠ "" ->
  let w := match counts l !! ip with
           | Some w => if expired now w then mkWindow now 0 else w
           | None => mkWindow now 0
           end in
  (Allow now ip l).1 = (count w + 1 <=? PerMinute l) /\
  counts (Allow now ip l).2 !! ip = Some (mkWindow (start w) (count w + 1)).
Proof.
  intros Hp Hip w. unfold Allow.
  rewrite (proj2 (Z.leb_gt (PerMinute l) 0)) by lia.
  destruct (String.eqb_spec ip ""); [done|]. cbn [orb]. fold w.
  assert (expired now (mkWindow (start w) (count w + 1)) = false) as He.
  { unfold w, expired. destruct (counts l !! ip) as [w0|]; simpl; [|apply Z.leb_gt; unfold Minute, Second; lia].
    destruct (Minute <=? now - start w0) eqn:E; simpl; [apply Z.leb_gt; unfold Minute, Second; lia|done]. }
  destruct (match lastGC l with None => true | Some t => Minute <=? now - t end); simpl; (split; [done|]).
  - rewrite map_lookup_filter, lookup_insert_eq. simpl. rewrite He. done.
  - by rewrite lookup_insert_eq.
Qed.

Lemma Allow_other now ip ip' l :
  ip' ≠ ip ->
  counts (Allow now ip l).2 !! ip' = counts l !! ip' \/
  (counts (Allow now ip l).2 !! ip' = None /\ exists w, counts l !! ip' = Some w /\ expired now w = true).
Proof.
  intros Hne. unfold Allow. case_match; [by left|].
  destruct (match lastGC l with None => true | Some t => Minute <=? now - t end); simpl.
  - rewrite map_lookup_filter, lookup_insert_ne by done.
    destruct (counts l !! ip') as [w|] eqn:Ew; simpl; [|by left].
    destruct (expired now w) eqn:Ex; simpl.
    + right. split; [done|eauto].
    + left. done.
  - left. by rewrite lookup_insert_ne.
Qed.

(** Requests that fall in one interval shorter than a minute. *)
Definition within (t0 : Z) (reqs : list (Z * string)) : Prop :=
  Forall (fun r => t0 <= r.1 < t0 + Minute) reqs.

(** A window opened inside the interval is never renewed inside it. *)
Lemma budget_fresh ip t0 reqs l w :
  0 < PerMinute l -> ip ≠ "" -> within t0 reqs -> counts l !! ip = Some w -> t0 <= start w ->
  granted ip (decisions reqs l) <= Z.max 0 (PerMinute l - count w).
Proof.
  intros Hp Hip. revert l w Hp. induction reqs as [|[now ip'] reqs IH]; intros l w Hp Hw Hc Hs.
  { unfold granted. simpl. lia. }
  apply Forall_cons in Hw as [Ht Hw]. simpl in Ht. cbn [decisions].
  pose proof (Allow_PerMinute now ip' l) as EP.
  destruct (decide (ip' = ip)) as [->|Hne].
  - pose proof (Allow_own now ip l Hp Hip) as [E1 E2]. rewrite Hc in E1, E2.
    assert (expired now w = false) as He by (unfold expired; apply Z.leb_gt; lia).
    rewrite He in E1, E2. destruct (Allow now ip l) as [ok l']. simpl in *.
    specialize (IH l' _ ltac:(lia) Hw E2 Hs). rewrite EP in IH. simpl in IH.
    rewrite granted_cons. case_bool_decide as Hb; [|lia].
    injection Hb as ->. symmetry in E1. apply Z.leb_le in E1. lia.
  - pose proof (Allow_other now ip' ip l ltac:(done)) as [E|[_ (w' & Hw' & He)]].
    + destruct (Allow now ip' l) as [ok l']. simpl in *. rewrite granted_cons.
      rewrite bool_decide_eq_false_2 by naive_solver.
      specialize (IH l' w ltac:(lia) Hw ltac:(congruence) Hs). rewrite EP in IH. lia.
    + simplify_eq. unfold expired in He. apply Z.leb_le in He. lia.
Qed.

Lemma budget_any ip t0 reqs l :
  0 < PerMinute l -> ip ≠ "" -> within t0 reqs ->
  granted ip (decisions reqs l) <=
    match counts l !! ip with Some w => Z.max 0 (PerMinute l - count w) | None => 0 end + PerMinute l.
Proof.
  intros Hp Hip. revert l Hp. induction reqs as [|[now ip'] reqs IH]; intros l Hp Hw.
  { unfold granted. simpl. destruct (counts l !! ip); lia. }
  apply Forall_cons in Hw as [Ht Hw]. simpl in Ht. cbn [decisions].
  pose proof (Allow_PerMinute now ip' l) as EP.
  destruct (decide (ip' = ip)) as [->|Hne].
  - pose proof (Allow_own now ip l Hp Hip) as [E1 E2].
    destruct (Allow now ip l) as [ok l']. simpl in *. rewrite granted_cons.
    assert (counts l' !! ip = Some (mkWindow now 1) -> ok = (1 <=? PerMinute l) ->
      (if bool_decide ((ip, ok) = (ip, true)) then 1 else 0) + granted ip (decisions reqs l') <= PerMinute l)
      as Hreset.
    { intros Hc ->. pose proof (budget_fresh ip t0 reqs l' _ ltac:(lia) Hip Hw Hc ltac:(simpl; lia)) as Hb.
      rewrite EP in Hb. simpl in Hb. case_bool_decide; lia. }
    destruct (counts l !! ip) as [w|]; [destruct (expired now w)|].
    + simpl in E1, E2. specialize (Hreset E2 E1). lia.
    + specialize (IH l' ltac:(lia) Hw). rewrite E2, EP in IH. simpl in IH.
      case_bool_decide as Hb; [|lia]. injection Hb as ->. symmetry in E1. apply Z.leb_le in E1. lia.
    + simpl in E1, E2. specialize (Hreset E2 E1). lia.
  - pose proof (Allow_other now ip' ip l ltac:(done)) as HO.
    destruct (Allow now ip' l) as [ok l']. simpl in *. rewrite granted_cons.
    rewrite bool_decide_eq_false_2 by naive_solver.
    specialize (IH l' ltac:(lia) Hw). rewrite EP in IH.
    destruct HO as [E|[E (w' & Hw' & He)]]; rewrite E in IH; [lia|]. rewrite Hw'. lia.
Qed.

(** *** The limiter without garbage collection *)

Definition AllowRef (now : Z) (ip : string) (l : Limiter) : bool * Limiter :=
  if (PerMinute l <=? 0) || String.eqb ip "" then (true, l)
  else
    let w := match counts l !! ip with
             | Some w => if expired now w then mkWindow now 0 else w
             | None => mkWindow now 0
             end in
    (count w + 1 <=? PerMinute l,
     mkLimiter (PerMinute l) (<[ip := mkWindow (start w) (count w + 1)]> (counts l)) (lastGC l)).

Fixpoint decisionsRef (reqs : list (Z * string)) (l : Limiter) : list (string * bool) :=
  match reqs with
  | [] => []
  | (now, ip) :: reqs' => let '(ok, l') := AllowRef now ip l in (ip, ok) :: decisionsRef reqs' l'
  end.

(** The collected map may only lack windows that have already expired. *)
Definition gc_sim (now : Z) (l r : Limiter) : Prop :=
  PerMinute l = PerMinute r /\
  forall ip, counts l !! ip = counts r !! ip \/
    (counts l !! ip = None /\ exists w, counts r !! ip = Some w /\ expired now w = true).

Lemma expired_mono now now' w : now <= now' -> expired now w = true -> expired now' w = true.
Proof. unfold expired. rewrite !Z.leb_le. lia. Qed.

Lemma gc_sim_mono now now' l r : now <= now' -> gc_sim now l r -> gc_sim now' l r.
Proof.
  intros Hle [HP HC]. split; [done|]. intros ip. destruct (HC ip) as [?|(? & w & ? & ?)]; [by left|right].
  split; [done|]. exists w. eauto using expired_mono.
Qed.

Lemma Allow_sim now ip l r :
  gc_sim now l r ->
  (Allow now ip l).1 = (AllowRef now ip r).1 /\ gc_sim now (Allow now ip l).2 (AllowRef now ip r).2.
Proof.
  intros [HP HC]. unfold Allow, AllowRef. rewrite HP. case_match; [done|].
  assert (match counts l !! ip with Some w => if expired now w then mkWindow now 0 else w
          | None => mkWindow now 0 end =
          match counts r !! ip with Some w => if expired now w then mkWindow now 0 else w
          | None => mkWindow now 0 end) as Ew.
  { destruct (HC ip) as [->|(-> & w & -> & ->)]; done. }
  rewrite Ew. set (w1 := mkWindow _ (_ + 1)).
  assert (gc_sim now (mkLimiter (PerMinute r) (<[ip := w1]> (counts l)) (lastGC l))
                     (mkLimiter (PerMinute r) (<[ip := w1]> (counts r)) (lastGC r))) as Hsim.
  { split; [done|]. simpl. intros ip'. destruct (decide (ip' = ip)) as [->|Hne].
    - left. by rewrite !lookup_insert_eq.
    - rewrite !lookup_insert_ne by done. apply HC. }
  destruct (match lastGC l with None => true | Some t => Minute <=? now - t end); simpl; (split; [done|]); [|done].
  destruct Hsim as [_ Hsim]. split; [done|]. intros ip'. cbn [counts].
  rewrite map_lookup_filter. specialize (Hsim ip'). cbn [counts] in Hsim.
  destruct Hsim as [->|(-> & w & -> & He)]; [|right; split; [done|eauto]].
  destruct (<[ip:=w1]> (counts r) !! ip') as [w|]; simpl; [|by left].
  destruct (expired now w) eqn:Ex; simpl; [right; split; [done|eauto]|by left].
Qed.

Lemma scope_spec evt : RejectOutOfScope evt = None <-> Kind evt ∈ InScopeKinds.
Proof.
  unfold RejectOutOfScope, TierForKind. pose proof (classify_drop (Kind evt)) as Hd.
  destruct (String.eqb_spec (classify (Kind evt)) TierDrop) as [He|He]; [naive_solver|].
  split; [intros _|done]. destruct (decide (Kind evt ∈ InScopeKinds)); naive_solver.
Qed.

(** ** Properties *)

(** C28: the rate limiter limits. In any interval shorter than a minute, whatever the
    history, the other addresses' traffic and the garbage collection, one address is
    granted at most twice its per-minute allowance (once per window the interval can
    touch). *)
Theorem rate_limit_holds ip t0 reqs l :
  0 < PerMinute l -> ip ≠ "" -> (forall w, counts l !! ip = Some w -> 0 <= count w) ->
  Forall (fun r => t0 <= r.1 < t0 + Minute) reqs ->
  granted ip (decisions reqs l) <= 2 * PerMinute l.
Proof.
  intros Hp Hip Hc Hw. pose proof (budget_any ip t0 reqs l Hp Hip Hw) as H.
  destruct (counts l !! ip) as [w|]; [specialize (Hc w eq_refl)|]; lia.
Qed.

Lemma rate_limit_holds_witness :
  granted "1.2.3.4" (decisions [(0, "1.2.3.4"); (1, "9.9.9.9"); (2, "1.2.3.4"); (3, "1.2.3.4")] (NewLimiter 1))
    <= 2.
Proof.
  apply (rate_limit_holds "1.2.3.4" 0).
  - simpl. lia.
  - discriminate.
  - intros w Hw. simpl in Hw. rewrite lookup_empty in Hw. discriminate.
  - repeat constructor; unfold Minute, Second; simpl; lia.
Defined.

(** C29: garbage collection is invisible: with a clock that does not run backwards,
    the limiter with its lazy sweep takes exactly the decisions of one that never
    forgets a window. *)
Theorem rate_limit_gc_invisible perMinute reqs :
  StronglySorted Z.le (map fst reqs) ->
  decisions reqs (NewLimiter perMinute) = decisionsRef reqs (NewLimiter perMinute).
Proof.
  assert (forall l r now, gc_sim now l r -> StronglySorted Z.le (now :: map fst reqs) ->
    decisions reqs l = decisionsRef reqs r) as H.
  { induction reqs as [|[now ip] reqs IH]; intros l r t0 Hsim Hs; [done|]. cbn [decisions decisionsRef map fst] in *.
    apply StronglySorted_inv in Hs as [Hs Hle]. apply Forall_cons in Hle as [Hle _].
    destruct (Allow_sim now ip l r (gc_sim_mono _ _ _ _ Hle Hsim)) as [E1 E2].
    destruct (Allow now ip l) as [ok l'], (AllowRef now ip r) as [ok' r']. simpl in E1, E2. subst ok'.
    f_equal. by apply (IH l' r' now). }
  intros Hs. apply (H _ _ (match reqs with [] => 0 | (t, _) :: _ => t end)).
  - split; [done|]. by left.
  - destruct reqs as [|[t ip] reqs]; [repeat constructor|]. constructor; [done|].
    simpl in *. apply StronglySorted_inv in Hs as [_ Hle]. constructor; [lia|done].
Qed.

Lemma rate_limit_gc_invisible_witness :
  let reqs := [(0, "a"); (1, "b"); (2, "a"); (61 * Second, "b"); (130 * Second, "a")] in
  decisions reqs (NewLimiter 1) = decisionsRef reqs (NewLimiter 1).
Proof.
  intros reqs. apply rate_limit_gc_invisible.
  repeat constructor; unfold Second; simpl; lia.
Defined.

(** The scope gate and the breadth gate reject exactly what they announce: an
    event is let through iff its kind is one of the in-scope kinds, and a filter iff
    every positive limit covers the number of ids, authors, kinds and tag values. *)
Theorem gates_reject_exactly evt r f :
  (RejectOutOfScope evt = None <-> Kind evt ∈ InScopeKinds) /\
  (breadthReject r f = None <->
     (0 < b_MaxIDs r -> Z.of_nat (length (fIDs f)) <= b_MaxIDs r) /\
     (0 < b_MaxAuthors r -> Z.of_nat (length (fAuthors f)) <= b_MaxAuthors r) /\
     (0 < b_MaxKinds r -> Z.of_nat (length (fKinds f)) <= b_MaxKinds r) /\
     (0 < b_MaxTags r -> Z.of_nat (length (concat (map snd (fTags f)))) <= b_MaxTags r)).
Proof.
  split.
  - apply scope_spec.
  - assert (forall A m (l : list A), over m l = false <-> (0 < m -> Z.of_nat (length l) <= m)) as Ho.
    { intros A m l. unfold over. destruct (Z.ltb_spec 0 m), (Z.ltb_spec m (Z.of_nat (length l))); simpl;
        split; intros; try done; lia. }
    rewrite <-!Ho. unfold breadthReject.
    assert (foldr (fun (kv : string * list string) n => n + Z.of_nat (length kv.2)) 0 (fTags f) =
            Z.of_nat (length (concat (map snd (fTags f))))) as ->.
    { induction (fTags f) as [|kv l IH]; simpl; [done|]. rewrite IH, length_app. lia. }
    fold (over (b_MaxTags r) (concat (map snd (fTags f)))).
    destruct (over _ (fIDs f)), (over _ (fAuthors f)), (over _ (fKinds f)), (over _ (concat _)); naive_solver.
Qed.

(** *** The address a request is counted under *)

(** The replies of the middleware to a sequence of requests. *)
Fixpoint httpReplies (reqs : list (Z * HTTPFrom)) (l : Limiter) : list (option Z) :=
  match reqs with
  | [] => []
  | (now, r) :: reqs' => let '(code, l') := HTTPWhen true now r l in code :: httpReplies reqs' l'
  end.

Lemma firstPublic_spec vs ip :
  firstPublic vs = Some ip -> publicIP ip = true /\ exists v, v ∈ vs /\ ip = TrimSpace v.
Proof.
  induction vs as [|v vs IH]; simpl; [done|]. destruct (publicIP (TrimSpace v)) eqn:E.
  - intros [= <-]. split; [done|]. exists v. split; [apply list_elem_of_here|done].
  - intros (H & v' & Hv & ->)%IH. split; [done|]. exists v'. split; [by apply list_elem_of_further|done].
Qed.

(** A private, loopback or link-local hop is never what a request is counted under: the
    address is a public one that the header names, or the peer's. Without a header it is
    the peer's. *)
Theorem ClientIP_is_public_or_peer r :
  (ClientIP r = SplitHost (remoteAddr r) \/
   publicIP (ClientIP r) = true /\
   exists v, v ∈ splitOn ","%char (xForwardedFor r) "" /\ ClientIP r = TrimSpace v) /\
  (xForwardedFor r = "" -> ClientIP r = SplitHost (remoteAddr r)).
Proof.
  unfold ClientIP. split.
  - destruct (String.eqb_spec (xForwardedFor r) ""); [by left|].
    destruct (firstPublic _) as [ip|] eqn:E; [|by left]. right. by apply firstPublic_spec.
  - by intros ->.
Qed.

(** The limit is on the address the header claims, not on the peer. Requests that each
    name an address with no window yet are all let through, however many there are and
    whatever peer sends them: a client that invents a new X-Forwarded-For each time is
    not limited. *)
Theorem forged_header_evades_limit reqs l :
  1 <= PerMinute l -> NoDup (ClientIP ∘ snd <$> reqs) ->
  (forall r, r ∈ reqs -> counts l !! ClientIP r.2 = None) ->
  Forall (fun code => code = None) (httpReplies reqs l).
Proof.
  revert l. induction reqs as [|[now r] reqs IH]; intros l Hp Hnd Hnew; simpl; [constructor|].
  apply NoDup_cons in Hnd as [Hni Hnd]. pose proof (Hnew (now, r) (list_elem_of_here _ _)) as Hr. simpl in Hr.
  pose proof (Allow_PerMinute now (ClientIP r) l) as HP.
  assert ((Allow now (ClientIP r) l).1 = true) as Hok.
  { destruct (decide (ClientIP r = "")) as [->|Hne].
    - unfold Allow. by rewrite orb_true_r.
    - destruct (Allow_own now (ClientIP r) l ltac:(lia) Hne) as [-> _]. rewrite Hr. apply Z.leb_le. simpl. lia. }
  assert (forall r', r' ∈ reqs -> counts (Allow now (ClientIP r) l).2 !! ClientIP r'.2 = None) as Hn'.
  { intros r' Hr'. assert (ClientIP r'.2 ≠ ClientIP r) as Hne.
    { intros He. apply Hni. apply list_elem_of_fmap. exists r'. simpl. by rewrite He. }
    destruct (Allow_other now _ _ l Hne) as [->|[-> _]]; [|done]. apply Hnew. by apply list_elem_of_further. }
  destruct (Allow now (ClientIP r) l) as [ok l']. simpl in *. subst ok. constructor; [done|].
  apply IH; [lia|done|done].
Qed.

(** One peer, a budget of one request a minute, three requests in three nanoseconds; and
    the same three without the header. *)
Lemma forged_header_evades_limit_witness :
  let forged := [(0, mkFrom "8.8.8.1" "192.0.2.7:40001"); (1, mkFrom "8.8.8.2, 10.0.0.1" "192.0.2.7:40001");
                 (2, mkFrom "127.0.0.1,2001:db8::1" "192.0.2.7:40001")] in
  Forall (fun code => code = None) (httpReplies forged (NewLimiter 1)) /\
  httpReplies ((fun x => (x.1, mkFrom "" (remoteAddr x.2))) <$> forged) (NewLimiter 1) = [None; Some 429; Some 429].
Proof.
  intros forged. split; [|vm_compute; reflexivity]. apply forged_header_evades_limit.
  - simpl. lia.
  - apply (bool_decide_unpack _). vm_compute. exact I.
  - intros r _. apply lookup_empty.
Defined.
