(* ===== verification/Access.v ===== *)
(** * Access control (internal/policy/auth.go)

    NIP-42 authentication with a pubkey allow-list: the static and the dynamic
    part of the list, its in-memory union and the operations that keep it, the
    gate of publish and read hooks, NIP-98 authentication of HTTP requests, and
    the admin gate of the management RPC. *)

From S2P Require Import Prelude GoStrings Nostr Config Control.

Record Access := mkAccess {
  enabled : bool;
  admin : gset string;
  static : gset string;
  serviceHost : string;
  allowed : gset string;
}.

Definition toSet (xs : list string) : gset string :=
  list_to_set (filter (fun x => x ≠ "") xs).

Definition set_allowed_cache (s : gset string) (a : Access) : Access :=
  mkAccess (enabled a) (admin a) (static a) (serviceHost a) s.

Definition rebuild (dynamic : gset string) (a : Access) : Access :=
  set_allowed_cache (static a ∪ dynamic) a.

(** [hostOf] is the host name of [url.Parse(serviceURL)], [None] on a parse error. *)
Definition NewAccess (hostOf : string -> option string) (fault : option error) (enabled_ : bool)
    (allow admin_ : list string) (serviceURL : string) (db : DB) : result Access :=
  let host := match hostOf serviceURL with Some h => h | None => "" end in
  let a := mkAccess enabled_ (toSet admin_) (toSet allow) host ∅ in
  let? dyn := LoadAllowedSet fault db in Ok (rebuild dyn a).

Definition Refresh (fault : option error) (db : DB) (a : Access) : Access :=
  match LoadAllowedSet fault db with Ok dyn => rebuild dyn a | Err _ => a end.

Definition Enabled (a : Access) : bool := enabled a.
Definition IsAdmin (pk : string) (a : Access) : bool := bool_decide (pk ∈ admin a).
Definition Allowed (pk : string) (a : Access) : bool := bool_decide (pk ∈ allowed a).

(** [conn]: the context carries a websocket connection; [authed]: khatru.GetAuthed. *)
Definition gate (conn : bool) (authed : string) (a : Access) : option string :=
  if negb (enabled a) then None
  else if negb conn then None
  else if String.eqb authed "" then Some "auth-required: this relay requires authentication"
  else if negb (Allowed authed a) then Some "restricted: your public key is not on the allow-list"
  else None.

(** The gate as a hook on events and on filters. *)
Definition accessRejectEvent (conn : bool) (authed : string) (evt : Event) (a : Access) : option string :=
  gate conn authed a.
Definition accessRejectFilter (conn : bool) (authed : string) (f : Filter) (a : Access) : option string :=
  gate conn authed a.

Definition AdminGate (authed : string) (a : Access) : option string :=
  if negb (IsAdmin authed a) then Some "unauthorized: admin pubkey required" else None.

(** *** Mutations: database first, then the cache *)

(** The critical sections that update the cache. *)
Definition cacheAllow (pk : string) (a : Access) : Access := set_allowed_cache ({[pk]} ∪ allowed a) a.
Definition cacheRevoke (pk : string) (a : Access) : Access :=
  if decide (pk ∈ static a) then a else set_allowed_cache (allowed a ∖ {[pk]}) a.

Definition accessAllowPubkey (fault : option error) (now : Z) (pk note : string) (a : Access) (db : DB)
    : option error * Access * DB :=
  match AllowPubkey fault now pk note db with
  | (Some e, db') => (Some e, a, db')
  | (None, db') => (None, cacheAllow pk a, db')
  end.

Definition accessRevokePubkey (fault : option error) (pk : string) (a : Access) (db : DB)
    : option error * Access * DB :=
  match RevokePubkey fault pk db with
  | (Some e, db') => (Some e, a, db')
  | (None, db') => (None, cacheRevoke pk a, db')
  end.

(** [ListAllowedPubkeys]: (pubkey, reason) rows; [order] is one order of [range a.static]. *)
Definition ListAllowedPubkeys `{!GoSort ap_oldest} (fault : option error) (order : list string) (a : Access)
    (db : DB) : result (list (string * string)) :=
  let? rows := ListAllowed fault db in
  Ok (map (fun r => (ap_Pubkey r, ap_Note r)) rows ++ map (fun pk => (pk, "config")) order).

(** ** NIP-98 *)

Record Request := mkRequest { authHeader : string; urlPath : string; method : string }.

Definition KindHTTPAuth : Z := 27235.
Definition httpAuthWindow : Z := 60.

(** [strings.CutPrefix(h, "Nostr ")] *)
Definition cutNostr (h : string) : option string :=
  if String.prefix "Nostr " h then Some (String.substring 6 (String.length h - 6) h) else None.

Section nip98.
(** Library code: base64 and JSON decoding of an event, the tag
    value go-nostr finds for a key, [url.Parse] (path and host name), case-insensitive
    comparison, and the signature check. *)
Variable decode64 : string -> option string.
Variable unmarshal : string -> option Event.
Variable tagValue : Event -> string -> option string.
Variable parseURL : string -> option (string * string).
Variable EqualFold : string -> string -> bool.
Variable CheckSignature : Event -> bool.

Definition httpAuthPubkey (now : Z) (r : Request) (a : Access) : result string :=
  match cutNostr (authHeader r) with
  | None => Err (Opaque "missing 'Authorization: Nostr <base64 event>'")
  | Some b64 =>
  match decode64 (TrimSpace b64) with
  | None => Err (Opaque "invalid base64 auth event")
  | Some raw =>
  match unmarshal raw with
  | None => Err (Opaque "invalid auth event JSON")
  | Some evt =>
  if negb (Kind evt =? KindHTTPAuth) then Err (Opaque "auth event must be kind 27235") else
  match tagValue evt "u" with
  | None => Err (Opaque "auth event missing 'u' tag")
  | Some u =>
  match parseURL u with
  | None => Err (Opaque "'u' tag does not match request path")
  | Some (path, host) =>
  if negb (String.eqb path (urlPath r)) then Err (Opaque "'u' tag does not match request path") else
  if negb (String.eqb host "") && negb (String.eqb (serviceHost a) "") &&
     negb (EqualFold host (serviceHost a))
  then Err (Opaque "'u' tag host does not match this relay") else
  if match tagValue evt "method" with Some m => negb (EqualFold m (method r)) | None => false end
  then Err (Opaque "'method' tag does not match request method") else
  if (now + httpAuthWindow <? CreatedAt evt) || (CreatedAt evt <? now - httpAuthWindow)
  then Err (Opaque "auth event is stale or future-dated") else
  if negb (CheckSignature evt) then Err (Opaque "invalid auth event signature")
  else Ok (PubKey evt)
  end end end end end.

(** [HTTPAuth]: the status the middleware answers with, [None] when it serves. *)
Definition HTTPAuth (now : Z) (r : Request) (a : Access) : option Z :=
  if negb (enabled a) then None
  else match httpAuthPubkey now r a with
       | Err _ => Some 401
       | Ok pk => if negb (Allowed pk a) then Some 403 else None
       end.
End nip98.

(** ** The allow-list over time *)

(** In-process operations are serialised by the caller's point of view here; an
    external writer changes the table behind the cache's back; a refresh reads the
    table and replaces the cache in two separate steps. *)
Inductive AccessStep :=
  | AAllow (fault : option error) (now : Z) (pk note : string)
  | ARevoke (fault : option error) (pk : string)
  | ARefresh (fault : option error)
  | ARefreshLoad                     (* first half of a Refresh: the query *)
  | ARefreshStore.                   (* second half: replace the cache *)

Record AccessSys := mkAccessSys { acc : Access; adb : DB; loaded : option (gset string) }.

Definition access_step (x : AccessStep) (s : AccessSys) : AccessSys :=
  match x with
  | AAllow f now pk note =>
      let '(_, a, db) := accessAllowPubkey f now pk note (acc s) (adb s) in mkAccessSys a db (loaded s)
  | ARevoke f pk =>
      let '(_, a, db) := accessRevokePubkey f pk (acc s) (adb s) in mkAccessSys a db (loaded s)
  | ARefresh f => mkAccessSys (Refresh f (adb s) (acc s)) (adb s) (loaded s)
  | ARefreshLoad => mkAccessSys (acc s) (adb s) (Some (dom (allowed_pubkeys (adb s))))
  | ARefreshStore =>
      match loaded s with
      | Some dyn => mkAccessSys (rebuild dyn (acc s)) (adb s) None
      | None => s
      end
  end.

Definition access_run (xs : list AccessStep) (s : AccessSys) : AccessSys :=
  foldl (fun s x => access_step x s) s xs.

Definition coherent (s : AccessSys) : Prop :=
  allowed (acc s) = static (acc s) ∪ dom (allowed_pubkeys (adb s)).

Definition whole (x : AccessStep) : bool :=
  match x with ARefreshLoad | ARefreshStore => false | _ => true end.

Lemma access_step_static x s :
  static (acc (access_step x s)) = static (acc s) /\ enabled (acc (access_step x s)) = enabled (acc s).
Proof.
  destruct x; simpl; try done.
  - unfold accessAllowPubkey, AllowPubkey. by destruct fault.
  - unfold accessRevokePubkey, RevokePubkey, cacheRevoke. destruct fault; [done|]. simpl. by case_decide.
  - unfold Refresh, LoadAllowedSet. by destruct fault.
  - by destruct (loaded s).
Qed.

Lemma access_step_coherent x s : whole x = true -> coherent s -> coherent (access_step x s).
Proof.
  unfold coherent. intros Hx H. destruct x; try done; simpl.
  - unfold accessAllowPubkey, AllowPubkey. destruct fault; [done|]. simpl. rewrite H, dom_insert_L. set_solver.
  - unfold accessRevokePubkey, RevokePubkey, cacheRevoke. destruct fault; [done|]. simpl.
    rewrite dom_delete_L. case_decide; simpl; rewrite H; [|set_solver].
    apply set_eq. intros x. destruct (decide (x = pk)); set_solver.
  - unfold Refresh, LoadAllowedSet. destruct fault; [done|]. done.
Qed.

Lemma access_run_coherent xs s :
  Forall (fun x => whole x = true) xs -> coherent s ->
  coherent (access_run xs s) /\ static (acc (access_run xs s)) = static (acc s).
Proof.
  unfold access_run. revert s. induction xs as [|x xs IH]; intros s Hxs Hs; simpl; [done|].
  apply Forall_cons in Hxs as [Hx Hxs].
  destruct (IH (access_step x s) Hxs (access_step_coherent x s Hx Hs)) as [H1 H2].
  split; [done|]. by rewrite H2, (proj1 (access_step_static x s)).
Qed.

Lemma gate_spec conn authed a :
  enabled a = true ->
  gate conn authed a = None <-> conn = false \/ (authed ≠ "" /\ authed ∈ allowed a).
Proof.
  intros He. unfold gate, Allowed. rewrite He. cbn [negb]. destruct conn; cbn [negb]; [|naive_solver].
  destruct (String.eqb_spec authed ""); [naive_solver|]. case_bool_decide; simpl; naive_solver.
Qed.

(** *** The event in a request *)

Lemma substring_whole s : String.substring 0 (String.length s) s = s.
Proof. by induction s as [|c s IH]; simpl; [|f_equal]. Qed.

Lemma prefix_cut p h :
  String.prefix p h = true -> h = p +:+ String.substring (String.length p) (String.length h - String.length p) h.
Proof.
  revert h. induction p as [|a p IH]; intros h.
  - intros _. simpl. by rewrite Nat.sub_0_r, substring_whole.
  - destruct h as [|c h]; [done|]. cbn [String.prefix]. destruct (Ascii.ascii_dec a c) as [<-|]; [|done].
    intros H%IH. change (String a h = String a (p +:+ String.substring (String.length p) (String.length h - String.length p) h)).
    by rewrite <-H.
Qed.

Lemma cut_prefix p b :
  String.prefix p (p +:+ b) = true /\
  String.substring (String.length p) (String.length (p +:+ b) - String.length p) (p +:+ b) = b.
Proof.
  induction p as [|a p [IH1 IH2]].
  - simpl. split; [by destruct b|]. by rewrite Nat.sub_0_r, substring_whole.
  - change (String a p +:+ b) with (String a (p +:+ b)). cbn [String.prefix String.length String.substring Nat.sub].
    by destruct (Ascii.ascii_dec a a).
Qed.

Lemma cutNostr_spec h b64 : cutNostr h = Some b64 <-> h = "Nostr " +:+ b64.
Proof.
  unfold cutNostr. split.
  - destruct (String.prefix "Nostr " h) eqn:Hp; [|done]. intros [= <-]. exact (prefix_cut _ _ Hp).
  - intros ->. destruct (cut_prefix "Nostr " b64) as [-> H]. by f_equal.
Qed.

Section nip98_facts.
Variables (decode64 : string -> option string) (unmarshal : string -> option Event).
Variable tagValue : Event -> string -> option string.
Variable parseURL : string -> option (string * string).
Variable EqualFold : string -> string -> bool.
Variable CheckSignature : Event -> bool.

(** The request's own Authorization header holds the event. *)
Definition carries (r : Request) (evt : Event) : Prop :=
  exists b64 raw, authHeader r = "Nostr " +:+ b64 /\ decode64 (TrimSpace b64) = Some raw /\ unmarshal raw = Some evt.

(** The event names this path, host and method. *)
Definition addressed (path meth myHost : string) (evt : Event) : Prop :=
  exists u host, tagValue evt "u" = Some u /\ parseURL u = Some (path, host) /\
    (host = "" \/ myHost = "" \/ EqualFold host myHost = true) /\
    forall m, tagValue evt "method" = Some m -> EqualFold m meth = true.

Lemma carries_unique r e1 e2 : carries r e1 -> carries r e2 -> e1 = e2.
Proof.
  intros (b1 & r1 & H1 & H2 & H3) (b2 & r2 & G1 & G2 & G3).
  rewrite <-cutNostr_spec in H1, G1. congruence.
Qed.

Lemma host_ok host mine :
  negb (String.eqb host "") && negb (String.eqb mine "") && negb (EqualFold host mine) = false <->
  host = "" \/ mine = "" \/ EqualFold host mine = true.
Proof.
  destruct (String.eqb_spec host ""), (String.eqb_spec mine ""), (EqualFold host mine); simpl; naive_solver.
Qed.

Lemma httpAuthPubkey_spec now r a :
  let good evt := carries r evt /\ addressed (urlPath r) (method r) (serviceHost a) evt /\
    Kind evt = 27235 /\ now - 60 <= CreatedAt evt <= now + 60 /\ CheckSignature evt = true in
  match httpAuthPubkey decode64 unmarshal tagValue parseURL EqualFold CheckSignature now r a with
  | Ok pk => exists evt, good evt /\ PubKey evt = pk
  | Err _ => forall evt, ~ good evt
  end.
Proof.
  intros good. unfold httpAuthPubkey.
  destruct (cutNostr (authHeader r)) as [b64|] eqn:E1.
  2: { intros evt ((b & raw & H%cutNostr_spec & _) & _). congruence. }
  destruct (decode64 (TrimSpace b64)) as [raw|] eqn:E2.
  2: { intros evt ((b & raw & H%cutNostr_spec & H2 & _) & _). congruence. }
  destruct (unmarshal raw) as [evt|] eqn:E3.
  2: { intros evt ((b & raw' & H%cutNostr_spec & H2 & H3) & _). congruence. }
  assert (carries r evt) as Hc by (exists b64, raw; by rewrite <-cutNostr_spec).
  assert ((good evt -> False) -> forall e, ~ good e) as Hone.
  { intros Hno e He. apply Hno. by rewrite (carries_unique r evt e Hc (proj1 He)). }
  assert (forall u path host, tagValue evt "u" = Some u -> parseURL u = Some (path, host) ->
    addressed (urlPath r) (method r) (serviceHost a) evt -> path = urlPath r /\
    (host = "" \/ serviceHost a = "" \/ EqualFold host (serviceHost a) = true) /\
    forall m, tagValue evt "method" = Some m -> EqualFold m (method r) = true) as Hadr.
  { intros u path host Hu Hp (u' & host' & Hu' & Hp' & H). by simplify_eq. }
  destruct (Z.eqb_spec (Kind evt) KindHTTPAuth) as [Hk|Hk]; cbn [negb].
  2: { apply Hone. intros (_ & _ & H & _). by destruct Hk. }
  destruct (tagValue evt "u") as [u|] eqn:Hu.
  2: { apply Hone. intros (_ & (u & h & H & _) & _). congruence. }
  destruct (parseURL u) as [[path host]|] eqn:Hp.
  2: { apply Hone. intros (_ & (u' & h & H & H' & _) & _). congruence. }
  specialize (Hadr u path host eq_refl Hp).
  destruct (String.eqb_spec path (urlPath r)) as [->|Hne]; cbn [negb].
  2: { apply Hone. intros (_ & H%Hadr & _). by destruct H. }
  destruct (negb (String.eqb host "") && _ && _) eqn:Hh.
  { apply Hone. intros (_ & (_ & H%host_ok & _)%Hadr & _). congruence. }
  apply host_ok in Hh.
  destruct (match tagValue evt "method" with Some m => negb (EqualFold m (method r)) | None => false end) eqn:Hm.
  { apply Hone. intros (_ & (_ & _ & H)%Hadr & _). destruct (tagValue evt "method") as [m|]; [|done].
    by rewrite (H m eq_refl) in Hm. }
  destruct ((now + httpAuthWindow <? CreatedAt evt) || _) eqn:Ht.
  { apply Hone. intros (_ & _ & _ & H & _). unfold httpAuthWindow in Ht. apply orb_true_iff in Ht. rewrite !Z.ltb_lt in Ht. lia. }
  apply orb_false_iff in Ht. rewrite !Z.ltb_ge in Ht. unfold httpAuthWindow in Ht.
  destruct (CheckSignature evt) eqn:Hs; cbn [negb].
  2: { apply Hone. intros (_ & _ & _ & _ & H). congruence. }
  exists evt. split; [|done]. split_and!; try done; try lia. exists u, host. split_and!; try done.
  intros m Hm'. rewrite Hm' in Hm. by apply negb_false_iff in Hm.
Qed.
End nip98_facts.

(** ** Properties *)

(** The allow-list cache follows the database. Starting from [NewAccess], after
    any sequence of grants, revocations and refreshes, including failed ones, the
    in-memory list is exactly the static keys plus the keys in the table: a grant or
    a revocation takes effect at once, a failed statement changes neither side, and a
    static key can never be revoked. *)
Theorem allow_list_coherent hostOf en allow adm url db a xs :
  NewAccess hostOf None en allow adm url db = Ok a -> Forall (fun x => whole x = true) xs ->
  let s := access_run xs (mkAccessSys a db None) in
  allowed (acc s) = toSet allow ∪ dom (allowed_pubkeys (adb s)) /\
  (forall pk, pk ∈ toSet allow -> Allowed pk (acc s) = true).
Proof.
  intros Hnew Hxs s.
  assert (coherent (mkAccessSys a db None) /\ static a = toSet allow) as [H0 Hst].
  { unfold NewAccess, LoadAllowedSet in Hnew. injection Hnew as <-. done. }
  destruct (access_run_coherent xs (mkAccessSys a db None) Hxs H0) as [Hc Hs].
  fold s in Hc, Hs. cbn [acc] in Hs. rewrite Hst in Hs.
  unfold coherent in Hc. rewrite Hs in Hc. split; [done|].
  intros pk Hpk. unfold Allowed. apply bool_decide_eq_true. rewrite Hc. set_solver.
Qed.

Lemma allow_list_coherent_witness :
  exists a, NewAccess (fun _ => None) None true ["op"; ""] [] "" emptyDB = Ok a /\
    allowed (acc (access_run [AAllow None 1 "bob" ""; ARevoke None "op"; ARevoke (Some (Opaque "busy")) "bob"]
      (mkAccessSys a emptyDB None))) = toSet ["op"; ""] ∪
    dom (allowed_pubkeys (adb (access_run [AAllow None 1 "bob" ""; ARevoke None "op";
      ARevoke (Some (Opaque "busy")) "bob"] (mkAccessSys a emptyDB None)))).
Proof.
  eexists. split; [reflexivity|].
  apply (allow_list_coherent (fun _ => None) true ["op"; ""] [] "" emptyDB).
  - reflexivity.
  - repeat constructor.
Defined.

(** A refresh that runs beside a revocation brings the revoked key back: the
    table is read before the revocation and the stale result replaces the cache
    after it, so the key passes the gate again until the next refresh. *)
Theorem refresh_can_resurrect_revoked_key :
  let db := mkDB [] {[ "bob" := ("", 0) ]} ∅ ∅ in
  let a := mkAccess true ∅ ∅ "" {[ "bob" ]} in
  let s := access_run [ARefreshLoad; ARevoke None "bob"; ARefreshStore] (mkAccessSys a db None) in
  dom (allowed_pubkeys (adb s)) = ∅ /\ gate true "bob" (acc s) = None.
Proof. split; by vm_compute. Qed.

(** C26: who gets through. With access control on, the websocket gate admits a client
    exactly when it has authenticated with an allow-listed key (calls the relay makes
    itself carry no connection and pass). The HTTP gate serves a request exactly when the
    Authorization header of that request is "Nostr " and the base64 of a kind-27235 event
    by an allow-listed key whose u tag names the request's path (and this relay's host,
    where both are known), whose method tag, if any, names the request's method, which
    is dated within sixty seconds of now and whose signature is good; such an event by
    another key is answered with 403, anything else with 401. *)
Theorem gates_admit_only_allowed decode64 unmarshal tagValue parseURL EqualFold CheckSignature
    now r a conn authed :
  enabled a = true ->
  let good evt := carries decode64 unmarshal r evt /\
    addressed tagValue parseURL EqualFold (urlPath r) (method r) (serviceHost a) evt /\
    Kind evt = 27235 /\ now - 60 <= CreatedAt evt <= now + 60 /\ CheckSignature evt = true in
  let reply := HTTPAuth decode64 unmarshal tagValue parseURL EqualFold CheckSignature now r a in
  (gate conn authed a = None <-> conn = false \/ (authed ≠ "" /\ authed ∈ allowed a)) /\
  (reply = None <-> exists evt, good evt /\ PubKey evt ∈ allowed a) /\
  (reply = Some 403 <-> exists evt, good evt /\ PubKey evt ∉ allowed a) /\
  (reply = Some 401 <-> forall evt, ~ good evt).
Proof.
  intros He good reply. split; [by apply gate_spec|].
  pose proof (httpAuthPubkey_spec decode64 unmarshal tagValue parseURL EqualFold CheckSignature now r a) as Hs.
  assert (forall e1 e2, good e1 -> good e2 -> e1 = e2) as Huniq
    by (intros e1 e2 [H1 _] [H2 _]; by eapply carries_unique).
  unfold reply, HTTPAuth, Allowed. rewrite He. cbn [negb].
  destruct (httpAuthPubkey _ _ _ _ _ _ now r a) as [pk|e].
  - destruct Hs as (evt & Hg & <-). change (good evt) in Hg. case_bool_decide as Hal; cbn [negb]; split_and!; split; try done; eauto.
    + intros (e' & Hg' & Hn). by rewrite (Huniq _ _ Hg' Hg) in Hn.
    + intros Hno. by destruct (Hno evt).
    + intros (e' & Hg' & Hn). by rewrite (Huniq _ _ Hg' Hg) in Hn.
    + intros Hno. by destruct (Hno evt).
  - split_and!; split; try done; intros (e' & Hg' & _); by destruct (Hs e').
Qed.

(** A request that carries such an event: decoding is the identity, the u tag is the path
    itself. *)
Definition demo_auth : Event := mkEvent "i" "bob" 100 27235 [["u"; "/v1/events"]; ["method"; "GET"]] "" "s".
Definition demo_tag (e : Event) (k : string) : option string :=
  match list_find (fun t => t !! 0%nat = Some k) (Tags e) with Some (_, t) => t !! 1%nat | None => None end.

Lemma gates_admit_only_allowed_witness :
  let serve r a := HTTPAuth (fun b => Some b) (fun raw => if String.eqb raw "evt" then Some demo_auth else None)
    demo_tag (fun u => Some (u, "")) String.eqb (fun _ => true) 120 r a in
  let a := mkAccess true ∅ ∅ "" {[ "bob" ]} in
  gate true "bob" a = None /\ gate true "eve" a ≠ None /\
  serve (mkRequest "Nostr evt" "/v1/events" "GET") a = None /\
  serve (mkRequest "Nostr evt" "/v1/events" "POST") a = Some 401 /\
  serve (mkRequest "Nostr evt" "/v1/events" "GET") (mkAccess true ∅ ∅ "" {[ "eve" ]}) = Some 403.
Proof.
  intros serve a.
  pose proof (fun r a authed He => gates_admit_only_allowed (fun b => Some b)
    (fun raw => if String.eqb raw "evt" then Some demo_auth else None) demo_tag (fun u => Some (u, "")) String.eqb
    (fun _ => true) 120 r a true authed He) as H.
  assert (carries (fun b => Some b) (fun raw => if String.eqb raw "evt" then Some demo_auth else None)
    (mkRequest "Nostr evt" "/v1/events" "GET") demo_auth) as Hc.
  { exists "evt", "evt". split_and!; vm_compute; reflexivity. }
  assert (addressed demo_tag (fun u => Some (u, "")) String.eqb "/v1/events" "GET" "" demo_auth) as Hd.
  { exists "/v1/events", "". split; [vm_compute; reflexivity|]. split; [vm_compute; reflexivity|].
    split; [by left|]. intros m Hm. vm_compute in Hm. injection Hm as <-. vm_compute. reflexivity. }
  split_and!.
  - apply (H (mkRequest "" "" "") a "bob" eq_refl). right. split; [discriminate|]. unfold a. set_solver.
  - rewrite (proj1 (H (mkRequest "" "" "") a "eve" eq_refl)). unfold a. intros [Hx|[_ Hin]]; [discriminate|set_solver].
  - apply (H (mkRequest "Nostr evt" "/v1/events" "GET") a "" eq_refl). exists demo_auth.
    split; [|unfold a; simpl; set_solver]. split_and!; [exact Hc|exact Hd|reflexivity|simpl; lia..|reflexivity].
  - vm_compute. reflexivity.
  - apply (H (mkRequest "Nostr evt" "/v1/events" "GET") (mkAccess true ∅ ∅ "" {[ "eve" ]}) "" eq_refl). exists demo_auth.
    split; [|simpl; set_solver]. split_and!; [exact Hc|exact Hd|reflexivity|simpl; lia..|reflexivity].
Defined.
