(* ===== verification/Scheduler.v ===== *)
(** * Scheduler (internal/scheduler/scheduler.go)

    Future-dated events are parked in [scheduled_events] and re-fed to the relay
    once due. [marshal] and [unmarshal] are encoding/json on events; [publish] is
    the relay's AddEvent on the control database and a state [R], an interface of its
    own (Publish.v has the relay as its instance). *)

From S2P Require Import Prelude Nostr Config Control.

(** [ShouldDefer]: [now] in seconds, [buffer] in nanoseconds. *)
Definition ShouldDefer (now buffer : Z) (evt : Event) : bool := now + buffer / Second <? CreatedAt evt.

Definition Defer (marshal : Event -> result string) (fault : option error) (evt : Event) (db : DB) : option error * DB :=
  match marshal evt with
  | Err e => (Some e, db)
  | Ok b => SaveScheduled fault (ID evt) b (CreatedAt evt) db
  end.

(** [PublishFunc], and [time.Now().Unix()] as its state has it. All it may do to the
    control database is to park the event again. *)
Class Publisher (marshal : Event -> result string) (R : Type) := {
  clock : R -> Z;
  publish : Event -> DB -> R -> option error * DB * R;
  publish_parks : forall e db r, (publish e db r).1.2 = db \/
    (publish e db r).1.1 = None /\ (publish e db r).1.2 = (Defer marshal None e db).2;
}.

(** The rows a pass at [now] could publish. *)
Definition due_rows (now : Z) (db : DB) : list (string * ScheduledRow) :=
  filter (fun kv => publish_at kv.2 <= now) (map_to_list (scheduled_events db)).

Section scheduler.
Context {marshal : Event -> result string} (unmarshal : string -> option Event).
Context {R : Type} `{!Publisher marshal R}.

(** The loop of [publishDue]; [delFault k] is the outcome of the [k]-th delete. *)
Fixpoint publishLoop (delFault : nat -> option error) (k : nat) (due : list ScheduledEvent) (db : DB) (r : R)
    : DB * R :=
  match due with
  | [] => (db, r)
  | p :: due' =>
      match unmarshal (se_EventJSON p) with
      | None => publishLoop delFault (S k) due' (DeleteScheduled (delFault k) (se_ID p) db).2 r
      | Some evt =>
          match publish evt db r with
          | (Some _, db', r') => publishLoop delFault k due' db' r'
          | (None, db', r') => publishLoop delFault (S k) due' (DeleteScheduled (delFault k) (se_ID p) db').2 r'
          end
      end
  end.

Definition dueLimit : nat := 100.

Definition publishDue `{!GoSort due_first} (loadFault : option error) (delFault : nat -> option error)
    (db : DB) (r : R) : DB * R :=
  match LoadDueScheduled loadFault (clock r) dueLimit db with
  | Err _ => (db, r)
  | Ok due => publishLoop delFault 0 due db r
  end.

(** The interval of the polling loop: [max(buffer/4, 1s)]. *)
Definition pollEvery (buffer : Z) : Z := if buffer / 4 <? Second then Second else buffer / 4.

(** *** [Run], one call at a time

    A pass in progress: the time it loaded at, the rows still to visit, and the id it
    is about to delete. The hooks of the relay park events meanwhile, the relay moves
    on, and the process can die between any two calls. *)
Record Pass := mkPass { p_now : Z; p_todo : list ScheduledEvent; p_del : option string }.

Record SchedSys := mkSchedSys {
  sdb : DB;
  srel : R;
  spass : option Pass;              (* None: waiting for the ticker *)
  slog : list (Z * Event);          (* ghost: events the relay accepted, with the pass's time *)
}.

Inductive SchedStep :=
  | SLoad (fault : option error)               (* case <-tick.C: LoadDueScheduled *)
  | SPublish                                   (* decode the next row and publish it *)
  | SDelete (fault : option error)             (* DeleteScheduled *)
  | SDefer (fault : option error) (evt : Event)
  | SRelay (f : R -> R)                        (* what the relay does as time passes *)
  | SCrash.

Definition sched_step `{!GoSort due_first} (x : SchedStep) (st : SchedSys)
    : option SchedSys :=
  match x, spass st with
  | SLoad fault, None =>
      Some (mkSchedSys (sdb st) (srel st)
              (match LoadDueScheduled fault (clock (srel st)) dueLimit (sdb st) with
               | Ok due => Some (mkPass (clock (srel st)) due None)
               | Err _ => None
               end) (slog st))
  | SPublish, Some (mkPass now [] None) => Some (mkSchedSys (sdb st) (srel st) None (slog st))
  | SPublish, Some (mkPass now (p :: todo) None) =>
      match unmarshal (se_EventJSON p) with
      | None => Some (mkSchedSys (sdb st) (srel st) (Some (mkPass now todo (Some (se_ID p)))) (slog st))
      | Some evt =>
          match publish evt (sdb st) (srel st) with
          | (Some _, db', r') => Some (mkSchedSys db' r' (Some (mkPass now todo None)) (slog st))
          | (None, db', r') =>
              Some (mkSchedSys db' r' (Some (mkPass now todo (Some (se_ID p)))) (slog st ++ [(now, evt)]))
          end
      end
  | SDelete fault, Some (mkPass now todo (Some i)) =>
      Some (mkSchedSys (DeleteScheduled fault i (sdb st)).2 (srel st) (Some (mkPass now todo None)) (slog st))
  | SDefer fault evt, _ =>
      Some (mkSchedSys (Defer marshal fault evt (sdb st)).2 (srel st) (spass st) (slog st))
  | SRelay f, _ => Some (mkSchedSys (sdb st) (f (srel st)) (spass st) (slog st))
  | SCrash, _ => Some (mkSchedSys (sdb st) (srel st) None (slog st))
  | _, _ => None
  end.

Fixpoint sched_run `{!GoSort due_first} (xs : list SchedStep) (st : SchedSys)
    : option SchedSys :=
  match xs with
  | [] => Some st
  | x :: xs' => match sched_step x st with Some st' => sched_run xs' st' | None => None end
  end.

(** ** Lemmas *)

Lemma due_elem `{!GoSort due_first} now limit db due p :
  LoadDueScheduled None now limit db = Ok due -> p ∈ due ->
  exists row, scheduled_events db !! se_ID p = Some row /\ event_json row = se_EventJSON p /\
    publish_at row <= now.
Proof.
  unfold LoadDueScheduled. intros [= <-] ([i row] & -> & Hp)%list_elem_of_fmap.
  apply subseteq_take in Hp. rewrite go_sort_elem_of in Hp.
  apply list_elem_of_filter in Hp as [Hle Hp]. apply elem_of_map_to_list in Hp. exists row. done.
Qed.

(** Left alone, the calls of a pass are [publishLoop]. *)
Lemma pass_refines `{!GoSort due_first} delFault k now due db r log :
  exists xs st', sched_run xs (mkSchedSys db r (Some (mkPass now due None)) log) = Some st' /\
    (sdb st', srel st') = publishLoop delFault k due db r /\ spass st' = None.
Proof.
  revert k db r log. induction due as [|p due IH]; intros k db r log; cbn [publishLoop].
  { exists [SPublish]. eexists. by split_and!. }
  destruct (unmarshal (se_EventJSON p)) as [evt|] eqn:Eu; [destruct (publish evt db r) as [[[e|] db'] r'] eqn:Ep|].
  - destruct (IH k db' r' log) as (xs & st' & H). exists (SPublish :: xs), st'. simpl. by rewrite Eu, Ep.
  - destruct (IH (S k) (DeleteScheduled (delFault k) (se_ID p) db').2 r' (log ++ [(now, evt)])) as (xs & st' & H).
    exists (SPublish :: SDelete (delFault k) :: xs), st'. simpl. by rewrite Eu, Ep.
  - destruct (IH (S k) (DeleteScheduled (delFault k) (se_ID p) db).2 r log) as (xs & st' & H).
    exists (SPublish :: SDelete (delFault k) :: xs), st'. simpl. by rewrite Eu.
Qed.

(** A due row is on the list of a pass with room for every due row. *)
Lemma due_listed `{!GoSort due_first} now db row i due :
  scheduled_events db !! i = Some row -> publish_at row <= now -> LoadDueScheduled None now dueLimit db = Ok due ->
  (length (due_rows now db) <= dueLimit)%nat -> mkScheduledEvent i (event_json row) ∈ due.
Proof.
  intros Hrow Hle [= <-] Hroom. apply list_elem_of_fmap. exists (i, row).
  split; [done|]. rewrite take_ge by (by autorewrite with relay_rw). rewrite go_sort_elem_of.
  apply list_elem_of_filter. split; [done|]. by apply elem_of_map_to_list.
Qed.
End scheduler.

Lemma Defer_row marshal fault evt db db1 :
  Defer marshal fault evt db = (None, db1) ->
  exists b, marshal evt = Ok b /\ scheduled_events db1 !! ID evt = Some (mkScheduledRow b (CreatedAt evt)).
Proof.
  unfold Defer, SaveScheduled. destruct (marshal evt) as [b|]; [|done]. destruct fault; [done|].
  intros [= <-]. exists b. split; [done|]. simpl. by rewrite lookup_insert_eq.
Qed.

(** Every row holds an event with the row's id. *)
Definition rows_decode (unmarshal : string -> option Event) (db : DB) : Prop :=
  forall i row e, scheduled_events db !! i = Some row -> unmarshal (event_json row) = Some e -> ID e = i.

(** What holds of an event that was parked as [b]: it has been published when due, or
    its row is there and no pass is about to delete it. *)
Section kept.
Context {marshal : Event -> result string} (unmarshal : string -> option Event).
Context {R : Type} `{!Publisher marshal R} `{!GoSort due_first}.
Variables (evt : Event) (b : string).
Hypothesis Hrt : forall e b, marshal e = Ok b -> unmarshal b = Some e.
Hypothesis Hb : marshal evt = Ok b.
Implicit Types st : SchedSys (R := R).

Lemma Defer_decodes fault e db : rows_decode unmarshal db -> rows_decode unmarshal (Defer marshal fault e db).2.
Proof.
  intros Hd. unfold Defer, SaveScheduled. destruct (marshal e) as [b'|] eqn:Ee; [|done]. destruct fault; [done|].
  intros i row e'. simpl. intros [[<- <-]|[_ Hr]]%lookup_insert_Some; [|by eapply Hd].
  simpl. rewrite (Hrt _ _ Ee). by intros [= ->].
Qed.

Lemma Defer_row_kept fault e db :
  (ID e = ID evt -> e = evt) -> scheduled_events db !! ID evt = Some (mkScheduledRow b (CreatedAt evt)) ->
  scheduled_events (Defer marshal fault e db).2 !! ID evt = Some (mkScheduledRow b (CreatedAt evt)).
Proof.
  intros Hid Hrow. unfold Defer, SaveScheduled. destruct (marshal e) as [b'|] eqn:Ee; [|done].
  destruct fault; [done|]. simpl. destruct (decide (ID e = ID evt)) as [Heq|Hne]; [|by rewrite lookup_insert_ne].
  rewrite (Hid Heq) in *. rewrite lookup_insert_eq. congruence.
Qed.

Definition parked st : Prop :=
  scheduled_events (sdb st) !! ID evt = Some (mkScheduledRow b (CreatedAt evt)) /\
  forall pass, spass st = Some pass -> p_del pass ≠ Some (ID evt) /\
    forall p, p ∈ p_todo pass -> se_ID p = ID evt -> se_EventJSON p = b /\ CreatedAt evt <= p_now pass.

Definition kept st : Prop := (exists now, (now, evt) ∈ slog st /\ CreatedAt evt <= now) \/ parked st.

(** The rows, and those a pass has loaded, decode to their own ids. *)
Definition decodes st : Prop :=
  rows_decode unmarshal (sdb st) /\
  forall pass p e, spass st = Some pass -> p ∈ p_todo pass -> unmarshal (se_EventJSON p) = Some e -> ID e = se_ID p.

Lemma sched_step_decodes x st st' : decodes st -> sched_step unmarshal x st = Some st' -> decodes st'.
Proof.
  intros [Hd Hp] Hs. destruct x as [fault| |fault|fault e|f|]; simpl in Hs.
  - destruct (spass st); [done|]. injection Hs as <-. split; [done|]. simpl. intros pass p e Hpass Hin Hu.
    destruct (LoadDueScheduled fault (clock (srel st)) dueLimit (sdb st)) as [due|] eqn:El; [|done]. injection Hpass as <-.
    destruct fault; [done|]. destruct (due_elem (clock (srel st)) dueLimit (sdb st) due p El Hin) as (row & Hr & Hj & _).
    eapply Hd; [exact Hr|]. by rewrite Hj.
  - destruct (spass st) as [[now [|p todo] [i|]]|] eqn:Ep; try done; [by injection Hs as <-|].
    assert (forall db r del log, rows_decode unmarshal db ->
      decodes (mkSchedSys db r (Some (mkPass now todo del)) log)) as Hnext.
    { intros db r del log Hdb. split; [done|]. simpl. intros ps p' e [= <-] Hin.
      apply (Hp _ p' e eq_refl). by apply list_elem_of_further. }
    destruct (unmarshal (se_EventJSON p)) as [e|]; [|injection Hs as <-; by apply Hnext].
    assert (rows_decode unmarshal (publish e (sdb st) (srel st)).1.2) as Hd'
      by (destruct (publish_parks e (sdb st) (srel st)) as [->|[_ ->]]; [done|by apply Defer_decodes]).
    destruct (publish e (sdb st) (srel st)) as [[[er|] db'] r']; injection Hs as <-; by apply Hnext.
  - destruct (spass st) as [[now todo [i|]]|] eqn:Ep; [|done..]. injection Hs as <-. split.
    + unfold DeleteScheduled. destruct fault; [done|]. simpl. intros j row e Hr. apply (Hd j row e). simpl in Hr.
      by apply lookup_delete_Some in Hr as [_ ?].
    + simpl. intros pass p e [= <-]. by apply (Hp _ p e eq_refl).
  - injection Hs as <-. split; [by apply Defer_decodes|exact Hp].
  - by injection Hs as <-.
  - by injection Hs as <-.
Qed.

Lemma kept_log st st' :
  (exists now, (now, evt) ∈ slog st /\ CreatedAt evt <= now) -> (exists new, slog st' = slog st ++ new) -> kept st'.
Proof. intros (now & Hin & Hle) [new E]. left. exists now. rewrite E. set_solver. Qed.

Lemma kept_same st st' : slog st' = slog st -> (parked st -> parked st') -> kept st -> kept st'.
Proof. unfold kept. intros ->. tauto. Qed.

Lemma SLoad_kept fault st st' : kept st -> sched_step unmarshal (SLoad fault) st = Some st' -> kept st'.
Proof.
  intros Hk Hs. simpl in Hs. destruct (spass st) eqn:Ep; [done|]. injection Hs as <-.
  apply (kept_same st); [done| |done]. intros [Hrow _]. split; [done|]. simpl. intros pass Hpass.
  destruct (LoadDueScheduled fault (clock (srel st)) dueLimit (sdb st)) as [due|] eqn:El; [|done]. injection Hpass as <-.
  split; [done|]. simpl. intros p Hp Hid. destruct fault; [done|].
  destruct (due_elem (clock (srel st)) dueLimit (sdb st) due p El Hp) as (row & Hr & Hj & Hle).
  rewrite Hid, Hrow in Hr. by injection Hr as <-.
Qed.

Lemma SPublish_kept st st' : decodes st -> kept st -> sched_step unmarshal SPublish st = Some st' -> kept st'.
Proof.
  intros Hdec Hk Hs. simpl in Hs. destruct (spass st) as [[now todo del]|] eqn:Ep; [|done].
  destruct todo as [|p todo], del as [i|]; try done.
  { injection Hs as <-. apply (kept_same st); [done|by intros [Hrow _]|done]. }
  assert (exists new, slog st' = slog st ++ new) as Hnew.
  { destruct (unmarshal (se_EventJSON p)) as [e|]; [destruct (publish e (sdb st) (srel st)) as [[[er|] db'] r']|];
      injection Hs as <-; simpl; eauto; exists []; by rewrite app_nil_r. }
  destruct Hk as [Hl|[Hrow Hpass]]; [by eapply kept_log|]. destruct (Hpass _ Ep) as [_ Htodo]. simpl in Htodo.
  assert (forall db r del log, scheduled_events db !! ID evt = Some (mkScheduledRow b (CreatedAt evt)) ->
    del ≠ Some (ID evt) -> kept (mkSchedSys db r (Some (mkPass now todo del)) log)) as Hnext.
  { intros db r del log Hr Hdel. right. split; [done|]. simpl. intros pass [= <-]. split; [done|].
    intros p' Hp'. apply Htodo. by apply list_elem_of_further. }
  assert (forall e, (ID e = ID evt -> e = evt) ->
    scheduled_events (publish e (sdb st) (srel st)).1.2 !! ID evt = Some (mkScheduledRow b (CreatedAt evt))) as Hpub.
  { intros e He. destruct (publish_parks e (sdb st) (srel st)) as [->|[_ ->]]; [done|by apply Defer_row_kept]. }
  destruct (decide (se_ID p = ID evt)) as [Hid|Hne].
  - destruct (Htodo p (list_elem_of_here _ _) Hid) as [Hj Hle]. rewrite Hj, (Hrt _ _ Hb) in Hs.
    specialize (Hpub evt (fun _ => eq_refl)).
    destruct (publish evt (sdb st) (srel st)) as [[[er|] db'] r']; injection Hs as <-; [by apply Hnext|].
    left. exists now. split; [simpl; set_solver|done].
  - destruct (unmarshal (se_EventJSON p)) as [e|] eqn:Eu; [|injection Hs as <-; apply Hnext; [done|congruence]].
    pose proof (proj2 Hdec _ p e Ep (list_elem_of_here _ _) Eu) as He. specialize (Hpub e ltac:(intros; congruence)).
    destruct (publish e (sdb st) (srel st)) as [[[er|] db'] r']; injection Hs as <-; (apply Hnext; [done|congruence]).
Qed.

Lemma sched_step_kept x st st' :
  (forall f e, x = SDefer f e -> ID e = ID evt -> e = evt) ->
  decodes st -> kept st -> sched_step unmarshal x st = Some st' -> kept st'.
Proof.
  intros Hids Hdec Hk Hs.
  destruct x as [fault| |fault|fault e|f|]; [by eapply SLoad_kept|by eapply SPublish_kept|..]; simpl in Hs.
  - destruct (spass st) as [[now todo [i|]]|] eqn:Ep; [|done..]. injection Hs as <-.
    apply (kept_same st); [done| |done]. intros [Hrow Hpass]. destruct (Hpass _ Ep) as [Hdel Htodo]. split.
    + unfold DeleteScheduled. destruct fault; [done|]. simpl. rewrite lookup_delete_ne; [done|].
      simpl in Hdel. congruence.
    + simpl. intros pass [= <-]. by split.
  - injection Hs as <-. apply (kept_same st); [done| |done]. intros [Hrow Hpass]. split; [|exact Hpass].
    apply Defer_row_kept; [by eapply Hids|done].
  - injection Hs as <-. apply (kept_same st); [done|by intros [Hrow Hpass]|done].
  - injection Hs as <-. apply (kept_same st); [done|by intros [Hrow Hpass]|done].
Qed.

Lemma sched_run_kept xs st st' :
  (forall f e, SDefer f e ∈ xs -> ID e = ID evt -> e = evt) ->
  decodes st -> kept st -> sched_run unmarshal xs st = Some st' -> kept st'.
Proof.
  revert st. induction xs as [|x xs IH]; intros st Hids Hdec Hk Hr; simpl in Hr; [by simplify_eq|].
  destruct (sched_step unmarshal x st) as [st1|] eqn:Es; [|done].
  eapply IH; [intros f e Hin; apply (Hids f); by apply list_elem_of_further|by eapply sched_step_decodes| |exact Hr].
  eapply sched_step_kept; [|exact Hdec|exact Hk|exact Es]. intros f e ->. apply (Hids f). apply list_elem_of_here.
Qed.
End kept.

(** ** Properties *)

(** A parked event is published or stays parked. Provided JSON decoding inverts
    encoding and parked rows carry their own ids, after an event was accepted by
    [Defer], and however the calls of later
    passes interleave with further deferrals, changes of the relay and crashes, with
    loads, deletes and publications failing in any way: its row is in the table
    unchanged, or a pass that loaded it once its time had come handed exactly this
    event to the relay, which accepted it. While the row is there, every pass that
    starts when at most a hundred rows are due has it on its list. *)
Theorem deferred_event_not_lost marshal unmarshal {R} `{!Publisher marshal R} `{!GoSort due_first}
    fault evt db db1 xs (r : R) st :
  (forall e b, marshal e = Ok b -> unmarshal b = Some e) ->
  rows_decode unmarshal db -> Defer marshal fault evt db = (None, db1) ->
  (forall f e, SDefer f e ∈ xs -> ID e = ID evt -> e = evt) ->
  sched_run unmarshal xs (mkSchedSys db1 r None []) = Some st ->
  (exists now, (now, evt) ∈ slog st /\ CreatedAt evt <= now) \/
  exists row, scheduled_events (sdb st) !! ID evt = Some row /\ unmarshal (event_json row) = Some evt /\
    forall st', CreatedAt evt <= clock (srel st) -> (length (due_rows (clock (srel st)) (sdb st)) <= dueLimit)%nat ->
      sched_step unmarshal (SLoad None) st = Some st' ->
      exists pass, spass st' = Some pass /\ mkScheduledEvent (ID evt) (event_json row) ∈ p_todo pass.
Proof.
  intros Hrt Hdec Hd Hids Hrun.
  destruct (Defer_row marshal fault evt db db1 Hd) as (b & Em & Hrow1).
  assert (kept evt b (mkSchedSys db1 r None [])) as H0 by (right; by split).
  assert (decodes unmarshal (mkSchedSys db1 r None [])) as H1.
  { split; [|done]. pose proof (Defer_decodes unmarshal Hrt fault evt db Hdec) as H1. by rewrite Hd in H1. }
  destruct (sched_run_kept unmarshal evt b Hrt Em xs _ st Hids H1 H0 Hrun) as [H|[Hrow _]]; [by left|right].
  exists (mkScheduledRow b (CreatedAt evt)). split_and!; [done|by apply Hrt|].
  intros st' Hle Hroom Hs. simpl in Hs. destruct (spass st); [done|]. injection Hs as <-. simpl.
  eexists. split; [done|]. simpl. exact (due_listed (clock (srel st)) (sdb st) _ (ID evt) _ Hrow Hle eq_refl Hroom).
Qed.

Definition demo_due : Event := mkEvent "future" "bob" 50 1 [] "hi" "sig".
Definition demo_unmarshal (s : string) : option Event :=
  if String.eqb s "future" then Some demo_due else None.

Definition demo_marshal (e : Event) : result string := if decide (e = demo_due) then Ok "future" else Err (Opaque "x").

#[local] Instance demo_publisher : Publisher demo_marshal (Z * list Event) :=
  { clock := fst; publish := fun e db r => (None, db, (r.1, r.2 ++ [e])); publish_parks := fun e db r => or_introl eq_refl }.

(** A pass before the event is due, a failed load, a pass that publishes it and dies
    before it deletes the row. *)
Definition demo_passes : list (SchedStep (R := Z * list Event)) :=
  [SLoad None; SPublish; SRelay (fun r => (70, r.2)); SLoad (Some (Opaque "locked")); SLoad None; SPublish; SCrash].

Lemma deferred_event_not_lost_witness :
  exists st, sched_run demo_unmarshal demo_passes
      (mkSchedSys (Defer demo_marshal None demo_due emptyDB).2 (40, []) None []) = Some st /\
    srel st = (70, [demo_due]) /\
    ((exists now, (now, demo_due) ∈ slog st /\ 50 <= now) \/ exists row, scheduled_events (sdb st) !! "future" = Some row).
Proof.
  eexists. match goal with |- ?r = Some ?n /\ _ => assert (r = Some n) as Hrun by (vm_compute; reflexivity) end.
  split; [exact Hrun|]. split; [reflexivity|].
  destruct (deferred_event_not_lost demo_marshal demo_unmarshal None demo_due emptyDB _ demo_passes (40, [])
    _ ltac:(intros e b; unfold demo_marshal; case_decide; [|done]; intros [= <-]; subst e; reflexivity)
    ltac:(by intros i row e) ltac:(vm_compute; reflexivity)
    ltac:(intros f e Hin; exfalso; unfold demo_passes in Hin;
      repeat (apply elem_of_cons in Hin as [Hin|Hin]; [discriminate|]); by inversion Hin) Hrun) as [H|(row & H & _)].
  - left. exact H.
  - right. exists row. exact H.
Defined.

(** Permanently failing events can starve the queue. A pass looks only at the
    hundred oldest due events and leaves failed ones in place, so if those hundred
    keep failing every pass sees the same hundred, and a due event behind them is
    never attempted. *)
Theorem failing_events_starve_the_rest marshal unmarshal {R} `{!Publisher marshal R} `{!GoSort due_first}
    delFault db (r : R) due :
  LoadDueScheduled None (clock r) dueLimit db = Ok due -> length due = dueLimit ->
  (forall p, p ∈ due -> exists evt, unmarshal (se_EventJSON p) = Some evt /\
     forall r, exists e r', publish evt db r = (Some e, db, r')) ->
  (publishDue unmarshal None delFault db r).1 = db /\
  forall i row, scheduled_events db !! i = Some row -> i ∉ map se_ID due ->
    forall st log, sched_step unmarshal (SLoad None) (mkSchedSys db r None log) = Some st ->
      exists pass, spass st = Some pass /\ forall p, p ∈ p_todo pass -> se_ID p ≠ i.
Proof.
  intros Hl Hn Hfail. split.
  - unfold publishDue. rewrite Hl. clear Hl Hn. generalize 0%nat.
    revert r. induction due as [|p due IH]; intros r k; simpl; [done|].
    destruct (Hfail p ltac:(set_solver)) as (evt & Hu & Hp). rewrite Hu.
    destruct (Hp r) as (e & r' & ->). apply IH. intros p' Hp'. apply Hfail. set_solver.
  - intros i row _ Hni st log Hs. unfold sched_step in Hs. cbn [spass sdb srel] in Hs. rewrite Hl in Hs.
    injection Hs as <-. eexists. split; [done|].
    intros p Hp Hid. apply Hni. rewrite <-Hid. by apply list_elem_of_fmap_2.
Qed.
