(* ===== verification/Relay.v ===== *)
(** * Relay wiring (internal/relay/relay.go)

    [New] assembles the hook lists of the khatru relay. A hook list is consulted in
    order and the first rejection answers the client (khatru's contract); hooks
    khatru itself installs are the parameter [pre]. The rate limiter is the only
    hook with state. *)

From S2P Require Import Prelude Nostr Config Classifier Query Policy Access Control Scheduler.
From S2P Require Import TierWriter Store.

Inductive EventHook := EvAccess | EvScope | EvLimiter | EvPre (verdict : Event -> Verdict).
Inductive FilterHook := FiAccess | FiLimiter | FiBreadth | FiPre (verdict : Filter -> Verdict).

Record Deps := mkDeps {
  d_sched : option Z;               (* the scheduler's buffer *)
  d_limiter : bool;
  d_breadth : RejectFilterBreadth;
  d_access : option Access;
  d_serviceURL : string;
  d_defaultSinceHours : Z;
}.

(** The NIP-11 document. *)
Record RelayInfo := mkInfo {
  i_Name : string; i_Description : string; i_Software : string; i_Version : string;
  i_SupportedNIPs : list Z;
}.

(** The storage hooks; saving may go through the scheduler with its buffer. *)
Inductive StoreHook := HSave (defer : option Z) | HReplace | HDelete | HQuery | HCount.

(** NIP-86: who may call, and the calls that are served. *)
Inductive ApiGate := ApiAdmin | ApiPre (verdict : string -> Verdict).
Record Management := mkManagement {
  RejectAPICall : list ApiGate;
  hasAllowPubKey : bool;
  hasBanPubKey : bool;
  hasListAllowedPubKeys : bool;
}.

Record Relay := mkRelay {
  Info : RelayInfo;
  relayURL : string;                (* rl.ServiceURL *)
  RejectEvent : list EventHook;
  RejectFilter : list FilterHook;
  RejectCountFilter : list FilterHook;
  OverwriteFilter : list Z;         (* the hours of each default-since hook *)
  PreventBroadcast : list Z;        (* the buffer of each scheduler hook *)
  onStore : list StoreHook;         (* rl.StoreEvent *)
  onReplace : list StoreHook;
  onDelete : list StoreHook;
  onQuery : list StoreHook;
  onCount : list StoreHook;
  ManagementAPI : Management;
}.

Definition prepend {A} (hooks : list A) (fn : A) : list A := fn :: hooks.

Definition New (pre : Relay) (d : Deps) : Relay :=
  let authEnabled := match d_access d with Some a => Enabled a | None => false end in
  let info := mkInfo "archive-relay" "Selective social-core Nostr archive relay (ClickHouse-backed)."
                "https://github.com/nostr-net/archive-relay" "0.1.0"
                ([1; 9; 11; 12; 15; 45] ++ if authEnabled then [42; 86] else []) in
  let ev := if authEnabled then prepend (RejectEvent pre) EvAccess else RejectEvent pre in
  let ev := ev ++ [EvScope] in
  let ev := if d_limiter d then ev ++ [EvLimiter] else ev in
  let fi pre_ :=
    let l := if authEnabled then prepend pre_ FiAccess else pre_ in
    let l := if d_limiter d then l ++ [FiLimiter] else l in
    l ++ [FiBreadth] in
  let api := ManagementAPI pre in
  mkRelay info (if String.eqb (d_serviceURL d) "" then relayURL pre else d_serviceURL d)
    ev (fi (RejectFilter pre)) (fi (RejectCountFilter pre))
    (if 0 <? d_defaultSinceHours d then OverwriteFilter pre ++ [d_defaultSinceHours d] else OverwriteFilter pre)
    (match d_sched d with Some b => PreventBroadcast pre ++ [b] | None => PreventBroadcast pre end)
    (onStore pre ++ [HSave (d_sched d)]) (onReplace pre ++ [HReplace]) (onDelete pre ++ [HDelete])
    (onQuery pre ++ [HQuery]) (onCount pre ++ [HCount])
    (match d_access d with
     | Some _ => mkManagement (RejectAPICall api ++ [ApiAdmin]) true true true
     | None => api
     end).

(** The caller of a hook: its connection, key, address and the time (ns). *)
Record Ctx := mkCtx { c_conn : bool; c_authed : string; c_ip : string; c_now : Z }.

Definition runEventHook (d : Deps) (c : Ctx) (evt : Event) (h : EventHook) (l : Limiter) : Verdict * Limiter :=
  match h with
  | EvAccess => (match d_access d with Some a => accessRejectEvent (c_conn c) (c_authed c) evt a | None => None end, l)
  | EvScope => (RejectOutOfScope evt, l)
  | EvLimiter => limiterRejectEvent (c_now c) (c_ip c) l
  | EvPre v => (v evt, l)
  end.

Fixpoint runEventHooks (d : Deps) (c : Ctx) (evt : Event) (hs : list EventHook) (l : Limiter)
    : Verdict * Limiter :=
  match hs with
  | [] => (None, l)
  | h :: hs' =>
      match runEventHook d c evt h l with
      | (Some msg, l') => (Some msg, l')
      | (None, l') => runEventHooks d c evt hs' l'
      end
  end.

Definition runFilterHook (d : Deps) (c : Ctx) (f : Filter) (h : FilterHook) (l : Limiter) : Verdict * Limiter :=
  match h with
  | FiAccess => (match d_access d with Some a => accessRejectFilter (c_conn c) (c_authed c) f a | None => None end, l)
  | FiLimiter => limiterRejectFilter (c_now c) (c_ip c) l
  | FiBreadth => (breadthReject (d_breadth d) f, l)
  | FiPre v => (v f, l)
  end.

Fixpoint runFilterHooks (d : Deps) (c : Ctx) (f : Filter) (hs : list FilterHook) (l : Limiter)
    : Verdict * Limiter :=
  match hs with
  | [] => (None, l)
  | h :: hs' =>
      match runFilterHook d c f h l with
      | (Some msg, l') => (Some msg, l')
      | (None, l') => runFilterHooks d c f hs' l'
      end
  end.

(** The default-since hook. [now]: nostr.Now(), in seconds. *)
Definition defaultSince (hours now : Z) (f : Filter) : Filter :=
  if negb (bool_decide (fIDs f = []) && bool_decide (fAuthors f = [])
           && bool_decide (fTags f = []) && bool_decide (fUntil f = None)) then f
  else match fSince f with
       | Some _ => f
       | None => set_fSince f (Some (now - hours * 3600))
       end.

(** [save]: the StoreEvent hook, parking future-dated events; [now] in seconds. *)
Definition relaySave {W E} `{!TierWriter W E} (cls : gmap Z string) (marshal : Event -> result string)
    (sched : option Z) (fault : option error) (now : Z) (evt : Event) (s : Store W) (db : DB)
    : option error * Store W * DB :=
  match sched with
  | Some buffer =>
      if ShouldDefer now buffer evt then
        let '(err, db') := Defer marshal fault evt db in (err, s, db')
      else let '(err, s') := SaveEvent cls evt s in (err, s', db)
  | None => let '(err, s') := SaveEvent cls evt s in (err, s', db)
  end.

(** ** Lemmas *)

Lemma runEventHooks_app d c evt hs1 hs2 l :
  runEventHooks d c evt (hs1 ++ hs2) l =
  match runEventHooks d c evt hs1 l with
  | (Some msg, l') => (Some msg, l')
  | (None, l') => runEventHooks d c evt hs2 l'
  end.
Proof.
  revert l. induction hs1 as [|h hs1 IH]; intros l; simpl; [done|].
  destruct (runEventHook d c evt h l) as [[msg|] l']; [done|apply IH].
Qed.

(** Preset hooks have no state. *)
Definition stateless (hs : list EventHook) : Prop := Forall (fun h => exists v, h = EvPre v) hs.

Lemma stateless_run d c evt hs l : stateless hs -> (runEventHooks d c evt hs l).2 = l.
Proof.
  intros H. induction H as [|h hs [v ->] _ IH]; simpl; [done|]. by destruct (v evt).
Qed.

(** The verdict of the auth gate, when there is one. *)
Definition authVerdict (d : Deps) (c : Ctx) : Verdict :=
  match d_access d with Some a => if enabled a then gate (c_conn c) (c_authed c) a else None | None => None end.

(** The chain [New] installs asks auth, the preset hooks, scope, then the limiter. *)
Lemma New_event_chain pre d c evt l :
  stateless (RejectEvent pre) ->
  runEventHooks d c evt (RejectEvent (New pre d)) l =
  match authVerdict d c with
  | Some msg => (Some msg, l)
  | None =>
      match (runEventHooks d c evt (RejectEvent pre) l).1 with
      | Some msg => (Some msg, l)
      | None =>
          match RejectOutOfScope evt with
          | Some msg => (Some msg, l)
          | None => if d_limiter d then runEventHooks d c evt [EvLimiter] l else (None, l)
          end
      end
  end.
Proof.
  intros Hpre. unfold New, authVerdict, Enabled. cbn [RejectEvent].
  pose proof (stateless_run d c evt (RejectEvent pre) l Hpre) as Hs.
  destruct (d_access d) as [a|] eqn:Ea; [destruct (enabled a)|]; destruct (d_limiter d);
    unfold prepend; rewrite ?runEventHooks_app; cbn [runEventHooks runEventHook]; rewrite ?Ea; unfold accessRejectEvent;
    try (destruct (gate (c_conn c) (c_authed c) a); [done|]); rewrite ?runEventHooks_app;
    destruct (runEventHooks d c evt (RejectEvent pre) l) as [[msg|] l1]; simpl in Hs |- *; subst l1;
    try done; by destruct (RejectOutOfScope evt).
Qed.

(** ** Properties *)

(** What the publish pipeline guarantees. If the hooks [New] installs let an event
    through, its kind is in scope and, with access control on, the client is a server
    side call or authenticated with an allow-listed key. An event refused by the auth
    or scope gate costs the sender's address nothing: the rate limiter is consulted
    last and its state is unchanged. *)
Theorem accepted_events_passed_every_gate pre d c evt l v l' :
  stateless (RejectEvent pre) ->
  runEventHooks d c evt (RejectEvent (New pre d)) l = (v, l') ->
  (v = None -> Kind evt ∈ InScopeKinds /\
     forall a, d_access d = Some a -> enabled a = true ->
       c_conn c = false \/ (c_authed c ≠ "" /\ c_authed c ∈ allowed a)) /\
  (RejectOutOfScope evt ≠ None -> v ≠ None /\ l' = l) /\
  (forall a msg, d_access d = Some a -> enabled a = true ->
     gate (c_conn c) (c_authed c) a = Some msg -> v = Some msg /\ l' = l).
Proof.
  intros Hpre E0. rewrite New_event_chain in E0 by done. pose proof (scope_spec evt) as Hsc.
  assert (forall a, d_access d = Some a -> enabled a = true ->
    authVerdict d c = gate (c_conn c) (c_authed c) a) as Hauth.
  { intros a Ha He. unfold authVerdict. by rewrite Ha, He. }
  destruct (authVerdict d c) as [msg|].
  { injection E0 as <- <-. split_and!; [done|done|]. intros a msg' Ha He Hg.
    rewrite <-(Hauth a Ha He) in Hg. by simplify_eq. }
  assert (forall a msg, d_access d = Some a -> enabled a = true ->
    gate (c_conn c) (c_authed c) a = Some msg -> v = Some msg /\ l' = l) as H3.
  { intros a msg Ha He Hg. by rewrite <-(Hauth a Ha He) in Hg. }
  destruct ((runEventHooks d c evt (RejectEvent pre) l).1); [injection E0 as <- <-; by split_and!|].
  destruct (RejectOutOfScope evt) as [msg|]; [injection E0 as <- <-; by split_and!|].
  split_and!; [|done|done]. intros ->. split; [by apply Hsc|].
  intros a Ha He. apply (gate_spec _ _ a He). by rewrite <-Hauth.
Qed.

Definition demo_pre : Relay :=
  mkRelay (mkInfo "" "" "" "" []) "" [] [] [] [] [] [] [] [] [] [] (mkManagement [] false false false).
Definition demo_deps : Deps :=
  mkDeps (Some (60 * Second)) true (mkBreadth 1000 1000 20 256)
    (Some (mkAccess true ∅ ∅ "" {[ "bob" ]})) "" 48.

Lemma accepted_events_passed_every_gate_witness :
  Kind (mkEvent "i" "p" 5 1 [] "" "") ∈ InScopeKinds /\
  runEventHooks demo_deps (mkCtx true "eve" "1.2.3.4" 0) (mkEvent "i" "p" 5 1 [] "" "")
    (RejectEvent (New demo_pre demo_deps)) (NewLimiter 600)
  = (Some "restricted: your public key is not on the allow-list", NewLimiter 600).
Proof.
  split.
  - destruct (runEventHooks demo_deps (mkCtx true "bob" "1.2.3.4" 0) (mkEvent "i" "p" 5 1 [] "" "")
      (RejectEvent (New demo_pre demo_deps)) (NewLimiter 600)) as [v l'] eqn:E0.
    destruct (accepted_events_passed_every_gate demo_pre demo_deps _ _ _ v l' (Forall_nil_2 _) E0) as [H _].
    apply H. vm_compute in E0. by injection E0 as <- _.
  - vm_compute. reflexivity.
Defined.

(** The default time bound lands on the fast path. For a pure global-feed request
    (kinds only) the injected bound keeps the kinds and the limit, and if the
    configured window is at most 165 hours the request is then served by the feed
    table, provided the read happens within an hour of the injection; with 167 hours or
    more it never is. Every other filter is left untouched. *)
Theorem default_since_engages_feed hours now read f ov :
  now <= read < now + 3599 * Second -> 0 <= now ->
  (forall k, k ∈ fKinds f -> classifyWithOverride k ov ≠ TierDrop) ->
  let f' := defaultSince hours (now / Second) f in
  ((fIDs f ≠ [] \/ fAuthors f ≠ [] \/ fTags f ≠ [] \/ fUntil f ≠ None \/ fSince f ≠ None) -> f' = f) /\
  (fIDs f = [] -> fAuthors f = [] -> fTags f = [] -> fUntil f = None -> fSince f = None ->
     fKinds f' = fKinds f /\ fLimit f' = fLimit f /\
     (hours <= 165 -> feedEligible read f' ov = true) /\
     (167 <= hours -> feedEligible read f' ov = false)).
Proof.
  intros Hread Hnow Hk f'. split.
  - intros H. unfold f', defaultSince. repeat case_bool_decide; simpl; try done.
    destruct (fSince f); [done|]. naive_solver.
  - intros H1 H2 H3 H4 H5. unfold f', defaultSince. rewrite H1, H2, H3, H4, H5.
    rewrite !bool_decide_eq_true_2 by done. cbn [andb negb].
    unfold feedEligible. cbn [fIDs fAuthors fTags fUntil fSince fKinds fLimit set_fSince].
    rewrite H1, H2, H3, H4. rewrite !bool_decide_eq_true_2 by done. cbn [andb negb].
    pose proof (Z.div_mod now Second ltac:(unfold Second; lia)) as Hd.
    pose proof (Z.mod_pos_bound now Second ltac:(unfold Second; lia)) as Hm.
    split_and!; [done|done| |]; intros Hh.
    + assert ((now / Second - hours * 3600) * Second <? read + (- feedRetention + 2 * Hour) = false) as ->.
      { apply Z.ltb_ge. unfold feedRetention, Hour, Minute, Second in *. lia. }
      apply forallb_forall. intros k Hin%list_elem_of_In. apply negb_true_iff.
      destruct (String.eqb_spec (classifyWithOverride k ov) TierDrop); [|done]. by destruct (Hk k Hin).
    + assert ((now / Second - hours * 3600) * Second <? read + (- feedRetention + 2 * Hour) = true) as ->; [|done].
      apply Z.ltb_lt. unfold feedRetention, Hour, Minute, Second in *. lia.
Qed.

Lemma default_since_engages_feed_witness :
  feedEligible (1000000 * Second + 5) (defaultSince 48 (1000000 * Second / Second) (mkFilter [] [1] [] [] None None 10)) ∅
  = true.
Proof.
  apply (default_since_engages_feed 48 (1000000 * Second) (1000000 * Second + 5)
    (mkFilter [] [1] [] [] None None 10) ∅); try reflexivity.
  - unfold Second. lia.
  - unfold Second. lia.
  - intros k Hk. simpl in Hk. apply list_elem_of_singleton in Hk as ->. discriminate.
  - lia.
Defined.
