(* ===== verification/Publish.v ===== *)
(** * Publishing an event (internal/relay/relay.go, cmd/archive-relay/main.go)

    What happens to an event handed to the assembled relay, by a client or by the
    scheduler. khatru's AddEvent is not part of the repository: class [Khatru] states
    what its documentation promises about the hook lists, and the theorems hold for
    any implementation of it. [Scheduled] closes the loop of main.go, where the
    scheduler's publish function is the relay's own AddEvent. *)

From S2P Require Import Prelude Nostr Config Classifier Rows FilterSQL Collapse Query Policy Access Control Scheduler.
From S2P Require Import Batcher Tombstone TierWriter Store Relay.

Section publish.
Context {W E : Type} `{!TierWriter W E}.
Variable json_str : string -> string.
Variable cls : gmap Z string.
Context `{!GoSort row_desc}.
Variable marshal : Event -> result string.

(** The state the hooks work on. *)
Record RState := mkRState { r_store : Store W; r_db : DB; r_limiter : Limiter }.

(** What the environment decides during one call. *)
Record PubEnv := mkPubEnv { pe_ctx : Ctx; pe_defer : option error; pe_replace : REnv (E := E) }.

(** [time.Now().Unix()] *)
Definition pe_unix (env : PubEnv) : Z := c_now (pe_ctx env) / Second.

(** One storage hook on an event; the reading hooks are not on these lists. *)
Definition runStoreHook (env : PubEnv) (evt : Event) (h : StoreHook) (st : RState) : option error * RState :=
  match h with
  | HSave sched =>
      let '(err, s', db') := relaySave cls marshal sched (pe_defer env) (pe_unix env) evt (r_store st) (r_db st) in
      (err, mkRState s' db' (r_limiter st))
  | HReplace =>
      let '(err, s') := ReplaceEvent json_str cls (pe_replace env) evt (r_store st) in
      (err, mkRState s' (r_db st) (r_limiter st))
  | HDelete | HQuery | HCount => (None, st)
  end.

Fixpoint runStoreHooks (env : PubEnv) (evt : Event) (hs : list StoreHook) (st : RState) : option error * RState :=
  match hs with
  | [] => (None, st)
  | h :: hs' =>
      match runStoreHook env evt h st with
      | (Some err, st') => (Some err, st')
      | (None, st') => runStoreHooks env evt hs' st'
      end
  end.

Definition set_limiter (l : Limiter) (st : RState) : RState := mkRState (r_store st) (r_db st) l.

(** Kinds 20000 to 29999 are passed on without being stored. *)
Definition isEphemeral (k : Z) : bool := (20000 <=? k) && (k <? 30000).

(** khatru: [freshRelay] is NewRelay(); [replaces] tells which kinds it hands to the
    ReplaceEvent hooks. *)
Class Khatru := {
  freshRelay : Relay;
  replaces : Z -> bool;
  AddEvent : Relay -> Deps -> PubEnv -> Event -> RState -> option error * RState;

  freshRelay_hooks : stateless (RejectEvent freshRelay) /\ onStore freshRelay = [] /\ onReplace freshRelay = [];
  AddEvent_rejects : forall rl d env evt st msg l,
    runEventHooks d (pe_ctx env) evt (RejectEvent rl) (r_limiter st) = (Some msg, l) ->
    exists err, AddEvent rl d env evt st = (Some err, set_limiter l st);
  AddEvent_stores : forall rl d env evt st l err st',
    runEventHooks d (pe_ctx env) evt (RejectEvent rl) (r_limiter st) = (None, l) ->
    isEphemeral (Kind evt) = false ->
    runStoreHooks env evt (if replaces (Kind evt) then onReplace rl else onStore rl) (set_limiter l st) = (err, st') ->
    exists err', AddEvent rl d env evt st = (err', st') /\ (err' = None <-> err = None);
}.
End publish.
Arguments RState W : clear implicits.
Arguments PubEnv E : clear implicits.
Arguments Khatru {W E _} _ _ {_} _.
Arguments freshRelay {W E _ json_str cls _ marshal _}.
Arguments replaces {W E _ json_str cls _ marshal _} k : rename.
Arguments AddEvent {W E _ json_str cls _ marshal _} rl d env evt st : rename.
Arguments freshRelay_hooks {W E _ json_str cls _ marshal _}.
Arguments AddEvent_rejects {W E _ json_str cls _ marshal _} : rename.
Arguments AddEvent_stores {W E _ json_str cls _ marshal _} : rename.

Section facts.
Context {W E : Type} `{!TierWriter W E}.
Variable json_str : string -> string.
Variable cls : gmap Z string.
Context `{!GoSort row_desc}.
Variable marshal : Event -> result string.
Context `{!Khatru json_str cls marshal}.
Implicit Types st : RState W.

(** The event is in the archive: its tier has it, stored or on its way, or a stored
    row of its group is at least as new. *)
Definition landed (evt : Event) (s : Store W) : Prop :=
  (exists b, tiers s !! tierForEvent evt cls = Some b /\ evt ∈ tier_held b) \/
  (isReplaceableKind (Kind evt) = true /\
   exists r, in_tiers json_str s r /\ same_group evt r /\ sortDesc_less (ev_key evt) (row_key r) = false).

(** Who may publish. *)
Definition authorized (d : Deps) (c : Ctx) : Prop :=
  forall a, d_access d = Some a -> enabled a = true -> c_conn c = false \/ (c_authed c ≠ "" /\ c_authed c ∈ allowed a).

(** The scheduler parks the event. *)
Definition deferred (d : Deps) (env : PubEnv E) (evt : Event) : bool :=
  negb (replaces (Kind evt)) &&
  match d_sched d with Some buffer => ShouldDefer (pe_unix env) buffer evt | None => false end.

Lemma in_scope_not_ephemeral k : k ∈ InScopeKinds -> isEphemeral k = false.
Proof.
  intros H. unfold InScopeKinds in H. set_unfold in H. repeat destruct H as [->|H]; try done.
Qed.

Lemma landed_grows evt s s' : grows s s' -> landed evt s -> landed evt s'.
Proof.
  intros Hg [(b & Hb & He)|(Hk & r & Hr & H)].
  - left. apply Hg in Hb as (b' & Hb' & _ & Hh). eauto.
  - right. split; [done|]. exists r. split; [by eapply in_tiers_grows|done].
Qed.

(** A call of AddEvent on the assembled relay: refused by a gate, or one storage hook. *)
Lemma AddEvent_cases d env evt st err st' :
  AddEvent (New freshRelay d) d env evt st = (err, st') ->
  (err ≠ None /\ r_store st' = r_store st /\ r_db st' = r_db st) \/
  (Kind evt ∈ InScopeKinds /\ authorized d (pe_ctx env) /\ exists l err0,
     runStoreHook json_str cls marshal env evt (if replaces (Kind evt) then HReplace else HSave (d_sched d))
       (set_limiter l st) = (err0, st') /\ (err = None <-> err0 = None)).
Proof.
  intros Hadd. destruct freshRelay_hooks as (Hpre & Hs & Hr).
  destruct (runEventHooks d (pe_ctx env) evt (RejectEvent (New freshRelay d)) (r_limiter st)) as [[msg|] l] eqn:Eh.
  { destruct (AddEvent_rejects _ _ _ _ _ _ _ Eh) as [e He]. rewrite He in Hadd. injection Hadd as <- <-. by left. }
  right. pose proof Eh as Eh'. rewrite New_event_chain in Eh' by done.
  destruct (authVerdict d (pe_ctx env)) eqn:Ea; [done|].
  destruct (runEventHooks d (pe_ctx env) evt (RejectEvent freshRelay) (r_limiter st)).1; [done|].
  destruct (RejectOutOfScope evt) eqn:Esc; [done|]. apply scope_spec in Esc. split; [done|].
  split. { intros a Ha He. apply (gate_spec _ _ a He). unfold authVerdict in Ea. by rewrite Ha, He in Ea. }
  exists l.
  destruct (runStoreHooks json_str cls marshal env evt
    (if replaces (Kind evt) then onReplace (New freshRelay d) else onStore (New freshRelay d)) (set_limiter l st))
    as [err0 st0] eqn:Er.
  destruct (AddEvent_stores _ _ _ _ _ _ _ _ Eh (in_scope_not_ephemeral _ Esc) Er) as (e' & He & Hiff).
  rewrite Hadd in He. injection He as -> ->. exists err0. split; [|done].
  simpl in Er. rewrite Hs, Hr in Er. simpl in Er.
  destruct (replaces (Kind evt)); simpl in Er |- *; by case_match; case_match; simplify_eq.
Qed.

Lemma SaveEvent_landed evt s err s' :
  sound s -> SaveEvent cls evt s = (err, s') -> sound s' /\ grows s s' /\ (err = None -> landed evt s').
Proof.
  intros Hs Hr. pose proof (SaveEvent_sound cls evt s Hs) as [H1 H2].
  destruct (SaveEvent_ok cls evt s (proj1 Hs)) as (_ & _ & _ & _ & H3). rewrite Hr in H1, H2, H3.
  split_and!; [done..|]. intros Hn. left. auto.
Qed.

Lemma ReplaceEvent_landed env evt s err s' :
  sound s -> ReplaceEvent json_str cls env evt s = (err, s') ->
  sound s' /\ grows s s' /\ (err = None -> landed evt s').
Proof.
  intros Hs Hr. pose proof (ReplaceEvent_sound json_str cls env evt s Hs) as [H1 H2].
  rewrite Hr in H1, H2. split_and!; [done..|]. intros ->.
  destruct (isReplaceableKind (Kind evt)) eqn:Ek.
  - destruct (ReplaceEvent_durable json_str cls env evt s s' (proj1 Hs) (proj2 Hs) Ek Hr) as [(b & Hb & He)|H]; [|by right].
    left. exists b. split; [done|]. by apply (tier_table_held b (proj1 H1 _ _ Hb)).
  - unfold ReplaceEvent in Hr. rewrite Ek in Hr. destruct (SaveEvent_landed evt s None s' Hs Hr) as (_ & _ & H).
    by apply H.
Qed.

(** The row a parked event leaves. *)
Definition parkedAs (evt : Event) (db : DB) : Prop :=
  exists b, marshal evt = Ok b /\ scheduled_events db !! ID evt = Some (mkScheduledRow b (CreatedAt evt)).

Notation storageHook d evt := (if replaces (Kind evt) then HReplace else HSave (d_sched d)).

(** All a storage hook does to the control database is to park the event. *)
Lemma hook_db d env evt st err st' :
  runStoreHook json_str cls marshal env evt (storageHook d evt) st = (err, st') ->
  r_db st' = r_db st \/ err = None /\ r_db st' = (Defer marshal None evt (r_db st)).2.
Proof.
  destruct (replaces (Kind evt)); simpl.
  - destruct (ReplaceEvent json_str cls (pe_replace env) evt (r_store st)). intros [= <- <-]. by left.
  - unfold relaySave, Defer, SaveScheduled. destruct (d_sched d); [case_match|]; repeat case_match; naive_solver.
Qed.

Lemma hook_kept d env evt st err st' :
  sound (r_store st) -> runStoreHook json_str cls marshal env evt (storageHook d evt) st = (err, st') ->
  sound (r_store st') /\ grows (r_store st) (r_store st') /\
  (err = None -> if deferred d env evt then r_store st' = r_store st /\ parkedAs evt (r_db st')
                 else r_db st' = r_db st /\ landed evt (r_store st')).
Proof.
  intros Hs. unfold deferred. destruct (replaces (Kind evt)); simpl.
  - destruct (ReplaceEvent json_str cls (pe_replace env) evt (r_store st)) as [e s'] eqn:Er. intros [= <- <-]. simpl.
    destruct (ReplaceEvent_landed _ _ _ _ _ Hs Er) as (? & ? & ?). split_and!; auto.
  - destruct (SaveEvent cls evt (r_store st)) as [e s'] eqn:Es.
    pose proof (SaveEvent_landed _ _ _ _ Hs Es) as (H1 & H2 & H3).
    unfold relaySave. destruct (d_sched d) as [buffer|]; [destruct (ShouldDefer (pe_unix env) buffer evt)|];
      [|rewrite Es; intros [= <- <-]; simpl; split_and!; auto..].
    destruct (Defer marshal (pe_defer env) evt (r_db st)) as [e' db'] eqn:Ed. intros [= <- <-]. simpl.
    split_and!; [done|by apply grows_same|]. intros ->. split; [done|]. exact (Defer_row _ _ _ _ _ Ed).
Qed.

Lemma AddEvent_db d env evt st err st' :
  AddEvent (New freshRelay d) d env evt st = (err, st') ->
  r_db st' = r_db st \/ err = None /\ r_db st' = (Defer marshal None evt (r_db st)).2.
Proof.
  intros [(_ & _ & Ed)|(_ & _ & l & e0 & Hrun & Hiff)]%AddEvent_cases; [by left|].
  destruct (hook_db d env evt _ _ _ Hrun) as [H|[H1 H2]]; [by left|right; tauto].
Qed.

Lemma AddEvent_kept d env evt st err st' :
  sound (r_store st) -> AddEvent (New freshRelay d) d env evt st = (err, st') ->
  sound (r_store st') /\ grows (r_store st) (r_store st') /\
  (err = None -> Kind evt ∈ InScopeKinds /\ authorized d (pe_ctx env) /\
     if deferred d env evt then r_store st' = r_store st /\ parkedAs evt (r_db st')
     else r_db st' = r_db st /\ landed evt (r_store st')).
Proof.
  intros Hs [(Hn & Es & Ed)|(Hk & Ha & l & e0 & Hrun & Hiff)]%AddEvent_cases.
  - rewrite Es. split_and!; [done|by apply grows_same|done].
  - destruct (hook_kept d env evt (set_limiter l st) e0 st' Hs Hrun) as (H1 & H2 & H3). tauto.
Qed.

(** ** The scheduler's publish function *)

(** The relay as the scheduler's calls find it; the time and the faults of the next
    call are part of it. *)
Record RNode := mkRNode {
  n_store : Store W;
  n_limiter : Limiter;
  n_now : Z;                        (* ns *)
  n_ip : string;                    (* what khatru reports for a call of its own *)
  n_defer : option error;
  n_replace : REnv (E := E);
}.

(** A call without websocket connection or key. *)
Definition ownCall (n : RNode) : PubEnv E :=
  mkPubEnv (mkCtx false "" (n_ip n) (n_now n)) (n_defer n) (n_replace n).

Definition schedPublish (d : Deps) (evt : Event) (db : DB) (n : RNode) : option error * DB * RNode :=
  let '(err, st) := AddEvent (New freshRelay d) d (ownCall n) evt (mkRState (n_store n) db (n_limiter n)) in
  (err, r_db st, mkRNode (r_store st) (r_limiter st) (n_now n) (n_ip n) (n_defer n) (n_replace n)).

Definition unix (n : RNode) : Z := n_now n / Second.

#[local, refine] Instance relay_publisher (d : Deps) : Publisher marshal RNode :=
  {| clock := unix; publish := schedPublish d |}.
Proof.
  intros e db n. unfold schedPublish.
  destruct (AddEvent (New freshRelay d) d (ownCall n) e (mkRState (n_store n) db (n_limiter n))) as [err st] eqn:Ea.
  exact (AddEvent_db d _ _ _ _ _ Ea).
Defined.

(** What the rest of the relay may do between two calls of the scheduler: the store
    only grows, and time does not run backwards. *)
Definition evolves (f : RNode -> RNode) : Prop :=
  forall n, sound (n_store n) -> sound (n_store (f n)) /\ grows (n_store n) (n_store (f n)) /\ n_now n <= n_now (f n).

Section scheduled.
Context `{!GoSort due_first}.
Variable d : Deps.
Variable unmarshal : string -> option Event.
Hypothesis Hbuffer : forall buffer, d_sched d = Some buffer -> 0 <= buffer.

Notation relay_step := (sched_step (Publisher0 := relay_publisher d) unmarshal).
Notation relay_run := (sched_run (Publisher0 := relay_publisher d) unmarshal).

(** Every event the relay accepted from a pass is in the archive. *)
Definition logged (st : SchedSys (R := RNode)) : Prop :=
  sound (n_store (srel st)) /\
  (forall pass, spass st = Some pass -> p_now pass <= unix (srel st)) /\
  (forall now e, (now, e) ∈ slog st -> CreatedAt e <= now -> landed e (n_store (srel st))).

Lemma not_deferred n e : CreatedAt e <= n_now n / Second -> deferred d (ownCall n) e = false.
Proof.
  intros Hle. unfold deferred, ShouldDefer, pe_unix. simpl. destruct (d_sched d) as [b|] eqn:Ed; [|by rewrite andb_false_r].
  specialize (Hbuffer b eq_refl). pose proof (Z.div_pos b Second Hbuffer ltac:(unfold Second; lia)).
  replace (n_now n / Second + b / Second <? CreatedAt e) with false by (symmetry; apply Z.ltb_ge; lia).
  by rewrite andb_false_r.
Qed.

Lemma logged_next (st : SchedSys (R := RNode)) db n pass log :
  logged st -> sound (n_store n) -> grows (n_store (srel st)) (n_store n) ->
  (forall p, pass = Some p -> p_now p <= unix n) ->
  (forall now e, (now, e) ∈ log -> CreatedAt e <= now -> (now, e) ∈ slog st \/ landed e (n_store n)) ->
  logged (mkSchedSys db n pass log).
Proof.
  intros (_ & _ & Hl) Hs Hg Hp Hlog. split_and!; [done..|]. simpl. intros now e Hin Hle.
  destruct (Hlog now e Hin Hle) as [H|H]; [|done]. eapply landed_grows; [exact Hg|]. by eapply Hl.
Qed.

Lemma logged_quiet (st : SchedSys (R := RNode)) db pass :
  logged st -> (forall p, pass = Some p -> p_now p <= unix (srel st)) ->
  logged (mkSchedSys db (srel st) pass (slog st)).
Proof. intros Hl Hp. apply logged_next with st; auto; [apply Hl|by apply grows_same]. Qed.

Lemma sched_step_logged x (st st' : SchedSys (R := RNode)) :
  (forall f, x = SRelay f -> evolves f) -> logged st -> relay_step x st = Some st' -> logged st'.
Proof.
  intros Hf Hl Hstep. pose proof Hl as (Hs & Hp & _).
  destruct x as [fault| |fault|fault e|f|]; simpl in Hstep.
  - destruct (spass st); [done|]. injection Hstep as <-. apply logged_quiet; [done|].
    intros p. destruct (LoadDueScheduled _ _ _ _); [|done]. by intros [= <-].
  - destruct (spass st) as [[now [|p todo] [i|]]|]; try done; [injection Hstep as <-; by apply logged_quiet|].
    specialize (Hp _ eq_refl). simpl in Hp.
    destruct (unmarshal (se_EventJSON p)) as [e|].
    2: { injection Hstep as <-. apply logged_quiet; [done|]. by intros ? [= <-]. }
    unfold schedPublish in Hstep.
    destruct (AddEvent _ _ _ _ _) as [err rs] eqn:Ea.
    destruct (AddEvent_kept d (ownCall (srel st)) e (mkRState _ (sdb st) _) err rs Hs Ea) as (H1 & H2 & H3).
    destruct err as [err|]; injection Hstep as <-;
      (apply logged_next with st; [done..|by intros ? [= <-]|]); [by left|].
    simpl. intros t e' [Hin|Hin]%elem_of_app Hle; [by left|right].
    apply list_elem_of_singleton in Hin as [= -> ->]. destruct (H3 eq_refl) as (_ & _ & H4).
    rewrite not_deferred in H4 by (unfold unix in Hp; lia). by apply H4.
  - destruct (spass st) as [[now todo [i|]]|]; [|done..]. injection Hstep as <-.
    apply logged_quiet; [done|]. intros p [= <-]. by apply (Hp _ eq_refl).
  - injection Hstep as <-. by apply logged_quiet.
  - injection Hstep as <-. destruct (Hf f eq_refl (srel st) Hs) as (H1 & H2 & H3).
    apply logged_next with st; auto. intros p Hps. etrans; [by apply Hp|]. apply Z.div_le_mono; [done|exact H3].
  - injection Hstep as <-. by apply logged_quiet.
Qed.

Lemma sched_run_logged xs (st st' : SchedSys (R := RNode)) :
  (forall f, SRelay f ∈ xs -> evolves f) -> logged st -> relay_run xs st = Some st' -> logged st'.
Proof.
  revert st. induction xs as [|x xs IH]; intros st Hf Hl Hr; simpl in Hr; [by simplify_eq|].
  destruct (relay_step x st) as [st1|] eqn:Es; [|done].
  apply (IH st1); [intros f Hin; apply Hf; by apply list_elem_of_further| |done].
  eapply sched_step_logged; [|exact Hl|exact Es]. intros f ->. apply Hf, list_elem_of_here.
Qed.
End scheduled.
End facts.

(** ** Properties *)

(** C7: what an accepted event is promised. Over any khatru that keeps its contract, and
    whatever the store's inserts, probes and the control database do: an event the
    assembled relay accepts has an in-scope kind and an authorized sender, and either it
    was future-dated and not of a replaced kind, and its JSON is parked under its own
    timestamp with the store untouched, or the control database is untouched and the
    event is in its tier or a stored row of its (pubkey, kind) group is at least as new.
    Nothing held by a tier or stored is lost by the call, an event refused by a gate
    changes neither store nor database, one refused by the auth or scope gate does not
    use up the sender's rate window either, and a failed call parks nothing. A call that
    passed the gates and failed in the store may have left the event in its tier all the
    same: [ReplaceEvent] reports an error when the flush behind its save fails. *)
Theorem accepted_event_is_kept {W E} `{!TierWriter W E} json cls `{!GoSort row_desc} marshal
    `{!Khatru json cls marshal} d env evt (st : RState W) err st' :
  sound (r_store st) -> AddEvent (New freshRelay d) d env evt st = (err, st') ->
  sound (r_store st') /\ grows (r_store st) (r_store st') /\
  (err = None -> Kind evt ∈ InScopeKinds /\ authorized d (pe_ctx env) /\
     if deferred json cls marshal d env evt then r_store st' = r_store st /\ parkedAs marshal evt (r_db st')
     else r_db st' = r_db st /\ landed json cls evt (r_store st')) /\
  (err ≠ None -> r_db st' = r_db st) /\
  ((runEventHooks d (pe_ctx env) evt (RejectEvent (New freshRelay d)) (r_limiter st)).1 ≠ None ->
     err ≠ None /\ r_store st' = r_store st /\ r_db st' = r_db st) /\
  (authVerdict d (pe_ctx env) ≠ None \/ RejectOutOfScope evt ≠ None -> err ≠ None /\ st' = st).
Proof.
  intros Hs Hadd. destruct (AddEvent_kept json cls marshal d env evt st err st' Hs Hadd) as (H1 & H2 & H3).
  split_and!; [done..| | | |].
  - intros He. destruct (H3 He) as (? & ? & H4). split_and!; [done..|]. destruct (deferred _ _ _ _ _ _); naive_solver.
  - intros Hn. destruct (AddEvent_db json cls marshal d env evt st err st' Hadd) as [H|[H _]]; [done|by destruct Hn].
  - destruct (runEventHooks _ _ _ _ _) as [[msg|] l] eqn:Eh; [|done]. intros _.
    destruct (AddEvent_rejects _ _ _ _ _ _ _ Eh) as [e He]. rewrite He in Hadd. by injection Hadd as <- <-.
  - intros Hno. assert (exists msg, runEventHooks d (pe_ctx env) evt (RejectEvent (New freshRelay d)) (r_limiter st)
      = (Some msg, r_limiter st)) as [msg Eh].
    { rewrite New_event_chain by apply freshRelay_hooks. destruct (authVerdict d (pe_ctx env)); [by eexists|].
      destruct (runEventHooks _ _ _ _ _).1; [by eexists|]. destruct (RejectOutOfScope evt); [by eexists|]. by destruct Hno. }
    destruct (AddEvent_rejects _ _ _ _ _ _ _ Eh) as [e He]. rewrite He in Hadd. injection Hadd as <- <-. by destruct st.
Qed.

(** A khatru that does just what the contract says, over a batcher per tier. *)
Definition demo_add (rl : Relay) (d : Deps) (env : PubEnv (list Label)) (evt : Event) (st : RState Batcher)
    : option error * RState Batcher :=
  match runEventHooks d (pe_ctx env) evt (RejectEvent rl) (r_limiter st) with
  | (Some msg, l) => (Some (Opaque msg), set_limiter l st)
  | (None, l) =>
      if isEphemeral (Kind evt) then (None, set_limiter l st)
      else runStoreHooks demo_json ∅ demo_marshal env evt
             (if isReplaceableKind (Kind evt) then onReplace rl else onStore rl) (set_limiter l st)
  end.

#[local, refine] Instance demo_khatru : Khatru demo_json ∅ demo_marshal :=
  {| freshRelay := demo_pre; replaces := isReplaceableKind; AddEvent := demo_add |}.
Proof.
  - split_and!; [constructor|done|done].
  - intros rl d env evt st msg l H. unfold demo_add. rewrite H. by eexists.
  - intros rl d env evt st l err st' H He Hr. unfold demo_add. rewrite H, He, Hr. by exists err.
Defined.

Definition demo_tiers : Store Batcher :=
  mkStore (<[TierArchive := newBatcher]> {[ TierPermanent := newBatcher ]}) newTombstoneWriter [].
Definition demo_at (now : Z) (authed : string) : PubEnv (list Label) :=
  mkPubEnv (mkCtx true authed "1.2.3.4" now) None demo_env.

Lemma demo_tiers_sound : sound demo_tiers.
Proof.
  split.
  - intros t b Hb. simpl in Hb. apply lookup_insert_Some in Hb as [[_ <-]|[_ Hb]]; [apply newBatcher_Inv; lia|].
    apply lookup_singleton_Some in Hb as [_ <-]. apply newBatcher_Inv. lia.
  - destruct new_ok. split_and!; [done..|apply new_rooted].
Qed.

(** A note stored at its time, and a note dated 50 parked at time 5 with a buffer of 10. *)
Lemma accepted_event_is_kept_witness :
  let d := mkDeps (Some (10 * Second)) true (mkBreadth 0 0 0 0) (Some (mkAccess true ∅ ∅ "" {[ "bob" ]})) "" 0 in
  let st := mkRState demo_tiers emptyDB (NewLimiter 600) in
  landed demo_json ∅ demo_due (r_store (AddEvent (New freshRelay d) d (demo_at (50 * Second) "bob") demo_due st).2) /\
  parkedAs demo_marshal demo_due (r_db (AddEvent (New freshRelay d) d (demo_at (5 * Second) "bob") demo_due st).2) /\
  (AddEvent (New freshRelay d) d (demo_at (50 * Second) "eve") demo_due st).1 ≠ None.
Proof.
  intros d st. split_and!.
  - destruct (AddEvent (New freshRelay d) d (demo_at (50 * Second) "bob") demo_due st) as [err st'] eqn:E0.
    destruct (accepted_event_is_kept demo_json ∅ demo_marshal d _ demo_due st err st' demo_tiers_sound E0) as (_ & _ & H & _).
    assert (err = None) as He by (vm_compute in E0; by injection E0 as <- _).
    apply (proj2 (proj2 (H He))).
  - destruct (AddEvent (New freshRelay d) d (demo_at (5 * Second) "bob") demo_due st) as [err st'] eqn:E0.
    destruct (accepted_event_is_kept demo_json ∅ demo_marshal d _ demo_due st err st' demo_tiers_sound E0) as (_ & _ & H & _).
    assert (err = None) as He by (vm_compute in E0; by injection E0 as <- _).
    apply (proj2 (proj2 (H He))).
  - destruct (AddEvent (New freshRelay d) d (demo_at (50 * Second) "eve") demo_due st) as [err st'] eqn:E0.
    destruct (accepted_event_is_kept demo_json ∅ demo_marshal d _ demo_due st err st' demo_tiers_sound E0) as (_ & _ & _ & _ & H & _).
    apply H. vm_compute. discriminate.
Defined.

(** C17: a scheduled event reaches the archive. In main.go the scheduler publishes through
    the relay that parked the event. If JSON decoding inverts encoding, the buffer is not
    negative, time does not run backwards and the rest of the relay only adds to the
    store, then after [Defer] accepted an event and however the calls of later passes,
    other deferrals, failures and crashes interleave: the event is in the archive (held
    by its tier, or superseded by a stored row of its group), or its row is still there
    unchanged and the next pass that starts once it is due, with at most a hundred rows
    due, has it on its list. In particular the relay never parks it a second time and
    then deletes the row. *)
Theorem scheduled_event_reaches_archive {W E} `{!TierWriter W E} json cls `{!GoSort row_desc} marshal unmarshal
    `{!Khatru json cls marshal} `{!GoSort due_first} d fault evt db db1 xs n st :
  let run := sched_run (Publisher0 := relay_publisher json cls marshal d) unmarshal in
  let step := sched_step (Publisher0 := relay_publisher json cls marshal d) unmarshal in
  (forall e b, marshal e = Ok b -> unmarshal b = Some e) ->
  (forall buffer, d_sched d = Some buffer -> 0 <= buffer) ->
  rows_decode unmarshal db -> sound (n_store n) -> Defer marshal fault evt db = (None, db1) ->
  (forall f e, SDefer f e ∈ xs -> ID e = ID evt -> e = evt) ->
  (forall f, SRelay f ∈ xs -> evolves f) ->
  run xs (mkSchedSys db1 n None []) = Some st ->
  landed json cls evt (n_store (srel st)) \/
  (parkedAs marshal evt (sdb st) /\
   forall st', CreatedAt evt <= unix (srel st) -> (length (due_rows (unix (srel st)) (sdb st)) <= dueLimit)%nat ->
     step (SLoad None) st = Some st' ->
     exists pass p, spass st' = Some pass /\ p ∈ p_todo pass /\ unmarshal (se_EventJSON p) = Some evt).
Proof.
  intros run step Hrt Hbuf Hdec Hs Hd Hids Hf Hrun.
  destruct (Defer_row marshal fault evt db db1 Hd) as (b & Em & Hrow1).
  assert (decodes unmarshal (mkSchedSys db1 n None [])) as H1.
  { split; [|done]. pose proof (Defer_decodes unmarshal Hrt fault evt db Hdec) as H1. by rewrite Hd in H1. }
  assert (logged json cls (mkSchedSys db1 n None [])) as H0.
  { split_and!; [done|done|]. intros now e Hin. by apply not_elem_of_nil in Hin. }
  pose proof (sched_run_logged json cls marshal d unmarshal Hbuf xs _ st Hf H0 Hrun) as (_ & _ & Hlog).
  destruct (sched_run_kept (Publisher0 := relay_publisher json cls marshal d) unmarshal evt b Hrt Em xs
    (mkSchedSys db1 n None []) st Hids H1 ltac:(right; by split) Hrun)
    as [(now & Hin & Hle)|[Hrow _]]; [left; by eapply Hlog|right].
  split; [by exists b|]. intros st' Hle Hroom Hstep. unfold step in Hstep. simpl in Hstep.
  destruct (spass st); [done|]. injection Hstep as <-. simpl.
  eexists _, (mkScheduledEvent (ID evt) b). split_and!; [done| |by apply Hrt].
  exact (due_listed (unix (srel st)) (sdb st) _ (ID evt) _ Hrow Hle eq_refl Hroom).
Qed.

(** Parked at time 5; the relay's clock reaches 60, a pass publishes the note and the
    process dies before the row is deleted. *)
Definition demo_later (n : RNode (W := Batcher) (E := list Label)) : RNode :=
  mkRNode (n_store n) (n_limiter n) (Z.max (n_now n) (60 * Second)) (n_ip n) (n_defer n) (n_replace n).

Definition demo_steps : list (SchedStep (R := RNode)) :=
  [SLoad None; SPublish; SRelay demo_later; SLoad None; SPublish; SCrash].

Lemma demo_steps_ok x : x ∈ demo_steps ->
  match x with SRelay f => evolves f | SDefer _ _ => False | _ => True end.
Proof.
  assert (evolves demo_later) as H.
  { intros n Hn. split_and!; [exact Hn|by apply grows_same|simpl; lia]. }
  revert x. apply Forall_forall. unfold demo_steps. repeat (apply Forall_cons; split; [exact I || exact H|]).
  apply Forall_nil_2.
Qed.

Lemma scheduled_event_reaches_archive_witness :
  let d := mkDeps (Some (10 * Second)) true (mkBreadth 0 0 0 0) None "" 0 in
  let n := mkRNode demo_tiers (NewLimiter 600) (5 * Second) "" None demo_env in
  exists st, sched_run (Publisher0 := relay_publisher demo_json ∅ demo_marshal d) demo_unmarshal
      demo_steps
      (mkSchedSys (Defer demo_marshal None demo_due emptyDB).2 n None []) = Some st /\
    (landed demo_json ∅ demo_due (n_store (srel st)) \/ parkedAs demo_marshal demo_due (sdb st)).
Proof.
  intros d n.
  destruct (sched_run (Publisher0 := relay_publisher demo_json ∅ demo_marshal d) demo_unmarshal
    demo_steps
    (mkSchedSys (Defer demo_marshal None demo_due emptyDB).2 n None [])) as [st|] eqn:Hrun;
    [|exfalso; vm_compute in Hrun; discriminate Hrun].
  exists st. split; [reflexivity|].
  destruct (scheduled_event_reaches_archive demo_json ∅ demo_marshal demo_unmarshal d None demo_due emptyDB
    (Defer demo_marshal None demo_due emptyDB).2 demo_steps
    n st) as [H|[H _]]; [..|by left|by right].
  - intros e b. unfold demo_marshal. case_decide; [|done]. intros [= <-]. subst e. reflexivity.
  - intros buffer [= <-]. unfold Second. lia.
  - by intros i row e.
  - exact demo_tiers_sound.
  - vm_compute. reflexivity.
  - intros f e Hin. destruct (demo_steps_ok _ Hin).
  - intros f Hin. exact (demo_steps_ok _ Hin).
  - exact Hrun.
Defined.
