(* ===== verification/Management.v ===== *)
(** * Managing the allow-list (internal/relay/relay.go, internal/policy/auth.go,
      cmd/archive-relay/main.go)

    The NIP-86 calls [New] wires to the access list, behind the rate limiter main.go
    puts in front of them, together with the refresh loop and other writers of the
    table. A call commits its statement and updates the cache in two steps, a refresh
    reads the table and replaces the cache in two steps, and all of these interleave. khatru authenticates the caller and dispatches the call; class [NIP86]
    states what it promises about the gates and functions it is given. *)

From S2P Require Import Prelude Nostr Config Classifier Policy Access Control Relay.

(** The management methods; [CallOther] stands for those without a function here. *)
Inductive Call :=
  | CallAllowPubKey (pk reason : string)
  | CallBanPubKey (pk reason : string)
  | CallListAllowedPubKeys
  | CallOther (name : string).

Inductive Reply :=
  | RLimited                                   (* 429 from the wrapper of main.go *)
  | RDenied (msg : string)
  | RUnsupported
  | RFailed (e : error)
  | RDone
  | RListed (rows : list (string * string)).

(** What the environment decides during a call: the fate of the statement, the time
    (ns) and the sender, the key khatru authenticated, and one order of [range a.static]. *)
Record CallEnv := mkCallEnv {
  ce_fault : option error;
  ce_now : Z;
  ce_from : HTTPFrom;
  ce_authed : string;
  ce_order : list string;
}.

(** [d.Access] is a pointer: the hooks see its current value. *)
Definition withAccess (a : Access) (d : Deps) : Deps :=
  mkDeps (d_sched d) (d_limiter d) (d_breadth d) (Some a) (d_serviceURL d) (d_defaultSinceHours d).

Definition runApiGate (authed : string) (a : Access) (h : ApiGate) : Verdict :=
  match h with
  | ApiAdmin => AdminGate authed a
  | ApiPre v => v authed
  end.

(** The first gate that refuses. *)
Fixpoint runApiGates (authed : string) (a : Access) (hs : list ApiGate) : Verdict :=
  match hs with
  | [] => None
  | h :: hs' => match runApiGate authed a h with Some msg => Some msg | None => runApiGates authed a hs' end
  end.

Section management.
Context `{!GoSort ap_oldest}.

(** How far a call gets before it takes the lock of the cache. *)
Inductive Progress :=
  | PReply (r : Reply)
  | PCommitted.                     (* the statement is committed, the cache not updated *)

Definition ofErr (r : option error * DB) : Progress * DB :=
  match r with
  | (None, db) => (PCommitted, db)
  | (Some e, db) => (PReply (RFailed e), db)
  end.

(** The functions [New] installs, up to the cache. *)
Definition callFunction (m : Management) (env : CallEnv) (c : Call) (a : Access) (db : DB) : Progress * DB :=
  match c with
  | CallAllowPubKey pk reason =>
      if hasAllowPubKey m then ofErr (AllowPubkey (ce_fault env) (ce_now env / Second) pk reason db)
      else (PReply RUnsupported, db)
  | CallBanPubKey pk _ =>
      if hasBanPubKey m then ofErr (RevokePubkey (ce_fault env) pk db) else (PReply RUnsupported, db)
  | CallListAllowedPubKeys =>
      if hasListAllowedPubKeys m then
        match ListAllowedPubkeys (ce_fault env) (ce_order env) a db with
        | Ok rows => (PReply (RListed rows), db)
        | Err e => (PReply (RFailed e), db)
        end
      else (PReply RUnsupported, db)
  | CallOther _ => (PReply RUnsupported, db)
  end.

(** And the update of the cache behind a committed statement. *)
Definition finishCall (c : Call) (a : Access) : Access :=
  match c with
  | CallAllowPubKey pk _ => cacheAllow pk a
  | CallBanPubKey pk _ => cacheRevoke pk a
  | _ => a
  end.

(** The two steps are [AllowPubkey] and [RevokePubkey] of the access list. *)
Lemma callFunction_whole m env pk note a db :
  let whole (c : Call) (r : option error * Access * DB) :=
    match callFunction m env c a db with
    | (PCommitted, db') => r = (None, finishCall c a, db')
    | (PReply (RFailed e), db') => r = (Some e, a, db')
    | _ => False
    end in
  (hasAllowPubKey m = true -> whole (CallAllowPubKey pk note) (accessAllowPubkey (ce_fault env) (ce_now env / Second) pk note a db)) /\
  (hasBanPubKey m = true -> whole (CallBanPubKey pk note) (accessRevokePubkey (ce_fault env) pk a db)).
Proof.
  unfold callFunction, accessAllowPubkey, AllowPubkey, accessRevokePubkey, RevokePubkey.
  split; intros ->; by destruct (ce_fault env).
Qed.

(** khatru's dispatch of one call: an answer of its own, or the installed function. *)
Class NIP86 := {
  dispatch : Management -> CallEnv -> Call -> Access -> option Reply;
  dispatch_denied : forall m env c a msg,
    runApiGates (ce_authed env) a (RejectAPICall m) = Some msg ->
    exists msg', dispatch m env c a = Some (RDenied msg');
  dispatch_served : forall m env c a,
    runApiGates (ce_authed env) a (RejectAPICall m) = None -> dispatch m env c a = None;
}.
Context `{!NIP86}.

(** The key a call changes. *)
Definition callKey (c : Call) : option string :=
  match c with CallAllowPubKey pk _ | CallBanPubKey pk _ => Some pk | _ => None end.

Record MSys := mkMSys {
  m_acc : Access;
  m_db : DB;
  m_limiter : Limiter;
  m_open : gmap nat Call;           (* requests between their statement and the cache *)
  m_loaded : option (gset string);  (* a refresh between its query and the cache *)
  m_log : list Call;                (* ghost: the committed changes of the table *)
  m_stale : gset string;            (* ghost: keys changed since the last refresh query *)
  m_dirty : gset string;            (* ghost: keys whose cache entry may be off, see below *)
}.

Definition openKeys (o : gmap nat Call) : gset string := list_to_set (omap (fun x => callKey x.2) (map_to_list o)).

(** A change of [pk] was committed. The cache entry may be off from now on if the cache is
    not told ([foreign]) or another call on the same key is between statement and cache. *)
Definition committed (foreign : bool) (pk : string) (c : Call) (a : Access) (db : DB) (l : Limiter)
    (o : gmap nat Call) (s : MSys) : MSys :=
  mkMSys a db l o (m_loaded s) (m_log s ++ [c]) ({[pk]} ∪ m_stale s)
    (if foreign || bool_decide (pk ∈ openKeys (m_open s)) then {[pk]} ∪ m_dirty s else m_dirty s).

Definition set_db (l : Limiter) (s : MSys) : MSys :=
  mkMSys (m_acc s) (m_db s) l (m_open s) (m_loaded s) (m_log s) (m_stale s) (m_dirty s).

(** Management request [n], through [limiter.HTTPWhen] of main.go, up to the cache. *)
Definition manage (pre : Relay) (d : Deps) (n : nat) (env : CallEnv) (c : Call) (s : MSys) : Progress * MSys :=
  match HTTPWhen true (ce_now env) (ce_from env) (m_limiter s) with
  | (Some _, l) => (PReply RLimited, set_db l s)
  | (None, l) =>
      let m := ManagementAPI (New pre (withAccess (m_acc s) d)) in
      match dispatch m env c (m_acc s) with
      | Some r => (PReply r, set_db l s)
      | None =>
          match callFunction m env c (m_acc s) (m_db s), callKey c with
          | (PCommitted, db), Some pk =>
              (PCommitted, committed false pk c (m_acc s) db l (<[n := c]> (m_open s)) s)
          | (r, _), _ => (r, set_db l s)
          end
      end
  end.

Inductive MStep :=
  | MCall (n : nat) (env : CallEnv) (c : Call)
  | MCache (n : nat)                            (* the request updates the cache and answers *)
  | MLoad (fault : option error)                (* refreshLoop, case <-t.C: the query of Refresh *)
  | MStore                                      (* rebuild *)
  | MGrant (now : Z) (pk note : string)         (* a billing script *)
  | MWithdraw (pk : string).

Definition mstep (pre : Relay) (d : Deps) (x : MStep) (s : MSys) : MSys :=
  match x with
  | MCall n env c => match m_open s !! n with None => (manage pre d n env c s).2 | Some _ => s end
  | MCache n =>
      match m_open s !! n with
      | Some c => mkMSys (finishCall c (m_acc s)) (m_db s) (m_limiter s) (delete n (m_open s)) (m_loaded s)
                    (m_log s) (m_stale s) (m_dirty s)
      | None => s
      end
  | MLoad fault =>
      match m_loaded s, LoadAllowedSet fault (m_db s) with
      | None, Ok dyn => mkMSys (m_acc s) (m_db s) (m_limiter s) (m_open s) (Some dyn) (m_log s) ∅ (m_dirty s)
      | _, _ => s
      end
  | MStore =>
      match m_loaded s with
      | Some dyn => mkMSys (rebuild dyn (m_acc s)) (m_db s) (m_limiter s) (m_open s) None (m_log s) (m_stale s)
                      (m_stale s ∪ (m_dirty s ∩ openKeys (m_open s)))
      | None => s
      end
  | MGrant now pk note =>
      committed true pk (CallAllowPubKey pk note) (m_acc s) (AllowPubkey None now pk note (m_db s)).2
        (m_limiter s) (m_open s) s
  | MWithdraw pk =>
      committed true pk (CallBanPubKey pk "") (m_acc s) (RevokePubkey None pk (m_db s)).2 (m_limiter s) (m_open s) s
  end.

Definition mrun (pre : Relay) (d : Deps) (xs : list MStep) (s : MSys) : MSys :=
  foldl (fun s x => mstep pre d x s) s xs.

Definition initM (a : Access) (db : DB) (l : Limiter) : MSys := mkMSys a db l ∅ None [] ∅ ∅.

(** What a log of calls means for the set of granted keys. *)
Definition replay (granted : gset string) (log : list Call) : gset string :=
  foldl (fun g c => match c with
                    | CallAllowPubKey pk _ => {[pk]} ∪ g
                    | CallBanPubKey pk _ => g ∖ {[pk]}
                    | _ => g
                    end) granted log.

(** ** Lemmas *)

Lemma runApiGates_app authed a hs1 hs2 :
  runApiGates authed a (hs1 ++ hs2) =
  match runApiGates authed a hs1 with Some msg => Some msg | None => runApiGates authed a hs2 end.
Proof. induction hs1 as [|h hs1 IH]; simpl; [done|]. by destruct (runApiGate authed a h). Qed.

(** Only an admin gets past the gates [New] leaves. *)
Lemma gates_admin pre d authed a :
  runApiGates authed a (RejectAPICall (ManagementAPI (New pre (withAccess a d)))) = None -> IsAdmin authed a = true.
Proof.
  simpl. rewrite runApiGates_app. destruct (runApiGates authed a _); [done|]. simpl. unfold AdminGate.
  by destruct (IsAdmin authed a).
Qed.

Lemma replay_snoc g log c :
  replay g (log ++ [c]) = match c with
                          | CallAllowPubKey pk _ => {[pk]} ∪ replay g log
                          | CallBanPubKey pk _ => replay g log ∖ {[pk]}
                          | _ => replay g log
                          end.
Proof. unfold replay. by rewrite foldl_app. Qed.

Lemma openKeys_elem o pk : pk ∈ openKeys o <-> exists n c, o !! n = Some c /\ callKey c = Some pk.
Proof.
  unfold openKeys. rewrite elem_of_list_to_set, list_elem_of_omap. split.
  - intros ([n c] & Hin%elem_of_map_to_list & Hk). by exists n, c.
  - intros (n & c & Hin & Hk). exists (n, c). by rewrite elem_of_map_to_list.
Qed.

Definition grants (c : Call) : bool := match c with CallAllowPubKey _ _ => true | _ => false end.

(** Cache and table agree on a key, or will when the one open call on it is through. *)
Record agrees (s : MSys) (pk : string) : Prop := {
  ag_cache : pk ∉ openKeys (m_open s) ->
    pk ∈ allowed (m_acc s) <-> pk ∈ static (m_acc s) \/ pk ∈ dom (allowed_pubkeys (m_db s));
  ag_one : forall n c n' c', m_open s !! n = Some c -> m_open s !! n' = Some c' ->
    callKey c = Some pk -> callKey c' = Some pk -> n' = n;
  ag_last : forall n c, m_open s !! n = Some c -> callKey c = Some pk ->
    grants c = true <-> pk ∈ dom (allowed_pubkeys (m_db s));
}.

(** The system's invariant, from an access list [a0] over a table with keys [g0]. *)
Record minv (a0 : Access) (g0 : gset string) (s : MSys) : Prop := {
  minv_config : enabled (m_acc s) = enabled a0 /\ admin (m_acc s) = admin a0 /\ static (m_acc s) = static a0;
  minv_table : dom (allowed_pubkeys (m_db s)) = replay g0 (m_log s);
  minv_static : static a0 ⊆ allowed (m_acc s);
  minv_open : forall n c, m_open s !! n = Some c -> is_Some (callKey c);
  minv_clean : forall pk, pk ∉ m_dirty s -> agrees s pk;
  minv_loaded : forall dyn pk, m_loaded s = Some dyn -> pk ∉ m_stale s ->
    pk ∈ dyn <-> pk ∈ dom (allowed_pubkeys (m_db s));
}.

(** A change of the table: what it does to the set of keys. *)
Definition changes (pk : string) (c : Call) (db db' : DB) : Prop :=
  callKey c = Some pk /\
  dom (allowed_pubkeys db') = if grants c then {[pk]} ∪ dom (allowed_pubkeys db) else dom (allowed_pubkeys db) ∖ {[pk]}.

Lemma changes_replay pk c db db' g log :
  changes pk c db db' -> dom (allowed_pubkeys db) = replay g log -> dom (allowed_pubkeys db') = replay g (log ++ [c]).
Proof. intros [Hk Hd] Hl. rewrite replay_snoc, Hd, Hl. by destruct c; simplify_eq/=. Qed.

Lemma changes_other pk c db db' q :
  changes pk c db db' -> q ≠ pk -> q ∈ dom (allowed_pubkeys db') <-> q ∈ dom (allowed_pubkeys db).
Proof. intros [_ ->] Hne. destruct (grants c); set_solver. Qed.

Lemma changes_own pk c db db' : changes pk c db db' -> grants c = true <-> pk ∈ dom (allowed_pubkeys db').
Proof. intros [_ ->]. destruct (grants c); set_solver. Qed.

(** A committed change keeps the invariant, by a call of this process (which is open from
    then on) or by another program. *)
Lemma committed_inv a0 g0 s foreign pk c db l o :
  minv a0 g0 s -> changes pk c (m_db s) db ->
  (o = m_open s /\ foreign = true \/ foreign = false /\ exists n, m_open s !! n = None /\ o = <[n := c]> (m_open s)) ->
  minv a0 g0 (committed foreign pk c (m_acc s) db l o s).
Proof.
  intros [H1 H2 H3 H4 H5 H6] Hch Ho. pose proof (proj1 Hch) as Hkey.
  assert (forall m c', o !! m = Some c' -> callKey c' ≠ Some pk -> m_open s !! m = Some c') as Hold.
  { destruct Ho as [[-> _]|(_ & m0 & Hm0 & ->)]; [done|]. intros m c' [[_ <-]|[_ ?]]%lookup_insert_Some; done. }
  assert (forall m c', m_open s !! m = Some c' -> o !! m = Some c') as Hnew.
  { destruct Ho as [[-> _]|(_ & m0 & Hm0 & ->)]; [done|]. intros m c' Hm. rewrite lookup_insert_ne; [done|congruence]. }
  split; simpl; [done|by eapply changes_replay|done| | |].
  - destruct Ho as [[-> _]|(_ & m0 & _ & ->)]; [done|]. intros m c' [[_ <-]|[_ ?]]%lookup_insert_Some; [by rewrite Hkey|eauto].
  - intros q Hq. destruct (decide (q = pk)) as [->|Hne].
    + destruct Ho as [[_ ->]|(-> & n & Hn & ->)]; [set_solver|]. simpl in Hq. case_bool_decide as Hop; [set_solver|].
      assert (forall m c', <[n := c]> (m_open s) !! m = Some c' -> callKey c' = Some pk -> m = n /\ c' = c) as Honly.
      { intros m c' [[-> <-]|[_ Hm]]%lookup_insert_Some Hc'; [done|]. destruct Hop. apply openKeys_elem. eauto. }
      split; simpl.
      * intros Hno. destruct Hno. apply openKeys_elem. exists n, c. by rewrite lookup_insert_eq.
      * intros m1 c1 m2 c2 E1 E2 K1 K2. destruct (Honly _ _ E1 K1), (Honly _ _ E2 K2). congruence.
      * intros m1 c1 E1 K1. destruct (Honly _ _ E1 K1) as [_ ->]. by apply (changes_own pk c (m_db s)).
    + assert (q ∉ m_dirty s) as Hq' by (destruct (foreign || _); set_solver). destruct (H5 q Hq') as [A1 A2 A3].
      assert (forall m c', o !! m = Some c' -> callKey c' = Some q -> m_open s !! m = Some c') as Hold'
        by (intros m c' Hm Hk; apply Hold; congruence).
      split; simpl; rewrite ?(changes_other _ _ _ _ q Hch Hne); [|eauto..].
      * intros Hno. apply A1. rewrite openKeys_elem in *. intros (m & c' & Hm & Hk). apply Hno. exists m, c'. eauto.
      * intros m c' Hm Hk. rewrite (changes_other _ _ _ _ q Hch Hne). eauto.
  - intros dyn q Hl Hq. rewrite (changes_other pk c (m_db s)); [|done|set_solver]. apply H6; [done|set_solver].
Qed.

Lemma set_db_inv a0 g0 s l : minv a0 g0 s -> minv a0 g0 (set_db l s).
Proof. intros [H1 H2 H3 H4 H5 H6]. split; simpl; try done. intros pk Hpk. by destruct (H5 pk Hpk). Qed.

Lemma callFunction_changes m env c a db db' pk :
  callFunction m env c a db = (PCommitted, db') -> callKey c = Some pk -> changes pk c db db'.
Proof.
  unfold callFunction, AllowPubkey, RevokePubkey. destruct c as [pk' note|pk' note| |]; try done; simpl;
    [destruct (hasAllowPubKey m)|destruct (hasBanPubKey m)]; try done; destruct (ce_fault env); try done;
    intros [= <-] [= ->]; (split; [done|]); simpl; by rewrite ?dom_insert_L, ?dom_delete_L.
Qed.

Lemma callFunction_quiet m env c a db r db' :
  callFunction m env c a db = (PReply r, db') -> db' = db.
Proof.
  unfold callFunction, ofErr, AllowPubkey, RevokePubkey. destruct c; simpl;
    repeat case_match; intros; simplify_eq; done.
Qed.

Lemma manage_inv pre d n env c a0 g0 s :
  minv a0 g0 s -> m_open s !! n = None -> minv a0 g0 (manage pre d n env c s).2.
Proof.
  intros HI Hn. unfold manage. destruct (HTTPWhen _ _ _ _) as [[code|] l]; [by apply set_db_inv|].
  destruct (dispatch _ env c (m_acc s)) as [r|]; [by apply set_db_inv|].
  destruct (callFunction _ env c (m_acc s) (m_db s)) as [[r|] db] eqn:Ef; [by apply set_db_inv|].
  destruct (callKey c) as [pk|] eqn:Ek; [|by apply set_db_inv].
  apply committed_inv; [done|by eapply callFunction_changes|]. right. eauto.
Qed.

Lemma finishCall_config c a :
  enabled (finishCall c a) = enabled a /\ admin (finishCall c a) = admin a /\ static (finishCall c a) = static a.
Proof. destruct c; simpl; try done. unfold cacheRevoke. by case_decide. Qed.

Lemma finishCall_allowed c a q :
  static a ⊆ allowed a ->
  q ∈ allowed (finishCall c a) <->
  (if bool_decide (callKey c = Some q) then q ∈ static a \/ grants c = true else q ∈ allowed a).
Proof.
  intros Hs. destruct c as [pk note|pk note| |]; simpl; [| |done..].
  - case_bool_decide as Hk; [injection Hk as ->|]; set_solver.
  - unfold cacheRevoke. case_bool_decide as Hk; [injection Hk as ->|]; case_decide; simpl; set_solver.
Qed.

Lemma cache_inv a0 g0 s n c :
  minv a0 g0 s -> m_open s !! n = Some c ->
  minv a0 g0 (mkMSys (finishCall c (m_acc s)) (m_db s) (m_limiter s) (delete n (m_open s)) (m_loaded s)
                (m_log s) (m_stale s) (m_dirty s)).
Proof.
  intros [H1 H2 H3 H4 H5 H6] Hn. destruct (finishCall_config c (m_acc s)) as (F1 & F2 & F3).
  assert (static (m_acc s) = static a0) as Hst by tauto.
  pose proof (finishCall_allowed c (m_acc s)) as Hf. rewrite Hst in Hf.
  split; simpl; [by rewrite F1, F2, F3|done| | | |done].
  - intros q Hq. apply Hf; [done|]. case_bool_decide; [by left|by apply H3].
  - intros m c' [_ Hm]%lookup_delete_Some. eauto.
  - intros pk Hpk. destruct (H5 pk Hpk) as [A1 A2 A3]. split; simpl.
    + intros Hno. rewrite Hf, F3, Hst by done. case_bool_decide as Hk.
      * rewrite (A3 n c Hn Hk). tauto.
      * rewrite A1, Hst; [done|]. rewrite openKeys_elem in *. intros (m & c' & Hm & Hc'). apply Hno.
        exists m, c'. split; [|done]. rewrite lookup_delete_ne; [done|]. intros <-. simplify_eq.
    + intros m1 c1 m2 c2 [_ E1]%lookup_delete_Some [_ E2]%lookup_delete_Some. eauto.
    + intros m1 c1 [_ E1]%lookup_delete_Some. eauto.
Qed.

Lemma mstep_inv pre d x a0 g0 s : minv a0 g0 s -> minv a0 g0 (mstep pre d x s).
Proof.
  intros HI. pose proof HI as [(He & Had & Hst) Ht H3 H4 H5 H6]. destruct x as [n env c|n|fault| |now pk note|pk]; simpl.
  - destruct (m_open s !! n) eqn:En; [done|]. by apply manage_inv.
  - destruct (m_open s !! n) eqn:En; [|done]. by apply cache_inv.
  - unfold LoadAllowedSet. destruct (m_loaded s), fault; try done.
    split; simpl; try done; [intros pk Hpk; by destruct (H5 pk Hpk)|]. by intros dyn pk [= <-] _.
  - destruct (m_loaded s) as [dyn|] eqn:El; [|done]. split; simpl; try done; [set_solver|].
    intros pk Hpk. split; simpl.
    + intros _. rewrite elem_of_union, (H6 dyn pk) by (done || set_solver). done.
    + intros n c n' c' Hn Hn' Hc Hc'. assert (pk ∈ openKeys (m_open s)) as Ho by (apply openKeys_elem; eauto).
      destruct (H5 pk ltac:(set_solver)) as [_ A2 _]. eauto.
    + intros n c Hn Hc. assert (pk ∈ openKeys (m_open s)) as Ho by (apply openKeys_elem; eauto).
      destruct (H5 pk ltac:(set_solver)) as [_ _ A3]. eauto.
  - apply committed_inv; [done| |by left]. split; [done|]. simpl. by rewrite dom_insert_L.
  - apply committed_inv; [done| |by left]. split; [done|]. simpl. by rewrite dom_delete_L.
Qed.

Lemma mrun_inv pre d xs a0 g0 s : minv a0 g0 s -> minv a0 g0 (mrun pre d xs s).
Proof.
  unfold mrun. revert s. induction xs as [|x xs IH]; intros s HI; simpl; [done|]. by apply IH, mstep_inv.
Qed.

(** A caller who is not an admin changes nothing but its rate window. *)
Lemma manage_stranger pre d n env c s :
  IsAdmin (ce_authed env) (m_acc s) = false ->
  (exists l, (manage pre d n env c s).2 = set_db l s) /\
  (forall rows, (manage pre d n env c s).1 ≠ PReply (RListed rows)).
Proof.
  intros Hn. unfold manage. destruct (HTTPWhen true _ _ _) as [[code|] l]; [split; [by exists l|done]|].
  set (m := ManagementAPI _).
  destruct (runApiGates (ce_authed env) (m_acc s) (RejectAPICall m)) as [msg|] eqn:Eg.
  - destruct (dispatch_denied m env c (m_acc s) msg Eg) as [msg' ->]. split; [by exists l|done].
  - unfold m in Eg. by rewrite (gates_admin _ _ _ _ Eg) in Hn.
Qed.

(** A listing names the granted keys and the static ones. *)
Lemma manage_listed pre d n env c s rows :
  (manage pre d n env c s).1 = PReply (RListed rows) ->
  list_to_set (map fst rows) = dom (allowed_pubkeys (m_db s)) ∪ list_to_set (C := gset string) (ce_order env).
Proof.
  unfold manage. destruct (HTTPWhen true _ _ _) as [[code|] l]; [done|]. set (m := ManagementAPI _).
  destruct (runApiGates (ce_authed env) (m_acc s) (RejectAPICall m)) as [msg|] eqn:Eg.
  { by destruct (dispatch_denied m env c (m_acc s) msg Eg) as [msg' ->]. }
  rewrite (dispatch_served m env c _ Eg).
  destruct c as [| | |name]; simpl; unfold AllowPubkey, RevokePubkey, ListAllowedPubkeys, ListAllowed;
    [destruct (ce_fault env); done..| |done].
  destruct (ce_fault env); [done|]. simpl. intros [= <-]. apply set_eq. intros x.
  rewrite elem_of_list_to_set, elem_of_union, elem_of_list_to_set, map_app, elem_of_app, !map_map. simpl.
  rewrite map_id, elem_of_dom. f_equiv. split.
  - intros (row & -> & Hin)%list_elem_of_fmap. rewrite go_sort_elem_of in Hin.
    apply list_elem_of_fmap in Hin as ([k v] & -> & Hkv). apply elem_of_map_to_list in Hkv. simpl. by rewrite Hkv.
  - intros [v Hv]. apply list_elem_of_fmap. exists (mkAllowedPubkey x v.1 v.2). split; [done|].
    rewrite go_sort_elem_of. apply list_elem_of_fmap. exists (x, v). split; [done|]. by apply elem_of_map_to_list.
Qed.

(** Steps that change no key. *)
Definition quiet (x : MStep) : bool :=
  match x with MCall _ _ (CallAllowPubKey _ _ | CallBanPubKey _ _) | MGrant _ _ _ | MWithdraw _ | MStore => false | _ => true end.

Lemma quiet_keeps pre d xs s dyn :
  Forall (fun x => quiet x = true) xs -> m_loaded s = Some dyn -> m_open s = ∅ ->
  let s' := mrun pre d xs s in m_loaded s' = Some dyn /\ m_open s' = ∅ /\ m_stale s' = m_stale s.
Proof.
  intros Hq. revert s. induction Hq as [|x xs Hx _ IH]; intros s Hl Ho; [done|].
  change (mrun pre d (x :: xs) s) with (mrun pre d xs (mstep pre d x s)).
  assert (m_loaded (mstep pre d x s) = Some dyn /\ m_open (mstep pre d x s) = ∅ /\ m_stale (mstep pre d x s) = m_stale s)
    as (H1 & H2 & H3).
  { destruct x as [n env c|n|fault| |now pk note|pk]; simpl in Hx |- *; try done.
    - rewrite Ho, lookup_empty. unfold manage. destruct (HTTPWhen _ _ _ _) as [[code|] l]; [done|].
      destruct (dispatch _ _ _ _); [done|]. destruct (callFunction _ _ _ _ _) as [[r|] db]; [done|].
      by destruct c.
    - by rewrite Ho, lookup_empty.
    - by rewrite Hl. }
  destruct (IH _ H1 H2) as (G1 & G2 & G3). simpl. split_and!; [done|done|congruence].
Qed.
End management.

(** ** Properties *)

(** C27: the allow-list is the log of acknowledged changes. Over any khatru that keeps its
    contract, from [NewAccess] through any interleaving of management calls by anyone
    (each commits its statement and updates the cache in two steps), refreshes (query and
    replacement of the cache in two steps) and writes of other programs, failing or not:
    the table holds exactly the keys the committed changes leave, and static keys are
    always allowed. For every key that is not being changed right now, the in-memory list
    agrees with static keys and table, unless the key is dirty: another program changed
    it, two calls on it overlapped, or it changed while a refresh was between its query
    and the cache. A refresh with no call under way at its query and no change up to its
    replacement of the cache leaves no key dirty, so the list is then exactly the static
    keys and the table. Where list and table agree that a key is out, the publish hooks
    refuse it. A caller who is not a configured admin changes nothing but its own rate
    window and sees no listing, a listing names the static keys and the table, and the
    admin set never changes. *)
Theorem allow_list_is_admin_log `{!GoSort ap_oldest} `{!NIP86} hostOf en allow adm url db a pre d lim xs :
  NewAccess hostOf None en allow adm url db = Ok a -> stateless (RejectEvent pre) ->
  let s := mrun pre d xs (initM a db lim) in
  let granted := replay (dom (allowed_pubkeys db)) (m_log s) in
  admin (m_acc s) = toSet adm /\ dom (allowed_pubkeys (m_db s)) = granted /\ toSet allow ⊆ allowed (m_acc s) /\
  (forall pk, pk ∉ m_dirty s -> pk ∉ openKeys (m_open s) ->
     (pk ∈ allowed (m_acc s) <-> pk ∈ toSet allow ∪ granted) /\
     (forall ip now evt l, en = true -> pk ∉ toSet allow ∪ granted ->
        let d' := withAccess (m_acc s) d in
        (runEventHooks d' (mkCtx true pk ip now) evt (RejectEvent (New pre d')) l).1 ≠ None)) /\
  (forall ys, m_open s = ∅ -> m_loaded s = None -> Forall (fun x => quiet x = true) ys ->
     let s' := mrun pre d (MLoad None :: ys ++ [MStore]) s in
     m_dirty s' = ∅ /\ allowed (m_acc s') = toSet allow ∪ dom (allowed_pubkeys (m_db s'))) /\
  (forall n env c, ce_authed env ∉ toSet adm ->
     (exists l, (manage pre d n env c s).2 = set_db l s) /\
     forall rows, (manage pre d n env c s).1 ≠ PReply (RListed rows)) /\
  (forall n env c rows, list_to_set (ce_order env) = toSet allow ->
     (manage pre d n env c s).1 = PReply (RListed rows) -> list_to_set (map fst rows) = toSet allow ∪ granted).
Proof.
  intros Hnew Hpre s granted. unfold NewAccess, LoadAllowedSet in Hnew. injection Hnew as Ha.
  assert (static a = toSet allow) as Hsa by by subst a. assert (enabled a = en) as Hen by by subst a.
  assert (minv a (dom (allowed_pubkeys db)) s) as HI.
  { apply mrun_inv. split; simpl; try done; [subst a; set_solver|]. intros pk _. split; simpl; try done. subst a. set_solver. }
  pose proof HI as [(He & Had & Hst) Ht Hs Ho Hc _]. fold granted in Ht.
  assert (admin (m_acc s) = toSet adm) as Hadm by (rewrite Had; by subst a). rewrite Hsa in Hs, Hst.
  split_and!; [done|done|done| | | |].
  - intros pk Hd Hop. assert (pk ∈ allowed (m_acc s) <-> pk ∈ toSet allow ∪ granted) as Hiff.
    { destruct (Hc pk Hd) as [A1 _ _]. rewrite (A1 Hop), Hst, Ht. set_solver. }
    split; [done|]. intros ip now evt l -> Hpk d'. rewrite New_event_chain by done. unfold authVerdict. simpl.
    rewrite He, Hen. unfold gate, Allowed. rewrite He, Hen. simpl.
    destruct (String.eqb pk ""); [done|]. rewrite bool_decide_eq_false_2; [done|]. by rewrite Hiff.
  - intros ys Hop Hl Hq s'. unfold s'. rewrite app_comm_cons. unfold mrun. rewrite foldl_app. simpl.
    rewrite Hl. set (s1 := mkMSys _ _ _ _ _ _ _ _). fold (mrun pre d ys s1).
    destruct (quiet_keeps pre d ys s1 _ Hq eq_refl Hop) as (G1 & G2 & G3).
    assert (minv a (dom (allowed_pubkeys db)) (mrun pre d ys s1)) as HI1.
    { apply mrun_inv. pose proof (mstep_inv pre d (MLoad None) _ _ _ HI) as HL. simpl in HL. by rewrite Hl in HL. }
    destruct HI1 as [(_ & _ & Hst1) _ _ _ _ Hl1]. rewrite G1. simpl.
    rewrite G2, G3. split.
    + unfold openKeys. simpl. set_solver.
    + apply set_eq. intros q. rewrite !elem_of_union, Hst1, Hsa, (Hl1 _ q G1); [done|]. rewrite G3. simpl. set_solver.
  - intros n env c Hn. apply manage_stranger. unfold IsAdmin. rewrite Hadm. by apply bool_decide_eq_false_2.
  - intros n env c rows Hord Hl. rewrite (manage_listed _ _ _ _ _ _ _ Hl), Ht, Hord. set_solver.
Qed.

(** A dispatcher that does just what the contract says. *)
#[local, refine] Instance demo_nip86 : NIP86 :=
  {| dispatch := fun m env c a =>
       match runApiGates (ce_authed env) a (RejectAPICall m) with
       | Some msg => Some (RDenied msg)
       | None => None
       end |}.
Proof.
  - intros m env c a msg Hg. rewrite Hg. by exists msg.
  - intros m env c a Hg. by rewrite Hg.
Defined.

Definition demo_by (now : Z) (authed : string) : CallEnv := mkCallEnv None now (mkFrom "" "1.1.1.1:99") authed [].

(** The operator grants bob, eve tries to grant herself, a script grants carol, the list
    is refreshed, bob is banned again. *)
Definition demo_management : list MStep :=
  [MCall 1 (demo_by 0 "op") (CallAllowPubKey "bob" "paid"); MCache 1;
   MCall 2 (demo_by 1 "eve") (CallAllowPubKey "eve" "");
   MGrant 2 "carol" ""; MLoad (Some (Opaque "busy")); MStore; MLoad None; MStore;
   MCall 3 (demo_by 3 "op") (CallBanPubKey "bob" ""); MCache 3].

Lemma allow_list_is_admin_log_witness :
  exists a, NewAccess (fun _ => None) None true ["dan"] ["op"] "" emptyDB = Ok a /\
    let s := mrun demo_pre demo_deps demo_management (initM a emptyDB (NewLimiter 600)) in
    m_log s = [CallAllowPubKey "bob" "paid"; CallAllowPubKey "carol" ""; CallBanPubKey "bob" ""] /\
    ("bob" ∈ allowed (m_acc s) <-> "bob" ∈ toSet ["dan"] ∪ replay (dom (allowed_pubkeys emptyDB)) (m_log s)).
Proof.
  eexists. split; [reflexivity|]. intros s. split; [vm_compute; reflexivity|].
  destruct (allow_list_is_admin_log (fun _ => None) true ["dan"] ["op"] "" emptyDB _ demo_pre demo_deps
    (NewLimiter 600) demo_management eq_refl (Forall_nil_2 _)) as (_ & _ & _ & H & _).
  apply H; apply (bool_decide_unpack _); vm_compute; exact I.
Defined.

(** Overlapping calls can leave the cache wrong. A grant and a ban of the same key commit
    in one order and reach the cache in the other: the table no longer has the key, both
    calls were acknowledged, and the key keeps its access until the next refresh. *)
Theorem overlapping_calls_diverge :
  let a := mkAccess true {[ "op" ]} ∅ "" ∅ in
  let s := mrun demo_pre demo_deps
    [MCall 1 (demo_by 0 "op") (CallAllowPubKey "bob" ""); MCall 2 (demo_by 1 "op") (CallBanPubKey "bob" "");
     MCache 2; MCache 1] (initM a emptyDB (NewLimiter 600)) in
  m_open s = ∅ /\ dom (allowed_pubkeys (m_db s)) = ∅ /\ gate true "bob" (m_acc s) = None.
Proof. split_and!; by vm_compute. Qed.
