(* ===== verification/Crawler.v ===== *)
(** * Firehose crawler (internal/crawler/crawler.go)

    One source's goroutine as a state machine: connect with backoff, subscribe
    with a backfill-aware [since], then the select loop. The websocket is
    go-nostr's: what it answers is the input of a step. [log] is a ghost record of
    the subscriptions, against which coverage is stated. Instants are unix
    nanoseconds; the zero [time.Time] is [None]. *)

From S2P Require Import Prelude Nostr Config Classifier Control Dedup Ingest.

Definition reconnectOverlap : Z := 2 * Hour.
Definition firehoseIdle : Z := 15 * Minute.

Definition nextBackoff (d : Z) : Z :=
  let d2 := d * 2 in if 60 * Second <? d2 then 60 * Second else d2.

Definition sinceForReconnect (backfillComplete : bool) (lastDisconnect : option Z) : option Z :=
  match backfillComplete, lastDisconnect with
  | true, Some t =>
      let sec := (t - reconnectOverlap) / Second in
      if sec <=? 0 then None else Some sec
  | _, _ => None
  end.

(** Ghost: one subscription, with the [since] it asked for, when it started,
    whether its EOSE arrived, and when it ended. *)
Record SubRec := mkSubRec { sr_since : option Z; sr_start : Z; sr_eose : bool; sr_stop : Z }.

(** Where the goroutine is: at the head of the reconnect loop, in the select loop
    of a subscription (its filter, when it started, whether it has seen EOSE), or
    returned. *)
Inductive Loc :=
  | Head
  | Live (filter : Filter) (started : Z) (eosed : bool)
  | Returned.

Record Source (S : Type) := mkSource {
  loc : Loc;
  backoff_ : Z;
  backfillComplete : bool;
  lastDisconnect : option Z;
  idleAt : Z;                  (* when the idle timer fires *)
  ingested : Z;
  skipped : Z;
  saver : S;
  dedup_ : Dedup;
  clock : Z;                   (* the last instant observed *)
  slept : list Z;              (* ghost: the waits of failed connects *)
  log : list SubRec;           (* ghost *)
}.
Arguments mkSource {S}.
Arguments loc {S}. Arguments backoff_ {S}. Arguments backfillComplete {S}. Arguments lastDisconnect {S}.
Arguments idleAt {S}. Arguments ingested {S}. Arguments skipped {S}. Arguments saver {S}.
Arguments dedup_ {S}. Arguments clock {S}. Arguments slept {S}. Arguments log {S}.

(** What the network and the timers hand to the goroutine. *)
Inductive Input :=
  | CtxDone (now : Z)
  | ConnectFails (now : Z)
  | SubscribeFails (now : Z)
  | Subscribed (now : Z)
  | Heartbeat
  | IdleFires (now : Z)
  | EndOfStoredEvents
  | ClosedReason (now : Z)
  | EventsClosed (now : Z)
  | EventArrives (now : Z) (ev : Event).

Definition at_ (l : Input) : option Z :=
  match l with
  | CtxDone t | ConnectFails t | SubscribeFails t | Subscribed t | IdleFires t
  | ClosedReason t | EventsClosed t | EventArrives t _ => Some t
  | Heartbeat | EndOfStoredEvents => None
  end.

Section source.
Context {S : Type} `{!EventSaver S}.
Variable memCap : nat.
Variable verify : Event -> bool * bool.

Definition newSource (s : S) (d : Dedup) (now : Z) : Source S :=
  mkSource Head Second false None (now + firehoseIdle) 0 0 s d now [] [].

(** The filter of the next subscription. *)
Definition nextFilter (st : Source S) : Filter :=
  set_fSince (mkFilter [] InScopeKinds [] [] None None 0)
    (sinceForReconnect (backfillComplete st) (lastDisconnect st)).

Definition connectFailed (now : Z) (st : Source S) : Source S :=
  mkSource Head (nextBackoff (backoff_ st)) (backfillComplete st) (lastDisconnect st) (idleAt st)
    (ingested st) (skipped st) (saver st) (dedup_ st) now (slept st ++ [backoff_ st]) (log st).

Definition subscribeFailed (now : Z) (st : Source S) : Source S :=
  mkSource Head Second (backfillComplete st) (lastDisconnect st) (idleAt st)
    (ingested st) (skipped st) (saver st) (dedup_ st) now (slept st) (log st).

Definition subscribed (now : Z) (st : Source S) : Source S :=
  mkSource (Live (nextFilter st) now false) Second (backfillComplete st) (lastDisconnect st)
    (now + firehoseIdle) 0 0 (saver st) (dedup_ st) now (slept st) (log st).

(** Leaving the select loop: [lastDisconnect = time.Now()]. *)
Definition disconnect (next : Loc) (f : Filter) (started : Z) (eosed : bool) (now : Z) (st : Source S)
    : Source S :=
  mkSource next (backoff_ st) (backfillComplete st) (Some now) (idleAt st)
    (ingested st) (skipped st) (saver st) (dedup_ st) now (slept st)
    (log st ++ [mkSubRec (fSince f) started eosed now]).

Definition onEOSE (f : Filter) (started : Z) (st : Source S) : Source S :=
  mkSource (Live f started true) (backoff_ st) true (lastDisconnect st) (idleAt st)
    (ingested st) (skipped st) (saver st) (dedup_ st) (clock st) (slept st) (log st).

(** [resetIdle()], then [c.handle]: one [ingest], counted. *)
Definition onEvent (now : Z) (ev : Event) (st : Source S) : Source S :=
  let '(ok, s', d') := ingestStep memCap verify now ev (saver st) (dedup_ st) in
  mkSource (loc st) (backoff_ st) (backfillComplete st) (lastDisconnect st) (now + firehoseIdle)
    (if ok then ingested st + 1 else ingested st) (if ok then skipped st else skipped st + 1)
    s' d' now (slept st) (log st).

(** [runSource]: [None] when the input cannot happen in this place. *)
Definition runSource (l : Input) (st : Source S) : option (Source S) :=
  if match at_ l with Some t => t <? clock st | None => false end then None
  else
    match loc st, l with
    | Head, CtxDone now =>
        Some (mkSource Returned (backoff_ st) (backfillComplete st) (lastDisconnect st) (idleAt st)
                (ingested st) (skipped st) (saver st) (dedup_ st) now (slept st) (log st))
    | Head, ConnectFails now => Some (connectFailed now st)
    | Head, SubscribeFails now => Some (subscribeFailed now st)
    | Head, Subscribed now => Some (subscribed now st)
    | Live f started eosed, CtxDone now => Some (disconnect Returned f started eosed now st)
    | Live _ _ _, Heartbeat => Some st
    | Live f started eosed, IdleFires now =>
        if idleAt st <=? now then Some (disconnect Head f started eosed now st) else None
    | Live f started eosed, EndOfStoredEvents => if eosed then None else Some (onEOSE f started st)
    | Live f started eosed, ClosedReason now
    | Live f started eosed, EventsClosed now => Some (disconnect Head f started eosed now st)
    | Live _ _ _, EventArrives now ev => Some (onEvent now ev st)
    | _, _ => None
    end.

Fixpoint runInputs (ls : list Input) (st : Source S) : option (Source S) :=
  match ls with
  | [] => Some st
  | l :: ls' => match runSource l st with Some st' => runInputs ls' st' | None => None end
  end.

(** [Run]: one goroutine per configured source, none when there are none. *)
Definition Run (sources : list string) (s : S) (d : Dedup) (now : Z) : list (string * Source S) :=
  map (fun url => (url, newSource s d now)) sources.

(** ** Coverage *)

(** An upstream event that reached the relay at instant [a] with timestamp [c] is
    served by a subscription that was open then, or by one that started later,
    asked far enough back, and got as far as its EOSE. Whether the relay really sends
    what an open subscription asks for is outside the crawler: a connection that hangs
    counts as open until the goroutine notices. *)
Definition served (a c : Z) (r : SubRec) : Prop :=
  sr_start r <= a <= sr_stop r \/
  (a <= sr_start r /\ sr_eose r = true /\ match sr_since r with None => True | Some s => s <= c end).

(** The event was at most [reconnectOverlap] old when the relay got it. *)
Definition fresh_at (a c : Z) : Prop := a - reconnectOverlap <= c * Second.

(** Every subscription that resumed from a [since] reached its EOSE. *)
Definition catchups_complete (rs : list SubRec) : Prop :=
  Forall (fun r => sr_since r ≠ None -> sr_eose r = true) rs.

Definition covered_to (t : Z) (rs : list SubRec) : Prop :=
  forall a c, a <= t -> fresh_at a c -> exists r, r ∈ rs /\ served a c r.

Definition eosed_once (rs : list SubRec) : Prop := exists r, r ∈ rs /\ sr_eose r = true.

Record src_ok (st : Source S) : Prop := {
  so_backoff : Second <= backoff_ st <= 60 * Second;
  so_slept : Forall (fun d => Second <= d <= 60 * Second) (slept st);
  so_eose : backfillComplete st = true <->
    eosed_once (log st) \/ exists f t, loc st = Live f t true;
  so_epoch : reconnectOverlap + Second <= clock st;
  so_disc : log st ≠ [] -> lastDisconnect st ≠ None;
  so_past : forall t, lastDisconnect st = Some t -> reconnectOverlap + Second <= t <= clock st;
  so_live : forall f t e, loc st = Live f t e ->
    (forall t', lastDisconnect st = Some t' -> t' <= t) /\
    (fSince f = None -> ~ eosed_once (log st)) /\
    (forall s, fSince f = Some s -> exists t', lastDisconnect st = Some t' /\
       s = (t' - reconnectOverlap) / Second /\ eosed_once (log st));
  so_cover : catchups_complete (log st) -> forall t, lastDisconnect st = Some t ->
    eosed_once (log st) -> covered_to t (log st);
}.

Lemma nextBackoff_range d : Second <= d <= 60 * Second -> Second <= nextBackoff d <= 60 * Second.
Proof. unfold nextBackoff, Second. intros. case_match eqn:E; [lia|]. apply Z.ltb_ge in E. lia. Qed.

Lemma since_complete t :
  reconnectOverlap + Second <= t ->
  sinceForReconnect true (Some t) = Some ((t - reconnectOverlap) / Second).
Proof.
  intros Ht. unfold sinceForReconnect.
  assert (1 <= (t - reconnectOverlap) / Second) as H.
  { apply Z.div_le_lower_bound; unfold Second in *; lia. }
  by rewrite (proj2 (Z.leb_gt _ _)) by lia.
Qed.

Lemma eosed_once_app rs r : eosed_once (rs ++ [r]) <-> eosed_once rs \/ sr_eose r = true.
Proof.
  unfold eosed_once. split.
  - intros (r' & [H|H%list_elem_of_singleton]%elem_of_app & E); [left; eauto|right; by subst].
  - intros [(r' & H & E)|E]; [exists r'|exists r]; rewrite elem_of_app; split; auto.
    right. by apply list_elem_of_singleton.
Qed.

Lemma covered_app t rs r : covered_to t rs -> covered_to t (rs ++ [r]).
Proof. intros H a c Ha Hf. destruct (H a c Ha Hf) as (r' & Hr & Hs). exists r'. rewrite elem_of_app. auto. Qed.

Lemma newSource_ok s d now : reconnectOverlap + Second <= now -> src_ok (newSource s d now).
Proof.
  intros Hn. split; simpl; try done; try (unfold Second; lia).
  split; [done|]. intros [(r & Hr & _)|(f & t & H)]; [by apply elem_of_nil in Hr|done].
Qed.

(** The end of a subscription extends the coverage to the moment it ended. *)
Lemma disconnect_covers st f started eosed now :
  src_ok st -> loc st = Live f started eosed -> clock st <= now ->
  let rs := log st ++ [mkSubRec (fSince f) started eosed now] in
  catchups_complete rs -> eosed_once rs -> covered_to now rs.
Proof.
  intros Hok Hloc Hnow rs Hcc Heo a c Ha Hf.
  destruct (so_live _ Hok _ _ _ Hloc) as (Hle & Hnone & Hsome).
  set (r := mkSubRec (fSince f) started eosed now) in rs.
  assert (r ∈ rs) as Hr by (apply elem_of_app; right; by apply list_elem_of_singleton).
  apply eosed_once_app in Heo. apply Forall_app in Hcc as [Hcc Hlast%Forall_inv]. simpl in *.
  destruct (decide (started <= a)) as [Hin|Hout]; [exists r; split; [done|left; simpl; lia]|].
  destruct (fSince f) as [s|] eqn:Es.
  - destruct (Hsome s eq_refl) as (t' & Et & -> & Heo').
    destruct (decide (a <= t')) as [Hold|Hnew].
    + destruct (so_cover _ Hok Hcc t' Et Heo' a c Hold Hf) as (r' & Hr' & Hs).
      exists r'. split; [by apply elem_of_app; left|done].
    + exists r. split; [done|right; simpl]. split_and!; [lia|by apply Hlast|].
      transitivity ((c * Second) / Second); [|by rewrite Z.div_mul].
      apply Z.div_le_mono; [done|]. unfold fresh_at in Hf. lia.
  - destruct Heo as [Heo|Heo]; [by destruct (Hnone eq_refl Heo)|].
    exists r. split; [done|right; simpl]. split_and!; [lia|done|done].
Qed.

Lemma disconnect_ok next st f started eosed now :
  src_ok st -> loc st = Live f started eosed -> clock st <= now ->
  (next = Head \/ next = Returned) -> src_ok (disconnect next f started eosed now st).
Proof.
  intros Hok Hloc Hnow Hnext. pose proof (disconnect_covers st f started eosed now Hok Hloc Hnow) as Hc.
  destruct Hok as [Hb Hsl He Hep Hd Hp Hl Hcov].
  split; simpl; try done; try lia.
  - rewrite eosed_once_app. simpl. rewrite He, Hloc. split.
    + intros [?|(f' & t' & [= -> -> ->])]; auto.
    + intros [[?| ->]|(f' & t' & ?)]; [auto|right; eauto|]. destruct Hnext; congruence.
  - intros t [= <-]. lia.
  - intros f' t e E. destruct Hnext; congruence.
  - intros Hcc t [= <-]. by apply Hc.
Qed.

(** A step that leaves the subscription and the reconnect state alone. *)
Lemma frame_ok st st' :
  src_ok st -> loc st' = loc st \/ loc st = Head /\ loc st' = Returned ->
  backfillComplete st' = backfillComplete st -> lastDisconnect st' = lastDisconnect st ->
  log st' = log st -> clock st <= clock st' ->
  Second <= backoff_ st' <= 60 * Second ->
  Forall (fun d => Second <= d <= 60 * Second) (slept st') -> src_ok st'.
Proof.
  intros [Hb Hsl He Hep Hd Hp Hl Hcov] Hloc E1 E2 E3 Hclk Hb' Hsl'.
  split; rewrite ?E1, ?E2, ?E3; try done; try lia.
  - rewrite He. destruct Hloc as [->|[-> ->]]; [done|].
    split; (intros [?|(f & t & ?)]; [by left|done]).
  - intros t Ht. specialize (Hp t Ht). lia.
  - destruct Hloc as [->|[_ ->]]; [done|done].
Qed.

Lemma subscribed_ok st now : src_ok st -> loc st = Head -> clock st <= now -> src_ok (subscribed now st).
Proof.
  intros [Hb Hsl He Hep Hd Hp Hl Hcov] Hloc Hnow.
  assert (backfillComplete st = true <-> eosed_once (log st)) as He'.
  { rewrite He, Hloc. split; [intros [?|(f & t & ?)]; [done|congruence]|auto]. }
  split; simpl; try done; try lia; try (unfold Second; lia).
  - rewrite He'. split; [auto|intros [?|(f & t & ?)]; [done|congruence]].
  - intros t Ht. specialize (Hp t Ht). lia.
  - intros f t e [= <- <- <-]. simpl. split_and!.
    + intros t' Ht. specialize (Hp t' Ht). lia.
    + intros Hs Heo. assert (log st ≠ []) as Hne%Hd by (destruct Heo as (r & Hr & _); by intros E; rewrite E in Hr; apply elem_of_nil in Hr).
      destruct (lastDisconnect st) as [t'|]; [|done]. apply He' in Heo.
      rewrite Heo, since_complete in Hs; [done|]. by specialize (Hp t' eq_refl) as [? _].
    + intros s Hs. destruct (lastDisconnect st) as [t'|]; [|by destruct (backfillComplete st)].
      destruct (backfillComplete st); [|done]. exists t'. split; [done|].
      rewrite since_complete in Hs by (by specialize (Hp t' eq_refl) as [? _]).
      split; [congruence|by apply He'].
Qed.

Lemma onEOSE_ok st f started : src_ok st -> loc st = Live f started false -> src_ok (onEOSE f started st).
Proof.
  intros [Hb Hsl He Hep Hd Hp Hl Hcov] Hloc. split; simpl; try done.
  - split; [intros _; right; eauto|done].
  - intros f' t e [= <- <- <-]. by apply (Hl f started false).
Qed.

Lemma src_step_ok l st st' : src_ok st -> runSource l st = Some st' -> src_ok st'.
Proof.
  intros Hok. unfold runSource.
  destruct (match at_ l with Some t => t <? clock st | None => false end) eqn:Ec; [done|].
  destruct Hok as [Hb Hsl He Hep Hd Hp Hl Hcov] eqn:HH; clear HH.
  destruct (loc st) as [|f started eosed|] eqn:Hloc; destruct l as [t|t|t|t| |t| |t|t|t ev]; simpl in *;
    try apply Z.ltb_ge in Ec; intros Hst; try done; simplify_eq.
  - by apply (frame_ok st); simpl; auto.
  - apply (frame_ok st); simpl; auto; [by apply nextBackoff_range|by apply Forall_app_2; [|constructor]].
  - apply (frame_ok st); simpl; auto. unfold Second; lia.
  - by apply subscribed_ok.
  - apply disconnect_ok; auto.
  - done.
  - case_match; [|done]. simplify_eq. apply disconnect_ok; auto.
  - destruct eosed; [done|]. simplify_eq. by apply onEOSE_ok.
  - apply disconnect_ok; auto.
  - apply disconnect_ok; auto.
  - unfold onEvent. destruct (ingestStep memCap verify t ev (saver st) (dedup_ st)) as [[ok s'] d'].
    apply (frame_ok st); simpl; auto.
Qed.

Lemma src_run_ok ls st st' : src_ok st -> runInputs ls st = Some st' -> src_ok st'.
Proof.
  revert st. induction ls as [|l ls IH]; intros st Hok; simpl; [by intros [= <-]|].
  destruct (runSource l st) as [st1|] eqn:E; [|done]. apply IH. by eapply src_step_ok.
Qed.
End source.

Lemma nextBackoff_pow n :
  nextBackoff (Z.min (60 * Second) (Second * 2 ^ Z.of_nat n)) =
  Z.min (60 * Second) (Second * 2 ^ Z.of_nat (S n)).
Proof.
  rewrite Nat2Z.inj_succ, Z.pow_succ_r by lia. unfold nextBackoff, Second.
  set (x := 2 ^ Z.of_nat n). case_match eqn:E; [apply Z.ltb_lt in E|apply Z.ltb_ge in E]; lia.
Qed.

Lemma connect_failures {S} `{!EventSaver S} memCap verify ts (st st' : Source S) n :
  backoff_ st = Z.min (60 * Second) (Second * 2 ^ Z.of_nat n) ->
  runInputs memCap verify (map ConnectFails ts) st = Some st' ->
  backoff_ st' = Z.min (60 * Second) (Second * 2 ^ Z.of_nat (n + length ts)) /\
  slept st' = slept st ++ map (fun k => Z.min (60 * Second) (Second * 2 ^ Z.of_nat k)) (seq n (length ts)).
Proof.
  revert st n. induction ts as [|t ts IH]; intros st n Hb; simpl.
  { intros [= <-]. by rewrite Nat.add_0_r, app_nil_r. }
  unfold runSource. simpl. destruct (t <? clock st); [done|]. destruct (loc st); try done.
  intros Hr. destruct (IH (connectFailed t st) (Datatypes.S n)) with (2 := Hr) as [H1 H2]; [simpl; rewrite Hb; apply nextBackoff_pow|].
  split; [rewrite H1; do 4 f_equal; lia|]. rewrite H2. simpl. by rewrite <-app_assoc, Hb.
Qed.

(** ** Properties *)

(** C15: the firehose leaves no hole. At every reachable point of a source's
    goroutine, if each subscription that resumed from a [since] got as far as its
    EOSE, then every event that reached the upstream relay up to the last disconnect
    while at most [reconnectOverlap] old was served by one of the subscriptions made:
    it arrived while one was open, or a later one asked far enough back and completed. *)
Theorem firehose_leaves_no_hole {S} `{!EventSaver S} memCap verify (s : S) d t0 ls st t a c :
  reconnectOverlap + Second <= t0 ->
  runInputs memCap verify ls (newSource s d t0) = Some st ->
  catchups_complete (log st) -> eosed_once (log st) -> lastDisconnect st = Some t ->
  a <= t -> fresh_at a c -> exists r, r ∈ log st /\ served a c r.
Proof.
  intros H0 Hr Hcc Heo Ht Ha Hf. eapply (so_cover st); try done.
  eapply src_run_ok; [|done]. by apply newSource_ok.
Qed.

(** Unfinished history is restarted, finished history resumed. The next
    subscription asks for the whole history exactly until some subscription has
    reached EOSE; from then on it asks from two hours before the last disconnect. *)
Theorem reconnect_since_exact {S} `{!EventSaver S} memCap verify (s : S) d t0 ls st :
  reconnectOverlap + Second <= t0 ->
  runInputs memCap verify ls (newSource s d t0) = Some st -> loc st = Head ->
  (~ eosed_once (log st) -> fSince (nextFilter st) = None) /\
  (eosed_once (log st) -> exists t, lastDisconnect st = Some t /\
     fSince (nextFilter st) = Some ((t - reconnectOverlap) / Second)) /\
  fKinds (nextFilter st) = InScopeKinds.
Proof.
  intros H0 Hr Hloc.
  assert (src_ok st) as [Hb Hsl He Hep Hd Hp Hl Hcov] by (eapply src_run_ok; [by apply newSource_ok|done]).
  rewrite Hloc in He. split_and!; [| |done]; intros Heo; simpl.
  - destruct (backfillComplete st); [|done]. destruct (proj1 He eq_refl) as [?|(f & t & ?)]; done.
  - rewrite (proj2 He (or_introl Heo)).
    destruct (lastDisconnect st) as [t|]; [|destruct Heo as (r & Hr' & _); destruct (log st); [by apply elem_of_nil in Hr'|by destruct Hd]].
    exists t. split; [done|]. apply since_complete. by destruct (Hp t eq_refl).
Qed.

(** Connects are retried on the schedule 1, 2, 4, ... seconds, capped at a
    minute. [k] consecutive failures from a fresh backoff wait min(60s, 2^i s) for
    i = 0 .. k-1, and every wait of any run lies between a second and a minute. *)
Theorem backoff_schedule {S} `{!EventSaver S} memCap verify (s : S) d t0 ts ls st :
  reconnectOverlap + Second <= t0 ->
  (runInputs memCap verify (map ConnectFails ts) (newSource s d t0) = Some st ->
     slept st = map (fun k => Z.min (60 * Second) (Second * 2 ^ Z.of_nat k)) (seq 0 (length ts))) /\
  (runInputs memCap verify ls (newSource s d t0) = Some st ->
     Forall (fun w => Second <= w <= 60 * Second) (slept st)).
Proof.
  intros H0. split; intros Hr.
  - by apply (connect_failures _ _ _ _ _ 0) in Hr as [_ Hr].
  - eapply so_slept, src_run_ok; [by apply newSource_ok|done].
Qed.

#[local] Instance null_saver : EventSaver unit := { save_event := fun _ s => (None, s) }.
Definition noon : Z := 100 * Hour.
Definition outage : list Input :=
  [Subscribed noon; EndOfStoredEvents; EventsClosed (noon + Hour);
   Subscribed (noon + 11 * Hour); EndOfStoredEvents; EventsClosed (noon + 12 * Hour)].
Definition trusted (_ : Event) : bool * bool := (true, true).
Definition demo_run (ls : list Input) : option (Source unit) :=
  runInputs 10 trusted ls (newSource tt NewDedup noon).

Lemma firehose_leaves_no_hole_witness :
  match demo_run outage with
  | Some st => exists r, r ∈ log st /\ served (noon + 5 * Hour) ((noon + 4 * Hour) / Second) r
  | None => False
  end.
Proof.
  destruct (demo_run outage) as [st|] eqn:E; [|by vm_compute in E].
  eapply (firehose_leaves_no_hole 10 trusted tt NewDedup noon outage st (noon + 12 * Hour)).
  - by vm_compute.
  - exact E.
  - vm_compute in E. injection E as <-. repeat constructor.
  - vm_compute in E. injection E as <-. eexists. split; [apply elem_of_cons; by left|done].
  - vm_compute in E. by injection E as <-.
  - by vm_compute.
  - by vm_compute.
Defined.

Lemma reconnect_since_exact_witness :
  match demo_run (take 3 outage) with
  | Some st => exists t, lastDisconnect st = Some t /\
                 fSince (nextFilter st) = Some ((t - reconnectOverlap) / Second)
  | None => False
  end.
Proof.
  destruct (demo_run (take 3 outage)) as [st|] eqn:E; [|by vm_compute in E].
  eapply (reconnect_since_exact 10 trusted tt NewDedup noon _ st ltac:(by vm_compute) E).
  - vm_compute in E. by injection E as <-.
  - vm_compute in E. injection E as <-. eexists. split; [apply elem_of_cons; by left|done].
Defined.

Lemma backoff_schedule_witness :
  match demo_run (map ConnectFails (replicate 8 noon)) with
  | Some st => slept st = map (Z.mul Second) [1; 2; 4; 8; 16; 32; 60; 60]
  | None => False
  end.
Proof. vm_compute. reflexivity. Qed.

(** A catch-up that is cut off loses the outage. After the first EOSE a
    subscription that is dropped before its own EOSE still moves [lastDisconnect], so
    the next one asks only from two hours before the drop: an event published in the
    middle of a ten-hour outage is served by no subscription, although the source
    reconnected twice and the last subscription completed. *)
Theorem interrupted_catchup_loses_outage :
  exists ls st a c,
    demo_run ls = Some st /\ eosed_once (log st) /\ lastDisconnect st = Some (noon + 13 * Hour) /\
    fresh_at a c /\ a <= noon + 13 * Hour /\ ~ exists r, r ∈ log st /\ served a c r.
Proof.
  exists [Subscribed noon; EndOfStoredEvents; EventsClosed (noon + Hour);
          Subscribed (noon + 11 * Hour); EventsClosed (noon + 11 * Hour + Minute);
          Subscribed (noon + 11 * Hour + 2 * Minute); EndOfStoredEvents; EventsClosed (noon + 13 * Hour)].
  eexists _, (noon + 5 * Hour), ((noon + 5 * Hour) / Second).
  split; [vm_compute; reflexivity|]. split_and!.
  - eexists. split; [apply elem_of_cons; by left|done].
  - by vm_compute.
  - by vm_compute.
  - by vm_compute.
  - intros (r & Hr & Hs). unfold served in Hs. simpl in Hr.
    repeat (apply elem_of_cons in Hr as [->|Hr]; [vm_compute in Hs; naive_solver|]).
    by apply elem_of_nil in Hr.
Qed.
