(* ===== verification/Priority.v ===== *)
(** * Priority crawler (internal/crawler/priority.go)

    One tick: decide each pubkey's [since] from crawl_state, then visit the relays
    in order, handing what one relay did not complete to the next. What a relay
    does during the visit (connect, subscribe, the cases its subscription offers and
    when) is the argument [Visit]; so are the moments the context is found cancelled.
    The deadline of [context.WithTimeout] is part of [fetchLoop]. *)

From S2P Require Import Prelude Nostr Config Classifier Control Dedup Ingest.

Definition fetchOverlap : Z := 2 * Hour.
Definition fetchTimeout : Z := 5 * Minute.
Definition fullSweepAge : Z := 24 * Hour.

Record pubkeyJob := mkJob { pubkey : string; since : option Z; fullSweep : bool }.
#[export] Instance pubkeyJob_eq_dec : EqDecision pubkeyJob.
Proof. solve_decision. Defined.

(** [NewPriority]'s interval. *)
Definition priorityInterval (interval : Z) : Z := if interval <=? 0 then 10 * Minute else interval.

(** [decideSince]: [now] in ns, the columns in seconds; a fault is a failed lookup. *)
Definition decideSince (ferr serr : option error) (now : Z) (pk : string) (db : DB) : option Z * bool :=
  let '(last, e1) := match LastFetched ferr pk db with Ok v => (v, false) | Err _ => (0, true) end in
  let '(swept, e2) := match LastSwept serr pk db with Ok v => (v, false) | Err _ => (0, true) end in
  let fullSweep := e1 || e2 || (last =? 0) || (fullSweepAge <=? now - swept * Second) in
  if fullSweep then (None, true)
  else
    let ts := last - fetchOverlap / Second in
    (if 0 <? ts then Some ts else None, false).

(** The cases of [fetchOn]'s select. *)
Inductive Sel :=
  | SelDone                              (* the parent is cancelled, or a tie at the deadline *)
  | SelEOSE
  | SelClosed
  | SelEventsClosed
  | SelEvent (now : Z) (ev : Event).

(** One turn of the select: the case taken, the moment it became ready (ns), and how
    long the turn's ingest call ran. *)
Record Turn := mkTurn { w_at : Z; w_sel : Sel; w_took : Z }.

Record Visit := mkVisit {
  v_connect : option error;
  v_ctx : nat -> bool;                   (* cancelled before the k-th job *)
  v_start : nat -> Z;                    (* when fetchOn sets its timeout (ns) *)
  v_sub : nat -> option error;
  v_ready : nat -> Z;                    (* when Subscribe returned (ns) *)
  v_sel : nat -> Filter -> list Turn;    (* the turns; when they end, nothing more comes *)
  v_nowF : nat -> Z; v_markF : nat -> option error;
  v_nowS : nat -> Z; v_markS : nat -> option error;
}.

Section priority.
Context {S : Type} `{!EventSaver S}.
Variable memCap : nat.
Variable verify : Event -> bool * bool.

(** The loop of [fetchOn], entered at [clock]. A select waits until a case is ready,
    and from [deadline] on [ctx.Done()] is: a case that becomes ready later than both
    the deadline and the start of the turn is never taken. A case that is ready when
    the turn starts, or at the deadline itself, may still be chosen over [ctx.Done()]. *)
Fixpoint fetchLoop (deadline clock : Z) (turns : list Turn) (s : S) (d : Dedup) : bool * S * Dedup :=
  match turns with
  | [] => (false, s, d)
  | w :: turns' =>
      if Z.max clock deadline <? w_at w then (false, s, d)
      else match w_sel w with
           | SelDone => (false, s, d)
           | SelEOSE => (true, s, d)
           | SelClosed | SelEventsClosed => (false, s, d)
           | SelEvent now ev =>
               let '(_, s1, d1) := ingestStep memCap verify now ev s d in
               fetchLoop deadline (Z.max clock (w_at w) + w_took w) turns' s1 d1
           end
  end.

Definition fetchFilter (kinds : list Z) (job : pubkeyJob) : Filter :=
  mkFilter [] kinds [pubkey job] [] (since job) None 0.

Definition fetchOn (v : Visit) (k : nat) (kinds : list Z) (job : pubkeyJob) (s : S) (d : Dedup)
    : bool * S * Dedup :=
  match v_sub v k with
  | Some _ => (false, s, d)
  | None => fetchLoop (v_start v k + fetchTimeout) (v_ready v k) (v_sel v k (fetchFilter kinds job)) s d
  end.

Definition markDone (v : Visit) (k : nat) (job : pubkeyJob) (db : DB) : DB :=
  let db1 := (MarkFetched (v_markF v k) (v_nowF v k) (pubkey job) db).2 in
  if fullSweep job then (MarkSwept (v_markS v k) (v_nowS v k) (pubkey job) db1).2 else db1.

(** The loop of [fetchRelay] over the jobs it was handed. *)
Fixpoint fetchJobs (v : Visit) (k : nat) (kinds : list Z) (jobs : list pubkeyJob) (s : S) (d : Dedup) (db : DB)
    : list pubkeyJob * S * Dedup * DB :=
  match jobs with
  | [] => ([], s, d, db)
  | job :: jobs' =>
      if v_ctx v k then (job :: jobs', s, d, db)
      else
        let '(done_, s1, d1) := fetchOn v k kinds job s d in
        if done_ then fetchJobs v (Datatypes.S k) kinds jobs' s1 d1 (markDone v k job db)
        else
          let '(inc, s2, d2, db2) := fetchJobs v (Datatypes.S k) kinds jobs' s1 d1 db in
          (job :: inc, s2, d2, db2)
  end.

Definition fetchRelay (v : Visit) (kinds : list Z) (remaining : list pubkeyJob) (s : S) (d : Dedup) (db : DB)
    : list pubkeyJob * S * Dedup * DB :=
  match v_connect v with
  | Some _ => (remaining, s, d, db)
  | None => fetchJobs v 0 kinds remaining s d db
  end.

(** The relays of one tick, each with whether the context is cancelled before it. *)
Fixpoint visitRelays (visits : list (bool * Visit)) (kinds : list Z) (remaining : list pubkeyJob)
    (s : S) (d : Dedup) (db : DB) : list pubkeyJob * S * Dedup * DB :=
  match visits with
  | [] => (remaining, s, d, db)
  | (cancelled, v) :: visits' =>
      if cancelled || bool_decide (remaining = []) then (remaining, s, d, db)
      else
        let '(rem, s1, d1, db1) := fetchRelay v kinds remaining s d db in
        visitRelays visits' kinds rem s1 d1 db1
  end.

(** The first loop: each pubkey with its lookups' faults, and the context check. *)
Definition Lookup : Type := string * bool * (option error * option error) * Z.

Fixpoint planJobs (pks : list Lookup) (db : DB) : option (list pubkeyJob) :=
  match pks with
  | [] => Some []
  | (pk, cancelled, (ferr, serr), now) :: pks' =>
      if cancelled then None
      else
        let '(snc, full) := decideSince ferr serr now pk db in
        match planJobs pks' db with
        | Some js => Some (mkJob pk snc full :: js)
        | None => None
        end
  end.

(** [tick] answers the jobs it warns about, "no relay served this pubkey". *)
Definition tick (pks : list Lookup) (visits : list (bool * Visit)) (s : S) (d : Dedup) (db : DB)
    : list pubkeyJob * S * Dedup * DB :=
  match planJobs pks db with
  | None => ([], s, d, db)
  | Some jobs => visitRelays visits InScopeKinds jobs s d db
  end.

(** ** What completing a pubkey means *)

(** The subscription reached its EOSE with nothing but events before it and the
    timeout not taken: when the turn that took it began, and when it was taken. *)
Fixpoint fetchEnd (deadline clock : Z) (turns : list Turn) : option (Z * Z) :=
  match turns with
  | [] => None
  | w :: turns' =>
      if Z.max clock deadline <? w_at w then None
      else match w_sel w with
           | SelEOSE => Some (clock, Z.max clock (w_at w))
           | SelEvent _ _ => fetchEnd deadline (Z.max clock (w_at w) + w_took w) turns'
           | _ => None
           end
  end.

Definition span (v : Visit) (k : nat) (job : pubkeyJob) : option (Z * Z) :=
  fetchEnd (v_start v k + fetchTimeout) (v_ready v k) (v_sel v k (fetchFilter InScopeKinds job)).

Definition completes (v : Visit) (k : nat) (job : pubkeyJob) : Prop :=
  v_connect v = None /\ v_sub v k = None /\ is_Some (span v k job).

Definition entry (pk : string) (db : DB) : option CrawlState := crawl_state db !! pk.

Lemma fetchLoop_clean dl clk turns s d :
  (fetchLoop dl clk turns s d).1.1 = true <-> is_Some (fetchEnd dl clk turns).
Proof.
  assert (false = true <-> is_Some (None : option (Z * Z))) as Hno by (split; [done|intros [? ?]; done]).
  revert clk s d. induction turns as [|w turns IH]; intros clk s d; simpl; [done|].
  destruct (Z.max clk dl <? w_at w); [done|]. destruct (w_sel w) as [| | | |now ev]; try done.
  destruct (ingestStep memCap verify now ev s d) as [[ok s1] d1]. apply IH.
Qed.

(** The timeout: EOSE is taken by the deadline, or at once by a turn that began after it. *)
Lemma fetchEnd_bounded dl clk turns p t : fetchEnd dl clk turns = Some (p, t) -> p <= t <= Z.max p dl.
Proof.
  revert clk. induction turns as [|w turns IH]; intros clk; simpl; [done|].
  destruct (Z.ltb_spec (Z.max clk dl) (w_at w)); [done|].
  destruct (w_sel w); try done; [intros [= <- <-]; lia|apply IH].
Qed.

Lemma fetchOn_spec v k job s d :
  v_connect v = None -> (fetchOn v k InScopeKinds job s d).1.1 = true <-> completes v k job.
Proof.
  intros Hc. unfold fetchOn, completes. destruct (v_sub v k); simpl; [naive_solver|].
  rewrite fetchLoop_clean. unfold span. naive_solver.
Qed.

Lemma markDone_entry v k job db pk : pk ≠ pubkey job -> entry pk (markDone v k job db) = entry pk db.
Proof.
  intros Hne. unfold entry, markDone, MarkFetched, MarkSwept.
  destruct (fullSweep job), (v_markF v k), (v_markS v k); simpl; by rewrite ?lookup_insert_ne by done.
Qed.

(** One completed pubkey: the visit, its position in it, and the job. *)
Definition Mark_ : Type := Visit * nat * pubkeyJob.
Definition applyMark (db : DB) (m : Mark_) : DB := markDone m.1.1 m.1.2 m.2 db.

(** ** The fetches a tick completed

    In order, read off the same calls as the loops above. *)
Fixpoint jobsLog (v : Visit) (k : nat) (kinds : list Z) (jobs : list pubkeyJob) (s : S) (d : Dedup) : list Mark_ :=
  match jobs with
  | [] => []
  | job :: jobs' =>
      if v_ctx v k then []
      else
        let '(done_, s1, d1) := fetchOn v k kinds job s d in
        (if done_ then [(v, k, job)] else []) ++ jobsLog v (Datatypes.S k) kinds jobs' s1 d1
  end.

Definition relayLog (v : Visit) (kinds : list Z) (remaining : list pubkeyJob) (s : S) (d : Dedup) : list Mark_ :=
  match v_connect v with Some _ => [] | None => jobsLog v 0 kinds remaining s d end.

Fixpoint visitsLog (visits : list (bool * Visit)) (kinds : list Z) (remaining : list pubkeyJob)
    (s : S) (d : Dedup) (db : DB) : list Mark_ :=
  match visits with
  | [] => []
  | (cancelled, v) :: visits' =>
      if cancelled || bool_decide (remaining = []) then []
      else
        let '(rem, s1, d1, db1) := fetchRelay v kinds remaining s d db in
        relayLog v kinds remaining s d ++ visitsLog visits' kinds rem s1 d1 db1
  end.

Definition tickLog (pks : list Lookup) (visits : list (bool * Visit)) (s : S) (d : Dedup) (db : DB) : list Mark_ :=
  match planJobs pks db with
  | None => []
  | Some jobs => visitsLog visits InScopeKinds jobs s d db
  end.

Definition accounted (jobs rem : list pubkeyJob) (db db' : DB) (ms : list Mark_) : Prop :=
  jobs ≡ₚ rem ++ map snd ms /\ db' = foldl applyMark db ms /\
  Forall (fun m => completes m.1.1 m.1.2 m.2) ms.

Lemma fetchJobs_accounts v k jobs s d db :
  v_connect v = None ->
  let '(rem, s', d', db') := fetchJobs v k InScopeKinds jobs s d db in
  let ms := jobsLog v k InScopeKinds jobs s d in
  accounted jobs rem db db' ms /\ Forall (fun m => m.1.1 = v) ms.
Proof.
  intros Hc. revert k s d db. induction jobs as [|job jobs IH]; intros k s d db; simpl; [done|].
  destruct (v_ctx v k); [split; [|done]; split_and!; by rewrite ?app_nil_r|].
  pose proof (fetchOn_spec v k job s d Hc) as Hf.
  destruct (fetchOn v k InScopeKinds job s d) as [[ok s1] d1]. simpl in Hf. destruct ok.
  - specialize (IH (Datatypes.S k) s1 d1 (markDone v k job db)).
    destruct (fetchJobs _ _ _ _ _ _ _) as [[[rem s'] d'] db']. revert IH.
    cbn [app]. generalize (jobsLog v (Datatypes.S k) InScopeKinds jobs s1 d1). intros ms ((Hp & Hdb & Hms) & Hv).
    split; [|by constructor].
    split_and!; [simpl; by rewrite <-Permutation_middle, Hp|done|constructor; [by apply Hf|done]].
  - specialize (IH (Datatypes.S k) s1 d1 db).
    destruct (fetchJobs _ _ _ _ _ _ _) as [[[rem s'] d'] db']. revert IH.
    cbn [app]. generalize (jobsLog v (Datatypes.S k) InScopeKinds jobs s1 d1). intros ms ((Hp & Hdb & Hms) & Hv).
    split; [|done]. split_and!; [simpl; by rewrite Hp|done|done].
Qed.

Lemma fetchJobs_left v k jobs s d db job :
  v_connect v = None -> (forall j, v_ctx v j = false) ->
  job ∈ (fetchJobs v k InScopeKinds jobs s d db).1.1.1 -> exists j, ~ completes v j job.
Proof.
  intros Hc Hctx. revert k s d db. induction jobs as [|j jobs IH]; intros k s d db; simpl; [set_solver|].
  rewrite Hctx. pose proof (fetchOn_spec v k j s d Hc) as Hf.
  destruct (fetchOn v k InScopeKinds j s d) as [[ok s1] d1]. simpl in Hf. destruct ok; [apply IH|].
  specialize (IH (Datatypes.S k) s1 d1 db). destruct (fetchJobs _ _ _ _ _ _ _) as [[[rem s'] d'] db']. simpl in *.
  intros [->|Hin]%elem_of_cons; [|by apply IH]. exists k. intros H. by apply Hf in H.
Qed.

Lemma fetchRelay_accounts v jobs s d db :
  let '(rem, s', d', db') := fetchRelay v InScopeKinds jobs s d db in
  let ms := relayLog v InScopeKinds jobs s d in
  accounted jobs rem db db' ms /\ Forall (fun m => m.1.1 = v) ms.
Proof.
  unfold fetchRelay, relayLog. destruct (v_connect v) eqn:Ec; [|by apply fetchJobs_accounts].
  split; [|done]. split_and!; by rewrite ?app_nil_r.
Qed.

Lemma visitRelays_accounts visits jobs s d db :
  let '(rem, s', d', db') := visitRelays visits InScopeKinds jobs s d db in
  let ms := visitsLog visits InScopeKinds jobs s d db in
  accounted jobs rem db db' ms /\ Forall (fun m => m.1.1 ∈ map snd visits) ms.
Proof.
  revert jobs s d db. induction visits as [|[b v] visits IH]; intros jobs s d db; cbn [visitRelays visitsLog].
  { split; [|done]. split_and!; by rewrite ?app_nil_r. }
  destruct (b || bool_decide (jobs = [])).
  { split; [|done]. split_and!; by rewrite ?app_nil_r. }
  pose proof (fetchRelay_accounts v jobs s d db) as Hf.
  destruct (fetchRelay v InScopeKinds jobs s d db) as [[[rem1 s1] d1] db1]. destruct Hf as ((Hp1 & Hdb1 & Hc1) & Hv1).
  specialize (IH rem1 s1 d1 db1).
  destruct (visitRelays visits _ _ _ _ _) as [[[rem s'] d'] db']. destruct IH as ((Hp & -> & Hc) & Hv).
  split.
  - split_and!; [etrans; [exact Hp1|]; rewrite (Permutation_app_tail _ Hp), map_app; solve_Permutation|by rewrite foldl_app, <-Hdb1|by apply Forall_app].
  - apply Forall_app. split; eapply Forall_impl; try done; simpl; [intros m ->|intros m Hm]; set_solver.
Qed.

(** With no cancellation, a pubkey that is left over was failed by every relay. *)
Lemma visitRelays_left visits jobs s d db job v :
  Forall (fun bv => bv.1 = false /\ forall j, v_ctx bv.2 j = false) visits -> v ∈ map snd visits ->
  job ∈ (visitRelays visits InScopeKinds jobs s d db).1.1.1 -> exists j, ~ completes v j job.
Proof.
  revert jobs s d db. induction visits as [|[b v0] visits IH]; intros jobs s d db Hall; [set_solver|].
  apply Forall_cons_1 in Hall as [[Hb Hctx] Hall]. simpl in *. subst b. simpl.
  case_bool_decide as Hj; [simpl; set_solver|].
  intros [->|Hv]%elem_of_cons.
  - pose proof (fetchJobs_left v0 0 jobs s d db job) as Hl. unfold fetchRelay.
    destruct (v_connect v0) eqn:Ec; [intros _; exists 0%nat; intros (? & _); congruence|].
    destruct (fetchJobs _ _ _ _ _ _ _) as [[[rem1 s1] d1] db1].
    pose proof (visitRelays_accounts visits rem1 s1 d1 db1) as Ha.
    destruct (visitRelays visits _ _ _ _ _) as [[[rem s'] d'] db']. simpl. intros Hin.
    destruct Ha as ((Hp & _) & _). apply Hl; [done|done|]. simpl. rewrite Hp. set_solver.
  - destruct (fetchRelay _ _ _ _ _ _) as [[[rem1 s1] d1] db1]. by apply IH.
Qed.

Lemma planJobs_pubkeys pks db jobs :
  planJobs pks db = Some jobs -> map pubkey jobs = map (fun x : Lookup => x.1.1.1) pks.
Proof.
  revert jobs. induction pks as [|[[[pk c] [fe se]] now] pks IH]; intros jobs; simpl; [by intros [= <-]|].
  destruct c; [done|]. destruct (decideSince fe se now pk db) as [snc full].
  destruct (planJobs pks db) as [js|]; [|done]. intros [= <-]. simpl. by rewrite (IH js).
Qed.

Lemma foldl_entry_ne ms db pk :
  Forall (fun m => pubkey m.2 ≠ pk) ms -> entry pk (foldl applyMark db ms) = entry pk db.
Proof.
  revert db. induction ms as [|m ms IH]; intros db H; simpl; [done|].
  apply Forall_cons_1 in H as [Hm H]. rewrite IH by done. by apply markDone_entry.
Qed.
End priority.

Lemma marked_last ms (v : Visit) k job db :
  NoDup (map (fun m : Mark_ => pubkey m.2) ms) -> (v, k, job) ∈ ms ->
  Forall (fun m : Mark_ => v_markF m.1.1 m.1.2 = None /\ v_markS m.1.1 m.1.2 = None) ms ->
  LastFetched None (pubkey job) (foldl applyMark db ms) = Ok (v_nowF v k) /\
  (fullSweep job = true -> LastSwept None (pubkey job) (foldl applyMark db ms) = Ok (v_nowS v k)).
Proof.
  intros Hnd Hin Hf. apply list_elem_of_split in Hin as (ms1 & ms2 & ->).
  rewrite map_app in Hnd. simpl in Hnd. apply NoDup_app in Hnd as (_ & _ & Hnd).
  apply NoDup_cons in Hnd as [Hni _].
  apply Forall_app in Hf as [_ Hf]. apply Forall_cons in Hf as [[Hf1 Hf2] _]. simpl in *.
  unfold LastFetched, LastSwept. rewrite foldl_app. simpl.
  pose proof (foldl_entry_ne ms2 (applyMark (foldl applyMark db ms1) (v, k, job)) (pubkey job)) as He.
  unfold entry in He. rewrite He.
  2:{ apply Forall_forall. intros m Hm E. apply Hni. rewrite <-E.
      by apply (list_elem_of_fmap_2 (fun m : Mark_ => pubkey m.2)). }
  clear He. generalize (foldl applyMark db ms1) as db1. intros db1.
  unfold applyMark, markDone, MarkFetched, MarkSwept. simpl. rewrite Hf1, Hf2. simpl.
  split; [destruct (fullSweep job)|intros ->]; simpl; rewrite ?lookup_insert_eq; simpl;
    rewrite ?lookup_insert_eq; by destruct (crawl_state db1 !! pubkey job).
Qed.

(** ** Properties *)

(** No pubkey is recorded as fetched without a clean EOSE. The tick's jobs
    split into those it leaves over and those it completed; each of the latter was
    completed by one of the visits, which connected, subscribed and reached EOSE with
    nothing but events before it; and crawl_state changes by exactly the marks of the
    completed jobs, in order, [MarkSwept] only for full sweeps. *)
Theorem priority_tick_accounts {S} `{!EventSaver S} memCap verify pks visits (s s' : S) d d' db db' jobs rem :
  planJobs pks db = Some jobs ->
  tick memCap verify pks visits s d db = (rem, s', d', db') ->
  exists ms, jobs ≡ₚ rem ++ map snd ms /\ db' = foldl applyMark db ms /\
    Forall (fun m => completes m.1.1 m.1.2 m.2 /\ m.1.1 ∈ map snd visits) ms.
Proof.
  intros Hp. unfold tick. rewrite Hp. intros Ht.
  pose proof (visitRelays_accounts memCap verify visits jobs s d db) as H. rewrite Ht in H.
  destruct H as ((H1 & H2 & H3) & H4). eexists. split_and!; [done|done|]. by apply Forall_and.
Qed.

(** C18: per-pubkey failover works. When nothing is cancelled and one of the
    relays completes the pubkey whenever it is asked, the tick does not leave the
    pubkey over, whatever the other relays do; and with a working control database
    its last_fetched is the moment a completed fetch was recorded, and its
    last_full_sweep too when the job was a full sweep. *)
Theorem priority_failover {S} `{!EventSaver S} memCap verify pks visits (s s' : S) d d' db db' jobs rem job v :
  planJobs pks db = Some jobs -> NoDup (map (fun x : Lookup => x.1.1.1) pks) ->
  Forall (fun bv => bv.1 = false /\ forall j, v_ctx bv.2 j = false) visits ->
  tick memCap verify pks visits s d db = (rem, s', d', db') ->
  job ∈ jobs -> v ∈ map snd visits -> (forall k, completes v k job) ->
  job ∉ rem /\
  (Forall (fun bv => forall k, v_markF bv.2 k = None /\ v_markS bv.2 k = None) visits ->
   exists v' k, v' ∈ map snd visits /\ completes v' k job /\
     LastFetched None (pubkey job) db' = Ok (v_nowF v' k) /\
     (fullSweep job = true -> LastSwept None (pubkey job) db' = Ok (v_nowS v' k))).
Proof.
  intros Hp Hnd Hall Ht Hj Hv Hcomp.
  assert (job ∉ rem) as Hout.
  { intros Hin. unfold tick in Ht. rewrite Hp in Ht.
    destruct (visitRelays_left memCap verify visits jobs s d db job v Hall Hv) as [k Hk]; [by rewrite Ht|].
    by apply Hk. }
  split; [done|]. intros Hm.
  pose proof (visitRelays_accounts memCap verify visits jobs s d db) as H.
  unfold tick in Ht. rewrite Hp in Ht. rewrite Ht in H. destruct H as ((H1 & -> & H3) & H4).
  apply (elem_of_Permutation_proper _ _ _ H1), elem_of_app in Hj as [?|Hj]; [done|].
  apply list_elem_of_fmap in Hj as ([[v' k] job'] & E & Hin). simpl in E. subst job'.
  exists v', k. rewrite Forall_forall in H3, H4.
  split; [apply (H4 _ Hin)|]. split; [apply (H3 _ Hin)|].
  eapply marked_last; [|exact Hin|].
  - rewrite <-(planJobs_pubkeys _ _ _ Hp), H1, map_app, map_map in Hnd. by apply NoDup_app in Hnd as (_ & _ & ?).
  - apply Forall_forall. intros m Hm'. apply H4 in Hm' as Hv'.
    apply list_elem_of_fmap in Hv' as (bv & -> & Hbv). rewrite Forall_forall in Hm. by apply (Hm _ Hbv).
Qed.

(** The next fetch reaches back past the previous one. Lookups that fail, a
    pubkey never fetched, and a sweep a day old give a full-history fetch; otherwise
    the tick is incremental, and if the recorded fetch took at most [fetchTimeout]
    then every event dated after the start of that fetch, or up to 115 minutes before
    it, is inside the new window. *)
Theorem decideSince_windows_overlap ferr serr now pk db snc full last swept :
  LastFetched None pk db = Ok last -> LastSwept None pk db = Ok swept ->
  decideSince ferr serr now pk db = (snc, full) ->
  (full = true <-> ferr ≠ None \/ serr ≠ None \/ last = 0 \/ fullSweepAge <= now - swept * Second) /\
  (full = true -> snc = None) /\
  (full = false -> forall started c,
     last * Second <= started + fetchTimeout ->
     started - (fetchOverlap - fetchTimeout) <= c * Second ->
     match snc with None => True | Some s => s <= c end).
Proof.
  unfold decideSince, LastFetched, LastSwept. intros [= El] [= Es]. rewrite El, Es.
  destruct ferr as [e1|].
  { destruct serr; simpl; intros [= <- <-]; (split; [split; [intros _; by left|done]|done]). }
  destruct serr as [e2|].
  { simpl. intros [= <- <-]. split; [|done]. split; [intros _; right; by left|done]. }
  simpl. destruct ((last =? 0) || (fullSweepAge <=? now - swept * Second)) eqn:E; intros [= <- <-].
  - apply orb_true_iff in E. rewrite Z.eqb_eq, Z.leb_le in E. split_and!; [|done|done]. tauto.
  - apply orb_false_iff in E. rewrite Z.eqb_neq, Z.leb_gt in E. destruct E as [E1 E2].
    split_and!; [split; [done|intros [?|[?|[?|?]]]; [done|done|done|lia]]|done|].
    intros _ started c H1 H2. change (fetchOverlap / Second) with 7200.
    destruct (0 <? last - 7200); [|done]. unfold fetchOverlap, fetchTimeout, Hour, Minute, Second in *. lia.
Qed.

#[local] Instance null_saver : EventSaver unit := { save_event := fun _ s => (None, s) }.
Definition trusted (_ : Event) : bool * bool := (true, true).
Definition demo_visit (conn : option error) (sel : list Sel) : Visit :=
  mkVisit conn (fun _ => false) (fun _ => 400 * Second) (fun _ => None) (fun _ => 401 * Second)
    (fun _ _ => map (fun c => mkTurn (402 * Second) c 7) sel)
    (fun _ => 500) (fun _ => None) (fun _ => 501) (fun _ => None).
(** The first relay is down, the second stalls, the third completes. *)
Definition demo_visits : list (bool * Visit) :=
  [(false, demo_visit (Some (Opaque "refused")) []);
   (false, demo_visit None [SelEvent 1 (demo_ev demo_id)]);
   (false, demo_visit None [SelEvent 1 (demo_ev demo_id2); SelEOSE])].
Definition demo_pks : list Lookup := [("alice", false, (None, None), 900)].

Lemma priority_tick_accounts_witness :
  exists ms, [mkJob "alice" None true] ≡ₚ [] ++ map snd ms /\
    (tick 10 trusted demo_pks demo_visits tt NewDedup emptyDB).2 = foldl applyMark emptyDB ms /\
    Forall (fun m => completes m.1.1 m.1.2 m.2 /\ m.1.1 ∈ map snd demo_visits) ms.
Proof.
  destruct (tick 10 trusted demo_pks demo_visits tt NewDedup emptyDB) as [[[rem s'] d'] db'] eqn:E.
  assert (rem = []) as -> by (vm_compute in E; congruence).
  by apply (priority_tick_accounts 10 trusted demo_pks demo_visits tt s' NewDedup d' emptyDB db'
    [mkJob "alice" None true] [] eq_refl E).
Defined.

Lemma priority_failover_witness :
  let '(rem, _, _, db') := tick 10 trusted demo_pks demo_visits tt NewDedup emptyDB in
  mkJob "alice" None true ∉ rem /\
  exists v' k, v' ∈ map snd demo_visits /\ completes v' k (mkJob "alice" None true) /\
     LastFetched None "alice" db' = Ok (v_nowF v' k) /\ LastSwept None "alice" db' = Ok (v_nowS v' k).
Proof.
  destruct (tick 10 trusted demo_pks demo_visits tt NewDedup emptyDB) as [[[rem s'] d'] db'] eqn:E.
  destruct (priority_failover 10 trusted demo_pks demo_visits tt s' NewDedup d' emptyDB db'
    [mkJob "alice" None true] rem (mkJob "alice" None true)
    (demo_visit None [SelEvent 1 (demo_ev demo_id2); SelEOSE])) as [H1 H2].
  - reflexivity.
  - apply NoDup_singleton.
  - repeat constructor.
  - exact E.
  - by apply list_elem_of_singleton.
  - apply list_elem_of_fmap. eexists (_, _). split; [|do 2 apply elem_of_cons, or_intror; by apply list_elem_of_singleton]. done.
  - intros k. split_and!; [done|done|by eexists].
  - split; [done|]. destruct H2 as (v' & k & ? & ? & ? & Hs); [repeat constructor|].
    exists v', k. auto.
Defined.

Lemma decideSince_windows_overlap_witness :
  let db := mkDB [] ∅ {["alice" := mkCrawlState 100000 90000 100000]} ∅ in
  decideSince None None (100500 * Second) "alice" db = (Some 92800, false) /\ 92800 <= 93000.
Proof.
  intros db. split; [reflexivity|].
  apply (decideSince_windows_overlap None None (100500 * Second) "alice" db (Some 92800) false 100000 90000
    eq_refl eq_refl eq_refl) with (started := 99800 * Second) (c := 93000); done.
Defined.
