(* ===== verification/PriorityRun.v ===== *)
(** * The priority crawler's loop (internal/crawler/priority.go)

    [Run] repeats the tick of Priority.v; [runLog] lists the fetches it completed. The
    theorem is about the whole run: the windows of those fetches leave no hole,
    because each tick resumes from what an earlier one recorded. *)

From S2P Require Import Prelude Nostr Config Classifier Control Dedup Ingest Priority.

(** One tick: the pubkeys with their lookups, the relays with what they do. *)
Record Tick := mkTick { t_pks : list Lookup; t_visits : list (bool * Visit) }.

Section run.
Context {S : Type} `{!EventSaver S}.
Variable memCap : nat.
Variable verify : Event -> bool * bool.

Fixpoint ticks_ (ts : list Tick) (s : S) (d : Dedup) (db : DB) : S * Dedup * DB :=
  match ts with
  | [] => (s, d, db)
  | t :: ts' =>
      let '(_, s1, d1, db1) := tick memCap verify (t_pks t) (t_visits t) s d db in ticks_ ts' s1 d1 db1
  end.

(** [Run]: a tick at once, then one per timer until the context ends; with no pubkey
    or no relay the crawler is disabled. *)
Definition Run (pubkeys relays : list string) (ts : list Tick) (s : S) (d : Dedup) (db : DB) : S * Dedup * DB :=
  if bool_decide (pubkeys = []) || bool_decide (relays = []) then (s, d, db) else ticks_ ts s d db.

(** ** The fetches the run completed *)

Fixpoint ticksLog (ts : list Tick) (s : S) (d : Dedup) (db : DB) : list Mark_ :=
  match ts with
  | [] => []
  | t :: ts' =>
      let '(_, s1, d1, db1) := tick memCap verify (t_pks t) (t_visits t) s d db in
      tickLog memCap verify (t_pks t) (t_visits t) s d db ++ ticksLog ts' s1 d1 db1
  end.

Definition runLog (pubkeys relays : list string) (ts : list Tick) (s : S) (d : Dedup) (db : DB) : list Mark_ :=
  if bool_decide (pubkeys = []) || bool_decide (relays = []) then [] else ticksLog ts s d db.
End run.

Definition started (m : Mark_) : Z := v_start m.1.1 m.1.2.
Definition nowF (m : Mark_) : Z := v_nowF m.1.1 m.1.2.
Definition markedOk (m : Mark_) : Prop := v_markF m.1.1 m.1.2 = None.

Definition logOf (pk : string) (log : list Mark_) : list Mark_ := filter (fun m => pubkey m.2 = pk) log.

(** An event that reached the relays at [a], dated [c] (s), is in the fetch's window. *)
Definition fetched (a c : Z) (m : Mark_) : Prop :=
  a <= started m /\ match since m.2 with None => True | Some s => s <= c end.

(** How far a completed fetch ran over its timeout: the last event before EOSE was
    ingested at most [g] after the deadline, and MarkFetched read the clock at most
    [h] after EOSE. *)
Definition overrun (g h : Z) (m : Mark_) : Prop :=
  exists p t, span m.1.1 m.1.2 m.2 = Some (p, t) /\ p <= started m + fetchTimeout + g /\ nowF m * Second <= t + h.

(** Events dated at most [slack] before they arrived leave no hole. *)
Definition no_hole (slack : Z) (log : list Mark_) : Prop :=
  forall m a c, m ∈ log -> a <= started m -> a - slack <= c * Second -> exists m', m' ∈ log /\ fetched a c m'.

(** last_fetched after the fetches of [log]: the last mark that succeeded. *)
Definition lastMark (t0 : Z) (log : list Mark_) : Z :=
  foldl (fun t m => if bool_decide (markedOk m) then nowF m else t) t0 log.

(** ** Lemmas *)

(** The timeout bounds what is recorded. *)
Lemma overrun_recorded g h m :
  0 <= g -> overrun g h m -> nowF m * Second <= started m + fetchTimeout + g + h.
Proof.
  intros Hg (p & t & Hs & Hp & Hn). unfold span in Hs. apply fetchEnd_bounded in Hs. unfold started in *. lia.
Qed.

Lemma logOf_app pk log log' : logOf pk (log ++ log') = logOf pk log ++ logOf pk log'.
Proof. apply filter_app. Qed.

Lemma lastMark_app t log log' : lastMark t (log ++ log') = lastMark (lastMark t log) log'.
Proof. apply foldl_app. Qed.

Lemma lastMark_cases t log : lastMark t log = t \/ exists m, m ∈ log /\ nowF m = lastMark t log.
Proof.
  induction log as [|m log IH] using rev_ind; [by left|]. rewrite lastMark_app. simpl.
  case_bool_decide; [right; exists m; set_solver|].
  destruct IH as [->|(m' & Hm & <-)]; [by left|right; exists m'; set_solver].
Qed.

Lemma planJobs_decided pks db jobs job :
  planJobs pks db = Some jobs -> job ∈ jobs ->
  exists ferr serr now, decideSince ferr serr now (pubkey job) db = (since job, fullSweep job).
Proof.
  revert jobs. induction pks as [|[[[pk c] [fe se]] now] pks IH]; intros jobs; simpl; [intros [= <-]; set_solver|].
  destruct c; [done|]. destruct (decideSince fe se now pk db) as [snc full] eqn:Ed.
  destruct (planJobs pks db) as [js|]; [|done]. intros [= <-] [->|Hin]%elem_of_cons; [by exists fe, se, now|].
  by eapply IH.
Qed.

(** An incremental fetch resumes two hours before what was recorded. *)
Lemma decideSince_incremental ferr serr now pk db s full :
  decideSince ferr serr now pk db = (Some s, full) ->
  exists last, LastFetched None pk db = Ok last /\ last ≠ 0 /\ s = last - fetchOverlap / Second.
Proof.
  unfold decideSince, LastFetched. destruct ferr; simpl; [by destruct (LastSwept serr pk db)|].
  destruct (LastSwept serr pk db) as [swept|]; [|done].
  generalize (match crawl_state db !! pk with Some c => last_fetched c | None => 0 end). intros last.
  destruct (Z.eqb_spec last 0) as [E|E]; [done|]. destruct (fullSweepAge <=? _); [done|].
  cbn [orb]. destruct (0 <? _); [|done]. intros [= <- <-]. by exists last.
Qed.

Lemma applyMark_last pk db m t :
  LastFetched None pk db = Ok t ->
  LastFetched None pk (applyMark db m) = Ok (lastMark t (logOf pk [m])).
Proof.
  destruct m as [[v k] job]. unfold logOf, applyMark, markDone, LastFetched, MarkFetched, MarkSwept. intros [= <-]. simpl.
  destruct (decide (pubkey job = pk)) as [<-|Hne];
    [rewrite filter_cons_True by done|rewrite filter_cons_False by done];
    unfold lastMark, markedOk, nowF; simpl; [case_bool_decide as Hm|];
    destruct (v_markF v k), (v_markS v k), (fullSweep job); simpl; try done;
    rewrite ?lookup_insert_eq, ?lookup_insert_ne by done; try done;
    destruct (crawl_state db !! pubkey job); done.
Qed.

Lemma marks_last pk db ms t :
  LastFetched None pk db = Ok t ->
  LastFetched None pk (foldl applyMark db ms) = Ok (lastMark t (logOf pk ms)).
Proof.
  revert db t. induction ms as [|m ms IH]; intros db t Ht; simpl; [done|].
  etrans; [exact (IH _ _ (applyMark_last pk db m t Ht))|]. by rewrite <-lastMark_app, <-logOf_app.
Qed.

(** A tick's fetches continue the windows of the fetches before it. *)
Lemma tick_no_hole g h pks db jobs log ms pk :
  0 <= g -> planJobs pks db = Some jobs -> Forall (fun m => pubkey m.2 = pk /\ m.2 ∈ jobs) ms ->
  Forall (overrun g h) log -> LastFetched None pk db = Ok (lastMark 0 log) ->
  no_hole (fetchOverlap - fetchTimeout - g - h) log -> no_hole (fetchOverlap - fetchTimeout - g - h) (log ++ ms).
Proof.
  intros Hg Hp Hms Htime Hrec Hno m a c [Hm|Hm]%elem_of_app Ha Hc.
  { destruct (Hno m a c Hm Ha Hc) as (m' & Hm' & Hf). exists m'. set_solver. }
  rewrite Forall_forall in Hms. destruct (Hms m Hm) as [Hpk Hj].
  destruct (planJobs_decided _ _ _ _ Hp Hj) as (fe & se & now & Hd). rewrite Hpk in Hd.
  destruct (since m.2) as [s|] eqn:Es; [|exists m; split; [set_solver|split; [done|by rewrite Es]]].
  apply decideSince_incremental in Hd as (last & Hl & Hne & ->). rewrite Hrec in Hl. injection Hl as <-.
  destruct (lastMark_cases 0 log) as [?|(m0 & Hm0 & Hn0)]; [done|]. rewrite <-Hn0 in Es.
  destruct (decide (a <= started m0)) as [Hle|Hgt].
  - destruct (Hno m0 a c Hm0 Hle Hc) as (m' & Hm' & Hf). exists m'. set_solver.
  - exists m. split; [set_solver|]. split; [done|]. rewrite Es.
    rewrite Forall_forall in Htime. pose proof (overrun_recorded g h m0 Hg (Htime m0 Hm0)) as Hb.
    unfold fetchOverlap, fetchTimeout, Hour, Minute, Second in *.
    change (2 * (60 * (60 * 1000000000)) / 1000000000) with 7200. lia.
Qed.

Section run_facts.
Context {S : Type} `{!EventSaver S}.
Variable memCap : nat.
Variable verify : Event -> bool * bool.

(** What one tick adds to the log, and to the database. *)
Lemma tick_log pks visits (s : S) d db rem s' d' db' :
  tick memCap verify pks visits s d db = (rem, s', d', db') ->
  let ms := tickLog memCap verify pks visits s d db in
  db' = foldl applyMark db ms /\
  Forall (fun m => completes m.1.1 m.1.2 m.2 /\ m.1.1 ∈ map snd visits) ms /\
  match planJobs pks db with Some jobs => Forall (fun m => m.2 ∈ jobs) ms | None => ms = [] end.
Proof.
  unfold tick, tickLog. destruct (planJobs pks db) as [jobs|]; [|by intros [= <- <- <- <-]].
  intros Ht. pose proof (visitRelays_accounts memCap verify visits jobs s d db) as Ha. rewrite Ht in Ha.
  destruct Ha as ((Hp & Hdb & Hc) & Hv). split_and!; [done|by apply Forall_and|].
  apply Forall_forall. intros m Hm. eapply elem_of_Permutation_proper; [exact Hp|].
  apply elem_of_app. right. by apply list_elem_of_fmap_2.
Qed.

Lemma ticks_log ts (s : S) d db s' d' db' :
  ticks_ memCap verify ts s d db = (s', d', db') ->
  let ms := ticksLog memCap verify ts s d db in
  db' = foldl applyMark db ms /\
  Forall (fun m => completes m.1.1 m.1.2 m.2 /\ exists t, t ∈ ts /\ m.1.1 ∈ map snd (t_visits t)) ms.
Proof.
  revert s d db. induction ts as [|t ts IH]; intros s d db; simpl; [by intros [= <- <- <-]|].
  destruct (tick memCap verify (t_pks t) (t_visits t) s d db) as [[[rem s1] d1] db1] eqn:Et.
  apply tick_log in Et as (Hdb & Hc & _). intros Hr. destruct (IH _ _ _ Hr) as [-> Hc'].
  rewrite foldl_app, <-Hdb. split; [done|]. apply Forall_app. split.
  - eapply Forall_impl; [exact Hc|]. intros m [? ?]. split; [done|]. exists t. set_solver.
  - eapply Forall_impl; [exact Hc'|]. intros m (? & t' & ? & ?). split; [done|]. exists t'. set_solver.
Qed.

Lemma ticks_no_hole g h ts (s : S) d db log pk :
  let ms := logOf pk (ticksLog memCap verify ts s d db) in
  0 <= g -> Forall (overrun g h) (log ++ ms) -> LastFetched None pk db = Ok (lastMark 0 log) ->
  no_hole (fetchOverlap - fetchTimeout - g - h) log -> no_hole (fetchOverlap - fetchTimeout - g - h) (log ++ ms).
Proof.
  cbn zeta. intros Hg. revert s d db log. induction ts as [|t ts IH]; intros s d db log Ho Hrec Hno.
  { simpl. by rewrite app_nil_r. }
  cbn [ticksLog] in *.
  destruct (tick memCap verify (t_pks t) (t_visits t) s d db) as [[[rem s1] d1] db1] eqn:Et.
  apply tick_log in Et as (-> & _ & Hj). rewrite logOf_app, app_assoc in *.
  apply IH; [done|by rewrite (marks_last _ _ _ _ Hrec), <-lastMark_app|].
  destruct (planJobs (t_pks t) db) as [jobs|] eqn:Ep; [|rewrite Hj; simpl; by rewrite app_nil_r].
  eapply tick_no_hole; [done|exact Ep| |by apply Forall_app in Ho as [[? _]%Forall_app _]|done|done].
  rewrite Forall_forall in Hj. apply Forall_forall. intros m [Hpk Hm]%list_elem_of_filter. split; [done|by apply Hj].
Qed.
End run_facts.

(** ** Properties *)

(** C16: the priority crawler leaves no hole. Take a whole run that begins with the
    pubkey never fetched, relays, lookups and marks failing in any way. The fetches the
    run completed each connected, subscribed and took EOSE on one of its visits with
    the timeout not taken, and the final database is the initial one with exactly
    their marks; last_fetched of the pubkey is the mark of its last fetch whose
    MarkFetched succeeded, or still 0. Let [g] bound how long after a deadline of the
    pubkey's fetches an ingest call before EOSE still ran (0 when none is running
    then), and [h] how long after EOSE MarkFetched read the clock. Then an event that
    had reached the relays when one of the fetches started, dated at most two hours
    less five minutes less [g] and [h] before its arrival, was inside the window of a
    completed fetch of the pubkey that started after the arrival. *)
Theorem priority_leaves_no_hole {S} `{!EventSaver S} memCap verify g h pubkeys relays ts
    (s s' : S) d d' db db' pk :
  let log := runLog memCap verify pubkeys relays ts s d db in
  LastFetched None pk db = Ok 0 -> 0 <= g -> Forall (overrun g h) (logOf pk log) ->
  Run memCap verify pubkeys relays ts s d db = (s', d', db') ->
  db' = foldl applyMark db log /\
  Forall (fun m => completes m.1.1 m.1.2 m.2 /\ exists t, t ∈ ts /\ m.1.1 ∈ map snd (t_visits t)) log /\
  LastFetched None pk db' = Ok (lastMark 0 (logOf pk log)) /\
  no_hole (fetchOverlap - fetchTimeout - g - h) (logOf pk log).
Proof.
  cbn zeta. unfold Run, runLog. intros H0 Hg. destruct (bool_decide _ || bool_decide _).
  { intros _ [= <- <- <-]. split_and!; [done|done|done|]. intros m a c Hm. set_solver. }
  intros Ho Hr. destruct (ticks_log memCap verify ts s d db s' d' db' Hr) as [-> Hc].
  split_and!; [done|exact Hc|by apply marks_last|].
  apply (ticks_no_hole memCap verify g h ts s d db [] pk Hg Ho H0). intros m a c Hm. set_solver.
Qed.

(** A fetch that ingests for ten seconds past its deadline can still take an EOSE that
    was waiting, and with no event in progress it cannot: [g] is not always 0. *)
Theorem select_takes_eose_past_deadline memCap verify {S} `{!EventSaver S} ev now (s : S) d :
  (fetchLoop memCap verify 300 0 [mkTurn 299 (SelEvent now ev) 11; mkTurn 305 SelEOSE 0] s d).1.1 = true /\
  (fetchLoop memCap verify 300 0 [mkTurn 299 (SelEvent now ev) 1; mkTurn 305 SelEOSE 0] s d).1.1 = false.
Proof. simpl. by destruct (ingestStep memCap verify now ev s d) as [[? ?] ?]. Qed.

(** Two ticks, a full sweep and an incremental fetch; the first relay is down, and
    the fetches take a minute. *)
Definition demo_at (t : Z) : Visit :=
  mkVisit None (fun _ => false) (fun _ => (t - 60) * Second) (fun _ => None) (fun _ => (t - 59) * Second)
    (fun _ _ => [mkTurn ((t - 50) * Second) (SelEvent 1 (demo_ev demo_id)) Second; mkTurn ((t - 2) * Second) SelEOSE 0])
    (fun _ => t) (fun _ => None) (fun _ => t) (fun _ => None).
Definition demo_ticks : list Tick :=
  [mkTick [("alice", false, (None, None), 100000 * Second)]
     [(false, demo_visit (Some (Opaque "refused")) []); (false, demo_at 100060)];
   mkTick [("alice", false, (None, None), 100600 * Second)] [(false, demo_at 100660)]].

#[local] Instance no_saver : EventSaver unit := { save_event := fun _ s => (None, s) }.

Lemma priority_leaves_no_hole_witness :
  let '(_, _, db') := Run 10 trusted ["alice"] ["r1"; "r2"] demo_ticks tt NewDedup emptyDB in
  let log := runLog 10 trusted ["alice"] ["r1"; "r2"] demo_ticks tt NewDedup emptyDB in
  map snd log = [mkJob "alice" None true; mkJob "alice" (Some 92860) false] /\
  LastFetched None "alice" db' = Ok 100660 /\
  no_hole (fetchOverlap - fetchTimeout - 0 - 2 * Second) (logOf "alice" log).
Proof.
  set (log := runLog 10 trusted ["alice"] ["r1"; "r2"] demo_ticks tt NewDedup emptyDB).
  destruct (Run 10 trusted ["alice"] ["r1"; "r2"] demo_ticks tt NewDedup emptyDB) as [[s' d'] db'] eqn:E.
  destruct (priority_leaves_no_hole 10 trusted 0 (2 * Second) ["alice"] ["r1"; "r2"] demo_ticks tt s' NewDedup d'
    emptyDB db' "alice") as (_ & _ & H1 & H2).
  - reflexivity.
  - done.
  - assert (logOf "alice" log = [(demo_at 100060, 0%nat, mkJob "alice" None true);
      (demo_at 100660, 0%nat, mkJob "alice" (Some 92860) false)]) as El by reflexivity.
    unfold log in El. rewrite El. apply Forall_cons; split; [|apply Forall_singleton].
    + exists (100011 * Second), (100058 * Second). split; [vm_compute; reflexivity|vm_compute; split; congruence].
    + exists (100611 * Second), (100658 * Second). split; [vm_compute; reflexivity|vm_compute; split; congruence].
  - exact E.
  - split; [reflexivity|]. split; [exact H1|exact H2].
Defined.
