(* ===== verification/ControlOpen.v ===== *)
(** * Opening the control database (internal/control/control.go)

    [Open]: the schema script, then [migrateCrawlState], which adds the column
    last_full_sweep to a crawl_state table made by an older version. A database file
    is what SQLite stores: tables that may be missing, and for crawl_state the
    columns it was created with. [view] is the content the other operations of
    Control.v see. *)

From S2P Require Import Prelude Config Control Nostr Classifier Dedup Ingest Priority.

(** crawl_state as stored: its columns, and for each pubkey the integers in them. *)
Record CrawlTable := mkCrawlTable {
  ct_columns : list string;
  ct_rows : gmap string (gmap string Z);
}.

Record File := mkFile {
  f_crawl : option CrawlTable;
  f_scheduled : option (gmap string ScheduledRow);
  f_seen : option (list SeenRow);
  f_allowed : option (gmap string (string * Z));
}.

Definition crawl_columns : list string := ["pubkey"; "last_fetched"; "last_full_sweep"; "updated_at"].

(** [CREATE TABLE IF NOT EXISTS] *)
Definition create {A} (a : A) (x : option A) : option A := Some (default a x).

(** The statements of [schema] in order: crawl_state, scheduled_events, its index,
    seen_events, allowed_pubkeys; the first [k] of them are run. *)
Definition execSchema (k : nat) (f : File) : File :=
  mkFile (if decide (1 <= k)%nat then create (mkCrawlTable crawl_columns ∅) (f_crawl f) else f_crawl f)
         (if decide (2 <= k)%nat then create ∅ (f_scheduled f) else f_scheduled f)
         (if decide (4 <= k)%nat then create [] (f_seen f) else f_seen f)
         (if decide (5 <= k)%nat then create ∅ (f_allowed f) else f_allowed f).

(** The loop over [PRAGMA table_info(crawl_state)]; [fault] is a failing Scan. *)
Fixpoint scanColumns (fault : nat -> option error) (k : nat) (cols : list string) (has : bool) : result bool :=
  match cols with
  | [] => Ok has
  | name :: cols' =>
      match fault k with
      | Some e => Err e
      | None => scanColumns fault (S k) cols' (if String.eqb name "last_full_sweep" then true else has)
      end
  end.

(** [ALTER TABLE crawl_state ADD COLUMN last_full_sweep INTEGER NOT NULL DEFAULT 0] *)
Definition addColumn (t : CrawlTable) : CrawlTable :=
  mkCrawlTable (ct_columns t ++ ["last_full_sweep"])
    ((fun m : gmap string Z => <["last_full_sweep" := 0]> m) <$> ct_rows t).

Record OpenEnv := mkOpenEnv {
  o_open : option error;                    (* sql.Open *)
  o_schema : option (nat * error);          (* the statement at which the script fails *)
  o_info : option error;                    (* PRAGMA table_info *)
  o_scan : nat -> option error;
  o_rows : option error;
  o_alter : option error;
}.

Definition migrateCrawlState (env : OpenEnv) (f : File) : option error * File :=
  match o_info env with
  | Some e => (Some (Wrapped "crawl_state table_info" e), f)
  | None =>
      let cols := match f_crawl f with Some t => ct_columns t | None => [] end in
      match scanColumns (o_scan env) 0 cols false with
      | Err e => (Some e, f)
      | Ok has =>
          match o_rows env with
          | Some e => (Some e, f)
          | None =>
              if has then (None, f)
              else match o_alter env with
                   | Some e => (Some (Wrapped "add last_full_sweep" e), f)
                   | None => (None, mkFile (addColumn <$> f_crawl f) (f_scheduled f) (f_seen f) (f_allowed f))
                   end
          end
      end
  end.

Definition OpenDB (env : OpenEnv) (f : File) : option error * File :=
  match o_open env with
  | Some e => (Some e, f)
  | None =>
      match o_schema env with
      | Some (k, e) => (Some (Wrapped "control schema init" e), execSchema (Nat.min k 4) f)
      | None => migrateCrawlState env (execSchema 5 f)
      end
  end.

(** ** What the queries see *)

Definition crawl_view (m : gmap string Z) : CrawlState :=
  mkCrawlState (default 0 (m !! "last_fetched")) (default 0 (m !! "last_full_sweep"))
    (default 0 (m !! "updated_at")).

Definition view (f : File) : DB :=
  mkDB (default [] (f_seen f)) (default ∅ (f_allowed f))
    (crawl_view <$> default ∅ (ct_rows <$> f_crawl f)) (default ∅ (f_scheduled f)).

(** What every version of crawl_state had, and what the operations of Control.v name. *)
Definition legacyColumns : list string := ["pubkey"; "last_fetched"; "updated_at"].
Definition namedColumns : list string := "last_full_sweep" :: legacyColumns.

(** A file some version made: a crawl_state table has at least the columns of the oldest
    version, and a row has values in columns of its table only. *)
Definition file_ok (f : File) : Prop :=
  forall t, f_crawl f = Some t -> legacyColumns ⊆ ct_columns t /\
    forall pk m c, ct_rows t !! pk = Some m -> is_Some (m !! c) -> c ∈ ct_columns t.

(** Everything the operations of Control.v name is there. *)
Definition complete (f : File) : Prop :=
  is_Some (f_scheduled f) /\ is_Some (f_seen f) /\ is_Some (f_allowed f) /\
  exists t, f_crawl f = Some t /\ namedColumns ⊆ ct_columns t.

Definition noFaults : OpenEnv := mkOpenEnv None None None (fun _ => None) None None.

(** ** Lemmas *)

Lemma scanColumns_ok cols k has :
  scanColumns (fun _ => None) k cols has = Ok (has || bool_decide ("last_full_sweep" ∈ cols)).
Proof.
  revert k has. induction cols as [|c cols IH]; intros k has; cbn [scanColumns]; [by rewrite orb_false_r|].
  rewrite IH. f_equal. destruct (String.eqb_spec c "last_full_sweep") as [->|Hne].
  - rewrite (bool_decide_eq_true_2 ("last_full_sweep" ∈ "last_full_sweep" :: cols)) by set_solver.
    by rewrite orb_true_r.
  - f_equal. apply bool_decide_ext. set_solver.
Qed.

Lemma scanColumns_has fault cols k has b :
  scanColumns fault k cols has = Ok b -> b = has || bool_decide ("last_full_sweep" ∈ cols).
Proof.
  intros H. assert (scanColumns (fun _ => None) k cols has = Ok b) as H'.
  - revert k has H. induction cols as [|c cols IH]; intros k has; simpl; [done|].
    destruct (fault k); [done|]. apply IH.
  - rewrite scanColumns_ok in H'. by injection H'.
Qed.

Lemma execSchema_view k f : view (execSchema k f) = view f.
Proof.
  unfold view, execSchema, create. simpl.
  repeat case_decide; destruct f as [[] [] [] []]; simpl; try reflexivity; by rewrite fmap_empty.
Qed.

Lemma execSchema_ok k f : file_ok f -> file_ok (execSchema k f).
Proof.
  intros Hok t Ht. unfold execSchema, create in Ht. simpl in Ht.
  destruct (f_crawl f) as [t0|] eqn:E0; case_decide; simplify_eq/=; eauto.
  split; [apply (bool_decide_unpack _); by vm_compute|]. intros pk m c Hm. by rewrite lookup_empty in Hm.
Qed.

Lemma execSchema_fill j k f : (j <= k)%nat -> execSchema k (execSchema j f) = execSchema k f.
Proof.
  intros Hjk. unfold execSchema, create. simpl.
  repeat case_decide; try lia; destruct f as [[] [] [] []]; reflexivity.
Qed.

(** A migration that found nothing to do, or did its work. *)
Lemma migrate_cases env f :
  (migrateCrawlState env f).2 = f \/ (migrateCrawlState env f).2 = (migrateCrawlState noFaults f).2.
Proof.
  unfold migrateCrawlState. destruct (o_info env); [by left|]. cbn [o_info noFaults o_scan].
  rewrite scanColumns_ok. destruct (scanColumns (o_scan env) 0 _ false) as [has|e] eqn:Es; [|by left].
  apply scanColumns_has in Es. rewrite <-Es. destruct (o_rows env); [by left|].
  destruct has; [by left|]. destruct (o_alter env); [by left|by right].
Qed.

(** On a table that exists, the migration adds the column exactly when it is missing. *)
Lemma migrate_table f t :
  f_crawl f = Some t ->
  migrateCrawlState noFaults f =
    (None, mkFile (Some (if decide ("last_full_sweep" ∈ ct_columns t) then t else addColumn t))
             (f_scheduled f) (f_seen f) (f_allowed f)).
Proof.
  intros Et. unfold migrateCrawlState. simpl. rewrite Et, scanColumns_ok. simpl.
  rewrite decide_bool_decide. destruct (bool_decide _); [|done]. by destruct f; simplify_eq/=.
Qed.

Lemma addColumn_view t pk m :
  "last_full_sweep" ∉ ct_columns t ->
  (forall c, is_Some (m !! c) -> c ∈ ct_columns t) -> ct_rows t !! pk = Some m ->
  crawl_view (<["last_full_sweep" := 0]> m) = crawl_view m.
Proof.
  intros Hn Hok Hm. unfold crawl_view.
  rewrite lookup_insert_eq, !(lookup_insert_ne _ "last_full_sweep") by done.
  destruct (m !! "last_full_sweep") eqn:Em; [|done]. exfalso. by eapply Hn, Hok.
Qed.

(** The migration is invisible to the queries and makes the table complete. *)
Lemma migrate_view f t :
  file_ok f -> f_crawl f = Some t ->
  view (migrateCrawlState noFaults f).2 = view f /\ file_ok (migrateCrawlState noFaults f).2.
Proof.
  intros Hok Et. rewrite (migrate_table f t Et). simpl. destruct (decide _) as [Hin|Hn].
  { by destruct f; simplify_eq/=. }
  split.
  - unfold view. simpl. rewrite Et. simpl. f_equal. rewrite <-map_fmap_compose. apply map_fmap_ext.
    intros pk m Hm. simpl. eapply addColumn_view; [done|intros c; by eapply (Hok t Et)|done].
  - intros t' Ht. simpl in Ht. simplify_eq. destruct (Hok t Et) as [Hl Hv]. simpl.
    split; [set_solver|]. intros pk m c Hm Hc.
    apply lookup_fmap_Some in Hm as (m0 & <- & Hm0).
    rewrite lookup_insert_is_Some in Hc. apply elem_of_app.
    destruct Hc as [<-|[_ Hc]]; [right; apply list_elem_of_here|left; by eapply Hv].
Qed.

Lemma schema_table f : exists t, f_crawl (execSchema 5 f) = Some t.
Proof. by eexists. Qed.

(** The state one undisturbed [OpenDB] leads to. *)
Definition opened (f : File) : File := (OpenDB noFaults f).2.

Lemma opened_spec f :
  file_ok f -> OpenDB noFaults f = (None, opened f) /\ complete (opened f) /\ view (opened f) = view f /\
  file_ok (opened f) /\ opened (opened f) = opened f.
Proof.
  intros Hok. destruct (schema_table f) as [t Et].
  assert (OpenDB noFaults f = migrateCrawlState noFaults (execSchema 5 f)) as EO by done.
  destruct (migrate_view _ t (execSchema_ok 5 f Hok) Et) as [Hv Hf].
  unfold opened. rewrite EO. split; [by rewrite (migrate_table _ t Et)|].
  set (g := (migrateCrawlState noFaults (execSchema 5 f)).2) in *.
  assert (exists t', f_crawl g = Some t' /\ namedColumns ⊆ ct_columns t') as (t' & Et' & Hin).
  { assert (exists t', f_crawl g = Some t' /\ "last_full_sweep" ∈ ct_columns t') as (t' & Et' & Hin).
    - unfold g. rewrite (migrate_table _ t Et). simpl. eexists. split; [done|].
      case_decide; [done|]. simpl. apply elem_of_app. right. apply list_elem_of_here.
    - exists t'. split; [done|]. pose proof (proj1 (Hf t' Et')). unfold namedColumns. set_solver. }
  assert (is_Some (f_scheduled g) /\ is_Some (f_seen g) /\ is_Some (f_allowed g)) as (Hs1 & Hs2 & Hs3).
  { unfold g. rewrite (migrate_table _ t Et). simpl. unfold create. eauto. }
  split; [by split_and!; eauto|]. split; [by rewrite Hv, execSchema_view|]. split; [done|].
  assert (execSchema 5 g = g) as Hfix.
  { destruct g as [[] [] [] []]; simpl in *; destruct Hs1, Hs2, Hs3; simplify_eq; done. }
  change ((migrateCrawlState noFaults (execSchema 5 g)).2 = g). rewrite Hfix.
  rewrite (migrate_table g t' Et'), decide_True by (apply Hin, list_elem_of_here). simpl. by destruct g; simplify_eq/=.
Qed.

(** Every attempt, failed or not, leaves a file with the same content and future. *)
Lemma OpenDB_any env f err f' :
  file_ok f -> OpenDB env f = (err, f') ->
  view f' = view f /\ file_ok f' /\ opened f' = opened f /\ (err = None -> f' = opened f).
Proof.
  intros Hok HO.
  destruct (opened_spec f Hok) as (_ & _ & Hv & Hf & Hidem). unfold OpenDB in HO.
  destruct (o_open env); [by simplify_eq|]. destruct (o_schema env) as [[k e]|].
  { simplify_eq. split_and!; [by rewrite execSchema_view|by apply execSchema_ok| |done].
    unfold opened, OpenDB. simpl. by rewrite execSchema_fill by lia. }
  assert (err = None -> f' = opened f) as Hnil.
  { intros ->. destruct (schema_table f) as [t Et]. unfold opened.
    change (f' = (migrateCrawlState noFaults (execSchema 5 f)).2).
    rewrite (migrate_table _ t Et). revert HO. unfold migrateCrawlState. rewrite Et.
    destruct (o_info env); [done|]. destruct (scanColumns _ _ _ _) as [has|] eqn:Es; [|done].
    apply scanColumns_has in Es. rewrite decide_bool_decide. simpl in Es. rewrite <-Es.
    destruct (o_rows env); [done|]. destruct has; [|destruct (o_alter env)]; intros [= <-]; [|done].
    destruct (execSchema 5 f) eqn:E5. by simplify_eq/=. }
  destruct (migrate_cases env (execSchema 5 f)) as [E|E]; rewrite HO in E; simpl in E; subst f'.
  - split_and!; [by rewrite execSchema_view|by apply execSchema_ok| |done].
    unfold opened, OpenDB. simpl. by rewrite execSchema_fill by lia.
  - split_and!; [exact Hv|exact Hf|exact Hidem|done].
Qed.

(** ** Properties *)

(** C32: opening the control database never loses data and can always be retried.
    On any database file, new, made by this version, by an older one (whose crawl_state
    lacks last_full_sweep) or by a failed attempt, and whatever fails: the rows every query
    sees are unchanged; a nil result means all four tables exist, crawl_state with the
    columns pubkey, last_fetched, last_full_sweep and updated_at, and the file is the one
    an undisturbed open produces; after a failed open a later one reaches the same file,
    and opening again changes nothing. A file that predates the column makes the
    priority crawler sweep the full history of every pubkey next. *)
Theorem control_open_safe env f err f' :
  file_ok f -> OpenDB env f = (err, f') ->
  view f' = view f /\ (err = None -> complete f' /\ f' = opened f) /\
  OpenDB noFaults f' = (None, opened f) /\
  (forall t pk now, f_crawl f = Some t -> "last_full_sweep" ∉ ct_columns t -> fullSweepAge <= now ->
     decideSince None None now pk (view f') = (None, true)).
Proof.
  intros Hok HO. destruct (OpenDB_any env f err f' Hok HO) as (Hv & Hok' & Ho & Hnil).
  split; [done|]. split; [|split].
  - intros He. split; [|by apply Hnil]. rewrite (Hnil He). by apply opened_spec.
  - rewrite <-Ho. by apply opened_spec.
  - intros t pk now Et Hn Hnow. rewrite Hv. unfold decideSince, LastFetched, LastSwept.
    assert (match crawl_state (view f) !! pk with Some c => last_full_sweep c | None => 0 end = 0) as ->.
    { simpl. rewrite Et. simpl. rewrite lookup_fmap. destruct (ct_rows t !! pk) as [m|] eqn:Em; [|done]. simpl.
      destruct (m !! "last_full_sweep") eqn:El; [|done]. exfalso. eapply Hn, (Hok t Et); eauto. }
    rewrite (proj2 (Z.leb_le fullSweepAge (now - 0 * Second))) by lia. by rewrite orb_true_r.
Qed.

(** A file of an older version, opened while ALTER TABLE fails once. *)
Definition legacyFile : File :=
  mkFile (Some (mkCrawlTable ["pubkey"; "last_fetched"; "updated_at"]
    {[ "alice" := <["last_fetched" := 900]> (<["updated_at" := 900]> ∅) ]})) None None None.

Lemma control_open_safe_witness :
  let f' := (OpenDB (mkOpenEnv None None None (fun _ => None) None (Some (Opaque "locked"))) legacyFile).2 in
  OpenDB noFaults f' = (None, opened legacyFile) /\
  decideSince None None (25 * Hour) "alice" (view f') = (None, true).
Proof.
  destruct (control_open_safe (mkOpenEnv None None None (fun _ => None) None (Some (Opaque "locked"))) legacyFile
    (Some (Wrapped "add last_full_sweep" (Opaque "locked")))
    (OpenDB (mkOpenEnv None None None (fun _ => None) None (Some (Opaque "locked"))) legacyFile).2)
    as (_ & _ & H1 & H2).
  - intros t Ht. simpl in Ht. injection Ht as <-. split; [apply (bool_decide_unpack _); vm_compute; exact I|].
    intros pk m c Hm Hc. simpl in *. apply lookup_singleton_Some in Hm as [_ <-].
    rewrite !lookup_insert_is_Some, lookup_empty in Hc.
    destruct Hc as [<-|[_ [<-|[_ [? ?]]]]]; [| |discriminate]; apply (bool_decide_unpack _); vm_compute; exact I.
  - vm_compute. reflexivity.
  - split; [exact H1|]. eapply H2; [reflexivity| |vm_compute; discriminate].
    apply (bool_decide_unpack _). vm_compute. exact I.
Defined.
