(* ===== verification/Stats.v ===== *)
(** * Statistics (internal/stats/stats.go)

    The snapshot tables, the refresh jobs that rebuild them with SQL over the tier
    tables, and the queries of the API. Each statement can fail, and each one reads
    the server clock for itself: [today] is an argument per statement. [tz] is the
    server's UTC offset in seconds. *)

From S2P Require Import Prelude Nostr Config Rows Collapse FilterSQL Query Reads.

(** ** GROUP BY *)

Section group_by.
Context {A K V : Type} `{EqDecision K}.

(** [SELECT key, agg(...) ... GROUP BY key], rows without a key being filtered out. *)
Definition groupBy (key : A -> option K) (agg : list A -> V) (l : list A) : list (K * V) :=
  map (fun k => (k, agg (filter (fun a => key a = Some k) l))) (remove_dups (omap key l)).
End group_by.

Definition countDistinct {A B} `{EqDecision B} (f : A -> B) (l : list A) : Z :=
  Z.of_nat (length (remove_dups (map f l))).
Definition sumZ (l : list Z) : Z := foldr Z.add 0 l.

(** [sum(...)] of a UInt64 column. *)
Definition sumU64 (l : list Z) : Z := uint64 (sumZ l).

(** The sum of a table's rows for one key. *)
Definition total {K} `{EqDecision K} (k : K) (tbl : list (K * Z)) : Z :=
  sumZ (map snd (filter (fun e => e.1 = k) tbl)).

(** ** State *)

Record MonthKey := mkMonthKey { mk_note : string; mk_month : Z; mk_metric : string }.
#[export] Instance MonthKey_eq_dec : EqDecision MonthKey.
Proof. solve_decision. Defined.

Record Snapshots := mkSnapshots {
  author_follower_counts : list (string * Z);
  author_follower_counts_staging : list (string * Z);
  stats_note_monthly : list (MonthKey * (Z * Z));     (* count, sats *)
  stats_daily : list (Z * string * Z);
  stats_daily_active : list (Z * gset string);        (* uniqState *)
}.

Record Service := mkService { engineChecked : bool; engineErr : option error }.
Definition New : Service := mkService false None.

(** ** Calendar *)

Section stats.
Variable tz : Z.
Variable zapAmount : string -> Z.       (* toUInt64OrZero(extract(tags_raw, ...)) *)
Context `{!GoSort row_desc}.

(** [toDate(toDateTime(ts))] as a day number, and its month as a month number
    (Gregorian, counted from March of year 0). *)
Definition toDate (ts : Z) : Z := (ts + tz) / 86400.
Definition toStartOfMonth (day : Z) : Z :=
  let z := day + 719468 in
  let era := z / 146097 in
  let doe := z - era * 146097 in
  let yoe := (doe - doe / 1460 + doe / 36524 - doe / 146096) / 365 in
  let doy := doe - (365 * yoe + yoe / 4 - yoe / 100) in
  12 * (yoe + era * 400) + (5 * doy + 2) / 153.

(** ** Followers *)

(** The latest contact list of each author: kind 3, not tombstoned, [FINAL],
    [ORDER BY created_at DESC, id ASC LIMIT 1 BY pubkey]. *)
Definition contactRow (dict : gset string) (r : Row) : Prop := row_kind r = 3 /\ row_id r ∉ dict.
#[export] Instance contactRow_dec dict r : Decision (contactRow dict r).
Proof. unfold contactRow. apply _. Defined.

Definition contactLists (dict : gset string) (permanent : list Row) : list Row :=
  limit_1_by row_pubkey [] (go_sort row_desc
    (filter (contactRow dict) (limit_1_by final_key [] permanent))).

(** [arrayJoin(tag_p)], then [count(DISTINCT author) GROUP BY p_tag]. *)
Definition follows (r : Row) : list (string * string) := map (fun p => (row_pubkey r, p)) (tag_p r).
Definition followerCounts (dict : gset string) (permanent : list Row) : list (string * Z) :=
  groupBy (fun ap : string * string => Some ap.2) (countDistinct fst)
    (concat (map follows (contactLists dict permanent))).

Definition set_followers (live staging : list (string * Z)) (t : Snapshots) : Snapshots :=
  mkSnapshots live staging (stats_note_monthly t) (stats_daily t) (stats_daily_active t).

(** The database engine is looked up once and the verdict kept. *)
Definition checkEngine (engine : result string) (s : Service) : option error * Service :=
  if engineChecked s then (engineErr s, s)
  else match engine with
       | Err e => (Some (Wrapped "check database engine" e), s)
       | Ok eng =>
           let err := if String.eqb eng "Atomic" then engineErr s
                      else Some (Opaque "follower refresh requires Atomic database engine") in
           (err, mkService true err)
       end.

Definition RefreshFollowers (engine : result string) (ftrunc fins fswap : option error)
    (dict : gset string) (permanent : list Row) (s : Service) (t : Snapshots)
    : option error * Service * Snapshots :=
  match checkEngine engine s with
  | (Some e, s') => (Some e, s', t)
  | (None, s') =>
      match ftrunc with
      | Some e => (Some (Wrapped "truncate" e), s', t)
      | None =>
          let t1 := set_followers (author_follower_counts t) [] t in
          match fins with
          | Some e => (Some (Wrapped "build follower staging" e), s', t1)
          | None =>
              let t2 := set_followers (author_follower_counts t) (followerCounts dict permanent) t in
              match fswap with
              | Some e => (Some (Wrapped "exchange follower snapshot" e), s', t2)
              | None => (None, s', set_followers (author_follower_counts_staging t2)
                                     (author_follower_counts t2) t2)
              end
          end
      end
  end.

(** No row is a known zero. *)
Definition Followers (fault : option error) (pk : string) (t : Snapshots) : result Z :=
  match fault with
  | Some e => Err e
  | None => match filter (fun e => e.1 = pk) (author_follower_counts t) with
            | [] => Ok 0
            | e :: _ => Ok e.2
            end
  end.

(** ** Daily rollups *)

Definition dailyMetric (kind : Z) : string :=
  if kind =? 1 then "posts" else if kind =? 7 then "reactions"
  else if bool_decide (kind ∈ [6; 16]) then "reposts" else if kind =? 9735 then "zaps" else "".

(** The bucket an event row counts in, [None] when the WHERE clauses drop it.
    [created_at >= toUnixTimestamp(today() - 3)] is a comparison of days. *)
Definition dailyKey (dict : gset string) (today : Z) (r : Row) : option (Z * string) :=
  if bool_decide (row_kind r ∈ [1; 6; 7; 16; 9735]) && (today - 3 <=? toDate (row_created_at r))
     && bool_decide (row_id r ∉ dict) && negb (String.eqb (dailyMetric (row_kind r)) "")
  then Some (toDate (row_created_at r), dailyMetric (row_kind r)) else None.

Definition set_daily (d : list (Z * string * Z)) (t : Snapshots) : Snapshots :=
  mkSnapshots (author_follower_counts t) (author_follower_counts_staging t) (stats_note_monthly t) d
    (stats_daily_active t).

Definition RefreshDaily (fdel : option error) (today1 : Z) (fins : option error) (today2 : Z)
    (dict : gset string) (events_all : list Row) (t : Snapshots) : option error * Snapshots :=
  match fdel with
  | Some e => (Some (Wrapped "delete" e), t)
  | None =>
      let kept := filter (fun e => ~ today1 - 3 <= e.1.1) (stats_daily t) in
      match fins with
      | Some e => (Some e, set_daily kept t)
      | None => (None, set_daily (kept ++ groupBy (dailyKey dict today2) (countDistinct row_id) events_all) t)
      end
  end.

(** ** Daily active authors *)

Definition set_active (d : list (Z * gset string)) (t : Snapshots) : Snapshots :=
  mkSnapshots (author_follower_counts t) (author_follower_counts_staging t) (stats_note_monthly t)
    (stats_daily t) d.

Definition activeKey (dict : gset string) (today : Z) (r : Row) : option Z :=
  if (today - 3 <=? toDate (row_created_at r)) && bool_decide (row_id r ∉ dict)
  then Some (toDate (row_created_at r)) else None.

Definition RefreshDailyActive (fdel : option error) (today1 : Z) (fins : option error) (today2 : Z)
    (dict : gset string) (events_all : list Row) (t : Snapshots) : option error * Snapshots :=
  match fdel with
  | Some e => (Some (Wrapped "delete" e), t)
  | None =>
      let kept := filter (fun e => ~ today1 - 3 <= e.1) (stats_daily_active t) in
      match fins with
      | Some e => (Some e, set_active kept t)
      | None =>
          (None, set_active (kept ++ groupBy (activeKey dict today2)
                   (fun rs => list_to_set (map row_pubkey rs)) events_all) t)
      end
  end.

(** ** Monthly note engagement *)

(** A row of the inner UNION ALL: note, month, metric, id, amount. *)
Record Engage := mkEngage { en_key : MonthKey; en_id : string; en_amount : Z }.
#[export] Instance Engage_eq_dec : EqDecision Engage.
Proof. solve_decision. Defined.

Definition noteMetric (kind : Z) : string :=
  if kind =? 7 then "reaction" else if bool_decide (kind ∈ [6; 16]) then "repost"
  else if kind =? 1 then "reply" else if kind =? 9735 then "zap" else "".

Definition inWindow (dict : gset string) (today : Z) (r : Row) : bool :=
  bool_decide (row_id r ∉ dict) &&
  (toStartOfMonth today - 1 <=? toStartOfMonth (toDate (row_created_at r))).

(** [tag_e[1]], the empty string when there is none. *)
Definition firstE (r : Row) : string := default "" (head (tag_e r)).

Definition engageOf (dict : gset string) (today : Z) (r : Row) : option Engage :=
  if bool_decide (row_kind r ∈ [1; 6; 7; 16]) && inWindow dict today r &&
     ((row_kind r =? 1) && negb (String.eqb (row_reply_to r) "") ||
      bool_decide (row_kind r ∈ [6; 7; 16; 9735]) && bool_decide (tag_e r ≠ []))
  then Some (mkEngage (mkMonthKey (if row_kind r =? 1 then row_reply_to r else firstE r)
               (toStartOfMonth (toDate (row_created_at r))) (noteMetric (row_kind r))) (row_id r) 0)
  else None.

Definition zapOf (dict : gset string) (today : Z) (r : Row) : option Engage :=
  if (row_kind r =? 9735) && bool_decide (tag_e r ≠ []) && inWindow dict today r
  then Some (mkEngage (mkMonthKey (firstE r) (toStartOfMonth (toDate (row_created_at r))) "zap")
               (row_id r) (zapAmount (row_tags_raw r)))
  else None.

(** [LIMIT 1 BY id] keeps one physical copy of each zap. *)
Definition engagements (dict : gset string) (today : Z) (events_all : list Row) : list Engage :=
  omap (engageOf dict today) events_all ++
  limit_1_by en_id [] (omap (zapOf dict today) events_all).

Definition monthlyKey (e : Engage) : option MonthKey :=
  if negb (String.eqb (mk_metric (en_key e)) "") && negb (String.eqb (mk_note (en_key e)) "")
  then Some (en_key e) else None.

Definition set_monthly (m : list (MonthKey * (Z * Z))) (t : Snapshots) : Snapshots :=
  mkSnapshots (author_follower_counts t) (author_follower_counts_staging t) m (stats_daily t)
    (stats_daily_active t).

Definition monthlyAgg (es : list Engage) : Z * Z := (countDistinct en_id es, sumU64 (map en_amount es)).

Definition RefreshNoteMonthly (fdel : option error) (today1 : Z) (fins : option error) (today2 : Z)
    (dict : gset string) (events_all : list Row) (t : Snapshots) : option error * Snapshots :=
  match fdel with
  | Some e => (Some (Wrapped "delete" e), t)
  | None =>
      let kept := filter (fun e => ~ toStartOfMonth today1 - 1 <= mk_month e.1) (stats_note_monthly t) in
      match fins with
      | Some e => (Some e, set_monthly kept t)
      | None => (None, set_monthly
                   (kept ++ groupBy monthlyKey monthlyAgg (engagements dict today2 events_all)) t)
      end
  end.

(** ** Queries of the API

    [rows.Next()] is false after the last row, and also when the result stream breaks
    after [k] rows. These queries never ask [rows.Err()]. *)
Definition readRows {A} (broken : option nat) (rows : list A) : list A :=
  match broken with Some k => take k rows | None => rows end.

(** [sum(count)], [sum(sats)] per metric, all months; [int64(c)], [int64(ss)]. *)
Definition Engagement (fault : option error) (broken : option nat) (noteID : string) (t : Snapshots) : result (gmap string Z) :=
  match fault with
  | Some e => Err e
  | None =>
      let rows := groupBy (fun e : MonthKey * (Z * Z) =>
                             if String.eqb (mk_note e.1) noteID then Some (mk_metric e.1) else None)
                    (fun es => (int64 (sumU64 (map (fun e => e.2.1) es)), int64 (sumU64 (map (fun e => e.2.2) es))))
                    (stats_note_monthly t) in
      Ok (foldl (fun out r => <[r.1 +:+ "_sats" := r.2.2]> (<[r.1 := r.2.1]> out)) ∅ (readRows broken rows))
  end.

Definition daily_order : relation (Z * string * Z) :=
  fun a b => b.1.1 < a.1.1 \/ a.1.1 = b.1.1 /\ String.le a.1.2 b.1.2.

#[export] Instance daily_order_dec : RelDecision daily_order.
Proof. unfold daily_order. intros a b. apply _. Defined.
#[export] Instance daily_order_trans : Transitive daily_order.
Proof.
  intros a b c [?|[? Hab]] [?|[? Hbc]]; [left; lia..|]. right. split; [lia|]. by transitivity b.1.2.
Qed.
#[export] Instance daily_order_total : Total daily_order.
Proof.
  intros a b. unfold daily_order. destruct (base.total String.le a.1.2 b.1.2), (Z.lt_trichotomy a.1.1 b.1.1) as [?|[?|?]];
    auto 6 with lia.
Qed.

Definition Daily `{!GoSort daily_order} (fault : option error) (broken : option nat) (today days : Z) (t : Snapshots)
    : result (list (Z * string * Z)) :=
  match fault with
  | Some e => Err e
  | None => Ok (readRows broken (go_sort daily_order
      (groupBy (fun e : Z * string * Z => if today - int32 days <=? e.1.1 then Some e.1 else None)
         (fun es => sumU64 (map snd es)) (stats_daily t))))
  end.

Definition dau_order : relation (Z * Z) := fun a b => b.1 <= a.1.

#[export] Instance dau_order_dec : RelDecision dau_order.
Proof. unfold dau_order. intros a b. apply _. Defined.
#[export] Instance dau_order_trans : Transitive dau_order.
Proof. unfold dau_order. intros a b c. lia. Qed.
#[export] Instance dau_order_total : Total dau_order.
Proof. unfold dau_order. intros a b. lia. Qed.

(** [uniqMerge] is ClickHouse's estimate of the size of a union of states. *)
Definition DAU `{!GoSort dau_order} (uniqMerge : list (gset string) -> Z) (fault : option error)
    (broken : option nat) (today days : Z) (t : Snapshots) : result (list (Z * Z)) :=
  match fault with
  | Some e => Err e
  | None => Ok (readRows broken (go_sort dau_order
      (groupBy (fun e : Z * gset string => if today - int32 days <=? e.1 then Some e.1 else None)
         (fun es => uniqMerge (map snd es)) (stats_daily_active t))))
  end.

(** [refreshAll]: each job runs whatever became of the ones before it. *)
Record RefreshEnv := mkRefreshEnv {
  re_engine : result string; re_follow : nat -> option error;
  re_days : nat -> Z; re_fault : nat -> option error }.

Definition refreshAll (env : RefreshEnv) (dict : gset string) (permanent events_all : list Row)
    (s : Service) (t : Snapshots) : Service * Snapshots :=
  let '(_, s1, t1) := RefreshFollowers (re_engine env) (re_follow env 0) (re_follow env 1) (re_follow env 2)
                        dict permanent s t in
  let t2 := (RefreshNoteMonthly (re_fault env 0) (re_days env 0) (re_fault env 1) (re_days env 1) dict events_all t1).2 in
  let t3 := (RefreshDaily (re_fault env 2) (re_days env 2) (re_fault env 3) (re_days env 3) dict events_all t2).2 in
  let t4 := (RefreshDailyActive (re_fault env 4) (re_days env 4) (re_fault env 5) (re_days env 5) dict events_all t3).2 in
  (s1, t4).
End stats.

(** ** Lemmas *)

Lemma sumZ_app l k : sumZ (l ++ k) = sumZ l + sumZ k.
Proof. unfold sumZ. induction l as [|x l IH]; simpl; lia. Qed.

Lemma sumZ_perm l k : l ≡ₚ k -> sumZ l = sumZ k.
Proof. unfold sumZ. induction 1; simpl; lia. Qed.

Lemma total_app {K} `{EqDecision K} (k : K) t1 t2 : total k (t1 ++ t2) = total k t1 + total k t2.
Proof. unfold total. by rewrite filter_app, map_app, sumZ_app. Qed.

Lemma filter_none {A} (P : A -> Prop) `{!forall x, Decision (P x)} (l : list A) :
  (forall x, x ∈ l -> ~ P x) -> filter P l = [].
Proof.
  induction l as [|x l IH]; intros Hn; [done|]. rewrite filter_cons_False by (apply Hn; set_solver).
  apply IH. set_solver.
Qed.

Lemma filter_key_map {A K} `{EqDecision K} (g : K -> A) ks k :
  NoDup ks -> filter (fun e : K * A => e.1 = k) (map (fun k => (k, g k)) ks) =
              if decide (k ∈ ks) then [(k, g k)] else [].
Proof.
  induction ks as [|x ks IH]; intros Hnd; [done|]. apply NoDup_cons in Hnd as [Hx Hnd]. simpl.
  destruct (decide (x = k)) as [->|Hne].
  - rewrite filter_cons_True by done. rewrite IH, decide_False, decide_True by set_solver. done.
  - rewrite filter_cons_False by done. rewrite IH by done.
    destruct (decide (k ∈ ks)); [by rewrite decide_True by set_solver|by rewrite decide_False by set_solver].
Qed.

Lemma groupBy_filter {A K V} `{EqDecision K} (key : A -> option K) (agg : list A -> V) l k :
  filter (fun e => e.1 = k) (groupBy key agg l) =
  if decide (k ∈ omap key l) then [(k, agg (filter (fun a => key a = Some k) l))] else [].
Proof.
  unfold groupBy. rewrite (filter_key_map (fun k => agg (filter (fun a => key a = Some k) l)))
    by apply NoDup_remove_dups.
  destruct (decide (k ∈ omap key l)) as [Hk|Hk];
    [by rewrite decide_True by (by apply elem_of_remove_dups)|
     by rewrite decide_False by (by rewrite elem_of_remove_dups)].
Qed.

Lemma keyless {A K} `{EqDecision K} (key : A -> option K) l k :
  k ∉ omap key l -> filter (fun a => key a = Some k) l = [].
Proof. intros Hk. apply filter_none. intros a Ha E. apply Hk, list_elem_of_omap. eauto. Qed.

Lemma groupBy_total {A K} `{EqDecision K} (key : A -> option K) (agg : list A -> Z) l k :
  agg [] = 0 -> total k (groupBy key agg l) = agg (filter (fun a => key a = Some k) l).
Proof.
  intros H0. unfold total. rewrite groupBy_filter. case_decide as Hk; simpl; [lia|].
  by rewrite (keyless _ _ _ Hk).
Qed.

Lemma total_kept {K} `{EqDecision K} (P : K -> Prop) `{!forall k, Decision (P k)} (k : K) tbl :
  total k (filter (fun e => ~ P e.1) tbl) = if decide (P k) then 0 else total k tbl.
Proof.
  unfold total. rewrite list_filter_filter. case_decide as HP.
  - rewrite filter_none; [done|]. intros e _ [-> ?]. done.
  - do 2 f_equal. apply list_filter_iff. intros e. split; [by intros [? _]|]. intros ->. done.
Qed.

Lemma limit_1_by_remove_dups {A K} `{EqDecision A, EqDecision K} (key : A -> K) l :
  (forall x y, x ∈ l -> y ∈ l -> key x = key y -> x = y) ->
  limit_1_by key [] l ≡ₚ remove_dups l.
Proof.
  intros Hinj. apply NoDup_Permutation; [apply limit_1_by_NoDup|apply NoDup_remove_dups|].
  intros x. rewrite elem_of_remove_dups. split.
  - intros Hx. eapply sublist_subseteq, Hx. apply limit_1_by_sublist.
  - intros Hx. destruct (limit_1_by_first key [] l x Hx) as (y & l1 & l2 & E & Hy & Hk & Hin); [set_solver|].
    assert (y = x) as ->; [|done]. apply Hinj; [|done|done]. rewrite E. set_solver.
Qed.

(** A row whose event counts for the metric on the day. *)
Definition counts_for (tz : Z) (dict : gset string) (day : Z) (metric : string) (r : Row) : Prop :=
  row_id r ∉ dict /\ toDate tz (row_created_at r) = day /\ dailyMetric (row_kind r) = metric.
#[export] Instance counts_for_dec tz dict day metric r : Decision (counts_for tz dict day metric r).
Proof. unfold counts_for. apply _. Defined.

Lemma dailyMetric_in_scope k : dailyMetric k ≠ "" <-> k ∈ [1; 6; 7; 16; 9735].
Proof.
  unfold dailyMetric. split.
  - intros Hm. repeat case_match; try done;
      rewrite ?Z.eqb_eq in *; try (rewrite bool_decide_eq_true in *); set_solver.
  - intros Hk. set_unfold in Hk. naive_solver.
Qed.

Lemma dailyKey_spec tz dict today r day metric :
  dailyKey tz dict today r = Some (day, metric) <->
  counts_for tz dict day metric r /\ metric ≠ "" /\ today - 3 <= day.
Proof.
  unfold dailyKey, counts_for.
  destruct (bool_decide (row_kind r ∈ [1; 6; 7; 16; 9735]) &&
    (today - 3 <=? toDate tz (row_created_at r)) && bool_decide (row_id r ∉ dict) &&
    negb (String.eqb (dailyMetric (row_kind r)) "")) eqn:E.
  - rewrite !andb_true_iff, !bool_decide_eq_true, Z.leb_le, negb_true_iff, String.eqb_neq in E.
    naive_solver.
  - split; [done|]. intros ((Hd & Hday & Hm) & Hne & Hw). subst day metric.
    pose proof (proj1 (dailyMetric_in_scope _) Hne) as Hk.
    rewrite (bool_decide_eq_true_2 _ Hk), (bool_decide_eq_true_2 _ Hd), (proj2 (Z.leb_le _ _)) in E by done.
    simpl in E. apply negb_false_iff, String.eqb_eq in E. done.
Qed.

Lemma daily_kept today k tbl :
  total k (filter (fun e : Z * string * Z => ~ today - 3 <= e.1.1) tbl) =
  if decide (today - 3 <= k.1) then 0 else total k tbl.
Proof. exact (total_kept (fun k : Z * string => today - 3 <= k.1) k tbl). Qed.

(** The newest contact list of its author that is not tombstoned. *)
Definition latest_contacts (dict : gset string) (permanent : list Row) (r : Row) : Prop :=
  r ∈ permanent /\ contactRow dict r /\
  forall y, y ∈ permanent -> contactRow dict y -> row_pubkey y = row_pubkey r -> row_desc r y.

Lemma contactLists_elem `{!GoSort row_desc} dict permanent r :
  ids_identify permanent -> r ∈ contactLists dict permanent <-> latest_contacts dict permanent r.
Proof.
  intros Hids. unfold contactLists, latest_contacts.
  set (L := filter (contactRow dict) (limit_1_by final_key [] permanent)).
  assert (forall x, x ∈ L <-> contactRow dict x /\ x ∈ permanent) as HL.
  { intros x. unfold L. rewrite list_elem_of_filter, final_elem by done. done. }
  assert (antisym_on row_desc L) as Hanti.
  { apply ids_antisym. eapply ids_identify_subseteq, Hids. intros x Hx. by apply HL. }
  rewrite (limit_1_by_winners row_desc row_pubkey L Hanti), winners_elem, HL. unfold wins.
  rewrite Forall_forall. split.
  - intros [[Hc Hp] Hw]. split_and!; [done|done|]. intros y Hy Hcy. apply Hw. by apply HL.
  - intros (Hp & Hc & Hw). split; [done|]. intros y Hy%HL. apply Hw; tauto.
Qed.

Definition followers_of (dict : gset string) (permanent : list Row) (pk author : string) : Prop :=
  exists r, latest_contacts dict permanent r /\ row_pubkey r = author /\ pk ∈ tag_p r.

Lemma followerCounts_exact `{!GoSort row_desc} dict permanent pk :
  ids_identify permanent ->
  exists authors, NoDup authors /\ (forall a, a ∈ authors <-> followers_of dict permanent pk a) /\
    filter (fun e => e.1 = pk) (followerCounts dict permanent) =
      if decide (authors = []) then [] else [(pk, Z.of_nat (length authors))].
Proof.
  intros Hids. set (pairs := concat (map follows (contactLists dict permanent))).
  set (sel := filter (fun ap : string * string => Some ap.2 = Some pk) pairs).
  exists (remove_dups (map fst sel)). split; [apply NoDup_remove_dups|]. split.
  - intros a. rewrite elem_of_remove_dups. unfold sel, pairs, followers_of, follows. split.
    + intros ([a' p] & -> & [[= ->] Hin]%list_elem_of_filter)%list_elem_of_fmap.
      apply concat_elem in Hin as (l & (r & -> & Hr)%list_elem_of_fmap & Hin).
      apply list_elem_of_fmap in Hin as (p & [= -> ->] & Hp). exists r. simpl.
      split_and!; [by apply contactLists_elem|done|done].
    + intros (r & Hr & <- & Hp). apply list_elem_of_fmap. exists (row_pubkey r, pk).
      split; [done|]. apply list_elem_of_filter. split; [done|]. apply concat_elem.
      exists (follows r). split; [apply list_elem_of_fmap; exists r; split; [done|by apply contactLists_elem]|].
      apply list_elem_of_fmap. by exists pk.
  - unfold followerCounts. fold pairs. rewrite groupBy_filter. fold sel.
    case_decide as Hin; case_decide as He; try done; exfalso.
    + assert (sel ≠ []) as Hs.
      { apply list_elem_of_omap in Hin as (ap & Hap & E). intros Hn.
        apply (not_elem_of_nil ap). rewrite <-Hn. by apply list_elem_of_filter. }
      destruct sel as [|ap sel']; [done|]. simpl in He. case_decide as Hd; [|done].
      apply elem_of_remove_dups in Hd. rewrite He in Hd. by apply not_elem_of_nil in Hd.
    + apply He. unfold sel. by rewrite (keyless _ _ _ Hin).
Qed.

(** ** Monthly engagement, order-free *)

Section monthly.
Variable tz : Z.
Variable zapAmount : string -> Z.

Definition target (r : Row) : string := if row_kind r =? 1 then row_reply_to r else firstE r.
Definition monthOf (r : Row) : Z := toStartOfMonth (toDate tz (row_created_at r)).

(** The row's event engages with the note, in the month, in the metric. *)
Definition engaged (dict : gset string) (k : MonthKey) (r : Row) : Prop :=
  row_id r ∉ dict /\ monthOf r = mk_month k /\ noteMetric (row_kind r) = mk_metric k /\ target r = mk_note k.
#[export] Instance engaged_dec dict k r : Decision (engaged dict k r).
Proof. unfold engaged. apply _. Defined.

Definition proper_key (today : Z) (k : MonthKey) : Prop :=
  mk_metric k ≠ "" /\ mk_note k ≠ "" /\ toStartOfMonth today - 1 <= mk_month k.

Lemma noteMetric_kinds k : noteMetric k ≠ "" -> k ∈ [1; 6; 7; 16] \/ k = 9735.
Proof.
  unfold noteMetric. repeat case_match; rewrite ?Z.eqb_eq in *; try (rewrite bool_decide_eq_true in *); intros; set_solver.
Qed.

Lemma firstE_nonempty r : firstE r ≠ "" -> tag_e r ≠ [].
Proof. unfold firstE. by destruct (tag_e r). Qed.

Lemma engageOf_key dict today k r e :
  engageOf tz dict today r = Some e -> en_key e = k ->
  engaged dict k r /\ row_kind r ≠ 9735 /\ en_id e = row_id r /\ en_amount e = 0.
Proof.
  unfold engageOf, inWindow, engaged, target, monthOf. case_match eqn:E; [|done]. intros [= <-] <-. simpl.
  rewrite !andb_true_iff, !bool_decide_eq_true in E. destruct E as [[Hk [Hd _]] _].
  split_and!; try done. intros Hz. rewrite Hz in Hk. set_unfold in Hk. lia.
Qed.

Lemma zapOf_key dict today k r e :
  zapOf tz zapAmount dict today r = Some e -> en_key e = k ->
  engaged dict k r /\ row_kind r = 9735 /\ en_id e = row_id r /\ en_amount e = zapAmount (row_tags_raw r).
Proof.
  unfold zapOf, inWindow, engaged, target, monthOf. case_match eqn:E; [|done]. intros [= <-] <-. simpl.
  rewrite !andb_true_iff, !bool_decide_eq_true, Z.eqb_eq in E. destruct E as [[Hk _] [Hd _]].
  rewrite Hk. split_and!; done.
Qed.

(** An engaged row contributes to one of the two subqueries, zaps to the second. *)
Lemma engaged_entry dict today k r :
  proper_key today k -> engaged dict k r ->
  exists e, en_key e = k /\ en_id e = row_id r /\
    (row_kind r ≠ 9735 /\ engageOf tz dict today r = Some e \/
     row_kind r = 9735 /\ zapOf tz zapAmount dict today r = Some e).
Proof.
  intros (Hm & Hn & Hw) (Hd & Hmo & Hme & Hta). unfold monthOf in Hmo.
  assert (inWindow tz dict today r = true) as Hwin.
  { unfold inWindow. rewrite bool_decide_eq_true_2 by done. apply Z.leb_le. lia. }
  destruct (decide (row_kind r = 9735)) as [Hz|Hz].
  - assert (tag_e r ≠ []) as He.
    { apply firstE_nonempty. unfold target in Hta. rewrite Hz in Hta. simpl in Hta. by rewrite Hta. }
    eexists (mkEngage k (row_id r) (zapAmount (row_tags_raw r))). split_and!; [done|done|right; split; [done|]].
    unfold zapOf. rewrite Hwin, Hz, bool_decide_eq_true_2 by done. simpl. do 3 f_equal.
    unfold target in Hta. rewrite Hz in Hta, Hme. simpl in Hta, Hme. destruct k. simpl in *. change (noteMetric 9735) with "zap" in Hme. congruence.
  - rewrite <-Hme in Hm. destruct (noteMetric_kinds _ Hm) as [Hk|Hk]; [|done].
    exists (mkEngage k (row_id r) 0). split_and!; [done|done|left; split; [done|]].
    unfold engageOf. rewrite Hwin, (bool_decide_eq_true_2 _ Hk). simpl.
    assert ((row_kind r =? 1) && negb (String.eqb (row_reply_to r) "") ||
      bool_decide (row_kind r ∈ [6; 7; 16; 9735]) && bool_decide (tag_e r ≠ []) = true) as ->.
    { unfold target in Hta. destruct (Z.eqb_spec (row_kind r) 1) as [H1|H1]; simpl.
      - apply orb_true_iff. left. apply negb_true_iff, String.eqb_neq. congruence.
      - apply andb_true_iff. rewrite !bool_decide_eq_true. split; [set_solver|].
        apply firstE_nonempty. congruence. }
    do 3 f_equal. destruct k. unfold target in Hta. simpl in *. congruence.
Qed.

Lemma omap_elem {A B} (f : A -> option B) (l : list A) y : y ∈ omap f l <-> exists x, x ∈ l /\ f x = Some y.
Proof. rewrite list_elem_of_omap. naive_solver. Qed.

Lemma zap_injective dict today rows x y :
  ids_identify rows -> x ∈ omap (zapOf tz zapAmount dict today) rows ->
  y ∈ omap (zapOf tz zapAmount dict today) rows -> en_id x = en_id y -> x = y.
Proof.
  intros Hids (r1 & H1 & E1)%omap_elem (r2 & H2 & E2)%omap_elem E.
  pose proof (zapOf_key _ _ _ _ _ E1 eq_refl) as (_ & _ & I1 & _).
  pose proof (zapOf_key _ _ _ _ _ E2 eq_refl) as (_ & _ & I2 & _).
  assert (r1 = r2) by (apply Hids; congruence). congruence.
Qed.

Lemma monthlyKey_proper today k e : proper_key today k -> monthlyKey e = Some k <-> en_key e = k.
Proof.
  intros (Hm & Hn & _). unfold monthlyKey. split.
  - case_match; congruence.
  - intros <-. by rewrite (proj2 (String.eqb_neq _ _) Hm), (proj2 (String.eqb_neq _ _) Hn).
Qed.

Lemma zaps_once dict today rows e :
  ids_identify rows ->
  e ∈ limit_1_by en_id [] (omap (zapOf tz zapAmount dict today) rows) <->
  exists r, r ∈ rows /\ zapOf tz zapAmount dict today r = Some e.
Proof.
  intros Hids. rewrite limit_1_by_remove_dups, elem_of_remove_dups, omap_elem; [done|].
  intros x y. by apply (zap_injective dict today rows).
Qed.

(** Which ids are grouped under a key. *)
Lemma engagement_ids dict today k rows i :
  ids_identify rows -> proper_key today k ->
  i ∈ map en_id (filter (fun e => monthlyKey e = Some k) (engagements tz zapAmount dict today rows)) <->
  i ∈ map row_id (filter (engaged dict k) rows).
Proof.
  intros Hids Hk. split.
  - intros (e & -> & [He Hin]%list_elem_of_filter)%list_elem_of_fmap.
    apply (monthlyKey_proper today) in He; [|done].
    unfold engagements in Hin. rewrite elem_of_app, zaps_once, omap_elem in Hin by done. apply list_elem_of_fmap.
    destruct Hin as [(r & Hr & E)|(r & Hr & E)]; exists r;
      [destruct (engageOf_key _ _ _ _ _ E He) as (? & _ & -> & _)|destruct (zapOf_key _ _ _ _ _ E He) as (? & _ & -> & _)];
      (split; [done|by apply list_elem_of_filter]).
  - intros (r & -> & [He Hr]%list_elem_of_filter)%list_elem_of_fmap.
    destruct (engaged_entry dict today k r Hk He) as (e & Hke & <- & Hcase). apply list_elem_of_fmap.
    exists e. split; [done|]. apply list_elem_of_filter. split; [by apply (monthlyKey_proper today)|].
    unfold engagements. rewrite elem_of_app, zaps_once, omap_elem by done. naive_solver.
Qed.

Lemma countDistinct_ext {A B C} `{EqDecision C} (f : A -> C) (g : B -> C) l k :
  (forall c, c ∈ map f l <-> c ∈ map g k) -> countDistinct f l = countDistinct g k.
Proof.
  intros Hc. unfold countDistinct. f_equal. apply Permutation_length, NoDup_Permutation;
    [apply NoDup_remove_dups..|]. intros c. by rewrite !elem_of_remove_dups.
Qed.

(** Every zap's amount enters once. *)
Lemma engagement_sats dict today k rows :
  ids_identify rows -> proper_key today k ->
  sumZ (map en_amount (filter (fun e => monthlyKey e = Some k) (engagements tz zapAmount dict today rows))) =
  sumZ (map (fun r => zapAmount (row_tags_raw r))
          (filter (fun r => engaged dict k r /\ row_kind r = 9735) (remove_dups rows))).
Proof.
  intros Hids Hk. unfold engagements. rewrite filter_app, map_app, sumZ_app.
  assert (forall es, (forall e, e ∈ es -> en_amount e = 0) -> sumZ (map en_amount es) = 0) as Hzero.
  { intros es. induction es as [|e es IH]; intros H0; [done|]. simpl. unfold sumZ in *. simpl.
    rewrite H0 by set_solver. rewrite IH by set_solver. done. }
  rewrite Hzero, Z.add_0_l.
  2:{ intros e [He (r & Hr & E)%omap_elem]%list_elem_of_filter. apply (monthlyKey_proper today) in He; [|done].
      by destruct (engageOf_key _ _ _ _ _ E He) as (_ & _ & _ & ?). }
  set (g := fun r => mkEngage k (row_id r) (zapAmount (row_tags_raw r))).
  set (zr := filter (fun r => engaged dict k r /\ row_kind r = 9735) (remove_dups rows)).
  transitivity (sumZ (map en_amount (map g zr))); [|by rewrite map_map].
  apply sumZ_perm, Permutation_map. apply NoDup_Permutation.
  - apply NoDup_filter, limit_1_by_NoDup.
  - apply NoDup_fmap_2_strong; [|apply NoDup_filter, NoDup_remove_dups].
    intros r1 r2 [_ H1]%list_elem_of_filter [_ H2]%list_elem_of_filter E.
    rewrite elem_of_remove_dups in H1, H2. apply Hids; [done|done|]. by apply (f_equal en_id) in E.
  - intros e. rewrite list_elem_of_filter, zaps_once, monthlyKey_proper, list_elem_of_fmap by done. split.
    + intros (Hke & r & Hr & E). destruct (zapOf_key _ _ _ _ _ E Hke) as (? & ? & Hi & Ha).
      exists r. split; [destruct e; unfold g; simpl in *; congruence|].
      apply list_elem_of_filter. by rewrite elem_of_remove_dups.
    + intros (r & -> & [[He Hz] Hr]%list_elem_of_filter). rewrite elem_of_remove_dups in Hr. split; [done|]. exists r.
      split; [done|]. destruct (engaged_entry dict today k r Hk He) as (e & Hke & Hi & [[? _]|[_ E]]); [done|].
      destruct (zapOf_key _ _ _ _ _ E Hke) as (_ & _ & _ & Ha). rewrite E. destruct e. unfold g. simpl in *. congruence.
Qed.
End monthly.

(** ** Properties *)

(** The follower snapshot is exact and swapped atomically. A refresh that
    returns nil makes [Followers] answer, for every pubkey, the number of distinct
    authors whose newest live contact list names it; a refresh that fails at any
    statement, or on a non-Atomic database, leaves every answer as it was. *)
Theorem follower_snapshot_exact `{!GoSort row_desc} engine f1 f2 f3 dict permanent s s' t t' err pk :
  ids_identify permanent ->
  RefreshFollowers engine f1 f2 f3 dict permanent s t = (err, s', t') ->
  (err = None -> exists authors, NoDup authors /\
     (forall a, a ∈ authors <-> followers_of dict permanent pk a) /\
     Followers None pk t' = Ok (Z.of_nat (length authors))) /\
  (err ≠ None -> Followers None pk t' = Followers None pk t).
Proof.
  intros Hids. unfold RefreshFollowers.
  destruct (checkEngine engine s) as [[e|] s1]; [by intros [= <- <- <-]|].
  destruct f1; [by intros [= <- <- <-]|]. destruct f2; [by intros [= <- <- <-]|].
  destruct f3; intros [= <- <- <-]; [done|]. split; [intros _|done].
  destruct (followerCounts_exact dict permanent pk Hids) as (authors & Hnd & Ha & Hf).
  exists authors. split_and!; [done|done|]. unfold Followers. simpl. rewrite Hf.
  case_decide as He; [by rewrite He|done].
Qed.

(** The daily rollup is exact and never counts twice. After a refresh whose two
    statements see the same date, the total of every metric on every day of the
    window is the number of distinct live event ids of that day, however many
    physical copies the tiers hold and however often the job ran before; days
    before the window keep their totals. *)
Theorem daily_refresh_exact tz today dict events_all t t' day metric :
  metric ≠ "" -> RefreshDaily tz None today None today dict events_all t = (None, t') ->
  total (day, metric) (stats_daily t') =
    if decide (today - 3 <= day)
    then countDistinct row_id (filter (counts_for tz dict day metric) events_all)
    else total (day, metric) (stats_daily t).
Proof.
  intros Hm [= <-]. simpl.
  rewrite total_app, groupBy_total by done.
  rewrite daily_kept. simpl. case_decide as Hw.
  - rewrite Z.add_0_l. f_equal. apply list_filter_iff. intros r. rewrite dailyKey_spec. tauto.
  - rewrite filter_none; [unfold countDistinct; simpl; lia|].
    intros r _ (_ & _ & ?)%dailyKey_spec. lia.
Qed.

(** A refresh across midnight drops a day for good. The DELETE and the INSERT
    read the date separately; when midnight passes between them, the day three days
    back is deleted and not rebuilt, and no later refresh rebuilds it. *)
Theorem midnight_refresh_loses_a_day tz today dict events_all t t1 t2 today' metric :
  metric ≠ "" -> today < today' ->
  RefreshDaily tz None today None (today + 1) dict events_all t = (None, t1) ->
  RefreshDaily tz None today' None today' dict events_all t1 = (None, t2) ->
  total (today - 3, metric) (stats_daily t1) = 0 /\ total (today - 3, metric) (stats_daily t2) = 0.
Proof.
  intros Hm Hlt [= <-] [= <-]. simpl.
  assert (forall d, today < d -> filter (fun r => dailyKey tz dict d r = Some (today - 3, metric)) events_all = []) as Hnil.
  { intros d Hd. apply filter_none. intros r _ (_ & _ & ?)%dailyKey_spec. lia. }
  rewrite !total_app, !groupBy_total, !Hnil by (done || lia).
  rewrite !daily_kept. simpl. rewrite (decide_True 0) by lia. rewrite decide_False by lia.
  rewrite total_app, groupBy_total, Hnil, daily_kept by (done || lia). simpl. by rewrite decide_True by lia.
Qed.

Definition counts_of (t : Snapshots) : list (MonthKey * Z) := map (fun e => (e.1, e.2.1)) (stats_note_monthly t).
Definition sats_of (t : Snapshots) : list (MonthKey * Z) := map (fun e => (e.1, e.2.2)) (stats_note_monthly t).

Lemma monthly_project tz zapAmount today dict events_all t (f : Z * Z -> Z) k :
  f (0, 0) = 0 ->
  let kept := filter (fun e : MonthKey * (Z * Z) => ~ toStartOfMonth today - 1 <= mk_month e.1) (stats_note_monthly t) in
  total k (map (fun e => (e.1, f e.2))
    (kept ++ groupBy monthlyKey monthlyAgg (engagements tz zapAmount dict today events_all))) =
  (if decide (toStartOfMonth today - 1 <= mk_month k) then 0
   else total k (map (fun e => (e.1, f e.2)) (stats_note_monthly t))) +
  f (monthlyAgg (filter (fun e => monthlyKey e = Some k) (engagements tz zapAmount dict today events_all))).
Proof.
  intros Hf kept. rewrite map_app, total_app. f_equal.
  - transitivity (total k (filter (fun e : MonthKey * Z => ~ toStartOfMonth today - 1 <= mk_month e.1)
      (map (fun e => (e.1, f e.2)) (stats_note_monthly t))));
      [|exact (total_kept (fun k : MonthKey => toStartOfMonth today - 1 <= mk_month k) k _)]. f_equal.
    unfold kept. induction (stats_note_monthly t) as [|e l IH]; [done|]. rewrite !filter_cons. simpl.
    rewrite filter_cons. simpl. case_decide; simpl; by rewrite IH.
  - unfold groupBy. rewrite map_map. simpl.
    exact (groupBy_total monthlyKey (fun es => f (monthlyAgg es)) _ k Hf).
Qed.

(** C23: the monthly engagement rollup is exact. After a refresh whose two statements
    see the same date, for every note, metric and month of the window the count is the
    number of distinct live events that engage with the note and the sats are the sum
    over the distinct zaps, each once however many copies are stored, as a UInt64: modulo
    2^64, so the exact sum when it is below that; older months keep both. *)
Theorem monthly_refresh_exact tz zapAmount today dict events_all t t' k :
  ids_identify events_all -> mk_metric k ≠ "" -> mk_note k ≠ "" ->
  RefreshNoteMonthly tz zapAmount None today None today dict events_all t = (None, t') ->
  let zaps := sumZ (map (fun r => zapAmount (row_tags_raw r))
    (filter (fun r => engaged tz dict k r /\ row_kind r = 9735) (remove_dups events_all))) in
  (toStartOfMonth today - 1 <= mk_month k ->
     total k (counts_of t') = countDistinct row_id (filter (engaged tz dict k) events_all) /\
     total k (sats_of t') = uint64 zaps /\ (0 <= zaps < 2 ^ 64 -> total k (sats_of t') = zaps)) /\
  (mk_month k < toStartOfMonth today - 1 ->
     total k (counts_of t') = total k (counts_of t) /\ total k (sats_of t') = total k (sats_of t)).
Proof.
  intros Hids Hm Hn [= <-] zaps. unfold counts_of, sats_of. simpl.
  rewrite (monthly_project tz zapAmount today dict events_all t fst k eq_refl).
  rewrite (monthly_project tz zapAmount today dict events_all t snd k eq_refl).
  split; intros Hw; [rewrite !decide_True, !Z.add_0_l by done|rewrite !decide_False by lia].
  - assert (proper_key today k) as Hk by done.
    assert (forall es, (monthlyAgg es).2 = uint64 (sumZ (map en_amount es))) as Hagg by done.
    rewrite Hagg, engagement_sats by done. fold zaps.
    split_and!; [|done|intros Hz; unfold uint64; by apply Z.mod_small]. apply countDistinct_ext. intros i. by apply engagement_ids.
  - rewrite keyless; [split; simpl; apply Z.add_0_r|].
    intros (e & He & Hke)%omap_elem.
    assert (en_key e = k) as E by (revert Hke; unfold monthlyKey; case_match; congruence).
    assert (exists r, toStartOfMonth today - 1 <= monthOf tz r /\ monthOf tz r = mk_month k) as (r & ? & ?); [|lia].
    unfold engagements in He. rewrite elem_of_app, zaps_once, omap_elem in He by done.
    destruct He as [(r & _ & Hr)|(r & _ & Hr)]; exists r;
      [pose proof (engageOf_key tz dict today k r e Hr E) as [(_ & ? & _) _]; unfold engageOf in Hr
      |pose proof (zapOf_key tz zapAmount dict today k r e Hr E) as [(_ & ? & _) _]; unfold zapOf in Hr];
      (destruct (inWindow tz dict today r) eqn:Ew; [|rewrite !andb_false_r in Hr; done]);
      unfold inWindow in Ew; apply andb_true_iff in Ew as [_ Ew]; apply Z.leb_le in Ew; done.
Qed.

Lemma ids_identify_forall rows :
  Forall (fun r1 => Forall (fun r2 => row_id r1 = row_id r2 -> r1 = r2) rows) rows -> ids_identify rows.
Proof. intros Hf r1 r2 H1 H2. rewrite Forall_forall in Hf. specialize (Hf r1 H1). rewrite Forall_forall in Hf. auto. Qed.

Definition stat_row (i pk : string) (ts kind : Z) (tags : list (list string)) (reply : string) : Row :=
  mkRow i pk ts kind "" "" "21" tags reply.
Definition no_snapshots : Snapshots := mkSnapshots [] [] [] [] [].
Definition demo_contacts : list Row :=
  [stat_row "c1" "bob" 10 3 [["p"; "alice"]] ""; stat_row "c2" "bob" 20 3 [["p"; "carol"]] "";
   stat_row "c3" "dave" 5 3 [["p"; "carol"]] ""; stat_row "c3" "dave" 5 3 [["p"; "carol"]] ""].

Lemma follower_snapshot_exact_witness :
  let '(err, _, t) := RefreshFollowers (Ok "Atomic") None None None ∅ demo_contacts New no_snapshots in
  err = None /\ Followers None "carol" t = Ok 2 /\
  exists authors, NoDup authors /\ (forall a, a ∈ authors <-> followers_of ∅ demo_contacts "carol" a) /\
    length authors = 2%nat.
Proof.
  destruct (RefreshFollowers (Ok "Atomic") None None None ∅ demo_contacts New no_snapshots) as [[err s'] t] eqn:E.
  assert (err = None /\ Followers None "carol" t = Ok 2) as [-> HF]
    by (vm_compute in E; injection E as <- <- <-; by vm_compute).
  split; [done|]. split; [done|].
  destruct (follower_snapshot_exact (Ok "Atomic") None None None ∅ demo_contacts New s' no_snapshots t None "carol") as [H _].
  - apply ids_identify_forall, (bool_decide_unpack _). by vm_compute.
  - exact E.
  - destruct (H eq_refl) as (authors & Hn & Ha & Hl). exists authors. split_and!; [done|done|].
    rewrite HF in Hl. injection Hl as Hl. lia.
Defined.

Definition demo_events : list Row :=
  [stat_row "n1" "bob" 86400 1 [] "n0"; stat_row "n1" "bob" 86400 1 [] "n0";
   stat_row "z1" "eve" 86500 9735 [["e"; "n0"]] ""; stat_row "z1" "eve" 86500 9735 [["e"; "n0"]] ""].

Lemma daily_refresh_exact_witness :
  total (1, "posts") (stats_daily (RefreshDaily 0 None 2 None 2 ∅ demo_events
    (RefreshDaily 0 None 2 None 2 ∅ demo_events no_snapshots).2).2) = 1.
Proof.
  rewrite (daily_refresh_exact 0 2 ∅ demo_events
    (RefreshDaily 0 None 2 None 2 ∅ demo_events no_snapshots).2 _ 1 "posts"); [vm_compute; reflexivity|done|].
  vm_compute. reflexivity.
Defined.

Lemma midnight_refresh_loses_a_day_witness :
  let t0 := mkSnapshots [] [] [] [(1, "posts", 1)] [] in
  let t1 := (RefreshDaily 0 None 4 None 5 ∅ demo_events t0).2 in
  total (1, "posts") (stats_daily t0) = 1 /\ total (1, "posts") (stats_daily t1) = 0.
Proof.
  intros t0 t1. split; [reflexivity|].
  apply (midnight_refresh_loses_a_day 0 4 ∅ demo_events t0 t1 (RefreshDaily 0 None 5 None 5 ∅ demo_events t1).2 5 "posts");
    [done|lia|vm_compute; reflexivity..].
Defined.

Lemma monthly_refresh_exact_witness :
  let t := (RefreshNoteMonthly 0 (fun _ => 21) None 2 None 2 ∅ demo_events no_snapshots).2 in
  total (mkMonthKey "n0" (toStartOfMonth 1) "zap") (counts_of t) = 1 /\
  total (mkMonthKey "n0" (toStartOfMonth 1) "zap") (sats_of t) = 21.
Proof.
  intros t.
  destruct (monthly_refresh_exact 0 (fun _ => 21) 2 ∅ demo_events no_snapshots t
    (mkMonthKey "n0" (toStartOfMonth 1) "zap")) as [H _].
  - apply ids_identify_forall, (bool_decide_unpack _). by vm_compute.
  - discriminate.
  - discriminate.
  - vm_compute. reflexivity.
  - destruct H as (H1 & H2 & _); [by vm_compute|]. rewrite H1, H2. split; vm_compute; reflexivity.
Defined.

(** Two zaps that claim 2^63 each are stored as zero sats: amounts are taken from tags
    their sender writes, and their UInt64 sum wraps around. *)
Theorem zap_sums_wrap :
  let zap i := stat_row i "eve" 86500 9735 [["e"; "n0"]] "" in
  let t := (RefreshNoteMonthly 0 (fun _ => 2 ^ 63) None 2 None 2 ∅ [zap "z1"; zap "z2"] no_snapshots).2 in
  total (mkMonthKey "n0" (toStartOfMonth 1) "zap") (counts_of t) = 2 /\
  total (mkMonthKey "n0" (toStartOfMonth 1) "zap") (sats_of t) = 0.
Proof. split; by vm_compute. Qed.
