(* ===== verification/StatsRun.v ===== *)
(** * The statistics loop (internal/stats/stats.go)

    [Run] refreshes everything at start and every hour, and the follower counts every
    five minutes. The tables it reads change between the refreshes; each tick carries
    the tables its statements saw and the outcomes of those statements. *)

From S2P Require Import Prelude Nostr Config Classifier Rows FilterSQL Collapse Query Stats.

(** What one tick finds: tombstones, events_permanent, the view of all tiers. *)
Record Tables := mkTables { tb_dict : gset string; tb_permanent : list Row; tb_all : list Row }.

Inductive StatTick :=
  | FollowerTick (engine : result string) (ftrunc fins fswap : option error) (tb : Tables)
  | HourlyTick (env : RefreshEnv) (tb : Tables).

Definition tables_of (x : StatTick) : Tables :=
  match x with FollowerTick _ _ _ _ tb => tb | HourlyTick _ tb => tb end.

Section run.
Variable tz : Z.
Variable zapAmount : string -> Z.
Context `{!GoSort row_desc}.

Definition stat_step (st : Service * Snapshots) (x : StatTick) : Service * Snapshots :=
  let '(s, t) := st in
  match x with
  | FollowerTick engine f1 f2 f3 tb =>
      let '(_, s', t') := RefreshFollowers engine f1 f2 f3 (tb_dict tb) (tb_permanent tb) s t in (s', t')
  | HourlyTick env tb => refreshAll tz zapAmount env (tb_dict tb) (tb_permanent tb) (tb_all tb) s t
  end.

(** [Run]: the refresh at start, then the ticks in the order they fire. *)
Definition Run (first : RefreshEnv) (tb : Tables) (xs : list StatTick) (s : Service) (t : Snapshots)
    : Service * Snapshots :=
  foldl stat_step (s, t) (HourlyTick first tb :: xs).

(** The follower table served is [fc]: that of no refresh yet, or of one refresh. *)
Definition serves (fc0 : list (string * Z)) (seen : list Tables) (fc : list (string * Z)) : Prop :=
  fc = fc0 \/ exists tb, tb ∈ seen /\ fc = followerCounts (tb_dict tb) (tb_permanent tb).

Lemma RefreshFollowers_served engine f1 f2 f3 dict permanent s t :
  let '(err, _, t') := RefreshFollowers engine f1 f2 f3 dict permanent s t in
  author_follower_counts t' =
    match err with None => followerCounts dict permanent | Some _ => author_follower_counts t end.
Proof.
  unfold RefreshFollowers. destruct (checkEngine engine s) as [[e|] s1]; [done|]. by destruct f1, f2, f3.
Qed.

Lemma refreshAll_served env dict permanent events_all s t :
  let t' := (refreshAll tz zapAmount env dict permanent events_all s t).2 in
  author_follower_counts t' = author_follower_counts t \/ author_follower_counts t' = followerCounts dict permanent.
Proof.
  unfold refreshAll. pose proof (RefreshFollowers_served (re_engine env) (re_follow env 0) (re_follow env 1)
    (re_follow env 2) dict permanent s t) as H.
  destruct (RefreshFollowers _ _ _ _ _ _ _ _) as [[err s1] t1]. simpl.
  assert (forall f1 d1 f2 d2 t0, author_follower_counts (RefreshNoteMonthly tz zapAmount f1 d1 f2 d2 dict events_all t0).2 = author_follower_counts t0) as Hm
    by (intros [] ? [] ? ?; done).
  assert (forall f1 d1 f2 d2 t0, author_follower_counts (RefreshDaily tz f1 d1 f2 d2 dict events_all t0).2 = author_follower_counts t0) as Hd
    by (intros [] ? [] ? ?; done).
  assert (forall f1 d1 f2 d2 t0, author_follower_counts (RefreshDailyActive tz f1 d1 f2 d2 dict events_all t0).2 = author_follower_counts t0) as Ha
    by (intros [] ? [] ? ?; done).
  rewrite Ha, Hd, Hm, H. destruct err; auto.
Qed.

Lemma run_serves fc0 seen xs st :
  serves fc0 seen (author_follower_counts st.2) ->
  serves fc0 (seen ++ map tables_of xs) (author_follower_counts (foldl stat_step st xs).2).
Proof.
  revert seen st. induction xs as [|x xs IH]; intros seen [s t] Hs; simpl; [by rewrite app_nil_r|].
  rewrite (cons_middle (tables_of x)), app_assoc. apply IH.
  assert (serves fc0 (seen ++ [tables_of x]) (author_follower_counts t)) as Hold.
  { destruct Hs as [E|(tb & Htb & E)]; simpl in E; rewrite E; [by left|right; exists tb; set_solver]. }
  assert (serves fc0 (seen ++ [tables_of x]) (followerCounts (tb_dict (tables_of x)) (tb_permanent (tables_of x)))) as Hnew
    by (right; exists (tables_of x); set_solver).
  destruct x as [engine f1 f2 f3 tb|env tb]; simpl in *.
  - pose proof (RefreshFollowers_served engine f1 f2 f3 (tb_dict tb) (tb_permanent tb) s t) as H.
    destruct (RefreshFollowers _ _ _ _ _ _ _ _) as [[err s1] t1]. simpl. rewrite H. by destruct err.
  - destruct (refreshAll_served env (tb_dict tb) (tb_permanent tb) (tb_all tb) s t) as [H|H]; by rewrite H.
Qed.
End run.

(** ** Properties *)

(** C24: clients always see one whole follower snapshot. Through the start-up refresh
    and any sequence of ticks, with any statement of any refresh failing: either no
    refresh has succeeded and every answer is what it was at start, or there is one
    tick such that [Followers] answers, for every pubkey, the number of distinct
    authors whose newest live contact list at that tick names it; the answers never
    mix two refreshes and never show a half-built table. *)
Theorem followers_serve_one_snapshot tz zapAmount `{!GoSort row_desc} first tb xs s t s' t' :
  Forall (fun b => ids_identify (tb_permanent b)) (tb :: map tables_of xs) ->
  Run tz zapAmount first tb xs s t = (s', t') ->
  (forall pk, Followers None pk t' = Followers None pk t) \/
  exists b, b ∈ tb :: map tables_of xs /\
    forall pk, exists authors, NoDup authors /\
      (forall a, a ∈ authors <-> followers_of (tb_dict b) (tb_permanent b) pk a) /\
      Followers None pk t' = Ok (Z.of_nat (length authors)).
Proof.
  intros Hids Hr. pose proof (run_serves tz zapAmount (author_follower_counts t) []
    (HourlyTick first tb :: xs) (s, t) (or_introl eq_refl)) as Hs.
  unfold Run in Hr. rewrite Hr in Hs. simpl in Hs.
  destruct Hs as [E|(b & Hb & E)]; [left; intros pk; unfold Followers; by rewrite E|right].
  exists b. split; [done|]. intros pk. rewrite Forall_forall in Hids.
  destruct (followerCounts_exact (tb_dict b) (tb_permanent b) pk (Hids b Hb)) as (authors & Hnd & Ha & Hf).
  exists authors. split_and!; [done|done|]. unfold Followers. rewrite E, Hf.
  case_decide as He; [by rewrite He|done].
Qed.

(** A start with the database down, then a follower tick that succeeds. *)
Definition demo_down : RefreshEnv :=
  mkRefreshEnv (Err (Opaque "down")) (fun _ => None) (fun _ => 2) (fun _ => Some (Opaque "down")).
Definition demo_tables : Tables := mkTables ∅ demo_contacts demo_contacts.
Definition demo_run : list StatTick := [FollowerTick (Ok "Atomic") None None None demo_tables].

Lemma followers_serve_one_snapshot_witness :
  exists authors, NoDup authors /\ (forall a, a ∈ authors <-> followers_of ∅ demo_contacts "carol" a) /\
    length authors = 2%nat.
Proof.
  destruct (Run 0 (fun _ => 0) demo_down demo_tables demo_run New no_snapshots) as [s' t'] eqn:E.
  assert (Followers None "carol" t' = Ok 2) as HF by (vm_compute in E; injection E as _ <-; by vm_compute).
  destruct (followers_serve_one_snapshot 0 (fun _ => 0) demo_down demo_tables demo_run New no_snapshots s' t')
    as [H|(b & Hb & H)].
  - repeat constructor; apply ids_identify_forall, (bool_decide_unpack _); by vm_compute.
  - exact E.
  - exfalso. rewrite (H "carol") in HF. vm_compute in HF. discriminate.
  - assert (b = demo_tables) as -> by (simpl in Hb; set_solver).
    destruct (H "carol") as (authors & Hn & Ha & Hl). exists authors. split_and!; [done|done|].
    rewrite HF in Hl. injection Hl as Hl. lia.
Defined.
