(* ===== verification/Api.v ===== *)
(** * REST API (internal/api/api.go)

    The routes with their middleware (rate limit outermost, NIP-98 inside it), the
    parsing of query parameters, and every handler as the status and body it
    answers with. Snapshot queries are Stats.v, event queries Reads.v. *)

From S2P Require Import Prelude Nostr Config Classifier Rows FilterSQL Collapse Query TierWriter Store Reads.
From S2P Require Import Policy Access Stats.
From Stdlib Require Import Ascii.

(** ** [strconv.Atoi] on a 64-bit int *)

Definition digitVal (c : Ascii.ascii) : option Z :=
  let n := Z.of_nat (Ascii.nat_of_ascii c) in
  if (48 <=? n) && (n <=? 57) then Some (n - 48) else None.

Fixpoint parseDigits (s : string) (acc : Z) : option Z :=
  match s with
  | EmptyString => Some acc
  | String c s' => match digitVal c with Some d => parseDigits s' (10 * acc + d) | None => None end
  end.

Definition inInt64 (n : Z) : bool := (- 2 ^ 63 <=? n) && (n <? 2 ^ 63).

Definition Atoi (s : string) : option Z :=
  let '(neg, digits) :=
    match s with
    | String c s' => if Ascii.eqb c "-"%char then (true, s') else if Ascii.eqb c "+"%char then (false, s') else (false, s)
    | EmptyString => (false, s)
    end in
  match digits with
  | EmptyString => None
  | _ =>
      match parseDigits digits 0 with
      | Some n => let v := if neg : bool then - n else n in if inInt64 v then Some v else None
      | None => None
      end
  end.

(** ** Query parameters *)

(** [url.Values]: the values of each key in order; [Get] is the first or empty. *)
Definition Values : Type := gmap string (list string).
Definition vals (q : Values) (k : string) : list string := default [] (q !! k).
Definition Get (q : Values) (k : string) : string := default "" (head (vals q k)).

Definition queryInt (q : Values) (key : string) (def : Z) : Z :=
  let s := Get q key in
  if String.eqb s "" then def
  else match Atoi s with
       | None => def
       | Some n => if n <? 1 then def else n
       end.

Definition parseInts (ss : list string) : list Z := omap Atoi ss.

Definition capped {A} (max : Z) (l : list A) : list A :=
  if (0 <? max) && (max <? Z.of_nat (length l)) then take (Z.to_nat max) l else l.

Definition eventsFilter (q : Values) (breadth : RejectFilterBreadth) : Filter :=
  let ids := capped (b_MaxIDs breadth) (vals q "id") in
  let authors := capped (b_MaxAuthors breadth) (vals q "author") in
  let limit := match Atoi (Get q "limit") with
               | None => 100
               | Some n => if n <? 1 then 100 else n
               end in
  mkFilter ids (parseInts (vals q "kind")) authors [] None None (Z.min limit 1000).

(** ** Replies *)

Inductive JSON := JBool (b : bool) | JNum (n : Z) | JStr (s : string) | JObj (kvs : list (string * JSON)).

Inductive Body :=
  | BHealth (out : gmap string JSON)
  | BDaily (rows : list (Z * string * Z))
  | BDAU (rows : list (Z * Z))
  | BEngagement (m : gmap string Z)
  | BFollowers (pk : string) (n : Z)
  | BEvents (evs : list Event)
  | BError (msg : string).

Definition Reply : Type := Z * Body.
Definition StatusOK : Z := 200.
Definition StatusBadRequest : Z := 400.
Definition StatusInternalServerError : Z := 500.
Definition StatusServiceUnavailable : Z := 503.

(** [writeErr] *)
Definition writeErr (e : error) : Reply := (StatusInternalServerError, BError "error").

Inductive Route := RHealth | RDaily | RDAU | RNote | RPubkey | REvents.
#[export] Instance Route_eq_dec : EqDecision Route.
Proof. solve_decision. Defined.

(** [Register]: pattern, handler, public. A pattern ending in "/" is a subtree. *)
Definition Register : list (string * Route * bool) :=
  [("/v1/health", RHealth, true); ("/v1/stats/daily", RDaily, false); ("/v1/stats/dau", RDAU, false);
   ("/v1/note/", RNote, false); ("/v1/pubkey/", RPubkey, false); ("/v1/events", REvents, false)].

Definition subtree (pattern : string) : bool :=
  match String.get (String.length pattern - 1) pattern with
  | Some c => Ascii.eqb c "/"%char
  | None => false
  end.
Definition patternMatches (pattern path : string) : bool :=
  if subtree pattern then String.prefix pattern path else String.eqb pattern path.

Fixpoint route_in (rs : list (string * Route * bool)) (path : string) : option (string * Route * bool) :=
  match rs with
  | [] => None
  | r :: rs' => if patternMatches r.1.1 path then Some r else route_in rs' path
  end.

(** [r.URL.Path[len(prefix):]] *)
Definition pathTail (prefix path : string) : string :=
  String.substring (String.length prefix) (String.length path - String.length prefix) path.

(** What the environment decides for one request. *)
Record ApiEnv (E : Type) := mkApiEnv {
  a_ping : option error;
  a_parts : result Z;                        (* sum(rows) of system.parts *)
  a_extra : option (gmap string JSON);       (* healthExtra *)
  a_stats : option error;                    (* the snapshot query *)
  a_broken : option nat;                     (* its result stream breaks after so many rows *)
  a_today : Z;
  a_uniq : list (gset string) -> Z;
  a_query : QEnv E;
}.
Arguments mkApiEnv {E}. Arguments a_ping {E}. Arguments a_parts {E}. Arguments a_extra {E}.
Arguments a_stats {E}. Arguments a_broken {E}. Arguments a_today {E}. Arguments a_uniq {E}. Arguments a_query {E}.

Section api.
Context {W E : Type} `{!TierWriter W E}.
Variable json_str : string -> string.
Variable cls : gmap Z string.
Context `{!GoSort ev_desc, !GoSort row_desc, !GoSort row_rev, !GoSort daily_order, !GoSort dau_order}.
Variables (decode64 : string -> option string) (unmarshal : string -> option Event).
Variables (tagValue : Event -> string -> option string) (parseURL : string -> option (string * string)).
Variables (EqualFold : string -> string -> bool) (CheckSignature : Event -> bool).

Definition health (env : ApiEnv E) : Reply :=
  let chOK := match a_ping env with None => true | Some _ => false end in
  let events := if chOK then match a_parts env with Ok n => n | Err _ => 0 end else 0 in
  let out : gmap string JSON :=
    <["ok" := JBool chOK]> (<["clickhouse" := JBool chOK]> (<["events" := JNum events]>
      {["events_note" := JStr "physical rows (size gauge, includes duplicates/tombstoned)"]})) in
  let out := match a_extra env with Some m => m ∪ out | None => out end in
  (if chOK then StatusOK else StatusServiceUnavailable, BHealth out).

Definition daily (env : ApiEnv E) (q : Values) (t : Snapshots) : Reply :=
  match Daily (a_stats env) (a_broken env) (a_today env) (queryInt q "days" 30) t with
  | Err e => writeErr e
  | Ok rows => (StatusOK, BDaily rows)
  end.

Definition dau (env : ApiEnv E) (q : Values) (t : Snapshots) : Reply :=
  match DAU (a_uniq env) (a_stats env) (a_broken env) (a_today env) (queryInt q "days" 30) t with
  | Err e => writeErr e
  | Ok rows => (StatusOK, BDAU rows)
  end.

Definition noteEngagement (env : ApiEnv E) (path : string) (t : Snapshots) : Reply :=
  let i := pathTail "/v1/note/" path in
  if String.eqb i "" then (StatusBadRequest, BError "missing note id")
  else match Engagement (a_stats env) (a_broken env) i t with
       | Err e => writeErr e
       | Ok m => (StatusOK, BEngagement m)
       end.

Definition followers (env : ApiEnv E) (path : string) (t : Snapshots) : Reply :=
  let pk := pathTail "/v1/pubkey/" path in
  if String.eqb pk "" then (StatusBadRequest, BError "missing pubkey")
  else match Followers (a_stats env) pk t with
       | Err e => writeErr e
       | Ok n => (StatusOK, BFollowers pk n)
       end.

Definition events (env : ApiEnv E) (q : Values) (breadth : RejectFilterBreadth) (s : Store W)
    : Reply * Store W :=
  match QueryEvents json_str cls (a_query env) (eventsFilter q breadth) s with
  | (Err e, s') => (writeErr e, s')
  | (Ok evs, s') => ((StatusOK, BEvents evs), s')
  end.

Definition handle (env : ApiEnv E) (r : Route) (req : Request) (q : Values) (breadth : RejectFilterBreadth)
    (t : Snapshots) (s : Store W) : Reply * Store W :=
  match r with
  | RHealth => (health env, s)
  | RDaily => (daily env q t, s)
  | RDAU => (dau env q t, s)
  | RNote => (noteEngagement env (urlPath req) t, s)
  | RPubkey => (followers env (urlPath req) t, s)
  | REvents => events env q breadth s
  end.

(** The wrapped handler: [limiter.HTTP] outermost, then [access.HTTPAuth] unless the
    route is public; both are optional. *)
Definition limit (now : Z) (from : HTTPFrom) (l : option Limiter) : option Z * option Limiter :=
  match l with
  | None => (None, None)
  | Some l => let '(code, l') := HTTPWhen true now from l in (code, Some l')
  end.

Definition authorize (now : Z) (public : bool) (req : Request) (a : option Access) : option Z :=
  match a with
  | Some a => if public then None
              else HTTPAuth decode64 unmarshal tagValue parseURL EqualFold CheckSignature now req a
  | None => None
  end.

(** One request on an API route; [None] when the path is not one of them. *)
Definition ServeHTTP (env : ApiEnv E) (now : Z) (from : HTTPFrom) (req : Request) (q : Values)
    (breadth : RejectFilterBreadth) (l : option Limiter) (a : option Access) (t : Snapshots) (s : Store W)
    : option (Reply * option Limiter * Store W) :=
  match route_in Register (urlPath req) with
  | None => None
  | Some (_, r, public) =>
      match limit now from l with
      | (Some code, l') => Some ((code, BError "rate-limited"), l', s)
      | (None, l') =>
          match authorize now public req a with
          | Some code => Some ((code, BError "unauthorized"), l', s)
          | None => let '(reply, s') := handle env r req q breadth t s in Some (reply, l', s')
          end
      end
  end.
End api.

(** ** Lemmas *)

Lemma capped_over {A} max (l : list A) : over max (capped max l) = false.
Proof.
  unfold over, capped. destruct (0 <? max) eqn:E0; [|done]. simpl. apply Z.ltb_lt in E0.
  destruct (max <? Z.of_nat (length l)) eqn:E1; [|done]. rewrite length_take. apply Z.ltb_ge. lia.
Qed.

Lemma capped_prefix {A} max (l : list A) : capped max l `prefix_of` l.
Proof. unfold capped. case_match; [|done]. apply prefix_take. Qed.

Lemma HTTPAuth_served decode64 unmarshal tagValue parseURL EqualFold CheckSignature now r a :
  enabled a = true ->
  HTTPAuth decode64 unmarshal tagValue parseURL EqualFold CheckSignature now r a = None ->
  exists pk, httpAuthPubkey decode64 unmarshal tagValue parseURL EqualFold CheckSignature now r a = Ok pk /\
    pk ∈ allowed a.
Proof.
  intros He. unfold HTTPAuth. rewrite He. simpl.
  destruct (httpAuthPubkey _ _ _ _ _ _ _ _ _) as [pk|]; [|done]. unfold Allowed.
  case_bool_decide; [|done]. eauto.
Qed.

Lemma HTTPAuth_codes decode64 unmarshal tagValue parseURL EqualFold CheckSignature now r a code :
  HTTPAuth decode64 unmarshal tagValue parseURL EqualFold CheckSignature now r a = Some code ->
  code = 401 \/ code = 403.
Proof. unfold HTTPAuth. intros. repeat case_match; simplify_eq; auto. Qed.

(** The paths api.go registers. *)
Definition apiPath (path : string) : Prop :=
  path ∈ ["/v1/health"; "/v1/stats/daily"; "/v1/stats/dau"; "/v1/events"] \/
  String.prefix "/v1/note/" path = true \/ String.prefix "/v1/pubkey/" path = true.

Lemma route_spec path :
  match route_in Register path with
  | None => ~ apiPath path
  | Some (_, r, public) =>
      apiPath path /\ (public = true <-> path = "/v1/health") /\ (public = true -> r = RHealth)
  end.
Proof.
  assert (String.prefix "/v1/note/" "/v1/health" = false /\ String.prefix "/v1/pubkey/" "/v1/health" = false)
    as [N1 N2] by (by vm_compute).
  unfold apiPath. cbn [Register route_in fst snd]. unfold patternMatches.
  change (subtree "/v1/health") with false. change (subtree "/v1/stats/daily") with false.
  change (subtree "/v1/stats/dau") with false. change (subtree "/v1/note/") with true.
  change (subtree "/v1/pubkey/") with true. change (subtree "/v1/events") with false. cbv iota.
  destruct (String.eqb_spec "/v1/health" path) as [<-|H1]; [split_and!; try done; left; set_solver|].
  destruct (String.eqb_spec "/v1/stats/daily" path) as [<-|H2]; [split_and!; try done; left; set_solver|].
  destruct (String.eqb_spec "/v1/stats/dau" path) as [<-|H3]; [split_and!; try done; left; set_solver|].
  destruct (String.prefix "/v1/note/" path) eqn:H4; [split_and!; try done; by right; left|].
  destruct (String.prefix "/v1/pubkey/" path) eqn:H5; [split_and!; try done; by right; right|].
  destruct (String.eqb_spec "/v1/events" path) as [<-|H6]; [split_and!; try done; left; set_solver|].
  intros [Hin|[?|?]]; [|done..]. set_unfold in Hin. intuition congruence.
Qed.

(** ** Properties *)

(** C25: who gets an answer from the REST API. With access control on, the API answers
    exactly the six routes of api.go, and of these /v1/health alone is open. On any of
    them a request over the rate limit gets 429 before any signature is looked at; on
    every route but /v1/health, one that is under the limit but carries no acceptable
    NIP-98 event of an allow-listed key gets 401 or 403, and neither reaches the store;
    any other reply there was preceded by an authentication as an allow-listed key. The
    health route answers 200 or 503 without one. *)
Theorem rest_gate {W E} `{!TierWriter W E} json cls
    `{!GoSort ev_desc, !GoSort row_desc, !GoSort row_rev, !GoSort daily_order, !GoSort dau_order}
    decode64 unmarshal tagValue parseURL EqualFold CheckSignature
    env now from req q breadth l a t (s : Store W) :
  enabled a = true ->
  let path := urlPath req in
  let granted := (Allow now (ClientIP from) l).1 in
  let auth := httpAuthPubkey decode64 unmarshal tagValue parseURL EqualFold CheckSignature now req a in
  match ServeHTTP json cls decode64 unmarshal tagValue parseURL EqualFold CheckSignature
    env now from req q breadth (Some l) (Some a) t s with
  | None => ~ apiPath path
  | Some ((code, _), l', s') =>
      apiPath path /\ l' = Some (Allow now (ClientIP from) l).2 /\
      (granted = false -> code = 429 /\ s' = s) /\
      (granted = true -> path ≠ "/v1/health" -> (forall pk, auth = Ok pk -> pk ∉ allowed a) ->
         (code = 401 \/ code = 403) /\ s' = s) /\
      (path ≠ "/v1/health" -> code ∉ [429; 401; 403] -> exists pk, auth = Ok pk /\ pk ∈ allowed a) /\
      (path = "/v1/health" -> granted = true -> code = 200 \/ code = 503)
  end.
Proof.
  intros He path granted auth. unfold ServeHTTP. fold path. pose proof (route_spec path) as Hroute.
  destruct (route_in Register path) as [[[pattern r] public]|]; [|done]. destruct Hroute as (Hapi & Hpub & Hh).
  simpl. unfold granted. destruct (Allow now (ClientIP from) l) as [ok l1]. destruct ok; simpl.
  2:{ split_and!; try done. intros _ Hn. exfalso. apply Hn. set_solver. }
  pose proof (HTTPAuth_served decode64 unmarshal tagValue parseURL EqualFold CheckSignature now req a He) as Hs.
  pose proof (HTTPAuth_codes decode64 unmarshal tagValue parseURL EqualFold CheckSignature now req a) as Hc.
  destruct public; simpl.
  - rewrite Hh by done. simpl. assert (path = "/v1/health") as Hp by (by apply Hpub).
    split_and!; try done. intros _ _. case_match; auto.
  - assert (path ≠ "/v1/health") as Hp by (intros Hp; by apply Hpub in Hp).
    destruct (HTTPAuth _ _ _ _ _ _ _ _ _) as [c|] eqn:Ea.
    + specialize (Hc c eq_refl). split_and!; try done.
      intros _ Hn. exfalso. apply Hn. destruct Hc as [->| ->]; set_solver.
    + destruct (Hs eq_refl) as (pk & Hpk & Hin).
      destruct (handle _ _ _ _ _ _ _ _) as [[code body] s1].
      split_and!; try done.
      * intros _ _ Hno. by destruct (Hno pk Hpk).
      * intros _ _. by exists pk.
Qed.

(** The REST filter stays inside the relay's limits, except for kinds. Whatever
    the query string holds, the filter asks for 1 to 1000 events, its ids and authors
    are prefixes of the ones given, and the breadth policy of the websocket path would
    accept it unless there are too many kinds, which this path does not cap. *)
Theorem rest_filter_within_breadth q breadth :
  let f := eventsFilter q breadth in
  1 <= fLimit f <= 1000 /\ clampLimit (fLimit f) = fLimit f /\
  fIDs f `prefix_of` vals q "id" /\ fAuthors f `prefix_of` vals q "author" /\
  breadthReject breadth f =
    if over (b_MaxKinds breadth) (fKinds f) then Some "too many kinds" else None.
Proof.
  intros f.
  assert (1 <= fLimit f <= 1000) as Hl.
  { unfold f, eventsFilter. simpl. destruct (Atoi _) as [n|]; [|lia]. destruct (Z.ltb_spec n 1); lia. }
  split_and!; [lia|lia| |apply capped_prefix..|].
  - unfold clampLimit, defaultQueryLimit. rewrite (proj2 (Z.ltb_ge _ _)) by lia. simpl.
    by rewrite (proj2 (Z.ltb_ge _ _)) by lia.
  - unfold breadthReject, f, eventsFilter. simpl. rewrite !capped_over. case_match; [done|].
    destruct (0 <? b_MaxTags breadth) eqn:E; [|done]. apply Z.ltb_lt in E. simpl.
    by rewrite (proj2 (Z.ltb_ge _ _)) by lia.
Qed.

(** A kind that does not parse widens the query. A request that names only
    malformed kinds is served as if it had named none: every stored event matches. *)
Theorem malformed_kind_widens_query :
  fKinds (eventsFilter {["kind" := ["text-note"]]} (mkBreadth 0 0 0 0)) = [] /\
  forall json dict r, row_id r ∉ dict ->
    where_holds json dict (eventsFilter {["kind" := ["text-note"]]} (mkBreadth 0 0 0 0)) r.
Proof.
  split; [by vm_compute|]. intros json dict r Hr. apply where_holds_unfold. simpl.
  split_and!; try (by left); try done; set_solver.
Qed.

Definition demo_env : ApiEnv (list Batcher.Label) :=
  mkApiEnv None (Ok 7) None None None 0 (fun _ => 0) demo_qenv.
Definition demo_from : HTTPFrom := mkFrom "" "1.2.3.4:5000".
Definition demo_access : Access := mkAccess true ∅ ∅ "" {["bob"]}.

Lemma rest_gate_witness :
  exists code body l, ServeHTTP demo_json ∅ (fun _ => None) (fun _ => None) (fun _ _ => None) (fun _ => None)
    (fun _ _ => false) (fun _ => false) demo_env 0 demo_from (mkRequest "" "/v1/events" "GET") ∅ (mkBreadth 0 0 0 0)
    (Some (NewLimiter 5)) (Some demo_access) no_snapshots demo_saved = Some ((code, body), l, demo_saved) /\
  (code = 401 \/ code = 403).
Proof.
  pose proof (rest_gate demo_json ∅ (fun _ => None) (fun _ => None) (fun _ _ => None) (fun _ => None)
    (fun _ _ => false) (fun _ => false) demo_env 0 demo_from (mkRequest "" "/v1/events" "GET") ∅
    (mkBreadth 0 0 0 0) (NewLimiter 5) demo_access no_snapshots demo_saved eq_refl) as H.
  set (reply := ServeHTTP _ _ _ _ _ _ _ _ _ _ _ _ _ _ _ _ _ _) in *.
  assert (reply ≠ None) as Hsome by (vm_compute; discriminate).
  destruct reply as [[[[code body] l'] s']|]; [|by destruct Hsome].
  destruct H as (_ & _ & _ & H & _). destruct H as [Hc Hs].
  - vm_compute. reflexivity.
  - simpl. discriminate.
  - intros pk Hpk. vm_compute in Hpk. discriminate.
  - exists code, body, l'. rewrite Hs. split; [reflexivity|exact Hc].
Defined.

(** A broken result stream is served as a complete answer. The statistics queries do not
    ask for the error that ends a result stream early, so when the stream breaks the
    route answers 200 with the rows read by then, and the client cannot tell. *)
Theorem broken_stream_served_as_complete {E} tables (env : ApiEnv E) q `{!GoSort daily_order} rows k :
  a_stats env = None -> a_broken env = None -> daily env q tables = (StatusOK, BDaily rows) ->
  let env' := mkApiEnv (a_ping env) (a_parts env) (a_extra env) None (Some k) (a_today env) (a_uniq env) (a_query env) in
  daily env' q tables = (StatusOK, BDaily (take k rows)).
Proof. intros Hs Hb. unfold daily, Daily, readRows. rewrite Hs, Hb. simpl. by intros [= <-]. Qed.
