(* ===== verification/Health.v ===== *)
(** * Ingest health (cmd/archive-relay/main.go, internal/api/api.go)

    The extra object main.go adds to the health route, and what the route as a whole
    tells an operator about the durable writer. *)

From S2P Require Import Prelude Nostr Config Query TierWriter Reads Control Dedup Writer Api.

(** [Duration.Round(time.Second).Seconds()]: halves round away from zero. *)
Definition roundSeconds (d : Z) : Z :=
  if d <? 0 then - ((- d + Second / 2) / Second) else (d + Second / 2) / Second.

(** The function given to [SetHealthExtra]. *)
Definition healthExtra (now : Z) (d : Dedup) : gmap string JSON :=
  {["ingest" := JObj [("last_event_age_s", JNum (roundSeconds (LastEventAgo now d)));
                      ("dropped_durable_writes", JNum (Z.of_nat (DroppedWrites d)));
                      ("dropped_bad_id", JNum (Z.of_nat (DroppedBadID d)))]]}.

Definition withHealth {E} (now : Z) (d : Dedup) (env : ApiEnv E) : ApiEnv E :=
  mkApiEnv (a_ping env) (a_parts env) (Some (healthExtra now d)) (a_stats env) (a_broken env) (a_today env) (a_uniq env) (a_query env).

Lemma roundSeconds_spec d : 2 * Z.abs (roundSeconds d * Second - d) <= Second.
Proof.
  unfold roundSeconds, Second.
  destruct (Z.ltb_spec d 0); [pose proof (Z.div_mod (- d + 1000000000 / 2) 1000000000 ltac:(lia));
    pose proof (Z.mod_pos_bound (- d + 1000000000 / 2) 1000000000 ltac:(lia))|
    pose proof (Z.div_mod (d + 1000000000 / 2) 1000000000 ltac:(lia));
    pose proof (Z.mod_pos_bound (d + 1000000000 / 2) 1000000000 ltac:(lia))];
    change (1000000000 / 2) with 500000000 in *; lia.
Qed.

(** The health route tells the truth about the process. Whatever the durable writer has
    been through since it was created, the status is 200 exactly when ClickHouse answers,
    the extra object never hides the [ok] and [clickhouse] flags, and the object itself
    counts exactly the chunks of flushed ids that were dropped instead of recorded. *)
Theorem health_counts_dropped_chunks {E} memCap db ls x now (env : ApiEnv E) :
  wrun memCap ls (newWriter NewDedup db) = Some x ->
  exists out, health (withHealth now (wd x) env) = (if decide (a_ping env = None) then 200 else 503, BHealth out) /\
    out !! "ok" = Some (JBool (bool_decide (a_ping env = None))) /\
    out !! "clickhouse" = Some (JBool (bool_decide (a_ping env = None))) /\
    exists kvs, out !! "ingest" = Some (JObj kvs) /\
      ("dropped_durable_writes", JNum (Z.of_nat (length (shed x)))) ∈ kvs.
Proof.
  intros Hr. pose proof (b_drops _ _ (new_books memCap ls NewDedup db x eq_refl Hr)) as Hd. simpl in Hd.
  unfold health, withHealth. cbn [a_ping a_parts a_extra].
  assert (forall m : gmap string JSON, (healthExtra now (wd x) ∪ m) !! "ok" = m !! "ok" /\
    (healthExtra now (wd x) ∪ m) !! "clickhouse" = m !! "clickhouse") as Hother.
  { intros m. by split; rewrite lookup_union_r. }
  destruct (a_ping env) as [e|]; (eexists; split; [reflexivity|]; split_and!;
    [rewrite (proj1 (Hother _)), lookup_insert_eq; done
    |rewrite (proj2 (Hother _)), lookup_insert_ne, lookup_insert_eq by done; done
    |eexists; unfold healthExtra; rewrite (lookup_union_Some_l _ _ "ingest" _ (lookup_singleton_eq _ _));
     split; [done|]; unfold DroppedWrites; rewrite Hd; set_solver]).
Qed.
