(* ===== verification/Lifecycle.v ===== *)
(** * Start and stop (cmd/archive-relay/main.go, internal/store/store.go)

    Splitting the source list, and the shutdown sequence of [main]: its deferred
    calls run in reverse order, so the store is closed first ([Store.Close] ends in
    the final flush of every batcher, whose callbacks fill the durable queue and the
    feed, and then in the drain of the feed writer) and the seen_events writer is
    stopped after it. *)

From S2P Require Import Prelude GoStrings Nostr Config Classifier Control Dedup Batcher Feed.
From S2P Require Import Rows Collapse Query TierWriter CrashSafety.

(** ** [splitSources] *)

Definition splitSources (s : string) : list string :=
  filter (fun v => v ≠ "") (map TrimSpace (splitOn (Ascii.ascii_of_nat 44) s "")).

(** ** Shutdown *)

Section shutdown.
Variables (maxSize memCap : nat).

(** [batcher.shutdown]: close [stop], then the worker's last turn. *)
Definition shutdown (sends : nat -> Outcome) (b : Batcher) : Batcher :=
  match step maxSize LClose b with
  | Some b1 => match step maxSize (LStop sends) b1 with Some b2 => b2 | None => b1 end
  | None => b
  end.

(** The loop of [Store.Close] over the tiers, in the order Go ranges over the map,
    with the callbacks the final flushes trigger. *)
Definition closeTier (now : Z) (n : Node) (ts : string * (nat -> Outcome)) : Node :=
  match nts n !! ts.1 with
  | Some b =>
      let b' := shutdown ts.2 b in
      mkNode (<[ts.1 := b']> (nts n)) (mirrorChunks (newCalls b b') (nfw n))
        (callbacks memCap now (newCalls b b') (nd n)) (ndb n)
  | None => n
  end.
Definition closeTiers (now : Z) (order : list (string * (nat -> Outcome))) (n : Node) : Node :=
  foldl (closeTier now) n order.

(** [feedWriter.stop]: close [stopCh], then the worker's drain. *)
Definition stopFeed (os : nat -> Outcome) (fw : FW) : FW :=
  match fstep FClose fw with
  | Some fw1 => match fstep (FStop os) fw1 with Some fw2 => fw2 | None => fw1 end
  | None => fw
  end.

(** [Store.Close] *)
Definition closeStore (order : list (string * (nat -> Outcome))) (os : nat -> Outcome) (now : Z) (n : Node)
    : Node :=
  let n1 := closeTiers now order n in
  mkNode (nts n1) (stopFeed os (nfw n1)) (nd n1) (ndb n1).

(** [StopWriter]: the writer drains the queue and exits. *)
Definition stopWriter (expired expired2 : nat -> bool) (faults : nat -> TxFault) (n : Node) : Node :=
  let '(d', db') := drainQueued (S (length (writeQ (nd n)))) expired expired2 faults 0 (nd n) (ndb n) in
  mkNode (nts n) (nfw n) d' db'.

(** The deferred calls of [main], last registered first. *)
Definition mainExit (order : list (string * (nat -> Outcome))) (os : nat -> Outcome) (now : Z)
    (expired expired2 : nat -> bool) (faults : nat -> TxFault) (n : Node) : Node :=
  stopWriter expired expired2 faults (closeStore order os now n).

(** ** Lemmas *)

Lemma MarkMany_drops now ids d : droppedWrites (MarkMany memCap now ids d) = droppedWrites d.
Proof.
  revert d. induction ids as [|i ids IH]; intros d; simpl; [done|]. rewrite IH.
  unfold Mark, insertLocked. destruct (parseEventID i); [|done]. by case_decide.
Qed.

(** While the queue has room every callback reaches it. *)
Lemma callbacks_enqueue now cs d :
  (length (writeQ d) + length cs <= writeQueueCap)%nat ->
  droppedWrites (callbacks memCap now cs d) = droppedWrites d /\
  map ref_ID (concat (writeQ (callbacks memCap now cs d))) =
    map ref_ID (concat (writeQ d)) ++ map ID (concat cs).
Proof.
  revert d. induction cs as [|c cs IH]; intros d Hroom; simpl in *; [split; [done|by rewrite app_nil_r]|].
  assert (exists l, writeQ (OnFlushed memCap now c d) = writeQ d ++ l /\ (length l <= 1)%nat /\
    map ref_ID (concat l) = map ID c /\
    droppedWrites (OnFlushed memCap now c d) = droppedWrites d) as (l & Eq & Hl & Hids & Ed).
  { unfold OnFlushed. destruct c as [|e c]; [exists []; rewrite app_nil_r; simpl; auto|].
    rewrite !MarkMany_queue, decide_True by lia. eexists.
    cbn [writeQ droppedWrites set_queue]. rewrite MarkMany_drops.
    split_and!; [done|simpl; lia| |done]. simpl. by rewrite app_nil_r, map_map. }
  destruct (IH (OnFlushed memCap now c d)) as [H1 H2]; [rewrite Eq, length_app; lia|].
  unfold callbacks in *. simpl. rewrite H1, H2, Eq. split; [done|].
  rewrite concat_app, !map_app, Hids, <-app_assoc. done.
Qed.

Hypothesis Hmax : (1 <= maxSize)%nat.

Lemma shutdown_spec sends b :
  Inv maxSize b -> state (w b) ≠ stopped -> (forall k, sends k = Sent) ->
  let b' := shutdown sends b in
  acked b' = ledger b /\ ledger b ⊆ table b' /\
  exists new, flushedCalls b' = flushedCalls b ++ new /\ concat new = waiting b.
Proof.
  intros HI Hst Hsent b'. unfold b', shutdown. simpl.
  set (b1 := mkBatcher (w b) (inq b) (flushReq b) true (table b) (acked b) (flushedCalls b) (answers b)).
  assert (Inv maxSize b1) as HI1.
  { destruct HI as [[I1 I2 I3 I4 I5] Hset]. split; [by split|]. unfold settled in *. simpl.
    destruct (state (w b)); [done|done|by destruct Hset]. }
  assert (state (w b1) ≠ stopped) as Hst1 by done.
  assert (stop b1 = true) as Hstop1 by done.
  destruct (onStop_ok maxSize Hmax sends b1 HI1 Hst1 Hstop1) as (([HS _] & EL & _) & _).
  pose proof (onStop_all_sent maxSize Hmax sends b1 HI1 Hst1 Hsent) as Hw.
  assert (match state (w b) with stopped => None | _ => Some (onStop maxSize sends b1) end =
          Some (onStop maxSize sends b1)) as -> by (by destruct (state (w b))).
  assert (acked (onStop maxSize sends b1) = ledger b) as Ha.
  { simpl in EL. rewrite app_nil_r in EL. change (ledger b) with (ledger b1). rewrite <-EL.
    unfold ledger. by rewrite Hw, app_nil_r. }
  split; [done|]. split; [rewrite <-Ha; apply HS|].
  assert (flushedCalls b1 `prefix_of` flushedCalls (onStop maxSize sends b1)) as [new Hnew].
  { pose proof (finalFlush_calls maxSize (S (length (waiting b1))) sends 0 b1) as H.
    unfold onStop. destruct (finalFlush _ _ _ _ _) as [err b2]. exact H. }
  exists new. split; [exact Hnew|].
  pose proof (inv_calls _ _ HS) as Hc. rewrite Hnew, concat_app, Ha in Hc. unfold ledger in Hc.
  pose proof (inv_calls _ _ (proj1 HI)) as Hc0. simpl in Hc. rewrite Hc0 in Hc. by simplify_list_eq.
Qed.

(** How many inserts of at most [maxSize] rows [n] rows take. *)
Definition chunks (n : nat) : nat := (n + maxSize - 1) / maxSize.

Lemma chunks_step n : (0 < n)%nat -> chunks n = S (chunks (n - Nat.min n maxSize)).
Proof.
  intros Hn. unfold chunks. destruct (decide (n <= maxSize)%nat).
  - rewrite Nat.min_l, Nat.sub_diag by lia. rewrite (Nat.div_small (0 + maxSize - 1)) by lia.
    replace (n + maxSize - 1)%nat with (n - 1 + 1 * maxSize)%nat by lia.
    rewrite Nat.div_add by lia. rewrite Nat.div_small by lia. done.
  - rewrite Nat.min_r by lia.
    replace (n + maxSize - 1)%nat with (n - maxSize + maxSize - 1 + 1 * maxSize)%nat by lia.
    rewrite Nat.div_add by lia. lia.
Qed.

Lemma finalFlush_chunks fuel sends k b :
  (length (flushedCalls (finalFlush maxSize fuel sends k b).2) <=
   length (flushedCalls b) + chunks (length (pending (w b))) + chunks (length (buf (w b)) + length (inq b)))%nat.
Proof.
  revert k b. induction fuel as [|fuel IH]; intros k b; simpl; [lia|].
  set (b1 := match pending (w b) with [] => stage (length (inq b)) b | _ => b end).
  assert (flushedCalls b1 = flushedCalls b /\
    chunks (length (pending (w b1))) + chunks (length (buf (w b1)) + length (inq b1)) =
    chunks (length (pending (w b))) + chunks (length (buf (w b)) + length (inq b)))%nat as [Ef Ec].
  { unfold b1. destruct (pending (w b)) eqn:Ep; [|by rewrite Ep]. split; [done|]. simpl.
    rewrite drop_all, take_ge, length_app by lia. simpl. lia. }
  destruct (pending (w b1)) as [|e p] eqn:Ep; simpl; [rewrite Ef; lia|].
  rewrite <-Ep in Ec. pose proof (chunks_step (length (pending (w b1)))) as Hc. rewrite Ep in Hc at 1. simpl in Hc.
  destruct (sends k); simpl; [|rewrite Ef; lia..].
  etrans; [apply IH|]. simpl. rewrite length_app, length_drop, Ef. simpl. lia.
Qed.

Lemma shutdown_chunks sends b :
  state (w b) ≠ stopped ->
  (length (flushedCalls (shutdown sends b)) <=
   length (flushedCalls b) + chunks (length (pending (w b))) + chunks (length (buf (w b)) + length (inq b)))%nat.
Proof.
  intros Hst. unfold shutdown. simpl.
  set (b1 := mkBatcher (w b) (inq b) (flushReq b) true (table b) (acked b) (flushedCalls b) (answers b)).
  assert (match state (w b) with stopped => None | _ => Some (onStop maxSize sends b1) end =
          Some (onStop maxSize sends b1)) as -> by (by destruct (state (w b))).
  pose proof (finalFlush_chunks (S (length (waiting b1))) sends 0 b1) as H.
  unfold onStop. destruct (finalFlush _ _ _ _ _) as [err b2]. exact H.
Qed.

(** *** All tiers *)

Definition tierChunks (n : Node) (t : string) : nat :=
  match nts n !! t with
  | Some b => chunks (length (pending (w b))) + chunks (length (buf (w b)) + length (inq b))
  | None => 0
  end.
Definition tierWaiting (n : Node) (t : string) : list Event :=
  match nts n !! t with Some b => waiting b | None => [] end.

Lemma shutdown_Inv sends b : Inv maxSize b -> Inv maxSize (shutdown sends b).
Proof.
  intros HI. unfold shutdown. destruct (step maxSize LClose b) as [b1|] eqn:E1; [|done].
  pose proof (step_ok maxSize Hmax _ _ _ HI E1) as (HI1 & _).
  destruct (step maxSize (LStop sends) b1) as [b2|] eqn:E2; [|done].
  by pose proof (step_ok maxSize Hmax _ _ _ HI1 E2) as (HI2 & _).
Qed.

(** Closing one tier: its rows are stored and its chunks reported. *)
Lemma closeTier_spec now n t sends :
  (forall t b, nts n !! t = Some b -> Inv maxSize b) ->
  (forall b, nts n !! t = Some b -> state (w b) ≠ stopped) -> (forall k, sends k = Sent) ->
  let n' := closeTier now n (t, sends) in
  (forall t b, nts n' !! t = Some b -> Inv maxSize b) /\
  (forall t', t' ≠ t -> nts n' !! t' = nts n !! t') /\
  (forall b, nts n !! t = Some b -> exists b', nts n' !! t = Some b' /\ ledger b ⊆ table b') /\
  ndb n' = ndb n /\
  exists cs, nd n' = callbacks memCap now cs (nd n) /\ nfw n' = mirrorChunks cs (nfw n) /\
    (length cs <= tierChunks n t)%nat /\ concat cs = tierWaiting n t.
Proof.
  intros HI Hst Hsent n'. unfold n', closeTier, tierChunks, tierWaiting. cbn [fst snd].
  destruct (nts n !! t) as [b|] eqn:Hb; [|split_and!; [done..|by exists []]].
  destruct (shutdown_spec sends b (HI _ _ Hb) (Hst _ eq_refl) Hsent) as (_ & Ht & new & Hnew & Hcat).
  pose proof (shutdown_chunks sends b (Hst _ eq_refl)) as Hlen. rewrite Hnew, length_app in Hlen.
  assert (newCalls b (shutdown sends b) = new) as -> by (unfold newCalls; by rewrite Hnew, drop_app_length).
  cbn [nts nd nfw ndb]. split_and!; [| | |done|exists new; split_and!; [done|done|lia|done]].
  - intros t' b1 [[<- <-]|[_ ?]]%lookup_insert_Some; [|eauto]. by eapply shutdown_Inv, HI.
  - intros t' Hne. by apply lookup_insert_ne.
  - intros b1 [= <-]. exists (shutdown sends b). split; [apply lookup_insert_eq|done].
Qed.

Lemma closeTiers_spec now order n :
  NoDup (map fst order) -> (forall t b, nts n !! t = Some b -> Inv maxSize b) ->
  (forall t b, t ∈ map fst order -> nts n !! t = Some b -> state (w b) ≠ stopped) ->
  (forall t sends, (t, sends) ∈ order -> forall k, sends k = Sent) ->
  let n' := closeTiers now order n in
  (forall t b, t ∈ map fst order -> nts n !! t = Some b -> exists b', nts n' !! t = Some b' /\ ledger b ⊆ table b') /\
  (forall t, t ∉ map fst order -> nts n' !! t = nts n !! t) /\
  ndb n' = ndb n /\
  exists cs, nd n' = callbacks memCap now cs (nd n) /\ nfw n' = mirrorChunks cs (nfw n) /\
    (length cs <= sum_list (map (tierChunks n) (map fst order)))%nat /\
    concat cs = concat (map (tierWaiting n) (map fst order)).
Proof.
  revert n. induction order as [|[t sends] order IH]; intros n Hnd HI Hst Hsent.
  { split_and!; [by intros t b Ht; inversion Ht|done|done|by exists []]. }
  cbn [map fst] in *. apply NoDup_cons in Hnd as [Hnt Hnd].
  destruct (closeTier_spec now n t sends HI) as (H1 & H2 & H3 & H4 & cs & Hd & Hf & Hlen & Hcat).
  { intros b. apply Hst. set_solver. } { apply (Hsent t). set_solver. }
  change (closeTiers now ((t, sends) :: order) n) with (closeTiers now order (closeTier now n (t, sends))).
  set (n1 := closeTier now n (t, sends)) in *.
  assert (forall t', t' ∈ map fst order -> nts n1 !! t' = nts n !! t') as Hother
    by (intros t' Ht'; apply H2; by intros ->).
  destruct (IH n1 Hnd H1) as (I1 & I2 & I3 & cs' & Id & If & Ilen & Icat).
  { intros t' b Ht'. rewrite Hother by done. apply Hst. set_solver. }
  { intros t' s' Hin. apply (Hsent t'). set_solver. }
  cbv zeta. split_and!.
  - intros t' b [->|Ht']%elem_of_cons Hb; [rewrite I2 by done; auto|]. apply I1; [done|]. by rewrite Hother.
  - intros t' [Hne Ht']%not_elem_of_cons. rewrite I2 by done. auto.
  - by rewrite I3.
  - exists (cs ++ cs'). rewrite Id, If, Hd, Hf. unfold callbacks, mirrorChunks.
    rewrite !foldl_app, length_app, concat_app, Hcat, Icat.
    assert (map (tierChunks n1) (map fst order) = map (tierChunks n) (map fst order) /\
      map (tierWaiting n1) (map fst order) = map (tierWaiting n) (map fst order)) as [E1 E2].
    { split; apply map_ext_in; intros t' Ht'%list_elem_of_In; unfold tierChunks, tierWaiting; by rewrite Hother. }
    rewrite E1 in Ilen. rewrite E2. split_and!; [done|done|simpl; lia|done].
Qed.
End shutdown.

(** *** The feed *)

Lemma offerAll_room evs fw :
  (length (fin fw) + length evs <= feedQueueCap)%nat ->
  offerAll evs fw = mkFW (fin fw ++ evs) (fstop fw) (fdone fw) (fbuf fw) (drops fw) (feedTable fw)
    (flushedRows fw) (reportedDrops fw).
Proof.
  revert fw. induction evs as [|e evs IH]; intros fw Hroom.
  { rewrite app_nil_r. by destruct fw. }
  change (offerAll (e :: evs) fw) with (offerAll evs (offer e fw)). simpl in Hroom.
  unfold offer. rewrite decide_True by lia. rewrite IH by (simpl; rewrite length_app; simpl; lia).
  simpl. by rewrite <-app_assoc.
Qed.

Lemma stopFeed_stored os fw :
  (forall k, os k = Sent) -> fdone fw = false ->
  feedTable (stopFeed os fw) = feedTable fw ++ fbuf fw ++ fin fw.
Proof.
  intros Hos Hd. unfold stopFeed. cbn [fstep]. rewrite Hd. cbn [fdone fstop fin].
  set (fw1 := mkFW (fin fw) true false _ _ _ _ _).
  rewrite (feedDrain_sent (S (length (fin fw))) os 0 fw1 Hos) by (simpl; lia). done.
Qed.

(** ** Properties *)

(** C19: a graceful shutdown persists everything. From any reachable state of the
    process, if the final inserts and the control database succeed in time and the
    durable queue has room for the last chunks, then after the deferred calls of
    [main], in whatever order [Close] visits the tiers, every event a tier had
    accepted is in its table, every event that was still buffered is also recorded in
    seen_events, as is everything that was queued, the queue is empty, and no durable
    write was dropped: a restart re-fetches nothing that the shutdown flushed. If the
    feed queue has room too, whatever was buffered on the way to the mirror is in it. *)
Theorem graceful_shutdown_persists maxSize memCap ls n order os now expired2 :
  (1 <= maxSize)%nat -> nrun maxSize memCap ls boot = Some n ->
  NoDup (map fst order) -> (forall t, is_Some (nts n !! t) -> t ∈ map fst order) ->
  (forall t b, nts n !! t = Some b -> state (w b) ≠ stopped) ->
  (forall t sends, (t, sends) ∈ order -> forall k, sends k = Sent) -> (forall k, os k = Sent) ->
  (length (writeQ (nd n)) + sum_list (map (tierChunks maxSize n) (map fst order)) <= writeQueueCap)%nat ->
  let n' := mainExit maxSize memCap order os now (fun _ => false) expired2 (fun _ => TxOk) n in
  (forall t b, nts n !! t = Some b -> exists b', nts n' !! t = Some b' /\ ledger b ⊆ table b') /\
  (forall t b evt, nts n !! t = Some b -> evt ∈ waiting b -> ID evt ∈ map seen_id (seen_events (ndb n'))) /\
  (forall i, i ∈ map ref_ID (concat (writeQ (nd n))) -> i ∈ map seen_id (seen_events (ndb n'))) /\
  writeQ (nd n') = [] /\ droppedWrites (nd n') = droppedWrites (nd n) /\
  (fdone (nfw n) = false ->
   (length (fin (nfw n)) + length (concat (map (tierWaiting n) (map fst order))) <= feedQueueCap)%nat ->
   forall evt, (exists t b, nts n !! t = Some b /\ evt ∈ waiting b) \/ evt ∈ fbuf (nfw n) ++ fin (nfw n) ->
     evt ∈ feedTable (nfw n')).
Proof.
  intros Hmax Hn Hnd Hall Hst Hsent Hos Hroom n'.
  pose proof (reach_ok maxSize memCap Hmax ls n Hn) as [HI _ _ _].
  destruct (closeTiers_spec maxSize memCap Hmax now order n Hnd HI) as (Htab & _ & Hdb & cs & Hd & Hf & Hlen & Hcat);
    [by intros t b _; apply Hst|done|].
  set (n1 := closeTiers maxSize memCap now order n) in *.
  destruct (callbacks_enqueue memCap now cs (nd n)) as [Hdr Hq]; [lia|].
  unfold n', mainExit, stopWriter, closeStore. fold n1. cbn [nd ndb nts nfw].
  pose proof (drainQueued_spec (S (length (writeQ (nd n1)))) (fun _ => false) expired2
    (fun _ => TxOk) 0 (nd n1) (ndb n1) ltac:(lia)) as Hdrain.
  destruct (drainQueued _ _ _ _ _ _ _) as [d' db']. destruct Hdrain as [Hq' Hdone].
  destruct (Hdone ltac:(done) ltac:(done)) as [Hdrop Hseen]. cbn [nd ndb nts nfw].
  rewrite Hd, Hq, Hcat in Hseen. rewrite Hd in Hdrop.
  assert (forall t b evt, nts n !! t = Some b -> evt ∈ waiting b ->
    evt ∈ concat (map (tierWaiting n) (map fst order))) as Hwait.
  { intros t b evt Hb He. apply concat_elem. exists (tierWaiting n t). split.
    - apply list_elem_of_fmap_2, Hall. by eexists.
    - unfold tierWaiting. by rewrite Hb. }
  split_and!.
  - intros t b Hb. apply Htab; [|done]. apply Hall. by eexists.
  - intros t b evt Hb He. apply Hseen. left. apply elem_of_app. right. by eapply list_elem_of_fmap_2, Hwait.
  - intros i Hi. apply Hseen. left. apply elem_of_app. by left.
  - exact Hq'.
  - by rewrite Hdrop.
  - intros Hfd Hfroom evt He. rewrite Hf, mirrorChunks_concat, Hcat, offerAll_room by done.
    rewrite stopFeed_stored by done. cbn [feedTable fbuf fin]. rewrite !elem_of_app.
    destruct He as [(t & b & Hb & He)|He%elem_of_app]; [|tauto]. specialize (Hwait t b evt Hb He). tauto.
Qed.

Lemma graceful_shutdown_persists_witness :
  exists n, nrun 2 10 [NTier TierArchive 0 (LEnqueue demo_stored)] boot = Some n /\
    let n' := mainExit 2 10 (map (fun t => (t, fun _ => Sent)) activeTiers) (fun _ => Sent) 7
                (fun _ => false) (fun _ => false) (fun _ => TxOk) n in
    demo_id ∈ map seen_id (seen_events (ndb n')) /\ demo_stored ∈ feedTable (nfw n').
Proof.
  eexists. match goal with |- ?r = Some ?n /\ _ => assert (r = Some n) as Hrun by (vm_compute; reflexivity) end.
  split; [exact Hrun|]. intros n'.
  match type of Hrun with _ = Some ?m => set (n := m) in * end.
  assert (map_Forall (fun t b => t ∈ activeTiers /\ state (w b) = normal) (nts n)) as Hts
    by (apply (bool_decide_unpack _); by vm_compute).
  destruct (graceful_shutdown_persists 2 10 _ n (map (fun t => (t, fun _ => Sent)) activeTiers) (fun _ => Sent) 7
    (fun _ => false) ltac:(lia) Hrun) as (_ & H2 & _ & _ & _ & H6).
  - apply (bool_decide_unpack _). by vm_compute.
  - intros t [b Hb]. by apply (Hts t b).
  - intros t b Hb. by destruct (Hts t b Hb) as [_ ->].
  - intros t sends Hin k. apply list_elem_of_fmap in Hin as (t' & [= -> ->] & _). reflexivity.
  - reflexivity.
  - vm_compute. lia.
  - split.
    + change demo_id with (ID demo_stored). eapply (H2 TierArchive); [vm_compute; reflexivity|]. vm_compute. apply list_elem_of_here.
    + apply H6; [reflexivity|apply Nat.leb_le; vm_compute; reflexivity|].
      left. exists TierArchive. eexists. split; [vm_compute; reflexivity|]. vm_compute. apply list_elem_of_here.
Defined.
