(* ===== verification/Boot.v ===== *)
(** * Start-up (cmd/archive-relay/main.go, internal/store/store.go)

    [Store.Init], [Store.Close] and [SetOnFlushed] over the handles a store owns, and
    [main] as the sequence of calls it makes. A deferred call of Go runs when the
    function returns, last registered first, and never when the process leaves
    through [os.Exit]: [Prog] keeps both. *)

From S2P Require Import Prelude Nostr Config Classifier Rows Collapse Query Schema.
From S2P Require Import Batcher Tombstone Feed TierWriter Store Control Dedup CrashSafety Lifecycle.

(** ** The store's handles *)

Definition poolWriteConns : nat := 4.
Definition poolReadConns : nat := 16.
Definition poolStatsConns : nat := 2.

Record Handles := mkHandles {
  h_wch : bool;                          (* wch != nil *)
  h_ch : bool;
  h_sch : bool;
  h_tw : option TW;
  h_fw : option FW;
  h_tiers : gmap string Batcher;
  h_onFlushed : gset string;             (* tiers whose batcher has the callback *)
}.

(** [New] *)
Definition newStore : Handles := mkHandles false false false None None ∅ ∅.

Definition openConn (open_ ping : option error) : option error :=
  match open_ with
  | Some e => Some (Wrapped "clickhouse open" e)
  | None => match ping with Some e => Some (Wrapped "clickhouse ping" e) | None => None end
  end.

(** What ClickHouse answers during [Init]. *)
Record InitEnv := mkInitEnv {
  i_bootOpen : option error; i_bootExec : option error;
  i_write : option error * option error;
  i_read : option error * option error;
  i_stats : option error * option error;
  i_exec : nat -> string -> option error;
  i_haveIdx : string -> result Z;
  i_matTotal : string -> result Z;
  i_dictProbe : option error;
  i_count : option error; i_insert : option error;
  i_now : Z;
}.

Definition set_pools (w r s : bool) (h : Handles) : Handles :=
  mkHandles w r s (h_tw h) (h_fw h) (h_tiers h) (h_onFlushed h).

(** [Init]: the error, the handles, the DDL sent and the rows of the feed. *)
Definition Init (cfg : Config) (env : InitEnv) (events_all feed : list Row) (h : Handles)
    : option error * Handles * list string * list Row :=
  match (ensureDatabase (i_bootOpen env) (i_bootExec env) (ch_Database (cfgClickHouse cfg))).1 with
  | Some e => (Some e, h, [], feed)
  | None =>
  match openConn (i_write env).1 (i_write env).2 with
  | Some e => (Some e, h, [], feed)
  | None =>
      let h1 := set_pools true (h_ch h) (h_sch h) h in
      let '(serr, sent) := initSchema (i_exec env) (i_haveIdx env) (i_matTotal env) (i_dictProbe env) (cfgRetention cfg) in
      match serr with
      | Some e => (Some e, h1, sent, feed)
      | None =>
          let feed' := (backfillFeed row_created_at (i_count env) (i_insert env) (i_now env) events_all feed).2 in
          let h2 := mkHandles true (h_ch h1) (h_sch h1) (Some newTombstoneWriter) (Some newFeedWriter)
                      (list_to_map (map (fun t => (t, newBatcher)) activeTiers)) ∅ in
          match openConn (i_read env).1 (i_read env).2 with
          | Some e => (Some e, set_pools true false (h_sch h2) h2, sent, feed')
          | None =>
              let h3 := set_pools true true (h_sch h2) h2 in
              match openConn (i_stats env).1 (i_stats env).2 with
              | Some e => (Some e, set_pools true true false h3, sent, feed')
              | None => (None, set_pools true true true h3, sent, feed')
              end
          end
      end
  end
  end.

(** [SetOnFlushed] stores the callback in every batcher there is. *)
Definition SetOnFlushed (h : Handles) : Handles :=
  mkHandles (h_wch h) (h_ch h) (h_sch h) (h_tw h) (h_fw h) (h_tiers h) (dom (h_tiers h)).

Definition Ping (ping : option error) (h : Handles) : option error :=
  if h_ch h then ping else Some (Opaque "store not initialized").

Inductive Release := RTier (t : string) | RTombstones | RFeed | RConn (pool : nat).
#[export] Instance Release_eq_dec : EqDecision Release.
Proof. solve_decision. Defined.

(** [Close]: what it shuts down, in order ([range] visits the tiers in any order). *)
Definition Close (h : Handles) : list Release :=
  map RTier (map fst (map_to_list (h_tiers h))) ++
  (if h_tw h then [RTombstones] else []) ++
  (if h_fw h then [RFeed] else []) ++
  (if h_ch h then [RConn poolReadConns] else []) ++
  (if h_sch h then [RConn poolStatsConns] else []) ++
  (if h_wch h then [RConn poolWriteConns] else []).

(** ** [main] *)

Inductive Goroutine :=
  | GWriter | GPrune | GCrawler | GPriority | GStats | GRefresh | GSched
  | GPprofStop | GPprof | GServerStop.

Inductive Act :=
  | ALoadConfig | AOpenControl | AInitStore | ANotifyContext
  | AWarm | AStartCold                  (* dedup.Warm, and its failure, which is only logged *)
  | ASetOnFlushed
  | AGo (g : Goroutine) | ANewAccess | ANewRelay | ARegisterAPI | AListen
  | ACloseStore | AStopWriter | AWCancel | ACancel | ACloseControl.
#[export] Instance Goroutine_eq_dec : EqDecision Goroutine.
Proof. solve_decision. Defined.
#[export] Instance Act_eq_dec : EqDecision Act.
Proof. solve_decision. Defined.

(** A Go function body: calls, deferred calls, [os.Exit(1)] and return. *)
Inductive Prog :=
  | Do (a : Act) (k : Prog)
  | Defer_ (a : Act) (k : Prog)
  | OsExit1
  | Ret.

Inductive Exit := Exited | Returned.

Fixpoint runProg (p : Prog) (deferred : list Act) : list Act * Exit :=
  match p with
  | Do a k => let '(tr, ex) := runProg k deferred in (a :: tr, ex)
  | Defer_ a k => runProg k (a :: deferred)
  | OsExit1 => ([], Exited)
  | Ret => (deferred, Returned)
  end.

(** How the calls that can fail end. *)
Record MainEnv := mkMainEnv {
  m_config : result Config;
  m_control : option error;
  m_store : option error;
  m_warm : option error;
  m_access : option error;
  m_listen : option error;              (* None: ErrServerClosed *)
}.

Definition whenGo (c : bool) (g : Goroutine) (k : Prog) : Prog := if c then Do (AGo g) k else k.

Definition mainServe (cfg : Config) (env : MainEnv) : Prog :=
  Do ANewRelay (Do (AGo GSched) (Do ARegisterAPI
  (Do (AGo GPprofStop) (Do (AGo GPprof) (Do (AGo GServerStop) (Do AListen
  (match m_listen env with Some _ => OsExit1 | None => Ret end))))))).

Definition mainAccess (cfg : Config) (env : MainEnv) : Prog :=
  if AuthEnabled (cfgAuth cfg) then
    if String.eqb (ServiceURL (cfgRelay cfg)) "" then OsExit1
    else Do ANewAccess
      (match m_access env with
       | Some _ => OsExit1
       | None => Do (AGo GRefresh) (mainServe cfg env)
       end)
  else mainServe cfg env.

Definition mainIngest (cfg : Config) (env : MainEnv) : Prog :=
  Do AWarm ((match m_warm env with Some _ => Do AStartCold | None => fun k => k end)
  (Do ASetOnFlushed (Do (AGo GWriter) (Do (AGo GPrune)
  (Defer_ AWCancel (Defer_ AStopWriter (Defer_ ACloseStore
  (Do (AGo GCrawler)
  (whenGo (negb (bool_decide (PriorityPubkeys (cfgCrawler cfg) = [])) ||
           negb (bool_decide (Relays (cfgCrawler cfg) = []))) GPriority
  (Do (AGo GStats) (mainAccess cfg env))))))))))).

Definition main (env : MainEnv) : Prog :=
  Do ALoadConfig
  (match m_config env with
   | Err _ => OsExit1
   | Ok cfg =>
       Do AOpenControl
       (match m_control env with
        | Some _ => OsExit1
        | None =>
            Defer_ ACloseControl
            (Do AInitStore
             (match m_store env with
              | Some _ => OsExit1
              | None => Do ANotifyContext (Defer_ ACancel (mainIngest cfg env))
              end))
        end)
   end).

(** The part of the state the deferred calls change. *)
Definition runDeferred (maxSize memCap : nat) (order : list (string * (nat -> Outcome))) (os : nat -> Outcome)
    (now : Z) (expired expired2 : nat -> bool) (faults : nat -> TxFault) (tr : list Act) (n : Node) : Node :=
  foldl (fun n a => match a with
                    | ACloseStore => closeStore maxSize memCap order os now n
                    | AStopWriter => stopWriter expired expired2 faults n
                    | _ => n
                    end) n tr.

(** ** Lemmas *)

(** [need] has happened before every act that [use] selects. *)
Fixpoint guarded (need : list Act) (use : Act -> bool) (past : list Act) (tr : list Act) : bool :=
  match tr with
  | [] => true
  | a :: tr' => (negb (use a) || forallb (fun n => bool_decide (n ∈ past)) need) && guarded need use (past ++ [a]) tr'
  end.

Lemma guarded_spec need use past tr tr1 a tr2 :
  guarded need use past tr = true -> tr = tr1 ++ a :: tr2 -> use a = true -> need ⊆ past ++ tr1.
Proof.
  revert past tr1. induction tr as [|x tr IH]; intros past tr1 Hg Heq Hu; simpl in *.
  - by destruct tr1.
  - apply andb_true_iff in Hg as [Hx Hg]. destruct tr1 as [|y tr1]; simplify_list_eq.
    + rewrite Hu in Hx. simpl in Hx. intros n Hn.
      rewrite forallb_forall in Hx. apply (bool_decide_eq_true_1 (n ∈ past)), Hx. by apply list_elem_of_In.
    + rewrite (cons_middle y), app_assoc. by eapply IH.
Qed.

Definition deferredCalls : list Act := [ACloseStore; AStopWriter; AWCancel; ACancel; ACloseControl].

(** What can put an event into the store: the crawlers, the scheduler, the clients. *)
Definition saves (a : Act) : bool :=
  bool_decide (a ∈ [AGo GCrawler; AGo GPriority; AGo GSched; AListen]).
Definition ingestReady : list Act := [AOpenControl; AInitStore; AWarm; ASetOnFlushed; AGo GWriter].

(** A cold start is in the trace exactly when [Warm] failed. *)
Definition coldStart (env : MainEnv) (past : list Act) : Prop := AStartCold ∈ past <-> m_warm env ≠ None.

Definition main_trace (env : MainEnv) : list Act := (runProg (main env) []).1.

(** The traces of [main], by the outcomes of its calls. *)
Lemma main_checks env :
  let '(tr, ex) := runProg (main env) [] in
  guarded ingestReady saves [] tr = true /\
  guarded (if m_warm env then [AStartCold] else []) saves [] tr = true /\
  (m_warm env = None -> AStartCold ∉ tr) /\
  match ex with
  | Returned => take (length tr - 5) tr ++ deferredCalls = tr /\
      Forall (fun a => a ∉ deferredCalls) (take (length tr - 5) tr) /\ AListen ∈ tr
  | Exited => Forall (fun a => a ∉ deferredCalls) tr
  end.
Proof.
  unfold main. destruct (m_config env) as [cfg|]; [|destruct (m_warm env); by split_and!; try set_solver; repeat constructor; set_solver].
  destruct (m_control env); [destruct (m_warm env); by split_and!; try set_solver; repeat constructor; set_solver|].
  destruct (m_store env); [destruct (m_warm env); by split_and!; try set_solver; repeat constructor; set_solver|].
  unfold mainIngest, mainAccess, mainServe, whenGo.
  destruct (m_warm env),
    (negb (bool_decide (PriorityPubkeys (cfgCrawler cfg) = [])) || negb (bool_decide (Relays (cfgCrawler cfg) = []))),
    (AuthEnabled (cfgAuth cfg)), (String.eqb (ServiceURL (cfgRelay cfg)) ""), (m_access env), (m_listen env);
    simpl; (split; [by vm_compute|]); (split; [by vm_compute|]);
    (split; [first [done|intros _; apply (bool_decide_unpack _); by vm_compute]|]);
    try (apply (bool_decide_unpack _); by vm_compute);
    split_and!; try done; apply (bool_decide_unpack _); by vm_compute.
Qed.

Lemma main_serves_authed env cfg :
  m_config env = Ok cfg -> AuthEnabled (cfgAuth cfg) = true -> AListen ∈ main_trace env ->
  ServiceURL (cfgRelay cfg) ≠ "" /\ m_access env = None.
Proof.
  intros Hc Ha. unfold main_trace, main. rewrite Hc.
  destruct (m_control env); [simpl; set_solver|]. destruct (m_store env); [simpl; set_solver|].
  unfold mainIngest, mainAccess, whenGo. rewrite Ha.
  destruct (m_warm env), (negb _ || _), (String.eqb_spec (ServiceURL (cfgRelay cfg)) ""), (m_access env); simpl; try done;
    intros H%list_elem_of_In; exfalso; revert H; vm_compute; intuition discriminate.
Qed.

Lemma runDeferred_app maxSize memCap order os now expired expired2 faults tr1 tr2 n :
  Forall (fun a => a ∉ deferredCalls) tr1 ->
  runDeferred maxSize memCap order os now expired expired2 faults (tr1 ++ tr2) n =
  runDeferred maxSize memCap order os now expired expired2 faults tr2 n.
Proof.
  induction 1 as [|a tr Ha _ IH]; [done|]. simpl. destruct a; try exact IH; exfalso; apply Ha; set_solver.
Qed.

Definition closeWorkers (h : Handles) : list Release :=
  map RTier (map fst (map_to_list (h_tiers h))) ++
  (if h_tw h then [RTombstones] else []) ++ (if h_fw h then [RFeed] else []).
Definition closeConns (h : Handles) : list Release :=
  (if h_ch h then [RConn poolReadConns] else []) ++
  (if h_sch h then [RConn poolStatsConns] else []) ++
  (if h_wch h then [RConn poolWriteConns] else []).

Lemma Close_split h : Close h = closeWorkers h ++ closeConns h.
Proof. unfold Close, closeWorkers, closeConns. by rewrite <-!app_assoc. Qed.

Lemma closeWorkers_elem h r :
  r ∈ closeWorkers h <->
  match r with
  | RTier t => is_Some (h_tiers h !! t)
  | RTombstones => is_Some (h_tw h)
  | RFeed => is_Some (h_fw h)
  | RConn _ => False
  end.
Proof.
  unfold closeWorkers. rewrite !elem_of_app, list_elem_of_fmap.
  assert (forall t, t ∈ map fst (map_to_list (h_tiers h)) <-> is_Some (h_tiers h !! t)) as Ht.
  { intros t. rewrite list_elem_of_fmap. split.
    - intros ([t' b] & -> & Hin%elem_of_map_to_list). by exists b.
    - intros [b Hb]. exists (t, b). by rewrite elem_of_map_to_list. }
  setoid_rewrite Ht. unfold is_Some. destruct r, (h_tw h), (h_fw h); simpl; set_unfold; naive_solver.
Qed.

Lemma Close_NoDup h : NoDup (Close h).
Proof.
  rewrite Close_split. apply NoDup_app. split_and!.
  - unfold closeWorkers. apply NoDup_app. split_and!.
    + apply NoDup_fmap_2; [by intros ?? [=]|]. apply NoDup_fst_map_to_list.
    + intros r (t & -> & _)%list_elem_of_fmap. destruct (h_tw h), (h_fw h); set_solver.
    + destruct (h_tw h), (h_fw h); apply (bool_decide_unpack _); by vm_compute.
  - intros r Hr%closeWorkers_elem. unfold closeConns.
    destruct r; try done; destruct (h_ch h), (h_sch h), (h_wch h); set_solver.
  - unfold closeConns. destruct (h_ch h), (h_sch h), (h_wch h); apply (bool_decide_unpack _); by vm_compute.
Qed.

(** What a store owns, and the order in which it is given back. *)
Definition owns (h : Handles) (r : Release) : Prop :=
  match r with
  | RTier t => is_Some (h_tiers h !! t)
  | RTombstones => is_Some (h_tw h)
  | RFeed => is_Some (h_fw h)
  | RConn p => p = poolReadConns /\ h_ch h = true \/ p = poolStatsConns /\ h_sch h = true \/
               p = poolWriteConns /\ h_wch h = true
  end.
Definition closeRank (r : Release) : nat :=
  match r with RTier _ => 0 | RTombstones => 1 | RFeed => 1 | RConn _ => 2 end.

Lemma Close_elem h r : r ∈ Close h <-> owns h r.
Proof.
  rewrite Close_split, elem_of_app, closeWorkers_elem. unfold closeConns, owns.
  destruct r, (h_ch h), (h_sch h), (h_wch h); set_unfold; naive_solver.
Qed.

Lemma Close_sorted h : StronglySorted (fun r r' => (closeRank r <= closeRank r')%nat) (Close h).
Proof.
  unfold Close. set (rest := (if h_tw h then _ else _) ++ _).
  assert (StronglySorted (fun r r' => (closeRank r <= closeRank r')%nat) rest) as Hrest.
  { unfold rest. destruct (h_tw h), (h_fw h), (h_ch h), (h_sch h), (h_wch h); simpl; repeat constructor. }
  induction (map_to_list (h_tiers h)) as [|x l IH]; simpl; [done|]. constructor; [done|].
  apply Forall_forall. intros r _. simpl. lia.
Qed.

Lemma Close_order h l1 l2 r r' : Close h = l1 ++ r :: l2 -> r' ∈ l2 -> (closeRank r <= closeRank r')%nat.
Proof.
  intros Heq Hr'. pose proof (Close_sorted h) as Hs. rewrite Heq in Hs. clear Heq.
  induction l1 as [|x l1 IH]; apply StronglySorted_inv in Hs as [Hs HF]; [|by apply IH].
  by apply (proj1 (Forall_forall _ _) HF).
Qed.

(** Either the schema was not completed and nothing runs, or every worker was started. *)
Lemma Init_cases cfg env events_all feed err h sent feed' :
  Init cfg env events_all feed newStore = (err, h, sent, feed') ->
  (err ≠ None /\ h_tw h = None /\ h_fw h = None /\ h_tiers h = ∅ /\ feed' = feed) \/
  (sent = script (i_haveIdx env) (i_matTotal env) (cfgRetention cfg) /\
   h_tw h = Some newTombstoneWriter /\ h_fw h = Some newFeedWriter /\
   h_tiers h = list_to_map (map (fun t => (t, newBatcher)) activeTiers) /\
   feed' = (backfillFeed row_created_at (i_count env) (i_insert env) (i_now env) events_all feed).2 /\
   (err = None -> h_wch h && h_ch h && h_sch h = true)).
Proof.
  unfold Init. destruct (ensureDatabase _ _ _).1; [intros [= <- <- <- <-]; by left|].
  destruct (openConn (i_write env).1 _); [intros [= <- <- <- <-]; by left|].
  destruct (runs_initSchema (i_exec env) (i_haveIdx env) (i_matTotal env) (i_dictProbe env) (cfgRetention cfg))
    as (_ & _ & Hall).
  destruct (initSchema _ _ _ _ _) as [[e|] sent0]; [intros [= <- <- <- <-]; by left|].
  specialize (Hall eq_refl). cbn [fst snd] in Hall. subst sent0.
  destruct (openConn (i_read env).1 _); [intros [= <- <- <- <-]; by right|].
  destruct (openConn (i_stats env).1 _); intros [= <- <- <- <-]; by right.
Qed.

(** With a batch size of zero an insert carries no row. *)
Lemma sendOne_zero o b : table (sendOne 0 o b).2 = table b.
Proof. unfold sendOne. rewrite Nat.min_0_r. destruct o as [| |e [|]]; simpl; by rewrite ?app_nil_r. Qed.

Lemma attemptTail_table b : table (attemptTail b) = table b.
Proof. unfold attemptTail. cases; done. Qed.

Lemma attempt_zero o b : table (attempt 0 o b) = table b.
Proof.
  unfold attempt. destruct (pending (w b)); [apply attemptTail_table|].
  rewrite <-(sendOne_zero o b). destruct (sendOne 0 o b) as [[err|] b1]; [done|].
  by rewrite attemptTail_table.
Qed.

Lemma finalFlush_zero fuel sends k b : table (finalFlush 0 fuel sends k b).2 = table b.
Proof.
  revert k b. induction fuel as [|fuel IH]; intros k b; cbn [finalFlush]; [done|].
  set (b1 := match pending (w b) with [] => _ | _ => _ end).
  assert (table b1 = table b) as <- by (unfold b1; by case_match).
  destruct (pending (w b1)); [done|]. rewrite <-(sendOne_zero (sends k) b1).
  destruct (sendOne 0 (sends k) b1) as [[err|] b2]; [done|]. by rewrite IH.
Qed.

Lemma step_zero l b b' : step 0 l b = Some b' -> table b' = table b.
Proof.
  intros Hs. destruct l; simpl in Hs.
  - simplify_eq. unfold enqueue. cases; done.
  - cases; by simplify_eq.
  - by simplify_eq.
  - destruct (state (w b)), (inq b); simplify_eq; by rewrite ?attempt_zero.
  - destruct (state (w b)); simplify_eq. by rewrite attempt_zero.
  - destruct (state (w b)), (flushReq b); simplify_eq; rewrite attempt_zero; by destruct (pending (w b)).
  - destruct (state (w b)), (retryC (w b)); simplify_eq; by rewrite attempt_zero.
  - destruct (state (w b)), (stop b); simplify_eq; unfold onStop;
      pose proof (finalFlush_zero (S (length (waiting b))) sends 0%nat b) as H;
      destruct (finalFlush 0 _ sends 0 b); done.
Qed.

(** ** Properties *)

(** C20: the order of start and stop. In every run of [main], nothing that can save
    an event (a crawler, the scheduler, the listening server) starts before the
    database is open, the store initialized, warming the cache attempted, the flush
    callback registered and the durable writer running; the start is a cold one exactly
    when warming failed. A graceful return ends with closing the store, stopping the
    writer, and closing the control database, in this order, which is the shutdown
    [mainExit] describes, and nothing of it happens earlier; a fatal exit runs none of
    it. With auth enabled the server listens only when the service URL is set and the
    allow-list was loaded. *)
Theorem main_start_stop_order env tr ex :
  runProg (main env) [] = (tr, ex) ->
  (forall tr1 a tr2, tr = tr1 ++ a :: tr2 -> saves a = true -> ingestReady ⊆ tr1 /\ coldStart env tr1) /\
  (ex = Returned -> exists start, tr = start ++ deferredCalls /\ AListen ∈ start /\
     forall maxSize memCap order os now expired expired2 faults n,
       runDeferred maxSize memCap order os now expired expired2 faults tr n =
       mainExit maxSize memCap order os now expired expired2 faults n) /\
  (ex = Exited -> Forall (fun a => a ∉ deferredCalls) tr) /\
  (forall cfg, m_config env = Ok cfg -> AuthEnabled (cfgAuth cfg) = true -> AListen ∈ tr ->
     ServiceURL (cfgRelay cfg) ≠ "" /\ m_access env = None).
Proof.
  intros Hrun. pose proof (main_checks env) as Hc. rewrite Hrun in Hc. destruct Hc as (Hg & Hcold & Hwarm & Hex).
  split.
  { intros tr1 a tr2 Heq Hs. split; [exact (guarded_spec _ _ [] _ _ _ _ Hg Heq Hs)|].
    pose proof (guarded_spec _ _ [] _ _ _ _ Hcold Heq Hs) as Hin. unfold coldStart. simpl in Hin.
    destruct (m_warm env); [set_solver|]. split; [|done]. intros H. destruct (Hwarm eq_refl). set_solver. }
  split; [|split; [by intros ->|intros cfg Hcfg Ha Hl; apply (main_serves_authed env cfg Hcfg Ha);
    unfold main_trace; by rewrite Hrun]].
  intros ->. destruct Hex as (Heq & Hno & Hl). exists (take (length tr - 5) tr).
  split; [done|]. split.
  - rewrite <-Heq in Hl. apply elem_of_app in Hl as [Hl|Hl]; [done|set_solver].
  - intros. rewrite <-Heq, runDeferred_app by done. done.
Qed.

(** A start whose cache could not be warmed. *)
Lemma main_start_stop_order_witness :
  let env := mkMainEnv (Ok defaults) None None (Some (Opaque "locked")) None None in
  (ingestReady ⊆ [ALoadConfig; AOpenControl; AInitStore; ANotifyContext; AWarm; AStartCold; ASetOnFlushed; AGo GWriter;
    AGo GPrune]) /\
  exists start, main_trace env = start ++ deferredCalls.
Proof.
  intros env.
  destruct (main_start_stop_order env (main_trace env) Returned) as (H1 & H2 & _); [vm_compute; reflexivity|].
  split.
  - apply (H1 _ (AGo GCrawler) [AGo GStats; ANewRelay; AGo GSched; ARegisterAPI; AGo GPprofStop; AGo GPprof;
      AGo GServerStop; AListen; ACloseStore; AStopWriter; AWCancel; ACancel; ACloseControl]); vm_compute; reflexivity.
  - destruct (H2 eq_refl) as (start & Hs & _). exists start. exact Hs.
Defined.

(** C21: what [Init] establishes. A nil result means the whole DDL script was sent and
    the store is in the initial state the other theorems start from: one fresh
    batcher per active tier and no other, a fresh tombstone writer and feed writer,
    all three pools open, and [SetOnFlushed] reaches every tier. It does not mean a
    filled feed: an empty feed is filled with the window of the tiers only if the
    backfill's two statements succeed, and its failure is only logged. While the
    schema is incomplete no worker runs. Whatever fails, [Close] shuts down exactly the
    workers [Init] started (batchers, tombstone writer, feed writer) and closes exactly
    the pools it opened, each once, the batchers before the two writers and the workers
    before the connections. *)
Theorem init_establishes cfg env events_all feed err h sent feed' :
  Init cfg env events_all feed newStore = (err, h, sent, feed') ->
  let full := script (i_haveIdx env) (i_matTotal env) (cfgRetention cfg) in
  (err = None -> sent = full /\ h_wch h && h_ch h && h_sch h = true /\
     h_tw h = Some newTombstoneWriter /\ h_fw h = Some newFeedWriter /\
     (forall t b, h_tiers h !! t = Some b <-> t ∈ activeTiers /\ b = newBatcher) /\
     (forall t, t ∈ h_onFlushed (SetOnFlushed h) <-> t ∈ activeTiers) /\
     (feed = [] -> i_count env = None -> i_insert env = None ->
        feed' = filter (fun r => i_now env - feedRetention / Second <= row_created_at r) events_all)) /\
  (sent ≠ full -> h_tw h = None /\ h_fw h = None /\ h_tiers h = ∅ /\ feed' = feed) /\
  NoDup (Close h) /\
  (forall r, r ∈ Close h <-> owns h r) /\
  (forall l1 l2 r r', Close h = l1 ++ r :: l2 -> r' ∈ l2 -> (closeRank r <= closeRank r')%nat).
Proof.
  intros HI full. split_and!; [| |apply Close_NoDup|apply Close_elem|apply Close_order].
  - intros ->. destruct (Init_cases _ _ _ _ _ _ _ _ HI) as [(? & _)|(Hs & Htw & Hfw & Ht & Hf & Hp)]; [done|].
    split_and!; [done|by apply Hp|done|done|by rewrite Ht; apply activeTiers_map| |].
    + intros t. cbn [h_onFlushed SetOnFlushed]. rewrite elem_of_dom, Ht. unfold is_Some.
      setoid_rewrite activeTiers_map. naive_solver.
    + intros -> Hc Hi. rewrite Hf. unfold backfillFeed. by rewrite Hc, Hi.
  - intros Hne. by destruct (Init_cases _ _ _ _ _ _ _ _ HI) as [(_ & H)|(Hs & _)].
Qed.

(** A first boot on a fresh server. *)
Definition demo_init : InitEnv :=
  mkInitEnv None None (None, None) (None, None) (None, None) (fun _ _ => None)
    (fun _ => Ok 0) (fun _ => Ok 0) None None (Some (Opaque "timeout")) 0.

Lemma init_establishes_witness :
  let h := (Init defaults demo_init [] [] newStore).1.1.2 in
  h_tw h = Some newTombstoneWriter /\ RTombstones ∈ Close h /\ RFeed ∈ Close h.
Proof.
  intros h.
  destruct (init_establishes defaults demo_init [] [] None h (Init defaults demo_init [] [] newStore).1.2 [])
    as (H1 & _ & _ & H4 & _); [vm_compute; reflexivity|].
  destruct (H1 eq_refl) as (_ & _ & Htw & Hfw & _). split; [exact Htw|].
  split; apply H4; [exists newTombstoneWriter; exact Htw|exists newFeedWriter; exact Hfw].
Defined.

(** The configuration is not validated: with batch.maxSize 0 every insert carries an
    empty chunk, so under every schedule and whatever inserts succeed, no row ever
    reaches a tier table. *)
Theorem zero_batch_size_stores_nothing ls b : run 0 ls newBatcher = Some b -> table b = [].
Proof.
  assert (forall b0, run 0 ls b0 = Some b -> table b = table b0) as H; [|intros Hr; by rewrite (H _ Hr)].
  induction ls as [|l ls IH]; intros b0 Hr; simpl in Hr; [by simplify_eq|].
  destruct (step 0 l b0) as [b1|] eqn:Es; [|done]. rewrite (IH _ Hr). by eapply step_zero.
Qed.
